(* ===== verification/_CoqProject ===== *)
-Q . S2P
Prelude.v
StringSets.v
ObjectKeys.v
ThreadSafeStore.v
Store.v
ExpirationCache.v
Fifo.v
DeltaFifo.v
Informer.v
RingGrowing.v
SharedInformer.v
Reflector.v
ReflectorStore.v
ReflectorInformer.v
Validation.v
Labels.v
LabelMaps.v
LabelParser.v
LabelPrinter.v
Listers.v
SortedLists.v
Llrb.v
LlrbBalance.v
LlrbMap.v
LlrbRefinement.v
ContainerHeap.v
Heap.v
WorkQueue.v
TokenBucket.v
RateLimiters.v
DelayingQueue.v
RateLimitingQueue.v
LruCache.v
ArcCache.v
TwoQueueCache.v
Snappy.v
SnappyFormat.v
SnappyRoundtrip.v
SnappyStream.v
SnappyFraming.v
Wait.v
ResourceLock.v
LeaderElection.v
ApiServer.v
LeaderSafety.v
LeaderRuns.v
MutationCache.v
BTree.v
BTreeLists.v
BTreeLogic.v
BTreeNodes.v
BTreeInsert.v
BTreeRemove.v
BTreeReads.v
BTreeClones.v
BTreeOps.v
BTreeRefinement.v
FieldSelectors.v
FieldPrinter.v
Decimals.v
InfDec.v
InfDecExact.v
Amounts.v
AmountsExact.v
Quantity.v
QuantityExact.v
QuantityText.v
