(* ===== verification/Prelude.v ===== *)
(** * Verification of the client-go machinery in istio's vendor tree

    The repository is the vendored source of istio's dependencies.  This library
    verifies the part of it that istio's control plane runs on: how a client of the
    Kubernetes API keeps a local copy of the server's objects and works through their
    changes ([k8s.io/client-go/tools/cache], [util/workqueue], [util/buffer] and the
    sets of [k8s.io/apimachinery]), how it selects among them ([apimachinery/pkg/labels], [pkg/fields]),
    how it computes with amounts of resources ([apimachinery/pkg/api/resource], on the
    decimals of [gopkg.in/inf.v0]),
    how replicas of a client elect a leader ([client-go/tools/leaderelection], with the
    polling of [apimachinery/pkg/util/wait]), the token bucket that limits its rate
    ([github.com/juju/ratelimit]), the caches of
    [github.com/hashicorp/golang-lru], the ordered trees of [github.com/petar/GoLLRB] and
    [github.com/google/btree], and the compression of [github.com/golang/snappy].

    ** The parts and how they interact

    A reflector lists and watches objects and puts what it sees into a [DeltaFIFO];
    the informer's loop pops the pending changes of one object at a time, applies them
    to its indexer and tells its listeners, each of which buffers its notifications in
    a growing ring.  Handlers put keys into a work queue, from which workers take them;
    failed keys come back after a delay that a rate limiter computes.  Listers read the
    indexer, by namespace and by label selector.

    - [Prelude]: outcomes of Go calls as a state monad with panics, errors as values,
      the order in which a map is ranged over, slices, 64-bit integers.
    - [StringSets] ([apimachinery/pkg/util/sets/string.go]): [sets.String] as [gset].
    - [ObjectKeys] ([store.go], [index.go]): keys of API objects.
    - [ThreadSafeStore] ([thread_safe_store.go]): items, indexers and indices; the
      class [ThreadSafeStore] is what the cache uses of it.
    - [Store] ([store.go], [undelta_store.go]): the cache, proved against that class.
    - [ExpirationCache] ([expiration_cache.go]): entries that expire when read.
    - [Fifo] ([fifo.go]) and [DeltaFifo] ([delta_fifo.go]): the two queues.
    - [Informer] ([controller.go], [shared_informer.go]): deltas into the indexer, and
      the whole informer as a state machine driven by server events.
    - [SharedInformer] ([shared_informer.go]): listeners, distribution, resync times.
    - [RingGrowing] ([util/buffer/ring_growing.go], [processorListener.pop]).
    - [Reflector] ([reflector.go]): lists, resumed watches, resyncs and [Run], over a
      class of stores with its laws and a server given by its answers; [ReflectorStore]:
      the cache is such a store.
    - [ReflectorInformer]: the queue of an informer is such a store; a reflector and the
      rounds of the informer's processing loop together.
    - [Validation] ([util/validation/validation.go]): the syntax of names, by regular
      expressions; [Labels] ([labels/selector.go], [labels/labels.go]): requirements,
      selectors and maps of labels; [LabelMaps]: maps of labels from and to strings;
      [LabelParser]: the lexer and the parser of selectors, and their grammar;
      [LabelPrinter]: parsing what was printed.
    - [FieldSelectors] ([fields/selector.go], [fields.go], [requirements.go]): selectors by
      fields, on strings as bytes read as UTF-8; [FieldPrinter]: parsing what was printed.
    - [Decimals]: 32-bit integers, digits and powers of ten, integers from and to strings;
      [InfDec] ([inf.v0/dec.go], [rounder.go]): decimals; [InfDecExact]: them as rational
      numbers; [Amounts] ([resource/amount.go], [math.go], [scale_int.go]): amounts as
      scaled integers and as decimals; [AmountsExact]: their arithmetic; [Quantity]
      ([resource/quantity.go], [suffix.go]): quantities; [QuantityExact]: their arithmetic;
      [QuantityText]: parsing and printing them.
    - [Listers] ([listers.go], [meta.go]): clients of the cache and of selectors.
    - [ContainerHeap]: the standard library's container/heap, over a class of heap
      implementations with its laws; [Heap] ([heap.go]) and the priority queue of
      [DelayingQueue] are its instances.
    - [WorkQueue] ([queue.go]), [DelayingQueue] ([delaying_queue.go]), [RateLimiters]
      ([default_rate_limiters.go]), [RateLimitingQueue] ([rate_limitting_queue.go]),
      [TokenBucket] ([juju/ratelimit/ratelimit.go]).
    - [Wait] ([wait.go]): loops with timers, backoff and polling in a world with a clock.
    - [ResourceLock] ([resourcelock/interface.go], [configmaplock.go], [endpointslock.go],
      [meta/v1/time.go]): the record of an election and the locks that keep it in an API
      object; [ApiServer]: the class of API servers with its laws, and one instance;
      [LeaderElection] ([leaderelection.go]): attempts and loops of an elector;
      [LeaderSafety]: electors interleaved with each other and with the network, and their
      invariant; [LeaderRuns]: the theorems on them, and attempts that run undisturbed.
    - [LruCache] ([simplelru/lru_interface.go], [simplelru/lru.go], [lru.go]): the class
      of recency-ordered caches with its laws, its implementation by a list of elements
      and a map, the same seen as a bounded map; [ArcCache] ([arc.go]) and
      [TwoQueueCache] ([2q.go]) are clients of that class.
    - [MutationCache] ([mutation_cache.go], [util/cache/lruexpirecache.go]): recent updates in
      front of a store, a client of that class and of the store's.
    - [SortedLists]: sorted lists of items, the specification of both kinds of trees.
    - [Llrb] ([llrb/llrb.go], [llrb/iterator.go]): red-black trees; [LlrbBalance]: their
      shape as 2-3 trees; [LlrbMap]: the items in order; [LlrbRefinement]: sequences of
      operations, heights and iterators.
    - [BTree] ([btree/btree.go]): B-trees with copy-on-write clones and free lists, in a
      memory of nodes; [BTreeLists]: the lists nodes stand for; [BTreeLogic]: a separation
      logic of that memory, with owned and shared nodes (in Iris); [BTreeNodes]: subtrees;
      [BTreeInsert], [BTreeRemove], [BTreeReads] and [BTreeClones]: what inserting, deleting,
      reading, iterating, clearing and cloning do to them; [BTreeOps]: whole trees;
      [BTreeRefinement]: sequences of operations on many trees, and what holds of runs of
      the code, stated without the logic.
    - [Snappy] ([encode_other.go], [decode_other.go], [encode.go], [decode.go]): block
      encoder and decoder; [SnappyFormat]: the block format and the decoder on it;
      [SnappyRoundtrip]: the encoder; [SnappyStream] and [SnappyFraming]: [Writer] and
      [Reader] of the framing format.

    ** State and operations

    A receiver is a record with the fields of the Go struct.  A method that holds the
    receiver's lock is one function from the receiver to its result and the new
    receiver; goroutines that communicate through such methods are arbitrary sequences
    of them; what a select statement receives is a list of signals.  A call that would
    wait on a condition variable is a result of its own ([PopBlocked], [GetBlocked], ...).
    Where the code shares objects by pointer (the entries of the delaying queue, the
    elements of an eviction list, the nodes of a B-tree) the model has their addresses.  Time is an argument.  A
    Go map that is ranged over is ranged over in an order that is an argument.  Panics are
    values: the [Panic] outcome, or [None] in [Snappy] and [Keys], where a slice or an
    index out of range panics.

    A client of the API server is a tree of actions and responses ([prog]).  It is run by
    [run] in one world of any kind, and action by action in the step relation of
    [LeaderSafety], where the writes the server accepted are recorded for the proofs.

    ** What the theorems show

    - Stores: indices are exactly what the index functions say of the items; a cache
      is a map from keys to objects; expired objects are never returned.
    - Queues: invariants of [DeltaFIFO] and [FIFO], what [Pop] hands out and in which
      order, when they report that they have synced; a keyed heap is a map whose [Pop]
      takes a least object; an item of the work queue is never given to two workers
      and never forgotten.
    - Informer: the store with the pending deltas applied is the server's state, and
      popping catches up with it, but for exactly the keys that the last relist missed and
      no watch event has reported since; [missed] says which these are, and the theorems
      named [relist_*] show the two ways to miss one.  Notifications replay to the store; a
      listener gets its notifications in order through every wrap-around and growth of its
      buffer.
    - Reflector: the store holds the server's objects as of the version reported, through
      every sequence of lists and watches, watches that end in errors included; with an
      informer behind it, the informer's store with its pending deltas applied is that
      state, with the same exception.
    - Caches: an LRU cache is a list in the order of last use, the callback gets exactly
      what leaves it; the adaptive and the two-queue cache answer with the value last
      written, within bounds that the theorems [*_exceeds_size] show to be reached; behind
      a mutation cache a client reads its own writes ([added_object_read_once] is where not).
    - Selectors: the validators accept the documented syntax and nothing else; matching
      means what is documented; the parser returns on every input, follows its grammar,
      gives well-formed selectors and undoes printing, as does that of field selectors;
      [parse_departs_from_grammar], [parse_refuses_empty_values], [parse_refuses_empties],
      [Set_String_not_parsed], [fields_not_escaped] and [Unescape_replaces_bytes] are where
      the code and its documentation differ.  Listers return exactly the objects asked for.
    - Quantities: decimals and quantities compute as rational numbers do, in either form and
      where 64 bits do not suffice; a string is parsed to the number it denotes, and the
      canonical form to the number it was printed from.  The conditions of these theorems
      are needed: [least_integer_wraps], [negative_values_differ], [far_exponents_panic],
      [cached_string_is_kept], [large_quantity_misprinted], [noncanonical_kept],
      [no_digits_accepted], [fractional_exponents_refused], [exponents_truncated],
      [parser_panics] and [GobDecode_short_panics] show what the code does outside of them
      and where it differs from what it documents.
    - Trees: without duplicates a tree is the sorted list of its items under every sequence
      of operations, balanced, and without panics; iterators visit their range.
      [Delete_loses_item] and [AscendLessThan_wrong] show where it is not so.  B-trees are
      independent sorted lists under every sequence of operations, whatever nodes clones
      share and free lists pass on; they are balanced, and no node is freed twice.
    - Leader election: at most one elector leads with a fresh lease, whatever becomes of its
      requests and however far clocks are apart; the record is a function of the accepted
      writes; a leader that stops renewing is replaced after its lease, and gives up within
      bounds; polling ends.  [renewal_unseen] shows why a second must be allowed for.
    - Rates: the token bucket grants no more than it may; delays double and are
      capped; the delaying queue releases exactly what is due, in order of time.
    - Snappy: decoding an encoding gives the input back, within the announced length
      bound; decoding anything at all terminates without an access out of range; what
      is written to a stream is what is read from it.

    ** Fuel

    Loops that are not structural carry fuel, and the theorems show that it suffices:
    [Snappy] loops advance in an input whose length is the fuel, [add_ready] pops at
    most as often as there are entries, [read_loop] consumes at least four bytes of the
    stream per round, [write_buffered] goes round at most three times, each round of the
    lexer and the parser of selectors advances, reading a string as UTF-8 advances, the deletions of [Llrb] recur into a
    smaller tree, a B-tree is no higher than it has items and deleting visits a node at most
    twice, removing factors of a number, printing its digits and counting its zeros divide it
    at least by two in each round, and a poll has as many rounds as intervals fit into its timeout and one more.  No theorem is
    conditional on the fuel.  The number of rounds of [watch_rounds] is not fuel: the loop
    of a reflector does not end, and its theorems hold after any number of rounds; nor are
    the rounds of [JitterUntil], which end when its channel is closed.

    ** Not modelled

    The transport behind the reflector's lists and watches, the name it takes from the call
    stack, the text of JSON documents, goroutine start-up and stop channels, metrics,
    logging, the mutation detector, typed listers, [IsValidIP] and
    [IsFullyQualifiedName], the height statistics of [Llrb], the debugging output of B-trees,
    callbacks of B-tree iterators that write to the tree they iterate over, the formatting and
    scanning of decimals by package fmt, the protobuf encoding of quantities, quantities as
    command-line flags, [NewBucketWithRate] (a search
    for a float rate), the amd64 assembly of snappy, and the rest of the vendor tree
    (generated API types, protobuf, cloud SDKs, gRPC), which these parts do not call. *)

From stdpp Require Export prelude gmap strings list sorting.

(** ** Outcomes of Go code

    A Go call that runs under its receiver's lock either returns a value or
    panics; in both cases the receiver is left in some state.  [st S A] is the
    type of such calls on a receiver of type [S]. *)
Inductive outcome (S A : Type) : Type :=
| Ret (a : A) (s : S)
| Panic (s : S).
Arguments Ret {S A} _ _.
Arguments Panic {S A} _.

Definition st (S A : Type) : Type := S → outcome S A.

#[export] Instance st_ret S : MRet (st S) := λ A a s, Ret a s.

#[export] Instance st_bind S : MBind (st S) := λ A B f m s,
  match m s with
  | Ret a s' => f a s'
  | Panic s' => Panic s'
  end.

(** The receiver an outcome leaves behind, and whether it panicked. *)
Definition final {S A} (o : outcome S A) : S :=
  match o with Ret _ s => s | Panic s => s end.

Definition panics {S A} (o : outcome S A) : bool :=
  match o with Ret _ _ => false | Panic _ => true end.

Definition st_get {S} : st S S := λ s, Ret s s.
Definition st_modify {S} (f : S → S) : st S () := λ s, Ret () (f s).
Definition st_panic {S A} : st S A := λ s, Panic s.

(** [for _, x := range l { body }] over a slice. *)
Fixpoint st_for {S X} (l : list X) (body : X → st S ()) : st S () :=
  match l with
  | [] => mret ()
  | x :: l' => body x ;; st_for l' body
  end.

(** ** Errors as values: a Go function returning [(T, error)]. *)
Inductive res (E A : Type) : Type :=
| Ok (a : A)
| Err (e : E).
Arguments Ok {E A} _.
Arguments Err {E A} _.

Definition is_ok {E A} (r : res E A) : bool :=
  match r with Ok _ => true | Err _ => false end.

(** ** Map iteration order

    [for k, v := range m] visits the entries of [m] in an order the language
    leaves open.  An operation that ranges over a map takes the order as an
    argument; [range_order] is all that is known of it. *)
Class range_order {K V} `{Countable K} (rng : gmap K V → list (K * V)) : Prop :=
  range_perm m : rng m ≡ₚ map_to_list m.

#[export] Instance range_order_map_to_list {K V} `{Countable K} :
  range_order (map_to_list : gmap K V → list (K * V)).
Proof. intros m. done. Qed.

Section range.
Context {K V} `{Countable K} (rng : gmap K V → list (K * V)) `{!range_order rng}.

Lemma range_elem m k v : (k, v) ∈ rng m ↔ m !! k = Some v.
Proof. by rewrite (range_perm m), elem_of_map_to_list. Qed.

Lemma range_NoDup_fst m : NoDup (rng m).*1.
Proof. rewrite (range_perm m). apply NoDup_fst_map_to_list. Qed.

Lemma range_length m : length (rng m) = size m.
Proof. by rewrite (range_perm m), length_map_to_list. Qed.

Lemma range_keys m k : k ∈ (rng m).*1 ↔ is_Some (m !! k).
Proof.
  rewrite list_elem_of_fmap. split.
  - intros [[k' v] [-> Hin]]. apply range_elem in Hin. by exists v.
  - intros [v Hv]. exists (k, v). split; [done|]. by apply range_elem.
Qed.
End range.

Lemma NoDup_fst_filter {K V} (P : K * V → Prop) `{∀ x, Decision (P x)} (l : list (K * V)) :
  NoDup l.*1 → NoDup (filter P l).*1.
Proof.
  induction l as [|[k v] l IH]; [done|]. rewrite fmap_cons. intros [Hk Hl]%NoDup_cons.
  rewrite filter_cons. case_decide; [|by apply IH]. cbn. apply NoDup_cons. split; [|by apply IH].
  intros [x [-> Hx]]%list_elem_of_fmap. apply Hk. apply list_elem_of_filter in Hx as [_ Hx].
  apply list_elem_of_fmap. by exists x.
Qed.

Lemma map_to_list_filter {K V} `{Countable K} (P : K * V → Prop) `{∀ x, Decision (P x)}
    (m : gmap K V) : map_to_list (filter P m) ≡ₚ filter P (map_to_list m).
Proof.
  rewrite map_filter_alt. apply map_to_list_to_map, NoDup_fst_filter, NoDup_fst_map_to_list.
Qed.

Lemma list_to_map_is_Some {K V} `{Countable K} (l : list (K * V)) k :
  is_Some ((list_to_map l : gmap K V) !! k) ↔ k ∈ l.*1.
Proof.
  rewrite <-not_eq_None_Some, <-not_elem_of_list_to_map.
  destruct (decide (k ∈ l.*1)); naive_solver.
Qed.

(** ** Loops that do not panic *)
Section loops.
Context {S X : Type}.

(** A call that returns ran its parts to their return. *)
Lemma st_bind_inv {A B} (m : st S A) (f : A → st S B) s b s' :
  (m ≫= f) s = Ret b s' → ∃ a s1, m s = Ret a s1 ∧ f a s1 = Ret b s'.
Proof. unfold mbind, st_bind. destruct (m s) as [a s1|]; [eauto|done]. Qed.

Lemma st_bind_ret {A B} (m : st S A) (f : A → st S B) s a s1 :
  m s = Ret a s1 → (m ≫= f) s = f a s1.
Proof. unfold mbind, st_bind. by intros ->. Qed.

Lemma st_for_cons_inv x (l : list X) (body : X → st S ()) s s' :
  st_for (x :: l) body s = Ret () s' →
  ∃ s1, body x s = Ret () s1 ∧ st_for l body s1 = Ret () s'.
Proof. cbn [st_for]. intros ([] & s1 & ? & ?)%st_bind_inv. eauto. Qed.

(** A loop whose body never panics is the fold of its effect. *)
Lemma st_for_ret (l : list X) (body : X → st S ()) (f : X → S → S) s :
  (∀ x s, x ∈ l → body x s = Ret () (f x s)) →
  st_for l body s = Ret () (foldl (λ s x, f x s) s l).
Proof.
  revert s. induction l as [|x l IH]; intros s Hb; [done|].
  cbn. unfold mbind, st_bind. rewrite Hb by set_solver.
  apply IH. intros y s' Hy. apply Hb. set_solver.
Qed.

(** An invariant of the body is an invariant of the loop, panicking or not. *)
Lemma st_for_final (P : S → Prop) (l : list X) (body : X → st S ()) s :
  (∀ x s, x ∈ l → P s → P (final (body x s))) →
  P s → P (final (st_for l body s)).
Proof.
  revert s. induction l as [|x l IH]; intros s Hb Hs; [done|].
  cbn. unfold mbind, st_bind.
  assert (P (final (body x s))) as Hx by (apply Hb; set_solver).
  destruct (body x s); cbn in *; [|done].
  apply IH; [|done]. intros y s' Hy. apply Hb. set_solver.
Qed.
End loops.

(** ** Slices

    [l[a:b]], which panics out of range, and [copy(dst, src)] as the new contents of
    [dst]. *)
Definition slice {A} (a b : nat) (l : list A) : option (list A) :=
  if bool_decide (a ≤ b ∧ b ≤ length l) then Some (take (b - a) (drop a l)) else None.

Definition copy {A} (dst src : list A) : list A :=
  take (length dst) src ++ drop (length src) dst.

Section slices.
Context {A : Type}.

Lemma slice_Some a b (l : list A) :
  a ≤ b ∧ b ≤ length l → slice a b l = Some (take (b - a) (drop a l)).
Proof. intros H. unfold slice. by rewrite bool_decide_eq_true_2. Qed.

Lemma slice_some a b (l : list A) :
  a ≤ b ∧ b ≤ length l → ∃ l', slice a b l = Some l' ∧ length l' = b - a.
Proof.
  intros H. rewrite slice_Some by done. eexists. split; [done|].
  rewrite length_take, length_drop. lia.
Qed.

Lemma slice_full b (l : list A) : length l = b → slice 0 b l = Some l.
Proof. intros <-. rewrite slice_Some by lia. rewrite Nat.sub_0_r, drop_0, take_ge; done. Qed.

Lemma length_copy (dst src : list A) : length (copy dst src) = length dst.
Proof. unfold copy. rewrite length_app, length_take, length_drop. lia. Qed.

Lemma lookup_copy_lt i (dst src : list A) :
  i < length src → i < length dst → copy dst src !! i = src !! i.
Proof.
  intros Hs Hd. unfold copy. rewrite lookup_app_l by (rewrite length_take; lia).
  by apply lookup_take_lt.
Qed.
End slices.

(** Linear arithmetic with quotients and remainders. *)
Ltac zlia := Z.to_euclidean_division_equations; lia.

(** ** 64-bit integers: [int64] arithmetic wraps around. *)
Definition in_i64 (z : Z) : Prop := (- 2 ^ 63 ≤ z < 2 ^ 63)%Z.

Definition i64 (z : Z) : Z := ((z + 2 ^ 63) mod 2 ^ 64 - 2 ^ 63)%Z.

Lemma i64_id z : in_i64 z → i64 z = z.
Proof. unfold in_i64, i64. intros Hz. rewrite Z.mod_small; lia. Qed.

Lemma i64_range z : in_i64 (i64 z).
Proof. unfold in_i64, i64. pose proof (Z.mod_pos_bound (z + 2 ^ 63) (2 ^ 64)). lia. Qed.

Lemma StronglySorted_impl_elem {A} (R R' : relation A) (l : list A) :
  (∀ x y, x ∈ l → y ∈ l → R x y → R' x y) → StronglySorted R l → StronglySorted R' l.
Proof.
  induction l as [|x l IH]; intros HR; [constructor|]. intros [Hl Hx]%StronglySorted_inv.
  constructor.
  - apply IH; [|done]. intros y z Hy Hz. apply HR; by right.
  - rewrite Forall_forall in *. intros y Hy. apply HR; [by left|by right|auto].
Qed.
