(* ===== verification/StringSets.v ===== *)
(** * String sets (k8s.io/apimachinery/pkg/util/sets/string.go)

    [sets.String] is a map from strings to empty structs, that is a finite set
    of strings.  The loops of the Go code are kept, with the iteration order of
    each [range] an argument; the lemmas show that they compute the set
    operations whatever the order. *)

From S2P Require Import Prelude.

(** [for key := range s] over a set, in some order. *)
Class set_order (rng : gset string → list string) : Prop :=
  set_range_perm s : rng s ≡ₚ elements s.

#[export] Instance set_order_elements : set_order elements.
Proof. intros s. done. Qed.

Definition String : Type := gset string.

Definition Insert (s : gset string) (items : list string) : gset string :=
  foldl (λ s item, {[item]} ∪ s) s items.

Definition NewString (items : list string) : gset string := Insert ∅ items.

(** The keys of a map, which the Go code reads by reflection. *)
Definition StringKeySet {V} (rng : gmap string V → list (string * V))
    (theMap : gmap string V) : gset string :=
  foldl (λ ret kv, Insert ret [kv.1]) ∅ (rng theMap).

Definition Delete (s : gset string) (items : list string) : gset string :=
  foldl (λ s item, s ∖ {[item]}) s items.

Definition Has (s : gset string) (item : string) : bool := bool_decide (item ∈ s).

Fixpoint HasAll (s : gset string) (items : list string) : bool :=
  match items with
  | [] => true
  | item :: items' => if negb (Has s item) then false else HasAll s items'
  end.

Fixpoint HasAny (s : gset string) (items : list string) : bool :=
  match items with
  | [] => false
  | item :: items' => if Has s item then true else HasAny s items'
  end.

Definition Len (s : gset string) : nat := size s.

(** [sort.Sort] on strings: the order is total and antisymmetric, so the sorted
    slice does not depend on the algorithm. *)
Definition List (rng : gset string → list string) (s : gset string) : list string :=
  merge_sort String.le (rng s).

Definition UnsortedList (rng : gset string → list string) (s : gset string) : list string :=
  rng s.

Definition Difference (rng : gset string → list string) (s s2 : gset string) : gset string :=
  foldl (λ result key, if negb (Has s2 key) then Insert result [key] else result)
    (NewString []) (rng s).

Definition Union (rng : gset string → list string) (s1 s2 : gset string) : gset string :=
  foldl (λ result key, Insert result [key])
    (foldl (λ result key, Insert result [key]) (NewString []) (rng s1)) (rng s2).

Definition Intersection (rng : gset string → list string) (s1 s2 : gset string) : gset string :=
  let '(walk, other) := if bool_decide (Len s1 < Len s2) then (s1, s2) else (s2, s1) in
  foldl (λ result key, if Has other key then Insert result [key] else result)
    (NewString []) (rng walk).

Definition IsSuperset (rng : gset string → list string) (s1 s2 : gset string) : bool :=
  HasAll s1 (rng s2).

Definition Equal (rng : gset string → list string) (s1 s2 : gset string) : bool :=
  bool_decide (Len s1 = Len s2) && IsSuperset rng s1 s2.

(** The removed element, the flag and the set left behind. *)
Definition PopAny (rng : gset string → list string) (s : gset string) :
    string * bool * gset string :=
  match rng s with
  | key :: _ => (key, true, Delete s [key])
  | [] => (EmptyString, false, s)
  end.

Arguments Insert : simpl never.
Arguments Delete : simpl never.
Arguments Has : simpl never.

(** ** Set semantics of the loops *)
Lemma elem_of_Insert x s items : x ∈ Insert s items ↔ x ∈ s ∨ x ∈ items.
Proof.
  unfold Insert. revert s. induction items as [|i items IH]; intros s; cbn; [set_solver|].
  rewrite IH. set_solver.
Qed.

Lemma elem_of_Delete x s items : x ∈ Delete s items ↔ x ∈ s ∧ x ∉ items.
Proof.
  unfold Delete. revert s. induction items as [|i items IH]; intros s; cbn; [set_solver|].
  rewrite IH. set_solver.
Qed.

(** [set_solver] sees through the two loops. *)
#[export] Instance set_unfold_Insert x s items P Q :
  SetUnfoldElemOf x s P → SetUnfoldElemOf x items Q →
  SetUnfoldElemOf x (Insert s items) (P ∨ Q).
Proof. intros [HP] [HQ]. constructor. by rewrite elem_of_Insert, HP, HQ. Qed.

#[export] Instance set_unfold_Delete x s items P Q :
  SetUnfoldElemOf x s P → SetUnfoldElemOf x items Q →
  SetUnfoldElemOf x (Delete s items) (P ∧ ¬ Q).
Proof. intros [HP] [HQ]. constructor. by rewrite elem_of_Delete, HP, HQ. Qed.

Lemma Has_spec s x : Has s x = true ↔ x ∈ s.
Proof. apply bool_decide_eq_true. Qed.

Lemma HasAll_spec s items : HasAll s items = true ↔ ∀ x, x ∈ items → x ∈ s.
Proof.
  induction items as [|i items IH]; cbn; [set_solver|].
  destruct (Has s i) eqn:E; cbn.
  - apply Has_spec in E. rewrite IH. set_solver.
  - split; [done|]. intros Hall.
    rewrite (proj2 (Has_spec s i)) in E; [done|]. set_solver.
Qed.

Lemma HasAny_spec s items : HasAny s items = true ↔ ∃ x, x ∈ items ∧ x ∈ s.
Proof.
  induction items as [|i items IH]; cbn; [set_solver|].
  destruct (Has s i) eqn:E; cbn.
  - apply Has_spec in E. split; [|done]. set_solver.
  - rewrite IH. split; [set_solver|]. intros (x & Hx & Hs).
    apply elem_of_cons in Hx as [->|Hx]; [|eauto].
    rewrite (proj2 (Has_spec s i)) in E; done.
Qed.

(** The filtering loop that Difference, Union and Intersection share. *)
Lemma elem_of_filter_loop (P : string → bool) l acc x :
  x ∈ foldl (λ r k, if P k then Insert r [k] else r) acc l ↔
  x ∈ acc ∨ (x ∈ l ∧ P x = true).
Proof.
  revert acc. induction l as [|k l IH]; intros acc; cbn; [set_solver|].
  rewrite IH, elem_of_cons.
  destruct (decide (x = k)) as [->|Hne]; destruct (P k) eqn:E;
    rewrite ?elem_of_Insert, ?list_elem_of_singleton; intuition congruence.
Qed.

Lemma elem_of_StringKeySet {V} (rng : gmap string V → list (string * V))
    `{!range_order rng} m x : x ∈ StringKeySet rng m ↔ is_Some (m !! x).
Proof.
  unfold StringKeySet. rewrite <-(range_keys rng m x).
  generalize (rng m); intros l. clear m.
  assert (∀ acc, x ∈ foldl (λ ret kv, Insert ret [kv.1]) acc l ↔ x ∈ acc ∨ x ∈ l.*1) as H.
  { induction l as [|[k v] l IH]; intros acc; cbn; [set_solver|].
    rewrite IH, elem_of_Insert. set_solver. }
  rewrite H. set_solver.
Qed.

Section ranged.
Context (rng : gset string → list string) `{!set_order rng}.

Lemma set_range_elem s x : x ∈ rng s ↔ x ∈ s.
Proof. by rewrite (set_range_perm s), elem_of_elements. Qed.

Lemma set_range_NoDup s : NoDup (rng s).
Proof. rewrite (set_range_perm s). apply NoDup_elements. Qed.

Lemma elem_of_List s x : x ∈ List rng s ↔ x ∈ s.
Proof. unfold List. by rewrite merge_sort_Permutation, set_range_elem. Qed.

Lemma NoDup_List s : NoDup (List rng s).
Proof. unfold List. rewrite merge_sort_Permutation. apply set_range_NoDup. Qed.

Lemma Sorted_List s : StronglySorted String.le (List rng s).
Proof. apply (StronglySorted_merge_sort _). Qed.

Lemma Difference_eq s s2 : Difference rng s s2 = s ∖ s2.
Proof.
  apply set_eq. intros x. unfold Difference.
  rewrite (elem_of_filter_loop (λ k, negb (Has s2 k))), set_range_elem.
  unfold Has. rewrite negb_true_iff, bool_decide_eq_false. set_solver.
Qed.

Lemma Union_eq s1 s2 : Union rng s1 s2 = s1 ∪ s2.
Proof.
  apply set_eq. intros x. unfold Union.
  rewrite !(elem_of_filter_loop (λ _, true)), !set_range_elem. set_solver.
Qed.

Lemma Intersection_eq s1 s2 : Intersection rng s1 s2 = s1 ∩ s2.
Proof.
  apply set_eq. intros x. unfold Intersection.
  case_bool_decide; rewrite elem_of_filter_loop, set_range_elem, Has_spec; set_solver.
Qed.

Lemma IsSuperset_spec s1 s2 : IsSuperset rng s1 s2 = true ↔ s2 ⊆ s1.
Proof. unfold IsSuperset. rewrite HasAll_spec. setoid_rewrite set_range_elem. set_solver. Qed.

Lemma Equal_spec s1 s2 : Equal rng s1 s2 = true ↔ s1 = s2.
Proof.
  unfold Equal, Len. rewrite andb_true_iff, bool_decide_eq_true, IsSuperset_spec. split.
  - intros [Hlen Hsub]. symmetry. apply set_eq. intros x. split; [set_solver|].
    intros Hx. apply dec_stable. intros Hn.
    assert (s2 ⊂ s1) as Hs by set_solver. apply subset_size in Hs. lia.
  - intros ->. done.
Qed.

(** The loops of [sets.String] compute the set algebra for every iteration
    order of the underlying map: difference, union, intersection (whichever side
    it walks), superset and equality tests, and [List] returns the elements
    exactly once, in increasing order. *)
Theorem sets_String_algebra s1 s2 :
  Difference rng s1 s2 = s1 ∖ s2 ∧ Union rng s1 s2 = s1 ∪ s2 ∧
  Intersection rng s1 s2 = s1 ∩ s2 ∧
  (IsSuperset rng s1 s2 = true ↔ s2 ⊆ s1) ∧ (Equal rng s1 s2 = true ↔ s1 = s2) ∧
  StronglySorted String.le (List rng s1) ∧ NoDup (List rng s1) ∧
  (∀ x, x ∈ List rng s1 ↔ x ∈ s1).
Proof.
  split_and!; auto using Difference_eq, Union_eq, Intersection_eq, IsSuperset_spec,
    Equal_spec, Sorted_List, NoDup_List, elem_of_List.
Qed.
End ranged.

Lemma sets_String_algebra_witness :
  Intersection elements {["a"; "b"]} {["b"; "c"; "d"]} = {["a"; "b"]} ∩ {["b"; "c"; "d"]} ∧
  List elements {["b"; "a"]} = ["a"; "b"].
Proof.
  split; [|reflexivity].
  apply (sets_String_algebra elements {["a"; "b"]} {["b"; "c"; "d"]}).
Defined.
