(* ===== verification/ObjectKeys.v ===== *)
(** * Object keys (k8s.io/client-go/tools/cache/store.go and index.go)

    How API objects are named in a store: [MetaNamespaceKeyFunc] packs a
    namespace and a name into one string, [SplitMetaNamespaceKey] takes it apart. *)

From Stdlib Require Import Ascii.
From S2P Require Import Prelude.

(** The objects a key function sees: an explicit key, an API object with a
    namespace and a name, or something without metadata. *)
Inductive meta_obj : Type :=
| ExplicitKey (key : string)
| ApiObject (namespace name : string)
| NotAnObject.

Definition MetaNamespaceKeyFunc (obj : meta_obj) : res string string :=
  match obj with
  | ExplicitKey key => Ok key
  | NotAnObject => Err "object has no meta"
  | ApiObject namespace name =>
    if bool_decide (0 < String.length namespace)
    then Ok (String.append namespace (String.append "/" name))
    else Ok name
  end.

(** [MetaNamespaceIndexFunc] of index.go. *)
Definition MetaNamespaceIndexFunc (obj : meta_obj) : res string (list string) :=
  match obj with
  | ApiObject namespace _ => Ok [namespace]
  | _ => Err "object has no meta"
  end.

(** [strings.Split(s, sep)] for a separator of one byte. *)
Fixpoint Split (sep : ascii) (s : string) : list string :=
  match s with
  | EmptyString => [EmptyString]
  | String.String c s' =>
    if bool_decide (c = sep) then EmptyString :: Split sep s'
    else match Split sep s' with
         | [] => [String.String c EmptyString]
         | w :: ws => String.String c w :: ws
         end
  end.

Definition SplitMetaNamespaceKey (key : string) : res string (string * string) :=
  match Split "/" key with
  | [name] => Ok (EmptyString, name)
  | [namespace; name] => Ok (namespace, name)
  | _ => Err (String.append "unexpected key format: " key)
  end.

Fixpoint no_char (sep : ascii) (s : string) : Prop :=
  match s with
  | EmptyString => True
  | String.String c s' => c ≠ sep ∧ no_char sep s'
  end.

Lemma Split_no_char sep s : no_char sep s → Split sep s = [s].
Proof.
  induction s as [|c s IH]; [done|]. intros [Hc Hs]. cbn.
  rewrite bool_decide_false, IH by done. done.
Qed.

Lemma Split_append sep s t : no_char sep s →
  Split sep (String.append s (String.String sep t)) = s :: Split sep t.
Proof.
  induction s as [|c s IH]; intros Hs; [change (String.append EmptyString ?u) with u; cbn [Split]; by rewrite bool_decide_true|]. destruct Hs as [Hc Hs].
  change (String.append (String.String c s) ?u) with (String.String c (String.append s u)).
  cbn [Split]. by rewrite bool_decide_false, IH.
Qed.

(** Splitting a key undoes [MetaNamespaceKeyFunc] for every API object whose
    namespace and name have no slash, with or without a namespace. *)
Theorem SplitMetaNamespaceKey_roundtrip namespace name key :
  no_char "/" namespace → no_char "/" name →
  MetaNamespaceKeyFunc (ApiObject namespace name) = Ok key →
  SplitMetaNamespaceKey key = Ok (namespace, name).
Proof.
  intros Hns Hn. unfold MetaNamespaceKeyFunc, SplitMetaNamespaceKey.
  case_bool_decide as Hlen; intros [= <-].
  - change (String.append "/" name) with (String.String "/" name).
    by rewrite Split_append, Split_no_char by done.
  - rewrite Split_no_char by done. destruct namespace; [done|]. cbn in Hlen. lia.
Qed.

Lemma SplitMetaNamespaceKey_roundtrip_witness :
  SplitMetaNamespaceKey "istio-system/pilot" = Ok ("istio-system", "pilot").
Proof.
  apply SplitMetaNamespaceKey_roundtrip; [cbn; intuition congruence..|reflexivity].
Defined.
