(* ===== verification/ThreadSafeStore.v ===== *)
(** * The indexed store of the client-go cache
    (k8s.io/client-go/tools/cache/thread_safe_store.go, index.go)

    [threadSafeMap] keeps objects by key and, for each indexer, an inverted
    index from index values to sets of keys.  Every method runs under the
    store's lock, so a method is one atomic state transformer; a failing index
    function makes the Go code panic, which [outcome] records together with the
    state the panic leaves behind. *)

From S2P Require Import Prelude StringSets.

Section ThreadSafeStore.
(** The objects an [interface{}] may hold; [nil] is [None]. *)
Context {Obj : Type}.

Abbreviation iface := (option Obj).

(** An [IndexFunc] is a function from objects to index values or an error. *)
Abbreviation IndexFunc := (iface → res string (list string)).

Abbreviation KeyFunc := (iface → res string string).

Definition IndexFuncToKeyFuncAdapter (indexFunc : IndexFunc) : KeyFunc := λ obj,
  match indexFunc obj with
  | Err err => Err err
  | Ok indexKeys =>
    if bool_decide (1 < length indexKeys) then Err "too many keys"
    else match indexKeys with
         | [] => Err "unexpected empty indexKeys"
         | key :: _ => Ok key
         end
  end.

Abbreviation Index_t := (gmap string (gset string)).
Abbreviation Indexers := (gmap string IndexFunc).
Abbreviation Indices := (gmap string Index_t).

Record threadSafeMap := {
  items : gmap string iface;
  indexers : Indexers;
  indices : Indices;
}.

Definition set_items (m : gmap string iface) (c : threadSafeMap) : threadSafeMap :=
  {| items := m; indexers := indexers c; indices := indices c |}.
Definition set_indices (ix : Indices) (c : threadSafeMap) : threadSafeMap :=
  {| items := items c; indexers := indexers c; indices := ix |}.

Definition NewThreadSafeStore (ixs : Indexers) (ix : Indices) : threadSafeMap :=
  {| items := ∅; indexers := ixs; indices := ix |}.

(** Reading a missing key of a Go map gives the zero value. *)
Definition item_at (c : threadSafeMap) (key : string) : iface := mjoin (items c !! key).

(** The inner loops over the index values of one object in one index. *)
Definition insert_values (key : string) (indexValues : list string) (index : Index_t) : Index_t :=
  foldl (λ index v, <[v := Insert (default ∅ (index !! v)) [key]]> index) index indexValues.

Definition delete_values (key : string) (indexValues : list string) (index : Index_t) : Index_t :=
  foldl (λ index v,
    match index !! v with
    | Some set => <[v := StringSets.Delete set [key]]> index
    | None => index
    end) index indexValues.

Definition deleteFromIndices (rng : Indexers → list (string * IndexFunc))
    (obj : iface) (key : string) : st threadSafeMap () :=
  c ← st_get;
  st_for (rng (indexers c)) (λ '(name, indexFunc),
    match indexFunc obj with
    | Err _ => st_panic
    | Ok indexValues =>
      st_modify (λ c,
        match indices c !! name with
        | None => c
        | Some index =>
          set_indices (<[name := delete_values key indexValues index]> (indices c)) c
        end)
    end).

Definition updateIndices (rng : Indexers → list (string * IndexFunc))
    (oldObj newObj : iface) (key : string) : st threadSafeMap () :=
  match oldObj with
  | Some _ => deleteFromIndices rng oldObj key
  | None => mret ()
  end ;;
  c ← st_get;
  st_for (rng (indexers c)) (λ '(name, indexFunc),
    match indexFunc newObj with
    | Err _ => st_panic
    | Ok indexValues =>
      st_modify (λ c,
        let index := default ∅ (indices c !! name) in
        set_indices (<[name := insert_values key indexValues index]> (indices c)) c)
    end).

Definition Add (rng : Indexers → list (string * IndexFunc))
    (key : string) (obj : iface) : st threadSafeMap () :=
  c ← st_get;
  let oldObject := item_at c key in
  st_modify (λ c, set_items (<[key := obj]> (items c)) c) ;;
  updateIndices rng oldObject obj key.

Definition Update (rng : Indexers → list (string * IndexFunc))
    (key : string) (obj : iface) : st threadSafeMap () :=
  c ← st_get;
  let oldObject := item_at c key in
  st_modify (λ c, set_items (<[key := obj]> (items c)) c) ;;
  updateIndices rng oldObject obj key.

Definition Delete (rng : Indexers → list (string * IndexFunc))
    (key : string) : st threadSafeMap () :=
  c ← st_get;
  match items c !! key with
  | Some obj =>
    deleteFromIndices rng obj key ;;
    st_modify (λ c, set_items (delete key (items c)) c)
  | None => mret ()
  end.

Definition Get (key : string) (c : threadSafeMap) : iface * bool :=
  (item_at c key, bool_decide (is_Some (items c !! key))).

Definition List (rngI : gmap string iface → list (string * iface)) (c : threadSafeMap) :
    list iface := (rngI (items c)).*2.

Definition ListKeys (rngI : gmap string iface → list (string * iface)) (c : threadSafeMap) :
    list string := (rngI (items c)).*1.

Definition Replace (rng : Indexers → list (string * IndexFunc))
    (rngI : gmap string iface → list (string * iface))
    (its : gmap string iface) : st threadSafeMap () :=
  st_modify (set_items its) ;;
  st_modify (set_indices ∅) ;;
  c ← st_get;
  st_for (rngI (items c)) (λ '(key, item), updateIndices rng None item key).

Definition no_index (indexName : string) : string :=
  String.append "Index with name " (String.append indexName " does not exist").

Definition Index (rngS : gset string → list string)
    (indexName : string) (obj : iface) (c : threadSafeMap) : res string (list iface) :=
  match indexers c !! indexName with
  | None => Err (no_index indexName)
  | Some indexFunc =>
    match indexFunc obj with
    | Err err => Err err
    | Ok indexKeys =>
      let index := default ∅ (indices c !! indexName) in
      let returnKeySet :=
        foldl (λ ret indexKey,
          foldl (λ ret key, Insert ret [key]) ret
            (UnsortedList rngS (default ∅ (index !! indexKey)))) ∅ indexKeys in
      Ok (item_at c <$> rngS returnKeySet)
    end
  end.

Definition ByIndex (rngS : gset string → list string)
    (indexName indexKey : string) (c : threadSafeMap) : res string (list iface) :=
  match indexers c !! indexName with
  | None => Err (no_index indexName)
  | Some _ =>
    let index := default ∅ (indices c !! indexName) in
    let set := default ∅ (index !! indexKey) in
    Ok (item_at c <$> StringSets.List rngS set)
  end.

Definition IndexKeys (rngS : gset string → list string)
    (indexName indexKey : string) (c : threadSafeMap) : res string (list string) :=
  match indexers c !! indexName with
  | None => Err (no_index indexName)
  | Some _ =>
    let index := default ∅ (indices c !! indexName) in
    let set := default ∅ (index !! indexKey) in
    Ok (StringSets.List rngS set)
  end.

Definition ListIndexFuncValues (rngX : Index_t → list (string * gset string))
    (indexName : string) (c : threadSafeMap) : list string :=
  (rngX (default ∅ (indices c !! indexName))).*1.

Definition GetIndexers (c : threadSafeMap) : Indexers := indexers c.

Definition AddIndexers (rng : Indexers → list (string * IndexFunc))
    (rngS : gset string → list string) (newIndexers : Indexers) :
    st threadSafeMap (option string) :=
  c ← st_get;
  if bool_decide (0 < size (items c)) then
    mret (Some "cannot add indexers to running index")
  else
    let oldKeys := StringKeySet rng (indexers c) in
    let newKeys := StringKeySet rng newIndexers in
    if HasAny oldKeys (StringSets.List rngS newKeys) then mret (Some "indexer conflict")
    else
      st_modify (λ c,
        {| items := items c;
           indexers := foldl (λ m kv, <[kv.1 := kv.2]> m) (indexers c) (rng newIndexers);
           indices := indices c |}) ;;
      mret None.

(** [Resync] has nothing to do. *)
Definition Resync : st threadSafeMap (option string) := mret None.

(** ** What the index records *)

(** The keys the index [name] holds under the value [v]. *)
Definition keys_at (c : threadSafeMap) (name v : string) : gset string :=
  default ∅ (default ∅ (indices c !! name) !! v).

(** Every object in the store is non-nil, an index exists only for an indexer,
    and the index of every indexer is exactly the inverse image of its index
    function over the store. *)
Record index_inv (c : threadSafeMap) : Prop := {
  inv_nonnil : ∀ k o, items c !! k = Some o → is_Some o;
  inv_dom : ∀ name, is_Some (indices c !! name) → is_Some (indexers c !! name);
  inv_index : ∀ name (f : IndexFunc) v k, indexers c !! name = Some f →
    k ∈ keys_at c name v ↔
    ∃ obj vs, items c !! k = Some (Some obj) ∧ f (Some obj) = Ok vs ∧ v ∈ vs;
}.

(** The calls that change the store, on objects that are not nil. *)
Inductive op : Type :=
| OpAdd (key : string) (obj : Obj)
| OpUpdate (key : string) (obj : Obj)
| OpDelete (key : string)
| OpReplace (its : gmap string Obj)
| OpAddIndexers (ixs : Indexers).

(** [step c c']: one call on [c] returns (does not panic) and leaves [c'], for
    some iteration orders of the maps it ranges over. *)
Inductive step (c : threadSafeMap) : op → threadSafeMap → Prop :=
| step_add rng `{!range_order rng} key obj c' :
    Add rng key (Some obj) c = Ret () c' → step c (OpAdd key obj) c'
| step_update rng `{!range_order rng} key obj c' :
    Update rng key (Some obj) c = Ret () c' → step c (OpUpdate key obj) c'
| step_delete rng `{!range_order rng} key c' :
    Delete rng key c = Ret () c' → step c (OpDelete key) c'
| step_replace rng rngI `{!range_order rng, !range_order rngI} its c' :
    Replace rng rngI (Some <$> its) c = Ret () c' → step c (OpReplace its) c'
| step_add_indexers rng rngS `{!range_order rng, !set_order rngS} ixs r c' :
    AddIndexers rng rngS ixs c = Ret r c' → step c (OpAddIndexers ixs) c'.

Inductive reachable (ixs : Indexers) : list op → threadSafeMap → Prop :=
| reach_new : reachable ixs [] (NewThreadSafeStore ixs ∅)
| reach_step ops o c c' :
    reachable ixs ops c → step c o c' → reachable ixs (ops ++ [o]) c'.

(** ** Lemmas *)

Lemma lookup_insert_values key vs index v :
  default ∅ (insert_values key vs index !! v) =
  if bool_decide (v ∈ vs) then {[key]} ∪ default ∅ (index !! v) else default ∅ (index !! v).
Proof.
  unfold insert_values. revert index. induction vs as [|v' vs IH]; intros index; cbn.
  { by rewrite bool_decide_false by set_solver. }
  rewrite IH. destruct (decide (v = v')) as [->|Hne].
  - rewrite lookup_insert_eq, (bool_decide_true (v' ∈ v' :: vs)) by set_solver.
    cbn. case_bool_decide; apply set_eq; intros x; set_solver.
  - rewrite lookup_insert_ne by done.
    rewrite (bool_decide_ext (v ∈ v' :: vs) (v ∈ vs)) by set_solver. done.
Qed.

Lemma lookup_delete_values key vs index v :
  default ∅ (delete_values key vs index !! v) =
  if bool_decide (v ∈ vs) then default ∅ (index !! v) ∖ {[key]} else default ∅ (index !! v).
Proof.
  unfold delete_values. revert index. induction vs as [|v' vs IH]; intros index; cbn.
  { by rewrite bool_decide_false by set_solver. }
  rewrite IH. destruct (decide (v = v')) as [->|Hne].
  - rewrite (bool_decide_true (v' ∈ v' :: vs)) by set_solver.
    destruct (index !! v') as [set|] eqn:E; rewrite ?lookup_insert_eq, ?E; cbn;
      case_bool_decide; apply set_eq; intros x; set_solver.
  - rewrite (bool_decide_ext (v ∈ v' :: vs) (v ∈ vs)) by set_solver.
    destruct (index !! v') as [set|] eqn:E; [by rewrite lookup_insert_ne|done].
Qed.

(** The entry an object contributes to the index [name] under [v]: what the
    loops over the indexers add and remove. *)
Definition entry (l : list (string * IndexFunc)) (obj : iface) (name v : string) : Prop :=
  ∃ (f : IndexFunc) vs, (name, f) ∈ l ∧ f obj = Ok vs ∧ v ∈ vs.

Lemma entry_cons name0 f0 vs0 l obj name v :
  f0 obj = Ok vs0 →
  entry ((name0, f0) :: l) obj name v ↔ (name = name0 ∧ v ∈ vs0) ∨ entry l obj name v.
Proof.
  intros Hf0. split.
  - intros (f & vs & [Heq|Hin]%elem_of_cons & Hf & Hv); [left|right; by exists f, vs].
    simplify_eq. rewrite Hf0 in Hf. by simplify_eq.
  - intros [[-> Hv]|(f & vs & Hin & Hf & Hv)].
    + exists f0, vs0. split_and!; [left|done..].
    + exists f, vs. split_and!; [by right|done..].
Qed.

(** What a loop over indexers that adds (or removes) [key] has done. *)
Record loop_effect (add : bool) (l : list (string * IndexFunc)) (obj : iface)
    (key : string) (c c' : threadSafeMap) : Prop := {
  eff_items : items c' = items c;
  eff_indexers : indexers c' = indexers c;
  eff_dom : ∀ name, is_Some (indices c' !! name) → is_Some (indices c !! name) ∨ name ∈ l.*1;
  eff_keys : ∀ name v k, k ∈ keys_at c' name v ↔
    if add then k ∈ keys_at c name v ∨ (k = key ∧ entry l obj name v)
    else k ∈ keys_at c name v ∧ ¬ (k = key ∧ entry l obj name v);
}.

Lemma keys_at_set_indices c name0 index name v :
  keys_at (set_indices (<[name0 := index]> (indices c)) c) name v =
  if bool_decide (name = name0) then default ∅ (index !! v) else keys_at c name v.
Proof.
  unfold keys_at. cbn. case_bool_decide as Hn; subst.
  - by rewrite lookup_insert_eq.
  - by rewrite lookup_insert_ne.
Qed.

Lemma delete_loop_effect l obj key c c' :
  st_for l (λ '(name, indexFunc),
    match indexFunc obj with
    | Err _ => st_panic
    | Ok indexValues =>
      st_modify (λ c,
        match indices c !! name with
        | None => c
        | Some index =>
          set_indices (<[name := delete_values key indexValues index]> (indices c)) c
        end)
    end) c = Ret () c' →
  loop_effect false l obj key c c'.
Proof.
  revert c. induction l as [|[name0 f0] l IH]; intros c; cbn.
  { intros [= <-]. split; try done; [by left|]. intros name v k.
    split; [|naive_solver]. intros Hk. split; [done|]. intros [_ (f & vs & Hin & _)].
    by apply not_elem_of_nil in Hin. }
  unfold mbind, st_bind. destruct (f0 obj) as [vs0|] eqn:Hf0; [|done].
  cbn. intros Hl. apply IH in Hl as [Hit Hix Hdom Hkeys].
  destruct (indices c !! name0) as [index|] eqn:Hi; split; cbn in *; try done.
  - intros name Hs. apply Hdom in Hs as [Hs|Hs]; [|right; by right].
    destruct (decide (name = name0)) as [->|]; [by left; exists index|].
    rewrite lookup_insert_ne in Hs by done. by left.
  - intros name v k. rewrite Hkeys, entry_cons by done.
    rewrite keys_at_set_indices. case_bool_decide as Hn; [subst name|naive_solver].
    rewrite lookup_delete_values. unfold keys_at. rewrite Hi. cbn.
    case_bool_decide; [rewrite elem_of_difference, elem_of_singleton|]; naive_solver.
  - intros name Hs. apply Hdom in Hs as [Hs|Hs]; [by left|right; by right].
  - intros name v k. rewrite Hkeys, entry_cons by done.
    unfold keys_at. split; [|naive_solver].
    intros [Hk He]. split; [done|]. intros [-> [[-> ?]|?]]; [|naive_solver].
    rewrite Hi in Hk. cbn in Hk. rewrite lookup_empty in Hk. by apply not_elem_of_empty in Hk.
Qed.

Lemma insert_loop_effect l obj key c c' :
  st_for l (λ '(name, indexFunc),
    match indexFunc obj with
    | Err _ => st_panic
    | Ok indexValues =>
      st_modify (λ c,
        let index := default ∅ (indices c !! name) in
        set_indices (<[name := insert_values key indexValues index]> (indices c)) c)
    end) c = Ret () c' →
  loop_effect true l obj key c c'.
Proof.
  revert c. induction l as [|[name0 f0] l IH]; intros c; cbn.
  { intros [= <-]. split; try done; [by left|]. intros name v k.
    split; [naive_solver|]. intros [Hk|[_ (f & vs & Hin & _)]]; [done|].
    by apply not_elem_of_nil in Hin. }
  unfold mbind, st_bind. destruct (f0 obj) as [vs0|] eqn:Hf0; [|done].
  cbn. intros Hl. apply IH in Hl as [Hit Hix Hdom Hkeys].
  split; cbn in *; try done.
  - intros name Hs. apply Hdom in Hs as [Hs|Hs]; [|right; by right].
    destruct (decide (name = name0)) as [->|]; [right; left|].
    rewrite lookup_insert_ne in Hs by done. by left.
  - intros name v k. rewrite Hkeys, entry_cons by done.
    rewrite keys_at_set_indices. case_bool_decide as Hn; [subst name|naive_solver].
    rewrite lookup_insert_values. unfold keys_at.
    case_bool_decide; [rewrite elem_of_union, elem_of_singleton|]; naive_solver.
Qed.
(** [indexed c obj name v]: the index function [name] of [c] gives [v] for [obj]. *)
Definition indexed (c : threadSafeMap) (obj : iface) (name v : string) : Prop :=
  ∃ (f : IndexFunc) vs, indexers c !! name = Some f ∧ f obj = Ok vs ∧ v ∈ vs.

Section with_order.
Context (rng : Indexers → list (string * IndexFunc)) `{!range_order rng}.

Lemma entry_range c obj name v : entry (rng (indexers c)) obj name v ↔ indexed c obj name v.
Proof. unfold entry, indexed. by setoid_rewrite (range_elem rng). Qed.

Lemma deleteFromIndices_effect obj key c c' :
  deleteFromIndices rng obj key c = Ret () c' →
  items c' = items c ∧ indexers c' = indexers c ∧
  (∀ name, is_Some (indices c' !! name) →
    is_Some (indices c !! name) ∨ is_Some (indexers c !! name)) ∧
  (∀ name v k, k ∈ keys_at c' name v ↔
    k ∈ keys_at c name v ∧ ¬ (k = key ∧ indexed c obj name v)).
Proof.
  unfold deleteFromIndices, mbind, st_bind, st_get.
  intros [Hit Hix Hdom Hkeys]%delete_loop_effect. split_and!; try done.
  - intros name Hs. apply Hdom in Hs. by rewrite (range_keys rng) in Hs.
  - intros name v k. by rewrite Hkeys, entry_range.
Qed.

Lemma insertIndices_effect obj key c c' :
  updateIndices rng None obj key c = Ret () c' →
  items c' = items c ∧ indexers c' = indexers c ∧
  (∀ name, is_Some (indices c' !! name) →
    is_Some (indices c !! name) ∨ is_Some (indexers c !! name)) ∧
  (∀ name v k, k ∈ keys_at c' name v ↔
    k ∈ keys_at c name v ∨ (k = key ∧ indexed c obj name v)).
Proof.
  unfold updateIndices, mbind, st_bind, st_get, mret, st_ret.
  intros [Hit Hix Hdom Hkeys]%insert_loop_effect. split_and!; try done.
  - intros name Hs. apply Hdom in Hs. by rewrite (range_keys rng) in Hs.
  - intros name v k. by rewrite Hkeys, entry_range.
Qed.

Lemma updateIndices_split old new key c c' :
  updateIndices rng (Some old) new key c = Ret () c' →
  ∃ c1, deleteFromIndices rng (Some old) key c = Ret () c1 ∧
        updateIndices rng None new key c1 = Ret () c'.
Proof.
  unfold updateIndices, mbind, st_bind.
  destruct (deleteFromIndices rng (Some old) key c) as [[] c1|] eqn:E; [|done].
  intros H. by exists c1.
Qed.

Lemma indexed_ext c c' obj name v :
  indexers c' = indexers c → indexed c' obj name v ↔ indexed c obj name v.
Proof. intros Hix. unfold indexed. by rewrite Hix. Qed.

Lemma Add_inv key obj c c' :
  index_inv c → Add rng key (Some obj) c = Ret () c' → index_inv c'.
Proof.
  intros [Hnn Hd Hi]. unfold Add, st_get, st_modify, mbind, st_bind at 1.
  set (c0 := set_items (<[key := Some obj]> (items c)) c).
  assert (Hk0 : ∀ name v k, k ∈ keys_at c0 name v ↔ k ∈ keys_at c name v) by done.
  assert (∀ c1 c', items c1 = items c0 → indexers c1 = indexers c0 →
    (∀ name, is_Some (indices c1 !! name) → is_Some (indexers c !! name)) →
    (∀ name (f : IndexFunc) v k, indexers c !! name = Some f → k ∈ keys_at c1 name v ↔
      k ≠ key ∧ k ∈ keys_at c name v) →
    updateIndices rng None (Some obj) key c1 = Ret () c' → index_inv c') as Hfin.
  { clear c'. intros c1 c' Hit1 Hix1 Hd1 Hk1 (Hit & Hix & Hdom & Hkeys)%insertIndices_effect.
    split.
    - intros k o. rewrite Hit, Hit1. cbn. rewrite lookup_insert. case_decide; [|apply Hnn].
      by intros [= <-].
    - intros name Hs. rewrite Hix, Hix1. apply Hdom in Hs as [Hs|Hs]; [by apply Hd1|].
      by rewrite Hix1 in Hs.
    - intros name f v k. rewrite Hix, Hix1. cbn. intros Hf.
      rewrite Hkeys, (Hk1 _ _ _ _ Hf), (Hi _ _ _ _ Hf), Hit, Hit1. cbn.
      rewrite (indexed_ext c c1) by done. rewrite lookup_insert. unfold indexed.
      destruct (decide (key = k)) as [->|Hne]; naive_solver. }
  destruct (item_at c key) as [old|] eqn:Hold.
  - intros (c1 & (Hit & Hix & Hdom & Hkeys)%deleteFromIndices_effect & Hins)%updateIndices_split.
    apply (Hfin c1); try done.
    + intros name Hs. apply Hdom in Hs as [Hs|Hs]; [by apply Hd|done].
    + intros name f v k Hf. rewrite Hkeys.
      change (keys_at _ name v) with (keys_at c name v).
      destruct (decide (k = key)) as [->|Hne]; [|naive_solver].
      split; [|naive_solver]. intros [Hin Hn]. exfalso. apply Hn. split; [done|].
      apply (Hi _ _ _ _ Hf) in Hin as (o & vs & Ho & Hvs & Hv).
      unfold item_at in Hold. rewrite Ho in Hold. simplify_eq/=.
      exists f, vs. done.
  - intros Hins. apply (Hfin c0); try done. intros name f v k Hf. rewrite Hk0.
    split; [|naive_solver]. intros Hin. split; [|done]. intros ->.
    apply (Hi _ _ _ _ Hf) in Hin as (o & vs & Ho & _).
    unfold item_at in Hold. by rewrite Ho in Hold.
Qed.

Lemma Delete_inv key c c' : index_inv c → Delete rng key c = Ret () c' → index_inv c'.
Proof.
  intros Hinv. pose proof Hinv as [Hnn Hd Hi].
  unfold Delete, st_get, st_modify, mbind, st_bind at 1.
  destruct (items c !! key) as [o|] eqn:Ho; [|by intros [= <-]].
  unfold st_bind. destruct (deleteFromIndices rng o key c) as [[] c1|] eqn:E; [|done].
  intros [= <-]. apply deleteFromIndices_effect in E as (Hit & Hix & Hdom & Hkeys).
  destruct (Hnn _ _ Ho) as [obj ->]. split; cbn.
  - intros k o. rewrite Hit, lookup_delete. case_decide; [done|apply Hnn].
  - intros name Hs. rewrite Hix. apply Hdom in Hs as [Hs|Hs]; [by apply Hd|done].
  - intros name f v k. rewrite Hix. intros Hf. unfold keys_at. cbn.
    rewrite (Hkeys name v k), (Hi _ _ _ _ Hf), Hit, lookup_delete. unfold indexed.
    case_decide; naive_solver.
Qed.

(** The rebuilding loop of [Replace]: the keys visited so far are indexed. *)
Lemma rebuild_effect l c c' :
  st_for l (λ '(key, item), updateIndices rng None item key) c = Ret () c' →
  items c' = items c ∧ indexers c' = indexers c ∧
  (∀ name, is_Some (indices c' !! name) →
    is_Some (indices c !! name) ∨ is_Some (indexers c !! name)) ∧
  (∀ name v k, k ∈ keys_at c' name v ↔
    k ∈ keys_at c name v ∨ ∃ item, (k, item) ∈ l ∧ indexed c item name v).
Proof.
  revert c. induction l as [|[k0 item0] l IH]; intros c.
  { intros [= <-]. split_and!; [done..|by left|]. intros name v k.
    split; [by left|]. intros [?|(? & Hin & _)]; [done|by apply not_elem_of_nil in Hin]. }
  intros (c1 & E & Hl)%st_for_cons_inv. apply insertIndices_effect in E as (Hit1 & Hix1 & Hdom1 & Hkeys1).
  apply IH in Hl as (Hit & Hix & Hdom & Hkeys). split_and!; [congruence..| |].
  - intros name Hs. apply Hdom in Hs. rewrite Hix1 in Hs. naive_solver.
  - intros name v k. rewrite Hkeys, Hkeys1. setoid_rewrite (indexed_ext c c1); [|done].
    setoid_rewrite elem_of_cons. naive_solver.
Qed.

Lemma Replace_inv rngI `{!range_order rngI} its c c' :
  Replace rng rngI (Some <$> its) c = Ret () c' → index_inv c'.
Proof.
  unfold Replace, st_modify, st_get, mbind, st_bind.
  intros (Hit & Hix & Hdom & Hkeys)%rebuild_effect. cbn in *. split.
  - intros k o. rewrite Hit, lookup_fmap. intros Ho.
    apply fmap_Some in Ho as (x & _ & ->). done.
  - intros name Hs. rewrite Hix. apply Hdom in Hs as [[? Hs]|Hs]; [|done].
    by rewrite lookup_empty in Hs.
  - intros name f v k. rewrite Hix. intros Hf. rewrite Hkeys, Hit.
    unfold keys_at, indexed. cbn. rewrite lookup_empty. cbn. rewrite lookup_empty. cbn.
    setoid_rewrite (range_elem rngI). setoid_rewrite lookup_fmap.
    setoid_rewrite fmap_Some. split.
    + intros [Hin|Hex]; [by apply not_elem_of_empty in Hin|]. naive_solver.
    + intros (o & vs & (x & Hx & Ho) & Hvs & Hv). right. exists (Some o).
      split; [by eauto|]. by exists f, vs.
Qed.

Lemma elem_of_merged (new old : Indexers) name :
  is_Some (foldl (λ m kv, <[kv.1 := kv.2]> m) old (rng new) !! name) ↔
  is_Some (old !! name) ∨ is_Some (new !! name).
Proof.
  rewrite <-(range_keys rng new name). generalize (rng new). intros l. revert old.
  induction l as [|[k v] l IH]; intros old; cbn; [set_solver|].
  rewrite IH, elem_of_cons, lookup_insert. case_decide; naive_solver.
Qed.

Lemma AddIndexers_inv rngS ixs r c c' :
  index_inv c → AddIndexers rng rngS ixs c = Ret r c' → index_inv c'.
Proof.
  intros Hinv. pose proof Hinv as [Hnn Hd Hi].
  unfold AddIndexers, st_get, st_modify, mbind, st_bind, mret, st_ret.
  case_bool_decide as Hsz; [by intros [= <- <-]|].
  destruct (HasAny _ _); [by intros [= <- <-]|]. intros [= <- <-].
  assert (items c = ∅) as Hemp by (apply map_size_empty_inv; lia).
  split; cbn; [done| |].
  - intros name Hs. apply elem_of_merged. left. by apply Hd.
  - intros name f v k Hf. unfold keys_at. cbn. rewrite Hemp.
    split; [|intros (o & vs & Ho & _); by rewrite lookup_empty in Ho].
    intros Hin. exfalso. destruct (indices c !! name) as [index|] eqn:Hx; cbn in Hin.
    + destruct (Hd name) as [f0 Hf0]; [by exists index|].
      assert (k ∈ keys_at c name v) as Hk by (unfold keys_at; by rewrite Hx).
      apply (Hi _ _ _ _ Hf0) in Hk as (o & vs & Ho & _). by rewrite Hemp, lookup_empty in Ho.
    + rewrite lookup_empty in Hin. cbn in Hin. by apply not_elem_of_empty in Hin.
Qed.
End with_order.

Lemma step_inv c o c' : index_inv c → step c o c' → index_inv c'.
Proof.
  intros Hinv Hs. destruct Hs; eauto using Add_inv, Delete_inv, Replace_inv, AddIndexers_inv.
Qed.

Lemma reachable_inv ixs ops c : reachable ixs ops c → index_inv c.
Proof.
  induction 1; [|by eapply step_inv]. split; cbn.
  - intros k o. by rewrite lookup_empty.
  - intros name [? Hs]. by rewrite lookup_empty in Hs.
  - intros name f v k _. unfold keys_at. cbn. rewrite lookup_empty. cbn.
    rewrite lookup_empty. cbn. set_solver.
Qed.
(** ** The readers *)

Lemma elem_of_union_loop rngS `{!set_order rngS} (index : Index_t) vs acc x :
  x ∈ foldl (λ ret indexKey,
    foldl (λ ret key, Insert ret [key]) ret
      (UnsortedList rngS (default ∅ (index !! indexKey)))) acc vs ↔
  x ∈ acc ∨ ∃ v, v ∈ vs ∧ x ∈ default ∅ (index !! v).
Proof.
  revert acc. induction vs as [|v vs IH]; intros acc; cbn; [set_solver|].
  rewrite IH, (elem_of_filter_loop (λ _, true)). unfold UnsortedList.
  rewrite (set_range_elem rngS). set_solver.
Qed.

(** [C28] In every store reached by calls that return, [IndexKeys] and [ByIndex]
    on an existing index answer with exactly the keys (in increasing order, each
    once) and the objects that the index function maps to the requested value. *)
Theorem ByIndex_exact rngS `{!set_order rngS} ixs ops c name (f : IndexFunc) v :
  reachable ixs ops c → indexers c !! name = Some f →
  ∃ ks, StronglySorted String.le ks ∧ NoDup ks ∧
    (∀ k, k ∈ ks ↔ ∃ obj vs, items c !! k = Some (Some obj) ∧ f (Some obj) = Ok vs ∧ v ∈ vs) ∧
    IndexKeys rngS name v c = Ok ks ∧ ByIndex rngS name v c = Ok (item_at c <$> ks).
Proof.
  intros Hr Hf. apply reachable_inv in Hr as [_ _ Hi].
  exists (StringSets.List rngS (keys_at c name v)). unfold IndexKeys, ByIndex. rewrite Hf.
  split_and!; [by apply Sorted_List|by apply NoDup_List| |done..].
  intros k. by rewrite (elem_of_List rngS), (Hi _ _ _ _ Hf).
Qed.

(** [Index] returns, once each, the objects that share an index value with
    the given object, and passes on the error of the index function. *)
Theorem Index_exact rngS `{!set_order rngS} ixs ops c name (f : IndexFunc) obj :
  reachable ixs ops c → indexers c !! name = Some f →
  match f obj with
  | Err e => Index rngS name obj c = Err e
  | Ok vs => ∃ ks, NoDup ks ∧
      (∀ k, k ∈ ks ↔ ∃ o ws v, items c !! k = Some (Some o) ∧ f (Some o) = Ok ws ∧
        v ∈ ws ∧ v ∈ vs) ∧
      Index rngS name obj c = Ok (item_at c <$> ks)
  end.
Proof.
  intros Hr Hf. apply reachable_inv in Hr as [_ _ Hi].
  destruct (f obj) as [vs|e] eqn:Hfo; unfold Index; rewrite Hf, Hfo; [|done].
  eexists. split_and!; [| |done].
  - apply (set_range_NoDup rngS).
  - intros k. rewrite (set_range_elem rngS), (elem_of_union_loop rngS).
    assert (∀ v, k ∈ default ∅ (default ∅ (indices c !! name) !! v) ↔ k ∈ keys_at c name v)
      as Hk by done.
    setoid_rewrite Hk. setoid_rewrite (λ v, Hi name f v k Hf). set_solver.
Qed.

(** ** Progress *)

(** Index functions that succeed on every object. *)
Definition total_indexers (ixs : Indexers) : Prop :=
  ∀ name (f : IndexFunc) obj, ixs !! name = Some f → ∃ vs, f (Some obj) = Ok vs.

Section progress.
Context (rng : Indexers → list (string * IndexFunc)) `{!range_order rng}.

Lemma deleteFromIndices_returns obj key c :
  total_indexers (indexers c) → ∃ c', deleteFromIndices rng (Some obj) key c = Ret () c'.
Proof.
  intros Ht. unfold deleteFromIndices, mbind, st_bind, st_get.
  eexists. apply st_for_ret with (f := λ p c,
    match p.2 (Some obj), indices c !! p.1 with
    | Ok vs, Some index =>
        set_indices (<[p.1 := delete_values key vs index]> (indices c)) c
    | _, _ => c
    end).
  intros [name f] s Hin. apply (range_elem rng) in Hin. cbn.
  destruct (Ht _ _ obj Hin) as [vs ->]. done.
Qed.

Lemma insertIndices_returns obj key c :
  total_indexers (indexers c) → ∃ c', updateIndices rng None (Some obj) key c = Ret () c'.
Proof.
  intros Ht. unfold updateIndices, mbind, st_bind, st_get, mret, st_ret.
  eexists. apply st_for_ret with (f := λ p c,
    match p.2 (Some obj) with
    | Ok vs => set_indices (<[p.1 := insert_values key vs (default ∅ (indices c !! p.1))]>
                 (indices c)) c
    | Err _ => c
    end).
  intros [name f] s Hin. apply (range_elem rng) in Hin. cbn.
  destruct (Ht _ _ obj Hin) as [vs ->]. done.
Qed.

Lemma updateIndices_returns old obj key c :
  total_indexers (indexers c) → ∃ c', updateIndices rng old (Some obj) key c = Ret () c'.
Proof.
  intros Ht. destruct old as [old|]; [|by apply insertIndices_returns].
  destruct (deleteFromIndices_returns old key c Ht) as [c1 H1].
  pose proof (deleteFromIndices_effect rng _ _ _ _ H1) as (_ & Hix & _).
  destruct (insertIndices_returns obj key c1) as [c2 H2]; [by rewrite Hix|].
  exists c2. unfold updateIndices, mbind, st_bind in *. by rewrite H1.
Qed.

Lemma rebuild_returns (l : list (string * iface)) c :
  total_indexers (indexers c) → (∀ k o, (k, o) ∈ l → is_Some o) →
  ∃ c', st_for l (λ '(key, item), updateIndices rng None item key) c = Ret () c'.
Proof.
  revert c. induction l as [|[k o] l IH]; intros c Ht Hl; [by exists c|].
  destruct (Hl k o) as [obj ->]; [by left|].
  destruct (insertIndices_returns obj k c Ht) as [c1 H1].
  pose proof (insertIndices_effect rng _ _ _ _ H1) as (_ & Hix & _).
  destruct (IH c1) as [c2 H2]; [by rewrite Hix|intros; eapply Hl; by right|].
  exists c2. cbn [st_for]. unfold mbind, st_bind. by rewrite H1.
Qed.
End progress.

(** When the index functions succeed on the objects, no call panics: from
    every reachable store each of the store's writing calls returns. *)
Theorem store_calls_return ixs ops c o :
  reachable ixs ops c → total_indexers (indexers c) → ∃ c', step c o c'.
Proof.
  intros Hr Ht. apply reachable_inv in Hr as [Hnn _ _].
  destruct o as [key obj|key obj|key|its|ixs'].
  - destruct (updateIndices_returns map_to_list (item_at c key) obj key
      (set_items (<[key := Some obj]> (items c)) c)) as [c' H]; [done|].
    exists c'. by apply (step_add _ map_to_list).
  - destruct (updateIndices_returns map_to_list (item_at c key) obj key
      (set_items (<[key := Some obj]> (items c)) c)) as [c' H]; [done|].
    exists c'. by apply (step_update _ map_to_list).
  - destruct (items c !! key) as [o|] eqn:Ho.
    + destruct (Hnn _ _ Ho) as [obj ->].
      destruct (deleteFromIndices_returns map_to_list obj key c Ht) as [c' H].
      eexists. eapply (step_delete _ map_to_list).
      unfold Delete, mbind, st_bind, st_get. by rewrite Ho, H.
    + exists c. eapply (step_delete _ map_to_list).
      unfold Delete, mbind, st_bind, st_get. by rewrite Ho.
  - destruct (rebuild_returns map_to_list (map_to_list (Some <$> its))
      (set_indices ∅ (set_items (Some <$> its) c))) as [c' H]; [done| |].
    + intros k o Hin. apply elem_of_map_to_list in Hin. rewrite lookup_fmap in Hin.
      apply fmap_Some in Hin as (x & _ & ->). done.
    + exists c'. by apply (step_replace _ map_to_list map_to_list).
  - destruct (AddIndexers map_to_list elements ixs' c) as [r c'|c'] eqn:E.
    + exists c'. by eapply (step_add_indexers _ map_to_list elements).
    + exfalso. revert E. unfold AddIndexers, st_get, st_modify, mbind, st_bind, mret, st_ret.
      case_bool_decide; [done|]. by destruct (HasAny _ _).
Qed.

(** Deleting an object removes its key from the index but never an index
    value: [ListIndexFuncValues] answers with the same values before and after
    [Delete], even when no object carries the value any more. *)
Theorem Delete_keeps_index_values rng `{!range_order rng} rngX `{!range_order rngX}
    key c c' name v :
  Delete rng key c = Ret () c' →
  v ∈ ListIndexFuncValues rngX name c' ↔ v ∈ ListIndexFuncValues rngX name c.
Proof.
  assert (∀ vs index v, is_Some (delete_values key vs index !! v) ↔ is_Some (index !! v)) as Hdv.
  { clear. unfold delete_values. intros vs. induction vs as [|w vs IH]; intros index v; [done|].
    cbn. rewrite IH. destruct (index !! w) as [set|] eqn:E; [|done].
    rewrite lookup_insert. case_decide; subst; rewrite ?E; naive_solver. }
  assert (∀ obj c c', deleteFromIndices rng obj key c = Ret () c' →
    is_Some (default ∅ (indices c' !! name) !! v) ↔
    is_Some (default ∅ (indices c !! name) !! v)) as Hdel.
  { clear -Hdv. intros obj c c'. unfold deleteFromIndices, mbind, st_bind, st_get.
    generalize (rng (indexers c)). intros l. revert c.
    induction l as [|[n f] l IH]; intros c; [by intros [= <-]|].
    intros (c1 & H1 & H2)%st_for_cons_inv. rewrite (IH _ H2). clear IH H2.
    destruct (f obj) as [vs|]; [|done]. cbn in H1. injection H1 as <-.
    destruct (indices c !! n) as [index|] eqn:E; [|done]. cbn.
    rewrite lookup_insert. case_decide; [subst|done]. rewrite E. cbn. apply Hdv. }
  unfold ListIndexFuncValues. rewrite !(range_keys rngX).
  unfold Delete, st_get. intros (a & s & [= <- <-] & H)%st_bind_inv.
  destruct (items c !! key) as [o|]; [|by injection H as <-].
  apply st_bind_inv in H as ([] & c1 & H1 & [= <-]). cbn. by apply Hdel in H1.
Qed.
End ThreadSafeStore.

Arguments threadSafeMap Obj : clear implicits.


(** ** Witnesses: a store of namespaced objects indexed by namespace *)

Definition ex_indexers : gmap string (option string → res string (list string)) :=
  {["namespace" := λ o, match o with Some ns => Ok [ns] | None => Err "object has no meta" end]}.

Definition ex_store1 : threadSafeMap string :=
  final (Add map_to_list "b" (Some "istio-system") (NewThreadSafeStore ex_indexers ∅)).
Definition ex_store2 : threadSafeMap string :=
  final (Add map_to_list "a" (Some "istio-system") ex_store1).
Definition ex_store : threadSafeMap string := final (Delete map_to_list "c" ex_store2).

Lemma ex_store_reachable :
  reachable ex_indexers
    [OpAdd "b" "istio-system"; OpAdd "a" "istio-system"; OpDelete "c"] ex_store.
Proof.
  apply (reach_step _ [_; _] _ ex_store2); [apply (reach_step _ [_] _ ex_store1);
    [apply (reach_step _ [] _ _ _ (reach_new _))|]|].
  - apply (step_add _ map_to_list). reflexivity.
  - apply (step_add _ map_to_list). reflexivity.
  - apply (step_delete _ map_to_list). reflexivity.
Qed.

Lemma ByIndex_exact_witness :
  ∃ f, indexers ex_store !! "namespace" = Some f ∧
  ∃ ks, StronglySorted String.le ks ∧ NoDup ks ∧
    (∀ k, k ∈ ks ↔ ∃ obj vs, items ex_store !! k = Some (Some obj) ∧
      f (Some obj) = Ok vs ∧ "istio-system" ∈ vs) ∧
    IndexKeys elements "namespace" "istio-system" ex_store = Ok ks ∧
    ByIndex elements "namespace" "istio-system" ex_store = Ok (item_at ex_store <$> ks).
Proof.
  eexists. split; [reflexivity|].
  eapply (ByIndex_exact elements ex_indexers); [apply ex_store_reachable|reflexivity].
Defined.

Lemma Index_exact_witness :
  ∃ ks, NoDup ks ∧
    (∀ k, k ∈ ks ↔ ∃ o ws v, items ex_store !! k = Some (Some o) ∧
      Ok [o] = Ok (E:=string) ws ∧ v ∈ ws ∧ v ∈ ["istio-system"]) ∧
    Index elements "namespace" (Some "istio-system") ex_store = Ok (item_at ex_store <$> ks).
Proof.
  exact (Index_exact elements ex_indexers _ ex_store "namespace" _ (Some "istio-system")
    ex_store_reachable eq_refl).
Defined.

Lemma store_calls_return_witness : ∃ c', step ex_store (OpUpdate "a" "default") c'.
Proof.
  eapply (store_calls_return ex_indexers); [apply ex_store_reachable|].
  intros name f obj Hf. change (indexers ex_store) with ex_indexers in Hf. unfold ex_indexers in Hf.
  apply lookup_singleton_Some in Hf as [_ <-]. by eexists.
Defined.

Lemma Delete_keeps_index_values_witness :
  "istio-system" ∈ ListIndexFuncValues map_to_list "namespace"
    (final (Delete map_to_list "a" ex_store)) ↔
  "istio-system" ∈ ListIndexFuncValues map_to_list "namespace" ex_store.
Proof. eapply (Delete_keeps_index_values map_to_list map_to_list "a"). reflexivity. Defined.
