(* ===== verification/Store.v ===== *)
(** * The object store of the client-go cache
    (k8s.io/client-go/tools/cache/store.go, undelta_store.go)

    [cache] computes keys with a key function and delegates to a
    [ThreadSafeStore].  The interface between the two is the class
    [ThreadSafeStore_ops] with the laws [ThreadSafeStore_laws]; the cache is
    verified against the interface, and [threadSafeMap] is shown to satisfy it. *)

From S2P Require Import Prelude StringSets ThreadSafeStore.

(** ** The ThreadSafeStore interface *)

Class ThreadSafeStore_ops (S Obj : Type) := {
  tss_Add : string → option Obj → st S ();
  tss_Update : string → option Obj → st S ();
  tss_Delete : string → st S ();
  tss_Get : string → S → option Obj * bool;
  tss_List : S → list (option Obj);
  tss_ListKeys : S → list string;
  tss_Replace : gmap string (option Obj) → st S ();
  tss_Index : string → option Obj → S → res string (list (option Obj));
  tss_IndexKeys : string → string → S → res string (list string);
  tss_ListIndexFuncValues : string → S → list string;
  tss_ByIndex : string → string → S → res string (list (option Obj));
  tss_GetIndexers : S → gmap string (option Obj → res string (list string));
  tss_AddIndexers : gmap string (option Obj → res string (list string)) → st S (option string);
  tss_Resync : st S (option string);
}.

(** What a client may rely on: calls that return act on the contents of the
    store as on a map from keys to objects. *)
Class ThreadSafeStore_laws (S Obj : Type) `{ThreadSafeStore_ops S Obj} := {
  tss_contents : S → gmap string (option Obj);
  tss_Add_law k o s s' :
    tss_Add k o s = Ret () s' → tss_contents s' = <[k := o]> (tss_contents s);
  tss_Update_law k o s s' :
    tss_Update k o s = Ret () s' → tss_contents s' = <[k := o]> (tss_contents s);
  tss_Delete_law k s s' :
    tss_Delete k s = Ret () s' → tss_contents s' = delete k (tss_contents s);
  tss_Replace_law m s s' : tss_Replace m s = Ret () s' → tss_contents s' = m;
  tss_Get_law k s : tss_Get k s =
    (mjoin (tss_contents s !! k), bool_decide (is_Some (tss_contents s !! k)));
  tss_List_law s : tss_List s ≡ₚ (map_to_list (tss_contents s)).*2;
  tss_ListKeys_law s : tss_ListKeys s ≡ₚ (map_to_list (tss_contents s)).*1;
}.

(** Stores in which the writing calls on objects return. *)
Class ThreadSafeStore_live (S Obj : Type) `{ThreadSafeStore_ops S Obj} (live : S → Prop) := {
  live_Add k o s : live s → ∃ s', tss_Add k (Some o) s = Ret () s' ∧ live s';
  live_Update k o s : live s → ∃ s', tss_Update k (Some o) s = Ret () s' ∧ live s';
  live_Delete k s : live s → ∃ s', tss_Delete (Obj:=Obj) k s = Ret () s' ∧ live s';
  live_Replace m s : live s → map_Forall (λ _ o, is_Some o) m → ∃ s', tss_Replace m s = Ret () s' ∧ live s';
  live_Resync s : live s → tss_Resync (Obj:=Obj) s = Ret None s;
}.

(** [threadSafeMap] implements the interface, for any iteration orders. *)
Section threadSafeMap_instance.
Context {Obj : Type}.
Context (rng : gmap string (option Obj → res string (list string)) →
               list (string * (option Obj → res string (list string)))) `{!range_order rng}.
Context (rngI : gmap string (option Obj) → list (string * option Obj)) `{!range_order rngI}.
Context (rngX : gmap string (gset string) → list (string * gset string)) `{!range_order rngX}.
Context (rngS : gset string → list string) `{!set_order rngS}.

Definition threadSafeMap_ops : ThreadSafeStore_ops (threadSafeMap Obj) Obj := {|
  tss_Add := Add rng;
  tss_Update := Update rng;
  tss_Delete := ThreadSafeStore.Delete rng;
  tss_Get := Get;
  tss_List := ThreadSafeStore.List rngI;
  tss_ListKeys := ListKeys rngI;
  tss_Replace := Replace rng rngI;
  tss_Index := Index rngS;
  tss_IndexKeys := IndexKeys rngS;
  tss_ListIndexFuncValues := ListIndexFuncValues rngX;
  tss_ByIndex := ByIndex rngS;
  tss_GetIndexers := GetIndexers;
  tss_AddIndexers := AddIndexers rng rngS;
  tss_Resync := Resync;
|}.

Lemma updateIndices_items old new key c c' :
  updateIndices rng old new key c = Ret () c' → items c' = items c.
Proof.
  destruct old as [old|].
  - intros (c1 & (Hit & _)%(deleteFromIndices_effect rng) &
      (Hit' & _)%(insertIndices_effect rng))%updateIndices_split. congruence.
  - by intros (Hit & _)%(insertIndices_effect rng).
Qed.

Lemma threadSafeMap_laws : @ThreadSafeStore_laws (threadSafeMap Obj) Obj threadSafeMap_ops.
Proof.
  refine {| tss_contents := items : threadSafeMap Obj → _ |}; cbn.
  - intros k o s s'. unfold Add, st_get, st_modify, mbind, st_bind at 1.
    intros H. by apply updateIndices_items in H.
  - intros k o s s'. unfold Update, st_get, st_modify, mbind, st_bind at 1.
    intros H. by apply updateIndices_items in H.
  - intros k s s'. unfold ThreadSafeStore.Delete, st_get.
    intros (a & s1 & [= <- <-] & H)%st_bind_inv.
    destruct (items s !! k) as [o|] eqn:E.
    + apply st_bind_inv in H as ([] & c1 & (Hit & _)%(deleteFromIndices_effect rng) & [= <-]).
      cbn. by rewrite Hit.
    + injection H as <-. by rewrite delete_id.
  - intros m s s'. unfold Replace, st_modify, st_get, mbind, st_bind.
    by intros (Hit & _)%(rebuild_effect rng).
  - done.
  - intros s. unfold ThreadSafeStore.List. by rewrite (range_perm (rng:=rngI) (items s)).
  - intros s. unfold ListKeys. by rewrite (range_perm (rng:=rngI) (items s)).
Defined.

(** Its calls return as long as the index functions succeed on objects. *)
Definition indexed_objects (c : threadSafeMap Obj) : Prop :=
  total_indexers (indexers c) ∧ ∀ k o, items c !! k = Some o → is_Some o.

Lemma put_returns k (o : Obj) c :
  indexed_objects c → ∃ c', Add rng k (Some o) c = Ret () c' ∧ indexed_objects c'.
Proof.
  intros [Ht Ho].
  destruct (updateIndices_returns rng (item_at c k) o k (set_items (<[k := Some o]> (items c)) c))
    as [c' Hc']; [done|]. exists c'. split; [done|].
  pose proof (updateIndices_items _ _ _ _ _ Hc') as Hit. cbn in Hit.
  assert (indexers c' = indexers c) as Hix.
  { destruct (item_at c k) as [old|].
    - apply updateIndices_split in Hc' as (c1 & (_ & Hx1 & _)%(deleteFromIndices_effect rng) &
        (_ & Hx2 & _)%(insertIndices_effect rng)). cbn in *. congruence.
    - apply (insertIndices_effect rng) in Hc' as (_ & Hx & _). done. }
  split; [by rewrite Hix|]. intros k' o'. rewrite Hit, lookup_insert.
  case_decide; [intros [= <-]; by eexists|apply Ho].
Qed.

Lemma replace_returns (m : gmap string (option Obj)) c :
  indexed_objects c → map_Forall (λ _ o, is_Some o) m →
  ∃ c', Replace rng rngI m c = Ret () c' ∧ indexed_objects c'.
Proof.
  intros [Ht Ho] Hm. destruct (rebuild_returns rng (rngI m) (set_indices ∅ (set_items m c))) as [c' Hc'].
  - done.
  - intros k o Hin%(range_elem rngI). by apply (Hm k).
  - exists c'. split; [done|]. apply (rebuild_effect rng) in Hc' as (Hit & Hix & _).
    split; [by rewrite Hix|]. intros k o. rewrite Hit. apply Hm.
Qed.

Lemma threadSafeMap_live :
  @ThreadSafeStore_live (threadSafeMap Obj) Obj threadSafeMap_ops indexed_objects.
Proof.
  split; cbn; [apply put_returns|apply put_returns| |apply replace_returns|done].
  intros k c [Ht Ho]. unfold ThreadSafeStore.Delete, mbind, st_bind, st_get.
  destruct (items c !! k) as [o|] eqn:E; [|by exists c].
  destruct (Ho _ _ E) as [x ->]. destruct (deleteFromIndices_returns rng x k c Ht) as [c1 Hc1].
  rewrite Hc1. eexists. split; [done|].
  apply (deleteFromIndices_effect rng) in Hc1 as (Hit & Hix & _). split; cbn.
  - by rewrite Hix.
  - intros k' o' [_ Hk']%lookup_delete_Some. rewrite Hit in Hk'. by eapply Ho.
Qed.
End threadSafeMap_instance.

(** ** The cache *)

Section cache.
Context {S Obj : Type} `{ThreadSafeStore_laws S Obj}.

Record cache := {
  cacheStorage : S;
  keyFunc : option Obj → res string string;
}.

(** Errors of the store's methods: [KeyError{obj, err}]. *)
Inductive StoreError : Type :=
| KeyError (obj : option Obj) (err : string).

(** Calling the storage behind the interface. *)
Definition on_storage {A} (m : st S A) : st cache A := λ c,
  match m (cacheStorage c) with
  | Ret a s => Ret a {| cacheStorage := s; keyFunc := keyFunc c |}
  | Panic s => Panic {| cacheStorage := s; keyFunc := keyFunc c |}
  end.

Definition cache_Add (obj : option Obj) : st cache (option StoreError) :=
  c ← st_get;
  match keyFunc c obj with
  | Err err => mret (Some (KeyError obj err))
  | Ok key => on_storage (tss_Add key obj) ;; mret None
  end.

Definition cache_Update (obj : option Obj) : st cache (option StoreError) :=
  c ← st_get;
  match keyFunc c obj with
  | Err err => mret (Some (KeyError obj err))
  | Ok key => on_storage (tss_Update key obj) ;; mret None
  end.

Definition cache_Delete (obj : option Obj) : st cache (option StoreError) :=
  c ← st_get;
  match keyFunc c obj with
  | Err err => mret (Some (KeyError obj err))
  | Ok key => on_storage (tss_Delete key) ;; mret None
  end.

Definition cache_List (c : cache) : list (option Obj) := tss_List (cacheStorage c).

Definition cache_ListKeys (c : cache) : list string := tss_ListKeys (cacheStorage c).

Definition cache_GetIndexers (c : cache) := tss_GetIndexers (cacheStorage c).

Definition cache_Index (indexName : string) (obj : option Obj) (c : cache) :=
  tss_Index indexName obj (cacheStorage c).

Definition cache_IndexKeys (indexName indexKey : string) (c : cache) :=
  tss_IndexKeys (Obj:=Obj) indexName indexKey (cacheStorage c).

Definition cache_ListIndexFuncValues (indexName : string) (c : cache) : list string :=
  tss_ListIndexFuncValues (Obj:=Obj) indexName (cacheStorage c).

Definition cache_ByIndex (indexName indexKey : string) (c : cache) :=
  tss_ByIndex (Obj:=Obj) indexName indexKey (cacheStorage c).

Definition cache_AddIndexers (newIndexers : gmap string (option Obj → res string (list string))) :
    st cache (option string) := on_storage (tss_AddIndexers newIndexers).

Definition cache_GetByKey (key : string) (c : cache) : option Obj * bool :=
  tss_Get key (cacheStorage c).

Definition cache_Get (obj : option Obj) (c : cache) : res StoreError (option Obj * bool) :=
  match keyFunc c obj with
  | Err err => Err (KeyError obj err)
  | Ok key => Ok (cache_GetByKey key c)
  end.

(** The loop of [Replace] that keys the items of the list. *)
Fixpoint key_items (kf : option Obj → res string string) (l : list (option Obj))
    (m : gmap string (option Obj)) : res StoreError (gmap string (option Obj)) :=
  match l with
  | [] => Ok m
  | item :: l' =>
    match kf item with
    | Err err => Err (KeyError item err)
    | Ok key => key_items kf l' (<[key := item]> m)
    end
  end.

Definition cache_Replace (l : list (option Obj)) : st cache (option StoreError) :=
  c ← st_get;
  match key_items (keyFunc c) l ∅ with
  | Err e => mret (Some e)
  | Ok its => on_storage (tss_Replace its) ;; mret None
  end.

Definition cache_Resync : st cache (option string) := on_storage (tss_Resync (Obj:=Obj)).

(** ** Refinement to a map from keys to objects *)

(** The calls that change the store. *)
Inductive store_op : Type :=
| SAdd (obj : option Obj)
| SUpdate (obj : option Obj)
| SDelete (obj : option Obj)
| SReplace (l : list (option Obj)).

Definition run_op (o : store_op) : st cache (option StoreError) :=
  match o with
  | SAdd obj => cache_Add obj
  | SUpdate obj => cache_Update obj
  | SDelete obj => cache_Delete obj
  | SReplace l => cache_Replace l
  end.

(** An item with its key, when it has one. *)
Definition keyed (kf : option Obj → res string string) (item : option Obj) :
    option (string * option Obj) :=
  match kf item with Ok key => Some (key, item) | Err _ => None end.

(** The first item of a list that has no key, and the error. *)
Fixpoint first_key_error (kf : option Obj → res string string) (l : list (option Obj)) :
    option StoreError :=
  match l with
  | [] => None
  | item :: l' =>
    match kf item with Err err => Some (KeyError item err) | Ok _ => first_key_error kf l' end
  end.

(** What the calls promise, on a plain map: an error changes nothing, and of the
    items of [Replace] with one key the last one is kept ([list_to_map] keeps the
    first entry of a key, so the list is reversed). *)
Definition spec_op (kf : option Obj → res string string) (o : store_op)
    (m : gmap string (option Obj)) : option StoreError * gmap string (option Obj) :=
  match o with
  | SAdd obj | SUpdate obj =>
    match kf obj with
    | Err err => (Some (KeyError obj err), m)
    | Ok key => (None, <[key := obj]> m)
    end
  | SDelete obj =>
    match kf obj with
    | Err err => (Some (KeyError obj err), m)
    | Ok key => (None, delete key m)
    end
  | SReplace l =>
    match first_key_error kf l with
    | Some e => (Some e, m)
    | None => (None, list_to_map (reverse (omap (keyed kf) l)))
    end
  end.

Lemma key_items_spec kf l m :
  key_items kf l m =
  match first_key_error kf l with
  | Some e => Err e
  | None => Ok (list_to_map (reverse (omap (keyed kf) l)) ∪ m)
  end.
Proof.
  revert m. induction l as [|item l IH]; intros m; cbn [key_items first_key_error].
  { cbn. by rewrite (left_id_L ∅ _). }
  destruct (kf item) as [key|err] eqn:E; [|done].
  rewrite IH. destruct (first_key_error kf l); [done|]. f_equal.
  assert (omap (keyed kf) (item :: l) = (key, item) :: omap (keyed kf) l) as ->.
  { cbn. unfold keyed at 1. by rewrite E. }
  rewrite reverse_cons, list_to_map_app, insert_union_singleton_l, (assoc_L (∪)).
  done.
Qed.

Lemma on_storage_inv {A} (m : st S A) c a c' :
  on_storage m c = Ret a c' →
  m (cacheStorage c) = Ret a (cacheStorage c') ∧ keyFunc c' = keyFunc c.
Proof. unfold on_storage. destruct (m _) as [a' s|]; [|done]. by intros [= <- <-]. Qed.

Lemma keyed_call_inv (obj : option Obj) (k : string → st S ()) c r c' :
  (c0 ← st_get;
   match keyFunc c0 obj with
   | Err err => mret (Some (KeyError obj err))
   | Ok key => on_storage (k key) ;; mret None
   end) c = Ret r c' →
  keyFunc c' = keyFunc c ∧
  match keyFunc c obj with
  | Err err => r = Some (KeyError obj err) ∧ c' = c
  | Ok key => r = None ∧ k key (cacheStorage c) = Ret () (cacheStorage c')
  end.
Proof.
  intros (? & ? & [= <- <-] & Hk)%st_bind_inv.
  destruct (keyFunc c obj) as [key|err]; [|by injection Hk as <- <-].
  apply st_bind_inv in Hk as ([] & c1 & [Hs Hkf]%on_storage_inv & [= <- <-]). done.
Qed.

Lemma run_op_refines o c r c' :
  run_op o c = Ret r c' →
  keyFunc c' = keyFunc c ∧
  spec_op (keyFunc c) o (tss_contents (cacheStorage c)) = (r, tss_contents (cacheStorage c')).
Proof.
  destruct o as [obj|obj|obj|l]; cbn.
  - intros [Hkf Hc]%keyed_call_inv. split; [done|].
    destruct (keyFunc c obj); [|by destruct Hc as [-> ->]].
    destruct Hc as [-> Hs]. by rewrite (tss_Add_law _ _ _ _ Hs).
  - intros [Hkf Hc]%keyed_call_inv. split; [done|].
    destruct (keyFunc c obj); [|by destruct Hc as [-> ->]].
    destruct Hc as [-> Hs]. by rewrite (tss_Update_law _ _ _ _ Hs).
  - intros [Hkf Hc]%keyed_call_inv. split; [done|].
    destruct (keyFunc c obj); [|by destruct Hc as [-> ->]].
    destruct Hc as [-> Hs]. by rewrite (tss_Delete_law _ _ _ Hs).
  - unfold cache_Replace. intros (? & ? & [= <- <-] & Hk)%st_bind_inv.
    rewrite key_items_spec, (right_id_L ∅ _) in Hk.
    destruct (first_key_error (keyFunc c) l) as [e|]; [by injection Hk as <- <-|].
    apply st_bind_inv in Hk as ([] & c1 & [Hs Hkf]%on_storage_inv & [= <- <-]).
    by rewrite (tss_Replace_law _ _ _ Hs).
Qed.

(** A run of calls, none of which panics, with the errors they return. *)
Inductive run : cache → list store_op → list (option StoreError) → cache → Prop :=
| run_nil c : run c [] [] c
| run_cons c o r c1 os rs c2 :
    run_op o c = Ret r c1 → run c1 os rs c2 → run c (o :: os) (r :: rs) c2.

Fixpoint spec_run (kf : option Obj → res string string) (os : list store_op)
    (m : gmap string (option Obj)) : list (option StoreError) * gmap string (option Obj) :=
  match os with
  | [] => ([], m)
  | o :: os' =>
    let '(r, m1) := spec_op kf o m in
    let '(rs, m2) := spec_run kf os' m1 in
    (r :: rs, m2)
  end.

(** [C30] Every run of [Add], [Update], [Delete] and [Replace] on a cache is a run
    of the map specification: same errors, and [Get], [GetByKey], [List] and
    [ListKeys] then observe the specification's map. *)
Theorem cache_refines_map c os rs c' :
  run c os rs c' →
  ∃ m, spec_run (keyFunc c) os (tss_contents (cacheStorage c)) = (rs, m) ∧
    (∀ key, cache_GetByKey key c' = (mjoin (m !! key), bool_decide (is_Some (m !! key)))) ∧
    (∀ obj, cache_Get obj c' = match keyFunc c obj with
       | Ok key => Ok (mjoin (m !! key), bool_decide (is_Some (m !! key)))
       | Err err => Err (KeyError obj err)
       end) ∧
    cache_List c' ≡ₚ (map_to_list m).*2 ∧ cache_ListKeys c' ≡ₚ (map_to_list m).*1.
Proof.
  intros Hrun.
  assert (keyFunc c' = keyFunc c ∧ spec_run (keyFunc c) os (tss_contents (cacheStorage c)) =
    (rs, tss_contents (cacheStorage c'))) as [Hkf Hs].
  { induction Hrun as [|c o r c1 os rs c2 Ho Hr [IHk IH]]; [done|].
    apply run_op_refines in Ho as [Hk Ho]. split; [congruence|].
    cbn. by rewrite Ho, <-Hk, IH. }
  eexists. split; [exact Hs|]. unfold cache_Get, cache_GetByKey, cache_List, cache_ListKeys.
  rewrite Hkf. split_and!; [intros; apply tss_Get_law| |apply tss_List_law|apply tss_ListKeys_law].
  intros obj. by destruct (keyFunc c obj); rewrite ?tss_Get_law.
Qed.
End cache.

Arguments cache S Obj : clear implicits.
Arguments StoreError Obj : clear implicits.

(** ** The constructors *)
Definition NewStore {Obj} (keyFn : option Obj → res string string) :
    cache (threadSafeMap Obj) Obj :=
  {| cacheStorage := NewThreadSafeStore ∅ ∅; keyFunc := keyFn |}.

Definition NewIndexer {Obj} (keyFn : option Obj → res string string)
    (ixs : gmap string (option Obj → res string (list string))) : cache (threadSafeMap Obj) Obj :=
  {| cacheStorage := NewThreadSafeStore ixs ∅; keyFunc := keyFn |}.

(** ** The undelta store (undelta_store.go)

    Every change is followed by a push of the complete list.  The store is
    locked for the change and again for the listing; the model runs the two one
    after the other, as a single caller does. *)
Section UndeltaStore.
Context {S Obj : Type} `{ThreadSafeStore_laws S Obj}.

Record UndeltaStore := {
  u_Store : cache S Obj;
  u_pushed : list (list (option Obj));   (* the arguments PushFunc was called with *)
}.

Definition on_Store {A} (m : st (cache S Obj) A) : st UndeltaStore A := λ u,
  match m (u_Store u) with
  | Ret a c => Ret a {| u_Store := c; u_pushed := u_pushed u |}
  | Panic c => Panic {| u_Store := c; u_pushed := u_pushed u |}
  end.

Definition undelta_push : st UndeltaStore () :=
  st_modify (λ u, {| u_Store := u_Store u;
                     u_pushed := u_pushed u ++ [cache_List (u_Store u)] |}).

Definition undelta_call (m : st (cache S Obj) (option (StoreError Obj))) :
    st UndeltaStore (option (StoreError Obj)) :=
  err ← on_Store m;
  match err with
  | Some e => mret (Some e)
  | None => undelta_push ;; mret None
  end.

Definition undelta_Add (obj : option Obj) := undelta_call (cache_Add obj).
Definition undelta_Update (obj : option Obj) := undelta_call (cache_Update obj).
Definition undelta_Delete (obj : option Obj) := undelta_call (cache_Delete obj).
Definition undelta_Replace (l : list (option Obj)) := undelta_call (cache_Replace l).

Definition undelta_op (o : store_op (Obj:=Obj)) : st UndeltaStore (option (StoreError Obj)) :=
  match o with
  | SAdd obj => undelta_Add obj
  | SUpdate obj => undelta_Update obj
  | SDelete obj => undelta_Delete obj
  | SReplace l => undelta_Replace l
  end.

(** Each successful change of an [UndeltaStore] makes exactly one push, and
    it carries the complete state after the change; a failing change makes none
    and leaves the store alone. *)
Theorem undelta_pushes_state o u r u' :
  undelta_op o u = Ret r u' →
  spec_op (keyFunc (u_Store u)) o (tss_contents (cacheStorage (u_Store u))) =
    (r, tss_contents (cacheStorage (u_Store u'))) ∧
  match r with
  | Some _ => u_pushed u' = u_pushed u
  | None => ∃ l, u_pushed u' = u_pushed u ++ [l] ∧
      l ≡ₚ (map_to_list (tss_contents (cacheStorage (u_Store u')))).*2
  end.
Proof.
  assert (undelta_op o = undelta_call (run_op o)) as -> by by destruct o.
  intros (r1 & u1 & Hs & Hr)%st_bind_inv. unfold on_Store in Hs.
  destruct (run_op o (u_Store u)) as [r2 c2|] eqn:Hop; [|done]. injection Hs as <- <-.
  apply run_op_refines in Hop as [_ Hop]. destruct r2 as [e|]; injection Hr as <- <-; cbn.
  - done.
  - split; [done|]. eexists. split; [done|]. apply tss_List_law.
Qed.
End UndeltaStore.

Definition NewUndeltaStore {Obj} (keyFn : option Obj → res string string) :
    UndeltaStore (S:=threadSafeMap Obj) (Obj:=Obj) :=
  {| u_Store := NewStore keyFn; u_pushed := [] |}.

(** ** Witnesses *)
Section witnesses.
#[local] Instance ex_ops : ThreadSafeStore_ops (threadSafeMap string) string :=
  threadSafeMap_ops map_to_list map_to_list map_to_list elements.
#[local] Instance ex_laws : ThreadSafeStore_laws (threadSafeMap string) string :=
  threadSafeMap_laws map_to_list map_to_list map_to_list elements.

Definition ex_key (o : option string) : res string string :=
  match o with Some s => Ok (String.substring 0 1 s) | None => Err "object has no meta" end.

Definition ex_cache : cache (threadSafeMap string) string := NewStore ex_key.

Lemma cache_refines_map_witness :
  let ops := [SAdd (Some "a1"); SAdd None; SReplace [Some "b1"; Some "c1"; Some "b2"]] in
  ∃ c', run ex_cache ops [None; Some (KeyError None "object has no meta"); None] c' ∧
  ∃ m, spec_run ex_key ops ∅ =
      ([None; Some (KeyError None "object has no meta"); None], m) ∧
    cache_GetByKey "b" c' = (mjoin (m !! "b"), bool_decide (is_Some (m !! "b"))).
Proof.
  intros ops.
  set (c1 := final (run_op (SAdd (Some "a1")) ex_cache)).
  set (c3 := final (run_op (SReplace [Some "b1"; Some "c1"; Some "b2"]) c1)).
  assert (run ex_cache ops [None; Some (KeyError None "object has no meta"); None] c3) as Hr.
  { apply (run_cons _ _ _ c1); [reflexivity|]. apply (run_cons _ _ _ c1); [reflexivity|].
    apply (run_cons _ _ _ c3); [reflexivity|]. constructor. }
  exists c3. split; [exact Hr|].
  destruct (cache_refines_map _ _ _ _ Hr) as (m & Hm & Hg & _).
  exists m. split; [exact Hm|apply Hg].
Defined.

Lemma undelta_pushes_state_witness :
  let u' := final (undelta_op (SAdd (Some "a1")) (NewUndeltaStore ex_key)) in
  ∃ l, u_pushed u' = [] ++ [l] ∧
      l ≡ₚ (map_to_list (tss_contents (cacheStorage (u_Store u')))).*2.
Proof.
  intros u'. eapply (undelta_pushes_state (SAdd (Some "a1")) (NewUndeltaStore ex_key) None u').
  reflexivity.
Defined.
End witnesses.
