(* ===== verification/ExpirationCache.v ===== *)
(** * The expiring store (k8s.io/client-go/tools/cache/expiration_cache.go)

    Objects are stored with the time they were added; reading an entry that is
    older than the policy allows deletes it.  Times are nanoseconds, as an
    unbounded [Z]; the clock is read once per call of a method of the clock, so
    a method takes its readings as arguments. *)

From stdpp Require Import numbers.
From S2P Require Import Prelude StringSets ThreadSafeStore Store.

Open Scope Z_scope.

Section ExpirationCache.
Context {Obj : Type}.

Record timestampedEntry := {
  te_obj : option Obj;
  te_timestamp : Z;
}.

(** [TTLPolicy]: the time to live; the policy reads the same clock. *)
Record TTLPolicy := { Ttl : Z }.

(** [time.Since] saturates at the bounds of a 64-bit duration. *)
Definition maxDuration : Z := 2 ^ 63 - 1.
Definition minDuration : Z := - 2 ^ 63.
Definition Since (now ts : Z) : Z := Z.max minDuration (Z.min maxDuration (now - ts)).

Definition IsExpired (p : TTLPolicy) (now : Z) (obj : timestampedEntry) : bool :=
  bool_decide (0 < Ttl p) && bool_decide (Ttl p < Since now (te_timestamp obj)).

Context {S : Type} `{ThreadSafeStore_laws S timestampedEntry}.

Record ExpirationCache := {
  e_cacheStorage : S;
  e_keyFunc : option Obj → res string string;
  e_policy : TTLPolicy;
}.

Definition with_storage (c : ExpirationCache) (s : S) : ExpirationCache :=
  {| e_cacheStorage := s; e_keyFunc := e_keyFunc c; e_policy := e_policy c |}.

Definition on_estorage {A} (m : st S A) : st ExpirationCache A := λ c,
  match m (e_cacheStorage c) with
  | Ret a s => Ret a (with_storage c s)
  | Panic s => Panic (with_storage c s)
  end.

(** The item is a [timestampedEntry] exactly when it is there and not nil. *)
Definition getTimestampedEntry (key : string) (c : ExpirationCache) :
    option timestampedEntry := (tss_Get key (e_cacheStorage c)).1.

Definition getOrExpire (now : Z) (key : string) : st ExpirationCache (option Obj * bool) :=
  c ← st_get;
  match getTimestampedEntry key c with
  | None => mret (None, false)
  | Some timestampedItem =>
    if IsExpired (e_policy c) now timestampedItem then
      on_estorage (tss_Delete key) ;; mret (None, false)
    else mret (te_obj timestampedItem, true)
  end.

Definition exp_GetByKey (now : Z) (key : string) : st ExpirationCache (option Obj * bool) :=
  getOrExpire now key.

Definition exp_Get (now : Z) (obj : option Obj) :
    st ExpirationCache (res (StoreError Obj) (option Obj * bool)) :=
  c ← st_get;
  match e_keyFunc c obj with
  | Err err => mret (Err (KeyError obj err))
  | Ok key => r ← getOrExpire now key; mret (Ok r)
  end.

(** The loop of [List]; a nil item would fail the type assertion and panic. *)
Fixpoint list_unexpired (now : Z) (its : list (option timestampedEntry))
    (acc : list (option Obj)) : st ExpirationCache (list (option Obj)) :=
  match its with
  | [] => mret acc
  | None :: _ => st_panic
  | Some e :: its' =>
    c ← st_get;
    match e_keyFunc c (te_obj e) with
    | Err _ => list_unexpired now its' (acc ++ [te_obj e])
    | Ok key =>
      r ← getOrExpire now key;
      list_unexpired now its' (if (r : option Obj * bool).2 then acc ++ [r.1] else acc)
    end
  end.

Definition exp_List (now : Z) : st ExpirationCache (list (option Obj)) :=
  c ← st_get;
  list_unexpired now (tss_List (e_cacheStorage c)) [].

Definition exp_ListKeys (c : ExpirationCache) : list string :=
  tss_ListKeys (Obj:=timestampedEntry) (e_cacheStorage c).

Definition exp_Add (now : Z) (obj : option Obj) :
    st ExpirationCache (option (StoreError Obj)) :=
  c ← st_get;
  match e_keyFunc c obj with
  | Err err => mret (Some (KeyError obj err))
  | Ok key =>
    on_estorage (tss_Add key (Some {| te_obj := obj; te_timestamp := now |})) ;; mret None
  end.

Definition exp_Update (now : Z) (obj : option Obj) :
    st ExpirationCache (option (StoreError Obj)) := exp_Add now obj.

Definition exp_Delete (obj : option Obj) : st ExpirationCache (option (StoreError Obj)) :=
  c ← st_get;
  match e_keyFunc c obj with
  | Err err => mret (Some (KeyError obj err))
  | Ok key => on_estorage (tss_Delete key) ;; mret None
  end.

Fixpoint stamp_items (kf : option Obj → res string string) (ts : Z) (l : list (option Obj))
    (m : gmap string (option timestampedEntry)) :
    res (StoreError Obj) (gmap string (option timestampedEntry)) :=
  match l with
  | [] => Ok m
  | item :: l' =>
    match kf item with
    | Err err => Err (KeyError item err)
    | Ok key =>
      stamp_items kf ts l' (<[key := Some {| te_obj := item; te_timestamp := ts |}]> m)
    end
  end.

Definition exp_Replace (now : Z) (l : list (option Obj)) :
    st ExpirationCache (option (StoreError Obj)) :=
  c ← st_get;
  match stamp_items (e_keyFunc c) now l ∅ with
  | Err e => mret (Some e)
  | Ok its => on_estorage (tss_Replace its) ;; mret None
  end.

Definition exp_Resync : st ExpirationCache (option string) :=
  on_estorage (tss_Resync (Obj:=timestampedEntry)).

(** ** What a store of the program holds *)

Definition contents (c : ExpirationCache) : gmap string (option timestampedEntry) :=
  tss_contents (e_cacheStorage c).

(** Every entry is a timestamped object stored under its own key. *)
Definition keyed_inv (c : ExpirationCache) : Prop :=
  ∀ k o, contents c !! k = Some o → ∃ e, o = Some e ∧ e_keyFunc c (te_obj e) = Ok k.

(** The entries that have not expired. *)
Definition fresh (p : TTLPolicy) (now : Z) (o : option timestampedEntry) : Prop :=
  ∃ e, o = Some e ∧ IsExpired p now e = false.

#[export] Instance fresh_dec p now o : Decision (fresh p now o).
Proof.
  destruct o as [e|]; [|right; by intros (e & ? & _)].
  destruct (IsExpired p now e) eqn:E; [right|left; by exists e].
  intros (e' & [= <-] & E'). congruence.
Defined.

Lemma on_estorage_inv {A} (m : st S A) c a c' :
  on_estorage m c = Ret a c' →
  m (e_cacheStorage c) = Ret a (e_cacheStorage c') ∧ c' = with_storage c (e_cacheStorage c').
Proof. unfold on_estorage. destruct (m _) as [a' s|]; [|done]. by intros [= <- <-]. Qed.

Lemma getOrExpire_effect now key c r c' :
  getOrExpire now key c = Ret r c' →
  e_keyFunc c' = e_keyFunc c ∧ e_policy c' = e_policy c ∧
  match contents c !! key with
  | Some (Some e) =>
    if IsExpired (e_policy c) now e
    then r = (None, false) ∧ contents c' = delete key (contents c)
    else r = (te_obj e, true) ∧ c' = c
  | _ => r = (None, false) ∧ c' = c
  end.
Proof.
  unfold getOrExpire, getTimestampedEntry, contents.
  intros (c0 & c1 & [= <- <-] & Hr)%st_bind_inv. rewrite tss_Get_law in Hr. cbn in Hr.
  destruct (tss_contents (e_cacheStorage c) !! key) as [[e|]|] eqn:E; cbn in Hr;
    [|by injection Hr as <- <-..].
  destruct (IsExpired (e_policy c) now e).
  - apply st_bind_inv in Hr as ([] & c2 & [Hd ->]%on_estorage_inv & [= <- <-]).
    split_and!; [done..|]. cbn. by rewrite (tss_Delete_law _ _ _ Hd).
  - by injection Hr as <- <-.
Qed.

(** The loop of [List] over entries stored under distinct keys. *)
Lemma list_unexpired_effect now its acc c r c' :
  keyed_inv c → NoDup its.*1 → (∀ k o, (k, o) ∈ its → contents c !! k = Some o) →
  list_unexpired now its.*2 acc c = Ret r c' →
  e_policy c' = e_policy c ∧ e_keyFunc c' = e_keyFunc c ∧
  contents c' = filter (λ kv, fresh (e_policy c) now kv.2 ∨ kv.1 ∉ its.*1) (contents c) ∧
  r = acc ++ omap (λ kv : string * option timestampedEntry,
    if decide (fresh (e_policy c) now kv.2) then te_obj <$> kv.2 else None) its.
Proof.
  revert acc c. induction its as [|[k o] its IH]; intros acc c Hk Hnd Hin; cbn [fmap list_fmap].
  { intros [= <- <-]. cbn. rewrite app_nil_r. split_and!; [done..| |done].
    symmetry. apply map_filter_id. intros i x _. right. apply not_elem_of_nil. }
  cbn in Hnd. apply NoDup_cons in Hnd as [Hni Hnd].
  assert (contents c !! k = Some o) as Ho by (apply Hin; left).
  destruct (Hk _ _ Ho) as (e & -> & Hkey). cbn [snd list_unexpired].
  intros (c0 & c1 & [= <- <-] & Hr)%st_bind_inv. rewrite Hkey in Hr.
  apply st_bind_inv in Hr as (r1 & c1 & (Hkf & Hp & Hg)%getOrExpire_effect & Hr).
  rewrite Ho in Hg.
  destruct (IsExpired (e_policy c) now e) eqn:Hex; destruct Hg as [-> Hc1].
  - apply IH in Hr as (Hp' & Hkf' & Hc' & ->); [| |done|].
    + rewrite Hp', Hp, Hkf', Hkf. split_and!; [done..| |].
      * rewrite Hc', Hc1, Hp. apply map_eq. intros i. apply option_eq. intros x. cbn.
        rewrite !map_lookup_filter_Some, lookup_delete_Some, not_elem_of_cons.
        split; [naive_solver|]. intros [Hi Hf]. destruct (decide (i = k)) as [->|]; [|naive_solver].
        exfalso. rewrite Ho in Hi. cbn in Hf. destruct Hf as [(e' & ? & ?)|[]]; congruence.
      * cbn. rewrite decide_False; [done|]. intros (e' & [= <-] & He). congruence.
    + intros k' o' Hl. rewrite Hc1, lookup_delete_Some in Hl. rewrite Hkf. by apply Hk, Hl.
    + intros k' o' Hl. rewrite Hc1, lookup_delete_ne; [apply Hin; by right|].
      intros <-. apply Hni. apply list_elem_of_fmap. by exists (k, o').
  - subst c1. apply IH in Hr as (Hp' & Hkf' & Hc' & ->); [|done..|intros; apply Hin; by right].
    split_and!; [done..| |].
    + rewrite Hc'. apply map_eq. intros i. apply option_eq. intros x. cbn.
      rewrite !map_lookup_filter_Some, not_elem_of_cons.
      destruct (decide (i = k)) as [->|]; [|naive_solver].
      split; [|naive_solver]. intros [Hi _]. split; [done|]. left. simplify_eq. by exists e.
    + cbn. rewrite decide_True by (by exists e). cbn. by rewrite <-app_assoc.
Qed.

(** Listing an expiring store returns exactly the objects whose entries are
    not older than the time to live, and purges exactly the others. *)
Theorem exp_List_exact now c r c' :
  keyed_inv c → exp_List now c = Ret r c' →
  contents c' = filter (λ kv, fresh (e_policy c) now kv.2) (contents c) ∧
  r ≡ₚ omap (λ kv : string * option timestampedEntry, te_obj <$> kv.2)
        (map_to_list (contents c')).
Proof.
  intros Hk. unfold exp_List. intros (c0 & c1 & [= <- <-] & Hr)%st_bind_inv.
  pose proof (tss_List_law (e_cacheStorage c)) as Hperm.
  apply Permutation_map_inv in Hperm as (its & Hits & Hperm). fold (contents c) in Hperm.
  change (tss_List (e_cacheStorage c) = its.*2) in Hits. rewrite Hits in Hr.
  apply list_unexpired_effect in Hr as (Hp & _ & Hc' & ->); [|done| |].
  - assert (∀ k o, contents c !! k = Some o → k ∈ its.*1) as Hall.
    { intros k o Ho. rewrite <-Hperm, list_elem_of_fmap. exists (k, o).
      by rewrite elem_of_map_to_list. }
    rewrite Hc'. assert (filter (λ kv, fresh (e_policy c) now kv.2 ∨ kv.1 ∉ its.*1) (contents c)
      = filter (λ kv, fresh (e_policy c) now kv.2) (contents c)) as ->.
    { apply map_filter_ext. intros k o Ho. apply Hall in Ho. cbn. naive_solver. }
    split; [done|]. rewrite map_to_list_filter, Hperm. cbn.
    clear. induction its as [|[k o] its IH]; [done|]. rewrite filter_cons.
    cbn. case_decide; [cbn|done]. destruct o; cbn; [by f_equiv|done].
  - rewrite <-Hperm. apply NoDup_fst_map_to_list.
  - intros k o Hin. rewrite <-Hperm in Hin. by apply elem_of_map_to_list.
Qed.

(** Reading an entry by key never returns an expired object: an entry older
    than the time to live is deleted, and only that entry; a younger one is
    returned and the store is unchanged. *)
Theorem exp_GetByKey_exact now key c r c' :
  exp_GetByKey now key c = Ret r c' →
  match contents c !! key with
  | Some (Some e) =>
    if bool_decide (0 < Ttl (e_policy c) ∧ Ttl (e_policy c) < Since now (te_timestamp e))
    then r = (None, false) ∧ contents c' = delete key (contents c)
    else r = (te_obj e, true) ∧ c' = c
  | _ => r = (None, false) ∧ c' = c
  end.
Proof.
  intros (_ & _ & Hg)%getOrExpire_effect.
  destruct (contents c !! key) as [[e|]|]; [|done..].
  unfold IsExpired in Hg. by rewrite bool_decide_and.
Qed.

(** The invariant that [List] relies on is kept by every writing call. *)
Lemma exp_Add_keyed now obj c r c' :
  keyed_inv c → exp_Add now obj c = Ret r c' → keyed_inv c'.
Proof.
  intros Hk. unfold exp_Add. intros (c0 & c1 & [= <- <-] & Hr)%st_bind_inv.
  destruct (e_keyFunc c obj) as [key|err] eqn:E; [|by injection Hr as <- <-].
  apply st_bind_inv in Hr as ([] & c2 & [Ha ->]%on_estorage_inv & [= <- <-]).
  intros k o. unfold contents. cbn. rewrite (tss_Add_law _ _ _ _ Ha), lookup_insert.
  case_decide; [|apply Hk]. subst. intros [= <-]. eexists. split; [done|]. done.
Qed.

Lemma exp_Delete_keyed obj c r c' :
  keyed_inv c → exp_Delete obj c = Ret r c' → keyed_inv c'.
Proof.
  intros Hk. unfold exp_Delete. intros (c0 & c1 & [= <- <-] & Hr)%st_bind_inv.
  destruct (e_keyFunc c obj) as [key|err] eqn:E; [|by injection Hr as <- <-].
  apply st_bind_inv in Hr as ([] & c2 & [Ha ->]%on_estorage_inv & [= <- <-]).
  intros k o. unfold contents. cbn. rewrite (tss_Delete_law _ _ _ Ha), lookup_delete.
  case_decide; [done|apply Hk].
Qed.

Lemma stamp_items_keyed kf ts l m m' :
  (∀ k o, m !! k = Some o → ∃ e, o = Some e ∧ kf (te_obj e) = Ok k) →
  stamp_items kf ts l m = Ok m' →
  ∀ k o, m' !! k = Some o → ∃ e, o = Some e ∧ kf (te_obj e) = Ok k.
Proof.
  revert m. induction l as [|item l IH]; intros m Hm; cbn; [by intros [= <-]|].
  destruct (kf item) as [key|] eqn:E; [|done]. apply IH.
  intros k o. rewrite lookup_insert. case_decide; [|apply Hm]. subst. intros [= <-].
  eexists. split; [done|]. done.
Qed.

Lemma exp_Replace_keyed now l c r c' :
  keyed_inv c → exp_Replace now l c = Ret r c' → keyed_inv c'.
Proof.
  intros Hk. unfold exp_Replace. intros (c0 & c1 & [= <- <-] & Hr)%st_bind_inv.
  destruct (stamp_items (e_keyFunc c) now l ∅) as [m|e] eqn:E; [|by injection Hr as <- <-].
  apply st_bind_inv in Hr as ([] & c2 & [Ha ->]%on_estorage_inv & [= <- <-]).
  unfold keyed_inv, contents. cbn. rewrite (tss_Replace_law _ _ _ Ha).
  eapply stamp_items_keyed; [|exact E]. intros k o. by rewrite lookup_empty.
Qed.

End ExpirationCache.

Arguments timestampedEntry Obj : clear implicits.

Definition NewTTLStore {Obj} (keyFn : option Obj → res string string) (ttl : Z) :
    ExpirationCache (Obj:=Obj) (S:=threadSafeMap (timestampedEntry Obj)) :=
  {| e_cacheStorage := NewThreadSafeStore ∅ ∅; e_keyFunc := keyFn;
     e_policy := {| Ttl := ttl |} |}.

(** ** Witnesses: a store with a time to live of 10 *)
Section witnesses.
#[local] Instance exp_ops :
  ThreadSafeStore_ops (threadSafeMap (timestampedEntry string)) (timestampedEntry string) :=
  threadSafeMap_ops map_to_list map_to_list map_to_list elements.
#[local] Instance exp_laws :
  ThreadSafeStore_laws (threadSafeMap (timestampedEntry string)) (timestampedEntry string) :=
  threadSafeMap_laws map_to_list map_to_list map_to_list elements.

Definition ex_ttl1 := final (exp_Add 0 (Some "old") (NewTTLStore ex_key 10)).
Definition ex_ttl := final (exp_Add 8 (Some "young") ex_ttl1).

Lemma ex_ttl_keyed : keyed_inv ex_ttl.
Proof.
  apply (exp_Add_keyed 8 (Some "young") ex_ttl1 None); [|reflexivity].
  apply (exp_Add_keyed 0 (Some "old") (NewTTLStore ex_key 10) None); [|reflexivity].
  intros k o Hl. change ((∅ : gmap string (option (timestampedEntry string))) !! k = Some o) in Hl.
  by rewrite lookup_empty in Hl.
Qed.

Lemma exp_List_exact_witness :
  ∃ c', exp_List 12 ex_ttl = Ret [Some "young"] c' ∧
  contents c' = filter (λ kv, fresh {| Ttl := 10 |} 12 kv.2) (contents ex_ttl).
Proof.
  exists (final (exp_List 12 ex_ttl)). split; [reflexivity|].
  apply (exp_List_exact 12 ex_ttl [Some "young"]); [apply ex_ttl_keyed|reflexivity].
Defined.

Lemma exp_GetByKey_exact_witness :
  (None, false) = (None (A:=string), false) ∧
  contents (final (exp_GetByKey 12 "o" ex_ttl)) = delete "o" (contents ex_ttl).
Proof.
  exact (exp_GetByKey_exact 12 "o" ex_ttl (None, false)
    (final (exp_GetByKey 12 "o" ex_ttl)) eq_refl).
Defined.
End witnesses.
