(* ===== verification/Fifo.v ===== *)
(** * The FIFO work queue of the client-go cache
    (k8s.io/client-go/tools/cache/fifo.go)

    Keys wait in [queue], the newest object of each waits in [items].  Deleting an
    object leaves its key in the queue, where [Pop] skips it; so the queue may
    mention a key that is gone, and a key more than once.  Every method holds the
    lock, hence is one state transformer; a [Pop] that would wait on the condition
    variable is the result [PopBlocked]. *)

From S2P Require Import Prelude StringSets Store.

Section FIFO.
Context {Obj : Type}.

Record FIFO := {
  items : gmap string (option Obj);
  queue : list string;
  populated : bool;
  initialPopulationCount : nat;
  keyFunc : option Obj → res string string;
  closed : bool;
}.

Definition NewFIFO (keyFn : option Obj → res string string) : FIFO :=
  {| items := ∅; queue := []; populated := false; initialPopulationCount := 0;
     keyFunc := keyFn; closed := false |}.

Definition set_items (m : gmap string (option Obj)) (f : FIFO) : FIFO :=
  {| items := m; queue := queue f; populated := populated f;
     initialPopulationCount := initialPopulationCount f; keyFunc := keyFunc f;
     closed := closed f |}.
Definition set_queue (q : list string) (f : FIFO) : FIFO :=
  {| items := items f; queue := q; populated := populated f;
     initialPopulationCount := initialPopulationCount f; keyFunc := keyFunc f;
     closed := closed f |}.
Definition set_populated (f : FIFO) : FIFO :=
  {| items := items f; queue := queue f; populated := true;
     initialPopulationCount := initialPopulationCount f; keyFunc := keyFunc f;
     closed := closed f |}.
Definition set_count (n : nat) (f : FIFO) : FIFO :=
  {| items := items f; queue := queue f; populated := populated f;
     initialPopulationCount := n; keyFunc := keyFunc f; closed := closed f |}.

Definition Close (f : FIFO) : FIFO :=
  {| items := items f; queue := queue f; populated := populated f;
     initialPopulationCount := initialPopulationCount f; keyFunc := keyFunc f;
     closed := true |}.

Definition IsClosed (f : FIFO) : bool := if closed f then true else false.

Definition HasSynced (f : FIFO) : bool :=
  populated f && bool_decide (initialPopulationCount f = 0).

Definition Add (obj : option Obj) (f : FIFO) : option (StoreError Obj) * FIFO :=
  match keyFunc f obj with
  | Err err => (Some (KeyError obj err), f)
  | Ok id =>
    let f := set_populated f in
    let f := match items f !! id with
             | None => set_queue (queue f ++ [id]) f
             | Some _ => f
             end in
    (None, set_items (<[id := obj]> (items f)) f)
  end.

Definition addIfNotPresent (id : string) (obj : option Obj) (f : FIFO) : FIFO :=
  let f := set_populated f in
  match items f !! id with
  | Some _ => f
  | None => set_items (<[id := obj]> (items f)) (set_queue (queue f ++ [id]) f)
  end.

Definition AddIfNotPresent (obj : option Obj) (f : FIFO) : option (StoreError Obj) * FIFO :=
  match keyFunc f obj with
  | Err err => (Some (KeyError obj err), f)
  | Ok id => (None, addIfNotPresent id obj f)
  end.

Definition Update (obj : option Obj) (f : FIFO) : option (StoreError Obj) * FIFO := Add obj f.

Definition Delete (obj : option Obj) (f : FIFO) : option (StoreError Obj) * FIFO :=
  match keyFunc f obj with
  | Err err => (Some (KeyError obj err), f)
  | Ok id => let f := set_populated f in (None, set_items (delete id (items f)) f)
  end.

Definition List (rng : gmap string (option Obj) → list (string * option Obj)) (f : FIFO) :
    list (option Obj) := (rng (items f)).*2.

Definition ListKeys (rng : gmap string (option Obj) → list (string * option Obj)) (f : FIFO) :
    list string := (rng (items f)).*1.

Definition GetByKey (key : string) (f : FIFO) : option Obj * bool :=
  (mjoin (items f !! key), bool_decide (is_Some (items f !! key))).

Definition Get (obj : option Obj) (f : FIFO) : res (StoreError Obj) (option Obj * bool) :=
  match keyFunc f obj with
  | Err err => Err (KeyError obj err)
  | Ok key => Ok (GetByKey key f)
  end.

(** What a [PopProcessFunc] returns: an ordinary error (or nil), or an
    [ErrRequeue] around one. *)
Inductive ProcResult : Type :=
| Processed (err : option string)
| ErrRequeue (err : option string).

Inductive PopResult : Type :=
| Popped (id : string) (item : option Obj) (err : option string)
| FIFOClosedError
| PopBlocked.

(** The loop of [Pop], on what is left of the queue. *)
Fixpoint pop_loop (process : option Obj → ProcResult) (q : list string) (f : FIFO) :
    PopResult * FIFO :=
  match q with
  | [] => (if IsClosed f then FIFOClosedError else PopBlocked, set_queue [] f)
  | id :: q' =>
    let f := set_queue q' f in
    let f := if bool_decide (0 < initialPopulationCount f)
             then set_count (initialPopulationCount f - 1) f else f in
    match items f !! id with
    | None => pop_loop process q' f
    | Some item =>
      let f := set_items (delete id (items f)) f in
      match process item with
      | ErrRequeue err => (Popped id item err, addIfNotPresent id item f)
      | Processed err => (Popped id item err, f)
      end
    end
  end.

Definition Pop (process : option Obj → ProcResult) (f : FIFO) : PopResult * FIFO :=
  pop_loop process (queue f) f.

Definition Replace (rng : gmap string (option Obj) → list (string * option Obj))
    (l : list (option Obj)) (f : FIFO) : option (StoreError Obj) * FIFO :=
  match key_items (keyFunc f) l ∅ with
  | Err e => (Some e, f)
  | Ok its =>
    let f := if populated f then f else set_count (size its) (set_populated f) in
    (None, set_queue (rng its).*1 (set_items its f))
  end.

Definition Resync (rng : gmap string (option Obj) → list (string * option Obj)) (f : FIFO) :
    FIFO :=
  let inQueue := Insert ∅ (queue f) in
  set_queue (foldl (λ q kv, if Has inQueue kv.1 then q else q ++ [kv.1]) (queue f)
    (rng (items f))) f.

(** ** The invariant the code depends on: items in the set are in the queue *)
Definition queued (f : FIFO) : Prop := ∀ k, is_Some (items f !! k) → k ∈ queue f.

Inductive step (f : FIFO) : FIFO → Prop :=
| step_add obj : step f (Add obj f).2
| step_add_if obj : step f (AddIfNotPresent obj f).2
| step_update obj : step f (Update obj f).2
| step_delete obj : step f (Delete obj f).2
| step_pop process : step f (Pop process f).2
| step_replace rng `{!range_order rng} l : step f (Replace rng l f).2
| step_resync rng `{!range_order rng} : step f (Resync rng f)
| step_close : step f (Close f).

Inductive reachable (keyFn : option Obj → res string string) : FIFO → Prop :=
| reach_new : reachable keyFn (NewFIFO keyFn)
| reach_step f f' : reachable keyFn f → step f f' → reachable keyFn f'.

Lemma queued_addIfNotPresent id obj f : queued f → queued (addIfNotPresent id obj f).
Proof.
  unfold addIfNotPresent, queued. cbn. intros Hq k.
  destruct (items f !! id) eqn:E; cbn; [apply Hq|].
  rewrite lookup_insert, elem_of_app. case_decide; subst; set_solver.
Qed.

Lemma queued_Add obj f : queued f → queued (Add obj f).2.
Proof.
  unfold Add, queued. intros Hq. destruct (keyFunc f obj) as [id|]; [|done].
  intros k. cbn. destruct (items f !! id) eqn:E; cbn; rewrite lookup_insert.
  - case_decide; [subst|apply Hq]. intros _. apply Hq. by rewrite E.
  - rewrite elem_of_app. case_decide; subst; set_solver.
Qed.

Lemma queued_pop_loop process q f :
  (∀ k, is_Some (items f !! k) → k ∈ q) → queued (pop_loop process q f).2.
Proof.
  revert f. induction q as [|id q IH]; intros f Hq; [done|]. cbn.
  assert (∀ f0, items f0 = items f → queue f0 = q →
    queued (match items f0 !! id with
     | None => pop_loop process q f0
     | Some item =>
       match process item with
       | ErrRequeue err => (Popped id item err, addIfNotPresent id item
           (set_items (delete id (items f0)) f0))
       | Processed err => (Popped id item err, set_items (delete id (items f0)) f0)
       end
     end).2) as Hf0; [|case_bool_decide; by apply Hf0].
  intros f0 Hi Hqq. rewrite Hi. destruct (items f !! id) as [item|] eqn:E.
  - assert (queued (set_items (delete id (items f)) f0)) as Hd.
    { intros k. cbn. rewrite lookup_delete, Hqq. case_decide; [by intros []|].
      intros Hk. apply Hq in Hk. set_solver. }
    destruct (process item); cbn; [done|by apply queued_addIfNotPresent].
  - apply IH. rewrite Hi. intros k Hk. destruct (decide (k = id)) as [->|].
    + rewrite E in Hk. by destruct Hk.
    + apply Hq in Hk. set_solver.
Qed.

Lemma elem_of_resync (s : gset string) (l : list (string * option Obj)) q k :
  k ∈ foldl (λ q kv, if Has s kv.1 then q else q ++ [kv.1]) q l ↔
  k ∈ q ∨ (k ∈ l.*1 ∧ k ∉ s).
Proof.
  revert q. induction l as [|[k' o] l IH]; intros q; cbn; [set_solver|].
  rewrite IH, elem_of_cons. unfold Has. case_bool_decide; [set_solver|].
  rewrite elem_of_app, list_elem_of_singleton. naive_solver.
Qed.

Lemma step_queued f f' : queued f → step f f' → queued f'.
Proof.
  intros Hq. destruct 1 as [obj|obj|obj|obj|process|rng ? l|rng ?|].
  - by apply queued_Add.
  - unfold AddIfNotPresent. destruct (keyFunc f obj); [|done]. by apply queued_addIfNotPresent.
  - by apply queued_Add.
  - unfold Delete. destruct (keyFunc f obj) as [id|]; [|done]. intros k. cbn.
    rewrite lookup_delete. case_decide; [by intros []|apply Hq].
  - by apply queued_pop_loop.
  - unfold Replace. destruct (key_items (keyFunc f) l ∅) as [its|]; [|done].
    intros k. cbn. rewrite (range_keys rng its k). by destruct (populated f).
  - intros k. cbn. intros Hk. apply elem_of_resync. left. by apply Hq.
  - done.
Qed.

Lemma reachable_queued keyFn f : reachable keyFn f → queued f.
Proof.
  induction 1 as [|f f' _ IH Hs]; [|by eapply step_queued].
  intros k. cbn. rewrite lookup_empty. by intros [].
Qed.
(** ** Pop *)

(** The queue entries one [Pop] takes: up to the first key that has an item. *)
Fixpoint taken_by_pop (m : gmap string (option Obj)) (q : list string) : list string :=
  match q with
  | [] => []
  | id :: q' => if m !! id is Some _ then [id] else id :: taken_by_pop m q'
  end.

(** What [pop_loop] has done, without the loop. *)
Record pop_effect (process : option Obj → ProcResult) (q : list string) (f : FIFO)
    (r : PopResult) (f' : FIFO) : Prop := {
  pe_key : keyFunc f' = keyFunc f;
  pe_populated : populated f = true → populated f' = true;
  pe_count : initialPopulationCount f' =
    initialPopulationCount f - length (taken_by_pop (items f) q);
  pe_result : match r with
    | Popped id item err =>
      ∃ pre post, q = pre ++ id :: post ∧ items f !! id = Some item ∧
        (∀ k, k ∈ pre → items f !! k = None) ∧ taken_by_pop (items f) q = pre ++ [id] ∧
        match process item with
        | Processed e => err = e ∧ items f' = delete id (items f) ∧ queue f' = post
        | ErrRequeue e => err = e ∧ items f' = items f ∧ queue f' = post ++ [id]
        end
    | _ => (∀ k, k ∈ q → items f !! k = None) ∧ items f' = items f ∧ queue f' = [] ∧
           taken_by_pop (items f) q = q ∧
           r = if closed f then FIFOClosedError else PopBlocked
    end;
}.

Lemma pop_loop_effect process q f :
  pop_effect process q f (pop_loop process q f).1 (pop_loop process q f).2.
Proof.
  revert f. induction q as [|id q IH]; intros f.
  { cbn. unfold IsClosed. destruct (closed f) eqn:E; split; cbn; rewrite ?E; try done; try lia;
      (split_and!; [by intros k ?%not_elem_of_nil|done..]). }
  cbn [pop_loop]. set (f1 := if bool_decide _ then _ else _).
  assert (items f1 = items f ∧ queue f1 = q ∧ populated f1 = populated f ∧
    keyFunc f1 = keyFunc f ∧ closed f1 = closed f ∧
    initialPopulationCount f1 = initialPopulationCount f - 1) as (Hi & Hq & Hp & Hk & Hc & Hn).
  { unfold f1. case_bool_decide; cbn in *; split_and!; try done; lia. }
  clearbody f1. rewrite Hi. destruct (items f !! id) as [item|] eqn:E.
  - assert (taken_by_pop (items f) (id :: q) = [id]) as Ht by (cbn; by rewrite E).
    destruct (process item) as [e|e] eqn:Ep; cbn [fst snd]; split; cbn [keyFunc set_items];
      rewrite ?Ht; try done; try (cbn; congruence).
    + exists [], q. rewrite Ep. cbn. split_and!; try done. set_solver.
    + unfold addIfNotPresent. cbn. rewrite lookup_delete_eq. done.
    + unfold addIfNotPresent. cbn. by rewrite lookup_delete_eq.
    + unfold addIfNotPresent. cbn. rewrite lookup_delete_eq. cbn. rewrite Hn. lia.
    + exists [], q. rewrite Ep. unfold addIfNotPresent. cbn. rewrite lookup_delete_eq. cbn.
      split_and!; try done; [set_solver| |by rewrite Hq].
      by rewrite insert_delete_eq, insert_id.
  - destruct (IH f1) as [Hk1 Hp1 Hn1 Hr1].
    assert (taken_by_pop (items f) (id :: q) = id :: taken_by_pop (items f) q) as Ht
      by (cbn; by rewrite E).
    rewrite Hi in Hn1, Hr1. split.
    + congruence.
    + rewrite <-Hp. done.
    + rewrite Hn1, Hn, Ht. cbn. lia.
    + destruct (pop_loop process q f1).1 as [id' item' err| |] eqn:Er; rewrite Ht.
      * destruct Hr1 as (pre & post & -> & Hit & Hpre & Htk & Hm).
        exists (id :: pre), post. rewrite Htk. split_and!; try done.
        intros k [->|Hkk]%elem_of_cons; auto.
      * destruct Hr1 as (Hno & Hit & Hqq & Htk & Hcl). rewrite Htk, <-Hc.
        split_and!; try done. intros k [->|Hkk]%elem_of_cons; auto.
      * destruct Hr1 as (Hno & Hit & Hqq & Htk & Hcl). rewrite Htk, <-Hc.
        split_and!; try done. intros k [->|Hkk]%elem_of_cons; auto.
Qed.

Lemma queued_none f : queued f → (∀ k, k ∈ queue f → items f !! k = None) → items f = ∅.
Proof.
  intros Hq Hno. apply map_eq. intros k. rewrite lookup_empty.
  destruct (items f !! k) eqn:E; [|done]. rewrite <-E. apply Hno, Hq. by rewrite E.
Qed.

(** On every reachable queue, [Pop] hands over the first queued key that
    still has an object, with that object, and removes it (or puts it back at the
    end on [ErrRequeue]); and it waits or reports a closed queue only when the
    queue holds no object at all. *)
Theorem fifo_Pop_exact keyFn process f :
  reachable keyFn f →
  match Pop process f with
  | (Popped id item err, f') =>
    ∃ pre post, queue f = pre ++ id :: post ∧ items f !! id = Some item ∧
      (∀ k, k ∈ pre → items f !! k = None) ∧
      match process item with
      | Processed e => err = e ∧ items f' = delete id (items f) ∧ queue f' = post
      | ErrRequeue e => err = e ∧ items f' = items f ∧ queue f' = post ++ [id]
      end
  | (r, f') => items f = ∅ ∧ items f' = ∅ ∧ r = if closed f then FIFOClosedError else PopBlocked
  end.
Proof.
  intros Hr%reachable_queued. pose proof (pop_loop_effect process (queue f) f) as [_ _ _ He].
  unfold Pop. destruct (pop_loop process (queue f) f) as [r f']; cbn in *.
  destruct r as [id item err| |].
  - destruct He as (pre & post & ? & ? & ? & _ & ?). by exists pre, post.
  - destruct He as (Hno & Hit & _ & _ & Hc). rewrite Hit. apply queued_none in Hno; [|done]. by split_and!.
  - destruct He as (Hno & Hit & _ & _ & Hc). rewrite Hit. apply queued_none in Hno; [|done]. by split_and!.
Qed.

(** ** Draining the queue *)

(** Popping until nothing is left, at most [n] times. *)
Fixpoint drain (n : nat) (f : FIFO) : list (string * option Obj) :=
  match n with
  | 0 => []
  | S n' =>
    match Pop (λ _, Processed None) f with
    | (Popped id item _, f') => (id, item) :: drain n' f'
    | _ => []
    end
  end.

(** The keys of a queue in the order of their first occurrences, those in [seen]
    left out. *)
Fixpoint first_occurrences (seen : gset string) (q : list string) : list string :=
  match q with
  | [] => []
  | id :: q' =>
    if decide (id ∈ seen) then first_occurrences seen q'
    else id :: first_occurrences ({[id]} ∪ seen) q'
  end.

Definition entry_of (m : gmap string (option Obj)) (k : string) : option (string * option Obj) :=
  (λ o, (k, o)) <$> m !! k.

(** Keys without an item do not matter to the draining order. *)
Lemma entries_skip (m m' : gmap string (option Obj)) (seen seen' : gset string) q :
  (∀ k, k ∉ seen → m !! k = m' !! k) →
  (∀ k, k ∈ seen' → k ∈ seen ∨ m' !! k = None) → (∀ k, k ∈ seen → k ∈ seen' ∨ m' !! k = None) →
  omap (entry_of m) (first_occurrences seen q) = omap (entry_of m') (first_occurrences seen' q).
Proof.
  revert seen seen'. induction q as [|id q IH]; intros seen seen' Hm H1 H2; [done|]. cbn.
  destruct (decide (id ∈ seen)), (decide (id ∈ seen')); cbn.
  - by apply IH.
  - destruct (H2 id) as [|Hn]; [done..|]. unfold entry_of at 2. rewrite Hn. cbn.
    apply IH; [done|set_solver..].
  - destruct (H1 id) as [|Hn]; [done..|]. unfold entry_of at 1. rewrite Hm, Hn by done. cbn.
    apply IH; [set_solver..|]. intros k Hk. set_solver.
  - assert (entry_of m id = entry_of m' id) as -> by (unfold entry_of; by rewrite Hm).
    destruct (entry_of m' id); [f_equal|]; apply IH; set_solver.
Qed.

Lemma entries_after_pre (m : gmap string (option Obj)) seen pre q :
  (∀ k, k ∈ pre → m !! k = None) →
  omap (entry_of m) (first_occurrences seen (pre ++ q)) =
  omap (entry_of m) (first_occurrences (list_to_set pre ∪ seen) q).
Proof.
  revert seen. induction pre as [|id pre IH]; intros seen Hn; cbn.
  { by rewrite (left_id_L ∅ _). }
  assert (m !! id = None) as Hid by (apply Hn; left).
  destruct (decide (id ∈ seen)); cbn; unfold entry_of at 1; rewrite ?Hid; cbn;
    rewrite IH by (intros; apply Hn; by right); apply entries_skip; set_solver.
Qed.

(** Draining a reachable queue yields every object exactly once, with its
    newest version, in the order in which the keys first entered the queue. *)
Theorem fifo_drain_exact keyFn f :
  reachable keyFn f →
  drain (size (items f)) f = omap (entry_of (items f)) (first_occurrences ∅ (queue f)) ∧
  drain (size (items f)) f ≡ₚ map_to_list (items f).
Proof.
  intros Hr%reachable_queued. remember (size (items f)) as n eqn:Hn. revert f Hr Hn.
  assert (∀ m q, (∀ k : string, k ∈ q → m !! k = None) →
    omap (entry_of m) (first_occurrences ∅ q) = []) as Hnil.
  { intros m q Hq. pose proof (entries_after_pre m ∅ q [] Hq) as H.
    rewrite app_nil_r in H. by rewrite H. }
  induction n as [|n IH]; intros f Hr Hn.
  { symmetry in Hn. apply map_size_empty_inv in Hn. rewrite Hn, map_to_list_empty.
    rewrite Hnil; [done|]. intros; apply lookup_empty. }
  cbn [drain]. pose proof (pop_loop_effect (λ _, Processed None) (queue f) f) as [_ _ _ He].
  pose proof (queued_pop_loop (λ _, Processed None) (queue f) f Hr) as Hr'.
  unfold Pop. destruct (pop_loop _ (queue f) f) as [r f']; cbn in *.
  destruct r as [id item err| |].
  - destruct He as (pre & post & Hq & Hid & Hpre & _ & _ & Hit & Hq').
    destruct (IH f' Hr') as [IH1 IH2].
    { rewrite Hit, map_size_delete_Some by done. lia. }
    split.
    + rewrite IH1, Hq, (entries_after_pre _ _ _ _ Hpre), Hit, Hq'. cbn.
      rewrite decide_False by (intros [Hin|]%elem_of_union; [|set_solver];
        apply elem_of_list_to_set, Hpre in Hin; congruence).
      cbn. unfold entry_of at 2. rewrite Hid. cbn. f_equal. symmetry. apply entries_skip.
      * intros k Hk. rewrite lookup_delete_ne; [done|]. set_solver.
      * set_solver.
      * intros k Hk. right. rewrite lookup_delete. case_decide; [done|].
        apply Hpre. set_solver.
    + rewrite IH2, Hit. by rewrite map_to_list_delete.
  - destruct He as (Hno & _). apply queued_none in Hno; [|done].
    by rewrite Hno, map_size_empty in Hn.
  - destruct He as (Hno & _). apply queued_none in Hno; [|done].
    by rewrite Hno, map_size_empty in Hn.
Qed.
(** ** HasSynced *)

(** Runs after the first [Replace], other calls of [Replace] left out, with the
    queue entries the [Pop]s have taken. *)
Inductive since (f0 : FIFO) : list string → FIFO → Prop :=
| since_start : since f0 [] f0
| since_pop process taken f :
    since f0 taken f →
    since f0 (taken ++ taken_by_pop (items f) (queue f)) (Pop process f).2
| since_add obj taken f : since f0 taken f → since f0 taken (Add obj f).2
| since_add_if obj taken f : since f0 taken f → since f0 taken (AddIfNotPresent obj f).2
| since_update obj taken f : since f0 taken f → since f0 taken (Update obj f).2
| since_delete obj taken f : since f0 taken f → since f0 taken (Delete obj f).2
| since_resync rng `{!range_order rng} taken f : since f0 taken f → since f0 taken (Resync rng f)
| since_close taken f : since f0 taken f → since f0 taken (Close f).

Lemma addIfNotPresent_grows id obj f :
  populated (addIfNotPresent id obj f) = true ∧
  initialPopulationCount (addIfNotPresent id obj f) = initialPopulationCount f ∧
  ∃ r, queue (addIfNotPresent id obj f) = queue f ++ r.
Proof.
  unfold addIfNotPresent. cbn. destruct (items f !! id); split_and!; try done; [|by eexists].
  exists []. by rewrite app_nil_r.
Qed.

Lemma Add_grows obj f :
  (populated f = true → populated (Add obj f).2 = true) ∧
  initialPopulationCount (Add obj f).2 = initialPopulationCount f ∧
  ∃ r, queue (Add obj f).2 = queue f ++ r.
Proof.
  unfold Add. destruct (keyFunc f obj) as [id|]; cbn.
  - destruct (items f !! id); split_and!; try done; [|by eexists].
    exists []. by rewrite app_nil_r.
  - split_and!; try done. exists []. by rewrite app_nil_r.
Qed.

Lemma resync_grows (s : gset string) (l : list (string * option Obj)) q :
  ∃ r, foldl (λ q kv, if Has s kv.1 then q else q ++ [kv.1]) q l = q ++ r.
Proof.
  revert q. induction l as [|[k o] l IH]; intros q; cbn; [exists []; by rewrite app_nil_r|].
  destruct (Has s k); [apply IH|]. destruct (IH (q ++ [k])) as [r ->].
  exists ([k] ++ r). by rewrite app_assoc.
Qed.

(** What the pops have taken is what the queue has lost at its front. *)
Lemma since_inv n f0 taken f :
  populated f0 = true → initialPopulationCount f0 = n →
  since f0 taken f →
  populated f = true ∧ initialPopulationCount f = n - length taken ∧
  ∃ r, taken ++ queue f = queue f0 ++ r.
Proof.
  intros Hp0 Hn0. induction 1 as [|process taken f _ (Hp & Hn & r & Hr)
    |obj taken f _ (Hp & Hn & r & Hr)|obj taken f _ (Hp & Hn & r & Hr)
    |obj taken f _ (Hp & Hn & r & Hr)|obj taken f _ (Hp & Hn & r & Hr)
    |rng ? taken f _ (Hp & Hn & r & Hr)|taken f _ (Hp & Hn & r & Hr)].
  - split_and!; [done|cbn; lia|]. exists []. by rewrite app_nil_r.
  - destruct (pop_loop_effect process (queue f) f) as [_ Hpp Hc He]. unfold Pop.
    split_and!; [by apply Hpp|rewrite Hc, Hn, length_app; lia|].
    destruct (pop_loop process (queue f) f).1.
    + destruct He as (pre & post & Hq & _ & _ & -> & Hm).
      destruct (process item); destruct Hm as (_ & _ & ->).
      * exists r. rewrite <-Hr, Hq, <-!app_assoc. done.
      * exists (r ++ [id]). rewrite (app_assoc (queue f0)), <-Hr, Hq, <-!app_assoc. done.
    + destruct He as (_ & _ & -> & -> & _). exists r. by rewrite app_nil_r.
    + destruct He as (_ & _ & -> & -> & _). exists r. by rewrite app_nil_r.
  - destruct (Add_grows obj f) as (Hpp & -> & r' & ->). split_and!; [auto|done|].
    exists (r ++ r'). by rewrite !app_assoc, Hr.
  - unfold AddIfNotPresent. destruct (keyFunc f obj) as [id|]; cbn; [|by eauto].
    destruct (addIfNotPresent_grows id obj f) as (Hpp & -> & r' & ->). split_and!; [auto|done|].
    exists (r ++ r'). by rewrite !app_assoc, Hr.
  - destruct (Add_grows obj f) as (Hpp & Hc & r' & Hq). unfold Update.
    rewrite Hc, Hq. split_and!; [auto|done|]. exists (r ++ r'). by rewrite !app_assoc, Hr.
  - unfold Delete. destruct (keyFunc f obj) as [id|]; cbn; by eauto.
  - cbn. destruct (resync_grows (Insert ∅ (queue f)) (rng (items f)) (queue f)) as [r' ->].
    split_and!; [done|done|]. exists (r ++ r'). by rewrite !app_assoc, Hr.
  - by eauto.
Qed.

(** The state the first [Replace] of a queue leaves. *)
Lemma first_Replace keyFn rng `{!range_order rng} l f0 :
  Replace rng l (NewFIFO keyFn) = (None, f0) →
  ∃ its, key_items keyFn l ∅ = Ok its ∧ items f0 = its ∧ queue f0 = (rng its).*1 ∧
    populated f0 = true ∧ initialPopulationCount f0 = length (queue f0) ∧
    keyFunc f0 = keyFn.
Proof.
  unfold Replace. cbn. destruct (key_items keyFn l ∅) as [its|] eqn:E; [|done].
  intros [= <-]. exists its. cbn. rewrite length_fmap, (range_length rng). done.
Qed.

(** After the first [Replace] and until another one, [HasSynced] is true
    exactly when the [Pop]s have taken the whole first batch from the queue. *)
Theorem fifo_HasSynced_exact keyFn rng `{!range_order rng} l f0 taken f :
  Replace rng l (NewFIFO keyFn) = (None, f0) → since f0 taken f →
  HasSynced f = true ↔ queue f0 `prefix_of` taken.
Proof.
  intros (its & _ & _ & _ & Hp0 & Hn0 & _)%first_Replace Hs; [|done].
  apply (since_inv _ _ _ _ Hp0 Hn0) in Hs as (Hp & Hn & r & Hr).
  unfold HasSynced. rewrite Hp, Hn. cbn. rewrite bool_decide_eq_true. split.
  - intros Hlen. exists (take (length taken - length (queue f0)) r).
    apply (f_equal (take (length taken))) in Hr.
    rewrite take_app_length, take_app_ge in Hr by lia. done.
  - intros [k ->]. rewrite length_app. lia.
Qed.

(** A second [Replace] with fewer objects before the first batch is popped
    leaves [HasSynced] false after every object has been popped: the count of the
    first batch is kept although the queue is rebuilt. *)
Theorem fifo_second_Replace_never_synced keyFn rng rng' `{!range_order rng, !range_order rng'}
    l l' f0 f1 its its' taken f :
  Replace rng l (NewFIFO keyFn) = (None, f0) → Replace rng' l' f0 = (None, f1) →
  key_items keyFn l ∅ = Ok its → key_items keyFn l' ∅ = Ok its' → size its' < size its →
  since f1 taken f → length taken ≤ size its' → HasSynced f = false.
Proof.
  intros (its1 & E1 & Hi0 & Hq0 & Hp0 & Hn0 & Hk0)%first_Replace; [|done].
  unfold Replace. rewrite Hk0, Hp0. intros Hr E E' Hlt Hs Hlen.
  rewrite E' in Hr. simplify_eq/=. rewrite E1 in E. simplify_eq.
  apply (since_inv (initialPopulationCount f0)) in Hs as (Hp & Hn & _); [|done..].
  unfold HasSynced. rewrite Hp, Hn. cbn. apply bool_decide_eq_false.
  rewrite Hn0, Hq0, length_fmap, (range_length rng). lia.
Qed.
End FIFO.

Arguments FIFO Obj : clear implicits.

(** ** Witnesses *)
Definition ex_fifo_key (o : option string) : res string string :=
  match o with Some s => Ok s | None => Err "object has no meta" end.

Definition ex_fifo1 : FIFO string := (Add (Some "a") (NewFIFO ex_fifo_key)).2.
Definition ex_fifo2 : FIFO string := (Add (Some "b") ex_fifo1).2.
Definition ex_fifo : FIFO string := (Delete (Some "a") ex_fifo2).2.

Lemma ex_fifo_reachable : reachable ex_fifo_key ex_fifo.
Proof.
  apply (reach_step _ ex_fifo2); [|apply step_delete].
  apply (reach_step _ ex_fifo1); [|apply step_add].
  apply (reach_step _ (NewFIFO ex_fifo_key)); [constructor|apply step_add].
Qed.

Lemma fifo_Pop_exact_witness :
  ∃ pre post, ["a"; "b"] = pre ++ "b" :: post ∧ items ex_fifo !! "b" = Some (Some "b") ∧
    (∀ k, k ∈ pre → items ex_fifo !! k = None) ∧
    None = None (A:=string) ∧
    items (Pop (λ _, Processed None) ex_fifo).2 = delete "b" (items ex_fifo) ∧
    queue (Pop (λ _, Processed None) ex_fifo).2 = post.
Proof. exact (fifo_Pop_exact _ (λ _, Processed None) ex_fifo ex_fifo_reachable). Defined.

Lemma fifo_drain_exact_witness : drain 1 ex_fifo ≡ₚ map_to_list (items ex_fifo).
Proof. apply (fifo_drain_exact _ ex_fifo ex_fifo_reachable). Defined.

Definition ex_synced0 : FIFO string :=
  (Replace map_to_list [Some "a"; Some "b"] (NewFIFO ex_fifo_key)).2.

Lemma fifo_HasSynced_exact_witness :
  let f := (Pop (λ _, Processed None) ex_synced0).2 in
  HasSynced f = true ↔ queue ex_synced0 `prefix_of` ["a"].
Proof.
  intros f.
  refine (fifo_HasSynced_exact ex_fifo_key map_to_list [Some "a"; Some "b"] ex_synced0
    ["a"] f eq_refl _).
  apply (since_pop _ (λ _, Processed None) [] ex_synced0). constructor.
Defined.

Lemma fifo_second_Replace_never_synced_witness :
  let f1 := (Replace map_to_list [Some "a"] ex_synced0).2 in
  let f := (Pop (λ _, Processed None) f1).2 in
  items f = ∅ ∧ HasSynced f = false.
Proof.
  intros f1 f. split; [reflexivity|].
  refine (fifo_second_Replace_never_synced ex_fifo_key map_to_list map_to_list
    [Some "a"; Some "b"] [Some "a"] ex_synced0 f1 _ _ ["a"] f
    eq_refl eq_refl eq_refl eq_refl _ _ _).
  - vm_compute. lia.
  - apply (since_pop _ (λ _, Processed None) [] f1). constructor.
  - vm_compute. lia.
Defined.
