(* ===== verification/DeltaFifo.v ===== *)
(** * The DeltaFIFO of the client-go cache
    (k8s.io/client-go/tools/cache/delta_fifo.go)

    A DeltaFIFO keeps, for each key, the list of the changes made to the object
    since it was last processed.  Objects are Go [interface{}] values whose
    dynamic types the code looks at: an ordinary object, a
    [DeletedFinalStateUnknown] marker or a [Deltas] slice.  The known-objects store
    is outside of the queue: its state [W] is an argument of the calls that look at
    it, and the state the function passed to [Pop] acts on. *)

From S2P Require Import Prelude StringSets.

Inductive DeltaType : Type := Added | Updated | Deleted | Sync.

#[export] Instance DeltaType_eq_dec : EqDecision DeltaType.
Proof. solve_decision. Defined.

Record Delta (X : Type) : Type := { Type_ : DeltaType; Object : option X }.
Arguments Build_Delta {X} _ _.
Arguments Type_ {X} _.
Arguments Object {X} _.

(** The values an [interface{}] holds here ([None] is the nil interface). *)
Inductive dyn (Obj : Type) : Type :=
| Plain (o : Obj)
| DeletedFinalStateUnknown (Key : string) (obj : option (dyn Obj))
| DeltasV (d : list (Delta (dyn Obj))).
Arguments Plain {Obj} _.
Arguments DeletedFinalStateUnknown {Obj} _ _.
Arguments DeltasV {Obj} _.

Section DeltaFIFO.
Context {Obj W : Type}.

Abbreviation iface := (option (dyn Obj)).
Abbreviation Deltas := (list (Delta (dyn Obj))).

Definition Oldest (d : Deltas) : option (Delta (dyn Obj)) := head d.
Definition Newest (d : Deltas) : option (Delta (dyn Obj)) := last d.

(** A fresh slice with the same elements; slices are values here. *)
Definition copyDeltas (d : Deltas) : Deltas := d.

Inductive error : Type :=
| KeyFuncError (msg : string)
| ErrZeroLengthDeltasObject
| KeyError (obj : iface) (err : error)
| NotDeltasError (obj : iface)
| EnqueueError (err : error).

(** The interface of the known-objects store, on its state. *)
Record KeyListerGetter := {
  ko_ListKeys : W → list string;
  ko_GetByKey : string → W → iface * bool * option error;
}.

Record DeltaFIFO := {
  items : gmap string Deltas;
  queue : list string;
  populated : bool;
  initialPopulationCount : nat;
  keyFunc : iface → res string string;
  deltaCompressor : option (Deltas → Deltas);
  knownObjects : option KeyListerGetter;
  closed : bool;
}.

Definition NewDeltaFIFO (keyFn : iface → res string string)
    (compressor : option (Deltas → Deltas)) (known : option KeyListerGetter) : DeltaFIFO :=
  {| items := ∅; queue := []; populated := false; initialPopulationCount := 0;
     keyFunc := keyFn; deltaCompressor := compressor; knownObjects := known;
     closed := false |}.

Definition set_store (m : gmap string Deltas) (q : list string) (f : DeltaFIFO) : DeltaFIFO :=
  {| items := m; queue := q; populated := populated f;
     initialPopulationCount := initialPopulationCount f; keyFunc := keyFunc f;
     deltaCompressor := deltaCompressor f; knownObjects := knownObjects f;
     closed := closed f |}.
Definition set_populated (f : DeltaFIFO) : DeltaFIFO :=
  {| items := items f; queue := queue f; populated := true;
     initialPopulationCount := initialPopulationCount f; keyFunc := keyFunc f;
     deltaCompressor := deltaCompressor f; knownObjects := knownObjects f;
     closed := closed f |}.
Definition set_count (n : nat) (f : DeltaFIFO) : DeltaFIFO :=
  {| items := items f; queue := queue f; populated := populated f;
     initialPopulationCount := n; keyFunc := keyFunc f;
     deltaCompressor := deltaCompressor f; knownObjects := knownObjects f;
     closed := closed f |}.

Definition Close (f : DeltaFIFO) : DeltaFIFO :=
  {| items := items f; queue := queue f; populated := populated f;
     initialPopulationCount := initialPopulationCount f; keyFunc := keyFunc f;
     deltaCompressor := deltaCompressor f; knownObjects := knownObjects f;
     closed := true |}.

Definition IsClosed (f : DeltaFIFO) : bool := if closed f then true else false.

(** The key of a value that is not a [Deltas]. *)
Definition key_of_obj (kf : iface → res string string) (obj : iface) : res error string :=
  match obj with
  | Some (DeletedFinalStateUnknown k _) => Ok k
  | _ => match kf obj with Ok k => Ok k | Err e => Err (KeyFuncError e) end
  end.

Definition key_of (kf : iface → res string string) (obj : iface) : res error string :=
  match obj with
  | Some (DeltasV d) =>
    match Newest d with
    | None => Err (KeyError obj ErrZeroLengthDeltasObject)
    | Some n => key_of_obj kf (Object n)
    end
  | _ => key_of_obj kf obj
  end.

Definition KeyOf (f : DeltaFIFO) (obj : iface) : res error string := key_of (keyFunc f) obj.

Definition HasSynced (f : DeltaFIFO) : bool :=
  populated f && bool_decide (initialPopulationCount f = 0).

(** Of two deletions, the one with the most information. *)
Definition isDeletionDup (a b : Delta (dyn Obj)) : option (Delta (dyn Obj)) :=
  if bool_decide (Type_ b ≠ Deleted) || bool_decide (Type_ a ≠ Deleted) then None
  else match Object b with
       | Some (DeletedFinalStateUnknown _ _) => Some a
       | _ => Some b
       end.

Definition isDup (a b : Delta (dyn Obj)) : option (Delta (dyn Obj)) :=
  match isDeletionDup a b with Some out => Some out | None => None end.

Definition dedupDeltas (deltas : Deltas) : Deltas :=
  let n := length deltas in
  if bool_decide (n < 2) then deltas
  else match deltas !! (n - 1), deltas !! (n - 2) with
       | Some a, Some b =>
         match isDup a b with
         | Some out => take (n - 2) deltas ++ [out]
         | None => deltas
         end
       | _, _ => deltas
       end.

Definition willObjectBeDeletedLocked (id : string) (f : DeltaFIFO) : bool :=
  let deltas := default [] (items f !! id) in
  match deltas !! (length deltas - 1) with
  | Some d => bool_decide (0 < length deltas) && bool_decide (Type_ d = Deleted)
  | None => false
  end.

Definition queueActionLocked (actionType : DeltaType) (obj : iface) (f : DeltaFIFO) :
    option error * DeltaFIFO :=
  match KeyOf f obj with
  | Err err => (Some (KeyError obj err), f)
  | Ok id =>
    if bool_decide (actionType = Sync) && willObjectBeDeletedLocked id f then (None, f)
    else
      let newDeltas := default [] (items f !! id) ++ [Build_Delta actionType obj] in
      let newDeltas := dedupDeltas newDeltas in
      let newDeltas := match deltaCompressor f with
                       | Some compress => compress newDeltas
                       | None => newDeltas
                       end in
      let exists_ := bool_decide (is_Some (items f !! id)) in
      (None,
       if bool_decide (0 < length newDeltas) then
         set_store (<[id := newDeltas]> (items f))
                   (if exists_ then queue f else queue f ++ [id]) f
       else if exists_ then set_store (delete id (items f)) (queue f) f
       else f)
  end.

Arguments queueActionLocked : simpl never.

Definition Add (obj : iface) (f : DeltaFIFO) : option error * DeltaFIFO :=
  queueActionLocked Added obj (set_populated f).

Definition Update (obj : iface) (f : DeltaFIFO) : option error * DeltaFIFO :=
  queueActionLocked Updated obj (set_populated f).

Definition Delete (w : W) (obj : iface) (f : DeltaFIFO) : option error * DeltaFIFO :=
  match KeyOf f obj with
  | Err err => (Some (KeyError obj err), f)
  | Ok id =>
    let f := set_populated f in
    let itemsExist := bool_decide (is_Some (items f !! id)) in
    match knownObjects f with
    | None => if negb itemsExist then (None, f) else queueActionLocked Deleted obj f
    | Some ko =>
      let '(_, exists_, err) := ko_GetByKey ko id w in
      if bool_decide (err = None) && negb exists_ && negb itemsExist then (None, f)
      else queueActionLocked Deleted obj f
    end
  end.

Definition addIfNotPresent (id : string) (deltas : Deltas) (f : DeltaFIFO) : DeltaFIFO :=
  let f := set_populated f in
  match items f !! id with
  | Some _ => f
  | None => set_store (<[id := deltas]> (items f)) (queue f ++ [id]) f
  end.

(** [deltas.Newest().Object] dereferences nil when [deltas] is empty. *)
Definition AddIfNotPresent (obj : iface) : st DeltaFIFO (option error) := λ f,
  match obj with
  | Some (DeltasV deltas) =>
    match Newest deltas with
    | None => Panic f
    | Some n =>
      match KeyOf f (Object n) with
      | Err err => Ret (Some (KeyError obj err)) f
      | Ok id => Ret None (addIfNotPresent id deltas f)
      end
    end
  | _ => Ret (Some (NotDeltasError obj)) f
  end.

Definition listLocked (rng : gmap string Deltas → list (string * Deltas)) :
    st DeltaFIFO (list iface) := λ f,
  match mapM (λ kv, Object <$> Newest (copyDeltas kv.2)) (rng (items f)) with
  | Some l => Ret l f
  | None => Panic f
  end.

Definition List (rng : gmap string Deltas → list (string * Deltas)) :
    st DeltaFIFO (list iface) := listLocked rng.

Definition ListKeys (rng : gmap string Deltas → list (string * Deltas)) (f : DeltaFIFO) :
    list string := (rng (items f)).*1.

Definition GetByKey (key : string) (f : DeltaFIFO) : Deltas * bool :=
  match items f !! key with
  | Some d => (copyDeltas d, true)
  | None => ([], false)
  end.

Definition Get (obj : iface) (f : DeltaFIFO) : res error (Deltas * bool) :=
  match KeyOf f obj with
  | Err err => Err (KeyError obj err)
  | Ok key => Ok (GetByKey key f)
  end.

(** What the function passed to [Pop] returns. *)
Inductive ProcResult : Type :=
| Processed (err : option error)
| ErrRequeue (err : option error).

Inductive PopResult : Type :=
| Popped (id : string) (item : Deltas) (err : option error)
| FIFOClosedError
| PopBlocked.

(** The loop of [Pop], on what is left of the queue; [process] runs under the lock
    and may change the state outside of the queue. *)
Fixpoint pop_loop (process : Deltas → st W ProcResult) (q : list string) :
    st (DeltaFIFO * W) PopResult := λ fw,
  let '(f, w) := fw in
  match q with
  | [] => Ret (if IsClosed f then FIFOClosedError else PopBlocked) (set_store (items f) [] f, w)
  | id :: q' =>
    let f := set_store (items f) q' f in
    let item := items f !! id in
    let f := if bool_decide (0 < initialPopulationCount f)
             then set_count (initialPopulationCount f - 1) f else f in
    match item with
    | None => pop_loop process q' (f, w)
    | Some item =>
      let f := set_store (delete id (items f)) (queue f) f in
      match process item w with
      | Panic w' => Panic (f, w')
      | Ret (ErrRequeue err) w' => Ret (Popped id item err) (addIfNotPresent id item f, w')
      | Ret (Processed err) w' => Ret (Popped id item err) (f, w')
      end
    end
  end.

Definition Pop (process : Deltas → st W ProcResult) : st (DeltaFIFO * W) PopResult :=
  λ fw, pop_loop process (queue fw.1) fw.

(** [Replace], first loop: queue a [Sync] for every listed item. *)
Fixpoint sync_items (l : list iface) (keys : gset string) (f : DeltaFIFO) :
    res error (gset string) * DeltaFIFO :=
  match l with
  | [] => (Ok keys, f)
  | item :: l' =>
    match KeyOf f item with
    | Err err => (Err (KeyError item err), f)
    | Ok key =>
      match queueActionLocked Sync item f with
      | (Some err, f) => (Err (EnqueueError err), f)
      | (None, f) => sync_items l' (Insert keys [key]) f
      end
    end
  end.

(** [Replace], deletion detection against the queue's own items. *)
Fixpoint delete_unlisted (keys : gset string) (l : list (string * Deltas)) (f : DeltaFIFO) :
    option error * DeltaFIFO :=
  match l with
  | [] => (None, f)
  | (k, oldItem) :: l' =>
    if Has keys k then delete_unlisted keys l' f
    else
      let deletedObj := match Newest oldItem with Some n => Object n | None => None end in
      match queueActionLocked Deleted (Some (DeletedFinalStateUnknown k deletedObj)) f with
      | (Some err, f) => (Some err, f)
      | (None, f) => delete_unlisted keys l' f
      end
  end.

(** [Replace], deletion detection against the known objects; counts the deletions. *)
Fixpoint delete_known (ko : KeyListerGetter) (w : W) (keys : gset string) (ks : list string)
    (n : nat) (f : DeltaFIFO) : option error * nat * DeltaFIFO :=
  match ks with
  | [] => (None, n, f)
  | k :: ks' =>
    if Has keys k then delete_known ko w keys ks' n f
    else
      let '(obj, exists_, err) := ko_GetByKey ko k w in
      let deletedObj := if bool_decide (err ≠ None) then None
                        else if negb exists_ then None else obj in
      match queueActionLocked Deleted (Some (DeletedFinalStateUnknown k deletedObj)) f with
      | (Some err, f) => (Some err, S n, f)
      | (None, f) => delete_known ko w keys ks' (S n) f
      end
  end.

Definition mark_populated (n : nat) (f : DeltaFIFO) : DeltaFIFO :=
  if negb (populated f) then set_count n (set_populated f) else f.

Definition Replace (rng : gmap string Deltas → list (string * Deltas)) (w : W)
    (l : list iface) (f : DeltaFIFO) : option error * DeltaFIFO :=
  match sync_items l ∅ f with
  | (Err e, f) => (Some e, f)
  | (Ok keys, f) =>
    match knownObjects f with
    | None =>
      match delete_unlisted keys (rng (items f)) f with
      | (Some err, f) => (Some err, f)
      | (None, f) => (None, mark_populated (length l) f)
      end
    | Some ko =>
      match delete_known ko w keys (ko_ListKeys ko w) 0 f with
      | (Some err, _, f) => (Some err, f)
      | (None, queuedDeletions, f) => (None, mark_populated (length l + queuedDeletions) f)
      end
    end
  end.

Definition syncKeyLocked (ko : KeyListerGetter) (w : W) (key : string) (f : DeltaFIFO) :
    option error * DeltaFIFO :=
  let '(obj, exists_, err) := ko_GetByKey ko key w in
  if bool_decide (err ≠ None) then (None, f)
  else if negb exists_ then (None, f)
  else match KeyOf f obj with
       | Err err => (Some (KeyError obj err), f)
       | Ok id =>
         if bool_decide (0 < length (default [] (items f !! id))) then (None, f)
         else match queueActionLocked Sync obj f with
              | (Some err, f) => (Some (EnqueueError err), f)
              | (None, f) => (None, f)
              end
       end.

Definition syncKey (ko : KeyListerGetter) (w : W) (key : string) (f : DeltaFIFO) :
    option error * DeltaFIFO := syncKeyLocked ko w key f.

Fixpoint sync_keys (ko : KeyListerGetter) (w : W) (ks : list string) (f : DeltaFIFO) :
    option error * DeltaFIFO :=
  match ks with
  | [] => (None, f)
  | k :: ks' =>
    match syncKeyLocked ko w k f with
    | (Some err, f) => (Some err, f)
    | (None, f) => sync_keys ko w ks' f
    end
  end.

Definition Resync (w : W) (f : DeltaFIFO) : option error * DeltaFIFO :=
  match knownObjects f with
  | None => (None, f)
  | Some ko => sync_keys ko w (ko_ListKeys ko w) f
  end.

(** ** What one action does to the deltas of its key *)

(** No deletion is followed by a second one, nor by a [Sync]. *)
Definition tidy (ds : Deltas) : Prop :=
  ∀ i a b, ds !! i = Some a → ds !! S i = Some b → Type_ a = Deleted →
    Type_ b ≠ Deleted ∧ Type_ b ≠ Sync.

Lemma dedupDeltas_snoc ds b a :
  dedupDeltas (ds ++ [b] ++ [a]) =
  match isDup a b with Some out => ds ++ [out] | None => ds ++ [b] ++ [a] end.
Proof.
  unfold dedupDeltas. rewrite !length_app. cbn [length].
  rewrite bool_decide_eq_false_2 by lia.
  rewrite lookup_app_r by lia. replace (length ds + (1 + 1) - 1 - length ds) with 1 by lia.
  cbn [app lookup list_lookup].
  rewrite lookup_app_r by lia. replace (length ds + (1 + 1) - 2 - length ds) with 0 by lia.
  cbn [lookup list_lookup]. destruct (isDup a b); [|done].
  rewrite take_app_le, take_ge by lia. done.
Qed.

Lemma isDup_spec a b :
  (∃ out, isDup a b = Some out ∧ Type_ a = Deleted ∧ Type_ b = Deleted ∧ (out = a ∨ out = b)) ∨
  (isDup a b = None ∧ ¬ (Type_ a = Deleted ∧ Type_ b = Deleted)).
Proof.
  unfold isDup, isDeletionDup. case_bool_decide; cbn; [right; naive_solver|].
  case_bool_decide; cbn; [right; naive_solver|]. left.
  assert (Type_ a = Deleted) by by destruct (decide (Type_ a = Deleted)).
  assert (Type_ b = Deleted) by by destruct (decide (Type_ b = Deleted)).
  destruct (Object b) as [[]|]; eauto 6.
Qed.

(** Appending [d] and deduplicating: nothing else than [d] is added, the list is not
    empty, its last delta has the type of [d], and a tidy list stays tidy. *)
Lemma dedup_append ds d :
  (Type_ d = Sync → ∀ b, last ds = Some b → Type_ b ≠ Deleted) →
  let ds' := dedupDeltas (ds ++ [d]) in
  ds' ≠ [] ∧ (∀ x, x ∈ ds' → x = d ∨ x ∈ ds) ∧
  (∃ l, last ds' = Some l ∧ Type_ l = Type_ d ∧ (Type_ d ≠ Deleted → ds' = ds ++ [d])) ∧
  (tidy ds → tidy ds').
Proof.
  intros Hsync. destruct ds as [|b ds _] using rev_ind; cbn zeta.
  { cbn. split_and!; [done|set_solver|eauto|]. intros _ [|i] a b; by cbn. }
  rewrite <-app_assoc, dedupDeltas_snoc.
  assert (tidy (ds ++ [b]) → tidy ds) as Hpre.
  { intros Ht i x y Hx Hy. apply (Ht i); by apply lookup_app_l_Some. }
  destruct (isDup_spec d b) as [(out & -> & Hd & Hb & Hout)|[-> Hnd]].
  - split_and!; [by destruct ds|set_solver| |].
    + exists out. rewrite last_snoc. split_and!; [done| |done]. destruct Hout; congruence.
    + intros Ht i x y Hx Hy Hdel.
      destruct (decide (S i = length ds)) as [Hi|Hi].
      * rewrite Hi, list_lookup_middle in Hy by done.
        destruct (Ht i x b) as [? _]; [|rewrite Hi; by apply list_lookup_middle|done|done].
        apply lookup_app_l_Some. rewrite lookup_app_l in Hx by lia. done.
      * apply lookup_lt_Some in Hy as Hlt. rewrite length_app in Hlt. cbn in Hlt.
        rewrite !lookup_app_l in Hx, Hy by lia. by apply (Hpre Ht i x y).
  - split_and!; [by destruct ds|set_solver| |].
    + exists d. rewrite app_assoc, last_snoc. done.
    + intros Ht i x y Hx Hy Hdel.
      rewrite app_assoc in Hx, Hy.
      destruct (decide (S i = length (ds ++ [b]))) as [Hi|Hi].
      * rewrite Hi, list_lookup_middle in Hy by done. injection Hy as <-.
        rewrite length_app in Hi. cbn in Hi. assert (i = length ds) as -> by lia.
        rewrite <-app_assoc in Hx. cbn [app] in Hx.
        rewrite list_lookup_middle in Hx by done. injection Hx as <-.
        split; [naive_solver|]. intros Hs. eapply Hsync; [done|apply last_snoc|done].
      * apply lookup_lt_Some in Hy as Hlt. rewrite length_app in Hlt. cbn in Hlt.
        rewrite !lookup_app_l in Hx, Hy by lia. by apply (Ht i x y).
Qed.

Lemma willObjectBeDeleted_last id f :
  willObjectBeDeletedLocked id f = true ↔
  ∃ d, last (default [] (items f !! id)) = Some d ∧ Type_ d = Deleted.
Proof.
  unfold willObjectBeDeletedLocked. set (ds := default [] _). rewrite last_lookup, Nat.sub_1_r.
  destruct (ds !! pred (length ds)) as [d|] eqn:E; [|naive_solver].
  apply lookup_lt_Some in E. rewrite bool_decide_eq_true_2 by lia. cbn.
  rewrite bool_decide_eq_true. naive_solver.
Qed.

(** ** The invariant of the queue *)

(** A list of deltas of the object at [k], as the queue keeps them. *)
Definition proper (kf : iface → res string string) (k : string) (ds : Deltas) : Prop :=
  ds ≠ [] ∧ tidy ds ∧ ∀ d, d ∈ ds → key_of kf (Object d) = Ok k.

(** "Items in the set are in the queue", and no list of deltas is empty; without a
    compressor also "vice versa", without repetition, and the lists are proper. *)
Record inv (f : DeltaFIFO) : Prop := {
  inv_items k ds : items f !! k = Some ds → ds ≠ [] ∧ k ∈ queue f;
  inv_exact : deltaCompressor f = None →
    NoDup (queue f) ∧ (∀ k, k ∈ queue f → is_Some (items f !! k)) ∧
    (∀ k ds, items f !! k = Some ds → proper (keyFunc f) k ds);
}.

(** Nothing but the items, the queue and the population fields ever changes. *)
Definition same_config (f f' : DeltaFIFO) : Prop :=
  keyFunc f' = keyFunc f ∧ deltaCompressor f' = deltaCompressor f ∧
  knownObjects f' = knownObjects f.

Lemma inv_same_store f f' :
  items f' = items f → queue f' = queue f → same_config f f' → inv f → inv f'.
Proof.
  intros Hi Hq (Hk & Hc & _) [H1 H2]. split; rewrite ?Hi, ?Hq, ?Hk, ?Hc; done.
Qed.

Lemma queueAction_config t obj f : same_config f (queueActionLocked t obj f).2.
Proof.
  unfold queueActionLocked. destruct (KeyOf f obj) as [id|]; [|done].
  destruct (_ && _); [done|]. cbn. repeat case_bool_decide; done.
Qed.

(** Without a compressor, an action on a keyed object appends to the deltas of its
    key, and queues the key when it was not. *)
Lemma queueAction_plain t obj f id :
  deltaCompressor f = None → KeyOf f obj = Ok id →
  ¬ (t = Sync ∧ willObjectBeDeletedLocked id f = true) →
  queueActionLocked t obj f =
  (None, set_store (<[id := dedupDeltas (default [] (items f !! id) ++ [Build_Delta t obj])]>
           (items f))
         (if bool_decide (is_Some (items f !! id)) then queue f else queue f ++ [id]) f).
Proof.
  intros Hc Hk Hs. unfold queueActionLocked. rewrite Hk, Hc.
  destruct (_ && _) eqn:E.
  { apply andb_prop in E as [E1%bool_decide_eq_true E2]. naive_solver. }
  rewrite bool_decide_eq_true_2; [done|].
  destruct (dedup_append (default [] (items f !! id)) (Build_Delta t obj)) as [Hne _].
  { intros Ht b Hb Hd. apply Hs. split; [done|]. apply willObjectBeDeleted_last. eauto. }
  destruct (dedupDeltas _); [done|]. cbn. lia.
Qed.

Lemma inv_queueAction t obj f : inv f → inv (queueActionLocked t obj f).2.
Proof.
  intros [H1 H2]. destruct (KeyOf f obj) as [id|] eqn:Hk;
    [|unfold queueActionLocked; by rewrite Hk].
  destruct (decide (t = Sync ∧ willObjectBeDeletedLocked id f = true)) as [[-> Hw]|Hs].
  { unfold queueActionLocked. by rewrite Hk, Hw. }
  split.
  - intros k ds. unfold queueActionLocked. rewrite Hk. destruct (_ && _); [apply H1|].
    cbn. set (new := match deltaCompressor f with Some _ => _ | None => _ end).
    case_bool_decide as Hlen.
    + cbn. rewrite lookup_insert. case_decide as Hkk.
      * intros [= <-]. split; [by destruct new; [cbn in *; lia|]|].
        subst. case_bool_decide as He; [|set_solver]. destruct He as [ds' He].
        by apply H1 in He as [_ ?].
      * intros [? ?]%H1. split; [done|]. case_bool_decide; set_solver.
    + case_bool_decide; [|apply H1]. cbn. rewrite lookup_delete_Some.
      intros [_ ?%H1]. done.
  - destruct (queueAction_config t obj f) as (HK & HC & _). rewrite HC, HK. intros Hc.
    destruct (H2 Hc) as (Hnd & Hq & Hp).
    rewrite (queueAction_plain t obj f id Hc Hk Hs). cbn.
    destruct (dedup_append (default [] (items f !! id)) (Build_Delta t obj)) as (Hne & Hel & _ & Ht).
    { intros Hts b Hb Hd. apply Hs. split; [done|]. apply willObjectBeDeleted_last. eauto. }
    split_and!.
    + case_bool_decide as He; [done|]. apply NoDup_app. split_and!; [done| |apply NoDup_singleton].
      intros k Hkq ->%list_elem_of_singleton. by apply He, Hq.
    + intros k. rewrite lookup_insert. case_decide; [by eexists|].
      case_bool_decide; [apply Hq|]. rewrite elem_of_app, list_elem_of_singleton. naive_solver.
    + intros k ds. rewrite lookup_insert. case_decide as Hkk; [|apply Hp].
      intros [= <-]. subst k.
      destruct (items f !! id) as [ds0|] eqn:E; cbn in *.
      * destruct (Hp id ds0 E) as (_ & Ht0 & Hk0). split_and!; [done|by apply Ht|].
        intros d [->|?]%Hel; auto.
      * split_and!; [done|apply Ht; intros i; by rewrite lookup_nil|].
        intros d [->|?]%Hel; [done|set_solver].
Qed.

Lemma inv_addIfNotPresent id ds f :
  proper (keyFunc f) id ds → inv f → inv (addIfNotPresent id ds f).
Proof.
  intros Hpr [H1 H2]. unfold addIfNotPresent. cbn. destruct (items f !! id) eqn:E; [by split|].
  split; cbn.
  - intros k ds'. rewrite lookup_insert. case_decide as Hk.
    + intros [= <-]. split; [apply Hpr|set_solver].
    + intros [? ?]%H1. set_solver.
  - intros Hc. destruct (H2 Hc) as (Hnd & Hq & Hp). split_and!.
    + apply NoDup_app. split_and!; [done| |apply NoDup_singleton].
      intros k Hkq ->%list_elem_of_singleton. apply Hq in Hkq as [? ?]. congruence.
    + intros k. rewrite lookup_insert. case_decide; [by eexists|].
      rewrite elem_of_app, list_elem_of_singleton. naive_solver.
    + intros k ds'. rewrite lookup_insert. case_decide as Hk; [|apply Hp]. by intros [= <-]; subst.
Qed.

(** What holds of the queue while [Pop] has taken [q] off: the invariant, with the
    rest of the queue [q]. *)
Lemma inv_pop_loop process q f w :
  (∀ k, items f !! k = Some [] → False) →
  inv (set_store (items f) q f) →
  inv (final (pop_loop process q (f, w))).1.
Proof.
  revert f. induction q as [|id q IH]; intros f Hne Hinv; [by apply Hinv|].
  cbn [pop_loop]. set (f0 := set_store (items f) q f).
  set (f1 := if bool_decide (0 < initialPopulationCount f0) then _ else f0).
  assert (items f1 = items f ∧ queue f1 = q ∧ same_config f f1) as (Hi & Hq & Hcfg).
  { unfold f1. case_bool_decide; done. }
  assert (items f0 = items f) as -> by done. clearbody f1. clear f0.
  destruct Hinv as [H1 H2]. cbn in H1, H2. destruct Hcfg as (HK & HC & HN).
  destruct (items f !! id) as [item|] eqn:E.
  - assert (inv (set_store (delete id (items f1)) (queue f1) f1)) as Hd.
    { split; cbn; rewrite Hi, Hq.
      - intros k ds [Hk [? ?]%H1]%lookup_delete_Some. set_solver.
      - rewrite HK, HC. intros Hc. destruct (H2 Hc) as ([Hid Hnd]%NoDup_cons & Hqq & Hp).
        split_and!; [done| |].
        + intros k Hk. rewrite lookup_delete_ne by set_solver. apply Hqq. set_solver.
        + intros k ds [_ ?]%lookup_delete_Some. by apply Hp. }
    destruct (process item w) as [[err|err] w'|w']; cbn; [done| |done].
    destruct (deltaCompressor f) as [comp|] eqn:Hc.
    + unfold addIfNotPresent. cbn. rewrite Hi, lookup_delete_eq. split; cbn; [|congruence].
      intros k ds. rewrite lookup_insert. case_decide as Hk.
      * intros [= <-]. split; [by apply H1 in E as [? _]|set_solver].
      * intros [_ [? ?]%H1]%lookup_delete_Some. set_solver.
    + apply inv_addIfNotPresent; [|done]. cbn. rewrite HK. by apply (H2 eq_refl).
  - apply IH; rewrite Hi; [done|]. split; cbn; rewrite ?Hi.
    + intros k ds Hk. destruct (H1 k ds Hk). set_solver.
    + rewrite HK, HC. intros Hc. destruct (H2 Hc) as (_ & Hqq & _).
      destruct (Hqq id) as [? ?]; [set_solver|congruence].
Qed.

Lemma inv_sync_items l keys f : inv f → inv (sync_items l keys f).2.
Proof.
  revert keys f. induction l as [|item l IH]; intros keys f Hf; [done|]. cbn.
  destruct (KeyOf f item); [|done].
  pose proof (inv_queueAction Sync item f Hf). destruct (queueActionLocked Sync item f) as [[] ?];
    cbn in *; auto.
Qed.

Lemma inv_delete_unlisted keys l f : inv f → inv (delete_unlisted keys l f).2.
Proof.
  revert f. induction l as [|[k old] l IH]; intros f Hf; [done|]. cbn.
  destruct (Has keys k); [auto|]. set (o := Some (DeletedFinalStateUnknown _ _)).
  pose proof (inv_queueAction Deleted o f Hf). destruct (queueActionLocked Deleted o f) as [[] ?];
    cbn in *; auto.
Qed.

Lemma inv_delete_known ko w keys ks n f : inv f → inv (delete_known ko w keys ks n f).2.
Proof.
  revert n f. induction ks as [|k ks IH]; intros n f Hf; [done|]. cbn.
  destruct (Has keys k); [auto|]. destruct (ko_GetByKey ko k w) as [[obj ex] err].
  set (o := Some (DeletedFinalStateUnknown _ _)).
  pose proof (inv_queueAction Deleted o f Hf). destruct (queueActionLocked Deleted o f) as [[] ?];
    cbn in *; auto.
Qed.

Lemma inv_syncKeyLocked ko w k f : inv f → inv (syncKeyLocked ko w k f).2.
Proof.
  intros Hf. unfold syncKeyLocked. destruct (ko_GetByKey ko k w) as [[obj ex] err].
  case_bool_decide; [done|]. destruct ex; [cbn|done]. destruct (KeyOf f obj); [|done].
  case_bool_decide; [done|]. pose proof (inv_queueAction Sync obj f Hf).
  by destruct (queueActionLocked Sync obj f) as [[] ?].
Qed.

Lemma inv_sync_keys ko w ks f : inv f → inv (sync_keys ko w ks f).2.
Proof.
  revert f. induction ks as [|k ks IH]; intros f Hf; [done|]. cbn.
  pose proof (inv_syncKeyLocked ko w k f Hf).
  destruct (syncKeyLocked ko w k f) as [[] ?]; cbn in *; auto.
Qed.

Lemma inv_mark_populated n f : inv f → inv (mark_populated n f).
Proof. unfold mark_populated. destruct (negb _); [|done]. by apply inv_same_store. Qed.

Lemma inv_set_populated f : inv f → inv (set_populated f).
Proof. by apply inv_same_store. Qed.

Lemma inv_Delete w obj f : inv f → inv (Delete w obj f).2.
Proof.
  intros Hf%inv_set_populated. unfold Delete. destruct (KeyOf f obj) as [id|]; [|by destruct Hf].
  cbn zeta. destruct (knownObjects _) as [ko|].
  - destruct (ko_GetByKey ko id w) as [[? ?] ?]. destruct (_ && _ && _); [done|].
    by apply inv_queueAction.
  - destruct (negb _); [done|]. by apply inv_queueAction.
Qed.

Lemma inv_Replace rng w l f : inv f → inv (Replace rng w l f).2.
Proof.
  intros Hf. unfold Replace. pose proof (inv_sync_items l ∅ f Hf) as H1.
  destruct (sync_items l ∅ f) as [[keys|e] f1]; cbn in *; [|done].
  destruct (knownObjects f1) as [ko|].
  - pose proof (inv_delete_known ko w keys (ko_ListKeys ko w) 0 f1 H1).
    destruct (delete_known ko w keys (ko_ListKeys ko w) 0 f1) as [[[] ?] ?]; cbn in *; [done|].
    by apply inv_mark_populated.
  - pose proof (inv_delete_unlisted keys (rng (items f1)) f1 H1).
    destruct (delete_unlisted keys (rng (items f1)) f1) as [[] ?]; cbn in *; [done|].
    by apply inv_mark_populated.
Qed.

(** ** Runs of the queue

    [AddIfNotPresent] is documented to take "the output of the Pop() function": a
    proper list of deltas.  All else is free: any objects, any known-objects state,
    any processing function, panicking or not. *)
Inductive step (f : DeltaFIFO) : DeltaFIFO → Prop :=
| step_add obj : step f (Add obj f).2
| step_update obj : step f (Update obj f).2
| step_delete w obj : step f (Delete w obj f).2
| step_add_if k ds : proper (keyFunc f) k ds → step f (final (AddIfNotPresent (Some (DeltasV ds)) f))
| step_pop process w : step f (final (Pop process (f, w))).1
| step_replace rng w l : step f (Replace rng w l f).2
| step_resync w : step f (Resync w f).2
| step_close : step f (Close f).

Inductive reachable (f0 : DeltaFIFO) : DeltaFIFO → Prop :=
| reach_start : reachable f0 f0
| reach_step f f' : reachable f0 f → step f f' → reachable f0 f'.

Lemma proper_newest kf k ds : proper kf k ds → ∃ d, Newest ds = Some d ∧ d ∈ ds.
Proof.
  intros (Hne & _ & _). destruct ds as [|d ds _] using rev_ind; [done|].
  exists d. unfold Newest. rewrite last_snoc. set_solver.
Qed.

Lemma dstep_inv f f' : inv f → step f f' → inv f'.
Proof.
  intros Hf. destruct 1 as [obj|obj|w obj|k ds Hds|process w|rng w l|w|].
  - by apply inv_queueAction, inv_set_populated.
  - by apply inv_queueAction, inv_set_populated.
  - by apply inv_Delete.
  - unfold AddIfNotPresent. destruct (proper_newest _ _ _ Hds) as (d & -> & Hd).
    unfold KeyOf. destruct Hds as (Hne & Ht & Hk). rewrite (Hk d Hd). cbn.
    by apply inv_addIfNotPresent.
  - unfold Pop. cbn. apply inv_pop_loop; [|by apply (inv_same_store f)].
    intros k Hk. by apply Hf in Hk as [? _].
  - by apply inv_Replace.
  - unfold Resync. destruct (knownObjects f); [|done]. by apply inv_sync_keys.
  - by apply (inv_same_store f).
Qed.

Lemma dreachable_inv keyFn compressor known f :
  reachable (NewDeltaFIFO keyFn compressor known) f → inv f.
Proof.
  induction 1 as [|f f' _ IH Hs]; [|by eapply dstep_inv].
  split; cbn; [intros k ds; by rewrite lookup_empty|]. intros _.
  split_and!; [apply NoDup_nil_2|intros k ?%not_elem_of_nil; done|].
  intros k ds. by rewrite lookup_empty.
Qed.

(** What [Pop] does on a queue that satisfies the invariant. *)
Lemma Pop_effect f process w :
  inv f → deltaCompressor f = None →
  match queue f with
  | [] => items f = ∅ ∧
          Pop process (f, w) = Ret (if closed f then FIFOClosedError else PopBlocked) (f, w)
  | id :: q =>
    ∃ ds, items f !! id = Some ds ∧
      match process ds w, Pop process (f, w) with
      | Ret (Processed e) w1, Ret r (f', w') =>
        r = Popped id ds e ∧ w' = w1 ∧ items f' = delete id (items f) ∧ queue f' = q ∧ same_config f f'
      | Ret (ErrRequeue e) w1, Ret r (f', w') =>
        r = Popped id ds e ∧ w' = w1 ∧ items f' = items f ∧ queue f' = q ++ [id]
      | Panic w1, Panic (f', w') =>
        w' = w1 ∧ items f' = delete id (items f) ∧ queue f' = q
      | _, _ => False
      end
  end.
Proof.
  intros [H1 H2] Hc. destruct (H2 Hc) as (Hnd & Hq & Hp). unfold Pop. cbn [fst].
  destruct (queue f) as [|id q] eqn:Eq.
  - split.
    + apply map_eq. intros k. rewrite lookup_empty. destruct (items f !! k) eqn:E; [|done].
      apply H1 in E as [_ []%not_elem_of_nil].
    + cbn. unfold IsClosed. destruct f; cbn in *; subst. by destruct closed0.
  - destruct (Hq id) as [ds E]; [set_solver|]. exists ds. split; [done|].
    cbn [pop_loop]. cbn [set_store items]. rewrite E.
    set (f1 := if bool_decide _ then _ else _).
    assert (items f1 = items f ∧ queue f1 = q ∧ same_config f f1) as (Hi & Hq1 & Hcfg).
    { unfold f1. case_bool_decide; done. }
    clearbody f1. destruct (process ds w) as [[e|e] w1|w1]; cbn; rewrite ?Hi, ?Hq1.
    + done.
    + unfold addIfNotPresent. cbn. rewrite ?Hi, lookup_delete_eq. cbn.
      rewrite insert_delete_eq, insert_id, ?Hq1 by done. done.
    + done.
Qed.

(** [C22] In every reachable DeltaFIFO each key with pending deltas is in the queue
    and its list of deltas is not empty, whatever the compressor does.  Without a
    compressor, the queue holds exactly the keys with pending deltas, each once, all
    deltas of a key are of objects with that key, and no deletion is followed by a
    second deletion or by a [Sync].  [AddIfNotPresent] is given what [Pop] returns, as it
    documents. *)
Theorem deltafifo_invariant keyFn compressor known f :
  reachable (NewDeltaFIFO keyFn compressor known) f →
  (∀ k ds, items f !! k = Some ds → ds ≠ [] ∧ k ∈ queue f) ∧
  (deltaCompressor f = None →
   NoDup (queue f) ∧ (∀ k, k ∈ queue f ↔ is_Some (items f !! k)) ∧
   ∀ k ds, items f !! k = Some ds → tidy ds ∧ ∀ d, d ∈ ds → KeyOf f (Object d) = Ok k).
Proof.
  intros [H1 H2]%dreachable_inv. split; [done|]. intros (Hnd & Hq & Hp)%H2.
  split_and!; [done| |by intros k ds (_ & ? & ?)%Hp].
  intros k. split; [apply Hq|]. intros [ds Hds]. by apply H1 in Hds as [_ ?].
Qed.

(** [Pop] on a reachable DeltaFIFO without a compressor waits, or reports the
    queue closed, only when no key has pending deltas; otherwise it hands the key at
    the front, with all deltas pending for it, to the processing function, whose
    effect on the outside state is the only one; the key is then gone from the queue,
    or at its end with the same deltas when the function asks to requeue; a panic
    leaves the key removed. *)
Theorem deltafifo_Pop_exact keyFn compressor known f process w :
  reachable (NewDeltaFIFO keyFn compressor known) f → deltaCompressor f = None →
  match queue f with
  | [] => items f = ∅ ∧
          Pop process (f, w) = Ret (if closed f then FIFOClosedError else PopBlocked) (f, w)
  | id :: q =>
    ∃ ds, items f !! id = Some ds ∧
      match process ds w, Pop process (f, w) with
      | Ret (Processed e) w1, Ret r (f', w') =>
        r = Popped id ds e ∧ w' = w1 ∧ items f' = delete id (items f) ∧ queue f' = q
      | Ret (ErrRequeue e) w1, Ret r (f', w') =>
        r = Popped id ds e ∧ w' = w1 ∧ items f' = items f ∧ queue f' = q ++ [id]
      | Panic w1, Panic (f', w') =>
        w' = w1 ∧ items f' = delete id (items f) ∧ queue f' = q
      | _, _ => False
      end
  end.
Proof.
  intros Hinv%dreachable_inv Hc. pose proof (Pop_effect f process w Hinv Hc) as He.
  destruct (queue f) as [|id q]; [done|]. destruct He as (ds & Hds & He). exists ds.
  split; [done|]. destruct (process ds w) as [[e|e] w1|w1], (Pop process (f, w)) as [r [f' w']|];
    naive_solver.
Qed.
End DeltaFIFO.

Arguments DeltaFIFO : clear implicits.
Arguments queueActionLocked : simpl never.

(** Concrete queues for the witnesses: objects are their own keys. *)
Definition wit_key (o : option (dyn string)) : res string string :=
  match o with Some (Plain s) => Ok s | _ => Err "no key" end.

Definition wit_queue : DeltaFIFO string () :=
  (Delete () (Some (Plain "a"))
    (Add (Some (Plain "b")) (Add (Some (Plain "a")) (NewDeltaFIFO wit_key None None)).2).2).2.

Lemma wit_queue_reachable : reachable (NewDeltaFIFO wit_key None None) wit_queue.
Proof.
  eapply reach_step; [|apply step_delete].
  eapply reach_step; [|apply step_add]. eapply reach_step; [|apply step_add]. apply reach_start.
Qed.

Lemma deltafifo_invariant_witness :
  items wit_queue !! "a" =
    Some [Build_Delta Added (Some (Plain "a")); Build_Delta Deleted (Some (Plain "a"))] ∧
  NoDup (queue wit_queue).
Proof.
  split; [reflexivity|].
  apply (deltafifo_invariant wit_key None None wit_queue wit_queue_reachable). reflexivity.
Defined.

Lemma deltafifo_Pop_exact_witness :
  queue wit_queue = ["a"; "b"] ∧ ∃ ds, items wit_queue !! "a" = Some ds.
Proof.
  split; [reflexivity|].
  destruct (deltafifo_Pop_exact wit_key None None wit_queue (λ _, mret (Processed None)) ()
    wit_queue_reachable eq_refl) as [ds [Hds _]]. exists ds. exact Hds.
Defined.
