(* ===== verification/Informer.v ===== *)
(** * Informers: from a DeltaFIFO to an up-to-date store
    (k8s.io/client-go/tools/cache/controller.go, shared_informer.go)

    An informer pops deltas off a [DeltaFIFO] whose known objects are its own
    indexer, applies them to the indexer and notifies handlers.  [client] is what the
    processing function acts on: the indexer, behind the [ThreadSafeStore] interface,
    and the receiver of notifications. *)

From S2P Require Import Prelude StringSets ObjectKeys ThreadSafeStore Store DeltaFifo.

Inductive notification (Obj : Type) : Type :=
| updateNotification (oldObj newObj : option (dyn Obj))
| addNotification (newObj : option (dyn Obj))
| deleteNotification (oldObj : option (dyn Obj)).
Arguments updateNotification {Obj} _ _.
Arguments addNotification {Obj} _.
Arguments deleteNotification {Obj} _.

Section informer.
Context {Sto Obj P : Type} `{ThreadSafeStore_laws Sto (dyn Obj)}.
(** The metadata accessor, and the receiver of notifications. *)
Context (meta : Obj → meta_obj) (notify : notification Obj → bool → P → P).

Abbreviation iface := (option (dyn Obj)).
Abbreviation Deltas := (list (Delta (dyn Obj))).

(** [MetaNamespaceKeyFunc] on an [interface{}]: only API objects have metadata. *)
Definition objectKey (obj : iface) : res string string :=
  MetaNamespaceKeyFunc (match obj with Some (Plain o) => meta o | _ => NotAnObject end).

Definition DeletionHandlingMetaNamespaceKeyFunc (obj : iface) : res string string :=
  match obj with
  | Some (DeletedFinalStateUnknown k _) => Ok k
  | _ => objectKey obj
  end.

Record client := { indexer : cache Sto (dyn Obj); sink : P }.

Definition set_sink (p : P) (w : client) : client := {| indexer := indexer w; sink := p |}.

Definition on_indexer {A} (m : st (cache Sto (dyn Obj)) A) : st client A := λ w,
  match m (indexer w) with
  | Ret a c => Ret a {| indexer := c; sink := sink w |}
  | Panic c => Panic {| indexer := c; sink := sink w |}
  end.

Definition store_error (e : StoreError (dyn Obj)) : error (Obj:=Obj) :=
  match e with Store.KeyError obj err => DeltaFifo.KeyError obj (KeyFuncError err) end.

(** The processing loop, "from oldest to newest", shared by [HandleDeltas] and by the
    [Process] functions of the informers. *)
Fixpoint process_deltas (ds : Deltas) : st client (option (error (Obj:=Obj))) :=
  match ds with
  | [] => mret None
  | d :: ds' =>
    match Type_ d with
    | Sync | Added | Updated =>
      let isSync := bool_decide (Type_ d = Sync) in
      w ← st_get;
      match cache_Get (Object d) (indexer w) with
      | Ok (old, true) =>
        err ← on_indexer (cache_Update (Object d));
        match err with
        | Some e => mret (Some (store_error e))
        | None =>
          st_modify (λ w, set_sink (notify (updateNotification old (Object d)) isSync (sink w)) w) ;;
          process_deltas ds'
        end
      | _ =>
        err ← on_indexer (cache_Add (Object d));
        match err with
        | Some e => mret (Some (store_error e))
        | None =>
          st_modify (λ w, set_sink (notify (addNotification (Object d)) isSync (sink w)) w) ;;
          process_deltas ds'
        end
      end
    | Deleted =>
      err ← on_indexer (cache_Delete (Object d));
      match err with
      | Some e => mret (Some (store_error e))
      | None =>
        st_modify (λ w, set_sink (notify (deleteNotification (Object d)) false (sink w)) w) ;;
        process_deltas ds'
      end
    end
  end.

(** The processing function handed to [Pop]. *)
Definition HandleDeltas (ds : Deltas) : st client (ProcResult (Obj:=Obj)) :=
  err ← process_deltas ds; mret (Processed err).

(** The queue of an informer: the indexer is its known-objects store. *)
Definition indexer_known : KeyListerGetter (Obj:=Obj) (W:=client) :=
  {| ko_ListKeys := λ w, cache_ListKeys (indexer w);
     ko_GetByKey := λ k w, (cache_GetByKey k (indexer w), None) |}.

Definition informer_queue : DeltaFIFO Obj client :=
  NewDeltaFIFO objectKey None (Some indexer_known).

(** One round of [processLoop]; [RetryOnError] is false. *)
Definition process_one : st (DeltaFIFO Obj client * client) (PopResult (Obj:=Obj)) :=
  Pop HandleDeltas.

(** ** Events and the state they describe *)

(** What happens to an informer: watch events and relists arriving at its queue,
    resyncs, and rounds of the processing loop. *)
Inductive event : Type :=
| EAdd (o : Obj)
| EUpdate (o : Obj)
| EDelete (o : Obj)
| EReplace (l : list Obj)
| EResync
| EPop.

Definition run_event (rng : gmap string Deltas → list (string * Deltas)) (e : event) :
    st (DeltaFIFO Obj client * client) () := λ fw,
  let '(f, w) := fw in
  match e with
  | EAdd o => Ret () ((DeltaFifo.Add (Some (Plain o)) f).2, w)
  | EUpdate o => Ret () ((DeltaFifo.Update (Some (Plain o)) f).2, w)
  | EDelete o => Ret () ((DeltaFifo.Delete w (Some (Plain o)) f).2, w)
  | EReplace l => Ret () ((DeltaFifo.Replace rng w (Some ∘ Plain <$> l) f).2, w)
  | EResync => Ret () ((DeltaFifo.Resync w f).2, w)
  | EPop => (process_one ;; mret ()) fw
  end.

(** The objects of the server as the events have reported them. *)
Definition server_view (e : event) (T : gmap string iface) : gmap string iface :=
  match e with
  | EAdd o | EUpdate o =>
    match objectKey (Some (Plain o)) with Ok k => <[k := Some (Plain o)]> T | Err _ => T end
  | EDelete o =>
    match objectKey (Some (Plain o)) with Ok k => delete k T | Err _ => T end
  | EReplace l => list_to_map (reverse (omap (keyed objectKey) (Some ∘ Plain <$> l)))
  | EResync | EPop => T
  end.

Definition contents (w : client) : gmap string iface := tss_contents (cacheStorage (indexer w)).

(** The deltas waiting for [k], and the object they leave behind. *)
Definition pend (f : DeltaFIFO Obj client) (k : string) : Deltas := default [] (items f !! k).

Definition settle (ds : Deltas) (c : option iface) : option iface :=
  match last ds with
  | None => c
  | Some d => if bool_decide (Type_ d = Deleted) then None else Some (Object d)
  end.

(** The keys of a list of objects, and the keys a relist gets wrong: a listed object whose
    deletion is the last change waiting in the queue, since its [Sync] is ignored, and an
    object waiting to be added that is neither listed nor known, since no deletion is
    queued for it. *)
Definition listed (l : list Obj) : gset string :=
  list_to_set (omap (λ o, match objectKey (Some (Plain o)) with Ok k => Some k | Err _ => None end) l).

Definition missed (l : list Obj) (f : DeltaFIFO Obj client) (w : client) : gset string :=
  list_to_set (filter (λ k,
    (k ∈ listed l ∧ willObjectBeDeletedLocked k f = true) ∨
    (k ∉ listed l ∧ willObjectBeDeletedLocked k f = false ∧ ¬ is_Some (contents w !! k))) (queue f)).

(** The keys that are wrong after an event: those the last relist got wrong, until the
    next watch event of their object. *)
Definition stale_view (e : event) (f : DeltaFIFO Obj client) (w : client) (X : gset string) : gset string :=
  match e with
  | EAdd o | EUpdate o | EDelete o =>
    match objectKey (Some (Plain o)) with Ok k => X ∖ {[k]} | Err _ => X end
  | EReplace l => missed l f w
  | EResync | EPop => X
  end.

(** Objects of the server have metadata, so a list of them has keys. *)
Definition event_ok (e : event) : Prop :=
  match e with EReplace l => ∀ o, o ∈ l → is_ok (objectKey (Some (Plain o))) = true | _ => True end.

(** A notification as a change of the store: additions are of absent keys, updates
    carry the object they replace, deletions are of present keys. *)
Inductive notified : gmap string iface → notification Obj → gmap string iface → Prop :=
| notified_add m k o :
    objectKey o = Ok k → m !! k = None → notified m (addNotification o) (<[k := o]> m)
| notified_update m k old o :
    objectKey o = Ok k → m !! k = Some old → notified m (updateNotification old o) (<[k := o]> m)
| notified_delete m k o :
    DeletionHandlingMetaNamespaceKeyFunc o = Ok k → is_Some (m !! k) →
    notified m (deleteNotification o) (delete k m).

Inductive history : gmap string iface → list (notification Obj * bool) → gmap string iface → Prop :=
| history_nil m : history m [] m
| history_cons m n b m1 l m2 : notified m n m1 → history m1 l m2 → history m ((n, b) :: l) m2.

Lemma history_app m1 l1 m2 l2 m3 :
  history m1 l1 m2 → history m2 l2 m3 → history m1 (l1 ++ l2) m3.
Proof. induction 1; intros; cbn; [done|]. econstructor; eauto. Qed.

Definition notify_all (log : list (notification Obj * bool)) (p : P) : P :=
  foldl (λ p nb, notify nb.1 nb.2 p) p log.

(** ** What the deltas of one key mean *)
Definition delta_ok (k : string) (d : Delta (dyn Obj)) : Prop :=
  match Object d with
  | Some (Plain p) => objectKey (Some (Plain p)) = Ok k
  | Some (DeletedFinalStateUnknown k' _) => k' = k ∧ Type_ d = Deleted
  | _ => False
  end.

Record key_ok (k : string) (ds : Deltas) (c t : option iface) : Prop := {
  ko_deltas d : d ∈ ds → delta_ok k d;
  ko_tidy : tidy ds;
  ko_head d : head ds = Some d → Type_ d = Deleted → is_Some c;
  ko_settle : settle ds c = t;
}.

Lemma delta_ok_key k d : delta_ok k d → DeletionHandlingMetaNamespaceKeyFunc (Object d) = Ok k.
Proof.
  unfold delta_ok, DeletionHandlingMetaNamespaceKeyFunc.
  destruct (Object d) as [[]|]; naive_solver.
Qed.

Lemma delta_ok_plain k d :
  delta_ok k d → Type_ d ≠ Deleted → objectKey (Object d) = Ok k ∧ ∃ p, Object d = Some (Plain p).
Proof. unfold delta_ok. destruct (Object d) as [[]|]; naive_solver. Qed.

Lemma key_ok_nil k c : key_ok k [] c c.
Proof. split; [by intros d ?%not_elem_of_nil|intros i; by rewrite lookup_nil|done..]. Qed.

Lemma key_ok_push k ds c t d :
  key_ok k ds c t → delta_ok k d →
  (Type_ d = Sync → ∀ b, last ds = Some b → Type_ b ≠ Deleted) →
  (Type_ d = Deleted → ds = [] → is_Some c) →
  key_ok k (dedupDeltas (ds ++ [d])) c
    (if bool_decide (Type_ d = Deleted) then None else Some (Object d)).
Proof.
  intros [Hd Ht Hh _] Hok Hs Hdel.
  destruct (dedup_append ds d Hs) as (Hne & Hel & (l & Hl & Hty & Heq) & Htidy).
  split.
  - intros x [->|?]%Hel; auto.
  - auto.
  - destruct ds as [|b ds _] using rev_ind; [intros x [= <-] ?; by apply Hdel|].
    rewrite <-app_assoc, dedupDeltas_snoc.
    destruct (isDup_spec d b) as [(out & -> & Hdd & Hbd & Hout)|[-> _]].
    + destruct ds as [|b0 ds]; [|intros x Hx; apply Hh; by cbn in *].
      intros x _ _. by apply (Hh b).
    + destruct ds as [|b0 ds]; intros x Hx; apply Hh; by cbn in *.
  - unfold settle. rewrite Hl, Hty. case_bool_decide as E; [done|].
    rewrite Heq in Hl by done. rewrite last_snoc in Hl. by injection Hl as <-.
Qed.

(** ** Processing the deltas of one key *)

Lemma settle_cons d ds c :
  settle (d :: ds) c = settle ds (if bool_decide (Type_ d = Deleted) then None else Some (Object d)).
Proof. unfold settle. rewrite last_cons. by destruct (last ds). Qed.

Lemma tidy_tail (d : Delta (dyn Obj)) ds : tidy (d :: ds) → tidy ds.
Proof. intros Ht i a b Ha Hb. by apply (Ht (S i)). Qed.

Lemma indexer_call_inv {A} (m : st (cache Sto (dyn Obj)) A) w a w' :
  on_indexer m w = Ret a w' → m (indexer w) = Ret a (indexer w') ∧ sink w' = sink w.
Proof. unfold on_indexer. destruct (m _) as [a' c|]; [|done]. by intros [= <- <-]. Qed.

(** The three calls on the indexer, on an object with key [k]. *)
Lemma indexer_put (m : iface → st (cache Sto (dyn Obj)) _) o k w r w' :
  (m = cache_Add ∨ m = cache_Update) →
  on_indexer (m o) w = Ret r w' → Store.keyFunc (indexer w) o = Ok k →
  r = None ∧ Store.keyFunc (indexer w') = Store.keyFunc (indexer w) ∧ sink w' = sink w ∧
  contents w' = <[k := o]> (contents w).
Proof.
  intros Hm [Hc Hs]%indexer_call_inv Hk.
  destruct Hm as [-> | ->].
  - apply (run_op_refines (SAdd o)) in Hc as [Hkf Hc]. cbn in Hc.
    rewrite Hk in Hc. by injection Hc as <- Hc.
  - apply (run_op_refines (SUpdate o)) in Hc as [Hkf Hc]. cbn in Hc.
    rewrite Hk in Hc. by injection Hc as <- Hc.
Qed.

Lemma indexer_delete o k w r w' :
  on_indexer (cache_Delete o) w = Ret r w' → Store.keyFunc (indexer w) o = Ok k →
  r = None ∧ Store.keyFunc (indexer w') = Store.keyFunc (indexer w) ∧ sink w' = sink w ∧
  contents w' = delete k (contents w).
Proof.
  intros [Hc Hs]%indexer_call_inv Hk.
  apply (run_op_refines (SDelete o)) in Hc as [Hkf Hc]. cbn in Hc. rewrite Hk in Hc.
  by injection Hc as <- Hc.
Qed.

(** One delta: the store changes at [k] as the delta says, and one notification
    describes the change. *)
Lemma process_delta_effect k d ds w r w' :
  Store.keyFunc (indexer w) = DeletionHandlingMetaNamespaceKeyFunc →
  delta_ok k d → (Type_ d = Deleted → is_Some (contents w !! k)) →
  process_deltas (d :: ds) w = Ret r w' →
  ∃ w1 n b, process_deltas ds w1 = Ret r w' ∧
    Store.keyFunc (indexer w1) = DeletionHandlingMetaNamespaceKeyFunc ∧
    b = bool_decide (Type_ d = Sync) ∧
    sink w1 = notify n b (sink w) ∧ notified (contents w) n (contents w1) ∧
    contents w1 = partial_alter
      (λ _, if bool_decide (Type_ d = Deleted) then None else Some (Object d)) k (contents w).
Proof.
  intros Hkf Hok Hdel Hrun. pose proof (delta_ok_key k d Hok) as Hk.
  cbn [process_deltas] in Hrun. destruct (decide (Type_ d = Deleted)) as [Ed|Ed].
  - rewrite Ed in Hrun. apply st_bind_inv in Hrun as (e & w1 & Hc & Hrun).
    eapply indexer_delete in Hc as (-> & Hkf1 & Hs1 & Hc1); [|by rewrite Hkf].
    apply st_bind_inv in Hrun as ([] & w2 & [= <-] & Hrun).
    eexists _, _, false. split; [exact Hrun|].
    rewrite (bool_decide_eq_true_2 (Type_ d = Deleted)) by done.
    unfold contents in *. cbn. rewrite Hs1, Hc1.
    split_and!; [congruence|by rewrite Ed|done|by apply notified_delete, Hdel|done].
  - destruct (delta_ok_plain k d Hok Ed) as [Hok2 _].
    assert (∃ old ex, cache_Get (Object d) (indexer w) = Ok (old, ex) ∧
      contents w !! k = if ex : bool then Some old else None) as (old & ex & Hget & Hold).
    { unfold cache_Get, cache_GetByKey. rewrite Hkf, Hk, tss_Get_law. fold (contents w).
      eexists _, _. split; [done|]. by destruct (contents w !! k). }
    assert (∃ n b w1 m w2, (m = cache_Add ∨ m = cache_Update) ∧ b = bool_decide (Type_ d = Sync) ∧
      n = (if ex then updateNotification old (Object d) else addNotification (Object d)) ∧
      on_indexer (m (Object d)) w = Ret None w1 ∧
      w2 = set_sink (notify n b (sink w1)) w1 ∧ process_deltas ds w2 = Ret r w')
      as (n & b & w1 & m & w2 & Hm & Hb & -> & Hc & -> & Hrun').
    { destruct (Type_ d) eqn:Et; [| |done|]; rewrite <-Et in Hrun;
        apply st_bind_inv in Hrun as (? & ? & [= <- <-] & Hrun); rewrite Hget in Hrun;
        destruct ex; apply st_bind_inv in Hrun as (e & w1 & Hc & Hrun);
        ((destruct (indexer_put _ _ k w _ _ (or_introl eq_refl) Hc) as (-> & _) ||
          destruct (indexer_put _ _ k w _ _ (or_intror eq_refl) Hc) as (-> & _)); [by rewrite Hkf|]);
        apply st_bind_inv in Hrun as ([] & w2 & [= <-] & Hrun);
        eexists _, _, w1, _, _;
        (split; [|split; [|split; [|split; [exact Hc|split; [reflexivity|exact Hrun]]]]]);
        solve [done|by left|by right|by rewrite Et]. }
    destruct (indexer_put m (Object d) k w _ _ Hm Hc) as (_ & Hkf1 & Hs1 & Hc1); [by rewrite Hkf|].
    eexists _, _, _. split; [exact Hrun'|].
    rewrite (bool_decide_eq_false_2 (Type_ d = Deleted)) by done.
    unfold contents in *. cbn. rewrite Hs1, Hc1. split_and!; [congruence|done|done| |done].
    destruct ex; [by apply notified_update|by apply notified_add].
Qed.

Lemma process_deltas_effect k ds w r w' :
  Store.keyFunc (indexer w) = DeletionHandlingMetaNamespaceKeyFunc →
  (∀ d, d ∈ ds → delta_ok k d) → tidy ds →
  (∀ d, head ds = Some d → Type_ d = Deleted → is_Some (contents w !! k)) →
  process_deltas ds w = Ret r w' →
  r = None ∧ Store.keyFunc (indexer w') = DeletionHandlingMetaNamespaceKeyFunc ∧
  contents w' = partial_alter (settle ds) k (contents w) ∧
  ∃ log, sink w' = notify_all log (sink w) ∧ history (contents w) log (contents w').
Proof.
  revert w. induction ds as [|d ds IH]; intros w Hkf Hok Ht Hh Hrun.
  { injection Hrun as <- <-. split_and!; [done|done| |exists []; by split; [|constructor]].
    symmetry. apply map_eq. intros k'. rewrite lookup_partial_alter. by case_decide; subst. }
  eapply (process_delta_effect k) in Hrun as (w1 & n & b & Hrun & Hkf1 & _ & Hs1 & Hn & Hc1);
    [|done|apply Hok; set_solver|by apply Hh].
  apply IH in Hrun as (-> & Hkf' & Hc' & log & Hs' & Hl); [|done|set_solver|by eapply tidy_tail|].
  - split_and!; [done|done| |].
    + rewrite Hc', Hc1. apply map_eq. intros k'. destruct (decide (k = k')) as [<-|].
      * by rewrite !lookup_partial_alter_eq, settle_cons.
      * by rewrite !lookup_partial_alter_ne.
    + exists ((n, b) :: log). split; [cbn; by rewrite <-Hs1|]. by econstructor.
  - intros d' Hd' Hdel. rewrite Hc1, lookup_partial_alter, decide_True by done.
    destruct ds as [|d2 ds]; [done|]. injection Hd' as <-.
    rewrite bool_decide_eq_false_2; [by eexists|]. intros E.
    by destruct (Ht 0 d d2).
Qed.

(** ** The invariant of an informer *)

Record informer_inv (f : DeltaFIFO Obj client) (w : client) (T : gmap string iface) : Prop := {
  ii_inv : inv f;
  ii_comp : deltaCompressor f = None;
  ii_key : DeltaFifo.keyFunc f = objectKey;
  ii_known : knownObjects f = Some indexer_known;
  ii_indexer : Store.keyFunc (indexer w) = DeletionHandlingMetaNamespaceKeyFunc;
  ii_contents k o : contents w !! k = Some o → ∃ p, o = Some (Plain p) ∧ objectKey o = Ok k;
  ii_keys k : key_ok k (pend f k) (contents w !! k) (T !! k);
}.

(** The change a delta of type [t] makes to the view of its key. *)
Definition act (t : DeltaType) (obj : iface) (k : string) (T : gmap string iface) :
    gmap string iface :=
  partial_alter (λ _, if bool_decide (t = Deleted) then None else Some obj) k T.

Lemma key_ok_KeyOf t obj k :
  delta_ok k (Build_Delta t obj) → key_of objectKey obj = Ok k.
Proof.
  unfold delta_ok, key_of, key_of_obj. cbn.
  destruct obj as [[p|k' o|ds]|]; [|naive_solver..]. by intros ->.
Qed.

Lemma pend_queueAction t obj f w T k :
  informer_inv f w T → delta_ok k (Build_Delta t obj) →
  ¬ (t = Sync ∧ willObjectBeDeletedLocked k f = true) →
  (queueActionLocked t obj f).1 = None ∧
  ∀ k', pend (queueActionLocked t obj f).2 k' =
    if decide (k = k') then dedupDeltas (pend f k ++ [Build_Delta t obj]) else pend f k'.
Proof.
  intros Hi Hok Hs. pose proof (key_ok_KeyOf _ _ _ Hok) as Hk.
  rewrite (queueAction_plain t obj f k (ii_comp _ _ _ Hi)) by (done || by unfold KeyOf; rewrite (ii_key _ _ _ Hi)).
  split; [done|]. intros k'. unfold pend. cbn. rewrite lookup_insert. by case_decide.
Qed.

Lemma action_inv t obj f w T k :
  informer_inv f w T → delta_ok k (Build_Delta t obj) →
  ¬ (t = Sync ∧ willObjectBeDeletedLocked k f = true) →
  (t = Deleted → pend f k = [] → is_Some (contents w !! k)) →
  informer_inv (queueActionLocked t obj f).2 w (act t obj k T).
Proof.
  intros Hi Hok Hs Hd. destruct (pend_queueAction t obj f w T k Hi Hok Hs) as [_ Hp].
  destruct (queueAction_config t obj f) as (HK & HC & HN). destruct Hi as [I1 I2 I3 I4 I5 I6 I7].
  split; [by apply inv_queueAction|congruence..|done|].
  intros k'. unfold act. rewrite Hp, lookup_partial_alter. case_decide as Hkk; [|done].
  subst k'. apply (key_ok_push k (pend f k) (contents w !! k) (T !! k)); [done|done| |done].
  cbn. intros Ht b Hb Hbd. apply Hs. split; [done|]. apply willObjectBeDeleted_last. eauto.
Qed.

Lemma action_deleted t obj f w T k k' :
  informer_inv f w T → delta_ok k (Build_Delta t obj) →
  ¬ (t = Sync ∧ willObjectBeDeletedLocked k f = true) →
  willObjectBeDeletedLocked k' (queueActionLocked t obj f).2 =
  if decide (k = k') then bool_decide (t = Deleted) else willObjectBeDeletedLocked k' f.
Proof.
  intros Hi Hok Hs. destruct (pend_queueAction t obj f w T k Hi Hok Hs) as [_ Hp].
  apply eq_true_iff_eq. rewrite willObjectBeDeleted_last. fold (pend (queueActionLocked t obj f).2 k').
  rewrite Hp. case_decide; [|by rewrite willObjectBeDeleted_last].
  destruct (dedup_append (pend f k) (Build_Delta t obj)) as (_ & _ & (l & Hl & Hty & _) & _).
  { cbn. intros Ht b Hb Hbd. apply Hs. split; [done|]. apply willObjectBeDeleted_last. eauto. }
  rewrite Hl, bool_decide_eq_true. cbn in Hty. naive_solver.
Qed.

Lemma informer_inv_store f f' w T :
  items f' = items f → queue f' = queue f → same_config f f' →
  informer_inv f w T → informer_inv f' w T.
Proof.
  intros Hi Hq Hc [I1 I2 I3 I4 I5 I6 I7]. pose proof Hc as (HK & HC & HN).
  split; [by apply (inv_same_store f)|congruence..|done|]. intros k. unfold pend. by rewrite Hi.
Qed.

(** Watch events. *)
Lemma put_inv t f w T o :
  (t = Added ∨ t = Updated) → informer_inv f w T →
  informer_inv (queueActionLocked t (Some (Plain o)) (set_populated f)).2 w
    match objectKey (Some (Plain o)) with Ok k => <[k := Some (Plain o)]> T | Err _ => T end.
Proof.
  intros Ht Hi%(informer_inv_store f (set_populated f)); [|done..].
  destruct (objectKey (Some (Plain o))) as [k|e] eqn:Hk.
  - pose proof (action_inv t (Some (Plain o)) _ w T k Hi) as Ha. unfold act in Ha.
    rewrite bool_decide_eq_false_2 in Ha by naive_solver. apply Ha; [done|naive_solver..].
  - unfold queueActionLocked, KeyOf. rewrite (ii_key _ _ _ Hi). cbn. by rewrite Hk.
Qed.

Lemma delete_inv f w T o :
  informer_inv f w T →
  informer_inv (DeltaFifo.Delete w (Some (Plain o)) f).2 w
    match objectKey (Some (Plain o)) with Ok k => delete k T | Err _ => T end.
Proof.
  intros Hi. unfold DeltaFifo.Delete, KeyOf. rewrite (ii_key _ _ _ Hi). cbn.
  destruct (objectKey (Some (Plain o))) as [k|e] eqn:Hk; [|done].
  apply (informer_inv_store f (set_populated f)) in Hi; [|done..].
  pose proof (ii_known _ _ _ Hi) as Hn. cbn in Hn. rewrite Hn. cbn.
  unfold cache_GetByKey. rewrite tss_Get_law. fold (contents w).
  assert (pend (set_populated f) k = [] ↔ ¬ is_Some (items f !! k)) as Hpend.
  { unfold pend. cbn. destruct (items f !! k) as [ds|] eqn:E; cbn; [|by split; [intros _ []|]].
    apply (ii_inv _ _ _ Hi) in E as [Hne _]. naive_solver. }
  case_bool_decide as Hex; cbn; [|case_bool_decide as Hit; cbn].
  - apply (action_inv Deleted (Some (Plain o)) _ w T k Hi); naive_solver.
  - apply (action_inv Deleted (Some (Plain o)) _ w T k Hi); naive_solver.
  - replace (delete k T) with T; [done|]. symmetry. apply delete_id.
    destruct (ii_keys _ _ _ Hi k) as [_ _ _ <-]. rewrite (proj2 Hpend Hit). cbn.
    by destruct (contents w !! k); [destruct Hex; eexists|].
Qed.

(** A relist. *)
Lemma listed_union (o : Obj) l k T :
  objectKey (Some (Plain o)) = Ok k →
  (list_to_map (reverse (omap (keyed objectKey) (Some ∘ Plain <$> o :: l))) : gmap string iface) ∪ T =
  list_to_map (reverse (omap (keyed objectKey) (Some ∘ Plain <$> l))) ∪ <[k := Some (Plain o)]> T.
Proof.
  intros Hk. rewrite fmap_cons.
  assert (omap (keyed objectKey) ((Some ∘ Plain) o :: (Some ∘ Plain <$> l)) =
    (k, Some (Plain o)) :: omap (keyed objectKey) (Some ∘ Plain <$> l)) as ->.
  { cbn. unfold keyed at 1. by rewrite Hk. }
  rewrite reverse_cons, list_to_map_app, insert_union_singleton_l, (assoc_L (∪)). done.
Qed.

Lemma sync_items_inv l keys f w T :
  informer_inv f w T → (∀ o, o ∈ l → is_ok (objectKey (Some (Plain o))) = true) →
  ∃ keys' f' T', sync_items (Some ∘ Plain <$> l) keys f = (Ok keys', f') ∧ informer_inv f' w T' ∧
    (∀ k, T' !! k = if willObjectBeDeletedLocked k f then T !! k
      else ((list_to_map (reverse (omap (keyed objectKey) (Some ∘ Plain <$> l))) : gmap string iface) ∪ T) !! k) ∧
    (∀ k, k ∈ keys' ↔ k ∈ keys ∨ ∃ o, o ∈ l ∧ objectKey (Some (Plain o)) = Ok k).
Proof.
  revert keys f T. induction l as [|o l IH]; intros keys f T Hi Hl.
  { exists keys, f, T. split_and!; [done|done| |set_solver]. intros k. cbn. rewrite (left_id_L ∅ (∪)).
    by destruct (willObjectBeDeletedLocked k f). }
  assert (∃ k, objectKey (Some (Plain o)) = Ok k) as [k Hk].
  { specialize (Hl o ltac:(set_solver)). destruct (objectKey _); [eauto|done]. }
  assert (delta_ok k (Build_Delta Sync (Some (Plain o)))) as Hok by done.
  assert (∃ f1 T1, queueActionLocked Sync (Some (Plain o)) f = (None, f1) ∧ informer_inv f1 w T1 ∧
    ∀ k' (M : gmap string iface),
      (if willObjectBeDeletedLocked k' f1 then T1 !! k' else (M ∪ T1) !! k') =
      (if willObjectBeDeletedLocked k' f then T !! k' else (M ∪ <[k := Some (Plain o)]> T) !! k'))
    as (f1 & T1 & Hq & Hi1 & HT1).
  { destruct (willObjectBeDeletedLocked k f) eqn:Hw.
    - exists f, T. split_and!; [|done|].
      + unfold queueActionLocked, KeyOf. rewrite (ii_key _ _ _ Hi), (key_ok_KeyOf _ _ _ Hok). by rewrite Hw.
      + intros k' M. destruct (willObjectBeDeletedLocked k' f) eqn:Hw'; [done|].
        rewrite !lookup_union, lookup_insert_ne by congruence. done.
    - assert (¬ (Sync = Sync ∧ willObjectBeDeletedLocked k f = true)) as Hs by (rewrite Hw; naive_solver).
      pose proof (action_inv Sync (Some (Plain o)) f w T k Hi Hok Hs ltac:(done)) as Hi1.
      pose proof (pend_queueAction Sync (Some (Plain o)) f w T k Hi Hok Hs) as [Hn _].
      pose proof (λ k', action_deleted Sync (Some (Plain o)) f w T k k' Hi Hok Hs) as Ha.
      destruct (queueActionLocked Sync (Some (Plain o)) f) as [e f1]. cbn in Hn, Ha, Hi1. subst e.
      eexists f1, _. split_and!; [done|exact Hi1|]. intros k' M. rewrite Ha. unfold act.
      rewrite !(bool_decide_eq_false_2 (Sync = Deleted)) by done.
      destruct (decide (k = k')) as [<-|Hkk]; [by rewrite Hw|].
      destruct (willObjectBeDeletedLocked k' f); [|done]. by apply lookup_partial_alter_ne. }
  rewrite fmap_cons. cbn [sync_items compose]. unfold KeyOf.
  rewrite (ii_key _ _ _ Hi), (key_ok_KeyOf _ _ _ Hok), Hq.
  destruct (IH (Insert keys [k]) f1 T1 Hi1) as (keys' & f' & T' & Hsy & Hi' & HT' & Hks); [set_solver|].
  exists keys', f', T'. split_and!; [done|done| |].
  - intros k'. rewrite HT', HT1. pose proof (listed_union o l k T Hk) as HU. rewrite fmap_cons in HU.
    cbn [compose] in HU. by rewrite HU.
  - intros k'. rewrite Hks, elem_of_Insert, list_elem_of_singleton.
    setoid_rewrite elem_of_cons. split.
    + intros [[?| ->]|(o' & ? & ?)]; eauto 6.
    + intros [?|(o' & [->|?] & Hk')]; [auto| |eauto]. left. right. congruence.
Qed.

Lemma delete_known_inv keys ks n f w T :
  informer_inv f w T → (∀ k, k ∈ ks → is_Some (contents w !! k)) →
  ∃ n' f' T', delete_known indexer_known w keys ks n f = (None, n', f') ∧ informer_inv f' w T' ∧
    ∀ k, T' !! k = if decide (k ∈ ks ∧ k ∉ keys) then None else T !! k.
Proof.
  revert n f T. induction ks as [|k ks IH]; intros n f T Hi Hks.
  { exists n, f, T. split_and!; [done..|]. intros k'. rewrite decide_False; [done|].
    intros [[]%not_elem_of_nil _]. }
  cbn [delete_known]. unfold Has. case_bool_decide as Hin.
  { destruct (IH n f T) as (n' & f' & T' & ? & ? & HT); [done|set_solver|].
    exists n', f', T'. split_and!; [done..|]. intros k'. rewrite HT.
    repeat case_decide; set_solver. }
  cbn [ko_GetByKey indexer_known]. destruct (cache_GetByKey k (indexer w)) as [o ex]. cbn zeta.
  match goal with |- context [DeletedFinalStateUnknown k ?o] => set (obj := o) end.
  assert (delta_ok k (Build_Delta Deleted (Some (DeletedFinalStateUnknown k obj)))) as Hok by done.
  pose proof (action_inv Deleted _ f w T k Hi Hok ltac:(naive_solver)
    ltac:(intros _ _; apply Hks; set_solver)) as Hi1.
  pose proof (pend_queueAction Deleted _ f w T k Hi Hok ltac:(naive_solver)) as [Hn _].
  destruct (queueActionLocked Deleted _ f) as [e f1]. cbn in Hn. subst e.
  destruct (IH (S n) f1 (act Deleted (Some (DeletedFinalStateUnknown k obj)) k T))
    as (n' & f' & T' & ? & ? & HT); [done|set_solver|].
  exists n', f', T'. split_and!; [done..|]. intros k'. rewrite HT.
  unfold act. rewrite bool_decide_eq_true_2, lookup_partial_alter by done.
  repeat case_decide; set_solver.
Qed.

Lemma server_view_listed l (T : gmap string iface) k :
  is_Some (server_view (EReplace l) T !! k) ↔ ∃ o, o ∈ l ∧ objectKey (Some (Plain o)) = Ok k.
Proof.
  cbn [server_view]. rewrite list_to_map_is_Some, fmap_reverse, elem_of_reverse, list_elem_of_fmap.
  split.
  - intros ((k' & x) & -> & Hx). apply list_elem_of_omap in Hx as (y & Hy & Hx).
    apply list_elem_of_fmap in Hy as (o & -> & Ho). exists o. split; [done|].
    unfold keyed in Hx. cbn in *. destruct (objectKey _); naive_solver.
  - intros (o & Ho & Hk). exists (k, Some (Plain o)). split; [done|].
    apply list_elem_of_omap. exists (Some (Plain o)). split; [apply list_elem_of_fmap; by exists o|].
    unfold keyed. by rewrite Hk.
Qed.

Lemma elem_of_listed l k : k ∈ listed l ↔ ∃ o, o ∈ l ∧ objectKey (Some (Plain o)) = Ok k.
Proof.
  unfold listed. rewrite elem_of_list_to_set, list_elem_of_omap. split.
  - intros (o & Ho & Hk). exists o. split; [done|]. destruct (objectKey _); naive_solver.
  - intros (o & Ho & Hk). exists o. by rewrite Hk.
Qed.

Lemma elem_of_missed l f w T k :
  informer_inv f w T →
  k ∈ missed l f w ↔
    if decide (k ∈ listed l) then willObjectBeDeletedLocked k f = true
    else is_Some (T !! k) ∧ contents w !! k = None.
Proof.
  intros Hi. unfold missed. rewrite elem_of_list_to_set, list_elem_of_filter.
  destruct (ii_keys _ _ _ Hi k) as [_ _ _ HT].
  assert (∀ d, last (pend f k) = Some d → k ∈ queue f) as Hq.
  { intros d Hd. unfold pend in Hd. destruct (items f !! k) eqn:E; [|done].
    by apply (ii_inv _ _ _ Hi) in E as [_ ?]. }
  case_decide as Hl.
  - split; [naive_solver|]. intros Hw. split; [by left|].
    apply willObjectBeDeleted_last in Hw as (d & Hd & _). by apply (Hq d).
  - rewrite <-HT. unfold settle. split.
    + intros [[[Hl' _]|(_ & Hw & Hc%eq_None_not_Some)] Hin]; [done|]. split; [|done]. rewrite Hc.
      destruct (proj2 (inv_exact _ (ii_inv _ _ _ Hi) (ii_comp _ _ _ Hi)) ) as [Hds _].
      destruct (Hds k Hin) as [ds Hk]. pose proof (ii_inv _ _ _ Hi) as [Hne _]. destruct (Hne k ds Hk) as [Hne' _].
      assert (pend f k = ds) as Hp by (unfold pend; by rewrite Hk). rewrite Hp.
      destruct (last ds) as [d|] eqn:Ed; [|by apply last_None in Ed].
      case_bool_decide as Hdel; [|by eexists]. exfalso. apply (not_true_iff_false (willObjectBeDeletedLocked k f)); [done|].
      apply willObjectBeDeleted_last. exists d. fold (pend f k). by rewrite Hp.
    + intros [Hs Hc]. rewrite Hc in Hs. destruct (last (pend f k)) as [d|] eqn:Ed; [|by destruct Hs].
      case_bool_decide as Hdel; [by destruct Hs|]. split; [|by apply (Hq d)]. right. rewrite Hc. split_and!; [done| |by intros []].
      apply not_true_is_false. intros (d' & Hd' & ?)%willObjectBeDeleted_last. unfold pend in Ed. naive_solver.
Qed.

(** After a relist the queue stands for the listed objects, but for the keys it misses,
    which it leaves as they were. *)
Lemma relist_inv rng l f w T :
  informer_inv f w T → (∀ o, o ∈ l → is_ok (objectKey (Some (Plain o))) = true) →
  (DeltaFifo.Replace rng w (Some ∘ Plain <$> l) f).1 = None ∧
  ∃ T', informer_inv (DeltaFifo.Replace rng w (Some ∘ Plain <$> l) f).2 w T' ∧
    ∀ k, T' !! k = if decide (k ∈ missed l f w) then T !! k else server_view (EReplace l) T !! k.
Proof.
  intros Hi Hl. destruct (sync_items_inv l ∅ f w T Hi Hl) as (keys & f1 & T1 & Hs & Hi1 & HT1 & Hkeys).
  unfold DeltaFifo.Replace. rewrite Hs, (ii_known _ _ _ Hi1). cbn [ko_ListKeys indexer_known].
  destruct (delete_known_inv keys (cache_ListKeys (indexer w)) 0 f1 w _ Hi1)
    as (n & f2 & T2 & -> & Hi2 & HT2).
  { intros k. unfold cache_ListKeys. rewrite tss_ListKeys_law. apply (range_keys map_to_list). }
  cbn [fst snd]. split; [done|]. exists T2. split.
  { unfold mark_populated; destruct (negb _); [by apply (informer_inv_store f2)|done]. }
  intros k. rewrite HT2, HT1. fold (server_view (EReplace l) T).
  assert (k ∈ keys ↔ k ∈ listed l) as Hkl by (rewrite Hkeys, elem_of_listed; set_solver).
  assert (k ∈ cache_ListKeys (indexer w) ↔ is_Some (contents w !! k)) as Hck.
  { unfold cache_ListKeys. rewrite tss_ListKeys_law. apply (range_keys map_to_list). }
  pose proof (server_view_listed l T k) as HM. rewrite <-elem_of_listed in HM. rewrite lookup_union.
  destruct (decide (k ∈ missed l f w)) as [Hm|Hm]; rewrite (elem_of_missed l f w T k Hi) in Hm.
  - destruct (decide (k ∈ listed l)) as [Hin|Hin].
    + rewrite decide_False by naive_solver. by rewrite Hm.
    + destruct Hm as [_ Hc]. rewrite decide_False by (rewrite Hck, Hc; intros [[] _]; done).
      destruct (server_view (EReplace l) T !! k) eqn:E; [destruct Hin; apply HM; by eexists|].
      rewrite (left_id_L None _). by destruct (willObjectBeDeletedLocked k f).
  - destruct (decide (k ∈ listed l)) as [Hin|Hin].
    + rewrite decide_False by naive_solver. apply not_true_is_false in Hm. rewrite Hm.
      apply HM in Hin as [x ->]. by destruct (T !! k).
    + assert (server_view (EReplace l) T !! k = None) as HN.
      { destruct (server_view (EReplace l) T !! k) eqn:E; [destruct Hin; apply HM; by eexists|done]. }
      rewrite HN, (left_id_L None _). case_decide as Hd; [done|].
      assert (contents w !! k = None) as Hc.
      { destruct (contents w !! k) eqn:E; [|done]. destruct Hd. rewrite Hck, Hkl. split; [by eexists|done]. }
      assert (T !! k = None) as HT.
      { destruct (T !! k) eqn:E; [|done]. destruct Hm. split; [by eexists|done]. }
      rewrite HT. by destruct (willObjectBeDeletedLocked k f).
Qed.

(** What a relist misses is wrong from then on. *)
Lemma missed_wrong l f w T T0 k :
  informer_inv f w T → k ∈ missed l f w → T !! k ≠ server_view (EReplace l) T0 !! k.
Proof.
  intros Hi Hm. pose proof (server_view_listed l T0 k) as HM. rewrite <-elem_of_listed in HM.
  apply (elem_of_missed l f w T k Hi) in Hm. case_decide as Hl.
  - apply HM in Hl as [x ->]. destruct (ii_keys _ _ _ Hi k) as [_ _ _ <-].
    apply willObjectBeDeleted_last in Hm as (d & Hd & Ht). unfold settle. fold (pend f k) in Hd.
    by rewrite Hd, bool_decide_eq_true_2.
  - destruct Hm as [[x ->] _]. intros Hx. apply Hl, HM. by eexists.
Qed.

(** A resync. *)
Lemma syncKey_inv k f w T :
  informer_inv f w T → informer_inv (syncKeyLocked indexer_known w k f).2 w T ∧
  (syncKeyLocked indexer_known w k f).1 = None.
Proof.
  intros Hi. unfold syncKeyLocked. cbn [ko_GetByKey indexer_known]. unfold cache_GetByKey.
  rewrite tss_Get_law. fold (contents w). destruct (contents w !! k) as [o|] eqn:Hc; [|done].
  cbn. destruct (ii_contents _ _ _ Hi k o Hc) as (p & -> & Hk). unfold KeyOf.
  rewrite (ii_key _ _ _ Hi). cbn. rewrite Hk.
  case_bool_decide as Hlen; [done|].
  assert (pend f k = []) as Hp by (unfold pend; destruct (default [] _); [done|cbn in *; lia]).
  assert (delta_ok k (Build_Delta Sync (Some (Plain p)))) as Hok by done.
  assert (¬ (Sync = Sync ∧ willObjectBeDeletedLocked k f = true)) as Hs.
  { intros [_ (d & Hd & _)%willObjectBeDeleted_last]. fold (pend f k) in Hd. by rewrite Hp in Hd. }
  pose proof (action_inv Sync _ f w T k Hi Hok Hs ltac:(done)) as Ha.
  pose proof (pend_queueAction Sync _ f w T k Hi Hok Hs) as [Hn _].
  destruct (queueActionLocked Sync (Some (Plain p)) f) as [e f1]. cbn in *. subst e. split; [|done].
  assert (act Sync (Some (Plain p)) k T = T) as <-; [|done].
  unfold act. rewrite bool_decide_eq_false_2 by done.
  apply map_eq. intros k'. rewrite lookup_partial_alter. case_decide; [subst k'|done].
  destruct (ii_keys _ _ _ Hi k) as [_ _ _ <-]. by rewrite Hp, Hc.
Qed.

Lemma resync_inv f w T : informer_inv f w T → informer_inv (DeltaFifo.Resync w f).2 w T.
Proof.
  intros Hi. unfold DeltaFifo.Resync. rewrite (ii_known _ _ _ Hi). cbn [ko_ListKeys indexer_known].
  generalize (cache_ListKeys (indexer w)) as ks. intros ks. revert f Hi.
  induction ks as [|k ks IH]; intros f Hi; [done|]. cbn [sync_keys].
  destruct (syncKey_inv k f w T Hi) as [Hi1 Hn].
  destruct (syncKeyLocked indexer_known w k f) as [e f1]. cbn in *. subst e. by apply IH.
Qed.

(** A round of the processing loop. *)
Lemma pop_inv f w T r f' w' :
  informer_inv f w T → process_one (f, w) = Ret r (f', w') →
  informer_inv f' w' T ∧ queue f' = tail (queue f) ∧
  ∃ log, sink w' = notify_all log (sink w) ∧ history (contents w) log (contents w').
Proof.
  intros Hi Hrun. pose proof (Pop_effect f HandleDeltas w (ii_inv _ _ _ Hi) (ii_comp _ _ _ Hi)) as He.
  assert (inv f') as Hinv'.
  { change f' with (f', w').1. change (f', w') with (final (Ret r (f', w'))). rewrite <-Hrun.
    eapply dstep_inv; [apply Hi|constructor]. }
  unfold process_one in Hrun. rewrite Hrun in He.
  destruct (queue f) as [|id q] eqn:Eq.
  { destruct He as [_ [= -> -> ->]]. split_and!; [done|by rewrite Eq|].
    exists []. split; [done|constructor]. }
  destruct He as (ds & Hds & He). destruct (HandleDeltas ds w) as [pr w1|] eqn:Hh; [|done].
  unfold HandleDeltas in Hh. apply st_bind_inv in Hh as (err & w2 & Hp & [= <- <-]).
  destruct He as (-> & -> & Hit & Hq & (HK & HC & HN)).
  destruct (ii_keys _ _ _ Hi id) as [Hd Ht Hhd Hst]. unfold pend in *. rewrite Hds in *. cbn in *.
  apply (process_deltas_effect id) in Hp as (-> & Hkf & Hc & Hlog);
    [|apply (ii_indexer _ _ _ Hi)|done..].
  split; [|by rewrite Hq]. split; [done|rewrite ?HK, ?HC, ?HN; apply Hi..|done| |].
  - intros k o. rewrite Hc, lookup_partial_alter. case_decide as Hk; [subst|apply Hi].
    unfold settle. destruct (last ds) as [d|] eqn:El; [|apply Hi].
    case_bool_decide as Hdd; [done|]. intros [= <-].
    assert (d ∈ ds) as Hin by (apply last_Some in El as [? ->]; set_solver).
    destruct (delta_ok_plain _ _ (Hd d Hin) Hdd) as [? [p Hp]]. eauto.
  - intros k. unfold pend. rewrite Hit, Hc, lookup_delete, lookup_partial_alter.
    case_decide; [subst; rewrite Hst; cbn; apply key_ok_nil|apply Hi].
Qed.

(** ** Runs of an informer *)

(** [reach p0 f w T X]: a run has led to the queue [f] and the client [w], the server has
    reported the objects [T], and [X] are the keys that the last relist missed and no
    watch event has repaired since. *)
Inductive reach (p0 : P) : DeltaFIFO Obj client → client → gmap string iface → gset string → Prop :=
| reach_init w :
    Store.keyFunc (indexer w) = DeletionHandlingMetaNamespaceKeyFunc → contents w = ∅ →
    sink w = p0 → reach p0 informer_queue w ∅ ∅
| reach_event f w T X e rng f' w' :
    reach p0 f w T X → event_ok e → run_event rng e (f, w) = Ret () (f', w') →
    reach p0 f' w' (server_view e T) (stale_view e f w X).

(** The objects the queue stands for are the server's but for the stale keys, where they
    are not. *)
Definition agrees (V T : gmap string iface) (X : gset string) : Prop :=
  ∀ k, V !! k = T !! k ↔ k ∉ X.

Lemma agrees_alter (V T : gmap string iface) X k (o : option iface) :
  agrees V T X → agrees (partial_alter (λ _, o) k V) (partial_alter (λ _, o) k T) (X ∖ {[k]}).
Proof.
  intros Hag k'. rewrite !lookup_partial_alter. case_decide; [set_solver|]. rewrite (Hag k'). set_solver.
Qed.

Lemma event_inv f w V T X e rng f' w' :
  informer_inv f w V → agrees V T X → event_ok e → run_event rng e (f, w) = Ret () (f', w') →
  (∃ V', informer_inv f' w' V' ∧ agrees V' (server_view e T) (stale_view e f w X)) ∧
  ∃ log, sink w' = notify_all log (sink w) ∧ history (contents w) log (contents w').
Proof.
  intros Hi Hag Hok Hrun.
  assert (w' = w → ∃ log, sink w' = notify_all log (sink w) ∧ history (contents w) log (contents w'))
    as Hsame by (intros ->; exists []; split; [done|constructor]).
  destruct e as [o|o|o|l| |]; cbn in Hrun; try injection Hrun as <- <-.
  - split; [|by apply Hsame]. eexists. split; [by apply put_inv; auto|]. cbn.
    destruct (objectKey _); [by apply agrees_alter|done].
  - split; [|by apply Hsame]. eexists. split; [by apply put_inv; auto|]. cbn.
    destruct (objectKey _); [by apply agrees_alter|done].
  - split; [|by apply Hsame]. eexists. split; [by apply delete_inv|]. cbn [server_view stale_view].
    destruct (objectKey _); [by apply (agrees_alter V T X _ None)|done].
  - split; [|by apply Hsame]. destruct (relist_inv rng l f w V Hi Hok) as [_ (V' & Hi' & HV')].
    exists V'. split; [done|]. intros k. rewrite HV'. cbn [stale_view]. case_decide as Hm.
    + split; [|done]. intros Heq. by apply (missed_wrong l f w V T k Hi Hm) in Heq.
    + split; [done|]. done.
  - split; [|by apply Hsame]. exists V. split; [by apply resync_inv|done].
  - apply st_bind_inv in Hrun as (r & [f1 w1] & Hp & [= <- <-]).
    apply (pop_inv f w V) in Hp as (? & _ & ?); [|done]. split; [by exists V|done].
Qed.

Lemma reach_inv p0 f w T X :
  reach p0 f w T X →
  (∃ V, informer_inv f w V ∧ agrees V T X) ∧
  ∃ log, sink w = notify_all log p0 ∧ history ∅ log (contents w).
Proof.
  induction 1 as [w Hk Hc Hs|f w T X e rng f' w' _ [(V & IH & Hag) (log & Hs & Hh)] Hok Hrun].
  - split; [|exists []; split; [done|]; rewrite Hc; constructor].
    exists ∅. split; [|intros k; set_solver]. split; try done.
    + split; cbn; [intros k ds; by rewrite lookup_empty|]. intros _.
      split_and!; [apply NoDup_nil_2|by intros k ?%not_elem_of_nil|intros k ds; by rewrite lookup_empty].
    + intros k o. by rewrite Hc, lookup_empty.
    + intros k. unfold pend. cbn. rewrite Hc, !lookup_empty.
      apply key_ok_nil.
  - apply (event_inv f w V T X) in Hrun as (HV' & log' & Hs' & Hh'); [|done..]. split; [done|].
    exists (log ++ log'). split; [|by eapply history_app]. rewrite Hs', Hs. unfold notify_all.
    by rewrite foldl_app.
Qed.

Lemma empty_queue_view f w V : informer_inv f w V → queue f = [] → contents w = V.
Proof.
  intros Hi Hq. apply map_eq. intros k. destruct (ii_keys _ _ _ Hi k) as [_ _ _ <-]. unfold pend.
  destruct (items f !! k) eqn:E; [|done]. apply (ii_inv _ _ _ Hi) in E as [_ Hin].
  rewrite Hq in Hin. by apply not_elem_of_nil in Hin.
Qed.

Lemma informer_view p0 f w T X :
  reach p0 f w T X →
  (∀ k, settle (pend f k) (contents w !! k) = T !! k ↔ k ∉ X) ∧
  (queue f = [] → ∀ k, contents w !! k = T !! k ↔ k ∉ X).
Proof.
  intros [(V & Hi & Hag) _]%reach_inv. split.
  - intros k. destruct (ii_keys _ _ _ Hi k) as [_ _ _ ->]. apply Hag.
  - intros Hq k. rewrite (empty_queue_view _ _ _ Hi Hq). apply Hag.
Qed.

(** [C2] At any point of any run of watch events, relists of objects with keys, resyncs
    and processing rounds, the informer's store with the deltas still waiting for a key
    applied agrees with what the server last reported of that key, except exactly for the
    keys that the last relist missed and no watch event has reported since.  A relist
    misses a listed object whose deletion is the last change in the queue, and an object
    that waits to be added while it is neither listed nor in the store, and no other.
    Whenever the queue is empty, the store itself agrees with the server in this way. *)
Theorem informer_tracks_server p0 f w T X :
  reach p0 f w T X →
  (∀ k, settle (pend f k) (contents w !! k) = T !! k ↔ k ∉ X) ∧
  (queue f = [] → ∀ k, contents w !! k = T !! k ↔ k ∉ X).
Proof. apply informer_view. Qed.

(** [C20] The notifications an informer has sent are a faithful history of its store, in
    any run of watch events, relists, resyncs and processing rounds: replayed from the
    empty store they give its contents, every addition is of an absent object, every
    update carries the object it replaces, and every deletion is of a present object. *)
Theorem informer_notifications_exact p0 f w T X :
  reach p0 f w T X → ∃ log, sink w = notify_all log p0 ∧ history ∅ log (contents w).
Proof. intros [_ Hlog]%reach_inv. done. Qed.

(** Draining the queue. *)
Fixpoint drain (n : nat) : st (DeltaFIFO Obj client * client) () :=
  match n with
  | 0 => mret ()
  | S n' => process_one ;; drain n'
  end.

Section live.
Context (live : Sto → Prop) `{!ThreadSafeStore_live Sto (dyn Obj) live}.

Lemma on_indexer_returns (obj : option (dyn Obj)) k (call : string → st Sto ()) w :
  Store.keyFunc (indexer w) obj = Ok k →
  (∃ s', call k (cacheStorage (indexer w)) = Ret () s' ∧ live s') →
  ∃ w', on_indexer
    (c0 ← st_get;
     match Store.keyFunc c0 obj with
     | Err err => mret (Some (Store.KeyError obj err))
     | Ok key => on_storage (call key) ;; mret None
     end) w = Ret None w' ∧ live (cacheStorage (indexer w')) ∧
    Store.keyFunc (indexer w') = Store.keyFunc (indexer w).
Proof.
  intros Hk (s' & Hs & Hl). unfold on_indexer, mbind, st_bind, st_get, on_storage. rewrite Hk, Hs.
  by eexists.
Qed.

Lemma process_deltas_returns k ds w :
  Store.keyFunc (indexer w) = DeletionHandlingMetaNamespaceKeyFunc →
  (∀ d, d ∈ ds → delta_ok k d) → live (cacheStorage (indexer w)) →
  ∃ r w', process_deltas ds w = Ret r w' ∧ live (cacheStorage (indexer w')).
Proof.
  revert w. induction ds as [|d ds IH]; intros w Hkf Hok Hl; [by eexists _, _|].
  assert (delta_ok k d) as Hd by (apply Hok; set_solver).
  pose proof (delta_ok_key k d Hd) as Hk. cbn [process_deltas].
  destruct (decide (Type_ d = Deleted)) as [Ed|Ed].
  - rewrite Ed. destruct (on_indexer_returns (Object d) k (tss_Delete (Obj:=dyn Obj)) w)
      as (w1 & Hw1 & Hl1 & Hk1); [by rewrite Hkf|by apply live_Delete|].
    change (on_indexer (cache_Delete (Object d)) w = Ret None w1) in Hw1.
    rewrite (st_bind_ret _ _ _ _ _ Hw1). apply IH; cbn; [by rewrite Hk1|set_solver|done].
  - destruct (delta_ok_plain k d Hd Ed) as [_ [p Hp]].
    destruct (on_indexer_returns (Object d) k (λ k, tss_Add k (Object d)) w)
      as (w1 & Hw1 & Hl1 & Hk1); [by rewrite Hkf|by rewrite Hp; apply live_Add|].
    change (on_indexer (cache_Add (Object d)) w = Ret None w1) in Hw1.
    destruct (on_indexer_returns (Object d) k (λ k, tss_Update k (Object d)) w)
      as (w2 & Hw2 & Hl2 & Hk2); [by rewrite Hkf|by rewrite Hp; apply live_Update|].
    change (on_indexer (cache_Update (Object d)) w = Ret None w2) in Hw2.
    assert (∀ b, ∃ r w', process_deltas ds (set_sink (b (sink w1)) w1) = Ret r w' ∧
      live (cacheStorage (indexer w'))) as IH1.
    { intros b. apply IH; cbn; [by rewrite Hk1|set_solver|done]. }
    assert (∀ b, ∃ r w', process_deltas ds (set_sink (b (sink w2)) w2) = Ret r w' ∧
      live (cacheStorage (indexer w'))) as IH2.
    { intros b. apply IH; cbn; [by rewrite Hk2|set_solver|done]. }
    destruct (Type_ d); [| |done|]; rewrite (st_bind_ret st_get _ w w w eq_refl);
      (destruct (cache_Get (Object d) (indexer w)) as [[old []]|]);
      (rewrite (st_bind_ret _ _ _ _ _ Hw1) || rewrite (st_bind_ret _ _ _ _ _ Hw2));
      (apply (IH1 (notify _ _)) || apply (IH2 (notify _ _))).
Qed.

Lemma pop_returns f w T :
  informer_inv f w T → live (cacheStorage (indexer w)) →
  ∃ r f' w', process_one (f, w) = Ret r (f', w') ∧ live (cacheStorage (indexer w')).
Proof.
  intros Hi Hl.
  pose proof (Pop_effect f HandleDeltas w (ii_inv _ _ _ Hi) (ii_comp _ _ _ Hi)) as He.
  unfold process_one. destruct (queue f) as [|id q]; [destruct He as [_ ->]; by eexists _, _, _|].
  destruct He as (ds & Hds & He). destruct (ii_keys _ _ _ Hi id) as [Hd _ _ _].
  unfold pend in Hd. rewrite Hds in Hd. cbn in Hd.
  destruct (process_deltas_returns id ds w (ii_indexer _ _ _ Hi) Hd Hl) as (r & w' & Hp & Hl').
  unfold HandleDeltas, mbind, st_bind in He. rewrite Hp in He. cbn in He.
  fold (@HandleDeltas) in He.
  destruct (Pop _ (f, w)) as [r1 [f1 w1]|] eqn:E; [|done]. destruct He as (_ & -> & _). eauto.
Qed.

Lemma drain_returns n f w V :
  informer_inv f w V → live (cacheStorage (indexer w)) → length (queue f) = n →
  ∃ f' w', drain n (f, w) = Ret () (f', w') ∧ queue f' = [] ∧ contents w' = V.
Proof.
  revert f w. induction n as [|n IH]; intros f w Hi Hl Hn.
  - apply nil_length_inv in Hn. exists f, w. split_and!; [done..|]. by apply (empty_queue_view f).
  - destruct (pop_returns f w V Hi Hl) as (r & f1 & w1 & Hp & Hl1).
    destruct (pop_inv f w V r f1 w1 Hi Hp) as (Hi1 & Hq1 & _).
    destruct (IH f1 w1 Hi1 Hl1) as (f' & w' & Hd & He & Hc).
    { rewrite Hq1. by destruct (queue f); [|injection Hn]. }
    exists f', w'. split_and!; [|done..]. cbn [drain]. unfold mbind, st_bind. by rewrite Hp.
Qed.

(** [C4] An informer whose index functions succeed catches up: from any point of a
    run, as many rounds of the processing loop as there are keys in the queue all
    return, leave the queue empty, and leave the store equal to the server's objects but
    for the keys that the last relist missed and no watch event has reported since. *)
Theorem informer_catches_up p0 f w T X :
  reach p0 f w T X → live (cacheStorage (indexer w)) →
  ∃ f' w', drain (length (queue f)) (f, w) = Ret () (f', w') ∧ queue f' = [] ∧
    (∀ k, contents w' !! k = T !! k ↔ k ∉ X) ∧ (X = ∅ → contents w' = T).
Proof.
  intros [(V & Hi & Hag) _]%reach_inv Hl.
  destruct (drain_returns _ f w V Hi Hl eq_refl) as (f' & w' & Hd & Hq & Hc).
  exists f', w'. rewrite Hc. split_and!; [done..|]. intros ->. apply map_eq. intros k. by apply Hag.
Qed.
End live.

(** ** The relists that miss a key *)

Lemma queueAction_frame t obj (f : DeltaFIFO Obj client) k :
  KeyOf f obj ≠ Ok k → items (queueActionLocked t obj f).2 !! k = items f !! k.
Proof.
  intros Hk. unfold queueActionLocked. destruct (KeyOf f obj) as [id|] eqn:E; [|done].
  assert (id ≠ k) by congruence. destruct (_ && _); [done|]. cbn. case_bool_decide; cbn.
  - by apply lookup_insert_ne.
  - case_bool_decide; cbn; [|done]. by apply lookup_delete_ne.
Qed.

Lemma sync_items_frame l keys (f : DeltaFIFO Obj client) k :
  (∀ o, o ∈ l → KeyOf f o = Ok k → willObjectBeDeletedLocked k f = true) →
  items (sync_items l keys f).2 !! k = items f !! k ∧
  (∀ keys', (sync_items l keys f).1 = Ok keys' →
     ∀ k', k' ∈ keys' ↔ k' ∈ keys ∨ ∃ o, o ∈ l ∧ KeyOf f o = Ok k').
Proof.
  revert keys f. induction l as [|o l IH]; intros keys f Hl; cbn [sync_items].
  { split; [done|]. intros keys' [= <-] k'. set_solver. }
  destruct (KeyOf f o) as [id|] eqn:Hk; [|done].
  assert (items (queueActionLocked Sync o f).2 !! k = items f !! k ∧
          KeyOf (queueActionLocked Sync o f).2 = KeyOf f) as [Hfr Hko].
  { split.
    - destruct (decide (id = k)) as [->|]; [|apply queueAction_frame; congruence].
      unfold queueActionLocked. by rewrite Hk, (Hl o (list_elem_of_here _ _) Hk).
    - destruct (queueAction_config Sync o f) as (HK & _). unfold KeyOf. by rewrite HK. }
  destruct (queueActionLocked Sync o f) as [[e|] f1]; cbn in Hfr, Hko; [done|].
  destruct (IH (Insert keys [id]) f1) as [IH1 IH2].
  { intros o' Ho'. rewrite Hko. unfold willObjectBeDeletedLocked. rewrite Hfr.
    apply Hl. set_solver. }
  split; [by rewrite IH1|]. intros keys' Hks k'. rewrite (IH2 keys' Hks), elem_of_Insert, Hko.
  rewrite list_elem_of_singleton. setoid_rewrite elem_of_cons. split.
  + intros [[?| ->]|(o' & ? & ?)]; eauto 6.
  + intros [?|(o' & [->|?] & Hk')]; [auto| |eauto]. left. right. congruence.
Qed.

Lemma delete_known_frame ko w keys ks n (f : DeltaFIFO Obj client) k :
  k ∉ ks ∨ k ∈ keys → items (delete_known ko w keys ks n f).2 !! k = items f !! k.
Proof.
  revert n f. induction ks as [|k' ks IH]; intros n f Hk; [done|]. cbn [delete_known].
  unfold Has. case_bool_decide as Hin; [apply IH; set_solver|].
  destruct (ko_GetByKey ko k' w) as [[obj ex] err]. cbn zeta.
  set (o := Some (DeletedFinalStateUnknown k' _)).
  pose proof (queueAction_frame Deleted o f k) as Hfr.
  destruct (queueActionLocked Deleted o f) as [[e|] f1]; cbn in *.
  - apply Hfr. intros [= ->]. set_solver.
  - rewrite IH by set_solver. apply Hfr. intros [= ->]. set_solver.
Qed.

(** A relist does not touch the deltas of a key whose deletion is pending and that is
    listed, nor those of a key that is neither listed nor known. *)
Lemma relist_frame rng l f w T k :
  informer_inv f w T →
  let listed := ∃ o, o ∈ l ∧ objectKey (Some (Plain o)) = Ok k in
  (listed ∧ willObjectBeDeletedLocked k f = true ∨ ¬ listed ∧ contents w !! k = None) →
  pend (DeltaFifo.Replace rng w (Some ∘ Plain <$> l) f).2 k = pend f k.
Proof.
  intros Hi listed Hk. unfold pend. f_equal.
  assert (∀ o k', KeyOf f (Some (Plain o)) = Ok k' ↔ objectKey (Some (Plain o)) = Ok k') as Hkey.
  { intros o k'. unfold KeyOf. rewrite (ii_key _ _ _ Hi). cbn. destruct (objectKey _); naive_solver. }
  destruct (sync_items_frame (Some ∘ Plain <$> l) ∅ f k) as [H1 H2].
  { intros o (p & -> & Hp)%list_elem_of_fmap. intros Ho. apply (Hkey p) in Ho.
    destruct Hk as [[_ ?]|[Hn _]]; [done|]. destruct Hn. by exists p. }
  unfold DeltaFifo.Replace.
  assert (same_config f (sync_items (Some ∘ Plain <$> l) ∅ f).2) as (_ & _ & HN).
  { clear. generalize (∅ : gset string) as keys. generalize (Some ∘ Plain <$> l) as l'. intros l'.
    revert f. induction l' as [|o l' IH]; intros f keys; cbn [sync_items]; [done|].
    destruct (KeyOf f o); [|done]. pose proof (queueAction_config Sync o f) as (A1 & A2 & A3).
    destruct (queueActionLocked Sync o f) as [[e|] f1]; [done|].
    destruct (IH f1 (Insert keys [a])) as (B1 & B2 & B3). cbn in *. split_and!; congruence. }
  destruct (sync_items (Some ∘ Plain <$> l) ∅ f) as [[keys|e] f1]; cbn in H1, H2, HN; [|done].
  rewrite HN, (ii_known _ _ _ Hi).
  assert (items (delete_known indexer_known w keys (ko_ListKeys indexer_known w) 0 f1).2 !! k
    = items f1 !! k) as Hdk.
  { apply delete_known_frame. destruct Hk as [[(o & Ho & Hko) _]|[_ Hc]].
    - right. apply (H2 keys eq_refl). right. exists (Some (Plain o)). rewrite Hkey. split; [|done].
      apply list_elem_of_fmap. by exists o.
    - left. cbn. unfold cache_ListKeys. rewrite tss_ListKeys_law, (range_keys map_to_list).
      fold (contents w). rewrite Hc. by intros []. }
  rewrite <-H1, <-Hdk.
  destruct (delete_known _ _ _ _ _ _) as [[[e|] n] f2]; cbn; [done|].
  unfold mark_populated. by destruct (negb _).
Qed.

(** [C40] A relist loses an object: when an object is listed while a deletion of it
    is the last change waiting in the queue (it was deleted and created again between
    two watches), its [Sync] is ignored, so applying all that is queued leaves the
    store without the object although the server has it. *)
Theorem relist_loses_recreated_object p0 rng f w T X l o k :
  reach p0 f w T X → o ∈ l → objectKey (Some (Plain o)) = Ok k →
  willObjectBeDeletedLocked k f = true →
  settle (pend (DeltaFifo.Replace rng w (Some ∘ Plain <$> l) f).2 k) (contents w !! k) = None ∧
  is_Some (server_view (EReplace l) T !! k).
Proof.
  intros [(V & Hi & _) _]%reach_inv Ho Hk Hw. split; [|apply server_view_listed; eauto].
  rewrite (relist_frame rng l f w V k Hi) by eauto.
  apply willObjectBeDeleted_last in Hw as (d & Hd & Ht). unfold settle. fold (pend f k) in Hd.
  by rewrite Hd, bool_decide_eq_true_2.
Qed.

(** A relist keeps a vanished object: when an object whose creation still waits
    in the queue is not listed any more, and the store does not know it yet, no
    deletion is queued, so applying all that is queued leaves the object in the store
    although the server does not have it. *)
Theorem relist_keeps_vanished_object p0 rng f w T X l k d :
  reach p0 f w T X → last (pend f k) = Some d → Type_ d ≠ Deleted → contents w !! k = None →
  ¬ (∃ o, o ∈ l ∧ objectKey (Some (Plain o)) = Ok k) →
  settle (pend (DeltaFifo.Replace rng w (Some ∘ Plain <$> l) f).2 k) (contents w !! k)
    = Some (Object d) ∧
  server_view (EReplace l) T !! k = None.
Proof.
  intros [(V & Hi & _) _]%reach_inv Hd Ht Hc Hl. split.
  - rewrite (relist_frame rng l f w V k Hi) by eauto. unfold settle. by rewrite Hd, bool_decide_eq_false_2.
  - destruct (server_view (EReplace l) T !! k) eqn:E; [|done]. destruct Hl.
    apply (server_view_listed l T). by rewrite E.
Qed.
End informer.

(** ** A concrete informer, for the witnesses *)
Section witnesses.
#[local] Instance iex_ops : ThreadSafeStore_ops (threadSafeMap (dyn string)) (dyn string) :=
  threadSafeMap_ops map_to_list map_to_list map_to_list elements.
#[local] Instance iex_laws : ThreadSafeStore_laws (threadSafeMap (dyn string)) (dyn string) :=
  threadSafeMap_laws map_to_list map_to_list map_to_list elements.

Definition iex_meta (o : string) : meta_obj := ApiObject "ns" o.

Definition iex_notify (n : notification string) (b : bool)
    (log : list (notification string * bool)) := log ++ [(n, b)].

Abbreviation iex_type :=
  (client (Sto:=threadSafeMap (dyn string)) (Obj:=string) (P:=list (notification string * bool))).

Definition iex_client : iex_type :=
  {| indexer := NewStore (DeletionHandlingMetaNamespaceKeyFunc iex_meta); sink := [] |}.

Definition iex_step (fw : DeltaFIFO string iex_type * iex_type) (e : event) :=
  final (run_event iex_notify map_to_list e fw).

Definition iex_state (es : list event) : DeltaFIFO string iex_type * iex_type :=
  foldl iex_step (informer_queue iex_meta, iex_client) es.

Definition iex_view (es : list event) : gmap string (option (dyn string)) :=
  foldl (λ T e, server_view iex_meta e T) ∅ es.

Definition iex_stale (es : list event) : gset string :=
  (foldl (λ '(fw, X) e, (iex_step fw e, stale_view iex_meta e fw.1 fw.2 X))
     (informer_queue iex_meta, iex_client, ∅) es).2.

Lemma iex_stale_state es :
  foldl (λ '(fw, X) e, (iex_step fw e, stale_view iex_meta e fw.1 fw.2 X))
     (informer_queue iex_meta, iex_client, ∅) es = (iex_state es, iex_stale es).
Proof.
  rewrite (surjective_pairing (foldl _ _ es)). f_equal. unfold iex_state.
  induction es as [|e es IH] using rev_ind; [done|]. rewrite !foldl_app, <-IH. cbn [foldl].
  by destruct (foldl _ _ es).
Qed.

(** The events of the example return. *)
Lemma iex_reach es e :
  reach iex_meta iex_notify [] (iex_state es).1 (iex_state es).2 (iex_view es) (iex_stale es) →
  event_ok iex_meta e → panics (run_event iex_notify map_to_list e (iex_state es)) = false →
  reach iex_meta iex_notify [] (iex_state (es ++ [e])).1 (iex_state (es ++ [e])).2
    (iex_view (es ++ [e])) (iex_stale (es ++ [e])).
Proof.
  intros Hr He Hp.
  assert (iex_state (es ++ [e]) = iex_step (iex_state es) e) as Hst by (unfold iex_state; by rewrite foldl_app).
  assert (iex_stale (es ++ [e]) = stale_view iex_meta e (iex_state es).1 (iex_state es).2 (iex_stale es)) as ->.
  { unfold iex_stale at 1. rewrite foldl_app, iex_stale_state. done. }
  assert (iex_view (es ++ [e]) = server_view iex_meta e (iex_view es)) as -> by (unfold iex_view; by rewrite foldl_app).
  rewrite Hst. eapply (reach_event _ _ _ _ _ _ _ e map_to_list); [exact Hr|done|].
  unfold iex_step. rewrite <-!surjective_pairing.
  destruct (run_event _ _ _ _) as [[] [f w]|]; [done|done].
Qed.

Definition iex_events : list event := [EAdd "a"; EAdd "b"; EPop; EDelete "a"].

Lemma iex_events_reach :
  reach iex_meta iex_notify [] (iex_state iex_events).1 (iex_state iex_events).2
    (iex_view iex_events) (iex_stale iex_events).
Proof.
  apply (iex_reach [EAdd "a"; EAdd "b"; EPop]); [|done|reflexivity].
  apply (iex_reach [EAdd "a"; EAdd "b"]); [|done|reflexivity].
  apply (iex_reach [EAdd "a"]); [|done|reflexivity].
  apply (iex_reach []); [|done|reflexivity]. by apply reach_init.
Qed.

(** A relist misses the object that was deleted and created again, finds another one, and
    a watch event makes up for the first. *)
Definition iex_relist : list event := iex_events ++ [EReplace ["a"; "b"; "c"]].

Lemma iex_relist_reach :
  reach iex_meta iex_notify [] (iex_state iex_relist).1 (iex_state iex_relist).2
    (iex_view iex_relist) (iex_stale iex_relist).
Proof. apply iex_reach; [exact iex_events_reach|by intros o _|reflexivity]. Qed.

Lemma informer_tracks_server_witness :
  (settle (pend (iex_state iex_relist).1 "ns/c") (contents (iex_state iex_relist).2 !! "ns/c")
     = iex_view iex_relist !! "ns/c") ∧
  (settle (pend (iex_state iex_relist).1 "ns/a") (contents (iex_state iex_relist).2 !! "ns/a")
     ≠ iex_view iex_relist !! "ns/a") ∧
  iex_stale iex_relist = {["ns/a"]} ∧ iex_stale (iex_relist ++ [EUpdate "a"]) = ∅.
Proof.
  destruct (informer_tracks_server _ _ _ _ _ _ _ iex_relist_reach) as [Hs _].
  split_and!; [| |vm_compute; reflexivity..].
  - apply Hs. by vm_compute.
  - intros Heq. by apply Hs in Heq; vm_compute in Heq.
Defined.

Lemma informer_notifications_exact_witness :
  ∃ log, sink (iex_state iex_relist).2 = notify_all iex_notify log [] ∧
    history iex_meta ∅ log (contents (iex_state iex_relist).2).
Proof. exact (informer_notifications_exact _ _ _ _ _ _ _ iex_relist_reach). Defined.

Lemma informer_catches_up_witness :
  length (queue (iex_state iex_relist).1) = 3 ∧
  ∃ f' w', drain iex_notify (length (queue (iex_state iex_relist).1)) (iex_state iex_relist) = Ret () (f', w') ∧ queue f' = [] ∧
    (∀ k, contents w' !! k = iex_view iex_relist !! k ↔ k ∉ iex_stale iex_relist).
Proof.
  split; [reflexivity|].
  destruct (informer_catches_up iex_meta iex_notify indexed_objects
    (ThreadSafeStore_live0 := threadSafeMap_live map_to_list map_to_list map_to_list elements)
    _ _ _ _ _ iex_relist_reach) as (f' & w' & H1 & H2 & H3 & _).
  - split.
    + intros name f o. assert (indexers (cacheStorage (indexer (iex_state iex_relist).2)) = ∅) as ->
        by reflexivity. by rewrite lookup_empty.
    + intros k o Hk. destruct (reach_inv _ _ _ _ _ _ _ iex_relist_reach) as [(V & Hi & _) _].
      destruct (ii_contents _ _ _ _ Hi k o Hk) as (p & -> & _). by eexists.
  - exists f', w'. rewrite <-surjective_pairing in H1. exact (conj H1 (conj H2 H3)).
Defined.

Lemma relist_loses_recreated_object_witness :
  let '(f, w) := iex_state iex_events in
  settle (pend (DeltaFifo.Replace map_to_list w (Some ∘ Plain <$> ["a"]) f).2 "ns/a")
    (contents w !! "ns/a") = None ∧
  is_Some (server_view iex_meta (EReplace ["a"]) (iex_view iex_events) !! "ns/a").
Proof.
  apply (relist_loses_recreated_object iex_meta iex_notify [] map_to_list
    (iex_state iex_events).1 (iex_state iex_events).2 (iex_view iex_events) (iex_stale iex_events) ["a"] "a" "ns/a");
    [exact iex_events_reach|by left|reflexivity|reflexivity].
Defined.

Lemma relist_keeps_vanished_object_witness :
  let '(f, w) := iex_state iex_events in
  settle (pend (DeltaFifo.Replace map_to_list w (Some ∘ Plain <$> ["a"]) f).2 "ns/b")
    (contents w !! "ns/b") = Some (Some (Plain "b")) ∧
  server_view iex_meta (EReplace ["a"]) (iex_view iex_events) !! "ns/b" = None.
Proof.
  apply (relist_keeps_vanished_object iex_meta iex_notify [] map_to_list
    (iex_state iex_events).1 (iex_state iex_events).2 (iex_view iex_events) (iex_stale iex_events) ["a"] "ns/b"
    (Build_Delta Added (Some (Plain "b"))));
    [exact iex_events_reach|reflexivity|discriminate|reflexivity|].
  intros (o & Ho & Hk). apply list_elem_of_singleton in Ho as ->. discriminate Hk.
Defined.
End witnesses.
