(* ===== verification/RingGrowing.v ===== *)
(** * The notification buffer of a listener
    (k8s.io/client-go/util/buffer/ring_growing.go, and the goroutine
    [processorListener.pop] of tools/cache/shared_informer.go)

    A growing ring buffer, and the loop that moves notifications from a listener's
    [addCh] through the buffer to its [nextCh]. *)

From S2P Require Import Prelude.

Section ring.
Context {X : Type}.

Record RingGrowing := {
  data : list (option X);
  n : nat;          (* size of data *)
  beg : nat;        (* first available element *)
  readable : nat;   (* number of data items available *)
}.

Definition NewRingGrowing (initialSize : nat) : RingGrowing :=
  {| data := replicate initialSize None; n := initialSize; beg := 0; readable := 0 |}.

Definition ReadOne : st RingGrowing (option X * bool) := λ r,
  if bool_decide (readable r = 0) then Ret (None, false) r
  else match data r !! beg r with
       | None => Panic r    (* index out of range *)
       | Some element =>
         Ret (element, true)
           {| data := <[beg r := None]> (data r); n := n r;
              beg := if bool_decide (beg r = n r - 1) then 0 else beg r + 1;
              readable := readable r - 1 |}
       end.

(** The copy of a full buffer into one of twice the size. *)
Definition grow (r : RingGrowing) : option RingGrowing :=
  let newN := n r * 2 in
  let newData := replicate newN None in
  let to := beg r + readable r in
  newData ← (if bool_decide (to ≤ n r) then
               src ← slice (beg r) to (data r); Some (copy newData src)
             else
               src ← slice (beg r) (length (data r)) (data r);
               let copied := length src `min` newN in
               src' ← slice 0 (to `mod` n r) (data r);
               Some (take copied (copy newData src) ++ copy (drop copied (copy newData src)) src'));
  Some {| data := newData; n := newN; beg := 0; readable := readable r |}.

Definition WriteOne (x : X) : st RingGrowing () := λ r,
  match (if bool_decide (readable r = n r) then grow r else Some r) with
  | None => Panic r
  | Some r =>
    let i := (readable r + beg r) `mod` n r in
    if bool_decide (n r = 0) || bool_decide (length (data r) ≤ i) then Panic r
    else Ret () {| data := <[i := Some x]> (data r); n := n r; beg := beg r;
                   readable := readable r + 1 |}
  end.

(** ** The buffer is a queue *)
Record holds (r : RingGrowing) (l : list X) : Prop := {
  holds_size : length (data r) = n r;
  holds_pos : 0 < n r;
  holds_beg : beg r < n r;
  holds_full : readable r ≤ n r;
  holds_length : length l = readable r;
  holds_at i x : l !! i = Some x → data r !! ((beg r + i) `mod` n r) = Some (Some x);
}.

Lemma wrap a m : a < 2 * m → a `mod` m = if decide (a < m) then a else a - m.
Proof.
  intros Ha. case_decide as H; [by apply Nat.mod_small|].
  symmetry. apply (Nat.mod_unique a m 1); lia.
Qed.

Lemma holds_new size : 0 < size → holds (NewRingGrowing size) [].
Proof. intros Hs. split; cbn; try lia; [apply length_replicate|intros i x; by rewrite lookup_nil]. Qed.

Lemma ReadOne_nil r : holds r [] → ReadOne r = Ret (None, false) r.
Proof. intros [_ _ _ _ Hl _]. unfold ReadOne. cbn in Hl. by rewrite bool_decide_eq_true_2. Qed.

Lemma ReadOne_cons r x l :
  holds r (x :: l) → ∃ r', ReadOne r = Ret (Some x, true) r' ∧ holds r' l.
Proof.
  intros [Hs Hp Hb Hf Hl Ha]. unfold ReadOne. cbn in Hl. rewrite bool_decide_eq_false_2 by lia.
  pose proof (Ha 0 x eq_refl) as H0. rewrite Nat.add_0_r, Nat.mod_small in H0 by done. rewrite H0.
  eexists. split; [done|]. split; cbn; [by rewrite length_insert|done|case_bool_decide; lia|lia|lia|].
  intros i y Hi. pose proof (lookup_lt_Some _ _ _ Hi) as Hlt.
  pose proof (Ha (S i) y Hi) as Hy.
  assert (((if bool_decide (beg r = n r - 1) then 0 else beg r + 1) + i) `mod` n r =
    (beg r + S i) `mod` n r) as ->.
  { case_bool_decide; rewrite !wrap by lia; repeat case_decide; lia. }
  rewrite list_lookup_insert_ne; [done|]. rewrite wrap by lia. case_decide; lia.
Qed.

Lemma grow_holds r l : holds r l → readable r = n r → ∃ r', grow r = Some r' ∧ holds r' l ∧
  readable r' < n r'.
Proof.
  intros [Hs Hp Hb Hf Hl Ha] Hr.
  assert (∃ d, grow r = Some {| data := d; n := n r * 2; beg := 0; readable := readable r |} ∧
    length d = n r * 2 ∧ ∀ i, i < n r → d !! i = data r !! ((beg r + i) `mod` n r))
    as (d & -> & Hd & Hdi).
  { unfold grow. case_bool_decide as Hto.
    - assert (beg r = 0) as Hb0 by lia. rewrite Hb0, Hr, slice_full by lia. cbn.
      eexists. split; [done|]. split; [rewrite length_copy; apply length_replicate|].
      intros i Hi. rewrite Nat.mod_small by lia. rewrite lookup_copy_lt by (rewrite ?length_replicate; lia). done.
    - rewrite !slice_Some by (split; [lia|]; rewrite ?wrap by lia; try case_decide; lia). cbn.
      eexists. split; [done|].
      rewrite (take_ge (drop (beg r) (data r))) by (rewrite length_drop; lia).
      rewrite drop_0, length_drop. replace (((length (data r) - beg r) `min` (n r * 2)))
        with (n r - beg r) by lia.
      split; [rewrite length_app, length_take, !length_copy, length_drop, !length_copy, length_replicate;
        lia|].
      intros i Hi. destruct (decide (i < n r - beg r)) as [Hlt|Hge].
      + rewrite lookup_app_l by (rewrite length_take, length_copy, length_replicate; lia).
        rewrite lookup_take_lt, lookup_copy_lt, lookup_drop, Nat.mod_small
          by (rewrite ?length_drop, ?length_replicate; lia). done.
      + rewrite lookup_app_r by (rewrite length_take, length_copy, length_replicate; lia).
        rewrite length_take, length_copy, length_replicate.
        rewrite (wrap (beg r + readable r)), (wrap (beg r + i)) by lia.
        rewrite decide_False, decide_False by lia.
        rewrite lookup_copy_lt by (rewrite ?length_drop, ?length_copy, ?length_take, ?length_replicate; lia).
        rewrite lookup_take_lt by lia. f_equal. lia. }
  eexists. split; [done|]. split; [|cbn; lia].
  split; cbn; [done|lia|lia|lia|done|]. intros i x Hi.
  pose proof (lookup_lt_Some _ _ _ Hi) as Hlt. rewrite Nat.mod_small, Hdi by lia. by apply Ha.
Qed.

Lemma WriteOne_holds r l x :
  holds r l → ∃ r', WriteOne x r = Ret () r' ∧ holds r' (l ++ [x]).
Proof.
  intros H. unfold WriteOne.
  assert (∃ r1, (if bool_decide (readable r = n r) then grow r else Some r) = Some r1 ∧
    holds r1 l ∧ readable r1 < n r1) as (r1 & -> & [Hs Hp Hb Hf Hl Ha] & Hlt).
  { case_bool_decide as Hr; [by apply grow_holds|]. exists r. destruct H. split_and!; [done..|lia]. }
  rewrite !bool_decide_eq_false_2
    by (try lia; rewrite wrap by lia; case_decide; lia). cbn.
  eexists. split; [done|]. split; cbn; [by rewrite length_insert|done..|lia|rewrite length_app; cbn; lia|].
  intros i y [Hi|[Hi ->]]%lookup_snoc_Some.
  - destruct Hi as [Hi Hy]. rewrite list_lookup_insert_ne; [by apply Ha|].
    rewrite !wrap by lia. repeat case_decide; lia.
  - subst i. rewrite Hl, (Nat.add_comm (readable r1)). apply list_lookup_insert_eq.
    rewrite wrap by lia. case_decide; lia.
Qed.
End ring.

Arguments RingGrowing : clear implicits.

(** ** The loop of [processorListener.pop]

    The local variables of the goroutine, and the notifications that [run] has
    received over [nextCh].  One iteration of the loop takes one of the two branches
    of the [select]: a receive from [addCh], or a send to [nextCh], which is disabled
    while the local [nextCh] is nil. *)
Section pop.
Context {X : Type}.

Record popper := {
  nextCh : bool;              (* the local nextCh is not nil *)
  notification : option X;
  pendingNotifications : RingGrowing X;
  dispatched : list X;
}.

Definition new_popper (bufferSize : nat) : popper :=
  {| nextCh := false; notification := None;
     pendingNotifications := NewRingGrowing bufferSize; dispatched := [] |}.

(** [case nextCh <- notification] *)
Definition pop_dispatch : st popper () := λ p,
  match notification p with
  | None => Panic p   (* not reached: a nil notification is never sent *)
  | Some x =>
    match ReadOne (pendingNotifications p) with
    | Panic r => Panic p
    | Ret (next, ok) r =>
      Ret () {| nextCh := if negb ok then false else nextCh p; notification := next;
                pendingNotifications := r; dispatched := dispatched p ++ [x] |}
    end
  end.

(** [case notificationToAdd, ok := <-p.addCh] *)
Definition pop_add (notificationToAdd : X) : st popper () := λ p,
  match notification p with
  | None =>
    Ret () {| nextCh := true; notification := Some notificationToAdd;
              pendingNotifications := pendingNotifications p; dispatched := dispatched p |}
  | Some _ =>
    match WriteOne notificationToAdd (pendingNotifications p) with
    | Panic r => Panic p
    | Ret _ r =>
      Ret () {| nextCh := nextCh p; notification := notification p;
                pendingNotifications := r; dispatched := dispatched p |}
    end
  end.

Inductive pop_event : Type := Received (x : X) | Dispatched | Closed.

(** A run of the loop; a dispatch is possible only when the case is enabled, and the loop
    returns when it finds [addCh] closed. *)
Fixpoint pop_run (evs : list pop_event) : st popper () :=
  match evs with
  | [] => mret ()
  | Received x :: evs' => pop_add x ;; pop_run evs'
  | Dispatched :: evs' =>
    p ← st_get; (if nextCh p then pop_dispatch else mret ()) ;; pop_run evs'
  | Closed :: _ => mret ()
  end.

Fixpoint received (evs : list pop_event) : list X :=
  match evs with
  | [] => []
  | Received x :: evs' => x :: received evs'
  | Dispatched :: evs' => received evs'
  | Closed :: _ => []
  end.

(** The notifications waiting in the loop. *)
Definition waiting (p : popper) (l : list X) : Prop :=
  nextCh p = bool_decide (l ≠ []) ∧ head l = notification p ∧
  holds (pendingNotifications p) (tail l).

Lemma pop_add_waiting x p l :
  waiting p l →
  ∃ p', pop_add x p = Ret () p' ∧ waiting p' (l ++ [x]) ∧ dispatched p' = dispatched p.
Proof.
  intros (Hn & Hh & Hr). unfold pop_add. rewrite <-Hh. destruct l as [|y l]; cbn.
  - eexists. split; [done|]. by split_and!.
  - destruct (WriteOne_holds _ _ x Hr) as (r & -> & Hr'). eexists. split; [done|]. by split_and!.
Qed.

Lemma pop_dispatch_waiting p y l :
  waiting p (y :: l) →
  ∃ p', pop_dispatch p = Ret () p' ∧ waiting p' l ∧ dispatched p' = dispatched p ++ [y].
Proof.
  intros (Hn & Hh & Hr). unfold pop_dispatch. rewrite <-Hh. cbn in *. destruct l as [|z l].
  - rewrite (ReadOne_nil _ Hr). eexists. split; [done|]. by split_and!.
  - destruct (ReadOne_cons _ z l Hr) as (r & -> & Hr'). eexists. split; [done|]. by split_and!.
Qed.

Lemma pop_run_spec evs p l :
  waiting p l →
  ∃ p' l', pop_run evs p = Ret () p' ∧ waiting p' l' ∧
    dispatched p' ++ l' = dispatched p ++ l ++ received evs.
Proof.
  revert p l. induction evs as [|[x| |] evs IH]; intros p l Hw; cbn [pop_run received].
  - exists p, l. by rewrite app_nil_r.
  - destruct (pop_add_waiting x p l Hw) as (p1 & H1 & Hw1 & Hd1).
    rewrite (st_bind_ret _ _ _ _ _ H1), <-Hd1.
    destruct (IH p1 _ Hw1) as (p' & l' & ? & ? & Hd). exists p', l'. split_and!; [done..|].
    by rewrite Hd, <-app_assoc.
  - rewrite (st_bind_ret st_get _ p p p eq_refl). pose proof Hw as (-> & _).
    destruct l as [|y l]; [by apply IH|]. rewrite bool_decide_eq_true_2 by done.
    destruct (pop_dispatch_waiting p y l Hw) as (p1 & H1 & Hw1 & Hd1).
    rewrite (st_bind_ret _ _ _ _ _ H1). destruct (IH p1 _ Hw1) as (p' & l' & ? & ? & Hd).
    exists p', l'. split_and!; [done..|]. by rewrite Hd, Hd1, <-app_assoc.
  - exists p, l. by rewrite app_nil_r.
Qed.

(** [C37] A listener with a buffer of positive size never panics, whatever the
    interleaving of arrivals and dispatches and however often its ring buffer wraps
    around and grows: what it has dispatched is a prefix of what it has received, in
    order, and the dispatch case is enabled exactly while something received is still
    waiting.  What waits when the channel is closed is not dispatched any more. *)
Theorem listener_delivers_in_order size evs :
  0 < size →
  ∃ p l, pop_run evs (new_popper size) = Ret () p ∧
    dispatched p ++ l = received evs ∧ nextCh p = bool_decide (l ≠ []).
Proof.
  intros Hs. destruct (pop_run_spec evs (new_popper size) []) as (p & l & Hp & (Hn & _) & Hd).
  { split_and!; [done..|]. by apply holds_new. }
  by exists p, l.
Qed.
End pop.

Lemma listener_delivers_in_order_witness :
  ∃ p l, pop_run [Received 1; Received 2; Received 3; Dispatched; Received 4; Dispatched; Closed; Received 5]
      (new_popper 1) = Ret () p ∧
    dispatched p ++ l = [1; 2; 3; 4] ∧ nextCh p = bool_decide (l ≠ []).
Proof.
  apply (listener_delivers_in_order 1
    [Received 1; Received 2; Received 3; Dispatched; Received 4; Dispatched; Closed; Received 5]). lia.
Defined.
