(* ===== verification/SharedInformer.v ===== *)
(** * Shared informers (k8s.io/client-go/tools/cache/shared_informer.go)

    The shared processor distributes the notifications of one informer to listeners.
    A listener is known by its position in [listeners]; [added] is what has been sent
    to it over [addCh].  Times and durations are in nanoseconds. *)

From S2P Require Import Prelude StringSets ObjectKeys ThreadSafeStore Store DeltaFifo Informer.
Open Scope Z_scope.

Section processor.
Context {Obj : Type}.

Record processorListener := {
  added : list (notification Obj);
  requestedResyncPeriod : Z;
  resyncPeriod : Z;
  nextResync : Z;
}.

Definition determineNextResync (now : Z) (p : processorListener) : processorListener :=
  {| added := added p; requestedResyncPeriod := requestedResyncPeriod p;
     resyncPeriod := resyncPeriod p; nextResync := now + resyncPeriod p |}.

Definition setResyncPeriod (d : Z) (p : processorListener) : processorListener :=
  {| added := added p; requestedResyncPeriod := requestedResyncPeriod p;
     resyncPeriod := d; nextResync := nextResync p |}.

Definition newProcessListener (requested period now : Z) : processorListener :=
  determineNextResync now
    {| added := []; requestedResyncPeriod := requested; resyncPeriod := period; nextResync := 0 |}.

Definition add (n : notification Obj) (p : processorListener) : processorListener :=
  {| added := added p ++ [n]; requestedResyncPeriod := requestedResyncPeriod p;
     resyncPeriod := resyncPeriod p; nextResync := nextResync p |}.

Definition listener_shouldResync (now : Z) (p : processorListener) : bool :=
  if bool_decide (resyncPeriod p = 0) then false else bool_decide (nextResync p ≤ now).

Record sharedProcessor := {
  listeners : list processorListener;
  syncingListeners : list nat;
}.

Definition addListenerLocked (l : processorListener) (p : sharedProcessor) : sharedProcessor :=
  {| listeners := listeners p ++ [l];
     syncingListeners := syncingListeners p ++ [length (listeners p)] |}.

Definition addListener (l : processorListener) (p : sharedProcessor) : sharedProcessor :=
  addListenerLocked l p.

Definition distribute (obj : notification Obj) (sync : bool) (p : sharedProcessor) :
    sharedProcessor :=
  if sync
  then {| listeners := foldl (λ ls i, alter (add obj) i ls) (listeners p) (syncingListeners p);
          syncingListeners := syncingListeners p |}
  else {| listeners := add obj <$> listeners p; syncingListeners := syncingListeners p |}.

(** The loop of [sharedProcessor.shouldResync], from position [i] on. *)
Fixpoint should_resync_from (now : Z) (i : nat) (ls : list processorListener) :
    bool * list nat * list processorListener :=
  match ls with
  | [] => (false, [], [])
  | l :: ls' =>
    let '(needed, syncing, ls'') := should_resync_from now (S i) ls' in
    if listener_shouldResync now l
    then (true, i :: syncing, determineNextResync now l :: ls'')
    else (needed, syncing, l :: ls'')
  end.

Definition shouldResync (now : Z) (p : sharedProcessor) : bool * sharedProcessor :=
  let '(resyncNeeded, syncing, ls) := should_resync_from now 0 (listeners p) in
  (resyncNeeded, {| listeners := ls; syncingListeners := syncing |}).

Definition determineResyncPeriod (desired check : Z) : Z :=
  if bool_decide (desired = 0) then desired
  else if bool_decide (check = 0) then 0
  else if bool_decide (desired < check) then check
  else desired.

Definition resyncCheckPeriodChanged (resyncCheckPeriod : Z) (p : sharedProcessor) :
    sharedProcessor :=
  {| listeners := (λ l, setResyncPeriod
       (determineResyncPeriod (requestedResyncPeriod l) resyncCheckPeriod) l) <$> listeners p;
     syncingListeners := syncingListeners p |}.

Definition minimumResyncPeriod : Z := 1000000000.
End processor.

Arguments processorListener : clear implicits.
Arguments sharedProcessor : clear implicits.

Section sharedIndexInformer.
Context {Sto Obj : Type} `{ThreadSafeStore_laws Sto (dyn Obj)}.
Context (meta : Obj → meta_obj).

(** The informer; the client of its queue is its indexer and its processor. *)
Record sharedIndexInformer := {
  state : client (Sto:=Sto) (Obj:=Obj) (P:=sharedProcessor Obj);
  resyncCheckPeriod : Z;
  defaultEventHandlerResyncPeriod : Z;
  started : bool;
  stopped : bool;
}.

Definition set_state (w : client) (p : Z) (s : sharedIndexInformer) : sharedIndexInformer :=
  {| state := w; resyncCheckPeriod := p;
     defaultEventHandlerResyncPeriod := defaultEventHandlerResyncPeriod s;
     started := started s; stopped := stopped s |}.

Definition on_processor (f : sharedProcessor Obj → sharedProcessor Obj) (s : sharedIndexInformer) :
    sharedIndexInformer :=
  set_state (set_sink (f (sink (state s))) (state s)) (resyncCheckPeriod s) s.

Definition AddEventHandlerWithResyncPeriod (now period : Z) (s : sharedIndexInformer) :
    sharedIndexInformer :=
  if stopped s then s
  else
    let '(period, s) :=
      if bool_decide (0 < period) then
        let period := if bool_decide (period < minimumResyncPeriod) then minimumResyncPeriod
                      else period in
        if bool_decide (period < resyncCheckPeriod s) then
          if started s then (resyncCheckPeriod s, s)
          else (period, on_processor (resyncCheckPeriodChanged period)
                  (set_state (state s) period s))
        else (period, s)
      else (period, s) in
    let listener :=
      newProcessListener period (determineResyncPeriod period (resyncCheckPeriod s)) now in
    if negb (started s) then on_processor (addListener listener) s
    else
      let i := length (listeners (sink (state s))) in
      let s := on_processor (addListener listener) s in
      let items := cache_List (indexer (state s)) in
      on_processor (λ p, {| listeners :=
          foldl (λ ls item, alter (add (addNotification item)) i ls) (listeners p) items;
        syncingListeners := syncingListeners p |}) s.

Definition AddEventHandler (now : Z) (s : sharedIndexInformer) : sharedIndexInformer :=
  AddEventHandlerWithResyncPeriod now (defaultEventHandlerResyncPeriod s) s.

(** [HandleDeltas] of the shared informer. *)
Definition shared_HandleDeltas : list (Delta (dyn Obj)) → st client (ProcResult (Obj:=Obj)) :=
  HandleDeltas distribute.
End sharedIndexInformer.

Arguments sharedIndexInformer : clear implicits.

(** ** Distribution and resyncs *)
Section processor_facts.
Context {Obj : Type}.

Lemma lookup_foldl_alter {A} (f : A → processorListener Obj → processorListener Obj)
    (at_ : A → nat) xs i (ls : list (processorListener Obj)) :
  (∀ x, x ∈ xs → at_ x ≠ i) → foldl (λ ls x, alter (f x) (at_ x) ls) ls xs !! i = ls !! i.
Proof.
  revert ls. induction xs as [|x xs IH]; intros ls Hi; [done|]. cbn.
  rewrite IH by set_solver. apply list_lookup_alter_ne. set_solver.
Qed.

Lemma Forall_foldl_alter {A} (Q : processorListener Obj → Prop)
    (f : A → processorListener Obj → processorListener Obj) (at_ : A → nat) xs
    (ls : list (processorListener Obj)) :
  (∀ x l, Q l → Q (f x l)) → Forall Q ls →
  Forall Q (foldl (λ ls x, alter (f x) (at_ x) ls) ls xs).
Proof.
  intros Hf. revert ls. induction xs as [|x xs IH]; intros ls Hls; [done|]. cbn. apply IH.
  apply Forall_alter; [done|]. auto.
Qed.

Lemma should_resync_spec now k ls :
  let '(needed, syncing, ls') := should_resync_from (Obj:=Obj) now k ls in
  (needed = true ↔ ∃ l, l ∈ ls ∧ listener_shouldResync now l = true) ∧
  (∀ i, i ∈ syncing ↔ ∃ j l, (i = k + j)%nat ∧ ls !! j = Some l ∧ listener_shouldResync now l = true) ∧
  ls' = (λ l, if listener_shouldResync now l then determineNextResync now l else l) <$> ls.
Proof.
  revert k. induction ls as [|l ls IH]; intros k; cbn [should_resync_from].
  { split_and!; [set_solver| |done]. intros i. split; [by intros ?%not_elem_of_nil|].
    intros (j & l & _ & Hl & _). by rewrite lookup_nil in Hl. }
  specialize (IH (S k)). destruct (should_resync_from now (S k) ls) as [[needed syncing] ls'].
  destruct IH as (IH1 & IH2 & ->).
  assert (∀ i, i ∈ syncing ↔ ∃ j l, (i = k + S j)%nat ∧ ls !! j = Some l ∧
    listener_shouldResync now l = true) as IH2'.
  { intros i. rewrite IH2. split; intros (j & l' & -> & ?); exists j, l'; (split; [lia|done]). }
  rewrite fmap_cons. destruct (listener_shouldResync now l) eqn:E; split_and!; try done.
  - split; [|done]. intros _. exists l. set_solver.
  - intros i. rewrite elem_of_cons, IH2'. split.
    + intros [->|(j & l' & -> & ? & ?)]; [exists 0%nat, l; split; [lia|done]|by exists (S j), l'].
    + intros ([|j] & l' & -> & Hl & ?); [left; lia|right; eauto].
  - rewrite IH1. split; intros (x & Hx & Hd).
    + exists x. split; [by right|done].
    + apply elem_of_cons in Hx as [->|Hx]; [congruence|eauto].
  - intros i. rewrite IH2'. split.
    + intros (j & l' & -> & ? & ?). by exists (S j), l'.
    + intros ([|j] & l' & -> & Hl & ?); [cbn in Hl; congruence|eauto].
Qed.

(** [shouldResync] asks for a resync exactly when some listener with a non-zero
    period has reached its time; it selects those listeners for the next round of
    [Sync] notifications, moves their next resync one period on, and leaves all other
    listeners as they are. *)
Theorem shouldResync_exact now (p : sharedProcessor Obj) :
  let due l := resyncPeriod l ≠ 0 ∧ nextResync l ≤ now in
  let '(needed, p') := shouldResync now p in
  (needed = true ↔ ∃ l, l ∈ listeners p ∧ due l) ∧
  (∀ i, i ∈ syncingListeners p' ↔ ∃ l, listeners p !! i = Some l ∧ due l) ∧
  (∀ i l, listeners p !! i = Some l →
     (due l → listeners p' !! i = Some (determineNextResync now l)) ∧
     (¬ due l → listeners p' !! i = Some l)).
Proof.
  intros due. unfold shouldResync. pose proof (should_resync_spec now 0 (listeners p)) as H.
  destruct (should_resync_from now 0 (listeners p)) as [[needed syncing] ls].
  assert (∀ l : processorListener Obj, listener_shouldResync now l = true ↔ due l) as Hdue.
  { intros l. unfold listener_shouldResync, due. case_bool_decide; [naive_solver|].
    rewrite bool_decide_eq_true. naive_solver. }
  destruct H as (H1 & H2 & ->). setoid_rewrite Hdue in H1. setoid_rewrite Hdue in H2. cbn.
  split_and!; [done| |].
  - intros i. rewrite H2. split; [intros (j & l & -> & ? & ?); eauto|intros (l & ? & ?); eauto].
  - intros i l Hl. rewrite list_lookup_fmap, Hl. cbn. split.
    + intros Hd. by rewrite (proj2 (Hdue l) Hd).
    + intros Hd. destruct (listener_shouldResync now l) eqn:E; [by apply Hdue in E|done].
Qed.
End processor_facts.

(** ** Periods *)
Section periods.
Context {Sto Obj : Type} `{ThreadSafeStore_laws Sto (dyn Obj)}.

(** Every listener's period is the one its request is entitled to under the check
    period of the informer. *)
Definition aligned (check : Z) (p : sharedProcessor Obj) : Prop :=
  Forall (λ l, resyncPeriod l = determineResyncPeriod (requestedResyncPeriod l) check) (listeners p).

Lemma aligned_distribute check n b p : aligned check p → aligned check (distribute n b p).
Proof.
  intros Ha. unfold distribute. destruct b; unfold aligned; cbn.
  - by apply (Forall_foldl_alter _ (λ _, add n) (λ i, i)).
  - by apply Forall_fmap.
Qed.

Lemma aligned_shouldResync check now p : aligned check p → aligned check (shouldResync now p).2.
Proof.
  intros Ha. unfold shouldResync. pose proof (should_resync_spec now 0 (listeners p)) as H1.
  destruct (should_resync_from now 0 (listeners p)) as [[needed syncing] ls].
  destruct H1 as (_ & _ & ->). unfold aligned. cbn. apply Forall_fmap. eapply Forall_impl; [exact Ha|].
  intros l Hl. cbn. by destruct (listener_shouldResync now l).
Qed.

Lemma aligned_add check l p :
  resyncPeriod l = determineResyncPeriod (requestedResyncPeriod l) check →
  aligned check p → aligned check (addListener l p).
Proof. intros Hl Ha. apply Forall_app. split; [done|]. by apply Forall_singleton. Qed.

Lemma aligned_changed check p : aligned check (resyncCheckPeriodChanged check p).
Proof. apply Forall_fmap, Forall_true. done. Qed.

Lemma aligned_AddEventHandler now period s :
  aligned (resyncCheckPeriod s) (sink (state s)) →
  aligned (resyncCheckPeriod (AddEventHandlerWithResyncPeriod now period s))
    (sink (state (AddEventHandlerWithResyncPeriod now period s))).
Proof.
  intros Ha. unfold AddEventHandlerWithResyncPeriod. destruct (stopped s); [done|].
  set (r := if bool_decide (0 < period) then _ else _).
  assert (aligned (resyncCheckPeriod r.2) (sink (state r.2))) as Hr.
  { unfold r. repeat case_bool_decide; try done. all: destruct (started s); try done; apply aligned_changed. }
  destruct r as [d s1]; cbn in Hr. destruct (negb (started s1)); [by apply aligned_add|].
  unfold aligned, on_processor. cbn.
  apply (Forall_foldl_alter _ (λ item, add (addNotification item)) (λ _, length (listeners (sink (state s1))))).
  - done.
  - by apply aligned_add.
Qed.

(** The life of an informer: handlers are added, it is started, notifications are
    distributed, resyncs are considered, it is stopped. *)
Inductive informer_step (s : sharedIndexInformer Sto Obj) : sharedIndexInformer Sto Obj → Prop :=
| step_handler now period : informer_step s (AddEventHandlerWithResyncPeriod now period s)
| step_default_handler now : informer_step s (AddEventHandler now s)
| step_distribute n b : informer_step s (on_processor (distribute n b) s)
| step_should_resync now : informer_step s (on_processor (λ p, (shouldResync now p).2) s)
| step_run b1 b2 : informer_step s
    {| state := state s; resyncCheckPeriod := resyncCheckPeriod s;
       defaultEventHandlerResyncPeriod := defaultEventHandlerResyncPeriod s;
       started := b1; stopped := b2 |}.

Inductive informer_reachable : sharedIndexInformer Sto Obj → Prop :=
| ireach_new s : listeners (sink (state s)) = [] → informer_reachable s
| ireach_step s s' : informer_reachable s → informer_step s s' → informer_reachable s'.

(** However handlers with different resync periods are added, before or after
    the informer has started, each listener resyncs either never or with a period that
    is at least the informer's check period. *)
Theorem resync_periods_aligned s l :
  informer_reachable s → l ∈ listeners (sink (state s)) →
  resyncPeriod l = 0 ∨ resyncCheckPeriod s ≤ resyncPeriod l.
Proof.
  intros Hs. assert (aligned (resyncCheckPeriod s) (sink (state s))) as Ha.
  { induction Hs as [s Hl|s s' _ IH Hst]; [unfold aligned; rewrite Hl; constructor|].
    destruct Hst; [by apply aligned_AddEventHandler|by apply aligned_AddEventHandler|..|done].
    - by apply aligned_distribute.
    - by apply aligned_shouldResync. }
  intros Hl. rewrite (proj1 (Forall_forall _ _) Ha l Hl). unfold determineResyncPeriod.
  repeat case_bool_decide; lia.
Qed.

(** ** Handlers that join late *)

Lemma history_adds (meta : Obj → meta_obj) (kvs : list (string * option (dyn Obj))) m :
  NoDup kvs.*1 → (∀ k o, (k, o) ∈ kvs → objectKey meta o = Ok k) →
  (∀ k, k ∈ kvs.*1 → m !! k = None) →
  history meta m ((λ o, (addNotification o, false)) <$> kvs.*2) (list_to_map kvs ∪ m).
Proof.
  revert m. induction kvs as [|[k o] kvs IH]; intros m Hnd Hk Hm.
  { cbn. rewrite (left_id_L ∅ (∪)). constructor. }
  rewrite !fmap_cons in *. apply NoDup_cons in Hnd as [Hnk Hnd]. cbn.
  eapply (history_cons _ _ _ _ (<[k := o]> m)).
  - apply notified_add; [apply Hk; set_solver|apply Hm; set_solver].
  - rewrite <-insert_union_l. replace (<[k:=o]> (list_to_map kvs ∪ m))
      with (list_to_map kvs ∪ <[k := o]> m).
    + apply IH; [done|set_solver|]. intros k' Hk'. rewrite lookup_insert_ne by set_solver.
      apply Hm. set_solver.
    + rewrite insert_union_r; [done|]. by apply not_elem_of_list_to_map.
Qed.

(** A handler added to a running informer first gets one addition for each
    object of the store: replayed from the empty store its notifications give the
    store's contents; the other listeners get nothing. *)
Theorem late_handler_sees_store meta now period (s : sharedIndexInformer Sto Obj) :
  started s = true → stopped s = false →
  (∀ k o, contents (state s) !! k = Some o → objectKey meta o = Ok k) →
  let s' := AddEventHandlerWithResyncPeriod now period s in
  let i := length (listeners (sink (state s))) in
  contents (state s') = contents (state s) ∧
  (∃ l, listeners (sink (state s')) !! i = Some l ∧
     history meta ∅ ((λ n, (n, false)) <$> added l) (contents (state s))) ∧
  ∀ j l, listeners (sink (state s)) !! j = Some l → listeners (sink (state s')) !! j = Some l.
Proof.
  intros Hst Hsp Hkeys s' i.
  assert (∃ l0, added l0 = [] ∧ state s' = set_sink
    {| listeners := foldl (λ ls item, alter (add (addNotification item)) i ls)
         (listeners (sink (state s)) ++ [l0]) (cache_List (indexer (state s)));
       syncingListeners := syncingListeners (sink (state s)) ++ [i] |} (state s))
    as (l0 & Hl0 & ->).
  { unfold s', AddEventHandlerWithResyncPeriod. rewrite Hsp, Hst.
    set (r := if bool_decide (0 < period) then _ else _).
    assert (r.2 = s) as Hr by (unfold r; repeat case_bool_decide; done).
    destruct r as [d s1]. cbn in Hr. subst s1. rewrite Hst. cbn.
    by exists (newProcessListener d (determineResyncPeriod d (resyncCheckPeriod s)) now). }
  cbn. split_and!; [done| |].
  - assert (∀ items (ls : list (processorListener Obj)) l, ls !! i = Some l →
      ∃ l', foldl (λ ls item, alter (add (addNotification item)) i ls) ls items !! i = Some l' ∧
        added l' = added l ++ (addNotification <$> items)) as Hf.
    { induction items as [|o items IH]; intros ls l Hl; cbn; [exists l; by rewrite app_nil_r|].
      destruct (IH (alter (add (addNotification o)) i ls) (add (addNotification o) l))
        as (l' & ? & Hl'); [by rewrite list_lookup_alter_eq, Hl|].
      exists l'. split; [done|]. rewrite Hl'. cbn. by rewrite <-app_assoc. }
    destruct (Hf (cache_List (indexer (state s))) (listeners (sink (state s)) ++ [l0]) l0)
      as (l & Hl & Hadd); [by apply list_lookup_middle|].
    exists l. split; [done|]. rewrite Hadd, Hl0. cbn.
    pose proof (tss_List_law (cacheStorage (indexer (state s)))) as Hp.
    apply Permutation_map_inv in Hp as (kvs & Hkv & Hp). unfold cache_List. rewrite Hkv.
    rewrite <-list_fmap_compose.
    assert (list_to_map kvs = contents (state s)) as Hm.
    { unfold contents. rewrite <-(list_to_map_to_list (tss_contents (cacheStorage (indexer (state s))))).
      symmetry. apply list_to_map_proper; [apply NoDup_fst_map_to_list|done]. }
    rewrite <-Hm, <-(right_id_L ∅ (∪) (list_to_map kvs)). apply history_adds.
    + rewrite <-Hp. apply NoDup_fst_map_to_list.
    + intros k o Hin. apply Hkeys. rewrite <-Hp in Hin. by apply elem_of_map_to_list.
    + intros k _. apply lookup_empty.
  - intros j l Hj. rewrite (lookup_foldl_alter (λ item, add (addNotification item)) (λ _, i)).
    + by apply lookup_app_l_Some.
    + intros _ _ Hij. apply lookup_lt_Some in Hj. unfold i in Hij. lia.
Qed.

(** ** Changes found by a relist *)

(** A listener that wants no periodic resyncs misses changes: after the first
    [shouldResync], an object that a relist reports with a [Sync] delta (new to the
    store or changed) is put into the store, but the listener is not notified. *)
Theorem relist_change_not_distributed meta now i l k o w r w' :
  Store.keyFunc (indexer w) = DeletionHandlingMetaNamespaceKeyFunc meta →
  objectKey meta (Some (Plain o)) = Ok k →
  listeners (sink w) !! i = Some l → resyncPeriod l = 0 →
  shared_HandleDeltas [Build_Delta Sync (Some (Plain o))]
    (set_sink (shouldResync now (sink w)).2 w) = Ret r w' →
  contents (Sto:=Sto) w' = <[k := Some (Plain o)]> (contents w) ∧
  listeners (sink w') !! i = Some l.
Proof.
  intros Hkf Hk Hl Hz Hrun. unfold shared_HandleDeltas, HandleDeltas in Hrun.
  apply st_bind_inv in Hrun as (err & w1 & Hp & [= <- <-]).
  apply (process_delta_effect meta distribute k) in Hp
    as (w2 & n & b & [= <- <-] & _ & -> & Hs & _ & Hc); [|done|done|done].
  rewrite bool_decide_eq_false_2 in Hc by done. split; [exact Hc|]. rewrite Hs. cbn.
  unfold shouldResync. pose proof (should_resync_spec now 0 (listeners (sink w))) as H1.
  destruct (should_resync_from now 0 (listeners (sink w))) as [[needed syncing] ls].
  destruct H1 as (_ & H1 & ->). cbn.
  assert (listener_shouldResync now l = false) as Hls.
  { unfold listener_shouldResync. by rewrite bool_decide_eq_true_2. }
  rewrite bool_decide_eq_true_2 by done. cbn. rewrite (lookup_foldl_alter (λ _, add n) (λ j, j)).
  - rewrite list_lookup_fmap, Hl. cbn. by rewrite Hls.
  - intros j Hj ->. apply H1 in Hj as (j' & l' & -> & Hl' & Hd). cbn in Hl. congruence.
Qed.
End periods.

(** ** A concrete informer, for the witnesses *)
Section witnesses.
#[local] Instance sex_ops : ThreadSafeStore_ops (threadSafeMap (dyn string)) (dyn string) :=
  threadSafeMap_ops map_to_list map_to_list map_to_list elements.
#[local] Instance sex_laws : ThreadSafeStore_laws (threadSafeMap (dyn string)) (dyn string) :=
  threadSafeMap_laws map_to_list map_to_list map_to_list elements.

Definition sex_informer (b : bool) : sharedIndexInformer (threadSafeMap (dyn string)) string :=
  {| state := {| indexer := NewStore (DeletionHandlingMetaNamespaceKeyFunc iex_meta);
                 sink := {| listeners := []; syncingListeners := [] |} |};
     resyncCheckPeriod := 30 * minimumResyncPeriod; defaultEventHandlerResyncPeriod := 0;
     started := b; stopped := false |}.

Definition sex_handlers : sharedIndexInformer (threadSafeMap (dyn string)) string :=
  AddEventHandlerWithResyncPeriod 0 1 (AddEventHandlerWithResyncPeriod 0 0 (sex_informer false)).

(** The second handler lowers the check period to the minimum. *)
Lemma resync_periods_aligned_witness :
  resyncCheckPeriod sex_handlers = minimumResyncPeriod ∧
  Forall (λ l, resyncPeriod l = 0 ∨ minimumResyncPeriod ≤ resyncPeriod l)
    (listeners (sink (state sex_handlers))).
Proof.
  split; [reflexivity|]. apply Forall_forall. intros l Hl.
  apply (resync_periods_aligned sex_handlers l); [|exact Hl].
  eapply ireach_step; [|apply step_handler]. eapply ireach_step; [|apply step_handler].
  by apply ireach_new.
Defined.

Lemma late_handler_sees_store_witness :
  ∃ l, listeners (sink (state (AddEventHandlerWithResyncPeriod 0 0 (sex_informer true)))) !! 0%nat
    = Some l ∧ history iex_meta ∅ ((λ n, (n, false)) <$> added l) (contents (state (sex_informer true))).
Proof.
  apply (late_handler_sees_store iex_meta 0 0 (sex_informer true)); [reflexivity|reflexivity|].
  intros k o Hk. assert (contents (state (sex_informer true)) = ∅) as He by reflexivity.
  rewrite He, lookup_empty in Hk. discriminate.
Defined.

(** The first handler asked for no resyncs: it never hears of the relisted object. *)
Lemma relist_change_not_distributed_witness :
  let w := state sex_handlers in
  let w' := final (shared_HandleDeltas [Build_Delta Sync (Some (Plain "a"))]
    (set_sink (shouldResync minimumResyncPeriod (sink w)).2 w)) in
  contents w' !! "ns/a" = Some (Some (Plain "a")) ∧
  added <$> (listeners (sink w') !! 0%nat) = Some [] ∧
  added <$> (listeners (sink w') !! 1%nat) = Some [addNotification (Some (Plain "a"))].
Proof.
  intros w w'.
  destruct (relist_change_not_distributed iex_meta minimumResyncPeriod 0
    (newProcessListener 0 0 0) "ns/a" "a" w (Processed None) w')
    as [Hc Hl]; [reflexivity..|]. split_and!; [|by rewrite Hl|reflexivity].
  rewrite Hc. apply lookup_insert_eq.
Defined.
End witnesses.
