(* ===== verification/Reflector.v ===== *)
(** * The reflector (k8s.io/client-go/tools/cache/reflector.go)

    A reflector lists the objects of a server once, puts them into a store, and then
    applies the events of one watch after the other, resuming each watch at the
    resource version it has got to.  What the select statement of [watchHandler]
    receives is a list of signals, so every moment of a run is the end of such a list;
    the goroutine that asks for resyncs and whatever else acts on the store between
    two receives are signals too.  The server is the arguments [List] and [Watch]. *)

From S2P Require Import Prelude.

(** The methods of [Store] the reflector calls. *)
Class Store_ops (S E Obj : Type) := {
  rs_Add : Obj → st S (option E);
  rs_Update : Obj → st S (option E);
  rs_Delete : Obj → st S (option E);
  rs_Replace : list Obj → string → st S (option E);
  rs_Resync : st S (option E);
}.

(** What a reflector may rely on: the calls on objects that have a key return without
    error, and act on the objects the store stands for as on a map.  A store may get the
    keys [rs_missed] wrong when it is replaced, until their next change: [rs_holds s m X]
    says that [s] stands for [m] but for the keys [X]. *)
Class Store_laws (S E Obj : Type) `{Store_ops S E Obj} (key : Obj → option string) := {
  rs_holds : S → gmap string Obj → gset string → Prop;
  rs_missed : list Obj → S → gset string;
  rs_Add_law o k s m X :
    rs_holds s m X → key o = Some k →
    ∃ s', rs_Add o s = Ret None s' ∧ rs_holds s' (<[k := o]> m) (X ∖ {[k]});
  rs_Update_law o k s m X :
    rs_holds s m X → key o = Some k →
    ∃ s', rs_Update o s = Ret None s' ∧ rs_holds s' (<[k := o]> m) (X ∖ {[k]});
  rs_Delete_law o k s m X :
    rs_holds s m X → key o = Some k →
    ∃ s', rs_Delete o s = Ret None s' ∧ rs_holds s' (delete k m) (X ∖ {[k]});
  rs_Replace_law l rv s m X :
    rs_holds s m X → Forall (λ o, is_Some (key o)) l →
    ∃ s', rs_Replace l rv s = Ret None s' ∧
      rs_holds s' (list_to_map (reverse (omap (λ o, (., o) <$> key o) l))) (rs_missed l s);
  rs_Resync_law s m X :
    rs_holds s m X → ∃ s' (e : option E), rs_Resync s = Ret e s' ∧ rs_holds s' m X;
}.

Inductive EventType : Type :=
| WatchAdded
| WatchModified
| WatchDeleted
| WatchError
| WatchOther (t : string).

#[export] Instance EventType_eq_dec : EqDecision EventType.
Proof. solve_decision. Defined.

Record Event (Obj : Type) : Type := { ev_Type : EventType; ev_Object : Obj }.
Arguments ev_Type {Obj} _.
Arguments ev_Object {Obj} _.

Section reflector.
Context {S E Obj T : Type} `{Store_ops S E Obj} `{EqDecision T}.

(** [reflect.TypeOf] and the resource version of [meta.Accessor], with its error. *)
Context (typeOf : Obj → T) (accessor : Obj → option string).

Record Reflector := {
  store : S;
  expectedType : option T;
  resyncPeriod : Z;
  lastSyncResourceVersion : string;
  resyncing : bool;           (* the resync goroutine runs *)
  resyncerrc : option E;      (* what it sent *)
}.

Definition NewNamedReflector (expected : option T) (s : S) (resyncPeriod : Z) : Reflector :=
  {| store := s; expectedType := expected; resyncPeriod := resyncPeriod;
     lastSyncResourceVersion := ""; resyncing := false; resyncerrc := None |}.

Definition set_store (s : S) (r : Reflector) : Reflector :=
  {| store := s; expectedType := expectedType r; resyncPeriod := resyncPeriod r;
     lastSyncResourceVersion := lastSyncResourceVersion r; resyncing := resyncing r; resyncerrc := resyncerrc r |}.
Definition setLastSyncResourceVersion (v : string) (r : Reflector) : Reflector :=
  {| store := store r; expectedType := expectedType r; resyncPeriod := resyncPeriod r;
     lastSyncResourceVersion := v; resyncing := resyncing r; resyncerrc := resyncerrc r |}.
Definition set_resync (b : bool) (e : option E) (r : Reflector) : Reflector :=
  {| store := store r; expectedType := expectedType r; resyncPeriod := resyncPeriod r;
     lastSyncResourceVersion := lastSyncResourceVersion r; resyncing := b; resyncerrc := e |}.

Definition LastSyncResourceVersion (r : Reflector) : string := lastSyncResourceVersion r.

Definition on_store {A} (m : st S A) : st Reflector A := λ r,
  match m (store r) with
  | Ret a s => Ret a (set_store s r)
  | Panic s => Panic (set_store s r)
  end.

(** [syncWith]: [rs_Replace] with the listed items. *)
Definition syncWith (items : list Obj) (resourceVersion : string) : st Reflector (option E) :=
  on_store (rs_Replace items resourceVersion).

(** [resyncChan]: without a period its channel never fires. *)
Definition resync_fires (r : Reflector) : bool := bool_decide (resyncPeriod r ≠ 0)%Z.

(** One round of the resync goroutine, if its channel fires; [should] is what
    [ShouldResync] answers, true without one. *)
Definition resync_round (should : bool) : st Reflector () :=
  r ← st_get;
  if resyncing r && resync_fires r && should then
    err ← on_store rs_Resync;
    match err with
    | Some e => st_modify (set_resync false (Some e))
    | None => mret ()
    end
  else mret ().

Inductive signal : Type :=
| SigStop
| SigErrc
| SigClosed (watchDuration : Z)
| SigEvent (ev : Event Obj)
| SigResync (should : bool)
| SigOther (f : S → S).

Inductive watch_error : Type :=
| errorStopRequested
| ErrResync (e : E)
| ErrObject (o : Obj)
| ErrVeryShortWatch.

(** What [watchHandler] does with one event: the new resource version, [None] to
    ignore the event. *)
Definition apply_event (ev : Event Obj) : st Reflector (option string) :=
  r ← st_get;
  match expectedType r with
  | Some e => if bool_decide (e ≠ typeOf (ev_Object ev)) then mret None else mret (Some ())
  | None => mret (Some ())
  end ≫= λ typed : option (),
  match typed, accessor (ev_Object ev) with
  | None, _ | _, None => mret None
  | Some _, Some newResourceVersion =>
    match ev_Type ev with
    | WatchAdded => _ ← on_store (rs_Add (ev_Object ev)); mret ()
    | WatchModified => _ ← on_store (rs_Update (ev_Object ev)); mret ()
    | WatchDeleted => _ ← on_store (rs_Delete (ev_Object ev)); mret ()
    | _ => mret ()
    end ;;
    st_modify (setLastSyncResourceVersion newResourceVersion) ;;
    mret (Some newResourceVersion)
  end.

(** [watchHandler]: its result, [None] while it waits for the next signal, and the
    resource version. *)
Fixpoint watchHandler (sigs : list signal) (resourceVersion : string) (eventCount : nat) :
    st Reflector (option (option watch_error) * string) :=
  match sigs with
  | [] => mret (None, resourceVersion)
  | SigStop :: _ => mret (Some (Some errorStopRequested), resourceVersion)
  | SigErrc :: sigs' =>
    r ← st_get;
    match resyncerrc r with
    | Some e => st_modify (set_resync (resyncing r) None) ;; mret (Some (Some (ErrResync e)), resourceVersion)
    | None => watchHandler sigs' resourceVersion eventCount
    end
  | SigClosed watchDuration :: _ =>
    if bool_decide (watchDuration < 1000000000)%Z && bool_decide (eventCount = 0)
    then mret (Some (Some ErrVeryShortWatch), resourceVersion)
    else mret (Some None, resourceVersion)
  | SigEvent ev :: sigs' =>
    if bool_decide (ev_Type ev = WatchError)
    then mret (Some (Some (ErrObject (ev_Object ev))), resourceVersion)
    else
      v ← apply_event ev;
      match v with
      | None => watchHandler sigs' resourceVersion eventCount
      | Some v => watchHandler sigs' v (Datatypes.S eventCount)
      end
  | SigResync should :: sigs' => resync_round should ;; watchHandler sigs' resourceVersion eventCount
  | SigOther f :: sigs' =>
    st_modify (λ r, set_store (f (store r)) r) ;; watchHandler sigs' resourceVersion eventCount
  end.

(** A call of the server's Watch: refused connection, another error, or a watch. *)
Inductive watch_start : Type :=
| WatchRefused
| WatchFailed
| WatchStarted (sigs : list signal).

Inductive list_and_watch : Type :=
| ListFailed (e : string)
| SyncFailed (e : E)
| Stopped                  (* returned nil *)
| Watching.                (* still running *)

Section server.
Context (List : res string (list Obj * string)) (stopped : nat → bool)
        (Watch : nat → string → watch_start).

(** The loop of [ListAndWatch], for at most [n] rounds from round [i]. *)
Fixpoint watch_rounds (n i : nat) (resourceVersion : string) : st Reflector list_and_watch :=
  match n with
  | O => mret Watching
  | Datatypes.S n =>
    if stopped i then mret Stopped
    else
      match Watch i resourceVersion with
      | WatchRefused => watch_rounds n (Datatypes.S i) resourceVersion
      | WatchFailed => mret Stopped
      | WatchStarted sigs =>
        '(r, resourceVersion) ← watchHandler sigs resourceVersion 0;
        match r with
        | None => mret Watching
        | Some (Some _) => mret Stopped
        | Some None => watch_rounds n (Datatypes.S i) resourceVersion
        end
      end
  end.

(** When the function returns it closes [cancelCh], which ends the resync goroutine. *)
Definition ListAndWatch (n : nat) : st Reflector list_and_watch :=
  match List with
  | Err e => mret (ListFailed e)
  | Ok (items, resourceVersion) =>
    err ← syncWith items resourceVersion;
    match err with
    | Some e => mret (SyncFailed e)
    | None =>
      st_modify (setLastSyncResourceVersion resourceVersion) ;;
      st_modify (set_resync true None) ;;
      res ← watch_rounds n 0 resourceVersion;
      match res with
      | Watching => mret Watching
      | res => st_modify (λ r, set_resync false (resyncerrc r) r) ;; mret res
      end
    end
  end.
End server.

(** [Run]: one [ListAndWatch] after the other, until one keeps running or the sessions
    end.  What acts on the store in between is part of a session. *)
Record session := {
  se_before : S → S;
  se_List : res string (list Obj * string);
  se_stopped : nat → bool;
  se_Watch : nat → string → watch_start;
  se_rounds : nat;
}.

Fixpoint Run (sessions : list session) : st Reflector () :=
  match sessions with
  | [] => mret ()
  | x :: sessions' =>
    st_modify (λ r, set_store (se_before x (store r)) r) ;;
    res ← ListAndWatch (se_List x) (se_stopped x) (se_Watch x) (se_rounds x);
    match res with
    | Watching => mret ()
    | _ => Run sessions'
    end
  end.

(** ** Following a server *)
Section follows.
Context (key : Obj → option string) `{!Store_laws S E Obj key}.

(** The changes the server makes, and the resource version of the state before the
    [i]-th of them. *)
Context (events : list (Event Obj)) (version : nat → string) (expected : option T).

Definition apply_change (m : gmap string Obj) (ev : Event Obj) : gmap string Obj :=
  match key (ev_Object ev), ev_Type ev with
  | Some k, WatchDeleted => delete k m
  | Some k, _ => <[k := ev_Object ev]> m
  | None, _ => m
  end.

Definition state_at (i : nat) : gmap string Obj := foldl apply_change ∅ (take i events).

(** The keys of the changes from the [j]-th to the [i]-th. *)
Definition touched (j i : nat) : gset string :=
  list_to_set (omap (λ ev, key (ev_Object ev)) (take (i - j) (drop j events))).

(** What [watchHandler] does not apply: watch errors, which end the watch, and objects of
    another type than expected or without metadata. *)
Definition discarded (ev : Event Obj) : bool :=
  bool_decide (ev_Type ev = WatchError) ||
  match expected with Some t => bool_decide (t ≠ typeOf (ev_Object ev)) | None => false end ||
  match accessor (ev_Object ev) with Some _ => false | None => true end.

Definition events_of (sigs : list signal) : list (Event Obj) :=
  omap (λ s, match s with SigEvent ev => if discarded ev then None else Some ev | _ => None end) sigs.

(** What the API promises: a list is the state at its version, and a watch that is started
    at a version delivers the changes from there on, in order and without gaps, for as
    long as it lasts; events that are discarded may come in between. *)
Record server_ok (List : res string (list Obj * string)) (Watch : nat → string → watch_start) : Prop := {
  sv_event i ev : events !! i = Some ev →
    is_Some (key (ev_Object ev)) ∧ accessor (ev_Object ev) = Some (version (Datatypes.S i)) ∧
    (ev_Type ev = WatchAdded ∨ ev_Type ev = WatchModified ∨ ev_Type ev = WatchDeleted) ∧
    (∀ t, expected = Some t → typeOf (ev_Object ev) = t);
  sv_list items v : List = Ok (items, v) →
    ∃ i, i ≤ length events ∧ v = version i ∧ Forall (λ o, is_Some (key o)) items ∧
      list_to_map (reverse (omap (λ o, (., o) <$> key o) items)) = state_at i;
  sv_watch n i sigs : i ≤ length events → Watch n (version i) = WatchStarted sigs →
    events_of sigs `prefix_of` drop i events;
}.

(** Whatever else acts on the store keeps the objects it stands for. *)
Definition harmless (f : S → S) : Prop := ∀ s m X, rs_holds s m X → rs_holds (f s) m X.

Definition others_ok (Watch : nat → string → watch_start) : Prop :=
  ∀ n v sigs f, Watch n v = WatchStarted sigs → SigOther f ∈ sigs → harmless f.

(** The reflector has got to the [i]-th state of the server, but for the keys [X]. *)
Record follows (r : Reflector) (i : nat) (X : gset string) : Prop := {
  fo_holds : rs_holds (store r) (state_at i) X;
  fo_version : lastSyncResourceVersion r = version i;
  fo_bound : i ≤ length events;
  fo_type : expectedType r = expected;
}.

Lemma follows_resync r i X b e : follows r i X → follows (set_resync b e r) i X.
Proof. intros [????]. by split. Qed.

Lemma touched_self j : touched j j = ∅.
Proof. unfold touched. by rewrite Nat.sub_diag. Qed.

Lemma touched_first i j ev k :
  events !! i = Some ev → key (ev_Object ev) = Some k → Datatypes.S i ≤ j →
  touched i j = {[k]} ∪ touched (Datatypes.S i) j.
Proof.
  intros Hev Hk Hj. unfold touched. rewrite (drop_S _ _ _ Hev).
  replace (j - i) with (Datatypes.S (j - Datatypes.S i)) by lia. cbn [take omap list_omap].
  by rewrite Hk.
Qed.

Lemma touched_trans i j k : i ≤ j → j ≤ k → touched i k = touched i j ∪ touched j k.
Proof.
  intros Hij Hjk. unfold touched. rewrite <-list_to_set_app_L, <-omap_app. do 2 f_equal.
  replace (k - i) with ((j - i) + (k - j)) by lia. rewrite <-take_take_drop, drop_drop.
  repeat f_equal; lia.
Qed.

Context (List : res string (list Obj * string)) (Watch : nat → string → watch_start)
        (Hserver : server_ok List Watch) (Hothers : others_ok Watch).

Lemma state_at_S i ev : events !! i = Some ev → state_at (Datatypes.S i) = apply_change (state_at i) ev.
Proof. intros He. unfold state_at. by rewrite (take_S_r _ _ _ He), foldl_app. Qed.

Lemma apply_event_follows r i X ev k :
  follows r i X → events !! i = Some ev → key (ev_Object ev) = Some k →
  ∃ r', apply_event ev r = Ret (Some (version (Datatypes.S i))) r' ∧ follows r' (Datatypes.S i) (X ∖ {[k]}).
Proof.
  intros [Hh Hv Hb Ht] Hev Hk. destruct (sv_event _ _ Hserver i ev Hev) as (_ & Hacc & Hty & Hexp).
  assert (∃ s', match ev_Type ev with
    | WatchAdded => _ ← on_store (rs_Add (ev_Object ev)); mret ()
    | WatchModified => _ ← on_store (rs_Update (ev_Object ev)); mret ()
    | WatchDeleted => _ ← on_store (rs_Delete (ev_Object ev)); mret ()
    | _ => mret ()
    end r = Ret () (set_store s' r) ∧ rs_holds s' (state_at (Datatypes.S i)) (X ∖ {[k]})) as (s' & Hs' & Hh').
  { rewrite (state_at_S _ _ Hev). unfold apply_change. rewrite Hk.
    destruct Hty as [-> | [-> | ->]]; unfold mbind, st_bind, on_store, mret, st_ret.
    - destruct (rs_Add_law (ev_Object ev) k _ _ _ Hh Hk) as (s' & -> & Hs'). eauto.
    - destruct (rs_Update_law (ev_Object ev) k _ _ _ Hh Hk) as (s' & -> & Hs'). eauto.
    - destruct (rs_Delete_law (ev_Object ev) k _ _ _ Hh Hk) as (s' & -> & Hs'). eauto. }
  exists (setLastSyncResourceVersion (version (Datatypes.S i)) (set_store s' r)). split.
  - unfold apply_event. rewrite Hacc. unfold mbind, st_bind, st_get, mret, st_ret in *. rewrite Ht.
    destruct expected as [t|]; [rewrite bool_decide_eq_false_2 by (intros Hne; apply Hne; symmetry; by apply Hexp)|]; by rewrite Hs'.
  - split; [done|done| |done]. apply lookup_lt_Some in Hev. lia.
Qed.

Lemma apply_event_discarded r ev :
  expectedType r = expected → discarded ev = true → ev_Type ev ≠ WatchError → apply_event ev r = Ret None r.
Proof.
  intros Ht Hd Hne. unfold discarded in Hd. rewrite bool_decide_eq_false_2 in Hd by done. cbn in Hd.
  unfold apply_event, mbind, st_bind, st_get, mret, st_ret. rewrite Ht.
  destruct expected as [t|]; [case_bool_decide; [done|]|]; cbn in Hd; by destruct (accessor (ev_Object ev)).
Qed.

Lemma resync_follows r i X should :
  follows r i X → ∃ r', resync_round should r = Ret () r' ∧ follows r' i X.
Proof.
  intros Hf. unfold resync_round, mbind, st_bind, st_get.
  destruct (_ && should); [|by exists r].
  destruct (rs_Resync_law _ _ _ (fo_holds _ _ _ Hf)) as (s' & e & Hr & Hs'). unfold on_store. rewrite Hr.
  assert (follows (set_store s' r) i X) as Hf' by (by destruct Hf; split).
  destruct e; eexists; (split; [done|]); [by apply follows_resync|done].
Qed.

Lemma follows_diff_self r i X : follows r i X → follows r i (X ∖ touched i i).
Proof. by rewrite touched_self, difference_empty_L. Qed.

Lemma watchHandler_follows sigs i X n r :
  follows r i X → events_of sigs `prefix_of` drop i events →
  (∀ f, SigOther f ∈ sigs → harmless f) →
  ∃ res j r', watchHandler sigs (version i) n r = Ret (res, version j) r' ∧
    i ≤ j ∧ follows r' j (X ∖ touched i j).
Proof.
  revert i X n r. induction sigs as [|sig sigs IH]; intros i X n r Hf Hpre Hoth.
  { eexists _, i, r. auto using follows_diff_self. }
  assert (∀ f, SigOther f ∈ sigs → harmless f) as Hoth'
    by (intros f Hin; apply Hoth; by right).
  destruct sig as [| |d|ev|should|f]; cbn [watchHandler].
  - eexists _, i, r. auto using follows_diff_self.
  - unfold mbind, st_bind, st_get. destruct (resyncerrc r); [|by apply IH].
    eexists _, i, _. split; [done|]. split; [done|]. by apply follows_resync, follows_diff_self.
  - destruct (_ && _); eexists _, i, r; auto using follows_diff_self.
  - case_bool_decide as Herr; [eexists _, i, r; auto using follows_diff_self|].
    cbn in Hpre. destruct (discarded ev) eqn:Hdisc.
    { rewrite (st_bind_ret _ _ _ _ _ (apply_event_discarded r ev (fo_type _ _ _ Hf) Hdisc Herr)). by apply IH. }
    destruct (drop i events) as [|ev' evs] eqn:Hd; [by apply prefix_nil_not in Hpre|].
    pose proof (prefix_cons_inv_1 _ _ _ _ Hpre) as <-. apply prefix_cons_inv_2 in Hpre.
    assert (events !! i = Some ev) as Hev by (rewrite <-(Nat.add_0_r i), <-lookup_drop, Hd; done).
    destruct (sv_event _ _ Hserver i ev Hev) as ([k Hk] & _).
    destruct (apply_event_follows r i X ev k Hf Hev Hk) as (r1 & Ha & Hf1).
    rewrite (st_bind_ret _ _ _ _ _ Ha).
    destruct (IH (Datatypes.S i) (X ∖ {[k]}) (Datatypes.S n) r1 Hf1) as (res & j & r' & Hw & Hj & Hf'); [|done|].
    { assert (evs = drop (Datatypes.S i) events) as <-; [|done].
      rewrite (drop_S _ _ _ Hev) in Hd. by injection Hd. }
    exists res, j, r'. split; [done|]. split; [lia|].
    rewrite (touched_first i j ev k Hev Hk Hj). by rewrite difference_difference_l_L in Hf'.
  - destruct (resync_follows r i X should Hf) as (r1 & Ha & Hf1).
    rewrite (st_bind_ret _ _ _ _ _ Ha). by apply IH.
  - rewrite (st_bind_ret _ _ _ () (set_store (f (store r)) r)) by done. apply IH; [|done|done].
    destruct Hf. split; try done. cbn. apply (Hoth f); [by left|done].
Qed.

Lemma watch_rounds_follows stopped n k i X r :
  follows r i X → ∃ res j r', watch_rounds stopped Watch n k (version i) r = Ret res r' ∧
    i ≤ j ∧ follows r' j (X ∖ touched i j) ∧ (res = Stopped ∨ res = Watching).
Proof.
  revert k i X r. induction n as [|n IH]; intros k i X r Hf; cbn [watch_rounds];
    [by eexists _, i, r; auto using follows_diff_self|].
  destruct (stopped k); [by eexists _, i, r; auto using follows_diff_self|].
  destruct (Watch k (version i)) as [| |sigs] eqn:Hw;
    [by apply IH|by eexists _, i, r; auto using follows_diff_self|].
  destruct (watchHandler_follows sigs i X 0 r Hf) as (res & j & r1 & Hh & Hj & Hf1).
  - eapply sv_watch; [done|apply Hf|done].
  - intros f Hin. by eapply Hothers.
  - rewrite (st_bind_ret _ _ _ _ _ Hh). destruct res as [[e|]|]; [by eexists _, j, r1; auto| |by eexists _, j, r1; auto].
    destruct (IH (Datatypes.S k) j _ r1 Hf1) as (res & j' & r' & Hr & Hj' & Hf' & Hres).
    exists res, j', r'. split_and!; [done|lia| |done].
    by rewrite (touched_trans i j j'), <-difference_difference_l_L by done.
Qed.

(** After a list at the [j]-th state, the [i]-th state but for what the list missed and
    no later change has reported. *)
Definition follows_list (items : list Obj) (s : S) (v : string) (r : Reflector) : Prop :=
  ∃ j i, v = version j ∧ j ≤ i ∧ follows r i (rs_missed items s ∖ touched j i).

Lemma ListAndWatch_follows stopped n r m0 X0 :
  rs_holds (store r) m0 X0 → expectedType r = expected →
  ∃ res r', ListAndWatch List stopped Watch n r = Ret res r' ∧
    match res, List with
    | ListFailed _, Err _ => r' = r
    | Stopped, Ok (items, v) | Watching, Ok (items, v) => follows_list items (store r) v r'
    | _, _ => False
    end.
Proof.
  intros Hh Ht. pose proof (sv_list _ _ Hserver) as Hlist.
  pose proof (watch_rounds_follows stopped n 0) as Hrounds. clear Hserver.
  unfold ListAndWatch. destruct List as [[items v]|e]; [|by eexists _, _].
  destruct (Hlist items v eq_refl) as (i & Hi & -> & Hk & Hm).
  destruct (rs_Replace_law items (version i) _ _ _ Hh Hk) as (s' & Hr & Hh').
  rewrite (st_bind_ret _ _ _ None (set_store s' r)) by (unfold syncWith, on_store; by rewrite Hr).
  rewrite (st_bind_ret _ _ _ () (setLastSyncResourceVersion (version i) (set_store s' r))) by done.
  rewrite (st_bind_ret _ _ _ () _) by done.
  destruct (Hrounds i (rs_missed items (store r)) (set_resync true None
    (setLastSyncResourceVersion (version i) (set_store s' r)))) as (res & j & r' & Hw & Hj & Hf & Hres).
  { apply follows_resync. split; [by rewrite <-Hm|done|done|done]. }
  rewrite (st_bind_ret _ _ _ _ _ Hw). destruct Hres as [-> | ->]; [|by exists Watching, r'; split; [|exists i, j]].
  eexists _, _. split; [done|]. exists i, j. split_and!; [done..|]. by apply follows_resync.
Qed.
End follows.

Section run.
Context (key : Obj → option string) `{!Store_laws S E Obj key}.
Context (events : list (Event Obj)) (version : nat → string) (expected : option T).

(** A session of [Run] with that server. *)
Definition session_ok (x : session) : Prop :=
  server_ok key events version expected (se_List x) (se_Watch x) ∧ others_ok key (se_Watch x) ∧
  harmless key (se_before x).

(** What [Run] leaves: the reflector follows one of the lists, from the store it met. *)
Definition follows_some (sessions : list session) (r : Reflector) : Prop :=
  ∃ x items v s m X, x ∈ sessions ∧ se_List x = Ok (items, v) ∧ rs_holds s m X ∧
    follows_list key events version expected items s v r.

Lemma follows_some_before x sessions r :
  harmless key (se_before x) → follows_some sessions r →
  follows_some sessions (set_store (se_before x (store r)) r).
Proof.
  intros Hb (y & items & v & s & m & X & Hy & HL & Hs & j & i & -> & Hj & [????]).
  exists y, items, (version j), s, m, X. split_and!; [done..|]. exists j, i. split_and!; [done..|].
  split; [by apply Hb|done..].
Qed.

Lemma Run_follows all sessions r :
  Forall session_ok sessions → sessions ⊆ all → (∃ m X, rs_holds (store r) m X) → expectedType r = expected →
  ∃ r', Run sessions r = Ret () r' ∧
    (follows_some all r ∨ existsb (is_ok ∘ se_List) sessions = true → follows_some all r').
Proof.
  intros Hss. revert r. induction Hss as [|x sessions (Hs & Ho & Hb) _ IH]; intros r Hall (m & X & Hh) Ht.
  { exists r. split; [done|]. by intros [?|?]. }
  cbn [Run existsb]. rewrite (st_bind_ret _ _ _ () (set_store (se_before x (store r)) r)) by done.
  pose proof (follows_some_before x all r Hb) as H0. set (r0 := set_store _ r) in *.
  assert (rs_holds (store r0) m X) as Hh0 by by apply Hb.
  destruct (ListAndWatch_follows key events version expected _ _ Hs Ho (se_stopped x) (se_rounds x) r0 m X)
    as (res & r1 & Hl & Hres); [done|done|].
  assert (sessions ⊆ all) as Hall' by set_solver.
  rewrite (st_bind_ret _ _ _ _ _ Hl). cbn [compose]. destruct (se_List x) as [[items v]|e] eqn:HL.
  - assert (follows_list key events version expected items (store r0) v r1) as Hf by by destruct res.
    assert (follows_some all r1) as Hs1 by (exists x, items, v, (store r0), m, X; split_and!; [set_solver|done..]).
    destruct res; [done|done| |by exists r1]. destruct Hf as (j & i & _ & _ & [Hf1 _ _ Hf4]).
    destruct (IH r1) as (r' & Hr' & Hf'); [done|eauto|done|]. exists r'. split; [done|]. intros _. auto.
  - destruct res; [|done..]. subst r1. destruct (IH r0) as (r' & Hr' & Hf); [done|eauto|done|].
    exists r'. split; [done|]. cbn. intros [?|?]; auto.
Qed.

End run.
End reflector.
