(* ===== verification/ReflectorStore.v ===== *)
(** * A reflector that fills a store
    (k8s.io/client-go/tools/cache/reflector.go, store.go)

    The cache of [Store] is a store for a reflector: it replaces all of its contents with a
    list, so that it misses no key.  [reflector_Run_follows_server] then says that the
    contents of the cache are the server's objects as of the version reported. *)

From S2P Require Import Prelude StringSets ThreadSafeStore Store Reflector.

Section cache_store.
Context {Sto Obj : Type} `{ThreadSafeStore_laws Sto Obj}.
Context (live : Sto → Prop) `{!ThreadSafeStore_live Sto Obj live}.
Context (kf : option Obj → res string string).

Abbreviation cacheT := (cache Sto Obj).
Abbreviation errT := (StoreError Obj + string)%type.

Definition key_error {S A} (m : st S (option A)) : st S (option (A + string)) :=
  r ← m; mret (inl <$> r).

Definition resync_error {S A} (m : st S (option string)) : st S (option (A + string)) :=
  r ← m; mret (inr <$> r).

#[export] Instance cache_store_ops : Store_ops cacheT errT Obj := {|
  rs_Add o := key_error (cache_Add (Some o));
  rs_Update o := key_error (cache_Update (Some o));
  rs_Delete o := key_error (cache_Delete (Some o));
  rs_Replace l _ := key_error (cache_Replace (Some <$> l));
  rs_Resync := resync_error cache_Resync;
|}.

Definition cache_key (o : Obj) : option string := match kf (Some o) with Ok k => Some k | Err _ => None end.

Definition cache_holds (c : cacheT) (m : gmap string Obj) : Prop :=
  live (cacheStorage c) ∧ keyFunc c = kf ∧ tss_contents (cacheStorage c) = Some <$> m.

Lemma cache_key_Some o k : cache_key o = Some k ↔ kf (Some o) = Ok k.
Proof. unfold cache_key. destruct (kf _); naive_solver. Qed.

(** A call with a key: it returns when the storage does. *)
Lemma keyed_call_returns o k m (call : string → st Sto ()) (c : cacheT) :
  keyFunc c = kf → cache_key o = Some k →
  (∃ s', call k (cacheStorage c) = Ret () s' ∧ live s' ∧ tss_contents s' = Some <$> m) →
  ∃ c', key_error (c0 ← st_get;
     match keyFunc c0 (Some o) with
     | Err err => mret (Some (KeyError (Some o) err))
     | Ok key => on_storage (call key) ;; mret None
     end) c = Ret None c' ∧ cache_holds c' m.
Proof.
  intros Hk Ho%cache_key_Some (s' & Hs & Hl & Hc).
  unfold key_error, mbind, st_bind, st_get, on_storage. rewrite Hk, Ho, Hs. cbn.
  eexists. split; [done|]. by split_and!.
Qed.

Lemma listed_items l :
  Forall (λ o, is_Some (cache_key o)) l →
  key_items kf (Some <$> l) ∅ =
  Ok ((Some : Obj → option Obj) <$> (list_to_map (reverse (omap (λ o, (., o) <$> cache_key o) l)) : gmap string Obj)).
Proof.
  intros Hl. rewrite key_items_spec. assert (first_key_error kf (Some <$> l) = None) as ->.
  { induction Hl as [|o l [k Ho%cache_key_Some] _ IH]; [done|]. cbn. by rewrite Ho. }
  f_equal. rewrite (right_id_L ∅ (∪)), <-list_to_map_fmap, fmap_reverse. do 2 f_equal. clear Hl.
  induction l as [|o l IH]; [done|]. cbn. unfold keyed at 1, cache_key at 1. destruct (kf (Some o)); cbn; by rewrite IH.
Qed.

#[export] Instance cache_store_laws : Store_laws cacheT errT Obj cache_key.
Proof.
  refine {| rs_holds c m X := cache_holds c m ∧ X = ∅; rs_missed _ _ := ∅ |}.
  - intros o k c m X [(Hl & Hk & Hc) ->] Ho.
    destruct (live_Add k o _ Hl) as (s' & Hs & Hl'). pose proof (tss_Add_law _ _ _ _ Hs) as Hc'.
    destruct (keyed_call_returns o k (<[k := o]> m) (λ k, tss_Add k (Some o)) c Hk Ho) as (c' & Hr & Hh).
    { exists s'. split_and!; [done..|]. by rewrite Hc', Hc, fmap_insert. }
    exists c'. split; [exact Hr|]. split; [done|set_solver].
  - intros o k c m X [(Hl & Hk & Hc) ->] Ho.
    destruct (live_Update k o _ Hl) as (s' & Hs & Hl'). pose proof (tss_Update_law _ _ _ _ Hs) as Hc'.
    destruct (keyed_call_returns o k (<[k := o]> m) (λ k, tss_Update k (Some o)) c Hk Ho) as (c' & Hr & Hh).
    { exists s'. split_and!; [done..|]. by rewrite Hc', Hc, fmap_insert. }
    exists c'. split; [exact Hr|]. split; [done|set_solver].
  - intros o k c m X [(Hl & Hk & Hc) ->] Ho.
    destruct (live_Delete k _ Hl) as (s' & Hs & Hl'). pose proof (tss_Delete_law _ _ _ Hs) as Hc'.
    destruct (keyed_call_returns o k (delete k m) (tss_Delete (Obj:=Obj)) c Hk Ho) as (c' & Hr & Hh).
    { exists s'. split_and!; [done..|]. by rewrite Hc', Hc, fmap_delete. }
    exists c'. split; [exact Hr|]. split; [done|set_solver].
  - intros l rv c m X [(Hl & Hk & Hc) ->] Hkeys. pose proof (listed_items l Hkeys) as Hits.
    set (m' := list_to_map _) in *. destruct (live_Replace (Some <$> m') _ Hl) as (s' & Hs & Hl').
    { intros k o. rewrite lookup_fmap. intros (x & _ & ->)%fmap_Some. by eexists. }
    eexists. split.
    + cbn [rs_Replace cache_store_ops]. unfold key_error, cache_Replace, mbind, st_bind, st_get, on_storage.
      rewrite Hk, Hits, Hs. reflexivity.
    + split; [|done]. split_and!; [done..|]. by apply tss_Replace_law in Hs.
  - intros c m X [(Hl & Hk & Hc) ->]. pose proof (live_Resync _ Hl) as Hs. eexists _, None.
    split; [|split; [|reflexivity]].
    + cbn [rs_Resync cache_store_ops]. unfold resync_error, cache_Resync, mbind, st_bind, on_storage.
      rewrite Hs. reflexivity.
    + by split_and!.
Defined.
End cache_store.

(** ** A server of four changes, for the witnesses *)
Definition rex_events : list (Event (string * string)) :=
  [Build_Event _ WatchAdded ("a", "1"); Build_Event _ WatchModified ("a", "2");
   Build_Event _ WatchAdded ("b", "3"); Build_Event _ WatchDeleted ("a", "4")].

Definition rex_version (i : nat) : string := nth i ["0"; "1"; "2"; "3"; "4"] "".

Section witness.
Abbreviation robj := (string * string)%type.
Abbreviation rcache := (cache (threadSafeMap robj) robj).
#[local] Instance rex_tss_ops : ThreadSafeStore_ops (threadSafeMap robj) robj :=
  threadSafeMap_ops map_to_list map_to_list map_to_list elements.
#[local] Instance rex_tss_laws : ThreadSafeStore_laws (threadSafeMap robj) robj :=
  threadSafeMap_laws map_to_list map_to_list map_to_list elements.
#[local] Instance rex_tss_live : ThreadSafeStore_live (threadSafeMap robj) robj indexed_objects :=
  threadSafeMap_live map_to_list map_to_list map_to_list elements.

Definition rex_key (o : option robj) : res string string :=
  match o with Some o => Ok o.1 | None => Err "nil" end.

(** A first watch that ends after one event and a closed channel, then one that an error
    event breaks off. *)
Definition rex_Watch (n : nat) (v : string) : watch_start (S:=rcache) (Obj:=robj) :=
  if String.eqb v "1" then
    match n with
    | O => WatchStarted [SigResync true; SigEvent (Build_Event _ WatchModified ("a", "2")); SigClosed 5]
    | _ => WatchRefused
    end
  else if String.eqb v "2" then
    WatchStarted [SigEvent (Build_Event _ WatchAdded ("b", "3")); SigEvent (Build_Event _ WatchError ("", ""))]
  else WatchFailed.

Definition rex_reflector : Reflector (S:=rcache) (E:=StoreError robj + string) (T:=nat) :=
  NewNamedReflector (Some 0) (NewStore rex_key) 10.

Lemma rex_server List :
  (List = Ok ([("a", "1")], "1") ∨ is_ok List = false) →
  server_ok (λ _, 0) (λ o, Some o.2) (cache_key rex_key) rex_events rex_version (Some 0) List rex_Watch.
Proof.
  intros HL. split.
  - intros i ev Hi. repeat (destruct i as [|i]; [injection Hi as <-; split_and!; naive_solver|]). done.
  - intros items v Hv. destruct HL as [HL|HL]; rewrite Hv in HL; [|done]. injection HL as -> ->.
    exists 1. split_and!; [cbn; lia|done|by repeat constructor|reflexivity].
  - intros n i sigs Hi Hw. destruct i as [|[|[|[|[|i]]]]]; cbn in Hw; [done| | |done..|cbn in Hi; lia].
    + destruct n; [|done]. injection Hw as <-. by eexists [_; _].
    + injection Hw as <-. by eexists [_].
Qed.

Lemma rex_others : others_ok (S:=rcache) (cache_key rex_key) rex_Watch.
Proof.
  intros n v sigs f Hw Hin. unfold rex_Watch in Hw.
  destruct (String.eqb v "1"); [destruct n|destruct (String.eqb v "2")]; simplify_eq; exfalso; clear -Hin;
    by repeat (apply elem_of_cons in Hin as [Hin|Hin]; [discriminate Hin|]); apply not_elem_of_nil in Hin.
Qed.

(** A list that fails, a session that an error event ends, a list that fails again. *)
Definition rex_sessions : list (session (S:=rcache) (Obj:=robj)) :=
  (λ L, {| se_before := id; se_List := L; se_stopped := λ _, false; se_Watch := rex_Watch; se_rounds := 3 |}) <$>
  [Err "timeout"; Ok ([("a", "1")], "1"); Err "timeout"].

End witness.
