(* ===== verification/ReflectorInformer.v ===== *)
(** * A reflector that feeds an informer
    (k8s.io/client-go/tools/cache/reflector.go, controller.go, delta_fifo.go)

    The store of an informer's reflector is its [DeltaFIFO], whose known objects are the
    indexer that the processing loop maintains.  The queue together with that client is
    an instance of the interface of [Reflector]: it stands for the objects the events
    have reported so far, which is what [Informer] proves of every run.  The rounds of
    the processing loop are what else acts on the store. *)

From S2P Require Import Prelude StringSets ObjectKeys ThreadSafeStore Store DeltaFifo Informer Reflector ReflectorStore.

Section composition.
Context {Sto Obj P T : Type} `{ThreadSafeStore_laws Sto (dyn Obj)} `{EqDecision T}.
Context (meta : Obj → meta_obj) (notify : notification Obj → bool → P → P).
Context (rng : gmap string (list (Delta (dyn Obj))) → list (string * list (Delta (dyn Obj)))) (p0 : P).

Abbreviation clientT := (client (Sto:=Sto) (Obj:=Obj) (P:=P)).
Abbreviation queueT := (DeltaFIFO Obj clientT).
Abbreviation errorT := (DeltaFifo.error (Obj:=Obj)).

Definition on_queue (call : clientT → queueT → option errorT * queueT) :
    st (queueT * clientT) (option errorT) := λ '(f, w),
  let '(err, f') := call w f in Ret err (f', w).

#[export] Instance informer_store_ops : Store_ops (queueT * clientT) errorT Obj := {|
  rs_Add o := on_queue (λ _, DeltaFifo.Add (Some (Plain o)));
  rs_Update o := on_queue (λ _, DeltaFifo.Update (Some (Plain o)));
  rs_Delete o := on_queue (λ w, DeltaFifo.Delete w (Some (Plain o)));
  rs_Replace l _ := on_queue (λ w, DeltaFifo.Replace rng w (Some ∘ Plain <$> l));
  rs_Resync := on_queue DeltaFifo.Resync;
|}.

Definition object_key (o : Obj) : option string :=
  match objectKey meta (Some (Plain o)) with Ok k => Some k | Err _ => None end.

(** The objects of a server as the queue reports them. *)
Definition as_ifaces (m : gmap string Obj) : gmap string (option (dyn Obj)) :=
  (Some ∘ Plain : Obj → option (dyn Obj)) <$> m.

Lemma object_key_Some o k : object_key o = Some k ↔ objectKey meta (Some (Plain o)) = Ok k.
Proof. unfold object_key. destruct (objectKey _ _); naive_solver. Qed.

(** ** The calls return without error *)

Lemma put_no_error t (f : queueT) (w : clientT) T' o k :
  (t = Added ∨ t = Updated) → informer_inv meta f w T' → objectKey meta (Some (Plain o)) = Ok k →
  (queueActionLocked t (Some (Plain o)) (set_populated f)).1 = None.
Proof.
  intros Ht Hi Hk. eapply (pend_queueAction meta t _ _ w T' k); [|exact Hk|naive_solver].
  by apply (informer_inv_store meta f).
Qed.

Lemma delete_no_error (f : queueT) (w : clientT) T' o k :
  informer_inv meta f w T' → objectKey meta (Some (Plain o)) = Ok k →
  (DeltaFifo.Delete w (Some (Plain o)) f).1 = None.
Proof.
  intros Hi Hk. unfold DeltaFifo.Delete, KeyOf. rewrite (ii_key _ _ _ _ Hi). cbn. rewrite Hk.
  apply (informer_inv_store meta f (set_populated f)) in Hi; [|done..].
  pose proof (pend_queueAction meta Deleted (Some (Plain o)) _ w T' k Hi Hk) as [Hn _]; [naive_solver|].
  pose proof (ii_known _ _ _ _ Hi) as Hko. cbn in Hko. rewrite Hko. cbn zeta.
  destruct (ko_GetByKey _ _ _) as [[? ?] ?]. by destruct (_ && _).
Qed.

(** ** The queue of an informer is a store for a reflector *)

Lemma on_queue_reach call e f w m X m' :
  reach meta notify p0 f w (as_ifaces m) X → event_ok meta e →
  run_event notify rng e (f, w) = Ret () ((call w f).2, w) →
  server_view meta e (as_ifaces m) = as_ifaces m' → (call w f).1 = None →
  ∃ s', on_queue call (f, w) = Ret None s' ∧
    reach meta notify p0 s'.1 s'.2 (as_ifaces m') (stale_view meta e f w X).
Proof.
  intros Hr He Hrun Hv Herr. unfold on_queue. destruct (call w f) as [err f'] eqn:Hc.
  cbn in Herr, Hrun. subst err. exists (f', w). split; [done|]. rewrite <-Hv. by eapply reach_event.
Qed.

Lemma listed_objects l :
  list_to_map (reverse (omap (keyed (objectKey meta)) (Some ∘ Plain <$> l))) =
  as_ifaces (list_to_map (reverse (omap (λ o, (., o) <$> object_key o) l))).
Proof.
  unfold as_ifaces. rewrite <-list_to_map_fmap, fmap_reverse. do 2 f_equal.
  induction l as [|o l IH]; [done|]. rewrite fmap_cons. cbn -[keyed fmap object_key].
  unfold keyed at 1, object_key at 1. cbn.
  destruct (objectKey meta (Some (Plain o))); cbn; by rewrite IH.
Qed.

#[export] Instance informer_store_laws : Store_laws (queueT * clientT) errorT Obj object_key.
Proof.
  refine {| rs_holds fw m X := reach meta notify p0 fw.1 fw.2 (as_ifaces m) X;
            rs_missed l fw := missed meta l fw.1 fw.2 |}.
  - intros o k [f w] m X Hr Hk%object_key_Some. destruct (reach_inv _ _ _ _ _ _ _ Hr) as [(V & Hi & _) _].
    assert (stale_view meta (EAdd o) f w X = X ∖ {[k]}) as <- by (cbn; by rewrite Hk).
    eapply (on_queue_reach _ (EAdd o)); [done..| |by eapply put_no_error; [left| |]].
    cbn [server_view]. rewrite Hk. unfold as_ifaces. by rewrite fmap_insert.
  - intros o k [f w] m X Hr Hk%object_key_Some. destruct (reach_inv _ _ _ _ _ _ _ Hr) as [(V & Hi & _) _].
    assert (stale_view meta (EUpdate o) f w X = X ∖ {[k]}) as <- by (cbn; by rewrite Hk).
    eapply (on_queue_reach _ (EUpdate o)); [done..| |by eapply put_no_error; [right| |]].
    cbn [server_view]. rewrite Hk. unfold as_ifaces. by rewrite fmap_insert.
  - intros o k [f w] m X Hr Hk%object_key_Some. destruct (reach_inv _ _ _ _ _ _ _ Hr) as [(V & Hi & _) _].
    assert (stale_view meta (EDelete o) f w X = X ∖ {[k]}) as <- by (cbn; by rewrite Hk).
    eapply (on_queue_reach _ (EDelete o)); [done..| |by eapply delete_no_error].
    cbn [server_view]. rewrite Hk. unfold as_ifaces. by rewrite fmap_delete.
  - intros l rv [f w] m X Hr Hkeys. destruct (reach_inv _ _ _ _ _ _ _ Hr) as [(V & Hi & _) _].
    assert (∀ o, o ∈ l → is_ok (objectKey meta (Some (Plain o))) = true) as Hl.
    { intros o Ho. rewrite Forall_forall in Hkeys. destruct (Hkeys o Ho) as [k Hk%object_key_Some]. by rewrite Hk. }
    eapply (on_queue_reach _ (EReplace l)); [done..| |by apply (relist_inv meta rng l f w V Hi Hl)].
    apply listed_objects.
  - intros [f w] m X Hr. cbn [rs_Resync informer_store_ops on_queue].
    destruct (DeltaFifo.Resync w f) as [e f'] eqn:Hs. eexists (f', w), e. split; [done|].
    eapply (reach_event meta notify p0 f w _ X EResync rng); [done..|]. cbn. by rewrite Hs.
Defined.

(** A round of the processing loop; a panic ends the program. *)
Definition informer_round (fw : queueT * clientT) : queueT * clientT :=
  match process_one notify fw with Ret _ fw' => fw' | Panic _ => fw end.

Lemma informer_round_harmless : harmless object_key informer_round.
Proof.
  intros [f w] m X Hr. unfold informer_round.
  destruct (process_one notify (f, w)) as [r [f' w']|] eqn:Hp; [|done].
  eapply (reach_event meta notify p0 f w _ X EPop rng); [done..|]. cbn.
  unfold mbind, st_bind. by rewrite Hp.
Qed.

(** What a server reports are objects. *)
Lemma reach_objects (f : queueT) (w : clientT) V X :
  reach meta notify p0 f w V X → ∃ m, V = as_ifaces m.
Proof.
  induction 1 as [w _ _ _|f w V X e rng' f' w' _ [m ->] _ _].
  - exists ∅. unfold as_ifaces. by rewrite fmap_empty.
  - destruct e as [o|o|o|l| |]; cbn [server_view]; [..|by eauto|by eauto].
    + destruct (objectKey meta (Some (Plain o))) as [k|]; [|by eauto].
      exists (<[k := o]> m). unfold as_ifaces. by rewrite fmap_insert.
    + destruct (objectKey meta (Some (Plain o))) as [k|]; [|by eauto].
      exists (<[k := o]> m). unfold as_ifaces. by rewrite fmap_insert.
    + destruct (objectKey meta (Some (Plain o))) as [k|]; [|by eauto].
      exists (delete k m). unfold as_ifaces. by rewrite fmap_delete.
    + eexists. apply listed_objects.
Qed.

(** [C1] From the API server to the informer's store: a reflector that lists and watches
    into the queue of an informer that any run has led to, with the rounds of the
    informer's processing loop interleaved at will and through watches that are refused,
    closed, resumed or broken off by an error event, returns or waits in a state that is
    again one of a run, where the informer's store with the pending deltas applied is the
    server's state as of the resource version the reflector reports, but for exactly the
    keys that the list missed and no later change has reported.  A list that comes to an
    empty queue misses none.  Whenever the queue is empty, the store is that state. *)
Theorem reflector_drives_informer (typeOf : Obj → T) (accessor : Obj → option string)
    (events : list (Event Obj)) (version : nat → string) (expected : option T)
    (items : list Obj) (v : string) (Watch : nat → string → watch_start)
    (stopped : nat → bool) (n : nat) (r : Reflector) (f : queueT) (w : clientT) V X :
  server_ok (S:=queueT * clientT) typeOf accessor object_key events version expected (Ok (items, v)) Watch →
  (∀ i v sigs g, Watch i v = WatchStarted sigs → SigOther g ∈ sigs → g = informer_round) →
  reach meta notify p0 f w V X → store r = (f, w) → expectedType r = expected →
  ∃ res r' f' w' j i, ListAndWatch typeOf accessor (Ok (items, v)) stopped Watch n r = Ret res r' ∧
    store r' = (f', w') ∧ v = version j ∧ j ≤ i ∧ i ≤ length events ∧ LastSyncResourceVersion r' = version i ∧
    let server := as_ifaces (state_at object_key events i) in
    let stale := missed meta items f w ∖ touched object_key events j i in
    reach meta notify p0 f' w' server stale ∧
    (∀ k, settle (pend f' k) (contents w' !! k) = server !! k ↔ k ∉ stale) ∧
    (queue f' = [] → ∀ k, contents w' !! k = server !! k ↔ k ∉ stale) ∧
    (queue f = [] → stale = ∅).
Proof.
  intros Hs Ho Hr Hst Ht. destruct (reach_objects f w V X Hr) as [m ->].
  destruct (ListAndWatch_follows typeOf accessor object_key events version expected (Ok (items, v)) Watch Hs)
    with (stopped := stopped) (n := n) (r := r) (m0 := m) (X0 := X) as (res & r' & Hrun & Hres).
  - intros i v' sigs g Hw Hg. rewrite (Ho i v' sigs g Hw Hg). apply informer_round_harmless.
  - by rewrite Hst.
  - done.
  - assert (follows_list object_key events version expected items (store r) v r') as (j & i & -> & Hj & [Hh Hv Hb _])
      by by destruct res.
    rewrite Hst in Hh. destruct (store r') as [f' w'] eqn:Hst'. cbn in Hh.
    exists res, r', f', w', j, i. split_and!; [done..|]. intros server stale.
    destruct (informer_view _ _ _ _ _ _ _ Hh) as [H1 H2]. split_and!; [done..|].
    intros Hq. unfold stale, missed. rewrite Hq. set_solver.
Qed.
End composition.

(** ** A concrete server and informer, for the witness *)
Section witness.
Abbreviation cobj := (string * string)%type.
#[local] Instance cex_ops : ThreadSafeStore_ops (threadSafeMap (dyn cobj)) (dyn cobj) :=
  threadSafeMap_ops map_to_list map_to_list map_to_list elements.
#[local] Instance cex_laws : ThreadSafeStore_laws (threadSafeMap (dyn cobj)) (dyn cobj) :=
  threadSafeMap_laws map_to_list map_to_list map_to_list elements.

Definition cex_meta (o : cobj) : meta_obj := ApiObject "ns" o.1.

Definition cex_notify (n : notification cobj) (b : bool) (log : list (notification cobj * bool)) :=
  log ++ [(n, b)].

Abbreviation cex_client_type :=
  (client (Sto:=threadSafeMap (dyn cobj)) (Obj:=cobj) (P:=list (notification cobj * bool))).

Definition cex_client : cex_client_type :=
  {| indexer := NewStore (DeletionHandlingMetaNamespaceKeyFunc cex_meta); sink := [] |}.

#[local] Instance cex_store_ops : Store_ops (DeltaFIFO cobj cex_client_type * cex_client_type)
  (DeltaFifo.error (Obj:=cobj)) cobj := informer_store_ops map_to_list.

(** The list at version 1, one event, a round of the loop, a resync; then a watch that
    is resumed at version 2, brings a deletion and ends in an error. *)
Definition cex_Watch (n : nat) (v : string) :
    watch_start (S:=DeltaFIFO cobj cex_client_type * cex_client_type) (Obj:=cobj) :=
  if String.eqb v "1" then
    WatchStarted [SigOther (informer_round cex_notify); SigEvent (Build_Event _ WatchModified ("a", "2"));
                  SigResync true; SigClosed 2000000000]
  else if String.eqb v "2" then
    WatchStarted [SigEvent (Build_Event _ WatchAdded ("b", "3")); SigOther (informer_round cex_notify);
                  SigEvent (Build_Event _ WatchDeleted ("a", "4")); SigEvent (Build_Event _ WatchError ("", ""))]
  else WatchFailed.

Lemma cex_server :
  server_ok (S:=DeltaFIFO cobj cex_client_type * cex_client_type) (λ _, 0) (λ o, Some o.2)
    (object_key cex_meta) rex_events rex_version (Some 0) (Ok ([("a", "1")], "1")) cex_Watch.
Proof.
  split.
  - intros i ev Hi. repeat (destruct i as [|i]; [injection Hi as <-; split_and!; naive_solver|]). done.
  - intros items v [= <- <-]. exists 1. split_and!; [cbn; lia|done|by repeat constructor|reflexivity].
  - intros n i sigs Hi Hw. destruct i as [|[|[|[|[|i]]]]]; cbn in Hw; [done| | |done..|cbn in Hi; lia].
    + injection Hw as <-. by eexists [_; _].
    + injection Hw as <-. by eexists [].
Qed.

Lemma cex_others n v sigs g :
  cex_Watch n v = WatchStarted sigs → SigOther g ∈ sigs → g = informer_round cex_notify.
Proof.
  intros Hw Hin. unfold cex_Watch in Hw.
  destruct (String.eqb v "1"); [|destruct (String.eqb v "2")]; simplify_eq; clear -Hin;
    repeat (apply elem_of_cons in Hin as [Hin|Hin]; [try discriminate Hin; by injection Hin|]);
    by apply not_elem_of_nil in Hin.
Qed.

(** An informer in the middle of a run: an object waits to be added that the server does
    not have any more. *)
Definition cex_queue : DeltaFIFO cobj cex_client_type :=
  (DeltaFifo.Add (Some (Plain ("z", "0"))) (informer_queue cex_meta)).2.

Lemma cex_reach :
  reach cex_meta cex_notify [] cex_queue cex_client
    (server_view cex_meta (EAdd ("z", "0")) ∅) (∅ ∖ {["ns/z"]}).
Proof.
  eapply (reach_event cex_meta cex_notify [] (informer_queue cex_meta) cex_client ∅ ∅ (EAdd ("z", "0")) map_to_list);
    [by apply reach_init|done|reflexivity].
Qed.

Lemma reflector_drives_informer_witness : ∃ res r' f' w' i,
  ListAndWatch (λ _, 0) (λ o, Some o.2) (Ok ([("a", "1")], "1")) (λ _, false) cex_Watch 2
    (NewNamedReflector (Some 0) (cex_queue, cex_client) 10) = Ret res r' ∧ store r' = (f', w') ∧
  LastSyncResourceVersion r' = rex_version i ∧ LastSyncResourceVersion r' = "4" ∧
  missed cex_meta [("a", "1")] cex_queue cex_client = {["ns/z"]}.
Proof.
  destruct (reflector_drives_informer (T:=nat) cex_meta cex_notify map_to_list [] (λ _, 0) (λ o, Some o.2)
    rex_events rex_version (Some 0) [("a", "1")] "1" cex_Watch (λ _, false) 2
    (NewNamedReflector (Some 0) (cex_queue, cex_client) 10) cex_queue cex_client _ _
    cex_server cex_others cex_reach eq_refl eq_refl)
    as (res & r' & f' & w' & j & i & Hr & Hst & _ & _ & _ & Hv & _).
  exists res, r', f', w', i. split; [exact Hr|]. split; [exact Hst|]. split; [exact Hv|].
  split; [|vm_compute; reflexivity].
  match type of Hr with ?run = _ =>
    assert (LastSyncResourceVersion (final run) = "4") as H1 by (vm_compute; reflexivity) end.
  rewrite Hr in H1. exact H1.
Defined.
End witness.
