(* ===== verification/Validation.v ===== *)
(** * Validation of names (k8s.io/apimachinery/pkg/util/validation/validation.go)

    A validator returns the list of its complaints, empty for a valid value.  The formats
    are regular expressions; matching is by derivatives, on bytes (every class of the
    formats is ASCII, so a byte of a longer encoding is in none of them). *)

From Stdlib Require Import Ascii.
From stdpp Require Import pretty.
From S2P Require Import Prelude ObjectKeys.

(** ** Regular expressions *)
Inductive regex : Type :=
| REmpty
| REps
| RChars (f : ascii → bool)
| RCat (r1 r2 : regex)
| RAlt (r1 r2 : regex)
| RStar (r : regex).

Definition ROpt (r : regex) : regex := RAlt r REps.
Definition RPlus (r : regex) : regex := RCat r (RStar r).

Fixpoint nullable (r : regex) : bool :=
  match r with
  | REmpty | RChars _ => false
  | REps | RStar _ => true
  | RCat r1 r2 => nullable r1 && nullable r2
  | RAlt r1 r2 => nullable r1 || nullable r2
  end.

Fixpoint deriv (c : ascii) (r : regex) : regex :=
  match r with
  | REmpty | REps => REmpty
  | RChars f => if f c then REps else REmpty
  | RCat r1 r2 =>
    if nullable r1 then RAlt (RCat (deriv c r1) r2) (deriv c r2) else RCat (deriv c r1) r2
  | RAlt r1 r2 => RAlt (deriv c r1) (deriv c r2)
  | RStar r => RCat (deriv c r) (RStar r)
  end.

Fixpoint matches (r : regex) (l : list ascii) : bool :=
  match l with
  | [] => nullable r
  | c :: l' => matches (deriv c r) l'
  end.

Definition chars (s : string) : list ascii := String.list_ascii_of_string s.

(** [MatchString] of a pattern anchored at both ends. *)
Definition MatchString (r : regex) (s : string) : bool := matches r (chars s).

(** ** Character classes *)
Definition in_range (lo hi : N) (c : ascii) : bool :=
  bool_decide (lo ≤ N_of_ascii c)%N && bool_decide (N_of_ascii c ≤ hi)%N.
Definition is_lower : ascii → bool := in_range 97 122.
Definition is_upper : ascii → bool := in_range 65 90.
Definition is_digit : ascii → bool := in_range 48 57.
Definition is_char (x : ascii) (c : ascii) : bool := bool_decide (c = x).

Definition qnameChar (c : ascii) : bool := is_upper c || is_lower c || is_digit c.
Definition qnameExtChar (c : ascii) : bool := qnameChar c || is_char "-" c || is_char "_" c || is_char "." c.
Definition lower_digit (c : ascii) : bool := is_lower c || is_digit c.
Definition dnsChar (c : ascii) : bool := lower_digit c || is_char "-" c.

Definition qualifiedName : regex :=
  RCat (ROpt (RCat (RChars qnameChar) (RStar (RChars qnameExtChar)))) (RChars qnameChar).
Definition labelValue : regex := ROpt qualifiedName.
Definition dns1123Label : regex :=
  RCat (RChars lower_digit) (ROpt (RCat (RStar (RChars dnsChar)) (RChars lower_digit))).
Definition dns1123Subdomain : regex :=
  RCat dns1123Label (RStar (RCat (RChars (is_char ".")) dns1123Label)).
Definition dns1035Label : regex :=
  RCat (RChars is_lower) (ROpt (RCat (RStar (RChars dnsChar)) (RChars lower_digit))).
Definition wildcardDNS1123Subdomain : regex :=
  RCat (RChars (is_char "*")) (RCat (RChars (is_char ".")) dns1123Subdomain).
Definition cIdentifier : regex :=
  RCat (RChars (λ c, is_upper c || is_lower c || is_char "_" c)) (RStar (RChars (λ c, qnameChar c || is_char "_" c))).
Definition percent : regex := RCat (RPlus (RChars is_digit)) (RChars (is_char "%")).
Definition httpHeaderName : regex := RPlus (RChars (λ c, qnameChar c || is_char "-" c)).
Definition envVarChar (c : ascii) : bool := is_char "-" c || is_char "." c || is_char "_" c || is_lower c || is_upper c.
Definition envVarName : regex := RCat (RChars envVarChar) (RStar (RChars (λ c, envVarChar c || is_digit c))).
Definition configMapKey : regex := RPlus (RChars (λ c, envVarChar c || is_digit c)).
Definition portNameCharset : regex := RPlus (RChars dnsChar).
(** Not anchored. *)
Definition portNameOneLetter : regex :=
  RCat (RStar (RChars (λ _, true))) (RCat (RChars is_lower) (RStar (RChars (λ _, true)))).

(** ** The texts of the formats and of the complaints *)
Definition qnameCharFmt : string := "[A-Za-z0-9]".
Definition qnameExtCharFmt : string := "[-A-Za-z0-9_.]".
Definition qualifiedNameFmt : string := "(" +:+ qnameCharFmt +:+ qnameExtCharFmt +:+ "*)?" +:+ qnameCharFmt.
Definition qualifiedNameErrMsg : string :=
  "must consist of alphanumeric characters, '-', '_' or '.', and must start and end with an alphanumeric character".
Definition qualifiedNameMaxLength : nat := 63.
Definition labelValueFmt : string := "(" +:+ qualifiedNameFmt +:+ ")?".
Definition labelValueErrMsg : string :=
  "a valid label must be an empty string or consist of alphanumeric characters, '-', '_' or '.', and must start and end with an alphanumeric character".
Definition LabelValueMaxLength : nat := 63.
Definition dns1123LabelFmt : string := "[a-z0-9]([-a-z0-9]*[a-z0-9])?".
Definition dns1123LabelErrMsg : string :=
  "a DNS-1123 label must consist of lower case alphanumeric characters or '-', and must start and end with an alphanumeric character".
Definition DNS1123LabelMaxLength : nat := 63.
Definition dns1123SubdomainFmt : string := dns1123LabelFmt +:+ "(\." +:+ dns1123LabelFmt +:+ ")*".
Definition dns1123SubdomainErrorMsg : string :=
  "a DNS-1123 subdomain must consist of lower case alphanumeric characters, '-' or '.', and must start and end with an alphanumeric character".
Definition DNS1123SubdomainMaxLength : nat := 253.
Definition dns1035LabelFmt : string := "[a-z]([-a-z0-9]*[a-z0-9])?".
Definition dns1035LabelErrMsg : string :=
  "a DNS-1035 label must consist of lower case alphanumeric characters or '-', start with an alphabetic character, and end with an alphanumeric character".
Definition DNS1035LabelMaxLength : nat := 63.
Definition wildcardDNS1123SubdomainFmt : string := "\*\." +:+ dns1123SubdomainFmt.
Definition wildcardDNS1123SubdomainErrMsg : string :=
  "a wildcard DNS-1123 subdomain must start with '*.', followed by a valid DNS subdomain, which must consist of lower case alphanumeric characters, '-' or '.' and end with an alphanumeric character".
Definition cIdentifierFmt : string := "[A-Za-z_][A-Za-z0-9_]*".
Definition identifierErrMsg : string :=
  "a valid C identifier must start with alphabetic character or '_', followed by a string of alphanumeric characters or '_'".
Definition percentFmt : string := "[0-9]+%".
Definition percentErrMsg : string :=
  "a valid percent string must be a numeric string followed by an ending '%'".
Definition httpHeaderNameFmt : string := "[-A-Za-z0-9]+".
Definition httpHeaderNameErrMsg : string :=
  "a valid HTTP header must consist of alphanumeric characters or '-'".
Definition envVarNameFmt : string := "[-._a-zA-Z][-._a-zA-Z0-9]*".
Definition envVarNameFmtErrMsg : string :=
  "a valid environment variable name must consist of alphabetic characters, digits, '_', '-', or '.', and must not start with a digit".
Definition configMapKeyFmt : string := "[-._a-zA-Z0-9]+".
Definition configMapKeyErrMsg : string :=
  "a valid config key must consist of alphanumeric characters, '-', '_' or '.'".

Definition MaxLenError (length : nat) : string := "must be no more than " +:+ pretty length +:+ " characters".

Fixpoint regex_examples (first : bool) (examples : list string) : string :=
  match examples with
  | [] => ""
  | e :: examples' => (if first then "" else " or ") +:+ "'" +:+ e +:+ "', " +:+ regex_examples false examples'
  end.

Definition RegexError (msg fmt : string) (examples : list string) : string :=
  match examples with
  | [] => msg +:+ " (regex used for validation is '" +:+ fmt +:+ "')"
  | _ => msg +:+ " (e.g. " +:+ regex_examples true examples +:+ "regex used for validation is '" +:+ fmt +:+ "')"
  end.

Definition EmptyError : string := "must be non-empty".
Definition prefixEach (msgs : list string) (prefix : string) : list string := String.append prefix <$> msgs.
Definition InclusiveRangeError (lo hi : Z) : string :=
  "must be between " +:+ pretty lo +:+ " and " +:+ pretty hi +:+ ", inclusive".

(** ** Validators *)
Definition too_long (max : nat) (value : string) : list string :=
  if bool_decide (max < String.length value) then [MaxLenError max] else [].
Definition unless_match (r : regex) (err : string) (value : string) : list string :=
  if negb (MatchString r value) then [err] else [].

Definition IsDNS1123Label (value : string) : list string :=
  too_long DNS1123LabelMaxLength value ++
  unless_match dns1123Label (RegexError dns1123LabelErrMsg dns1123LabelFmt ["my-name"; "123-abc"]) value.

Definition IsDNS1123Subdomain (value : string) : list string :=
  too_long DNS1123SubdomainMaxLength value ++
  unless_match dns1123Subdomain (RegexError dns1123SubdomainErrorMsg dns1123SubdomainFmt ["example.com"]) value.

Definition IsDNS1035Label (value : string) : list string :=
  too_long DNS1035LabelMaxLength value ++
  unless_match dns1035Label (RegexError dns1035LabelErrMsg dns1035LabelFmt ["my-name"; "abc-123"]) value.

Definition IsWildcardDNS1123Subdomain (value : string) : list string :=
  too_long DNS1123SubdomainMaxLength value ++
  unless_match wildcardDNS1123Subdomain
    (RegexError wildcardDNS1123SubdomainErrMsg wildcardDNS1123SubdomainFmt ["*.example.com"]) value.

Definition name_part (name : string) : list string :=
  (if bool_decide (String.length name = 0) then ["name part " +:+ EmptyError]
   else if bool_decide (qualifiedNameMaxLength < String.length name)
        then ["name part " +:+ MaxLenError qualifiedNameMaxLength] else []) ++
  unless_match qualifiedName
    ("name part " +:+ RegexError qualifiedNameErrMsg qualifiedNameFmt ["MyName"; "my.name"; "123-abc"]) name.

Definition IsQualifiedName (value : string) : list string :=
  match Split "/" value with
  | [name] => name_part name
  | [prefix; name] =>
    (if bool_decide (String.length prefix = 0) then ["prefix part " +:+ EmptyError]
     else let msgs := IsDNS1123Subdomain prefix in
          if bool_decide (length msgs ≠ 0) then prefixEach msgs "prefix part " else []) ++
    name_part name
  | _ => ["a qualified name " +:+
          RegexError qualifiedNameErrMsg qualifiedNameFmt ["MyName"; "my.name"; "123-abc"] +:+
          " with an optional DNS subdomain prefix and '/' (e.g. 'example.com/MyName')"]
  end.

Definition IsValidLabelValue (value : string) : list string :=
  too_long LabelValueMaxLength value ++
  unless_match labelValue (RegexError labelValueErrMsg labelValueFmt ["MyValue"; "my_value"; "12345"]) value.

Definition IsCIdentifier (value : string) : list string :=
  unless_match cIdentifier (RegexError identifierErrMsg cIdentifierFmt ["my_name"; "MY_NAME"; "MyName"]) value.

Definition IsInRange (value min max : Z) : list string :=
  if bool_decide (min ≤ value)%Z && bool_decide (value ≤ max)%Z then [] else [InclusiveRangeError min max].

Definition IsValidPortNum (port : Z) : list string :=
  if bool_decide (1 ≤ port)%Z && bool_decide (port ≤ 65535)%Z then [] else [InclusiveRangeError 1 65535].

Definition maxUserID : Z := 2147483647.
Definition maxGroupID : Z := 2147483647.

Definition IsValidGroupID (gid : Z) : list string :=
  if bool_decide (0 ≤ gid)%Z && bool_decide (gid ≤ maxGroupID)%Z then [] else [InclusiveRangeError 0 maxGroupID].

Definition IsValidUserID (uid : Z) : list string :=
  if bool_decide (0 ≤ uid)%Z && bool_decide (uid ≤ maxUserID)%Z then [] else [InclusiveRangeError 0 maxUserID].

(** [strings.Contains(port, "--")] *)
Fixpoint double_hyphen (l : list ascii) : bool :=
  match l with
  | [] => false
  | c :: l' => (is_char "-" c && bool_decide (head l' = Some "-"%char)) || double_hyphen l'
  end.

Definition IsValidPortName (port : string) : list string :=
  too_long 15 port ++
  unless_match portNameCharset "must contain only alpha-numeric characters (a-z, 0-9), and hyphens (-)" port ++
  unless_match portNameOneLetter "must contain at least one letter or number (a-z, 0-9)" port ++
  (if double_hyphen (chars port) then ["must not contain consecutive hyphens"] else []) ++
  (if bool_decide (head (chars port) = Some "-"%char) || bool_decide (last (chars port) = Some "-"%char)
   then ["must not begin or end with a hyphen"] else []).

Definition IsValidPercent (p : string) : list string :=
  unless_match percent (RegexError percentErrMsg percentFmt ["1%"; "93%"]) p.

Definition IsHTTPHeaderName (value : string) : list string :=
  unless_match httpHeaderName (RegexError httpHeaderNameErrMsg httpHeaderNameFmt ["X-Header-Name"]) value.

Definition hasChDirPrefix (value : string) : list string :=
  if String.eqb value "." then ["must not be '.'"]
  else if String.eqb value ".." then ["must not be '..'"]
  else if String.prefix ".." value then ["must not start with '..'"]
  else [].

Definition IsEnvVarName (value : string) : list string :=
  unless_match envVarName
    (RegexError envVarNameFmtErrMsg envVarNameFmt ["my.env-name"; "MY_ENV.NAME"; "MyEnvName1"]) value ++
  hasChDirPrefix value.

Definition IsConfigMapKey (value : string) : list string :=
  too_long DNS1123SubdomainMaxLength value ++
  unless_match configMapKey (RegexError configMapKeyErrMsg configMapKeyFmt ["key.name"; "KEY_NAME"; "key-name"]) value ++
  hasChDirPrefix value.

(** ** What the regular expressions denote *)
Inductive in_lang : regex → list ascii → Prop :=
| lang_eps : in_lang REps []
| lang_chars f c : f c = true → in_lang (RChars f) [c]
| lang_cat r1 r2 l1 l2 : in_lang r1 l1 → in_lang r2 l2 → in_lang (RCat r1 r2) (l1 ++ l2)
| lang_alt_l r1 r2 l : in_lang r1 l → in_lang (RAlt r1 r2) l
| lang_alt_r r1 r2 l : in_lang r2 l → in_lang (RAlt r1 r2) l
| lang_star_nil r : in_lang (RStar r) []
| lang_star_cons r l1 l2 : in_lang r l1 → in_lang (RStar r) l2 → in_lang (RStar r) (l1 ++ l2).

Create HintDb lang.
#[export] Hint Constructors in_lang : lang.

Lemma lang_cat_inv r1 r2 l :
  in_lang (RCat r1 r2) l → ∃ l1 l2, l = l1 ++ l2 ∧ in_lang r1 l1 ∧ in_lang r2 l2.
Proof. inversion 1; subst; eauto. Qed.

Lemma lang_alt_inv r1 r2 l : in_lang (RAlt r1 r2) l ↔ in_lang r1 l ∨ in_lang r2 l.
Proof. split; [inversion 1; auto|intros [?|?]; eauto with lang]. Qed.

Lemma lang_chars_inv f l : in_lang (RChars f) l ↔ ∃ c, l = [c] ∧ f c = true.
Proof. split; [inversion 1; eauto|intros (c & -> & ?); eauto with lang]. Qed.

Lemma lang_eps_inv l : in_lang REps l ↔ l = [].
Proof. split; [by inversion 1|intros ->; eauto with lang]. Qed.

Lemma nullable_lang r : nullable r = true ↔ in_lang r [].
Proof.
  induction r as [| |f|r1 IH1 r2 IH2|r1 IH1 r2 IH2|r IH]; cbn.
  - split; [done|inversion 1].
  - split; [eauto with lang|done].
  - split; [done|inversion 1].
  - rewrite andb_true_iff, IH1, IH2. split.
    + intros [??]. by apply (lang_cat r1 r2 [] []).
    + intros (l1 & l2 & Hl & ? & ?)%lang_cat_inv. symmetry in Hl. by apply app_eq_nil in Hl as [-> ->].
  - by rewrite orb_true_iff, IH1, IH2, lang_alt_inv.
  - split; [eauto with lang|done].
Qed.

(** A word of a star that is not empty starts with a word that is not empty. *)
Lemma lang_star_cons_inv r c l :
  in_lang (RStar r) (c :: l) → ∃ l1 l2, l = l1 ++ l2 ∧ in_lang r (c :: l1) ∧ in_lang (RStar r) l2.
Proof.
  remember (RStar r) as s eqn:Hs. remember (c :: l) as w eqn:Hw. intros Hin. revert l Hw Hs.
  induction Hin as [| | | | | |r' l1 l2 H1 _ H2 IH]; intros w' Hw Hs; simplify_eq.
  destruct l1 as [|c' l1]; simplify_eq/=; [by apply IH|]. by exists l1, l2.
Qed.

Lemma deriv_lang c r l : in_lang (deriv c r) l ↔ in_lang r (c :: l).
Proof.
  revert l. induction r as [| |f|r1 IH1 r2 IH2|r1 IH1 r2 IH2|r IH]; intros l; cbn.
  - split; inversion 1.
  - split; inversion 1.
  - rewrite lang_chars_inv. destruct (f c) eqn:E.
    + rewrite lang_eps_inv. split; [intros ->; eauto|]. by intros (? & [= -> ->] & _).
    + split; [inversion 1|]. intros (? & [= -> ->] & ?). congruence.
  - assert (in_lang (RCat (deriv c r1) r2) l ↔ ∃ l1 l2, l = l1 ++ l2 ∧ in_lang r1 (c :: l1) ∧ in_lang r2 l2) as Hcat.
    { split.
      - intros (l1 & l2 & -> & ?%IH1 & ?)%lang_cat_inv. eauto.
      - intros (l1 & l2 & -> & ?%IH1 & ?). by constructor. }
    assert (in_lang (RCat r1 r2) (c :: l) ↔
      (∃ l1 l2, l = l1 ++ l2 ∧ in_lang r1 (c :: l1) ∧ in_lang r2 l2) ∨ (in_lang r1 [] ∧ in_lang r2 (c :: l))) as ->.
    { split.
      - intros ([|c' l1] & l2 & Hl & ? & ?)%lang_cat_inv; simplify_eq/=; [by right|left; eauto].
      - intros [(l1 & l2 & -> & ? & ?)|[? ?]]; [by apply (lang_cat r1 r2 (c :: l1) l2)|by apply (lang_cat r1 r2 [])]. }
    rewrite <-nullable_lang. destruct (nullable r1); [rewrite lang_alt_inv, IH2|]; rewrite Hcat; naive_solver.
  - by rewrite !lang_alt_inv, IH1, IH2.
  - split.
    + intros (l1 & l2 & -> & ?%IH & ?)%lang_cat_inv. by apply (lang_star_cons r (c :: l1)).
    + intros (l1 & l2 & -> & ?%IH & ?)%lang_star_cons_inv. by constructor.
Qed.

Lemma matches_lang r l : matches r l = true ↔ in_lang r l.
Proof.
  revert r. induction l as [|c l IH]; intros r; cbn; [apply nullable_lang|]. by rewrite IH, deriv_lang.
Qed.

(** The characters of the words are characters of the classes. *)
Fixpoint classes (P : ascii → bool) (r : regex) : Prop :=
  match r with
  | REmpty | REps => True
  | RChars f => ∀ c, f c = true → P c = true
  | RCat r1 r2 | RAlt r1 r2 => classes P r1 ∧ classes P r2
  | RStar r => classes P r
  end.

Lemma lang_classes P r l : in_lang r l → classes P r → Forall (λ c, P c = true) l.
Proof.
  induction 1 as [|f c Hc|r1 r2 l1 l2 _ IH1 _ IH2|r1 r2 l _ IH|r1 r2 l _ IH|r|r l1 l2 _ IH1 _ IH2]; cbn; intros HP.
  - constructor.
  - repeat constructor. auto.
  - destruct HP. apply Forall_app. auto.
  - apply IH, HP.
  - apply IH, HP.
  - constructor.
  - apply Forall_app. auto.
Qed.

Lemma star_chars f l : in_lang (RStar (RChars f)) l ↔ Forall (λ c, f c = true) l.
Proof.
  split; [intros Hl; apply (lang_classes f _ _ Hl); by cbn|].
  induction 1 as [|c l Hc _ IH]; [constructor|]. by apply (lang_star_cons _ [c] l); [constructor|].
Qed.

(** A word in the middle of which more characters are allowed than at its ends. *)
Definition framed (f g : ascii → bool) (l : list ascii) : Prop :=
  (∃ c, head l = Some c ∧ f c = true) ∧ (∃ c, last l = Some c ∧ f c = true) ∧ Forall (λ c, g c = true) l.

Lemma qualifiedName_framed l : in_lang qualifiedName l ↔ framed qnameChar qnameExtChar l.
Proof.
  assert (∀ c, qnameChar c = true → qnameExtChar c = true) as Hsub by (intros c Hc; unfold qnameExtChar; by rewrite Hc).
  unfold qualifiedName, ROpt, framed. split.
  - intros (l1 & l2 & -> & H1 & (c2 & -> & H2)%lang_chars_inv)%lang_cat_inv.
    rewrite last_snoc. apply lang_alt_inv in H1 as [(a & b & -> & (c1 & -> & H1)%lang_chars_inv & Hb%star_chars)%lang_cat_inv|He%lang_eps_inv].
    + cbn. split_and!; eauto. constructor; [auto|]. apply Forall_app. split; [done|]. auto.
    + subst. cbn. split_and!; eauto.
  - intros ((c1 & Hc1 & H1) & (c2 & [l' ->]%last_Some & H2) & Hall).
    apply (lang_cat _ _ l' [c2]); [|by constructor]. destruct l' as [|c l']; [eauto with lang|].
    cbn in Hc1. injection Hc1 as ->. apply lang_alt_l, (lang_cat _ _ [c1]); [by constructor|].
    apply star_chars. cbn in Hall. apply Forall_cons in Hall as [_ Hall]. by apply Forall_app in Hall as [? _].
Qed.

Lemma unless_match_nil r err v : unless_match r err v = [] ↔ in_lang r (chars v).
Proof. unfold unless_match, MatchString. rewrite <-matches_lang. by destruct (matches _ _). Qed.

Lemma too_long_nil n v : too_long n v = [] ↔ String.length v ≤ n.
Proof. unfold too_long. case_bool_decide; split; (done || lia). Qed.

Lemma length_chars s : length (chars s) = String.length s.
Proof. induction s as [|c s IH]; cbn; [done|]. by rewrite <-IH. Qed.

(** ** The documented syntax of label values and label keys

    Written without the formats and the classes of the code: alphabets are spelled out,
    and a DNS subdomain is a list of labels joined by dots. *)
Definition lower_alphanumeric : list ascii := chars "abcdefghijklmnopqrstuvwxyz0123456789".
Definition alphanumeric : list ascii := chars "ABCDEFGHIJKLMNOPQRSTUVWXYZ" ++ lower_alphanumeric.

(** Starts and ends in [ends], with characters of [inner] only. *)
Definition delimited (ends inner : list ascii) (s : string) : Prop :=
  (∃ c, head (chars s) = Some c ∧ c ∈ ends) ∧ (∃ c, last (chars s) = Some c ∧ c ∈ ends) ∧
  ∀ c, c ∈ chars s → c ∈ inner.

Definition label_name (s : string) : Prop :=
  String.length s ≤ 63 ∧ delimited alphanumeric (alphanumeric ++ chars "-_.") s.

Definition dns_label (s : string) : Prop :=
  delimited lower_alphanumeric (lower_alphanumeric ++ chars "-") s.

Definition dns_subdomain (s : string) : Prop :=
  ∃ label labels, s = String.concat "." (label :: labels) ∧ Forall dns_label (label :: labels).

Definition label_value (v : string) : Prop := v = "" ∨ label_name v.

Definition label_key (k : string) : Prop :=
  ∃ name, label_name name ∧
    (k = name ∨ ∃ prefix, k = prefix +:+ "/" +:+ name ∧ String.length prefix ≤ 253 ∧ dns_subdomain prefix).

(** The classes of the code are these alphabets. *)
Lemma qnameChar_spec c : qnameChar c = true ↔ c ∈ alphanumeric.
Proof.
  rewrite <-(bool_decide_eq_true (c ∈ alphanumeric)).
  by destruct c as [[] [] [] [] [] [] [] []]; vm_compute.
Qed.

Lemma qnameExtChar_spec c : qnameExtChar c = true ↔ c ∈ alphanumeric ++ chars "-_.".
Proof.
  rewrite <-(bool_decide_eq_true (c ∈ _)). by destruct c as [[] [] [] [] [] [] [] []]; vm_compute.
Qed.

Lemma lower_digit_spec c : lower_digit c = true ↔ c ∈ lower_alphanumeric.
Proof.
  rewrite <-(bool_decide_eq_true (c ∈ _)). by destruct c as [[] [] [] [] [] [] [] []]; vm_compute.
Qed.

Lemma dnsChar_spec c : dnsChar c = true ↔ c ∈ lower_alphanumeric ++ chars "-".
Proof.
  rewrite <-(bool_decide_eq_true (c ∈ _)). by destruct c as [[] [] [] [] [] [] [] []]; vm_compute.
Qed.

Lemma framed_delimited f g ends inner s :
  (∀ c, f c = true ↔ c ∈ ends) → (∀ c, g c = true ↔ c ∈ inner) →
  framed f g (chars s) ↔ delimited ends inner s.
Proof.
  intros Hf Hg. unfold framed, delimited. setoid_rewrite Hf. rewrite Forall_forall.
  by setoid_rewrite Hg.
Qed.

Lemma qualifiedName_lang s :
  in_lang qualifiedName (chars s) ↔ delimited alphanumeric (alphanumeric ++ chars "-_.") s.
Proof.
  rewrite qualifiedName_framed. apply framed_delimited; [apply qnameChar_spec|apply qnameExtChar_spec].
Qed.

Lemma dns1123Label_lang s : in_lang dns1123Label (chars s) ↔ dns_label s.
Proof.
  unfold dns_label. rewrite <-(framed_delimited _ _ _ _ s lower_digit_spec dnsChar_spec).
  assert (∀ c, lower_digit c = true → dnsChar c = true) as Hsub by (intros c Hc; unfold dnsChar; by rewrite Hc).
  unfold dns1123Label, ROpt, framed. generalize (chars s) as l. intros l. split.
  - intros (l1 & l2 & -> & (c1 & -> & H1)%lang_chars_inv & H2)%lang_cat_inv.
    apply lang_alt_inv in H2 as [(a & b & -> & Ha%star_chars & (c2 & -> & H2)%lang_chars_inv)%lang_cat_inv|He%lang_eps_inv].
    + cbn [app]. rewrite app_comm_cons, last_snoc. cbn. split_and!; eauto.
      constructor; [auto|]. apply Forall_app. split; [done|]. auto.
    + subst. cbn. split_and!; eauto.
  - intros ((c1 & Hc1 & H1) & (c2 & [l' ->]%last_Some & H2) & Hall).
    destruct l' as [|c l']; cbn in Hc1; injection Hc1 as ->.
    + apply (lang_cat _ _ [c1] []); [by constructor|]. apply lang_alt_r. constructor.
    + apply (lang_cat _ _ [c1] (l' ++ [c2])); [by constructor|]. apply lang_alt_l, lang_cat; [|by constructor].
      apply star_chars. cbn in Hall. apply Forall_cons in Hall as [_ Hall]. by apply Forall_app in Hall as [? _].
Qed.

Lemma chars_append s1 s2 : chars (s1 +:+ s2) = chars s1 ++ chars s2.
Proof. induction s1 as [|c s1 IH]; [done|]. change (c :: chars (s1 +:+ s2) = c :: chars s1 ++ chars s2). by rewrite IH. Qed.

Lemma chars_surj l : ∃ s, chars s = l.
Proof. exists (String.string_of_list_ascii l). apply String.list_ascii_of_string_of_list_ascii. Qed.

Lemma chars_inj s1 s2 : chars s1 = chars s2 → s1 = s2.
Proof.
  intros Heq. rewrite <-(String.string_of_list_ascii_of_string s1), <-(String.string_of_list_ascii_of_string s2).
  by f_equal.
Qed.

(** The labels after the first one, each with its dot. *)
Lemma dotted_lang l :
  in_lang (RStar (RCat (RChars (is_char ".")) dns1123Label)) l ↔
  ∃ labels, l = labels ≫= (λ s, "."%char :: chars s) ∧ Forall dns_label labels.
Proof.
  split.
  - remember (RStar _) as r eqn:Hr. intros Hin. revert Hr.
    induction Hin as [| | | | |r'|r' l1 l2 H1 _ _ IH2]; intros [= ->]; [by exists []|].
    destruct IH2 as (labels & -> & Hls); [done|].
    apply lang_cat_inv in H1 as (a & b & -> & (c & -> & Hc)%lang_chars_inv & Hb).
    apply bool_decide_eq_true in Hc as ->. destruct (chars_surj b) as [s <-].
    exists (s :: labels). split; [done|]. constructor; [by apply dns1123Label_lang|done].
  - intros (labels & -> & Hls). induction Hls as [|s labels Hs _ IH]; [constructor|].
    cbn [mbind list_bind]. apply lang_star_cons; [|done].
    apply (lang_cat _ _ ["."%char]); [by constructor|by apply dns1123Label_lang].
Qed.

Lemma chars_concat label labels :
  chars (String.concat "." (label :: labels)) = chars label ++ (labels ≫= λ s, "."%char :: chars s).
Proof.
  revert label. induction labels as [|s labels IH]; intros label; [cbn; by rewrite app_nil_r|].
  change (String.concat "." (label :: s :: labels)) with (label +:+ "." +:+ String.concat "." (s :: labels)).
  by rewrite !chars_append, IH.
Qed.

Lemma dns1123Subdomain_lang s : in_lang dns1123Subdomain (chars s) ↔ dns_subdomain s.
Proof.
  split.
  - intros (l1 & l2 & Hl & H1 & (labels & -> & Hls)%dotted_lang)%lang_cat_inv.
    destruct (chars_surj l1) as [label <-]. exists label, labels. split.
    + apply chars_inj. by rewrite Hl, chars_concat.
    + constructor; [by apply dns1123Label_lang|done].
  - intros (label & labels & -> & [Hl Hls]%Forall_cons). rewrite chars_concat.
    apply lang_cat; [by apply dns1123Label_lang|]. apply dotted_lang. by exists labels.
Qed.

Lemma IsValidLabelValue_nil v :
  IsValidLabelValue v = [] ↔ label_value v.
Proof.
  unfold IsValidLabelValue. split.
  - intros [Hl%too_long_nil Hm%unless_match_nil]%app_eq_nil.
    apply lang_alt_inv in Hm as [Hm%qualifiedName_lang|Hm%lang_eps_inv]; [by right|]. left.
    by destruct v.
  - intros Hv. apply app_nil. destruct Hv as [->|[Hl Hv]].
    + split; [done|]. apply unless_match_nil, lang_alt_inv. right. constructor.
    + split; [by apply too_long_nil|]. apply unless_match_nil, lang_alt_inv. left. by apply qualifiedName_lang.
Qed.

(** ** Qualified names *)
Lemma Split_concat sep s : String.concat (String.String sep "") (Split sep s) = s.
Proof.
  induction s as [|c s IH]; [done|]. cbn [Split]. case_bool_decide as Hc.
  - subst c. destruct (Split sep s) as [|w ws] eqn:E; [|cbn; cbn in IH; by rewrite IH].
    exfalso. clear IH. destruct s as [|c s]; [done|]. cbn in E. case_bool_decide; [done|].
    by destruct (Split sep s).
  - destruct (Split sep s) as [|w ws]; cbn in *; [by rewrite <-IH|]. by destruct ws; rewrite <-IH.
Qed.

Lemma name_part_nil name :
  name_part name = [] ↔ label_name name.
Proof.
  unfold name_part. split.
  - intros [H1 H2%unless_match_nil%qualifiedName_lang]%app_eq_nil. split; [|done].
    revert H1. repeat case_bool_decide; [done|done|]. intros _. unfold qualifiedNameMaxLength in *. lia.
  - intros [Hl Hd]. apply app_nil. split; [|by apply unless_match_nil, qualifiedName_lang].
    rewrite bool_decide_eq_false_2, bool_decide_eq_false_2; [done|unfold qualifiedNameMaxLength; lia|].
    destruct Hd as [(c & Hc & _) _]. destruct name; [done|]. cbn. lia.
Qed.

Lemma all_chars_no_char x (P : ascii → Prop) s :
  (∀ c, c ∈ chars s → P c) → ¬ P x → no_char x s.
Proof.
  intros Hall Hx. induction s as [|c s IH]; [done|]. cbn in *.
  split; [intros ->; apply Hx, Hall; left|apply IH; intros c' ?; apply Hall; by right].
Qed.

Lemma label_name_no_slash s : label_name s → no_char "/" s.
Proof.
  intros (_ & _ & _ & Hall). apply (all_chars_no_char _ _ _ Hall).
  rewrite <-(bool_decide_eq_true (_ ∈ _)). by vm_compute.
Qed.

Lemma IsQualifiedName_nil k :
  IsQualifiedName k = [] ↔ label_key k.
Proof.
  pose proof (Split_concat "/" k) as Hk. unfold IsQualifiedName. split.
  - destruct (Split "/" k) as [|p [|n [|]]]; cbn in Hk; [done| | |done].
    + intros ?%name_part_nil. exists p. subst. auto.
    + intros [Hp ?%name_part_nil]%app_eq_nil. exists n. split; [done|]. right. exists p.
      case_bool_decide as He; [done|]. case_bool_decide as Hm; [|].
      * destruct (IsDNS1123Subdomain p) as [|e es] eqn:E; [done|]. cbn in Hp. done.
      * assert (IsDNS1123Subdomain p = []) as [?%too_long_nil ?%unless_match_nil%dns1123Subdomain_lang]%app_eq_nil
          by (destruct (IsDNS1123Subdomain p); [done|cbn in Hm; lia]). auto.
  - intros (name & Hn & Hcase). pose proof (label_name_no_slash name Hn) as Hns.
    destruct Hcase as [->|(p & -> & Hp & Hin%dns1123Subdomain_lang)].
    + rewrite Split_no_char by auto. by apply name_part_nil.
    + assert (no_char "/" p) as Hnp.
      { assert (Forall (λ c, (dnsChar c || is_char "." c) = true) (chars p)) as Hall.
        { apply (lang_classes _ _ _ Hin). cbn. repeat split; intros c; unfold dnsChar; destruct (lower_digit c), (is_char "-" c), (is_char "." c); done. }
        clear -Hall. induction p as [|c p IH]; [done|]. cbn in *. apply Forall_cons in Hall as [Hc Hall].
        split; [by intros ->|auto]. }
      change (String.append "/" ?u) with (String.String "/" u). rewrite Split_append, Split_no_char by auto. apply app_nil. split; [|by apply name_part_nil].
      rewrite bool_decide_eq_false_2.
      * rewrite bool_decide_eq_false_2; [done|]. intros Hms. apply Hms.
        assert (IsDNS1123Subdomain p = []) as ->; [|done]. apply app_nil.
        by rewrite too_long_nil, unless_match_nil.
      * intros Hz. destruct p; [|done]. apply matches_lang in Hin. done.
Qed.

(** [C34] The label keys accepted are exactly the names of at most 63 letters, digits,
    hyphens, underscores and dots that start and end with a letter or a digit, after an
    optional DNS subdomain of at most 253 characters and a slash; the label values are
    such names without a prefix, or empty.  A DNS subdomain is one or more labels joined
    by dots, each of lower case letters, digits and hyphens, starting and ending with a
    letter or a digit. *)
Theorem label_syntax_exact k v :
  (IsQualifiedName k = [] ↔ label_key k) ∧ (IsValidLabelValue v = [] ↔ label_value v).
Proof. split; [apply IsQualifiedName_nil|apply IsValidLabelValue_nil]. Qed.

(** ** The characters of keys and values *)
Definition labelChar (c : ascii) : bool := qnameExtChar c || is_char "/" c.

Lemma label_name_chars s : label_name s → chars s ≠ [] ∧ Forall (λ c, labelChar c = true) (chars s).
Proof.
  intros (_ & (c & Hc & _) & _ & Hall). split; [by destruct (chars s)|].
  apply Forall_forall. intros c' Hc'%Hall%qnameExtChar_spec. unfold labelChar. by rewrite Hc'.
Qed.

Lemma label_value_chars v : label_value v → Forall (λ c, labelChar c = true) (chars v).
Proof. intros [->|Hv]; [constructor|]. by apply label_name_chars. Qed.

Lemma subdomain_chars p : dns_subdomain p → Forall (λ c, labelChar c = true) (chars p).
Proof.
  intros Hin%dns1123Subdomain_lang. apply (lang_classes _ _ _ Hin). cbn.
  unfold labelChar, qnameExtChar, qnameChar, dnsChar, lower_digit.
  repeat split; intros c; destruct (is_lower c), (is_digit c), (is_upper c), (is_char "-" c), (is_char "_" c), (is_char "." c); done.
Qed.

Lemma label_key_chars k : label_key k → chars k ≠ [] ∧ Forall (λ c, labelChar c = true) (chars k).
Proof.
  intros (name & [Hne Hn]%label_name_chars & [->|(p & -> & _ & Hp%subdomain_chars)]); [done|].
  rewrite !chars_append. split; [by destruct (chars p)|]. rewrite !Forall_app. split_and!; [done| |done].
  by repeat constructor.
Qed.
