(* ===== verification/Labels.v ===== *)
(** * Labels and label selectors (k8s.io/apimachinery/pkg/labels: labels.go, selector.go,
    and selection/operator.go)

    A set of labels is a map of strings.  A selector is a list of requirements, all of
    which must match, or the selector that matches nothing. *)

From Stdlib Require Import Ascii.
From S2P Require Import Prelude StringSets Validation.

(** ** Operators and requirements *)
Inductive Operator : Type :=
| DoesNotExist | Equals | DoubleEquals | In_ | NotEquals | NotIn | Exists_ | GreaterThan | LessThan
| OtherOperator (s : string).

#[export] Instance Operator_eq_dec : EqDecision Operator.
Proof. solve_decision. Defined.

Record Requirement := { key : string; operator : Operator; strValues : list string }.

#[export] Instance Requirement_eq_dec : EqDecision Requirement.
Proof. solve_decision. Defined.

Inductive label_error : Type :=
| InvalidKey (k : string) (errs : list string)
| InvalidValue (v : string) (errs : list string)
| ValuesEmpty
| NotOneValue
| ValuesNotEmpty
| NotExactlyOne
| NotAnInteger
| UnknownOperator (op : Operator).

Definition validateLabelKey (k : string) : option label_error :=
  let errs := IsQualifiedName k in
  if bool_decide (length errs ≠ 0) then Some (InvalidKey k errs) else None.

Definition validateLabelValue (v : string) : option label_error :=
  let errs := IsValidLabelValue v in
  if bool_decide (length errs ≠ 0) then Some (InvalidValue v errs) else None.

(** [strconv.ParseInt(s, 10, 64)], [None] for its errors. *)
Fixpoint parse_digits (l : list ascii) (acc : Z) : option Z :=
  match l with
  | [] => Some acc
  | c :: l' => if is_digit c then parse_digits l' (10 * acc + (Z.of_N (N_of_ascii c) - 48)) else None
  end.

Definition ParseInt (s : string) : option Z :=
  let '(neg, digits) := match chars s with
                        | "-"%char :: l => (true, l)
                        | "+"%char :: l => (false, l)
                        | l => (false, l)
                        end in
  match digits with
  | [] => None
  | _ =>
    n ← parse_digits digits 0;
    let z := (if neg : bool then - n else n)%Z in
    if bool_decide (- 2 ^ 63 ≤ z < 2 ^ 63)%Z then Some z else None
  end.

(** The checks of [NewRequirement] on the number and the form of the values. *)
Definition check_values (op : Operator) (vals : list string) : option label_error :=
  match op with
  | In_ | NotIn => if bool_decide (length vals = 0) then Some ValuesEmpty else None
  | Equals | DoubleEquals | NotEquals => if bool_decide (length vals ≠ 1) then Some NotOneValue else None
  | Exists_ | DoesNotExist => if bool_decide (length vals ≠ 0) then Some ValuesNotEmpty else None
  | GreaterThan | LessThan =>
    if bool_decide (length vals ≠ 1) then Some NotExactlyOne
    else if forallb (λ v, bool_decide (is_Some (ParseInt v))) vals then None else Some NotAnInteger
  | OtherOperator _ => Some (UnknownOperator op)
  end.

Fixpoint validate_values (vals : list string) : option label_error :=
  match vals with
  | [] => None
  | v :: vals' =>
    match validateLabelValue v with
    | Some err => Some err
    | None => validate_values vals'
    end
  end.

(** [sort.Strings]: the order is total and antisymmetric, so the sorted slice does not
    depend on the algorithm. *)
Definition NewRequirement (k : string) (op : Operator) (vals : list string) : res label_error Requirement :=
  match validateLabelKey k with
  | Some err => Err err
  | None =>
    match check_values op vals with
    | Some err => Err err
    | None =>
      match validate_values vals with
      | Some err => Err err
      | None => Ok {| key := k; operator := op; strValues := merge_sort String.le vals |}
      end
    end
  end.

(** ** Labels *)
Notation Set_ := (gmap string string).

Definition Set_Has (ls : Set_) (label : string) : bool := bool_decide (is_Some (ls !! label)).
Definition Set_Get (ls : Set_) (label : string) : string := default "" (ls !! label).

Fixpoint hasValue_from (values : list string) (value : string) : bool :=
  match values with
  | [] => false
  | v :: values' => if String.eqb v value then true else hasValue_from values' value
  end.

Definition hasValue (r : Requirement) (value : string) : bool := hasValue_from (strValues r) value.

Definition compare_values (r : Requirement) (lsValue : Z) : bool :=
  match strValues r with
  | [v] =>
    match ParseInt v with
    | None => false
    | Some rValue =>
      (bool_decide (operator r = GreaterThan) && bool_decide (rValue < lsValue)%Z) ||
      (bool_decide (operator r = LessThan) && bool_decide (lsValue < rValue)%Z)
    end
  | _ => false
  end.

Definition req_Matches (r : Requirement) (ls : Set_) : bool :=
  match operator r with
  | In_ | Equals | DoubleEquals => if negb (Set_Has ls (key r)) then false else hasValue r (Set_Get ls (key r))
  | NotIn | NotEquals => if negb (Set_Has ls (key r)) then true else negb (hasValue r (Set_Get ls (key r)))
  | Exists_ => Set_Has ls (key r)
  | DoesNotExist => negb (Set_Has ls (key r))
  | GreaterThan | LessThan =>
    if negb (Set_Has ls (key r)) then false
    else match ParseInt (Set_Get ls (key r)) with
         | None => false
         | Some lsValue => compare_values r lsValue
         end
  | OtherOperator _ => false
  end.

Definition Values (r : Requirement) : gset string := foldl (λ ret v, Insert ret [v]) ∅ (strValues r).

(** ** Selectors *)
Definition internalSelector : Type := list Requirement.

Inductive Selector : Type :=
| Internal (reqs : internalSelector)
| Nothing.

Definition Everything : Selector := Internal [].
Definition NewSelector : Selector := Internal [].

Definition sel_Empty (s : Selector) : bool :=
  match s with Internal reqs => bool_decide (length reqs = 0) | Nothing => false end.

Fixpoint reqs_Match (reqs : internalSelector) (ls : Set_) : bool :=
  match reqs with
  | [] => true
  | r :: reqs' => if negb (req_Matches r ls) then false else reqs_Match reqs' ls
  end.

Definition sel_Matches (s : Selector) (ls : Set_) : bool :=
  match s with Internal reqs => reqs_Match reqs ls | Nothing => false end.

Definition sel_Requirements (s : Selector) : list Requirement * bool :=
  match s with Internal reqs => (reqs, true) | Nothing => ([], false) end.

(** [sort.Sort(ByKey(...))]: some permutation with keys in order; the algorithm is not
    stable, so the order among equal keys is left open. *)
Definition key_le (r1 r2 : Requirement) : Prop := String.le (key r1) (key r2).

Class key_sort (srt : list Requirement → list Requirement) : Prop := {
  key_sort_perm l : srt l ≡ₚ l;
  key_sort_sorted l : StronglySorted key_le (srt l);
}.

(** ** Printing *)
Definition join_comma (l : list string) : string := String.concat "," l.

Definition values_String (r : Requirement) : string :=
  match strValues r with [v] => v | l => join_comma l end.

Definition req_String (r : Requirement) : string :=
  match operator r with
  | Exists_ => key r
  | DoesNotExist => "!" +:+ key r
  | Equals => key r +:+ "=" +:+ values_String r
  | DoubleEquals => key r +:+ "==" +:+ values_String r
  | NotEquals => key r +:+ "!=" +:+ values_String r
  | In_ => key r +:+ " in " +:+ "(" +:+ values_String r +:+ ")"
  | NotIn => key r +:+ " notin " +:+ "(" +:+ values_String r +:+ ")"
  | GreaterThan => key r +:+ ">" +:+ values_String r
  | LessThan => key r +:+ "<" +:+ values_String r
  | OtherOperator _ => key r +:+ values_String r
  end.

Definition sel_String (s : Selector) : string :=
  match s with Internal reqs => join_comma (req_String <$> reqs) | Nothing => "" end.

Section selectors.
Context (srt : list Requirement → list Requirement) (rng : Set_ → list (string * string)).

Definition sel_Add (s : Selector) (reqs : list Requirement) : Selector :=
  match s with Internal lsel => Internal (srt (lsel ++ reqs)) | Nothing => Nothing end.

(** The loop of [SelectorFromSet]; the first invalid label makes the result empty. *)
Fixpoint set_requirements (l : list (string * string)) : option (list Requirement) :=
  match l with
  | [] => Some []
  | (label, value) :: l' =>
    match NewRequirement label Equals [value] with
    | Ok r => (r ::.) <$> set_requirements l'
    | Err _ => None
    end
  end.

Definition SelectorFromSet (ls : Set_) : Selector :=
  if bool_decide (size ls = 0) then Internal []
  else match set_requirements (rng ls) with
       | Some requirements => Internal (srt requirements)
       | None => Internal []
       end.

Definition SelectorFromValidatedSet (ls : Set_) : Selector :=
  if bool_decide (size ls = 0) then Internal []
  else Internal (srt ((λ kv, {| key := kv.1; operator := Equals; strValues := [kv.2] |}) <$> rng ls)).

Definition AsSelector (ls : Set_) : Selector := SelectorFromSet ls.
Definition AsSelectorPreValidated (ls : Set_) : Selector := SelectorFromValidatedSet ls.

(** ** Sets of labels *)
Definition Set_String (ls : Set_) : string :=
  join_comma (merge_sort String.le ((λ kv, kv.1 +:+ "=" +:+ kv.2) <$> rng ls)).

Definition FormatLabels (labelMap : Set_) : string :=
  let l := Set_String labelMap in if String.eqb l "" then "<none>" else l.

Fixpoint conflicts_in (l : list (string * string)) (big : Set_) : bool :=
  match l with
  | [] => false
  | (k, v) :: l' =>
    match big !! k with
    | Some val => if negb (String.eqb val v) then true else conflicts_in l' big
    | None => conflicts_in l' big
    end
  end.

Definition Conflicts (labels1 labels2 : Set_) : bool :=
  let '(small, big) := if bool_decide (size labels2 < size labels1) then (labels2, labels1)
                       else (labels1, labels2) in
  conflicts_in (rng small) big.

Definition Merge (labels1 labels2 : Set_) : Set_ :=
  let mergedMap := foldl (λ m kv, <[kv.1 := kv.2]> m) (∅ : Set_) (rng labels1) in
  foldl (λ m kv, <[kv.1 := kv.2]> m) mergedMap (rng labels2).

Fixpoint all_in (l : list (string * string)) (m : Set_) : bool :=
  match l with
  | [] => true
  | (k, v) :: l' =>
    match m !! k with
    | None => false
    | Some value => if negb (String.eqb value v) then false else all_in l' m
    end
  end.

Definition Set_Equals (labels1 labels2 : Set_) : bool :=
  if bool_decide (size labels1 ≠ size labels2) then false else all_in (rng labels1) labels2.

Definition AreLabelsInWhiteList (labels whitelist : Set_) : bool :=
  if bool_decide (size whitelist = 0) then true else all_in (rng labels) whitelist.
End selectors.

(** ** What requirements mean *)
Definition meets (op : Operator) (vals : gset string) (o : option string) : Prop :=
  match op with
  | In_ | Equals | DoubleEquals => ∃ v, o = Some v ∧ v ∈ vals
  | NotIn | NotEquals => ∀ v, o = Some v → v ∉ vals
  | Exists_ => is_Some o
  | DoesNotExist => o = None
  | GreaterThan => ∃ v w x y, o = Some v ∧ w ∈ vals ∧ ParseInt v = Some x ∧ ParseInt w = Some y ∧ (y < x)%Z
  | LessThan => ∃ v w x y, o = Some v ∧ w ∈ vals ∧ ParseInt v = Some x ∧ ParseInt w = Some y ∧ (x < y)%Z
  | OtherOperator _ => False
  end.

Lemma hasValue_elem r v : hasValue r v = true ↔ v ∈ strValues r.
Proof.
  unfold hasValue. induction (strValues r) as [|w l IH]; cbn; [by rewrite elem_of_nil|].
  rewrite elem_of_cons. destruct (String.eqb_spec w v) as [->|Hne]; [naive_solver|].
  rewrite IH. split; [auto|]. by intros [->|?].
Qed.

Lemma merge_sort_elem (l : list string) v : v ∈ merge_sort String.le l ↔ v ∈ l.
Proof. by rewrite merge_sort_Permutation. Qed.

Lemma Values_elem r v : v ∈ Values r ↔ v ∈ strValues r.
Proof.
  unfold Values. assert (∀ s, v ∈ foldl (λ ret v, Insert ret [v]) s (strValues r) ↔ v ∈ s ∨ v ∈ strValues r) as Hf.
  { induction (strValues r) as [|w l IH]; intros s; cbn; [set_solver|]. rewrite IH. set_solver. }
  rewrite Hf. set_solver.
Qed.

Lemma NewRequirement_Ok k op vals r :
  NewRequirement k op vals = Ok r ↔
  validateLabelKey k = None ∧ check_values op vals = None ∧ validate_values vals = None ∧
  r = {| key := k; operator := op; strValues := merge_sort String.le vals |}.
Proof. unfold NewRequirement. repeat case_match; naive_solver. Qed.

Lemma req_Matches_lookup r ls :
  operator r = GreaterThan ∨ operator r = LessThan →
  req_Matches r ls = match ls !! key r with
                     | Some v => match ParseInt v with Some x => compare_values r x | None => false end
                     | None => false
                     end.
Proof.
  unfold req_Matches, Set_Has, Set_Get. intros [-> | ->]; by destruct (ls !! key r).
Qed.

(** A requirement that could be made matches a set of labels exactly when the value of
    its key stands in the documented relation to its values: a missing label meets the
    negative operators and no other, and the comparing operators compare integers. *)
Theorem requirement_matches_exact k op vals r ls :
  NewRequirement k op vals = Ok r →
  req_Matches r ls = true ↔ meets op (list_to_set vals) (ls !! k).
Proof.
  intros (_ & Hc & _ & ->)%NewRequirement_Ok.
  assert (∀ v, hasValue {| key := k; operator := op; strValues := merge_sort String.le vals |} v = true ↔
    v ∈ (list_to_set vals : gset string)) as Hv
    by (intros v; rewrite hasValue_elem, elem_of_list_to_set; apply merge_sort_elem).
  unfold meets. destruct op; [..|done].
  all: try (rewrite req_Matches_lookup by auto; cbn in Hc;
    case_bool_decide as Hlen; [done|]; destruct vals as [|w [|]]; [done| |cbn in Hlen; lia];
    cbn in Hc; destruct (ParseInt w) as [y|] eqn:Hw; [|done]; clear Hv; cbn;
    destruct (ls !! k) as [v|]; [|naive_solver];
    destruct (ParseInt v) as [x|] eqn:Hx; [|naive_solver]; unfold compare_values; cbn; rewrite Hw;
    rewrite ?andb_false_l, ?andb_true_l, ?orb_false_l, ?orb_false_r, bool_decide_eq_true; set_solver).
  all: unfold req_Matches, Set_Has, Set_Get; cbn [key operator]; destruct (ls !! k) as [v|]; cbn -[hasValue]; try naive_solver.
  all: rewrite negb_true_iff, <-not_true_iff_false, Hv; naive_solver.
Qed.

Lemma requirement_matches_exact_witness :
  req_Matches {| key := "tier"; operator := NotIn; strValues := ["db"; "web"] |} {["tier" := "cache"]} = true ∧
  req_Matches {| key := "gen"; operator := GreaterThan; strValues := ["5"] |} {["gen" := "9"]} = true.
Proof.
  split.
  - apply (requirement_matches_exact "tier" NotIn ["web"; "db"]); [vm_compute; reflexivity|].
    intros v Hv. change (Some "cache" = Some v) in Hv. injection Hv as <-. set_solver.
  - apply (requirement_matches_exact "gen" GreaterThan ["5"]); [vm_compute; reflexivity|].
    exists "9", "5", 9%Z, 5%Z. split_and!; reflexivity.
Defined.

(** ** Selectors *)
#[export] Instance key_le_dec : RelDecision key_le.
Proof. intros r1 r2. unfold key_le. apply _. Defined.
#[export] Instance key_le_total : Total key_le.
Proof. intros r1 r2. apply (total String.le). Qed.
#[export] Instance key_le_trans : Transitive key_le.
Proof. intros r1 r2 r3. apply (transitivity (R := String.le)). Qed.
#[export] Instance key_sort_merge : key_sort (merge_sort key_le).
Proof. split; intros l; [apply merge_sort_Permutation|apply (StronglySorted_merge_sort key_le)]. Qed.

Lemma reqs_Match_elem reqs ls : reqs_Match reqs ls = true ↔ ∀ r, r ∈ reqs → req_Matches r ls = true.
Proof.
  induction reqs as [|r reqs IH]; cbn; [set_solver|].
  destruct (req_Matches r ls) eqn:E; cbn; [rewrite IH; set_solver|]. split; [done|].
  intros Hall. by rewrite <-E, Hall by set_solver.
Qed.

#[export] Instance reqs_Match_proper : Proper ((≡ₚ) ==> (=) ==> (=)) reqs_Match.
Proof. intros l1 l2 Hl ls ? <-. apply eq_true_iff_eq. rewrite !reqs_Match_elem. by setoid_rewrite Hl. Qed.

(** Labels all of which a requirement accepts. *)
Definition valid_label (kv : string * string) : Prop :=
  validateLabelKey kv.1 = None ∧ validateLabelValue kv.2 = None.

#[export] Instance valid_label_dec kv : Decision (valid_label kv).
Proof. unfold valid_label. destruct (validateLabelKey _), (validateLabelValue _); first [left; done|right; intros [? ?]; done]. Defined.

Definition equals_req (kv : string * string) : Requirement :=
  {| key := kv.1; operator := Equals; strValues := [kv.2] |}.

Lemma equals_req_Matches kv m : req_Matches (equals_req kv) m = true ↔ m !! kv.1 = Some kv.2.
Proof.
  unfold req_Matches, Set_Has, Set_Get. cbn -[hasValue]. destruct (m !! kv.1) as [v|]; cbn -[hasValue]; [|done].
  rewrite hasValue_elem. cbn. set_solver.
Qed.

Lemma set_requirements_spec l :
  set_requirements l = if bool_decide (Forall valid_label l) then Some (equals_req <$> l) else None.
Proof.
  induction l as [|[k v] l IH]; [done|]. cbn -[NewRequirement].
  destruct (NewRequirement k Equals [v]) as [r|e] eqn:E.
  - apply NewRequirement_Ok in E as (Hk & _ & Hv & ->). cbn in Hv. rewrite IH.
    destruct (validateLabelValue v) eqn:Ev; [done|].
    destruct (decide (Forall valid_label l)).
    + rewrite !bool_decide_eq_true_2; [done|by constructor|done].
    + rewrite !bool_decide_eq_false_2; [done|by intros [_ ?]%Forall_cons|done].
  - rewrite bool_decide_eq_false_2; [done|]. intros [[Hk Hv] _]%Forall_cons. cbn in *.
    unfold NewRequirement in E. cbn in E. by rewrite Hk, Hv in E.
Qed.

Section matching.
Context (srt : list Requirement → list Requirement) `{!key_sort srt}.
Context (rng : Set_ → list (string * string)) `{!range_order rng}.

Lemma equals_reqs_Match ls m : reqs_Match (srt (equals_req <$> rng ls)) m = true ↔ ls ⊆ m.
Proof.
  rewrite key_sort_perm, reqs_Match_elem, map_subseteq_spec. split.
  - intros Hall k v Hk. apply (equals_req_Matches (k, v)), Hall, list_elem_of_fmap.
    exists (k, v). split; [done|]. by apply (range_elem rng).
  - intros Hs r [[k v] [-> Hkv]]%list_elem_of_fmap. apply equals_req_Matches, Hs. by apply (range_elem rng).
Qed.

Lemma size_zero_subseteq (ls m : Set_) : size ls = 0 → ls ⊆ m.
Proof. intros ->%map_size_empty_inv. apply map_empty_subseteq. Qed.

(** The selector of a set of labels matches exactly the objects that carry all of
    them, provided that every label is valid; with an invalid label it matches every
    object.  Without validation there is no such exception. *)
Theorem selector_from_set_exact ls m :
  (sel_Matches (SelectorFromSet srt rng ls) m = true ↔ (map_Forall (λ k v, valid_label (k, v)) ls → ls ⊆ m)) ∧
  (sel_Matches (SelectorFromValidatedSet srt rng ls) m = true ↔ ls ⊆ m).
Proof.
  unfold SelectorFromSet, SelectorFromValidatedSet. case_bool_decide as Hz.
  { pose proof (size_zero_subseteq ls m Hz). cbn. naive_solver. }
  split; [|apply equals_reqs_Match].
  assert (map_Forall (λ k v, valid_label (k, v)) ls ↔ Forall valid_label (rng ls)) as ->.
  { rewrite map_Forall_to_list, (range_perm (rng := rng) ls). apply Forall_iff. by intros [??]. }
  rewrite set_requirements_spec. case_bool_decide; cbn [sel_Matches]; [rewrite equals_reqs_Match|]; cbn; naive_solver.
Qed.

(** Adding requirements to a selector narrows it by exactly them. *)
Lemma sel_Add_Matches s reqs m :
  sel_Matches (sel_Add srt s reqs) m = sel_Matches s m && reqs_Match reqs m.
Proof.
  destruct s as [l|]; [|done]. cbn. rewrite key_sort_perm.
  induction l as [|r l IH]; [done|]. cbn. by destruct (req_Matches r m).
Qed.
End matching.

Lemma selector_from_set_exact_witness :
  sel_Matches (SelectorFromSet (merge_sort key_le) map_to_list {["app" := "pilot"]})
    {["app" := "pilot"; "v" := "1"]} = true ∧
  sel_Matches (SelectorFromSet (merge_sort key_le) map_to_list {["app" := "pilot"; "bad key" := "1"]}) ∅ = true.
Proof.
  split.
  - apply selector_from_set_exact; [apply _..|]. intros _.
    apply map_subseteq_spec. intros k v Hk. apply lookup_singleton_Some in Hk as [<- <-]. reflexivity.
  - apply selector_from_set_exact; [apply _..|]. intros Hall.
    specialize (Hall "bad key" "1" eq_refl). apply (bool_decide_eq_true_2 _) in Hall. by vm_compute in Hall.
Defined.
