(* ===== verification/LabelMaps.v ===== *)
(** * Maps of labels (k8s.io/apimachinery/pkg/labels/labels.go)

    Reading a map of labels back from its printed form, and what the functions on pairs
    of maps compute. *)

From Stdlib Require Import Ascii.
From S2P Require Import Prelude ObjectKeys Validation Labels.

(** ** [strings.TrimSpace]

    The encodings of the characters that are white space in Unicode. *)
Definition bytes (l : list nat) : list ascii := ascii_of_nat <$> l.

Definition spaces : list (list ascii) :=
  bytes <$> ([[9]; [10]; [11]; [12]; [13]; [32]; [194; 133]; [194; 160]; [225; 154; 128]] ++
             ((λ n, [226; 128; n]) <$> seq 128 11) ++
             [[226; 128; 168]; [226; 128; 169]; [226; 128; 175]; [226; 129; 159]; [227; 128; 128]]).

Fixpoint strip_prefix (p l : list ascii) : option (list ascii) :=
  match p, l with
  | [], _ => Some l
  | a :: p', b :: l' => if bool_decide (a = b) then strip_prefix p' l' else None
  | _ :: _, [] => None
  end.

Fixpoint strip_one (ps : list (list ascii)) (l : list ascii) : option (list ascii) :=
  match ps with
  | [] => None
  | p :: ps' => match strip_prefix p l with Some l' => Some l' | None => strip_one ps' l end
  end.

Fixpoint strip_all (fuel : nat) (ps : list (list ascii)) (l : list ascii) : list ascii :=
  match fuel with
  | 0 => l
  | S n => match strip_one ps l with Some l' => strip_all n ps l' | None => l end
  end.

Definition TrimLeft (ps : list (list ascii)) (l : list ascii) : list ascii := strip_all (length l) ps l.

Definition TrimSpace (s : string) : string :=
  let l := TrimLeft spaces (chars s) in
  String.string_of_list_ascii (reverse (TrimLeft (reverse <$> spaces) (reverse l))).

(** ** Reading a map of labels *)
Inductive convert_error : Type :=
| InvalidSelector (l : list string)
| InvalidLabel (e : label_error).

Fixpoint convert_labels (labels : list string) (labelsMap : Set_) : Set_ * option convert_error :=
  match labels with
  | [] => (labelsMap, None)
  | label :: labels' =>
    match Split "=" label with
    | [l0; l1] =>
      let key := TrimSpace l0 in
      match validateLabelKey key with
      | Some err => (labelsMap, Some (InvalidLabel err))
      | None =>
        let value := TrimSpace l1 in
        match validateLabelValue value with
        | Some err => (labelsMap, Some (InvalidLabel err))
        | None => convert_labels labels' (<[key := value]> labelsMap)
        end
      end
    | l => (labelsMap, Some (InvalidSelector l))
    end
  end.

Definition ConvertSelectorToLabelsMap (selector : string) : Set_ * option convert_error :=
  if bool_decide (String.length selector = 0) then (∅, None)
  else convert_labels (Split "," selector) ∅.

Example convert_spaces :
  ConvertSelectorToLabelsMap (" app = pilot ," +:+ String.string_of_list_ascii (bytes [194; 160]) +:+ "v=1") =
  ({["app" := "pilot"; "v" := "1"]}, None).
Proof. vm_compute. reflexivity. Qed.

Example convert_bad : (ConvertSelectorToLabelsMap "app=pilot,v").2 = Some (InvalidSelector ["v"]).
Proof. reflexivity. Qed.

(** ** White space and separators in valid labels *)
Definition clean (s : string) : Prop := Forall (λ c, labelChar c = true) (chars s).

Lemma valid_label_clean kv : valid_label kv → clean kv.1 ∧ clean kv.2 ∧ kv.1 ≠ "".
Proof.
  unfold valid_label, validateLabelKey, validateLabelValue. intros [Hk Hv].
  assert (IsQualifiedName kv.1 = []) as Hk' by (destruct (IsQualifiedName kv.1); [done|by rewrite bool_decide_true in Hk by done]).
  assert (IsValidLabelValue kv.2 = []) as Hv' by (destruct (IsValidLabelValue kv.2); [done|by rewrite bool_decide_true in Hv by done]).
  apply IsQualifiedName_nil, label_key_chars in Hk' as [Hne Hk'].
  apply IsValidLabelValue_nil, label_value_chars in Hv'. split_and!; [done..|]. by intros Hn; rewrite Hn in Hne.
Qed.

Lemma clean_no_char c s : labelChar c = false → clean s → no_char c s.
Proof.
  intros Hc. unfold clean. induction s as [|d s IH]; [done|]. cbn. intros [Hd Hs]%Forall_cons.
  split; [congruence|auto].
Qed.

Lemma strip_one_None ps l :
  Forall (λ p, ∃ c p', p = c :: p' ∧ labelChar c = false) ps → Forall (λ c, labelChar c = true) l → strip_one ps l = None.
Proof.
  intros Hps Hl. induction Hps as [|p ps (c & p' & -> & Hc) _ IH]; [done|]. cbn.
  destruct l as [|d l]; [done|]. rewrite bool_decide_eq_false_2; [done|].
  apply Forall_cons in Hl as [Hd _]. congruence.
Qed.

Lemma TrimLeft_clean ps l :
  Forall (λ p, ∃ c p', p = c :: p' ∧ labelChar c = false) ps → Forall (λ c, labelChar c = true) l → TrimLeft ps l = l.
Proof. intros Hps Hl. unfold TrimLeft. destruct l as [|c l]; [done|]. cbn [length strip_all]. by rewrite strip_one_None. Qed.

Lemma TrimSpace_clean s : clean s → TrimSpace s = s.
Proof.
  intros Hs. unfold TrimSpace. rewrite (TrimLeft_clean spaces), TrimLeft_clean.
  - rewrite reverse_involutive. apply String.string_of_list_ascii_of_string.
  - by repeat (constructor; [by eexists _, _|]).
  - by apply Forall_reverse.
  - by repeat (constructor; [by eexists _, _|]).
  - done.
Qed.

(** ** Printed labels *)
Definition label_text (kv : string * string) : string := kv.1 +:+ "=" +:+ kv.2.

Lemma no_char_append c s t : no_char c s → no_char c t → no_char c (s +:+ t).
Proof. intros Hs Ht. induction s as [|d s IH]; [done|]. destruct Hs as [Hd Hs]. split; [done|]. by apply IH. Qed.

Lemma Split_join sep l : l ≠ [] → Forall (no_char sep) l → Split sep (String.concat (String.String sep "") l) = l.
Proof.
  induction l as [|w l IH]; [done|]. intros _ [Hw Hl]%Forall_cons. destruct l as [|w' l].
  - by apply Split_no_char.
  - change (String.concat (String.String sep "") (w :: w' :: l)) with
      (w +:+ String.String sep (String.concat (String.String sep "") (w' :: l))).
    by rewrite Split_append, IH.
Qed.

Lemma convert_labels_text l m :
  Forall valid_label l →
  convert_labels (label_text <$> l) m = (foldl (λ m kv, <[kv.1 := kv.2]> m) m l, None).
Proof.
  intros Hl. revert m. induction Hl as [|[k v] l [Hk Hv] Hl IH]; intros m; [done|].
  destruct (valid_label_clean (k, v) (conj Hk Hv)) as (Ck & Cv & _). cbn in *.
  unfold label_text at 1. cbn [fst snd]. change ("=" +:+ ?u) with (String.String "=" u).
  rewrite Split_append, Split_no_char by (by apply clean_no_char).
  by rewrite !TrimSpace_clean, Hk, Hv.
Qed.

Lemma foldl_insert_list_to_map (m : Set_) l :
  foldl (λ m kv, <[kv.1 := kv.2]> m) m l = list_to_map (reverse l) ∪ m.
Proof.
  revert m. induction l as [|[k v] l IH]; intros m; [symmetry; apply map_empty_union|].
  cbn [foldl]. rewrite IH, reverse_cons, list_to_map_app. cbn [list_to_map foldr].
  by rewrite insert_empty, <-map_union_assoc, insert_union_singleton_l.
Qed.

Lemma label_text_clean kv : valid_label kv → no_char "," (label_text kv).
Proof.
  intros (Ck & Cv & _)%valid_label_clean. unfold label_text.
  repeat apply no_char_append; [by apply clean_no_char|by repeat split|by apply clean_no_char].
Qed.

Lemma convert_labels_valid labels m m' :
  convert_labels labels m = (m', None) → map_Forall (λ k v, valid_label (k, v)) m →
  map_Forall (λ k v, valid_label (k, v)) m'.
Proof.
  revert m. induction labels as [|label labels IH]; intros m; cbn; [by intros [= <-]|].
  repeat case_match; try done. intros Hc Hm. apply (IH _ Hc). by apply map_Forall_insert_2.
Qed.

Section maps.
Context (rng : Set_ → list (string * string)) `{!range_order rng}.

Lemma range_list_to_map l ls : l ≡ₚ rng ls → list_to_map (reverse l) = ls.
Proof.
  intros Hl. assert (reverse l ≡ₚ map_to_list ls) as Hr by by rewrite reverse_Permutation, Hl, (range_perm (rng := rng) ls).
  rewrite <-(list_to_map_to_list ls). apply list_to_map_proper; [|done].
  rewrite Hr. apply NoDup_fst_map_to_list.
Qed.

Lemma foldl_insert_range l ls m : l ≡ₚ rng ls → foldl (λ m kv, <[kv.1 := kv.2]> m) m l = ls ∪ m.
Proof. intros Hl. by rewrite foldl_insert_list_to_map, (range_list_to_map l ls). Qed.

(** A map of valid labels is read back from its printed form, and only such maps are
    ever read without an error. *)
Theorem labels_map_roundtrip ls selector m :
  (map_Forall (λ k v, valid_label (k, v)) ls → ConvertSelectorToLabelsMap (Set_String rng ls) = (ls, None)) ∧
  (ConvertSelectorToLabelsMap selector = (m, None) → map_Forall (λ k v, valid_label (k, v)) m).
Proof.
  split.
  - intros Hv. assert (Forall valid_label (rng ls)) as Hall.
    { apply Forall_forall. intros [k v] Hkv. apply Hv. by apply (range_elem rng). }
    destruct (Permutation_map_inv label_text (rng ls) (merge_sort_Permutation String.le _)) as (l & Hl & Hp).
    unfold Set_String, ConvertSelectorToLabelsMap, join_comma. change (λ kv, kv.1 +:+ "=" +:+ kv.2) with label_text.
    rewrite Hp in Hall. replace (merge_sort _ _) with (label_text <$> l) by done.
    assert (ls = list_to_map (reverse l)) as Hls by (symmetry; by apply range_list_to_map).
    destruct l as [|kv l]; [by rewrite Hls|]. rewrite bool_decide_eq_false_2.
    + rewrite (Split_join ","), convert_labels_text, (foldl_insert_range _ ls), map_union_empty; try done.
      apply Forall_fmap. apply (Forall_impl _ _ _ Hall). apply label_text_clean.
    + apply Forall_cons in Hall as [(_ & _ & Hne)%valid_label_clean _]. destruct kv as [[|c k] v]; [done|].
      by destruct l.
  - unfold ConvertSelectorToLabelsMap. case_bool_decide.
    + intros [= <-]. apply map_Forall_empty.
    + intros Hc. apply (convert_labels_valid _ _ _ Hc), map_Forall_empty.
Qed.

Lemma all_in_spec l m : all_in l m = true ↔ ∀ k v, (k, v) ∈ l → m !! k = Some v.
Proof.
  induction l as [|[k v] l IH]; cbn; [set_solver|]. destruct (m !! k) as [w|] eqn:E.
  - destruct (String.eqb_spec w v) as [->|Hne]; cbn; [rewrite IH; set_solver|].
    split; [done|]. intros Hall. specialize (Hall k v ltac:(set_solver)). congruence.
  - split; [done|]. intros Hall. specialize (Hall k v ltac:(set_solver)). congruence.
Qed.

Lemma all_in_range ls m : all_in (rng ls) m = true ↔ ls ⊆ m.
Proof. rewrite all_in_spec, map_subseteq_spec. by setoid_rewrite (range_elem rng). Qed.

Lemma conflicts_in_spec l big :
  conflicts_in l big = false ↔ ∀ k v w, (k, v) ∈ l → big !! k = Some w → v = w.
Proof.
  induction l as [|[k v] l IH]; cbn; [set_solver|]. destruct (big !! k) as [w|] eqn:E.
  - destruct (String.eqb_spec w v) as [->|Hne]; cbn.
    + rewrite IH. set_solver.
    + split; [done|]. intros Hall. by destruct Hne; symmetry; apply (Hall k); [set_solver|].
  - rewrite IH. set_solver.
Qed.

Lemma conflicts_range ls big : conflicts_in (rng ls) big = false ↔ map_agree ls big.
Proof.
  rewrite conflicts_in_spec, map_agree_spec. setoid_rewrite (range_elem rng). naive_solver.
Qed.

(** On maps of labels: the merge holds the labels of both, the second map's where
    they differ; a conflict is a key with two values; equality is equality, and the
    labels in a whitelist are a part of it unless it is empty. *)
Theorem label_maps_exact labels1 labels2 :
  Merge rng labels1 labels2 = labels2 ∪ labels1 ∧
  (Conflicts rng labels1 labels2 = false ↔ map_agree labels1 labels2) ∧
  (Set_Equals rng labels1 labels2 = true ↔ labels1 = labels2) ∧
  (AreLabelsInWhiteList rng labels1 labels2 = true ↔ labels2 = ∅ ∨ labels1 ⊆ labels2).
Proof.
  split_and!.
  - unfold Merge. by rewrite !(foldl_insert_range (rng _) _ _ (reflexivity _)), (map_union_empty labels1).
  - unfold Conflicts. case_bool_decide; rewrite conflicts_range; [|done]. split; by intros ?%symmetry.
  - unfold Set_Equals. case_bool_decide as Hs; [split; [done|by intros ->]|]. rewrite all_in_range. split; [|by intros ->].
    intros Hsub. apply (map_subseteq_size_eq _ _ Hsub). lia.
  - unfold AreLabelsInWhiteList. case_bool_decide as Hs.
    + apply map_size_empty_inv in Hs. tauto.
    + rewrite all_in_range. split; [auto|]. intros [->|?]; [by rewrite map_size_empty in Hs|done].
Qed.
End maps.

Lemma labels_map_roundtrip_witness :
  ConvertSelectorToLabelsMap (Set_String map_to_list {["app" := "pilot"; "istio.io/rev" := ""]}) =
  ({["app" := "pilot"; "istio.io/rev" := ""]}, None).
Proof. apply (labels_map_roundtrip map_to_list _ "" ∅). refine (bool_decide_eq_true_1 _ _). vm_compute. reflexivity. Defined.

Lemma label_maps_exact_witness :
  Merge map_to_list {["a" := "1"; "b" := "2"]} {["b" := "3"]} = {["b" := "3"]} ∪ {["a" := "1"; "b" := "2"]}.
Proof. apply label_maps_exact. apply _. Defined.
