(* ===== verification/LabelParser.v ===== *)
(** * Parsing label selectors (k8s.io/apimachinery/pkg/labels/selector.go)

    A lexer that reads bytes of the selector and a recursive descent over the scanned
    items.  The loops of both carry fuel; running out of it, like an index out of range,
    is the result [None] of the lexer and [PPanic] of the parser, which the theorems
    exclude for every input. *)

From Stdlib Require Import Ascii.
From S2P Require Import Prelude StringSets ObjectKeys Validation Labels.

(** ** Tokens *)
Inductive Token : Type :=
| ErrorToken | EndOfStringToken | ClosedParToken | CommaToken | DoesNotExistToken | DoubleEqualsToken
| EqualsToken | GreaterThanToken | IdentifierToken | InToken | LessThanToken | NotEqualsToken
| NotInToken | OpenParToken.

#[export] Instance Token_eq_dec : EqDecision Token.
Proof. solve_decision. Defined.

Definition string2token (s : string) : option Token :=
  match s with
  | ")" => Some ClosedParToken
  | "," => Some CommaToken
  | "!" => Some DoesNotExistToken
  | "==" => Some DoubleEqualsToken
  | "=" => Some EqualsToken
  | ">" => Some GreaterThanToken
  | "in" => Some InToken
  | "<" => Some LessThanToken
  | "!=" => Some NotEqualsToken
  | "notin" => Some NotInToken
  | "(" => Some OpenParToken
  | _ => None
  end.

Record ScannedItem := { tok : Token; literal : string }.

#[export] Instance ScannedItem_eq_dec : EqDecision ScannedItem.
Proof. solve_decision. Defined.

Definition isWhitespace (ch : ascii) : bool :=
  is_char " " ch || is_char "009" ch || is_char "013" ch || is_char "010" ch.

Definition isSpecialSymbol (ch : ascii) : bool :=
  match ch with
  | "=" | "!" | "(" | ")" | "," | ">" | "<" => true
  | _ => false
  end%char.

(** ** The lexer *)
Record Lexer := { s : list ascii; pos : nat }.

Definition read (l : Lexer) : ascii * Lexer :=
  match s l !! pos l with
  | Some b => (b, {| s := s l; pos := S (pos l) |})
  | None => ("000"%char, l)
  end.

Definition unread (l : Lexer) : Lexer := {| s := s l; pos := pos l - 1 |}.

Definition text (buffer : list ascii) : string := String.string_of_list_ascii buffer.

Fixpoint scan_id (fuel : nat) (l : Lexer) (buffer : list ascii) : option (list ascii * Lexer) :=
  match fuel with
  | 0 => None
  | S fuel =>
    let '(ch, l) := read l in
    if bool_decide (ch = "000"%char) then Some (buffer, l)
    else if isSpecialSymbol ch || isWhitespace ch then Some (buffer, unread l)
    else scan_id fuel l (buffer ++ [ch])
  end.

Definition scanIDOrKeyword (l : Lexer) : option (ScannedItem * Lexer) :=
  '(buffer, l) ← scan_id (S (length (s l))) l [];
  let s := text buffer in
  Some (match string2token s with
        | Some val => {| tok := val; literal := s |}
        | None => {| tok := IdentifierToken; literal := s |}
        end, l).

Fixpoint scan_special (fuel : nat) (l : Lexer) (buffer : list ascii) (lastScannedItem : ScannedItem) :
    option (list ascii * ScannedItem * Lexer) :=
  match fuel with
  | 0 => None
  | S fuel =>
    let '(ch, l) := read l in
    if bool_decide (ch = "000"%char) then Some (buffer, lastScannedItem, l)
    else if isSpecialSymbol ch then
      let buffer := buffer ++ [ch] in
      match string2token (text buffer) with
      | Some token => scan_special fuel l buffer {| tok := token; literal := text buffer |}
      | None =>
        if bool_decide (tok lastScannedItem ≠ ErrorToken) then Some (buffer, lastScannedItem, unread l)
        else scan_special fuel l buffer lastScannedItem
      end
    else Some (buffer, lastScannedItem, unread l)
  end.

Definition scanSpecialSymbol (l : Lexer) : option (ScannedItem * Lexer) :=
  '(buffer, lastScannedItem, l) ← scan_special (S (length (s l))) l [] {| tok := ErrorToken; literal := "" |};
  Some (if bool_decide (tok lastScannedItem = ErrorToken)
        then {| tok := ErrorToken; literal := "error expected: keyword found '" +:+ text buffer +:+ "'" |}
        else lastScannedItem, l).

Fixpoint skipWhiteSpaces (fuel : nat) (ch : ascii) (l : Lexer) : option (ascii * Lexer) :=
  match fuel with
  | 0 => None
  | S fuel =>
    if negb (isWhitespace ch) then Some (ch, l)
    else let '(ch, l) := read l in skipWhiteSpaces fuel ch l
  end.

Definition Lex (l : Lexer) : option (ScannedItem * Lexer) :=
  let '(ch, l) := read l in
  '(ch, l) ← skipWhiteSpaces (S (S (length (s l)))) ch l;
  if bool_decide (ch = "000"%char) then Some ({| tok := EndOfStringToken; literal := "" |}, l)
  else if isSpecialSymbol ch then scanSpecialSymbol (unread l)
  else scanIDOrKeyword (unread l).

(** [Parser.scan]. *)
Fixpoint scan_loop (fuel : nat) (l : Lexer) (items : list ScannedItem) : option (list ScannedItem) :=
  match fuel with
  | 0 => None
  | S fuel =>
    '(item, l) ← Lex l;
    let items := items ++ [item] in
    if bool_decide (tok item = EndOfStringToken) then Some items else scan_loop fuel l items
  end.

Definition scan (selector : string) : option (list ScannedItem) :=
  scan_loop (S (S (String.length selector))) {| s := chars selector; pos := 0 |} [].

(** ** The parser *)
Record Parser := { scannedItems : list ScannedItem; position : nat }.

Inductive ParserContext := KeyAndOperator | InValues.

Inductive parse_error : Type :=
| UnableToParse (e : parse_error)
| ExpectedIdentifierAfterComma (l2 : string)
| ExpectedCommaOrEnd (l : string)
| ExpectedRequirement (lit : string)
| ExpectedIdentifier (lit : string)
| ExpectedOperator (lit : string)
| ExpectedOpenPar (lit : string)
| ExpectedClosedPar (lit : string)
| ExpectedCommaParOrIdentifier (lit : string)
| ExpectedCommaOrPar (lit : string)
| ExpectedCommaOrIdentifier (lit : string)
| LabelError (e : label_error).

Inductive presult (A : Type) : Type :=
| POk (a : A) (p : Parser)
| PErr (e : parse_error)
| PPanic.
Arguments POk {A} _ _.
Arguments PErr {A} _.
Arguments PPanic {A}.

Definition pst (A : Type) : Type := Parser → presult A.

#[export] Instance pst_ret : MRet pst := λ A a p, POk a p.
#[export] Instance pst_bind : MBind pst := λ A B f m p,
  match m p with
  | POk a p' => f a p'
  | PErr e => PErr e
  | PPanic => PPanic
  end.

Definition perr {A} (e : parse_error) : pst A := λ _, PErr e.
Definition ppanic {A} : pst A := λ _, PPanic.
Definition plift {A} (r : res label_error A) : pst A :=
  match r with Ok a => mret a | Err e => perr (LabelError e) end.

(** What a context makes of a token. *)
Definition in_context (context : ParserContext) (item : ScannedItem) : Token * string :=
  (match context, tok item with
   | InValues, (InToken | NotInToken) => IdentifierToken
   | _, t => t
   end, literal item).

Definition lookahead (context : ParserContext) : pst (Token * string) := λ p,
  match scannedItems p !! position p with
  | Some item => POk (in_context context item) p
  | None => PPanic
  end.

Definition consume (context : ParserContext) : pst (Token * string) := λ p,
  match scannedItems p !! position p with
  | Some item => POk (in_context context item) {| scannedItems := scannedItems p; position := S (position p) |}
  | None => PPanic
  end.

Definition parseKeyAndInferOperator : pst (string * Operator) :=
  '(t, lit) ← consume InValues;
  '(operator, t, lit) ← (if bool_decide (t = DoesNotExistToken) then
                           '(t, lit) ← consume InValues; mret (DoesNotExist, t, lit)
                         else mret (OtherOperator "", t, lit));
  if bool_decide (t ≠ IdentifierToken) then perr (ExpectedIdentifier lit)
  else
    match validateLabelKey lit with
    | Some err => perr (LabelError err)
    | None =>
      '(t, _) ← lookahead InValues;
      mret (lit, if bool_decide (t = EndOfStringToken ∨ t = CommaToken)
                 then if bool_decide (operator ≠ DoesNotExist) then Exists_ else operator
                 else operator)
    end.

Definition parseOperator : pst Operator :=
  '(t, lit) ← consume KeyAndOperator;
  match t with
  | InToken => mret In_
  | EqualsToken => mret Equals
  | DoubleEqualsToken => mret DoubleEquals
  | GreaterThanToken => mret GreaterThan
  | LessThanToken => mret LessThan
  | NotInToken => mret NotIn
  | NotEqualsToken => mret NotEquals
  | _ => perr (ExpectedOperator lit)
  end.

Fixpoint identifiers_loop (fuel : nat) (s : gset string) : pst (gset string) :=
  match fuel with
  | 0 => ppanic
  | S fuel =>
    '(t, lit) ← consume InValues;
    match t with
    | IdentifierToken =>
      let s := Insert s [lit] in
      '(tok2, lit2) ← lookahead InValues;
      match tok2 with
      | CommaToken => identifiers_loop fuel s
      | ClosedParToken => mret s
      | _ => perr (ExpectedCommaOrPar lit2)
      end
    | CommaToken =>
      let s := if bool_decide (Len s = 0) then Insert s [""] else s in
      '(tok2, _) ← lookahead InValues;
      if bool_decide (tok2 = ClosedParToken) then mret (Insert s [""])
      else if bool_decide (tok2 = CommaToken) then
        consume InValues;; identifiers_loop fuel (Insert s [""])
      else identifiers_loop fuel s
    | _ => perr (ExpectedCommaOrIdentifier lit)
    end
  end.

Definition parseIdentifiersList : pst (gset string) := λ p,
  identifiers_loop (S (length (scannedItems p))) (NewString []) p.

Definition parseValues : pst (gset string) :=
  '(t, lit) ← consume InValues;
  if bool_decide (t ≠ OpenParToken) then perr (ExpectedOpenPar lit)
  else
    '(t, lit) ← lookahead InValues;
    match t with
    | IdentifierToken | CommaToken =>
      s ← parseIdentifiersList;
      '(t, _) ← consume InValues;
      if bool_decide (t ≠ ClosedParToken) then perr (ExpectedClosedPar lit) else mret s
    | ClosedParToken => consume InValues;; mret (NewString [""])
    | _ => perr (ExpectedCommaParOrIdentifier lit)
    end.

Definition parseExactValue : pst (gset string) :=
  let s := NewString [] in
  '(t, lit) ← lookahead InValues;
  if bool_decide (t = EndOfStringToken ∨ t = CommaToken) then mret (Insert s [""])
  else
    '(t, lit) ← consume InValues;
    if bool_decide (t = IdentifierToken) then mret (Insert s [lit]) else perr (ExpectedIdentifier lit).

Section parsing.
Context (rngs : gset string → list string) (srt : list Requirement → list Requirement).

Definition parseRequirement : pst Requirement :=
  '(key, operator) ← parseKeyAndInferOperator;
  if bool_decide (operator = Exists_ ∨ operator = DoesNotExist) then plift (NewRequirement key operator [])
  else
    operator ← parseOperator;
    values ← match operator with
             | In_ | NotIn => parseValues
             | Equals | DoubleEquals | NotEquals | GreaterThan | LessThan => parseExactValue
             | _ => mret ∅
             end;
    plift (NewRequirement key operator (List rngs values)).

(** An error of [parseRequirement], as [Parser.parse] wraps it. *)
Definition wrap {A} (m : pst A) : pst A := λ p,
  match m p with PErr e => PErr (UnableToParse e) | r => r end.

Fixpoint parse_loop (fuel : nat) (requirements : list Requirement) : pst internalSelector :=
  match fuel with
  | 0 => ppanic
  | S fuel =>
    '(t, lit) ← lookahead InValues;
    match t with
    | IdentifierToken | DoesNotExistToken =>
      r ← wrap parseRequirement;
      let requirements := requirements ++ [r] in
      '(t, l) ← consume InValues;
      match t with
      | EndOfStringToken => mret requirements
      | CommaToken =>
        '(t2, l2) ← lookahead InValues;
        if bool_decide (t2 ≠ IdentifierToken ∧ t2 ≠ DoesNotExistToken)
        then perr (ExpectedIdentifierAfterComma l2)
        else parse_loop fuel requirements
      | _ => perr (ExpectedCommaOrEnd l)
      end
    | EndOfStringToken => mret requirements
    | _ => perr (ExpectedRequirement lit)
    end
  end.

(** [Parser.parse] and the function [parse]; [None] is a panic. *)
Definition parse (selector : string) : option (res parse_error internalSelector) :=
  items ← scan selector;
  match parse_loop (S (length items)) [] {| scannedItems := items; position := 0 |} with
  | POk items _ => Some (Ok (srt items))
  | PErr e => Some (Err e)
  | PPanic => None
  end.

Definition Parse (selector : string) : option (res parse_error Selector) :=
  r ← parse selector;
  Some (match r with Ok parsedSelector => Ok (Internal parsedSelector) | Err err => Err err end).

Definition ParseToRequirements (selector : string) : option (res parse_error (list Requirement)) :=
  parse selector.
End parsing.

Example parse_documented :
  Parse elements (merge_sort key_le) "x in (foo,,baz),y,z notin ()" =
  Some (Ok (Internal [ {| key := "x"; operator := In_; strValues := [""; "baz"; "foo"] |};
                       {| key := "y"; operator := Exists_; strValues := [] |};
                       {| key := "z"; operator := NotIn; strValues := [""] |} ])).
Proof. vm_compute. reflexivity. Qed.

(** ** The lexer returns on every input *)
Definition plain (c : ascii) : bool :=
  negb (bool_decide (c = "000"%char)) && negb (isSpecialSymbol c || isWhitespace c).

Lemma read_cases l :
  (read l = ("000"%char, l) ∧ length (s l) ≤ pos l) ∨
  (∃ c, s l !! pos l = Some c ∧ pos l < length (s l) ∧ read l = (c, {| s := s l; pos := S (pos l) |})).
Proof.
  unfold read. destruct (s l !! pos l) as [c|] eqn:E.
  - right. exists c. split_and!; [done| |done]. by apply lookup_lt_is_Some; eexists.
  - left. split; [done|]. by apply lookup_ge_None.
Qed.

Lemma read_Some l c : s l !! pos l = Some c → read l = (c, {| s := s l; pos := S (pos l) |}).
Proof. unfold read. by intros ->. Qed.

Lemma scan_id_total fuel l buffer :
  length (s l) - pos l < fuel →
  ∃ buffer' l', scan_id fuel l buffer = Some (buffer', l') ∧ s l' = s l ∧ pos l ≤ pos l'.
Proof.
  revert l buffer. induction fuel as [|fuel IH]; intros l buffer Hf; [lia|]. cbn [scan_id].
  destruct (read_cases l) as [[-> _]|(c & _ & Hlt & ->)].
  { rewrite bool_decide_eq_true_2 by done. eexists _, _. split_and!; [done|done|lia]. }
  case_bool_decide; [eexists _, _; split_and!; [done|done|cbn; lia]|].
  destruct (_ || _); [eexists _, _; split_and!; [done|done|cbn; lia]|].
  destruct (IH {| s := s l; pos := S (pos l) |} (buffer ++ [c])) as (b & l' & -> & Hs & Hp); [cbn; lia|].
  eexists _, _. split_and!; [done|done|]. cbn in Hp. lia.
Qed.

Lemma string2token_proper s t : string2token s = Some t → t ≠ ErrorToken ∧ t ≠ EndOfStringToken.
Proof. unfold string2token. by repeat case_match; intros [= <-]. Qed.

Lemma scanIDOrKeyword_total l c :
  s l !! pos l = Some c → plain c = true →
  ∃ item l', scanIDOrKeyword l = Some (item, l') ∧ s l' = s l ∧ pos l < pos l' ∧
    tok item ≠ ErrorToken ∧ tok item ≠ EndOfStringToken.
Proof.
  intros Hc [Hz Ho]%andb_prop. unfold scanIDOrKeyword. cbn [scan_id]. rewrite (read_Some _ _ Hc).
  apply lookup_lt_Some in Hc. apply negb_true_iff in Hz as ->. apply negb_true_iff in Ho as ->.
  destruct (scan_id_total (length (s l)) {| s := s l; pos := S (pos l) |} ([] ++ [c])) as (b & l' & -> & Hs & Hp).
  { cbn. lia. }
  cbn -[string2token] in *. destruct (string2token (text b)) as [t|] eqn:Et; eexists _, l'.
  - apply string2token_proper in Et as [??]. split_and!; [done|done|lia|done|done].
  - split_and!; [done|done|lia|done|done].
Qed.

Lemma scan_special_total fuel l buffer last :
  length (s l) - pos l < fuel → tok last ≠ ErrorToken → tok last ≠ EndOfStringToken →
  ∃ buffer' last' l', scan_special fuel l buffer last = Some (buffer', last', l') ∧ s l' = s l ∧ pos l ≤ pos l' ∧
    tok last' ≠ ErrorToken ∧ tok last' ≠ EndOfStringToken.
Proof.
  revert l buffer last. induction fuel as [|fuel IH]; intros l buffer last Hf He He'; [lia|]. cbn [scan_special].
  destruct (read_cases l) as [[-> _]|(c & _ & Hlt & ->)].
  { rewrite bool_decide_eq_true_2 by done. eexists _, _, _. split_and!; [done|done|lia|done|done]. }
  case_bool_decide; [eexists _, _, _; split_and!; [done|done|cbn; lia|done|done]|].
  destruct (isSpecialSymbol c); [|eexists _, _, _; split_and!; [done|done|cbn; lia|done|done]].
  destruct (string2token (text (buffer ++ [c]))) as [t|] eqn:Et.
  - apply string2token_proper in Et as [??].
    destruct (IH {| s := s l; pos := S (pos l) |} (buffer ++ [c]) {| tok := t; literal := text (buffer ++ [c]) |})
      as (b & last' & l' & -> & Hs & Hp & ?); [cbn; lia|done|done|].
    eexists _, _, _. split_and!; [done|done| |naive_solver..]. cbn in Hp. lia.
  - rewrite bool_decide_eq_true_2 by done. eexists _, _, _. split_and!; [done|done|cbn; lia|done|done].
Qed.

Lemma special_is_token c : isSpecialSymbol c = true → is_Some (string2token (text [c])).
Proof. intros Hc. destruct c as [[] [] [] [] [] [] [] []]; vm_compute in Hc |- *; first [done|by eexists]. Qed.

Lemma scanSpecialSymbol_total l c :
  s l !! pos l = Some c → c ≠ "000"%char → isSpecialSymbol c = true →
  ∃ item l', scanSpecialSymbol l = Some (item, l') ∧ s l' = s l ∧ pos l < pos l' ∧
    tok item ≠ ErrorToken ∧ tok item ≠ EndOfStringToken.
Proof.
  intros Hc Hz Hs. unfold scanSpecialSymbol. cbn [scan_special]. rewrite (read_Some _ _ Hc).
  apply lookup_lt_Some in Hc. rewrite bool_decide_eq_false_2, Hs by done. cbn [app].
  destruct (special_is_token _ Hs) as [t Ht]. rewrite Ht. destruct (string2token_proper _ _ Ht) as [H1 H2].
  destruct (scan_special_total (length (s l)) {| s := s l; pos := S (pos l) |} [c] {| tok := t; literal := text [c] |})
    as (b & last' & l' & -> & Hs' & Hp & He & He'); [cbn; lia|done|done|].
  cbn in *. eexists _, l'. rewrite bool_decide_eq_false_2 by done. split_and!; [done|done|lia|done|done].
Qed.

Lemma skipWhiteSpaces_total fuel ch l :
  length (s l) - pos l + 1 < fuel → (ch ≠ "000"%char → 0 < pos l ∧ s l !! (pos l - 1) = Some ch) →
  ∃ ch' l', skipWhiteSpaces fuel ch l = Some (ch', l') ∧ s l' = s l ∧ pos l ≤ pos l' ∧ isWhitespace ch' = false ∧
    (ch' ≠ "000"%char → ch ≠ "000"%char ∧ s l' !! (pos l' - 1) = Some ch').
Proof.
  revert ch l. induction fuel as [|fuel IH]; intros ch l Hf Hch; [lia|]. cbn [skipWhiteSpaces].
  destruct (isWhitespace ch) eqn:Hw; cbn [negb].
  - assert (ch ≠ "000"%char) as Hne by by intros ->. destruct (read_cases l) as [[-> Hl]|(c & Hc & Hlt & ->)].
    + destruct fuel as [|fuel]; [lia|]. cbn. eexists _, l. split_and!; [done|done|lia|done|done].
    + destruct (IH c {| s := s l; pos := S (pos l) |}) as (ch' & l' & -> & Hs & Hp & Hw' & Hch'); [cbn; lia| |].
      { intros _. cbn. rewrite Nat.sub_0_r. split; [lia|done]. }
      exists ch', l'. split_and!; [done|done|cbn in Hp; lia|done|]. naive_solver.
  - exists ch, l. split_and!; [done|done|lia|done|]. naive_solver.
Qed.

Lemma Lex_total l :
  ∃ item l', Lex l = Some (item, l') ∧ s l' = s l ∧ tok item ≠ ErrorToken ∧
    (tok item = EndOfStringToken ∨ tok item ≠ EndOfStringToken ∧ pos l < pos l' ∧ pos l < length (s l)).
Proof.
  unfold Lex. assert (∃ ch l1, read l = (ch, l1) ∧ s l1 = s l ∧ pos l ≤ pos l1 ∧
    (ch ≠ "000"%char → pos l1 = S (pos l) ∧ s l1 !! (pos l1 - 1) = Some ch)) as (ch & l1 & -> & Hs1 & Hp1 & Hch).
  { destruct (read_cases l) as [[-> _]|(c & Hc & Hlt & ->)]; eexists _, _; (split; [done|]); cbn.
    - by split_and!.
    - rewrite Nat.sub_0_r. split_and!; [done|lia|done]. }
  destruct (skipWhiteSpaces_total (S (S (length (s l1)))) ch l1) as (ch' & l2 & -> & Hs2 & Hp2 & Hw & Hch');
    [lia|intros Hne; destruct (Hch Hne); split; [lia|done]|].
  cbn [mbind option_bind]. case_bool_decide as Hz.
  { eexists _, _. split_and!; [done|congruence|done|by left]. }
  destruct (Hch' Hz) as [Hne Hc]. destruct (Hch Hne) as [Hp _].
  assert (pos l < length (s l)) as Hlt by (apply lookup_lt_Some in Hc; rewrite Hs2, Hs1 in Hc; lia).
  destruct (isSpecialSymbol ch') eqn:Hsp.
  - destruct (scanSpecialSymbol_total (unread l2) ch') as (item & l3 & -> & Hs3 & Hp3 & ? & ?); [done..|].
    cbn in *. eexists _, _. split_and!; [done|congruence|done|right]. split_and!; [done|lia|lia].
  - destruct (scanIDOrKeyword_total (unread l2) ch') as (item & l3 & -> & Hs3 & Hp3 & ? & ?); [done|..].
    { unfold plain. by rewrite bool_decide_eq_false_2, Hsp, Hw. }
    cbn in *. eexists _, _. split_and!; [done|congruence|done|right]. split_and!; [done|lia|lia].
Qed.

Definition end_item : ScannedItem := {| tok := EndOfStringToken; literal := "" |}.
Definition inner (item : ScannedItem) : Prop := tok item ≠ ErrorToken ∧ tok item ≠ EndOfStringToken.

Lemma scan_loop_total fuel l items :
  length (s l) - pos l < fuel → Forall inner items →
  ∃ items' e, scan_loop fuel l items = Some (items' ++ [e]) ∧ Forall inner items' ∧ tok e = EndOfStringToken.
Proof.
  revert l items. induction fuel as [|fuel IH]; intros l items Hf Hi; [lia|]. cbn [scan_loop].
  destruct (Lex_total l) as (item & l' & -> & Hs & He & Hend). cbn [mbind option_bind].
  destruct Hend as [Hend|(Hne & Hp & Hlt)].
  - rewrite bool_decide_eq_true_2 by done. by eexists items, item.
  - rewrite bool_decide_eq_false_2 by done. apply IH; [rewrite Hs; lia|]. apply Forall_app. by repeat constructor.
Qed.

Lemma scan_total selector :
  ∃ items e, scan selector = Some (items ++ [e]) ∧ Forall inner items ∧ tok e = EndOfStringToken.
Proof. apply scan_loop_total; [|constructor]. cbn. rewrite length_chars. lia. Qed.

(** ** The grammar of selectors

    What the parser reads, on scanned items, with what each phrase stands for.  It is
    not the grammar that [Parse] documents: the operators [>] and [<] and the empty
    selector are additions, and [!] only stands before a key alone.  The documented
    grammar follows as [documented]. *)
Definition is_ident (i : ScannedItem) : Prop := (in_context InValues i).1 = IdentifierToken.

Inductive value_syntax : list ScannedItem → string → Prop :=
| value_empty : value_syntax [] ""
| value_ident i : is_ident i → value_syntax [i] (literal i).

Inductive values_syntax : list ScannedItem → list string → Prop :=
| values_one ts v : value_syntax ts v → values_syntax ts [v]
| values_more ts v c us vs :
  value_syntax ts v → tok c = CommaToken → values_syntax us vs → values_syntax (ts ++ c :: us) (v :: vs).

Definition operator_token (t : Token) : option Operator :=
  match t with
  | InToken => Some In_
  | EqualsToken => Some Equals
  | DoubleEqualsToken => Some DoubleEquals
  | GreaterThanToken => Some GreaterThan
  | LessThanToken => Some LessThan
  | NotInToken => Some NotIn
  | NotEqualsToken => Some NotEquals
  | _ => None
  end.

Definition set_based (op : Operator) : Prop := op = In_ ∨ op = NotIn.

Definition value_list (vs : list string) : list string := merge_sort String.le (elements (list_to_set vs : gset string)).

Inductive requirement_syntax : list ScannedItem → Requirement → Prop :=
| syn_exists k r : is_ident k → NewRequirement (literal k) Exists_ [] = Ok r → requirement_syntax [k] r
| syn_not n k r :
  tok n = DoesNotExistToken → is_ident k → NewRequirement (literal k) DoesNotExist [] = Ok r →
  requirement_syntax [n; k] r
| syn_exact k o op ts v r :
  is_ident k → operator_token (tok o) = Some op → ¬ set_based op → value_syntax ts v →
  NewRequirement (literal k) op [v] = Ok r → requirement_syntax (k :: o :: ts) r
| syn_set k o op lp ts vs rp r :
  is_ident k → operator_token (tok o) = Some op → set_based op →
  tok lp = OpenParToken → values_syntax ts vs → tok rp = ClosedParToken →
  NewRequirement (literal k) op (value_list vs) = Ok r → requirement_syntax (k :: o :: lp :: ts ++ [rp]) r.

Inductive selector_syntax : list ScannedItem → list Requirement → Prop :=
| syn_nothing : selector_syntax [] []
| syn_one ts r : requirement_syntax ts r → selector_syntax ts [r]
| syn_more ts r c us rs :
  requirement_syntax ts r → tok c = CommaToken → us ≠ [] → selector_syntax us rs →
  selector_syntax (ts ++ c :: us) (r :: rs).

(** The grammar in the comment of [Parse]: an optional [!], a key, and optionally a
    restriction by a set of values or by an exact match. *)
Inductive documented_requirement : list ScannedItem → Prop :=
| doc_key n k :
  (n = [] ∨ ∃ i, n = [i] ∧ tok i = DoesNotExistToken) → is_ident k → documented_requirement (n ++ [k])
| doc_set n k o lp ts vs rp :
  documented_requirement (n ++ [k]) → tok o = InToken ∨ tok o = NotInToken →
  tok lp = OpenParToken → values_syntax ts vs → tok rp = ClosedParToken →
  documented_requirement (n ++ k :: o :: lp :: ts ++ [rp])
| doc_exact n k o ts v :
  documented_requirement (n ++ [k]) → tok o = EqualsToken ∨ tok o = DoubleEqualsToken ∨ tok o = NotEqualsToken →
  value_syntax ts v → documented_requirement (n ++ k :: o :: ts).

Inductive documented : list ScannedItem → Prop :=
| doc_one ts : documented_requirement ts → documented ts
| doc_more ts c us : documented_requirement ts → tok c = CommaToken → documented us → documented (ts ++ c :: us).

(** Operators the documentation does not have. *)
Definition undocumented (r : Requirement) : Prop := operator r = GreaterThan ∨ operator r = LessThan.

Lemma requirement_documented ts r :
  requirement_syntax ts r → undocumented r ∨ documented_requirement ts.
Proof.
  destruct 1 as [k r Hk _|n k r Hn Hk _|k o op ts v r Hk Ho Hs Hv Hr|k o op lp ts vs rp r Hk Ho Hs Hl Hv Hrp _].
  - right. apply (doc_key []); auto.
  - right. apply (doc_key [n]); eauto.
  - assert (operator r = op) as Hop by (apply NewRequirement_Ok in Hr as (_ & _ & _ & ->); done).
    unfold undocumented. rewrite Hop. unfold set_based in Hs.
    destruct (tok o) eqn:Et; simplify_eq/=; try naive_solver; right;
      apply (doc_exact [] k o ts v); try done; try (by apply (doc_key []); auto); auto.
  - right. apply (doc_set [] k o lp ts vs rp); try done; [by apply (doc_key []); auto|].
    destruct (tok o); simplify_eq/=; auto; by destruct Hs.
Qed.

Lemma selector_documented ts rs :
  selector_syntax ts rs → ts = [] ∨ Exists undocumented rs ∨ documented ts.
Proof.
  induction 1 as [|ts r Hr|ts r c us rs Hr Hc Hne _ IH]; [by left|..]; right;
    (destruct (requirement_documented _ _ Hr) as [?|?]; [left; by constructor|]).
  - right. by constructor.
  - destruct IH as [?|[?|?]]; [done|left; by apply Exists_cons_tl|right; by apply doc_more].
Qed.

Lemma values_snoc ts vs c us v :
  values_syntax ts vs → tok c = CommaToken → value_syntax us v → values_syntax (ts ++ c :: us) (vs ++ [v]).
Proof.
  induction 1 as [ts w Hw|ts w d us' vs Hw Hd _ IH]; intros Hc Hv.
  - apply values_more; [done..|by constructor].
  - rewrite <-app_assoc. cbn. apply values_more; [done..|by apply IH].
Qed.

(** The start of a list of values, up to where the next value is expected. *)
Inductive values_prefix : list ScannedItem → list string → Prop :=
| prefix_nil : values_prefix [] []
| prefix_comma ts vs c : values_syntax ts vs → tok c = CommaToken → values_prefix (ts ++ [c]) vs.

Lemma prefix_value ts vs us v : values_prefix ts vs → value_syntax us v → values_syntax (ts ++ us) (vs ++ [v]).
Proof.
  destruct 1 as [|ts vs c Hts Hc]; intros Hv; [by constructor|]. rewrite <-app_assoc. by apply values_snoc.
Qed.

Lemma in_context_other i t :
  t ≠ IdentifierToken → t ≠ InToken → t ≠ NotInToken → (in_context InValues i).1 = t ↔ tok i = t.
Proof. intros ???. unfold in_context. cbn. destruct (tok i); naive_solver. Qed.

Lemma Insert_snoc vs v : Insert (list_to_set vs) [v] = list_to_set (vs ++ [v]).
Proof. apply set_eq. intros x. rewrite elem_of_Insert. set_solver. Qed.

Lemma in_context_literal ctx i t lit : in_context ctx i = (t, lit) → lit = literal i ∧ (in_context ctx i).1 = t.
Proof. intros E. rewrite E. unfold in_context in E. by simplify_eq. Qed.

(** ** The parser follows the grammar *)
Definition spec {A} (m : pst A) (p : Parser) (Q : A → Parser → Prop) : Prop :=
  match m p with POk a p' => Q a p' | PErr _ => True | PPanic => False end.

Lemma spec_bind {A B} (m : pst A) (f : A → pst B) p Q :
  spec m p (λ a p', spec (f a) p' Q) → spec (m ≫= f) p Q.
Proof. unfold spec, mbind, pst_bind. by destruct (m p). Qed.

Lemma spec_mono {A} (m : pst A) p (Q Q' : A → Parser → Prop) :
  spec m p Q → (∀ a p', Q a p' → Q' a p') → spec m p Q'.
Proof. unfold spec. destruct (m p); auto. Qed.

Section soundness.
Context (e : ScannedItem) (He : tok e = EndOfStringToken).

(** The items still to be read are [ts] and the end of the string. *)
Definition remaining (p : Parser) (ts : list ScannedItem) : Prop :=
  drop (position p) (scannedItems p) = ts ++ [e] ∧ Forall inner ts.

Lemma remaining_head p ts : remaining p ts → scannedItems p !! position p = Some (hd e ts).
Proof. intros [Hd _]. rewrite <-(Nat.add_0_r (position p)), <-lookup_drop, Hd. by destruct ts. Qed.

Lemma spec_lookahead ctx p ts (Q : Token * string → Parser → Prop) :
  remaining p ts → Q (in_context ctx (hd e ts)) p → spec (lookahead ctx) p Q.
Proof.
  intros Hr HQ. unfold spec, lookahead. by rewrite (remaining_head p ts).
Qed.

Lemma spec_consume ctx p ts (Q : Token * string → Parser → Prop) :
  remaining p ts →
  (∀ p', ts = [] → Q (in_context ctx e) p') →
  (∀ i ts' p', ts = i :: ts' → inner i → remaining p' ts' → Q (in_context ctx i) p') →
  spec (consume ctx) p Q.
Proof.
  intros Hr HQ1 HQ2. unfold spec, consume. rewrite (remaining_head p ts) by done. destruct Hr as [Hd Hi].
  destruct ts as [|i ts']; [by apply HQ1|]. apply Forall_cons in Hi as [Hi Hi']. apply (HQ2 i ts'); [done..|].
  split; [|done]. cbn. by rewrite <-Nat.add_1_r, <-drop_drop, Hd.
Qed.

Lemma spec_parseOperator p ts (Q : Operator → Parser → Prop) :
  remaining p ts →
  (∀ o op ts' p', ts = o :: ts' → operator_token (tok o) = Some op → remaining p' ts' → Q op p') →
  spec parseOperator p Q.
Proof.
  intros Hr HQ. apply spec_bind, (spec_consume _ _ ts); [done|..].
  - intros p' _. unfold in_context. cbn. by rewrite He.
  - intros i ts' p' -> _ Hr'. unfold in_context. cbn. specialize (λ op, HQ i op ts' p' eq_refl).
    destruct (tok i); unfold spec; cbn in *; auto.
Qed.

Lemma spec_key p ts (Q : string * Operator → Parser → Prop) :
  remaining p ts →
  (∀ k ts' p', ts = k :: ts' → is_ident k → remaining p' ts' →
     Q (literal k, if bool_decide (ts' = [] ∨ tok (hd e ts') = CommaToken) then Exists_ else OtherOperator "") p') →
  (∀ n k ts' p', ts = n :: k :: ts' → tok n = DoesNotExistToken → is_ident k → remaining p' ts' →
     Q (literal k, DoesNotExist) p') →
  spec parseKeyAndInferOperator p Q.
Proof.
  intros Hr HQ1 HQ2. apply spec_bind, (spec_consume _ _ ts); [done|..].
  { intros p' _. unfold in_context. rewrite He. done. }
  intros i ts' p' -> Hi Hr'. destruct (in_context InValues i) as [t lit] eqn:Ei.
  assert (lit = literal i) as -> by (by unfold in_context in Ei; simplify_eq).
  case_bool_decide as Ht.
  - apply spec_bind, spec_bind, (spec_consume _ _ ts'); [done|..].
    { intros q _. unfold in_context. rewrite He. done. }
    intros k us q -> Hk Hq. destruct (in_context InValues k) as [t' lit'] eqn:Ek.
    assert (lit' = literal k) as -> by (by unfold in_context in Ek; simplify_eq).
    cbn. case_bool_decide as Ht'; [done|]. destruct (validateLabelKey _); [done|].
    apply spec_bind, (spec_lookahead _ _ us); [done|]. unfold in_context at 1. cbn.
    rewrite (bool_decide_eq_false_2 (DoesNotExist ≠ DoesNotExist)) by (intros Hn; by apply Hn).
    assert (Q (literal k, DoesNotExist) q) as HQ; [|by case_bool_decide].
    apply (HQ2 i k us q); [done| |by unfold is_ident; rewrite Ek|done].
    apply (in_context_other i DoesNotExistToken); [done..|]. by rewrite Ei.
  - apply spec_bind. red. lazy beta iota delta [mret pst_ret]. case_bool_decide as Ht'; [done|]. destruct (validateLabelKey _); [done|].
    apply spec_bind, (spec_lookahead _ _ ts'); [done|].
    destruct (in_context InValues (hd e ts')) as [t' lit'] eqn:Ek.
    rewrite (bool_decide_eq_true_2 (OtherOperator "" ≠ DoesNotExist)) by done. red.
    replace (if bool_decide (t' = EndOfStringToken ∨ _) then _ else _) with
      (if bool_decide (ts' = [] ∨ tok (hd e ts') = CommaToken) then Exists_ else OtherOperator "").
    { apply (HQ1 i ts' p'); [done| |done]. by unfold is_ident; rewrite Ei. }
    apply (f_equal (λ b : bool, if b then Exists_ else OtherOperator "")), bool_decide_ext.
    assert (t' = (in_context InValues (hd e ts')).1) as -> by by rewrite Ek.
    rewrite !in_context_other by done. split; intros [Hx|Hx]; auto.
    + left. by subst.
    + destruct ts' as [|j ts']; [auto|]. destruct Hr' as [_ [[_ Hj] _]%Forall_cons]. done.
Qed.

Definition loop_start (ts0 : list ScannedItem) (vs : list string) (next : ScannedItem) : Prop :=
  (values_prefix ts0 vs ∧ (tok next = CommaToken → vs = [] ∨ "" ∈ vs)) ∨
  (values_syntax ts0 vs ∧ vs ≠ [] ∧ tok next = CommaToken).

Lemma loop_start_ident ts0 vs i :
  loop_start ts0 vs i → is_ident i → values_syntax (ts0 ++ [i]) (vs ++ [literal i]).
Proof.
  intros [[Hp _]|(_ & _ & Hc)] Hi; [apply prefix_value; [done|by constructor]|].
  unfold is_ident, in_context in Hi. by rewrite Hc in Hi.
Qed.

(** After a comma, with what the loop has put into its set. *)
Lemma loop_start_comma ts0 vs i (s : gset string) :
  loop_start ts0 vs i → tok i = CommaToken → s = list_to_set vs →
  ∃ vs', values_prefix (ts0 ++ [i]) vs' ∧
    (if bool_decide (Len s = 0) then Insert s [""] else s) = list_to_set vs'.
Proof.
  intros Hs Hi ->. assert (Len (list_to_set vs) = 0 ↔ vs = []) as Hlen.
  { unfold Len. destruct vs as [|v vs]; [done|]. split; [|done]. intros Hz%size_empty_inv. set_solver. }
  destruct Hs as [[Hp Hv]|(Hvs & Hne & _)].
  - exists (vs ++ [""]). split.
    + apply prefix_comma; [|done]. rewrite <-(app_nil_r ts0). by apply prefix_value; [|constructor].
    + destruct (Hv Hi) as [->|Hin]; [rewrite bool_decide_eq_true_2 by done; apply Insert_snoc|].
      rewrite bool_decide_eq_false_2; [clear -Hin; set_solver|]. rewrite Hlen. intros ->. by apply elem_of_nil in Hin.
  - exists vs. split; [by apply prefix_comma|]. rewrite bool_decide_eq_false_2; [done|]. by rewrite Hlen.
Qed.

Lemma spec_identifiers_loop fuel (s : gset string) p ts ts0 vs (Q : gset string → Parser → Prop) :
  remaining p ts → length ts < fuel → s = list_to_set vs → loop_start ts0 vs (hd e ts) →
  (∀ us vs' ts' p', ts = us ++ ts' → remaining p' ts' → tok (hd e ts') = ClosedParToken →
     values_syntax (ts0 ++ us) vs' → Q (list_to_set vs') p') →
  spec (identifiers_loop fuel s) p Q.
Proof.
  revert s p ts ts0 vs. induction fuel as [|fuel IH]; intros s p ts ts0 vs Hr Hf Hs Hst HQ; [lia|].
  cbn [identifiers_loop]. apply spec_bind, (spec_consume _ _ ts); [done|..].
  { intros p' _. unfold in_context. by rewrite He. }
  intros i ts' p' -> Hi Hr'. destruct (in_context InValues i) as [t lit] eqn:Ei.
  apply in_context_literal in Ei as [-> Et]. cbn in Hst, Hf. destruct t; try done.
  - apply in_context_other in Et; [|done..].
    destruct (loop_start_comma ts0 vs i s) as (vs' & Hp & Hs'); [done..|]. cbv zeta. rewrite !Hs'. clear Hs'.
    apply spec_bind, (spec_lookahead _ _ ts'); [done|].
    destruct (in_context InValues (hd e ts')) as [t2 lit2] eqn:E2. apply in_context_literal in E2 as [-> E2].
    case_bool_decide as Ht2; [rewrite Ht2 in E2; apply in_context_other in E2; [|done..]|].
    + rewrite Insert_snoc.
      apply (HQ [i] (vs' ++ [""]) ts'); [done..|]. rewrite <-(app_nil_r (ts0 ++ [i])).
      by apply prefix_value; [|constructor].
    + case_bool_decide as Hc2; [rewrite Hc2 in E2; apply in_context_other in E2; [|done..]|].
      * apply spec_bind, (spec_consume _ _ ts'); [done|..].
        { intros q ->. cbn in E2. congruence. }
        intros j us q -> Hj Hq. cbn in E2. apply (IH _ q us (ts0 ++ [i; j]) (vs' ++ [""])); [done|cbn in Hf; lia| | |].
        { apply Insert_snoc. }
        { left. split; [|set_solver]. replace (ts0 ++ [i; j]) with ((ts0 ++ [i]) ++ [j]) by by rewrite <-app_assoc.
          apply prefix_comma; [|done]. rewrite <-(app_nil_r (ts0 ++ [i])). by apply prefix_value; [|constructor]. }
        intros us' vs'' ts'' q' -> ?? Hv. apply (HQ (i :: j :: us') vs'' ts''); [done..|]. by rewrite <-app_assoc in Hv.
      * apply (IH _ p' ts' (ts0 ++ [i]) vs'); [done|lia|done| |].
        { left. split; [done|]. intros Hc. destruct Hc2. rewrite <-E2. by apply in_context_other. }
        intros us' vs'' ts'' q' -> ?? Hv. apply (HQ (i :: us') vs'' ts''); [done..|]. by rewrite <-app_assoc in Hv.
  - pose proof (loop_start_ident _ _ _ Hst Et) as Hv.
    cbv zeta. rewrite Hs, Insert_snoc.
    apply spec_bind, (spec_lookahead _ _ ts'); [done|].
    destruct (in_context InValues (hd e ts')) as [t2 lit2] eqn:E2. apply in_context_literal in E2 as [-> E2].
    destruct t2; try done; apply in_context_other in E2; try done.
    + by apply (HQ [i] (vs ++ [literal i]) ts').
    + apply (IH _ p' ts' (ts0 ++ [i]) (vs ++ [literal i])); [done|lia|done| |].
      { right. split_and!; [done|by destruct vs|done]. }
      intros us' vs'' ts'' q' -> ?? Hv'. apply (HQ (i :: us') vs'' ts''); [done..|]. by rewrite <-app_assoc in Hv'.
Qed.

Lemma spec_parseValues p ts (Q : gset string → Parser → Prop) :
  remaining p ts →
  (∀ lp us vs rp ts' p', ts = lp :: us ++ rp :: ts' → remaining p' ts' → tok lp = OpenParToken →
     values_syntax us vs → tok rp = ClosedParToken → Q (list_to_set vs) p') →
  spec parseValues p Q.
Proof.
  intros Hr HQ. apply spec_bind, (spec_consume _ _ ts); [done|..].
  { intros p' _. unfold in_context. by rewrite He. }
  intros lp ts1 p1 -> _ Hr1. destruct (in_context InValues lp) as [t lit] eqn:Ei.
  apply in_context_literal in Ei as [-> Et]. case_bool_decide as Ht; [done|].
  rewrite Ht in Et. apply in_context_other in Et; [|done..]. clear Ht t.
  apply spec_bind, (spec_lookahead _ _ ts1); [done|].
  destruct (in_context InValues (hd e ts1)) as [t lit] eqn:Ei. apply in_context_literal in Ei as [-> Et1].
  assert (loop_start [] [] (hd e ts1)) as Hst by (left; split; [constructor|auto]).
  assert (spec (s ← parseIdentifiersList; '(t, _) ← consume InValues;
                if bool_decide (t ≠ ClosedParToken) then perr (ExpectedClosedPar (literal (hd e ts1))) else mret s) p1 Q) as Hlist.
  { apply spec_bind. unfold parseIdentifiersList, spec at 1.
    apply (spec_identifiers_loop _ _ p1 ts1 [] []); [done| |done|done|].
    { destruct Hr1 as [Hd _]. apply (f_equal length) in Hd. rewrite length_drop, length_app in Hd. cbn in Hd. lia. }
    intros us vs ts2 p2 -> Hr2 Hcl Hvs. apply spec_bind, (spec_consume _ _ ts2); [done|..].
    { intros q ->. cbn in Hcl. congruence. }
    intros rp ts3 p3 -> _ Hr3. cbn in Hcl. destruct (in_context InValues rp) as [t' lit'] eqn:Ei.
    apply in_context_literal in Ei as [-> Et2]. case_bool_decide as Ht; [done|]. by apply (HQ lp us vs rp ts3). }
  destruct t; try done. apply in_context_other in Et1; [|done..].
  apply spec_bind, (spec_consume _ _ ts1); [done|..].
  { intros q ->. cbn in Et1. congruence. }
  intros rp ts2 p2 -> _ Hr2. replace (NewString [""]) with (list_to_set [""] : gset string) by (by apply set_eq; set_solver).
  apply (HQ lp [] [""] rp ts2); [done..| |done]. by repeat constructor.
Qed.

Lemma spec_parseExactValue p ts (Q : gset string → Parser → Prop) :
  remaining p ts →
  (∀ us v ts' p', ts = us ++ ts' → remaining p' ts' → value_syntax us v → Q (list_to_set [v]) p') →
  spec parseExactValue p Q.
Proof.
  intros Hr HQ. apply spec_bind, (spec_lookahead _ _ ts); [done|].
  assert (∀ v, Insert (NewString []) [v] = list_to_set [v]) as HI by (intros v; apply (Insert_snoc [])).
  destruct (in_context InValues (hd e ts)) as [t lit] eqn:Ei. apply in_context_literal in Ei as [-> Et].
  case_bool_decide as Ht.
  - rewrite HI. apply (HQ [] "" ts); [done..|constructor].
  - apply spec_bind, (spec_consume _ _ ts); [done|..].
    { intros q ->. destruct Ht. left. rewrite <-Et. by apply in_context_other. }
    intros i ts' p' -> _ Hr'. destruct (in_context InValues i) as [t' lit] eqn:Ei. apply in_context_literal in Ei as [-> Ei].
    case_bool_decide as Ht'; [|done]. rewrite HI. apply (HQ [i] (literal i) ts'); [done..|]. constructor.
    unfold is_ident. congruence.
Qed.

Context (rngs : gset string → list string) `{!set_order rngs}.

Lemma List_elements s : List rngs s = merge_sort String.le (elements s).
Proof.
  apply (StronglySorted_unique String.le); [apply Sorted_List|apply (StronglySorted_merge_sort String.le)|].
  unfold List. by rewrite !merge_sort_Permutation, (set_range_perm s).
Qed.

Lemma spec_plift {A} (r : res label_error A) p (Q : A → Parser → Prop) : (∀ a, r = Ok a → Q a p) → spec (plift r) p Q.
Proof. intros HQ. destruct r; [by apply HQ|done]. Qed.

Lemma spec_parseRequirement p ts (Q : Requirement → Parser → Prop) :
  remaining p ts → ts ≠ [] →
  (∀ us ts' r p', ts = us ++ ts' → us ≠ [] → remaining p' ts' → requirement_syntax us r → Q r p') →
  spec (parseRequirement rngs) p Q.
Proof.
  intros Hr Hne HQ. apply spec_bind, (spec_key _ ts); [done|..].
  - intros k ts1 p1 -> Hk Hr1. destruct (bool_decide (ts1 = [] ∨ _)).
    { rewrite (bool_decide_eq_true_2 (Exists_ = _ ∨ _)) by auto. apply spec_plift. intros r Hr'.
      apply (HQ [k] ts1); [done..|]. by constructor. }
    rewrite (bool_decide_eq_false_2 (OtherOperator _ = _ ∨ _)) by naive_solver.
    apply spec_bind, (spec_parseOperator _ ts1); [done|]. intros o op ts2 p2 -> Ho Hr2. apply spec_bind.
    destruct (decide (set_based op)) as [Hset|Hset].
    + assert (spec parseValues p2 (λ values p', spec (plift (NewRequirement (literal k) op (List rngs values))) p' Q)) as HP.
      { apply (spec_parseValues _ ts2); [done|]. intros lp us vs rp ts3 p3 -> Hr3 Hlp Hvs Hrp.
        apply spec_plift. intros r Hr'. apply (HQ (k :: o :: lp :: us ++ [rp]) ts3); [cbn; by rewrite <-app_assoc|done|done|].
        apply (syn_set k o op lp us vs rp); [done..|]. unfold value_list. by rewrite <-List_elements. }
      destruct Hset as [-> | ->]; exact HP.
    + assert (spec parseExactValue p2 (λ values p', spec (plift (NewRequirement (literal k) op (List rngs values))) p' Q)) as HP.
      { apply (spec_parseExactValue _ ts2); [done|]. intros us v ts3 p3 -> Hr3 Hv.
        apply spec_plift. intros r Hr'. apply (HQ (k :: o :: us) ts3); [done..|].
        apply (syn_exact k o op us v); [done..|]. rewrite List_elements in Hr'. cbn in Hr'.
        by rewrite (right_id_L ∅ (∪)), elements_singleton in Hr'. }
      destruct (tok o); simplify_eq/=; first [exact HP|by destruct Hset; left|by destruct Hset; right].
  - intros n k ts1 p1 -> Hn Hk Hr1. rewrite (bool_decide_eq_true_2 (DoesNotExist = _ ∨ _)) by auto. apply spec_plift. intros r Hr'.
    apply (HQ [n; k] ts1); [done..|]. by constructor.
Qed.

Lemma spec_parse_loop fuel reqs p ts (Q : internalSelector → Parser → Prop) :
  remaining p ts → length ts < fuel →
  (∀ rs p', selector_syntax ts rs → Q (reqs ++ rs) p') →
  spec (parse_loop rngs fuel reqs) p Q.
Proof.
  revert reqs p ts. induction fuel as [|fuel IH]; intros reqs p ts Hr Hf HQ; [lia|]. cbn [parse_loop].
  apply spec_bind, (spec_lookahead _ _ ts); [done|].
  destruct (in_context InValues (hd e ts)) as [t lit] eqn:Ei. apply in_context_literal in Ei as [-> Et].
  assert (ts ≠ [] → spec (r ← wrap (parseRequirement rngs); let requirements := reqs ++ [r] in
    '(t, l) ← consume InValues;
    match t with
    | EndOfStringToken => mret requirements
    | CommaToken =>
      '(t2, l2) ← lookahead InValues;
      if bool_decide (t2 ≠ IdentifierToken ∧ t2 ≠ DoesNotExistToken)
      then perr (ExpectedIdentifierAfterComma l2)
      else parse_loop rngs fuel requirements
    | _ => perr (ExpectedCommaOrEnd l)
    end) p Q) as Hreq.
  { intros Hne. apply spec_bind. assert (∀ A (m : pst A) q Q', spec m q Q' → spec (wrap m) q Q') as Hw.
    { intros A m q Q'. unfold spec, wrap. by destruct (m q). }
    apply Hw, (spec_parseRequirement _ ts); [done..|]. intros us ts1 r p1 -> Hus Hr1 Hreq.
    apply spec_bind, (spec_consume _ _ ts1); [done|..].
    { intros q ->. unfold in_context. rewrite He. apply HQ. rewrite app_nil_r. by constructor. }
    intros c ts2 p2 -> [_ Hc] Hr2. destruct (in_context InValues c) as [t' lit] eqn:Ei. apply in_context_literal in Ei as [-> Ec].
    destruct t'; try done; apply in_context_other in Ec; try done.
    apply spec_bind, (spec_lookahead _ _ ts2); [done|].
    destruct (in_context InValues (hd e ts2)) as [t2 lit2] eqn:Ei. apply in_context_literal in Ei as [-> Et2].
    case_bool_decide as Ht2; [done|]. apply (IH _ _ ts2); [done| |].
    { rewrite length_app in Hf. cbn in Hf. lia. }
    intros rs p' Hrs. rewrite <-app_assoc. apply HQ. apply syn_more; [done..| |done].
    intros ->. cbn in Et2. apply Ht2. unfold in_context in Et2. rewrite He in Et2. cbn in Et2. by subst t2. }
  destruct t; try done; try (apply Hreq; intros ->; unfold in_context in Et; cbn in Et; by rewrite He in Et).
  apply in_context_other in Et; [|done..]. destruct ts as [|i ts].
  - rewrite <-(app_nil_r reqs). apply HQ. constructor.
  - destruct Hr as [_ [[_ Hi] _]%Forall_cons]. done.
Qed.
End soundness.

(** ** Requirements that can be made, of distinct values *)
Definition wf_req (r : Requirement) : Prop :=
  NewRequirement (key r) (operator r) (strValues r) = Ok r ∧ NoDup (strValues r).

Lemma validate_values_None vals : validate_values vals = None ↔ ∀ v, v ∈ vals → validateLabelValue v = None.
Proof.
  induction vals as [|v vals IH]; cbn; [set_solver|]. destruct (validateLabelValue v) eqn:E; [|rewrite IH; set_solver].
  split; [done|]. intros Hall. specialize (Hall v ltac:(set_solver)). congruence.
Qed.

Lemma check_values_perm op vals vals' : vals ≡ₚ vals' → check_values op vals = check_values op vals'.
Proof.
  intros Hp. pose proof (Permutation_length Hp) as Hl. destruct op; cbn; rewrite ?Hl; try done.
  all: case_bool_decide as Hn; [done|]; destruct vals' as [|v [|]]; [done| |cbn in Hn; lia].
  all: by apply Permutation_singleton_r in Hp as ->.
Qed.

Lemma NewRequirement_wf k op vals r : NewRequirement k op vals = Ok r → NoDup vals → wf_req r.
Proof.
  intros (Hk & Hc & Hv & ->)%NewRequirement_Ok Hd. pose proof (merge_sort_Permutation String.le vals) as Hp. split.
  - apply NewRequirement_Ok. cbn. rewrite (check_values_perm _ _ _ Hp), validate_values_None. split_and!; [done|done| |].
    + intros v Hin. rewrite Hp in Hin. by apply (validate_values_None vals).
    + f_equal. apply (StronglySorted_unique String.le); [apply (StronglySorted_merge_sort _)..|].
      by rewrite (merge_sort_Permutation _ (merge_sort _ _)).
  - cbn. by rewrite Hp.
Qed.

Lemma requirement_syntax_wf ts r : requirement_syntax ts r → wf_req r.
Proof.
  destruct 1 as [k r _ Hr|n k r _ _ Hr|k o op ts v r _ _ _ _ Hr|k o op lp ts vs rp r _ _ _ _ _ _ Hr].
  1-3: apply (NewRequirement_wf _ _ _ _ Hr); repeat constructor; set_solver.
  apply (NewRequirement_wf _ _ _ _ Hr). unfold value_list. rewrite merge_sort_Permutation. apply NoDup_elements.
Qed.

Lemma selector_syntax_wf ts rs : selector_syntax ts rs → Forall wf_req rs.
Proof. induction 1; rewrite ?Forall_cons; eauto using requirement_syntax_wf. Qed.

Section parsed.
Context (rngs : gset string → list string) `{!set_order rngs}.
Context (srt : list Requirement → list Requirement) `{!key_sort srt}.

Lemma Parse_spec selector :
  ∃ items e, scan selector = Some (items ++ [e]) ∧ Forall inner items ∧ tok e = EndOfStringToken ∧
    match Parse rngs srt selector with
    | Some (Ok sel) => ∃ rs, selector_syntax items rs ∧ sel = Internal (srt rs)
    | Some (Err _) => True
    | None => False
    end.
Proof.
  destruct (scan_total selector) as (items & e & Hs & Hi & He). exists items, e. split_and!; [done..|].
  unfold Parse, parse. rewrite Hs. cbn [mbind option_bind].
  pose proof (spec_parse_loop e He rngs (S (length (items ++ [e]))) []
    {| scannedItems := items ++ [e]; position := 0 |} items
    (λ rs _, selector_syntax items rs)) as Hspec.
  unfold spec in Hspec. destruct (parse_loop _ _ _ _) as [rs p'|err|]; cbn.
  - exists rs. split; [|done]. apply Hspec; [done|rewrite length_app; lia|done].
  - done.
  - apply Hspec; [done|rewrite length_app; lia|done].
Qed.


(** The parser accepts the empty selector and the two operators, although the comment of
    [Parse] says that input which does not follow the grammar causes an error; and it
    refuses [!] before a key with a restriction, which the grammar allows. *)
Example parse_departs_from_grammar :
  Parse elements (merge_sort key_le) "" = Some (Ok (Internal [])) ∧
  Parse elements (merge_sort key_le) "x>5" =
    Some (Ok (Internal [ {| key := "x"; operator := GreaterThan; strValues := ["5"] |} ])) ∧
  (∃ items e, scan "!x in (a)" = Some (items ++ [e]) ∧ tok e = EndOfStringToken ∧ documented items) ∧
  Parse elements (merge_sort key_le) "!x in (a)" = Some (Err (ExpectedCommaOrEnd "in")).
Proof.
  split_and!; [vm_compute; reflexivity..| |vm_compute; reflexivity].
  eexists [ {| tok := _; literal := _ |}; {| tok := _; literal := _ |}; {| tok := _; literal := _ |};
            {| tok := _; literal := _ |}; {| tok := _; literal := _ |}; {| tok := _; literal := _ |} ], _.
  split; [vm_compute; reflexivity|]. split; [reflexivity|]. apply doc_one.
  apply (doc_set [_] _ _ _ [_] ["a"]); [|by left|done| |done].
  - apply (doc_key [_]); [right; by eexists|done].
  - apply values_one, (value_ident {| tok := IdentifierToken; literal := "a" |}). done.
Qed.

(** [C33] The type of a parsed selector: its requirements are in the order of their keys,
    and each has a valid key, an operator of the language and as many valid, distinct and
    sorted values as its operator takes. *)
Theorem parsed_selector_typed selector sel :
  Parse rngs srt selector = Some (Ok sel) →
  ∃ reqs, sel = Internal reqs ∧ StronglySorted key_le reqs ∧
    ∀ r, r ∈ reqs →
      label_key (key r) ∧ (∀ v, v ∈ strValues r → label_value v) ∧
      NoDup (strValues r) ∧ StronglySorted String.le (strValues r) ∧ check_values (operator r) (strValues r) = None.
Proof.
  intros HP. destruct (Parse_spec selector) as (items & e & _ & _ & _ & HS). rewrite HP in HS.
  destruct HS as (rs & Hrs & ->). exists (srt rs). split_and!; [done|apply key_sort_sorted|].
  intros r Hr. rewrite key_sort_perm in Hr. apply selector_syntax_wf in Hrs.
  rewrite Forall_forall in Hrs. destruct (Hrs r Hr) as [(Hk & Hc & Hv & Hrec)%NewRequirement_Ok Hd].
  split_and!; [| |done| |done].
  - apply IsQualifiedName_nil. unfold validateLabelKey in Hk. by destruct (IsQualifiedName (key r)).
  - intros v Hin. apply IsValidLabelValue_nil. rewrite validate_values_None in Hv. specialize (Hv v Hin).
    unfold validateLabelValue in Hv. by destruct (IsValidLabelValue v).
  - rewrite Hrec. cbn. apply (StronglySorted_merge_sort String.le).
Qed.
End parsed.


Lemma parsed_selector_typed_witness :
  ∃ reqs, Internal [ {| key := "gen"; operator := GreaterThan; strValues := ["5"] |};
                     {| key := "tier"; operator := In_; strValues := ["db"; "web"] |} ] = Internal reqs ∧
    StronglySorted key_le reqs ∧
    ∀ r, r ∈ reqs →
      label_key (key r) ∧ (∀ v, v ∈ strValues r → label_value v) ∧
      NoDup (strValues r) ∧ StronglySorted String.le (strValues r) ∧ check_values (operator r) (strValues r) = None.
Proof.
  apply (parsed_selector_typed elements (merge_sort key_le) "tier in (web, db),gen>5").
  vm_compute. reflexivity.
Defined.
