(* ===== verification/LabelPrinter.v ===== *)
(** * Printing and parsing label selectors (k8s.io/apimachinery/pkg/labels/selector.go)

    Parsing the printed form of a selector gives the selector back. *)

From Stdlib Require Import Ascii.
From S2P Require Import Prelude StringSets ObjectKeys Validation Labels LabelMaps LabelParser.

(** ** Lexing printed text *)
Definition word_item (w : string) : ScannedItem :=
  {| tok := default IdentifierToken (string2token w); literal := w |}.

Definition symbol_item (t : Token) (l : string) : ScannedItem := {| tok := t; literal := l |}.

(** The text [rest], wherever it stands at the end of a selector, is scanned as [items]. *)
Definition lexes (rest : list ascii) (items : list ScannedItem) : Prop :=
  ∀ s pos fuel acc, drop pos s = rest → length rest < fuel →
    scan_loop fuel {| s := s; pos := pos |} acc = Some (acc ++ items).

(** Where a word, or a symbol, ends. *)
Definition stops (rest : list ascii) : Prop :=
  match rest with [] => True | c :: _ => c ≠ "000"%char ∧ (isSpecialSymbol c || isWhitespace c) = true end.

Definition ends_symbol (sym rest : list ascii) : Prop :=
  match rest with
  | [] => True
  | c :: _ => c ≠ "000"%char ∧ (isSpecialSymbol c = true → string2token (text (sym ++ [c])) = None)
  end.

Lemma labelChar_plain c : labelChar c = true → plain c = true.
Proof. destruct c as [[] [] [] [] [] [] [] []]; by vm_compute. Qed.

Lemma plain_inv c : plain c = true → c ≠ "000"%char ∧ isSpecialSymbol c = false ∧ isWhitespace c = false.
Proof.
  unfold plain. intros [Hz Ho]%andb_prop. apply negb_true_iff in Ho. apply orb_false_iff in Ho.
  apply negb_true_iff, bool_decide_eq_false in Hz. done.
Qed.

Lemma drop_cons_lookup {A} pos (l : list A) c rest : drop pos l = c :: rest → l !! pos = Some c ∧ drop (S pos) l = rest.
Proof.
  intros Hd. split; [by rewrite <-(Nat.add_0_r pos), <-lookup_drop, Hd|].
  by rewrite <-Nat.add_1_r, <-drop_drop, Hd.
Qed.

Lemma read_drop s pos c rest :
  drop pos s = c :: rest → read {| s := s; pos := pos |} = (c, {| s := s; pos := S pos |}).
Proof. intros [Hl _]%drop_cons_lookup. by apply read_Some. Qed.

Lemma read_end s pos : drop pos s = [] → read {| s := s; pos := pos |} = ("000"%char, {| s := s; pos := pos |}).
Proof.
  intros Hd. unfold read. cbn. destruct (s !! pos) eqn:E; [|done].
  apply lookup_lt_Some in E. apply (f_equal length) in Hd. rewrite length_drop in Hd. cbn in Hd. lia.
Qed.

Lemma scan_id_word w fuel s pos rest buffer :
  drop pos s = w ++ rest → Forall (λ c, plain c = true) w → stops rest → length w < fuel →
  scan_id fuel {| s := s; pos := pos |} buffer = Some (buffer ++ w, {| s := s; pos := pos + length w |}).
Proof.
  revert fuel pos buffer. induction w as [|c w IH]; intros fuel pos buffer Hd Hw Hs Hf;
    (destruct fuel as [|fuel]; [cbn in Hf; lia|]); cbn [scan_id].
  - rewrite app_nil_r. cbn. rewrite Nat.add_0_r. destruct rest as [|c rest].
    + rewrite (read_end s pos Hd). by rewrite bool_decide_eq_true_2.
    + destruct Hs as [Hz Ho]. rewrite (read_drop s pos c rest Hd), bool_decide_eq_false_2, Ho by done.
      unfold unread. cbn. by rewrite Nat.sub_0_r.
  - apply Forall_cons in Hw as [(Hz & Ho & Hw')%plain_inv Hw].
    rewrite (read_drop s pos c (w ++ rest) Hd), bool_decide_eq_false_2, Ho, Hw' by done. cbn [orb].
    apply drop_cons_lookup in Hd as [_ Hd]. rewrite (IH fuel (S pos) _ Hd) by (done || cbn in Hf; lia).
    rewrite <-app_assoc. cbn. by rewrite Nat.add_succ_r.
Qed.

Lemma text_chars w : text (chars w) = w.
Proof. apply String.string_of_list_ascii_of_string. Qed.

Lemma length_drop_le {A} pos (s : list A) : length (drop pos s) ≤ length s.
Proof. rewrite length_drop. lia. Qed.

Lemma lexes_word w rest items :
  clean w → w ≠ "" → stops rest → lexes rest items → inner (word_item w) →
  lexes (chars w ++ rest) (word_item w :: items).
Proof.
  intros Hc Hne Hs Hl [_ Hin] s pos fuel acc Hd Hf. destruct fuel as [|fuel]; [lia|]. cbn [scan_loop].
  assert (Forall (λ c, plain c = true) (chars w)) as Hp by (apply (Forall_impl _ _ _ Hc), labelChar_plain).
  assert (Lex {| s := s; pos := pos |} = Some (word_item w, {| s := s; pos := pos + length (chars w) |})) as ->.
  { unfold Lex. destruct (chars w) as [|c l] eqn:Ew; [by destruct w|].
    rewrite (read_drop s pos c (l ++ rest) Hd). apply Forall_cons in Hp as [(Hz & Ho & Hw)%plain_inv Hp].
    cbn [skipWhiteSpaces]. rewrite Hw. cbn [negb mbind option_bind].
    rewrite bool_decide_eq_false_2, Ho by done. unfold unread, scanIDOrKeyword. cbn [LabelParser.s LabelParser.pos].
    cbn [Nat.sub]. rewrite Nat.sub_0_r, (scan_id_word (c :: l) _ s pos rest []); [|done| |done|].
    - cbn [mbind option_bind app]. rewrite <-Ew, text_chars. unfold word_item. by destruct (string2token w).
    - constructor; [|done]. unfold plain. by rewrite bool_decide_eq_false_2, Ho, Hw.
    - pose proof (length_drop_le pos s) as Hle. rewrite Hd, length_app in Hle. lia. }
  cbn [mbind option_bind]. rewrite bool_decide_eq_false_2 by done.
  rewrite (Hl s (pos + length (chars w))); [by rewrite <-app_assoc| |].
  - rewrite <-drop_drop, Hd. by rewrite drop_app_length.
  - rewrite length_app in Hf. destruct (chars w) eqn:Ew; [by destruct w|]. cbn in Hf. lia.
Qed.

Lemma skipWhiteSpaces_more fuel ch l r : skipWhiteSpaces fuel ch l = Some r → skipWhiteSpaces (S fuel) ch l = Some r.
Proof.
  revert ch l. induction fuel as [|fuel IH]; intros ch l; [done|]. cbn [skipWhiteSpaces].
  destruct (isWhitespace ch); [|done]. cbn [negb]. destruct (read l) as [ch' l']. apply IH.
Qed.

Lemma skipWhiteSpaces_white fuel ch l :
  isWhitespace ch = true → skipWhiteSpaces (S fuel) ch l = let '(ch, l) := read l in skipWhiteSpaces fuel ch l.
Proof. intros Hw. cbn [skipWhiteSpaces]. by rewrite Hw. Qed.

Lemma Lex_space s pos rest :
  drop pos s = " "%char :: rest → Lex {| s := s; pos := pos |} = Lex {| s := s; pos := S pos |}.
Proof.
  intros Hd. unfold Lex. rewrite (read_drop s pos " " rest Hd). cbn [LabelParser.s].
  set (n := length s). rewrite (skipWhiteSpaces_white (S n) " ") by done.
  destruct (read_cases {| s := s; pos := S pos |}) as [[-> _]|(c & Hc & Hlt & ->)]; [done|].
  cbn [LabelParser.s LabelParser.pos] in *. fold n.
  destruct (skipWhiteSpaces_total (S n) c {| s := s; pos := S (S pos) |}) as (ch' & l' & Hsk & _); [cbn; subst n; lia| |].
  { intros _. cbn. rewrite ?Nat.sub_0_r. split; [lia|done]. }
  apply skipWhiteSpaces_more in Hsk as Hsk'. by rewrite Hsk, Hsk'.
Qed.

Lemma lexes_space rest items : lexes rest items → lexes (" "%char :: rest) items.
Proof.
  intros Hl s pos fuel acc Hd Hf. rewrite <-(Hl s (S pos) fuel acc); [|by apply drop_cons_lookup in Hd as [_ ?]|cbn in Hf; lia].
  destruct fuel as [|fuel]; [done|]. cbn [scan_loop]. by rewrite (Lex_space s pos rest).
Qed.

Lemma lexes_nil : lexes [] [end_item].
Proof.
  intros s pos fuel acc Hd Hf. destruct fuel as [|fuel]; [cbn in Hf; lia|]. cbn [scan_loop]. unfold Lex.
  by rewrite (read_end s pos Hd).
Qed.

(** The end of a symbol that is a token. *)
Lemma scan_special_end sym fuel s pos rest t :
  drop pos s = rest → ends_symbol sym rest → t ≠ ErrorToken → 0 < fuel →
  ∃ buffer, scan_special fuel {| s := s; pos := pos |} sym {| tok := t; literal := text sym |} =
    Some (buffer, {| tok := t; literal := text sym |}, {| s := s; pos := pos |}).
Proof.
  intros Hd He Ht Hf. destruct fuel as [|fuel]; [lia|]. cbn [scan_special]. destruct rest as [|c rest].
  - rewrite (read_end s pos Hd), bool_decide_eq_true_2 by done. by eexists.
  - destruct He as [Hz He]. rewrite (read_drop s pos c rest Hd), bool_decide_eq_false_2 by done.
    assert (unread {| s := s; pos := S pos |} = {| s := s; pos := pos |}) as -> by (unfold unread; cbn; by rewrite Nat.sub_0_r).
    destruct (isSpecialSymbol c); [|by eexists]. rewrite He, bool_decide_eq_true_2 by done. by eexists.
Qed.

(** The symbols, each a token with every symbol it starts with. *)
Definition symbol (sym : list ascii) (t : Token) : Prop :=
  string2token (text sym) = Some t ∧
  ((∃ c, sym = [c] ∧ isSpecialSymbol c = true) ∨
   (∃ c d, sym = [c; d] ∧ isSpecialSymbol c = true ∧ isSpecialSymbol d = true)).

Lemma special_proper c : isSpecialSymbol c = true → c ≠ "000"%char ∧ isWhitespace c = false.
Proof. destruct c as [[] [] [] [] [] [] [] []]; by vm_compute. Qed.

Lemma scanSpecialSymbol_symbol sym t s pos rest :
  symbol sym t → drop pos s = sym ++ rest → ends_symbol sym rest →
  scanSpecialSymbol {| s := s; pos := pos |} = Some (symbol_item t (text sym), {| s := s; pos := pos + length sym |}).
Proof.
  intros [Ht Hsym] Hd He. destruct (string2token_proper _ _ Ht) as [Hterr _]. unfold scanSpecialSymbol. cbn [LabelParser.s].
  pose proof (length_drop_le pos s) as Hle. rewrite Hd, length_app in Hle.
  destruct Hsym as [(c & -> & Hc)|(c & d & -> & Hc & Hd')]; cbn [length app] in *.
  - destruct (special_proper c Hc) as [Hz _]. cbn [scan_special].
    rewrite (read_drop s pos c rest Hd), bool_decide_eq_false_2, Hc by done. cbn [app]. rewrite Ht.
    apply drop_cons_lookup in Hd as [_ Hd].
    destruct (scan_special_end [c] (length s) s (S pos) rest t Hd He Hterr) as [b ->]; [lia|].
    cbn. rewrite bool_decide_eq_false_2 by done. by rewrite Nat.add_1_r.
  - destruct (special_proper c Hc) as [Hz _]. destruct (special_proper d Hd') as [Hz' _].
    destruct (special_is_token c Hc) as [t1 Ht1]. destruct (length s) as [|n] eqn:En; [lia|].
    cbn [scan_special]. rewrite (read_drop s pos c (d :: rest) Hd), bool_decide_eq_false_2, Hc by done. cbn [app]. rewrite Ht1.
    apply drop_cons_lookup in Hd as [_ Hd].
    rewrite (read_drop s (S pos) d rest Hd), bool_decide_eq_false_2, Hd' by done. cbn [app]. rewrite Ht.
    apply drop_cons_lookup in Hd as [_ Hd].
    destruct (scan_special_end [c; d] n s (S (S pos)) rest t Hd He Hterr) as [b ->]; [lia|].
    cbn. rewrite bool_decide_eq_false_2 by done. by replace (pos + 2) with (S (S pos)) by lia.
Qed.

Lemma lexes_symbol sym t rest items :
  symbol sym t → ends_symbol sym rest → lexes rest items →
  lexes (sym ++ rest) (symbol_item t (text sym) :: items).
Proof.
  intros Hsym He Hl s pos fuel acc Hd Hf. destruct fuel as [|fuel]; [lia|]. cbn [scan_loop].
  assert (Lex {| s := s; pos := pos |} = Some (symbol_item t (text sym), {| s := s; pos := pos + length sym |})) as ->.
  { rewrite <-(scanSpecialSymbol_symbol sym t s pos rest) by done. unfold Lex.
    assert (∃ c l, sym = c :: l ∧ isSpecialSymbol c = true) as (c & l & -> & Hc)
      by (destruct Hsym as [_ [(c & -> & ?)|(c & d & -> & ? & _)]]; eauto).
    rewrite (read_drop s pos c (l ++ rest) Hd). destruct (special_proper c Hc) as [Hz Hw].
    cbn [skipWhiteSpaces]. rewrite Hw. cbn [negb mbind option_bind].
    rewrite bool_decide_eq_false_2, Hc by done. unfold unread. cbn. by rewrite Nat.sub_0_r. }
  cbn [mbind option_bind]. rewrite bool_decide_eq_false_2 by (by destruct Hsym as [[_ ?]%string2token_proper _]).
  rewrite (Hl s (pos + length sym)); [by rewrite <-app_assoc| |].
  - rewrite <-drop_drop, Hd. by rewrite drop_app_length.
  - rewrite length_app in Hf. destruct Hsym as [_ [(c & -> & _)|(c & d & -> & _)]]; cbn in Hf; lia.
Qed.

(** ** The items of a printed selector *)
Definition comma_item : ScannedItem := symbol_item CommaToken ",".
Definition open_item : ScannedItem := symbol_item OpenParToken "(".
Definition close_item : ScannedItem := symbol_item ClosedParToken ")".

Definition operator_item (op : Operator) : ScannedItem :=
  match op with
  | Equals => symbol_item EqualsToken "="
  | DoubleEquals => symbol_item DoubleEqualsToken "=="
  | NotEquals => symbol_item NotEqualsToken "!="
  | GreaterThan => symbol_item GreaterThanToken ">"
  | LessThan => symbol_item LessThanToken "<"
  | NotIn => word_item "notin"
  | _ => word_item "in"
  end.

Definition value_items (v : string) : list ScannedItem := if bool_decide (v = "") then [] else [word_item v].

Fixpoint values_items (vs : list string) : list ScannedItem :=
  match vs with
  | [] => []
  | [v] => value_items v
  | v :: vs' => value_items v ++ comma_item :: values_items vs'
  end.

Definition req_items (r : Requirement) : list ScannedItem :=
  match operator r with
  | Exists_ => [word_item (key r)]
  | DoesNotExist => [symbol_item DoesNotExistToken "!"; word_item (key r)]
  | In_ | NotIn =>
    word_item (key r) :: operator_item (operator r) :: open_item :: values_items (strValues r) ++ [close_item]
  | _ => word_item (key r) :: operator_item (operator r) :: values_items (strValues r)
  end.

Fixpoint sel_items (reqs : list Requirement) : list ScannedItem :=
  match reqs with
  | [] => []
  | [r] => req_items r
  | r :: reqs' => req_items r ++ comma_item :: sel_items reqs'
  end.

(** ** Words *)
Lemma word_token w t : clean w → string2token w = Some t → t = InToken ∨ t = NotInToken.
Proof.
  intros Hc. unfold string2token. repeat case_match; intros [= <-]; auto; exfalso;
    apply Forall_cons in Hc as [Hc _]; by vm_compute in Hc.
Qed.

Lemma word_inner w : clean w → inner (word_item w).
Proof.
  intros Hc. unfold inner, word_item. cbn. destruct (string2token w) as [t|] eqn:E; [|done].
  by destruct (word_token w t Hc E) as [-> | ->].
Qed.

Lemma word_in_context w : clean w → in_context InValues (word_item w) = (IdentifierToken, w).
Proof.
  intros Hc. unfold in_context, word_item. cbn. destruct (string2token w) as [t|] eqn:E; [|done].
  by destruct (word_token w t Hc E) as [-> | ->].
Qed.

Lemma ends_symbol_clean sym v rest : clean v → ends_symbol sym rest → ends_symbol sym (chars v ++ rest).
Proof.
  unfold clean. destruct (chars v) as [|c l]; [done|]. intros [(Hz & Ho & _)%labelChar_plain%plain_inv _]%Forall_cons _.
  split; [done|]. by rewrite Ho.
Qed.

Lemma chars_join v w vs : chars (join_comma (v :: w :: vs)) = chars v ++ ","%char :: chars (join_comma (w :: vs)).
Proof. unfold join_comma. change (String.concat "," (v :: w :: vs)) with (v +:+ "," +:+ String.concat "," (w :: vs)). by rewrite !chars_append. Qed.

Lemma ends_symbol_join sym vs rest :
  Forall clean vs → (∀ l, ends_symbol sym (","%char :: l)) → ends_symbol sym rest →
  ends_symbol sym (chars (join_comma vs) ++ rest).
Proof.
  intros Hc Hs Hr. destruct vs as [|v [|w vs]]; [done|..]; apply Forall_cons in Hc as [Hv _].
  - by apply ends_symbol_clean.
  - rewrite chars_join, <-app_assoc. apply ends_symbol_clean; [done|apply Hs].
Qed.

Lemma lexes_value v rest items :
  clean v → stops rest → lexes rest items → lexes (chars v ++ rest) (value_items v ++ items).
Proof.
  intros Hc Hs Hl. unfold value_items. case_bool_decide as Hv; [by subst|]. by apply lexes_word; [..|apply word_inner].
Qed.

Lemma comma_symbol : symbol [","%char] CommaToken.
Proof. split; [done|]. left. by eexists. Qed.

Lemma ends_comma c l : isSpecialSymbol c = true → ends_symbol [","%char] (c :: l).
Proof. intros Hc. split; [by apply special_proper|]. intros _. by destruct c as [[] [] [] [] [] [] [] []]; vm_compute in Hc |- *. Qed.

Lemma lexes_values vs rest items :
  Forall clean vs → stops rest → ends_symbol [","%char] rest → lexes rest items →
  lexes (chars (join_comma vs) ++ rest) (values_items vs ++ items).
Proof.
  intros Hc Hs He Hl. induction vs as [|v vs IH]; [done|]. apply Forall_cons in Hc as [Hv Hc].
  destruct vs as [|w vs]; [by apply lexes_value|].
  rewrite chars_join, <-app_assoc. change (values_items (v :: w :: vs)) with (value_items v ++ comma_item :: values_items (w :: vs)).
  rewrite <-app_assoc. apply lexes_value; [done|done|]. apply (lexes_symbol [","%char] CommaToken); [apply comma_symbol| |by apply IH].
  apply ends_symbol_join; [done| |done]. intros l. by apply ends_comma.
Qed.

Lemma values_String_join r : values_String r = join_comma (strValues r).
Proof. unfold values_String. by destruct (strValues r) as [|v [|]]. Qed.

(** ** What is known of a requirement that can be made *)
Definition made (r : Requirement) : Prop := NewRequirement (key r) (operator r) (strValues r) = Ok r.

Lemma validateLabelKey_clean k : validateLabelKey k = None → clean k ∧ k ≠ "".
Proof. intros Hk. destruct (valid_label_clean (k, "") (conj Hk eq_refl)) as (? & _ & ?). done. Qed.

Lemma validateLabelValue_clean v : validateLabelValue v = None → clean v.
Proof. intros Hv. by destruct (valid_label_clean ("x", v) (conj eq_refl Hv)) as (_ & ? & _). Qed.

Lemma made_clean r : made r → clean (key r) ∧ key r ≠ "" ∧ Forall clean (strValues r).
Proof.
  intros (Hk & _ & Hv & _)%NewRequirement_Ok. destruct (validateLabelKey_clean _ Hk). split_and!; [done..|].
  rewrite validate_values_None in Hv. apply Forall_forall. eauto using validateLabelValue_clean.
Qed.

(** What follows a requirement in a printed selector. *)
Definition after_req (rest : list ascii) : Prop := rest = [] ∨ ∃ rest', rest = ","%char :: rest'.

Lemma after_req_stops rest : after_req rest → stops rest.
Proof. by intros [->|[? ->]]. Qed.

Lemma after_req_ends sym t rest : symbol sym t → after_req rest → ends_symbol sym rest.
Proof.
  intros [Ht Hsym] [->|[rest' ->]]; [done|]. split; [done|]. intros _.
  destruct Hsym as [(c & -> & Hc)|(c & d & -> & Hc & Hd)].
  - by destruct c as [[] [] [] [] [] [] [] []]; vm_compute in Hc |- *.
  - cbn. unfold string2token. repeat case_match; simplify_eq; done.
Qed.

Lemma lexes_exact r (sym : string) t rest items :
  made r → symbol (chars sym) t → after_req rest → lexes rest items →
  lexes (chars (key r +:+ sym +:+ values_String r) ++ rest)
    (word_item (key r) :: symbol_item t sym :: values_items (strValues r) ++ items).
Proof.
  intros (Hk & Hne & Hv)%made_clean Hsym Ha Hl. rewrite values_String_join, !chars_append, <-!app_assoc.
  apply lexes_word; [done|done| | |by apply word_inner].
  - destruct Hsym as [_ [(c & -> & Hc)|(c & d & -> & Hc & _)]]; cbn; rewrite Hc; (split; [by apply special_proper|done]).
  - rewrite <-(text_chars sym) at 2. apply lexes_symbol; [done| |].
    + apply ends_symbol_join; [done| |by apply (after_req_ends _ t)].
      intros l. apply (after_req_ends _ t); [done|]. right. by eexists.
    + apply lexes_values; [done|by apply after_req_stops| |done]. apply (after_req_ends _ CommaToken); [apply comma_symbol|done].
Qed.

Lemma lexes_set r (op : string) rest items :
  made r → clean op → op ≠ "" → after_req rest → lexes rest items →
  lexes (chars (key r +:+ " " +:+ op +:+ " " +:+ "(" +:+ values_String r +:+ ")") ++ rest)
    (word_item (key r) :: word_item op :: open_item :: (values_items (strValues r) ++ [close_item]) ++ items).
Proof.
  intros (Hk & Hne & Hv)%made_clean Hop Hop' Ha Hl. rewrite values_String_join, !chars_append, <-!app_assoc. cbn [chars String.list_ascii_of_string app].
  apply lexes_word; [done|done|done| |by apply word_inner]. apply lexes_space.
  apply lexes_word; [done|done|done| |by apply word_inner]. apply lexes_space.
  assert (lexes (")"%char :: rest) (close_item :: items)) as Hclose.
  { apply (lexes_symbol [")"%char] ClosedParToken); [split; [done|left; by eexists]| |done].
    apply (after_req_ends _ ClosedParToken); [split; [done|left; by eexists]|done]. }
  apply (lexes_symbol ["("%char] OpenParToken); [split; [done|left; by eexists]| |].
  - by apply ends_symbol_join.
  - by apply lexes_values.
Qed.

Ltac solve_symbol :=
  split; [done|first [left; by eexists|right; by eexists _, _]].

Lemma made_known r : made r → ∀ s, operator r ≠ OtherOperator s.
Proof. intros (_ & Hc & _ & _)%NewRequirement_Ok s Hs. by rewrite Hs in Hc. Qed.

Lemma lexes_req r rest items :
  made r → after_req rest → lexes rest items → lexes (chars (req_String r) ++ rest) (req_items r ++ items).
Proof.
  intros Hr Ha Hl. destruct (made_clean r Hr) as (Hk & Hne & Hv). pose proof (made_known r Hr) as Hop.
  pose proof (after_req_stops _ Ha) as Hs. unfold req_String, req_items. destruct (operator r) eqn:Eop.
  - rewrite chars_append, <-app_assoc. apply (lexes_symbol ["!"%char] DoesNotExistToken); [solve_symbol| |].
    + apply ends_symbol_clean; [done|]. apply (after_req_ends _ DoesNotExistToken); [solve_symbol|done].
    + by apply lexes_word; [..|apply word_inner].
  - apply (lexes_exact r "=" EqualsToken); [done|solve_symbol|done..].
  - apply (lexes_exact r "==" DoubleEqualsToken); [done|solve_symbol|done..].
  - by apply (lexes_set r "in"); [..|repeat constructor| | |].
  - apply (lexes_exact r "!=" NotEqualsToken); [done|solve_symbol|done..].
  - by apply (lexes_set r "notin"); [..|repeat constructor| | |].
  - by apply lexes_word; [..|apply word_inner].
  - apply (lexes_exact r ">" GreaterThanToken); [done|solve_symbol|done..].
  - apply (lexes_exact r "<" LessThanToken); [done|solve_symbol|done..].
  - by destruct (Hop s).
Qed.

(** A requirement starts with a character of its key or with [!]. *)
Lemma ends_comma_req r l : made r → ends_symbol [","%char] (chars (req_String r) ++ l).
Proof.
  intros Hr. destruct (made_clean r Hr) as (Hk & Hne & _).
  assert (∀ t, ends_symbol [","%char] (chars (key r +:+ t) ++ l)) as Hkey.
  { intros t. rewrite chars_append, <-app_assoc. unfold clean in Hk. destruct (chars (key r)) as [|c cs] eqn:E.
    - by destruct (key r).
    - apply Forall_cons in Hk as [(Hz & Ho & _)%labelChar_plain%plain_inv _]. split; [done|]. by rewrite Ho. }
  unfold req_String. destruct (operator r); try apply Hkey; [by apply ends_comma|].
  specialize (Hkey ""). by rewrite chars_append, app_nil_r in Hkey.
Qed.

Lemma lexes_sel reqs :
  Forall made reqs → lexes (chars (sel_String (Internal reqs))) (sel_items reqs ++ [end_item]).
Proof.
  induction 1 as [|r reqs Hr Hreqs IH]; [apply lexes_nil|]. cbn [sel_String fmap list_fmap].
  destruct reqs as [|r' reqs].
  - rewrite <-(app_nil_r (chars _)). apply lexes_req; [done|by left|apply lexes_nil].
  - rewrite fmap_cons, chars_join. change (sel_items (r :: r' :: reqs)) with (req_items r ++ comma_item :: sel_items (r' :: reqs)).
    rewrite <-app_assoc. apply lexes_req; [done|right; by eexists|].
    apply (lexes_symbol [","%char] CommaToken); [apply comma_symbol| |exact IH].
    apply Forall_cons in Hreqs as [Hr' _]. destruct reqs as [|r'' reqs].
    + rewrite <-(app_nil_r (chars _)). by apply ends_comma_req.
    + rewrite fmap_cons, chars_join. by apply ends_comma_req.
Qed.

Lemma scan_printed reqs : Forall made reqs → scan (sel_String (Internal reqs)) = Some (sel_items reqs ++ [end_item]).
Proof.
  intros Hr. apply (lexes_sel reqs Hr (chars (sel_String (Internal reqs))) 0); [done|]. rewrite length_chars. lia.
Qed.

(** ** Parsing printed items *)
Definition at_items (p : Parser) (l : list ScannedItem) : Prop := drop (position p) (scannedItems p) = l.

Definition advance (p : Parser) : Parser := {| scannedItems := scannedItems p; position := S (position p) |}.

Lemma at_advance p i l : at_items p (i :: l) → at_items (advance p) l.
Proof. by intros [_ ?]%drop_cons_lookup. Qed.

Lemma bind_consume {A} ctx p i l (f : Token * string → pst A) :
  at_items p (i :: l) → (consume ctx ≫= f) p = f (in_context ctx i) (advance p).
Proof. intros [Hi _]%drop_cons_lookup. unfold mbind, pst_bind, consume. by rewrite Hi. Qed.

Lemma bind_lookahead {A} ctx p i l (f : Token * string → pst A) :
  at_items p (i :: l) → (lookahead ctx ≫= f) p = f (in_context ctx i) p.
Proof. intros [Hi _]%drop_cons_lookup. unfold mbind, pst_bind, lookahead. by rewrite Hi. Qed.

(** The values of a set after the first: each behind a comma. *)
Definition more_items (vs : list string) : list ScannedItem := vs ≫= λ v, [comma_item; word_item v].

Lemma length_more vs : length (more_items vs) = 2 * length vs.
Proof.
  induction vs as [|v vs IH]; [done|].
  change (more_items (v :: vs)) with (comma_item :: word_item v :: more_items vs). cbn [length]. lia.
Qed.

Definition proper_value (v : string) : Prop := clean v ∧ v ≠ "".

Lemma values_items_cons v vs :
  Forall proper_value vs → values_items (v :: vs) = value_items v ++ more_items vs.
Proof.
  intros Hvs. revert v. induction Hvs as [|w vs [_ Hne] _ IH]; intros v; [by rewrite app_nil_r|].
  change (values_items (v :: w :: vs)) with (value_items v ++ comma_item :: values_items (w :: vs)).
  rewrite IH. unfold value_items at 2. by rewrite bool_decide_eq_false_2.
Qed.

(** The loop at a value, and at what follows it. *)
Lemma identifiers_words vs v fuel (s : gset string) p l :
  proper_value v → Forall proper_value vs →
  at_items p (word_item v :: more_items vs ++ close_item :: l) → 2 * length vs < fuel →
  ∃ p', identifiers_loop fuel s p = POk (s ∪ list_to_set (v :: vs)) p' ∧ at_items p' (close_item :: l).
Proof.
  intros Hv Hvs. revert v fuel s p Hv. induction Hvs as [|w vs Hw Hvs IH]; intros v fuel s p [Hc Hne] Hat Hf;
    (destruct fuel as [|fuel]; [lia|]); cbn [identifiers_loop];
    rewrite (bind_consume _ _ _ _ _ Hat), word_in_context by done; apply at_advance in Hat;
    rewrite (bind_lookahead _ _ _ _ _ Hat); cbn [in_context tok close_item comma_item symbol_item literal].
  - eexists. split; [|done]. unfold mret, pst_ret. f_equal. apply set_eq. intros x. rewrite elem_of_Insert. set_solver.
  - destruct fuel as [|fuel]; [cbn in Hf; lia|]. cbn [identifiers_loop].
    rewrite (bind_consume _ _ _ _ _ Hat). cbn [in_context tok comma_item symbol_item literal]. apply at_advance in Hat.
    rewrite (bool_decide_eq_false_2 (Len _ = 0)).
    2: { intros Hz%size_empty_inv. apply (not_elem_of_empty (C := gset string) v), Hz, elem_of_Insert. set_solver. }
    rewrite (bind_lookahead _ _ _ _ _ Hat), word_in_context by apply Hw.
    rewrite !bool_decide_eq_false_2 by done.
    destruct (IH w fuel (Insert s [v]) _ Hw Hat) as (p' & -> & Hp'); [cbn in Hf; lia|].
    exists p'. split; [|done]. f_equal. apply set_eq. intros x.
    rewrite elem_of_union, elem_of_Insert, !elem_of_list_to_set. set_solver.
Qed.

(** The items that end a requirement. *)
Definition ends_req (i : ScannedItem) : Prop := tok i = EndOfStringToken ∨ tok i = CommaToken.

Lemma ends_req_context i : ends_req i → in_context InValues i = (tok i, literal i).
Proof. unfold in_context. by intros [-> | ->]. Qed.

(** The printed forms that are parsed back: an odd number of empty values, more than one
    and no other value beside them, is not. *)
Definition readable (r : Requirement) : Prop :=
  made r ∧ ∀ n, strValues r ≠ replicate (2 * n + 3) "".

Lemma wf_req_readable r : wf_req r → readable r.
Proof.
  intros [Hm Hd]. split; [done|]. intros n Hn. rewrite Hn in Hd.
  replace (2 * n + 3) with (S (S (2 * n + 1))) in Hd by lia. cbn in Hd. apply NoDup_cons in Hd as [Hd _]. set_solver.
Qed.

(** The values are sorted: the empty ones come first. *)
Lemma made_values r : made r → ∃ n ws, strValues r = replicate n "" ++ ws ∧ Forall proper_value ws.
Proof.
  intros Hr. destruct (made_clean r Hr) as (_ & _ & Hc).
  assert (StronglySorted String.le (strValues r)) as Hs.
  { apply NewRequirement_Ok in Hr as (_ & _ & _ & ->). apply (StronglySorted_merge_sort String.le). }
  induction Hs as [|v vs _ IH Hv]; [by exists 0, []|]. apply Forall_cons in Hc as [Hcv Hc].
  destruct (decide (v = "")) as [->|Hne].
  - destruct (IH Hc) as (n & ws & -> & Hws). by exists (S n), ws.
  - exists 0, (v :: vs). split; [done|]. constructor; [done|]. rewrite Forall_forall in *. intros w Hw.
    split; [auto|]. intros ->. specialize (Hv _ Hw). by destruct v.
Qed.

(** A requirement as it is parsed back: repeated values are gone. *)
Definition read_back (r : Requirement) : Requirement :=
  {| key := key r; operator := operator r; strValues := value_list (strValues r) |}.

Lemma value_list_elem vs v : v ∈ value_list vs ↔ v ∈ vs.
Proof. unfold value_list. rewrite merge_sort_elem, elem_of_elements, elem_of_list_to_set. done. Qed.

Lemma read_back_made r : made r → NewRequirement (key r) (operator r) (value_list (strValues r)) = Ok (read_back r).
Proof.
  intros (Hk & Hc & Hv & _)%NewRequirement_Ok. apply NewRequirement_Ok. split_and!; [done|..].
  - assert (∀ v, value_list [v] = [v]) as Hone.
    { intros v. unfold value_list. cbn. by rewrite (right_id_L ∅ (∪)), elements_singleton. }
    assert (strValues r ≠ [] → value_list (strValues r) ≠ []) as Hne.
    { intros Hne Hn. destruct (strValues r) as [|v vs]; [done|].
      assert (v ∈ value_list (v :: vs)) as Hin by (apply value_list_elem; left). rewrite Hn in Hin. by apply not_elem_of_nil in Hin. }
    destruct (strValues r) as [|v [|w vs]] eqn:E; [|by rewrite Hone|].
    + destruct (operator r); cbn in Hc |- *; try done.
    + revert Hne. generalize (value_list (v :: w :: vs)). intros us Hne.
      assert (length us ≠ 0) as Hl by (intros Hl%nil_length_inv; by apply Hne).
      destruct (operator r); cbn in Hc |- *; try done.
      all: by rewrite bool_decide_eq_false_2.
  - rewrite validate_values_None in Hv |- *. intros v Hin. by apply Hv, value_list_elem.
  - unfold read_back, value_list. f_equal. apply (StronglySorted_unique String.le).
    + apply (StronglySorted_merge_sort _).
    + apply (StronglySorted_merge_sort _).
    + by rewrite (merge_sort_Permutation _ (merge_sort _ _)).
Qed.

(** Requirements are sets of values: what is parsed back matches the same labels. *)
Lemma read_back_Matches r ls : made r → req_Matches (read_back r) ls = req_Matches r ls.
Proof.
  intros Hr. apply eq_true_iff_eq. rewrite (requirement_matches_exact _ _ _ _ _ (read_back_made r Hr)).
  rewrite (requirement_matches_exact _ _ _ _ _ Hr).
  replace (list_to_set (value_list (strValues r)) : gset string) with (list_to_set (strValues r) : gset string); [done|].
  apply set_eq. intros v. by rewrite !elem_of_list_to_set, value_list_elem.
Qed.

Lemma read_back_distinct r : wf_req r → read_back r = r.
Proof.
  intros [(_ & _ & _ & Hrec)%NewRequirement_Ok Hd]. rewrite Hrec at 2. unfold read_back, value_list. f_equal.
  apply (StronglySorted_unique String.le); [apply (StronglySorted_merge_sort _)..|].
  rewrite !merge_sort_Permutation. by apply elements_list_to_set.
Qed.

Lemma empties_items n w ws : values_items (replicate n "" ++ w :: ws) = replicate n comma_item ++ values_items (w :: ws).
Proof.
  induction n as [|n IH]; [done|].
  assert (∃ x xs, replicate n "" ++ w :: ws = x :: xs) as (x & xs & Hx) by (destruct n; cbn; eauto).
  cbn [replicate app]. rewrite <-IH, Hx. done.
Qed.

Section printed.
Context (rngs : gset string → list string) `{!set_order rngs}.

(** A pair of commas stands for an empty value. *)
Lemma identifiers_comma_pair fuel (s : gset string) p l :
  at_items p (comma_item :: comma_item :: l) →
  identifiers_loop (S fuel) s p = identifiers_loop fuel ({[""]} ∪ s) (advance (advance p)).
Proof.
  intros Hat. cbn [identifiers_loop]. rewrite (bind_consume _ _ _ _ _ Hat). apply at_advance in Hat.
  cbn [in_context tok literal comma_item symbol_item]. rewrite (bind_lookahead _ _ _ _ _ Hat).
  cbn [in_context tok literal comma_item symbol_item]. rewrite bool_decide_eq_false_2, bool_decide_eq_true_2 by done.
  rewrite (bind_consume _ _ _ _ _ Hat). do 2 f_equal. apply set_eq. intros x. rewrite elem_of_Insert.
  case_bool_decide; rewrite ?elem_of_Insert; set_solver.
Qed.

Lemma identifiers_comma_pairs n fuel (s : gset string) p l :
  at_items p (replicate (2 * n) comma_item ++ l) →
  ∃ p', at_items p' l ∧
    identifiers_loop (n + fuel) s p = identifiers_loop fuel (if decide (n = 0) then s else {[""]} ∪ s) p'.
Proof.
  revert s p. induction n as [|n IH]; intros s p Hat; [by exists p|].
  replace (2 * S n) with (S (S (2 * n))) in Hat by lia. cbn [replicate app] in Hat.
  cbn [Nat.add]. rewrite (identifiers_comma_pair _ _ _ _ Hat). apply at_advance, at_advance in Hat.
  destruct (IH ({[""]} ∪ s) _ Hat) as (p' & Hp' & ->). exists p'. split; [done|].
  case_decide; f_equal; set_solver.
Qed.

(** One comma more, before a word or at the end. *)
Lemma identifiers_comma_word fuel (s : gset string) p w l :
  s ⊆ {[""]} → proper_value w → at_items p (comma_item :: word_item w :: l) →
  identifiers_loop (S fuel) s p = identifiers_loop fuel {[""]} (advance p).
Proof.
  intros Hs [Hw _] Hat. cbn [identifiers_loop]. rewrite (bind_consume _ _ _ _ _ Hat). apply at_advance in Hat.
  cbn [in_context tok literal comma_item symbol_item]. rewrite (bind_lookahead _ _ _ _ _ Hat), word_in_context by done.
  rewrite !(bool_decide_eq_false_2 (IdentifierToken = _)) by done. f_equal. apply set_eq. intros x. case_bool_decide as Hz.
  - apply size_empty_inv in Hz. rewrite elem_of_Insert. set_solver.
  - assert (s ≠ ∅) as (y & Hy)%set_choose_L by (intros ->; apply Hz; done). set_solver.
Qed.

Lemma identifiers_comma_close fuel (s : gset string) p l :
  s ⊆ {[""]} → at_items p (comma_item :: close_item :: l) →
  identifiers_loop (S fuel) s p = POk {[""]} (advance p).
Proof.
  intros Hs Hat. cbn [identifiers_loop]. rewrite (bind_consume _ _ _ _ _ Hat). apply at_advance in Hat.
  cbn [in_context tok literal comma_item symbol_item]. rewrite (bind_lookahead _ _ _ _ _ Hat).
  cbn [in_context tok literal close_item symbol_item]. rewrite bool_decide_eq_true_2 by done.
  unfold mret, pst_ret. f_equal. apply set_eq. intros x. rewrite elem_of_Insert.
  case_bool_decide; rewrite ?elem_of_Insert; set_solver.
Qed.

Lemma identifiers_printed_words n w ws q l :
  Forall proper_value (w :: ws) →
  at_items q (replicate n comma_item ++ word_item w :: more_items ws ++ close_item :: l) →
  ∃ p', parseIdentifiersList q = POk (list_to_set (replicate n "" ++ w :: ws)) p' ∧ at_items p' (close_item :: l).
Proof.
  intros [Hw Hws]%Forall_cons Hat. unfold parseIdentifiersList.
  assert (n + 2 * length ws < length (scannedItems q)) as Hlen.
  { pose proof (length_drop_le (position q) (scannedItems q)) as Hle. rewrite Hat in Hle.
    rewrite length_app, length_replicate in Hle. cbn [length] in Hle. rewrite length_app, length_more in Hle. lia. }
  pose proof (Nat.div_mod_eq n 2) as Hn. pose proof (Nat.mod_upper_bound n 2) as Hm.
  set (k := n / 2) in *. assert (n mod 2 = 0 ∨ n mod 2 = 1) as Hpar by lia.
  replace n with (2 * k + n mod 2) in Hat by lia. rewrite replicate_add, <-app_assoc in Hat.
  set (fuel := S (length (scannedItems q)) - k). replace (S (length (scannedItems q))) with (k + fuel) by (unfold fuel; lia).
  destruct (identifiers_comma_pairs k fuel (NewString []) q _ Hat) as (p1 & Hp1 & ->).
  set (s1 := if decide (k = 0) then _ else _).
  assert (s1 = if decide (k = 0) then ∅ else {[""]}) as Hs1 by (unfold s1; case_decide; set_solver).
  destruct Hpar as [Hpar|Hpar]; rewrite Hpar in Hp1; cbn [replicate app] in Hp1.
  - destruct (identifiers_words ws w fuel s1 p1 l Hw Hws Hp1) as (p' & -> & Hp'); [unfold fuel; lia|].
    exists p'. split; [|done]. f_equal. apply set_eq. intros x.
    rewrite Hs1, elem_of_union, !elem_of_list_to_set, elem_of_app, elem_of_replicate. case_decide; set_solver by lia.
  - assert (∃ fuel', fuel = S fuel') as [fuel' Hf] by (exists (length (scannedItems q) - k); unfold fuel; lia). rewrite Hf.
    rewrite (identifiers_comma_word fuel' s1 p1 w _) by (done || rewrite Hs1; case_decide; set_solver). apply at_advance in Hp1.
    destruct (identifiers_words ws w fuel' {[""]} _ l Hw Hws Hp1) as (p' & -> & Hp'); [unfold fuel in Hf; lia|].
    exists p'. split; [|done]. f_equal. apply set_eq. intros x.
    rewrite elem_of_union, !elem_of_list_to_set, elem_of_app, elem_of_replicate. set_solver by lia.
Qed.

Lemma identifiers_printed_empties n q l :
  at_items q (replicate (2 * n + 1) comma_item ++ close_item :: l) →
  ∃ p', parseIdentifiersList q = POk {[""]} p' ∧ at_items p' (close_item :: l).
Proof.
  intros Hat. unfold parseIdentifiersList.
  assert (2 * n < length (scannedItems q)) as Hlen.
  { pose proof (length_drop_le (position q) (scannedItems q)) as Hle. rewrite Hat in Hle.
    rewrite length_app, length_replicate in Hle. cbn [length] in Hle. lia. }
  rewrite replicate_add, <-app_assoc in Hat.
  set (fuel := length (scannedItems q) - n). replace (S (length (scannedItems q))) with (n + S fuel) by (unfold fuel; lia).
  destruct (identifiers_comma_pairs n (S fuel) (NewString []) q _ Hat) as (p1 & Hp1 & ->). cbn [replicate app] in Hp1.
  rewrite (identifiers_comma_close fuel _ p1 l) by (done || case_decide; set_solver).
  apply at_advance in Hp1. eauto.
Qed.

Lemma identifiers_printed vs n ws q l :
  vs = replicate n "" ++ ws → Forall proper_value ws → (∀ m, vs ≠ replicate (2 * m + 3) "") → vs ≠ [] → vs ≠ [""] →
  at_items q (values_items vs ++ close_item :: l) →
  (∃ p', parseIdentifiersList q = POk (list_to_set vs) p' ∧ at_items p' (close_item :: l)) ∧
  ∃ i l', values_items vs ++ close_item :: l = i :: l' ∧
    ((in_context InValues i).1 = IdentifierToken ∨ (in_context InValues i).1 = CommaToken).
Proof.
  intros -> Hws Hodd Hne Hne1 Hat. destruct ws as [|w ws].
  - rewrite app_nil_r in *. pose proof (Nat.div_mod_eq n 2) as Hn. pose proof (Nat.mod_upper_bound n 2) as Hm.
    assert (∃ m, n = 2 * m + 2) as [m ->].
    { destruct (decide (n mod 2 = 0)); [exists (n / 2 - 1); destruct (decide (n = 0)) as [->|]; [done|lia]|].
      destruct (decide (n = 1)) as [->|]; [done|]. destruct (Hodd (n / 2 - 1)). f_equal. lia. }
    assert (values_items (replicate (2 * m + 2) "") = replicate (2 * m + 1) comma_item) as Hv.
    { replace (2 * m + 2) with ((2 * m + 1) + 1) by lia. rewrite replicate_add.
      change (replicate 1 "") with [""]. rewrite empties_items. apply app_nil_r. }
    rewrite Hv in *. split.
    + destruct (identifiers_printed_empties m q l Hat) as (p' & -> & Hp'). exists p'. split; [|done]. f_equal.
      apply set_eq. intros x. rewrite elem_of_list_to_set, elem_of_replicate, elem_of_singleton. naive_solver lia.
    + replace (2 * m + 1) with (S (2 * m)) by lia. eexists _, _. split; [done|]. by right.
  - rewrite empties_items, values_items_cons in * by (by apply Forall_cons in Hws as [_ ?]).
    assert (value_items w = [word_item w]) as Hvi.
    { apply Forall_cons in Hws as [[_ ?] _]. unfold value_items. by rewrite bool_decide_eq_false_2. }
    rewrite Hvi in *. rewrite <-app_assoc in *. cbn [app] in *. split; [by apply identifiers_printed_words|].
    destruct n; cbn [replicate app]; eexists _, _; (split; [done|]); [|by right].
    left. apply Forall_cons in Hws as [[? _] _]. by rewrite word_in_context.
Qed.

Lemma parseValues_printed r p l :
  readable r → strValues r ≠ [] → at_items p (open_item :: values_items (strValues r) ++ close_item :: l) →
  ∃ p', parseValues p = POk (list_to_set (strValues r)) p' ∧ at_items p' l.
Proof.
  intros [Hm Hodd] Hne Hat. destruct (made_values r Hm) as (n & ws & Hvs & Hws). revert Hodd Hne Hat.
  generalize dependent (strValues r). intros vs Hvs Hodd Hne Hat.
  unfold parseValues. rewrite (bind_consume _ _ _ _ _ Hat).
  apply at_advance in Hat. set (q := advance p) in *. cbn [in_context tok literal open_item symbol_item].
  rewrite bool_decide_eq_false_2 by (intros Hn; by apply Hn).
  destruct (decide (vs = [""])) as [->|Hne1].
  { cbn in Hat. rewrite (bind_lookahead _ _ _ _ _ Hat). cbn [in_context tok literal close_item symbol_item].
    rewrite (bind_consume _ _ _ _ _ Hat). apply at_advance in Hat. eexists. split; [|done].
    unfold mret, pst_ret. by f_equal. }
  destruct (identifiers_printed vs n ws q l Hvs Hws Hodd Hne Hne1 Hat) as [(p' & Hids & Hp') (i & l' & Hi & Hti)].
  rewrite Hi in Hat. rewrite (bind_lookahead _ _ _ _ _ Hat).
  destruct (in_context InValues i) as [t lit]. cbn [fst] in Hti.
  exists (advance p'). split; [|by apply at_advance in Hp']. destruct Hti as [-> | ->].
  all: unfold mbind at 1, pst_bind; rewrite Hids, (bind_consume _ _ _ _ _ Hp'); done.
Qed.

Lemma parseExactValue_printed v p next l :
  clean v → ends_req next → at_items p (values_items [v] ++ next :: l) →
  ∃ p', parseExactValue p = POk (list_to_set [v]) p' ∧ at_items p' (next :: l).
Proof.
  intros Hv Hn Hat. cbn [values_items] in Hat. unfold value_items in Hat. unfold parseExactValue.
  assert (Insert (NewString []) [v] = list_to_set [v]) as HI by apply (Insert_snoc []).
  case_bool_decide as Hv0; cbn [app] in Hat.
  - rewrite (bind_lookahead _ _ _ _ _ Hat), ends_req_context by done. rewrite bool_decide_eq_true_2 by done.
    exists p. subst v. by rewrite HI.
  - rewrite (bind_lookahead _ _ _ _ _ Hat), word_in_context by done. rewrite bool_decide_eq_false_2 by naive_solver.
    rewrite (bind_consume _ _ _ _ _ Hat), word_in_context by done. rewrite bool_decide_eq_true_2 by done.
    eexists. rewrite HI. split; [done|]. by apply at_advance in Hat.
Qed.

Lemma key_printed k p next l :
  validateLabelKey k = None → at_items p (word_item k :: next :: l) →
  parseKeyAndInferOperator p =
    POk (k, if bool_decide ((in_context InValues next).1 = EndOfStringToken ∨ (in_context InValues next).1 = CommaToken)
            then Exists_ else OtherOperator "") (advance p).
Proof.
  intros Hk Hat. destruct (validateLabelKey_clean k Hk) as [Hc _]. unfold parseKeyAndInferOperator.
  rewrite (bind_consume _ _ _ _ _ Hat), word_in_context by done. apply at_advance in Hat.
  rewrite (bool_decide_eq_false_2 (IdentifierToken = _)) by done. unfold mbind at 1, pst_bind at 1. cbn [mret pst_ret].
  rewrite (bool_decide_eq_false_2 (IdentifierToken ≠ _)) by (intros Hn; by apply Hn). rewrite Hk.
  rewrite (bind_lookahead _ _ _ _ _ Hat). by destruct (in_context InValues next).
Qed.

Lemma not_key_printed k p next l :
  validateLabelKey k = None → at_items p (symbol_item DoesNotExistToken "!" :: word_item k :: next :: l) →
  parseKeyAndInferOperator p = POk (k, DoesNotExist) (advance (advance p)).
Proof.
  intros Hk Hat. destruct (validateLabelKey_clean k Hk) as [Hc _]. unfold parseKeyAndInferOperator.
  rewrite (bind_consume _ _ _ _ _ Hat). apply at_advance in Hat. cbn [in_context tok literal symbol_item].
  rewrite (bool_decide_eq_true_2 (DoesNotExistToken = _)) by done. unfold mbind at 1, pst_bind at 1.
  rewrite (bind_consume _ _ _ _ _ Hat), word_in_context by done. apply at_advance in Hat. cbn [mret pst_ret].
  rewrite (bool_decide_eq_false_2 (IdentifierToken ≠ _)) by (intros Hn; by apply Hn). rewrite Hk.
  rewrite (bind_lookahead _ _ _ _ _ Hat). destruct (in_context InValues next) as [t lit].
  rewrite (bool_decide_eq_false_2 (DoesNotExist ≠ _)) by (intros Hn; by apply Hn). by case_bool_decide.
Qed.

(** The items of the requirements with values, behind the key and the operator. *)
Definition tail_items (r : Requirement) : list ScannedItem :=
  if decide (set_based (operator r)) then open_item :: values_items (strValues r) ++ [close_item]
  else values_items (strValues r).

Lemma valued_printed r p next l v vs :
  readable r → strValues r = v :: vs → (¬ set_based (operator r) → vs = []) →
  operator_token (tok (operator_item (operator r))) = Some (operator r) → ends_req next →
  at_items p (word_item (key r) :: operator_item (operator r) :: tail_items r ++ next :: l) →
  ∃ p', parseRequirement rngs p = POk (read_back r) p' ∧ at_items p' (next :: l).
Proof.
  intros Hr Hvs Hone Hop Hn Hat. destruct (made_clean r (proj1 Hr)) as (_ & _ & Hcl).
  assert (clean v) as Hv by (rewrite Hvs in Hcl; by apply Forall_cons in Hcl as [? _]).
  pose proof (read_back_made r (proj1 Hr)) as HNew.
  assert (List rngs (list_to_set (strValues r)) = value_list (strValues r)) as HL by by apply List_elements.
  pose proof HNew as (Hk & _)%NewRequirement_Ok. unfold parseRequirement, mbind at 1, pst_bind.
  rewrite (key_printed _ _ _ _ Hk Hat), (bool_decide_eq_false_2 ((in_context _ _).1 = _ ∨ _)).
  2: { destruct (operator r); cbn; naive_solver. }
  apply at_advance in Hat. rewrite (bool_decide_eq_false_2 (OtherOperator "" = _ ∨ _)) by naive_solver.
  assert (parseOperator (advance p) = POk (operator r) (advance (advance p))) as HO.
  { unfold parseOperator. rewrite (bind_consume _ _ _ _ _ Hat). by destruct (operator r). }
  unfold mbind at 1. rewrite HO. apply at_advance in Hat.
  assert (∃ p', (match operator r with
     | In_ | NotIn => parseValues
     | Equals | DoubleEquals | NotEquals | GreaterThan | LessThan => parseExactValue
     | _ => mret ∅
     end) (advance (advance p)) = POk (list_to_set (strValues r)) p' ∧ at_items p' (next :: l)) as (p' & HP & Hp').
  { unfold tail_items in Hat. destruct (decide (set_based (operator r))) as [Hs|Hs].
    - cbn [app] in Hat. rewrite <-app_assoc in Hat. cbn [app] in Hat.
      destruct (parseValues_printed r _ _ Hr ltac:(by rewrite Hvs) Hat) as (p' & HP & Hp'). exists p'. by destruct Hs as [-> | ->].
    - rewrite Hvs, (Hone Hs) in *. destruct (parseExactValue_printed v _ next l Hv Hn Hat) as (p' & HP & Hp').
      exists p'. split; [|done]. unfold set_based in Hs. destruct (operator r); try done; naive_solver. }
  exists p'. split; [|done]. unfold mbind at 1. by rewrite HP, HL, HNew.
Qed.

Lemma parseRequirement_printed r p next l :
  readable r → ends_req next → at_items p (req_items r ++ next :: l) →
  ∃ p', parseRequirement rngs p = POk (read_back r) p' ∧ at_items p' (next :: l).
Proof.
  intros Hr Hn Hat. pose proof Hr as [HNew _]. pose proof HNew as (Hk & Hcv & _ & _)%NewRequirement_Ok.
  assert (∀ v vs, strValues r = v :: vs → (¬ set_based (operator r) → vs = []) →
    operator_token (tok (operator_item (operator r))) = Some (operator r) →
    req_items r = word_item (key r) :: operator_item (operator r) :: tail_items r →
    ∃ p', parseRequirement rngs p = POk (read_back r) p' ∧ at_items p' (next :: l)) as Hval.
  { intros v vs Hvs Hone Hop Hi. rewrite Hi in Hat. by apply (valued_printed r p next l v vs). }
  destruct (strValues r) as [|v vs] eqn:Ev.
  - assert (operator r = Exists_ ∨ operator r = DoesNotExist) as Hop by (destruct (operator r); auto; by vm_compute in Hcv).
    pose proof (read_back_made r HNew) as HB. rewrite Ev in HB. change (value_list []) with (@nil string) in HB.
    unfold parseRequirement, mbind at 1, pst_bind. unfold req_items in Hat. destruct Hop as [Hop|Hop]; rewrite Hop in *.
    + rewrite (key_printed _ _ _ _ Hk Hat), ends_req_context, (bool_decide_eq_true_2 ((_, _).1 = _ ∨ _)) by done.
      rewrite (bool_decide_eq_true_2 (Exists_ = _ ∨ _)) by auto. rewrite HB. eexists. split; [done|]. by apply at_advance in Hat.
    + rewrite (not_key_printed _ _ _ _ Hk Hat), bool_decide_eq_true_2 by auto. rewrite HB.
      eexists. split; [done|]. by apply at_advance, at_advance in Hat.
  - apply (Hval v vs); [done|..]; clear Hval; unfold req_items, tail_items, set_based; rewrite ?Ev.
    + destruct (operator r); cbn in Hcv; try done; try (case_bool_decide as Hl; [done|]; destruct vs; [done|cbn in Hl; lia]); naive_solver.
    + by destruct (operator r); cbn in Hcv.
    + destruct (operator r); cbn in Hcv; try done; case_decide; naive_solver.
Qed.

Lemma req_items_head r : made r → ∃ i l, req_items r = i :: l ∧
  ((in_context InValues i).1 = IdentifierToken ∨ (in_context InValues i).1 = DoesNotExistToken).
Proof.
  intros Hr. destruct (made_clean r Hr) as (Hk & _ & _). pose proof (word_in_context _ Hk) as Hw.
  unfold req_items. destruct (operator r); eexists _, _; (split; [done|]); rewrite ?Hw; auto.
Qed.

Lemma parse_loop_printed reqs : ∀ fuel acc p,
  Forall readable reqs → at_items p (sel_items reqs ++ [end_item]) → length reqs < fuel →
  ∃ p', parse_loop rngs fuel acc p = POk (acc ++ (read_back <$> reqs)) p'.
Proof.
  induction reqs as [|r reqs IH]; intros fuel acc p Hr Hat Hf; (destruct fuel as [|fuel]; [lia|]); cbn [parse_loop].
  { rewrite (bind_lookahead _ _ _ _ _ Hat). cbn. rewrite app_nil_r. by eexists. }
  apply Forall_cons in Hr as [Hr Hreqs].
  assert (∃ next l, at_items p (req_items r ++ next :: l) ∧
    ((next = end_item ∧ reqs = []) ∨ (next = comma_item ∧ reqs ≠ [] ∧ l = sel_items reqs ++ [end_item]))) as (next & l & Hat' & Hnext).
  { destruct reqs as [|r' reqs]; [by exists end_item, []; auto|]. eexists comma_item, _. split; [|by right].
    change (sel_items (r :: r' :: reqs)) with (req_items r ++ comma_item :: sel_items (r' :: reqs)) in Hat.
    by rewrite <-app_assoc in Hat. }
  assert (ends_req next) as Hn by (unfold ends_req; destruct Hnext as [[-> _]|[-> _]]; auto).
  destruct (parseRequirement_printed r p next l Hr Hn Hat') as (p1 & HP & Hp1).
  destruct (req_items_head r (proj1 Hr)) as (i & l' & Hi & Hti). rewrite Hi in Hat'. cbn [app] in Hat'.
  rewrite (bind_lookahead _ _ _ _ _ Hat'). destruct (in_context InValues i) as [t lit]. cbn [fst] in Hti.
  assert (∃ p', (r ← wrap (parseRequirement rngs); let requirements := acc ++ [r] in
    '(t, l) ← consume InValues;
    match t with
    | EndOfStringToken => mret requirements
    | CommaToken =>
      '(t2, l2) ← lookahead InValues;
      if bool_decide (t2 ≠ IdentifierToken ∧ t2 ≠ DoesNotExistToken)
      then perr (ExpectedIdentifierAfterComma l2)
      else parse_loop rngs fuel requirements
    | _ => perr (ExpectedCommaOrEnd l)
    end) p = POk (acc ++ (read_back <$> r :: reqs)) p') as Hmain; [|by destruct Hti as [-> | ->]].
  unfold mbind at 1, pst_bind, wrap. rewrite HP, (bind_consume _ _ _ _ _ Hp1), (ends_req_context _ Hn). apply at_advance in Hp1.
  destruct Hnext as [[-> ->]|(-> & Hne & ->)]; [by eexists|]. cbn [tok comma_item symbol_item].
  destruct reqs as [|r' reqs]; [done|]. apply Forall_cons in Hreqs as Hr'. destruct Hr' as [Hr' _].
  destruct (req_items_head r' (proj1 Hr')) as (j & m & Hj & Htj).
  assert (∃ m', sel_items (r' :: reqs) ++ [end_item] = j :: m') as [m' Hm'].
  { destruct reqs; [exists (m ++ [end_item]); cbn [sel_items]; by rewrite Hj|].
    eexists. cbn [sel_items]. rewrite Hj. cbn [app]. done. }
  pose proof Hp1 as Hp1'. rewrite Hm' in Hp1'. rewrite (bind_lookahead _ _ _ _ _ Hp1').
  destruct (in_context InValues j) as [t2 lit2]. cbn [fst] in Htj. rewrite bool_decide_eq_false_2 by naive_solver.
  destruct (IH fuel (acc ++ [read_back r]) _ Hreqs Hp1) as [p' ->]; [cbn in Hf |- *; lia|]. exists p'. by rewrite <-app_assoc.
Qed.

Context (srt : list Requirement → list Requirement) `{!key_sort srt}.

Lemma length_sel_items reqs : Forall readable reqs → length reqs ≤ length (sel_items reqs).
Proof.
  induction 1 as [|r reqs Hr _ IH]; [done|]. destruct (req_items_head r (proj1 Hr)) as (i & l & Hi & _).
  destruct reqs as [|r' reqs]; [cbn [sel_items]; rewrite Hi; cbn; lia|].
  change (sel_items (r :: r' :: reqs)) with (req_items r ++ comma_item :: sel_items (r' :: reqs)).
  rewrite Hi, length_app. cbn [length] in *. lia.
Qed.

Lemma Parse_printed reqs :
  Forall readable reqs → Parse rngs srt (sel_String (Internal reqs)) = Some (Ok (Internal (srt (read_back <$> reqs)))).
Proof.
  intros Hr. unfold Parse, parse. rewrite (scan_printed reqs) by (apply (Forall_impl _ _ _ Hr); by intros ? []). cbn [mbind option_bind].
  destruct (parse_loop_printed reqs (S (length (sel_items reqs ++ [end_item]))) []
    {| scannedItems := sel_items reqs ++ [end_item]; position := 0 |} Hr) as [p' ->]; [done| |done].
  pose proof (length_sel_items reqs Hr). rewrite length_app. lia.
Qed.

(** [C9] A selector whose requirements can be made is parsed back from its printed form,
    with its requirements in the order of their keys and without repeated values, so that
    it matches the same labels; requirements of distinct values are given back as they
    are.  The exception is a requirement of an odd number of empty values, three or more,
    and no other value, which [parse_refuses_empties] shows to be refused.  Printing and
    parsing again what was parsed gives a selector with the same requirements. *)
Theorem selector_print_parse reqs selector sel :
  (Forall (λ r, made r ∧ ∀ n, strValues r ≠ replicate (2 * n + 3) "") reqs →
   Parse rngs srt (sel_String (Internal reqs)) = Some (Ok (Internal (srt (read_back <$> reqs)))) ∧
   (∀ r ls, r ∈ reqs → req_Matches (read_back r) ls = req_Matches r ls) ∧
   (∀ r, r ∈ reqs → NoDup (strValues r) → read_back r = r)) ∧
  (Parse rngs srt selector = Some (Ok sel) →
   ∃ rs, sel = Internal rs ∧ Parse rngs srt (sel_String sel) = Some (Ok (Internal (srt rs))) ∧ srt rs ≡ₚ rs).
Proof.
  split.
  - intros Hr. split_and!; [by apply Parse_printed|..]; rewrite Forall_forall in Hr.
    + intros r ls [Hm _]%Hr. by apply read_back_Matches.
    + intros r [Hm _]%Hr Hd. by apply read_back_distinct.
  - intros HP. destruct (Parse_spec rngs srt selector) as (items & e & _ & _ & _ & HS).
    rewrite HP in HS. destruct HS as (rs & Hrs%selector_syntax_wf & ->).
    assert (Forall wf_req (srt rs)) as Hrs' by by rewrite key_sort_perm.
    exists (srt rs). split_and!; [done| |apply key_sort_perm].
    rewrite Parse_printed by (apply (Forall_impl _ _ _ Hrs'), wf_req_readable). do 4 f_equal.
    rewrite <-(list_fmap_id (srt rs)) at 2. apply list_fmap_ext. intros i r Hi.
    apply read_back_distinct. rewrite Forall_forall in Hrs'. by eapply Hrs', list_elem_of_lookup_2.
Qed.
End printed.

Lemma selector_print_parse_witness :
  Parse elements (merge_sort key_le)
    (sel_String (Internal [ {| key := "in"; operator := NotIn; strValues := [""; ""; "in"; "in"] |};
                            {| key := "gen"; operator := LessThan; strValues := ["7"] |} ])) =
  Some (Ok (Internal (merge_sort key_le [ {| key := "in"; operator := NotIn; strValues := [""; "in"] |};
                            {| key := "gen"; operator := LessThan; strValues := ["7"] |} ]))).
Proof.
  destruct (selector_print_parse elements (merge_sort key_le)
    [ {| key := "in"; operator := NotIn; strValues := [""; ""; "in"; "in"] |};
      {| key := "gen"; operator := LessThan; strValues := ["7"] |} ] "" Nothing) as [[HP _] _].
  - repeat constructor; try (vm_compute; reflexivity); intros n;
      replace (2 * n + 3) with (S (S (S (2 * n)))) by lia; discriminate.
  - rewrite HP. vm_compute. reflexivity.
Defined.

(** Requirements can be made of repeated values, and three empty values are printed to
    what the parser refuses. *)
Example parse_refuses_empties :
  NewRequirement "x" In_ [""; ""; ""] = Ok {| key := "x"; operator := In_; strValues := [""; ""; ""] |} ∧
  sel_String (Internal [ {| key := "x"; operator := In_; strValues := [""; ""; ""] |} ]) = "x in (,,)" ∧
  Parse elements (merge_sort key_le) "x in (,,)" = Some (Err (UnableToParse (ExpectedCommaOrIdentifier ")"))).
Proof. vm_compute. done. Qed.

(** ** Where the parser and its documentation differ *)

(** The documented grammar has empty values, but an even number of commas at the end of a
    list of values is refused. *)
Example parse_refuses_empty_values :
  (∃ items e rs, scan "x in (a,,)" = Some (items ++ [e]) ∧ tok e = EndOfStringToken ∧ selector_syntax items rs) ∧
  Parse elements (merge_sort key_le) "x in (a,,)" = Some (Err (UnableToParse (ExpectedCommaOrIdentifier ")"))) ∧
  Parse elements (merge_sort key_le) "x in (a,,,)" =
    Some (Ok (Internal [ {| key := "x"; operator := In_; strValues := [""; "a"] |} ])).
Proof.
  split_and!; [|vm_compute; reflexivity..].
  exists [word_item "x"; word_item "in"; open_item; word_item "a"; comma_item; comma_item; close_item], end_item,
    [ {| key := "x"; operator := In_; strValues := [""; "a"] |} ].
  split; [vm_compute; reflexivity|]. split; [done|]. constructor.
  apply (syn_set _ _ In_ _ [word_item "a"; comma_item; comma_item] ["a"; ""; ""]); try done; [by left|].
  apply (values_more [word_item "a"] "a"); [by constructor|done|].
  apply (values_more [] ""); [constructor|done|]. repeat constructor.
Qed.

(** A NUL byte after white space ends the selector: what follows is not even looked at. *)
Example parse_stops_at_nul :
  Parse elements (merge_sort key_le) ("x " +:+ text ["000"%char] +:+ "=1,y!=2") =
  Some (Ok (Internal [ {| key := "x"; operator := Exists_; strValues := [] |} ])).
Proof. vm_compute. reflexivity. Qed.
