(* ===== verification/Listers.v ===== *)
(** * Listers (k8s.io/client-go/tools/cache/listers.go, index.go, and [Accessor] of
    k8s.io/apimachinery/pkg/api/meta/meta.go)

    How a client reads its cache: all objects, or those of one namespace, that a label
    selector matches.  The objects of one namespace come from the index when there is one. *)

From S2P Require Import Prelude StringSets ThreadSafeStore Store Validation Labels.

(** ** Objects and their metadata *)
Record ObjectMeta := { GetNamespace : string; GetName : string; GetLabels : gmap string string }.

(** What an object implements: [metav1.Object] itself, [metav1.ObjectMetaAccessor] with
    metadata that may be nil, or neither. *)
Inductive object_interface : Type :=
| IsObject (m : ObjectMeta)
| HasObjectMeta (m : option ObjectMeta)
| NoInterface.

Record Object := { interface : object_interface; isRuntimeObject : bool }.

Definition errNotObject : string := "object does not implement the Object interfaces".

Definition Accessor (obj : option Object) : res string ObjectMeta :=
  match obj with
  | Some o =>
    match interface o with
    | IsObject t => Ok t
    | HasObjectMeta (Some m) => Ok m
    | HasObjectMeta None => Err errNotObject
    | NoInterface => Err errNotObject
    end
  | None => Err errNotObject
  end.

Definition MetaNamespaceIndexFunc (obj : option Object) : res string (list string) :=
  match Accessor obj with
  | Err err => Err ("object has no meta: " +:+ err)
  | Ok meta => Ok [GetNamespace meta]
  end.

Definition NamespaceIndex : string := "namespace".
Definition NamespaceAll : string := "".

(** [&metav1.ObjectMeta{Namespace: namespace}] *)
Definition namespace_object (namespace : string) : option Object :=
  Some {| interface := IsObject {| GetNamespace := namespace; GetName := ""; GetLabels := ∅ |};
          isRuntimeObject := false |}.

(** ** Listing *)
Section listing.
Context {S R : Type} `{ThreadSafeStore_ops S Object}.
Context (appendFn : option Object → st R ()).

(** A loop over objects that appends those whose metadata it keeps. *)
Fixpoint append_kept (keep : ObjectMeta → bool) (l : list (option Object)) : st R (option string) :=
  match l with
  | [] => mret None
  | m :: l' =>
    match Accessor m with
    | Err err => mret (Some err)
    | Ok metadata =>
      (if keep metadata then appendFn m else mret ());;
      append_kept keep l'
    end
  end.

Definition ListAll (store : cache S Object) (selector : Selector) : st R (option string) :=
  append_kept (λ metadata, sel_Matches selector (GetLabels metadata)) (cache_List store).

Definition ListAllByNamespace (indexer : cache S Object) (namespace : string) (selector : Selector) :
    st R (option string) :=
  if bool_decide (namespace = NamespaceAll) then
    append_kept (λ metadata, sel_Matches selector (GetLabels metadata)) (cache_List indexer)
  else
    match cache_Index NamespaceIndex (namespace_object namespace) indexer with
    | Err _ =>
      append_kept (λ metadata, bool_decide (GetNamespace metadata = namespace) &&
                               sel_Matches selector (GetLabels metadata)) (cache_List indexer)
    | Ok items => append_kept (λ metadata, sel_Matches selector (GetLabels metadata)) items
    end.
End listing.

(** ** The generic listers *)
Record genericLister S := { indexer : cache S Object; resource : string }.
Arguments indexer {S} _.
Arguments resource {S} _.

Record genericNamespaceLister S := { nsIndexer : cache S Object; namespace : string; nsResource : string }.
Arguments nsIndexer {S} _.
Arguments namespace {S} _.
Arguments nsResource {S} _.

Inductive get_result : Type :=
| Found (o : Object)
| NotFound (resource name : string)
| GetPanics.

Section listers.
Context {S : Type} `{ThreadSafeStore_ops S Object}.

Definition NewGenericLister (ix : cache S Object) (res : string) : genericLister S :=
  {| indexer := ix; resource := res |}.

(** [ret = append(ret, m.(runtime.Object))] *)
Definition append_runtime (m : option Object) : st (list Object) () :=
  match m with
  | Some o => if isRuntimeObject o then st_modify (.++ [o]) else st_panic
  | None => st_panic
  end.

Definition get_runtime (res name : string) (r : option Object * bool) : get_result :=
  let '(obj, exists_) := r in
  if negb exists_ then NotFound res name
  else match obj with
       | Some o => if isRuntimeObject o then Found o else GetPanics
       | None => GetPanics
       end.

Definition lister_List (s : genericLister S) (selector : Selector) : outcome (list Object) (option string) :=
  ListAll append_runtime (indexer s) selector [].

Definition lister_ByNamespace (s : genericLister S) (ns : string) : genericNamespaceLister S :=
  {| nsIndexer := indexer s; namespace := ns; nsResource := resource s |}.

Definition lister_Get (s : genericLister S) (name : string) : get_result :=
  get_runtime (resource s) name (cache_GetByKey name (indexer s)).

Definition nslister_List (s : genericNamespaceLister S) (selector : Selector) : outcome (list Object) (option string) :=
  ListAllByNamespace append_runtime (nsIndexer s) (namespace s) selector [].

Definition nslister_Get (s : genericNamespaceLister S) (name : string) : get_result :=
  get_runtime (nsResource s) name (cache_GetByKey (namespace s +:+ "/" +:+ name) (nsIndexer s)).
End listers.

(** ** What is listed *)
#[local] Instance Ok_inj {E A} : Inj (=) (=) (@Ok E A).
Proof. by intros ?? [=]. Qed.

(** An object that the listers can return. *)
Definition listable (m : option Object) : Prop :=
  (∃ md, Accessor m = Ok md) ∧ ∃ o, m = Some o ∧ isRuntimeObject o = true.

Definition kept (keep : ObjectMeta → bool) (m : option Object) : bool :=
  match Accessor m with Ok md => keep md | Err _ => false end.

Lemma append_kept_runtime keep l acc :
  Forall listable l →
  ∃ ret, append_kept append_runtime keep l acc = Ret None (acc ++ ret) ∧
    Some <$> ret = filter (λ m, kept keep m = true) l.
Proof.
  intros Hl. revert acc. induction Hl as [|m l [[md Hmd] (o & -> & Ho)] _ IH]; intros acc.
  { exists []. by rewrite app_nil_r. }
  cbn [append_kept]. rewrite Hmd. unfold mbind, st_bind. rewrite filter_cons.
  assert (kept keep (Some o) = keep md) as Hkept by (unfold kept; by rewrite Hmd). destruct (keep md) eqn:Hk.
  - cbn [append_runtime]. rewrite Ho. cbn [st_modify]. destruct (IH (acc ++ [o])) as (ret & -> & Hret).
    exists (o :: ret). rewrite <-app_assoc. rewrite decide_True by done. cbn. by rewrite <-Hret.
  - destruct (IH acc) as (ret & Hr & Hret). unfold mret, st_ret. rewrite Hr. exists ret.
    by rewrite decide_False by (by rewrite Hkept).
Qed.

(** ** Listing the store *)
Section exact.
Context (rng : gmap string (option Object → res string (list string)) →
               list (string * (option Object → res string (list string)))) `{!range_order rng}.
Context (rngI : gmap string (option Object) → list (string * option Object)) `{!range_order rngI}.
Context (rngX : gmap string (gset string) → list (string * gset string)) `{!range_order rngX}.
Context (rngS : gset string → list string) `{!set_order rngS}.

#[local] Instance store_ops : ThreadSafeStore_ops (threadSafeMap Object) Object := threadSafeMap_ops rng rngI rngX rngS.

Notation stored c := ((map_to_list (items (cacheStorage c))).*2).

(** The objects that a caller asks for. *)
Definition selected (ns : string) (selector : Selector) (m : option Object) : Prop :=
  kept (λ md, (bool_decide (ns = NamespaceAll) || bool_decide (GetNamespace md = ns)) &&
              sel_Matches selector (GetLabels md)) m = true.

#[export] Instance selected_dec ns selector m : Decision (selected ns selector m).
Proof. unfold selected. apply _. Defined.

(** The indexed path: the objects that the index has under a namespace. *)
Lemma indexed_namespace (c : threadSafeMap Object) ns l :
  index_inv c → indexers c !! NamespaceIndex = Some MetaNamespaceIndexFunc →
  Index rngS NamespaceIndex (namespace_object ns) c = Ok l →
  l ≡ₚ filter (λ m, kept (λ md, bool_decide (GetNamespace md = ns)) m = true) (map_to_list (items c)).*2.
Proof.
  intros [Hnn _ Hi] Hf. unfold Index. rewrite Hf. change (MetaNamespaceIndexFunc (namespace_object ns)) with (Ok (E := string) [ns]).
  lazy beta iota zeta. intros <-%(inj Ok). set (P := λ kv : string * option Object, kept (λ md, bool_decide (GetNamespace md = ns)) kv.2 = true).
  assert (filter (λ m, kept (λ md, bool_decide (GetNamespace md = ns)) m = true) (map_to_list (items c)).*2 =
    (filter P (map_to_list (items c))).*2) as ->.
  { generalize (map_to_list (items c)). intros l. induction l as [|[k m] l IH]; [done|].
    rewrite fmap_cons, !filter_cons. unfold P at 1. cbn [snd]. case_decide; cbn; by rewrite IH. }
  rewrite <-(map_to_list_filter P). set (m := filter P (items c)).
  assert ((map_to_list m).*2 = item_at c <$> (map_to_list m).*1) as ->.
  { rewrite <-list_fmap_compose. apply list_fmap_ext. intros i [k o] Hko. cbn. unfold item_at.
    apply list_elem_of_lookup_2, elem_of_map_to_list, map_lookup_filter_Some in Hko as [-> _]. done. }
  apply fmap_Permutation, NoDup_Permutation; [apply (set_range_NoDup rngS)|apply NoDup_fst_map_to_list|].
  intros k. rewrite (set_range_elem rngS), (elem_of_union_loop rngS).
  assert (∀ v, k ∈ default ∅ (default ∅ (indices c !! NamespaceIndex) !! v) ↔ k ∈ keys_at c NamespaceIndex v) as Hk by done.
  setoid_rewrite Hk. setoid_rewrite (λ v, Hi NamespaceIndex MetaNamespaceIndexFunc v k Hf).
  rewrite list_elem_of_fmap. split.
  - intros [?|(v & ->%list_elem_of_singleton & obj & vs & Ho & Hvs & Hin)]; [set_solver|].
    exists (k, Some obj). split; [done|]. apply elem_of_map_to_list, map_lookup_filter_Some. split; [done|].
    unfold P, kept, MetaNamespaceIndexFunc in *. cbn [snd]. destruct (Accessor (Some obj)) as [md|]; [|done].
    injection Hvs as <-. apply list_elem_of_singleton in Hin. by apply bool_decide_eq_true.
  - intros ([k' o] & -> & [Ho HP]%elem_of_map_to_list%map_lookup_filter_Some). right. exists ns.
    split; [set_solver|]. destruct (Hnn _ _ Ho) as [obj ->]. exists obj, [ns]. split; [done|].
    unfold P, kept, MetaNamespaceIndexFunc in *. cbn [snd] in HP. destruct (Accessor (Some obj)) as [md|]; [|done].
    apply bool_decide_eq_true in HP as ->. split; [done|set_solver].
Qed.

Lemma filter_kept_filter keep1 keep2 (l : list (option Object)) :
  filter (λ m, kept keep2 m = true) (filter (λ m, kept keep1 m = true) l) =
  filter (λ m, kept (λ md, keep1 md && keep2 md) m = true) l.
Proof.
  rewrite list_filter_filter. apply list_filter_iff. intros m. unfold kept.
  destruct (Accessor m); [|naive_solver]. rewrite andb_true_iff. tauto.
Qed.

Lemma selected_namespace ns selector (l : list (option Object)) :
  ns ≠ NamespaceAll →
  filter (selected ns selector) l =
  filter (λ m, kept (λ md, bool_decide (GetNamespace md = ns) && sel_Matches selector (GetLabels md)) m = true) l.
Proof.
  intros Hns. apply list_filter_iff. intros m. unfold selected, kept. destruct (Accessor m); [|done].
  by rewrite bool_decide_eq_false_2.
Qed.

Lemma filter_kept_all l : Forall listable l → filter (λ m, kept (λ _, true) m = true) l = l.
Proof.
  induction 1 as [|m l [[md Hmd] _] _ IH]; [done|].
  rewrite filter_cons, decide_True by (unfold kept; by rewrite Hmd). by f_equal.
Qed.

Lemma filter_kept_ext keep1 keep2 (l : list (option Object)) :
  (∀ md, keep1 md = keep2 md) → filter (λ m, kept keep1 m = true) l = filter (λ m, kept keep2 m = true) l.
Proof. intros Hk. apply list_filter_iff. intros m. unfold kept. destruct (Accessor m); by rewrite ?Hk. Qed.

(** A loop over a part of the store appends the objects it keeps of that part. *)
Lemma append_part (c : cache (threadSafeMap Object) Object) keep keep2 l :
  map_Forall (λ _ m, listable m) (items (cacheStorage c)) → l ≡ₚ filter (λ m, kept keep m = true) (stored c) →
  ∃ ret, append_kept append_runtime keep2 l [] = Ret None ret ∧
    Some <$> ret ≡ₚ filter (λ m, kept (λ md, keep md && keep2 md) m = true) (stored c).
Proof.
  intros Hall Hp. destruct (append_kept_runtime keep2 l []) as (ret & Hr & Hret).
  - rewrite Hp. apply Forall_forall. intros m [_ [[k m'] [-> Hm]]%list_elem_of_fmap]%list_elem_of_filter.
    apply elem_of_map_to_list in Hm. by apply (Hall k).
  - exists ret. split; [done|]. by rewrite Hret, Hp, filter_kept_filter.
Qed.

Lemma stored_kept (c : cache (threadSafeMap Object) Object) :
  map_Forall (λ _ m, listable m) (items (cacheStorage c)) →
  cache_List c ≡ₚ filter (λ m, kept (λ _, true) m = true) (stored c).
Proof.
  intros Hall. rewrite filter_kept_all.
  - unfold cache_List. cbn. unfold ThreadSafeStore.List. by rewrite (range_perm (rng := rngI) _).
  - apply Forall_forall. intros m [[k m'] [-> Hm]]%list_elem_of_fmap.
    apply elem_of_map_to_list in Hm. by apply (Hall k).
Qed.

(** [C19] The listers of a store reached by any calls return every stored object of the
    namespace that the selector matches, each once, and nothing else, whether the
    namespace is all of them, the index has the namespace's objects, or there is no such
    index and the store is searched. *)
Theorem listers_exact (c : cache (threadSafeMap Object) Object) ixs ops ns res selector :
  reachable ixs ops (cacheStorage c) → map_Forall (λ _ m, listable m) (items (cacheStorage c)) →
  (indexers (cacheStorage c) !! NamespaceIndex = None ∨
   indexers (cacheStorage c) !! NamespaceIndex = Some MetaNamespaceIndexFunc) →
  ∃ ret all,
    nslister_List (lister_ByNamespace (NewGenericLister c res) ns) selector = Ret None ret ∧
    Some <$> ret ≡ₚ filter (selected ns selector) (stored c) ∧
    lister_List (NewGenericLister c res) selector = Ret None all ∧
    Some <$> all ≡ₚ filter (selected NamespaceAll selector) (stored c).
Proof.
  intros Hinv%reachable_inv Hl Hix.
  destruct (append_part c _ (λ md, sel_Matches selector (GetLabels md)) _ Hl (stored_kept c Hl)) as (all & Ha & Hpa).
  enough (∃ ret, nslister_List (lister_ByNamespace (NewGenericLister c res) ns) selector = Ret None ret ∧
    Some <$> ret ≡ₚ filter (selected ns selector) (stored c)) as (ret & Hr & Hpr) by (by exists ret, all).
  unfold nslister_List, ListAllByNamespace. cbn [nsIndexer namespace lister_ByNamespace NewGenericLister indexer].
  destruct (decide (ns = NamespaceAll)) as [->|Hns]; [by exists all|].
  rewrite bool_decide_eq_false_2 by done. rewrite (selected_namespace ns) by done.
  destruct (cache_Index NamespaceIndex (namespace_object ns) c) as [l|err] eqn:Ei.
  - destruct Hix as [Hix|Hix]; [unfold cache_Index in Ei; cbn in Ei; unfold Index in Ei; by rewrite Hix in Ei|].
    apply (append_part c (λ md, bool_decide (GetNamespace md = ns))); [done|]. by apply indexed_namespace.
  - apply (append_part c (λ _, true)); [done|by apply stored_kept].
Qed.
End exact.

(** ** A store of three objects, indexed by namespace *)
Definition ex_object (ns name : string) (labels : gmap string string) : Object :=
  {| interface := HasObjectMeta (Some {| GetNamespace := ns; GetName := name; GetLabels := labels |}); isRuntimeObject := true |}.

Definition ex_listed : gmap string Object :=
  {["istio-system/pilot" := ex_object "istio-system" "pilot" {["app" := "pilot"]};
    "istio-system/mixer" := ex_object "istio-system" "mixer" {["app" := "mixer"]};
    "node1" := ex_object "" "node1" ∅]}.

Definition ex_indexed (ixs : gmap string (option Object → res string (list string))) : cache (threadSafeMap Object) Object :=
  {| cacheStorage := final (Replace map_to_list map_to_list (Some <$> ex_listed) (NewThreadSafeStore ixs ∅));
     keyFunc := λ _, Err "" |}.

Definition ex_namespace_indexers : gmap string (option Object → res string (list string)) := {[NamespaceIndex := MetaNamespaceIndexFunc]}.

#[local] Instance ex_ops : ThreadSafeStore_ops (threadSafeMap Object) Object := threadSafeMap_ops map_to_list map_to_list map_to_list elements.

Lemma ex_listed_listable : map_Forall (λ _ o, listable (Some o)) ex_listed.
Proof.
  assert (∀ ns name labels, listable (Some (ex_object ns name labels))) as Hex.
  { intros. split; eexists; [reflexivity|]. split; reflexivity. }
  unfold ex_listed. apply map_Forall_insert_2; [apply Hex|]. apply map_Forall_insert_2; [apply Hex|].
  apply map_Forall_singleton, Hex.
Qed.

Lemma listers_exact_witness :
  ∃ ret all,
    nslister_List (lister_ByNamespace (NewGenericLister (ex_indexed ex_namespace_indexers) "pods") "istio-system") Everything = Ret None ret ∧
    Some <$> ret ≡ₚ filter (selected "istio-system" Everything) (map_to_list (items (cacheStorage (ex_indexed ex_namespace_indexers)))).*2 ∧
    lister_List (NewGenericLister (ex_indexed ex_namespace_indexers) "pods") Everything = Ret None all ∧
    Some <$> all ≡ₚ filter (selected NamespaceAll Everything) (map_to_list (items (cacheStorage (ex_indexed ex_namespace_indexers)))).*2.
Proof.
  apply (listers_exact map_to_list map_to_list map_to_list elements (ex_indexed ex_namespace_indexers) ex_namespace_indexers [OpReplace ex_listed]).
  - apply (reach_step _ [] _ _ _ (reach_new _)). apply (step_replace _ map_to_list map_to_list). reflexivity.
  - intros k m Hk. change (items (cacheStorage (ex_indexed ex_namespace_indexers))) with (Some <$> ex_listed) in Hk.
    rewrite lookup_fmap in Hk. apply fmap_Some in Hk as (o & Ho & ->). exact (ex_listed_listable k o Ho).
  - right. reflexivity.
Defined.

(** Objects without a namespace are listed in the empty namespace, but not found there by
    name: [Get] looks for a key that starts with a slash. *)
Example cluster_scoped_Get :
  let lister := lister_ByNamespace (NewGenericLister (ex_indexed ex_namespace_indexers) "nodes") "" in
  nslister_Get lister "node1" = NotFound "nodes" "node1" ∧
  lister_Get (NewGenericLister (ex_indexed ex_namespace_indexers) "nodes") "node1" = Found (ex_object "" "node1" ∅).
Proof. by vm_compute. Qed.
