(* ===== verification/SortedLists.v ===== *)
(** * Sorted lists of items

    Lists of items in the order of a [Less] method, what inserting an item into one and
    deleting one from it is, and how both act on a part of the list.  The abstract
    specification of the trees of GoLLRB and of the B-trees. *)

From S2P Require Import Prelude.

(** What the trees ask of the [Less] method of their items. *)
Class strict_weak_order {A} (lt : A → A → bool) : Prop := {
  lt_irrefl x : lt x x = false;
  lt_trans x y z : lt x y = true → lt y z = true → lt x z = true;
  lt_weak x y z : lt x z = true → lt x y = true ∨ lt y z = true;
}.

Section definitions.
Context {A : Type} (lt : A → A → bool).
Implicit Types (k x y : A) (L : list A).

Definition ordered L : Prop := StronglySorted (λ x y, lt y x = false) L.
Definition strict L : Prop := StronglySorted (λ x y, lt x y = true) L.

Definition below k L : list A := filter (λ x, lt x k = true) L.
Definition above k L : list A := filter (λ x, lt k x = true) L.
Definition equal k L : list A := filter (λ x, lt x k = false ∧ lt k x = false) L.
Definition upto k L : list A := filter (λ x, lt k x = false) L.

(** The list after an item was put in place of those equal to it, after those equal to it,
    and the list without those equal to it. *)
Definition inserted k L : list A := below k L ++ k :: above k L.
Definition inserted_after k L : list A := upto k L ++ k :: above k L.
Definition removed k L : list A := below k L ++ above k L.
End definitions.

Section lists.
Context {A : Type} {lt : A → A → bool} `{!strict_weak_order lt}.
Implicit Types (k x y : A) (L : list A).

Local Notation ordered := (ordered lt).
Local Notation strict := (strict lt).
Local Notation below := (below lt).
Local Notation above := (above lt).
Local Notation equal := (equal lt).
Local Notation upto := (upto lt).
Local Notation inserted := (inserted lt).
Local Notation inserted_after := (inserted_after lt).
Local Notation removed := (removed lt).

Lemma lt_asym x y : lt x y = true → lt y x = false.
Proof.
  intros Hxy. destruct (lt y x) eqn:Hyx; [|done]. by rewrite <-(lt_irrefl (lt := lt) x), (lt_trans x y x Hxy Hyx).
Qed.

Lemma lt_le x y z : lt x y = true → lt z y = false → lt x z = true.
Proof. intros Hxy Hzy. destruct (lt_weak x z y Hxy); [done|congruence]. Qed.

Lemma le_lt x y z : lt y x = false → lt y z = true → lt x z = true.
Proof. intros Hyx Hyz. destruct (lt_weak y x z Hyz); [congruence|done]. Qed.

Lemma le_le x y z : lt y x = false → lt z y = false → lt z x = false.
Proof. intros Hyx Hzy. destruct (lt z x) eqn:E; [|done]. destruct (lt_weak z y x E); congruence. Qed.

Lemma strict_ordered L : strict L → ordered L.
Proof. apply StronglySorted_impl_elem. intros x y _ _. apply lt_asym. Qed.

(** Around an item of an ordered list. *)
Lemma sorted_around (R : relation A) L1 x L2 :
  StronglySorted R (L1 ++ x :: L2) →
  StronglySorted R L1 ∧ StronglySorted R L2 ∧ Forall (λ y, R y x) L1 ∧ Forall (R x) L2.
Proof.
  intros (H12 & H1 & H2)%StronglySorted_app. apply StronglySorted_inv in H2 as [H2 Hx]. split_and!; [done..| |done].
  apply Forall_forall. intros y Hy. apply H12; [done|]. by left.
Qed.

Lemma filter_all (P : A → Prop) `{∀ x, Decision (P x)} L : Forall P L → filter P L = L.
Proof. induction 1 as [|x L Hx _ IH]; [done|]. rewrite filter_cons, decide_True by done. by rewrite IH. Qed.

Lemma filter_none (P : A → Prop) `{∀ x, Decision (P x)} L : Forall (λ x, ¬ P x) L → filter P L = [].
Proof. induction 1 as [|x L Hx _ IH]; [done|]. by rewrite filter_cons, decide_False. Qed.

Lemma filter_above_all k L : Forall (λ y, lt k y = true) L → below k L = [] ∧ above k L = L ∧ equal k L = [] ∧ upto k L = [].
Proof.
  intros HL. split_and!; [apply filter_none|by apply filter_all|apply filter_none|apply filter_none];
    apply (Forall_impl _ _ _ HL); intros y Hy; [by rewrite (lt_asym k y)|by intros [_ ?]; congruence|congruence].
Qed.

Lemma filter_below_all k L : Forall (λ y, lt y k = true) L → below k L = L ∧ above k L = [] ∧ equal k L = [] ∧ upto k L = L.
Proof.
  intros HL. split_and!; [by apply filter_all|apply filter_none|apply filter_none|apply filter_all];
    apply (Forall_impl _ _ _ HL); intros y Hy; rewrite ?(lt_asym y k) by done; [done|by intros [? _]; congruence|done].
Qed.

Lemma parts_app k L1 L2 :
  below k (L1 ++ L2) = below k L1 ++ below k L2 ∧ above k (L1 ++ L2) = above k L1 ++ above k L2 ∧
  equal k (L1 ++ L2) = equal k L1 ++ equal k L2 ∧ upto k (L1 ++ L2) = upto k L1 ++ upto k L2.
Proof. unfold below, above, equal, upto. rewrite !filter_app. done. Qed.

(** The parts of a list around an item that the key is below, above or equal to. *)
Lemma around_less k x L1 L2 :
  ordered (L1 ++ x :: L2) → lt k x = true →
  below k (L1 ++ x :: L2) = below k L1 ∧ above k (L1 ++ x :: L2) = above k L1 ++ x :: L2 ∧
  equal k (L1 ++ x :: L2) = equal k L1 ∧ upto k (L1 ++ x :: L2) = upto k L1.
Proof.
  intros (_ & _ & _ & H2)%sorted_around Hk.
  assert (Forall (λ y, lt k y = true) (x :: L2)) as (Hb & Ha & He & Hu)%filter_above_all.
  { constructor; [done|]. apply (Forall_impl _ _ _ H2). intros y Hy. by apply (lt_le k x y). }
  destruct (parts_app k L1 (x :: L2)) as (-> & -> & -> & ->). rewrite Hb, Ha, He, Hu. by rewrite !app_nil_r.
Qed.

Lemma around_greater k x L1 L2 :
  ordered (L1 ++ x :: L2) → lt x k = true →
  below k (L1 ++ x :: L2) = L1 ++ x :: below k L2 ∧ above k (L1 ++ x :: L2) = above k L2 ∧
  equal k (L1 ++ x :: L2) = equal k L2.
Proof.
  intros (_ & _ & H1 & _)%sorted_around Hk.
  assert (Forall (λ y, lt y k = true) (L1 ++ [x])) as (Hb & Ha & He & _)%filter_below_all.
  { apply Forall_app. split; [|by repeat constructor]. apply (Forall_impl _ _ _ H1). intros y Hy. by apply (le_lt y x k). }
  replace (L1 ++ x :: L2) with ((L1 ++ [x]) ++ L2) by by rewrite <-app_assoc.
  destruct (parts_app k (L1 ++ [x]) L2) as (-> & -> & -> & _). rewrite Hb, Ha, He. by rewrite <-app_assoc.
Qed.

Lemma around_not_less k x L1 L2 :
  ordered (L1 ++ x :: L2) → lt k x = false →
  upto k (L1 ++ x :: L2) = L1 ++ x :: upto k L2 ∧ above k (L1 ++ x :: L2) = above k L2.
Proof.
  intros (_ & _ & H1 & _)%sorted_around Hk.
  assert (Forall (λ y, lt k y = false) (L1 ++ [x])) as HL.
  { apply Forall_app. split; [|by repeat constructor]. apply (Forall_impl _ _ _ H1). intros y Hy. by apply (le_le y x k). }
  replace (L1 ++ x :: L2) with ((L1 ++ [x]) ++ L2) by by rewrite <-app_assoc.
  destruct (parts_app k (L1 ++ [x]) L2) as (_ & -> & _ & ->).
  assert (upto k (L1 ++ [x]) = L1 ++ [x]) as -> by by apply filter_all.
  assert (above k (L1 ++ [x]) = []) as ->.
  { apply filter_none. apply (Forall_impl _ _ _ HL). intros y ->. done. }
  by rewrite <-app_assoc.
Qed.

Lemma around_equal k x L1 L2 :
  strict (L1 ++ x :: L2) → lt k x = false → lt x k = false →
  below k (L1 ++ x :: L2) = L1 ∧ above k (L1 ++ x :: L2) = L2 ∧ equal k (L1 ++ x :: L2) = [x].
Proof.
  intros (_ & _ & H1 & H2)%sorted_around Hk Hk'.
  assert (Forall (λ y, lt y k = true) L1) as (Hb1 & Ha1 & He1 & _)%filter_below_all.
  { apply (Forall_impl _ _ _ H1). intros y Hy. by apply (lt_le y x k). }
  assert (Forall (λ y, lt k y = true) L2) as (Hb2 & Ha2 & He2 & _)%filter_above_all.
  { apply (Forall_impl _ _ _ H2). intros y Hy. by apply (le_lt k x y). }
  change (x :: L2) with ([x] ++ L2). destruct (parts_app k L1 ([x] ++ L2)) as (-> & -> & -> & _). destruct (parts_app k [x] L2) as (-> & -> & -> & _).
  rewrite Hb1, Ha1, He1, Hb2, Ha2, He2. unfold below, above, equal. rewrite !filter_cons, !filter_nil.
  rewrite !decide_False, decide_True by (done || congruence). by rewrite !app_nil_r.
Qed.

Lemma parts_length k L : length L = length (below k L) + length (equal k L) + length (above k L).
Proof.
  unfold below, equal, above. induction L as [|x L IH]; [done|]. rewrite !filter_cons. cbn [length]. rewrite IH.
  destruct (lt x k) eqn:E1, (lt k x) eqn:E2; rewrite ?E1, ?E2.
  - by rewrite (lt_asym x k E1) in E2.
  - rewrite decide_True, !decide_False by (done || naive_solver). cbn. lia.
  - rewrite decide_False, decide_False, decide_True by (done || naive_solver). cbn. lia.
  - rewrite decide_False, decide_True, decide_False by (done || naive_solver). cbn. lia.
Qed.

Lemma equal_length k L : strict L → length (equal k L) = if bool_decide (is_Some (head (equal k L))) then 1 else 0.
Proof.
  intros Hs. destruct (equal k L) as [|x E] eqn:HE; [done|]. rewrite bool_decide_eq_true_2 by (cbn; eauto).
  destruct E as [|y E]; [done|]. exfalso.
  assert (StronglySorted (λ x y, lt x y = true) (equal k L)) as Hsub.
  { clear HE. unfold equal. induction Hs as [|z L Hs IH Hz]; [constructor|]. rewrite filter_cons. case_decide; [|done].
    constructor; [done|]. rewrite Forall_forall in *. intros w [_ ?]%list_elem_of_filter. auto. }
  rewrite HE in Hsub. apply StronglySorted_inv in Hsub as [_ [Hxy _]%Forall_cons].
  assert (∀ z, z ∈ equal k L → lt z k = false ∧ lt k z = false) as Heq by (intros z Hz; unfold equal in Hz; by apply list_elem_of_filter in Hz as [? _]).
  destruct (Heq x) as [H1 H2]; [rewrite HE; set_solver|]. destruct (Heq y) as [H3 H4]; [rewrite HE; set_solver|].
  destruct (lt_weak x k y Hxy); congruence.
Qed.

(** ** The list operations keep the order *)
Lemma sorted_filter (R : relation A) (P : A → Prop) `{∀ x, Decision (P x)} L :
  StronglySorted R L → StronglySorted R (filter P L).
Proof.
  induction 1 as [|x L _ IH Hx]; [constructor|]. rewrite filter_cons. case_decide; [|done]. constructor; [done|].
  rewrite Forall_forall in *. intros y [_ ?]%list_elem_of_filter. auto.
Qed.

Lemma sorted_join (R : relation A) L1 x L2 :
  StronglySorted R L1 → StronglySorted R L2 → (∀ y, y ∈ L1 → R y x) → (∀ y, y ∈ L2 → R x y) →
  (∀ y z, y ∈ L1 → z ∈ L2 → R y z) → StronglySorted R (L1 ++ x :: L2).
Proof.
  intros H1 H2 Hx1 Hx2 H12. apply StronglySorted_app. split_and!; [|done|constructor; [done|by apply Forall_forall]].
  intros y z Hy [->|Hz]%elem_of_cons; auto.
Qed.

Lemma strict_inserted k L : strict L → strict (inserted k L).
Proof.
  intros Hs. unfold inserted, below, above. apply sorted_join; [by apply sorted_filter..| | |].
  - by intros y [? _]%list_elem_of_filter.
  - by intros y [? _]%list_elem_of_filter.
  - intros y z [Hy _]%list_elem_of_filter [Hz _]%list_elem_of_filter. by apply (lt_trans y k z).
Qed.

Lemma strict_removed k L : strict L → strict (removed k L).
Proof.
  intros Hs. unfold removed, below, above. apply StronglySorted_app. split_and!; [|by apply sorted_filter..].
  intros y z [Hy _]%list_elem_of_filter [Hz _]%list_elem_of_filter. by apply (lt_trans y k z).
Qed.

Lemma ordered_inserted_after k L : ordered L → ordered (inserted_after k L).
Proof.
  intros Hs. unfold inserted_after, upto, above. apply sorted_join; [by apply sorted_filter..| | |].
  - by intros y [? _]%list_elem_of_filter.
  - intros y [Hy _]%list_elem_of_filter. by apply lt_asym.
  - intros y z [Hy _]%list_elem_of_filter [Hz _]%list_elem_of_filter. apply lt_asym. by apply (le_lt y k z).
Qed.

Lemma sorted_tail (R : relation A) L : StronglySorted R L → StronglySorted R (tail L).
Proof. destruct 1; [constructor|done]. Qed.

Lemma sorted_removelast (R : relation A) L : StronglySorted R L → StronglySorted R (removelast L).
Proof.
  destruct L as [|x L _] using rev_ind; [done|]. rewrite removelast_last. by intros (_ & ? & _)%StronglySorted_app.
Qed.

End lists.

(** Integers in their order. *)
Definition int_lt (x y : Z) : bool := bool_decide (x < y)%Z.

#[export] Instance int_lt_order : strict_weak_order int_lt.
Proof.
  unfold int_lt. split; intros *.
  - apply bool_decide_eq_false. lia.
  - rewrite !bool_decide_eq_true. lia.
  - rewrite !bool_decide_eq_true. lia.
Qed.
