(* ===== verification/Llrb.v ===== *)
(** * Left-leaning red-black trees (github.com/petar/GoLLRB/llrb: llrb.go, iterator.go)

    Every node is reached by one pointer, so a tree of nodes is a value; updating a node in
    place is building it anew.  A nil dereference, a type assertion that fails in an item's
    [Less] and the [panic] calls are [None].  [deleteMin], [deleteMax] and [delete] recur
    into a child after the node was rotated, and carry fuel; it is not exhausted, since the
    child is smaller than the tree. *)

From S2P Require Import Prelude.

(** ** Items *)
Inductive Item (A : Type) : Type :=
| NInf
| PInf
| El (x : A).
Arguments NInf {A}.
Arguments PInf {A}.
Arguments El {A} _.

#[export] Instance Item_eq_dec {A} `{EqDecision A} : EqDecision (Item A).
Proof. solve_decision. Defined.

#[export] Instance El_inj {A} : Inj (=) (=) (@El A).
Proof. by intros ?? [=]. Qed.

Section llrb.
Context {A : Type}.

(** [x.Less(than)] of the items that are not infinite. *)
Context (Less : A → Item A → option bool).

Definition less (x y : Item A) : option bool :=
  match x with
  | PInf => Some false
  | NInf => Some true
  | El a => Less a y
  end.

Definition Inf (sign : Z) : option (Item A) :=
  if bool_decide (sign = 0)%Z then None else if bool_decide (0 < sign)%Z then Some PInf else Some NInf.

(** ** Nodes *)
Inductive Node : Type :=
| Nil
| Node_ (Left : Node) (item : Item A) (Right : Node) (Black : bool).

Record LLRB := { count : Z; root : Node }.

Definition New : LLRB := {| count := 0; root := Nil |}.
Definition SetRoot (r : Node) (t : LLRB) : LLRB := {| count := count t; root := r |}.
Definition Root (t : LLRB) : Node := root t.
Definition Len (t : LLRB) : Z := count t.

Definition newNode (item : Item A) : Node := Node_ Nil item Nil false.

Definition isRed (h : Node) : bool :=
  match h with Nil => false | Node_ _ _ _ black => negb black end.

Definition blacken (h : Node) : Node :=
  match h with Nil => Nil | Node_ l x r _ => Node_ l x r true end.

Definition rotateLeft (h : Node) : option Node :=
  match h with
  | Node_ l x (Node_ rl y rr black') black =>
    if black' then None else Some (Node_ (Node_ l x rl false) y rr black)
  | _ => None
  end.

Definition rotateRight (h : Node) : option Node :=
  match h with
  | Node_ (Node_ ll y lr black') x r black =>
    if black' then None else Some (Node_ ll y (Node_ lr x r false) black)
  | _ => None
  end.

Definition flip (h : Node) : option Node :=
  match h with
  | Node_ (Node_ ll x lr bl) y (Node_ rl z rr br) b =>
    Some (Node_ (Node_ ll x lr (negb bl)) y (Node_ rl z rr (negb br)) (negb b))
  | _ => None
  end.

Definition leftOf (h : Node) : option Node := match h with Node_ l _ _ _ => Some l | Nil => None end.
Definition rightOf (h : Node) : option Node := match h with Node_ _ _ r _ => Some r | Nil => None end.

Definition moveRedLeft (h : Node) : option Node :=
  h ← flip h;
  r ← rightOf h;
  rl ← leftOf r;
  if isRed rl then
    match h with
    | Node_ l x r b =>
      r ← rotateRight r;
      h ← rotateLeft (Node_ l x r b);
      flip h
    | Nil => None
    end
  else Some h.

Definition moveRedRight (h : Node) : option Node :=
  h ← flip h;
  l ← leftOf h;
  ll ← leftOf l;
  if isRed ll then (h ← rotateRight h; flip h) else Some h.

(** [isRed(h.Left) && isRed(h.Left.Left)], then a rotation. *)
Definition lean_right (h : Node) : option Node :=
  match h with
  | Nil => None
  | Node_ l _ _ _ =>
    if isRed l then (ll ← leftOf l; if isRed ll then rotateRight h else Some h) else Some h
  end.

(** [if isRed(h.Left) && isRed(h.Right) { flip(h) }] *)
Definition split_reds (h : Node) : option Node :=
  match h with
  | Nil => None
  | Node_ l _ r _ => if isRed l && isRed r then flip h else Some h
  end.

Definition fixUp (h : Node) : option Node :=
  r ← rightOf h;
  h ← (if isRed r then rotateLeft h else Some h);
  h ← lean_right h;
  split_reds h.

Definition walkDownRot23 (h : Node) : Node := h.

Definition walkUpRot23 (h : Node) : option Node :=
  l ← leftOf h;
  r ← rightOf h;
  h ← (if isRed r && negb (isRed l) then rotateLeft h else Some h);
  h ← lean_right h;
  split_reds h.

Definition walkDownRot234 (h : Node) : option Node := split_reds h.

Definition walkUpRot234 (h : Node) : option Node :=
  l ← leftOf h;
  r ← rightOf h;
  h ← (if isRed r && negb (isRed l) then rotateLeft h else Some h);
  lean_right h.

(** ** Lookup *)
Fixpoint get_from (h : Node) (key : Item A) : option (option (Item A)) :=
  match h with
  | Nil => Some None
  | Node_ l x r _ =>
    b ← less key x;
    if b : bool then get_from l key
    else (b ← less x key; if b : bool then get_from r key else Some (Some x))
  end.

Definition Get (key : Item A) (t : LLRB) : option (option (Item A)) := get_from (root t) key.

Definition Has (key : Item A) (t : LLRB) : option bool :=
  o ← Get key t; Some (bool_decide (is_Some o)).

Fixpoint leftmost (l : Node) (x : Item A) : Item A :=
  match l with Nil => x | Node_ l' x' _ _ => leftmost l' x' end.

Fixpoint rightmost (x : Item A) (r : Node) : Item A :=
  match r with Nil => x | Node_ _ x' r' _ => rightmost x' r' end.

Definition Min (t : LLRB) : option (Item A) :=
  match root t with Nil => None | Node_ l x _ _ => Some (leftmost l x) end.

Definition Max (t : LLRB) : option (Item A) :=
  match root t with Nil => None | Node_ _ x r _ => Some (rightmost x r) end.

(** ** Insertion *)
Fixpoint replaceOrInsert (h : Node) (item : Item A) : option (Node * option (Item A)) :=
  match h with
  | Nil => Some (newNode item, None)
  | Node_ l x r black =>
    b ← less item x;
    '(h, replaced) ←
      (if b : bool then ('(l, replaced) ← replaceOrInsert l item; Some (Node_ l x r black, replaced))
       else
         b ← less x item;
         if b : bool then ('(r, replaced) ← replaceOrInsert r item; Some (Node_ l x r black, replaced))
         else Some (Node_ l item r black, Some x));
    h ← walkUpRot23 h;
    Some (h, replaced)
  end.

(** [nil] is [None]. *)
Definition ReplaceOrInsert (item : option (Item A)) (t : LLRB) : option (option (Item A) * LLRB) :=
  item ← item;
  '(h, replaced) ← replaceOrInsert (root t) item;
  Some (replaced, {| root := blacken h;
                     count := if bool_decide (is_Some replaced) then count t else (count t + 1)%Z |}).

Fixpoint insertNoReplace (h : Node) (item : Item A) : option Node :=
  match h with
  | Nil => Some (newNode item)
  | Node_ l x r black =>
    b ← less item x;
    h ← (if b : bool then (l ← insertNoReplace l item; Some (Node_ l x r black))
         else (r ← insertNoReplace r item; Some (Node_ l x r black)));
    walkUpRot23 h
  end.

Definition InsertNoReplace (item : option (Item A)) (t : LLRB) : option LLRB :=
  item ← item;
  h ← insertNoReplace (root t) item;
  Some {| root := blacken h; count := count t + 1 |}.

Fixpoint ReplaceOrInsertBulk (items : list (option (Item A))) (t : LLRB) : option LLRB :=
  match items with
  | [] => Some t
  | i :: items' => '(_, t) ← ReplaceOrInsert i t; ReplaceOrInsertBulk items' t
  end.

Fixpoint InsertNoReplaceBulk (items : list (option (Item A))) (t : LLRB) : option LLRB :=
  match items with
  | [] => Some t
  | i :: items' => t ← InsertNoReplace i t; InsertNoReplaceBulk items' t
  end.

(** ** Deletion *)
Fixpoint deleteMin (fuel : nat) (h : Node) : option (Node * option (Item A)) :=
  match fuel, h with
  | 0, _ => None
  | S _, Nil => Some (Nil, None)
  | S _, Node_ Nil x _ _ => Some (Nil, Some x)
  | S fuel, Node_ (Node_ ll _ _ _ as l) _ _ _ =>
    h ← (if negb (isRed l) && negb (isRed ll) then moveRedLeft h else Some h);
    match h with
    | Node_ l x r black =>
      '(l, deleted) ← deleteMin fuel l;
      h ← fixUp (Node_ l x r black);
      Some (h, deleted)
    | Nil => None
    end
  end.

Fixpoint deleteMax (fuel : nat) (h : Node) : option (Node * option (Item A)) :=
  match fuel, h with
  | 0, _ => None
  | S _, Nil => Some (Nil, None)
  | S fuel, Node_ l _ _ _ =>
    h ← (if isRed l then rotateRight h else Some h);
    match h with
    | Node_ _ x Nil _ => Some (Nil, Some x)
    | Node_ _ _ (Node_ rl _ _ _ as r) _ =>
      h ← (if negb (isRed r) && negb (isRed rl) then moveRedRight h else Some h);
      match h with
      | Node_ l x r black =>
        '(r, deleted) ← deleteMax fuel r;
        h ← fixUp (Node_ l x r black);
        Some (h, deleted)
      | Nil => None
      end
    | Nil => None
    end
  end.

Fixpoint size (h : Node) : nat :=
  match h with Nil => 0 | Node_ l _ r _ => S (size l + size r) end.

(** The part of [delete] at a node whose right child the item is in, or whose item it is. *)
Definition delete_here (delete : Node → option (Node * option (Item A))) (h : Node) (item : Item A) :
    option (Node * option (Item A)) :=
  match h with
  | Node_ l x r black =>
    b ← less x item;
    if negb b then
      '(r, subDeleted) ← deleteMin (S (size r)) r;
      subDeleted ← subDeleted;
      h ← fixUp (Node_ l subDeleted r black);
      Some (h, Some x)
    else
      '(r, deleted) ← delete r;
      h ← fixUp (Node_ l x r black);
      Some (h, deleted)
  | Nil => None
  end.

Fixpoint delete (fuel : nat) (h : Node) (item : Item A) : option (Node * option (Item A)) :=
  match fuel, h with
  | 0, _ => None
  | S _, Nil => Some (Nil, None)
  | S fuel, Node_ l x r black =>
    b ← less item x;
    if b : bool then
      match l with
      | Nil => Some (h, None)
      | Node_ ll _ _ _ =>
        h ← (if negb (isRed l) && negb (isRed ll) then moveRedLeft h else Some h);
        match h with
        | Node_ l x r black =>
          '(l, deleted) ← delete fuel l item;
          h ← fixUp (Node_ l x r black);
          Some (h, deleted)
        | Nil => None
        end
      end
    else
      h ← (if isRed l then rotateRight h else Some h);
      match h with
      | Node_ _ x r _ =>
        b ← less x item;
        match r with
        | Nil => if negb b then Some (Nil, Some x) else delete_here (λ r, delete fuel r item) h item
        | Node_ rl _ _ _ =>
          h ← (if negb (isRed r) && negb (isRed rl) then moveRedRight h else Some h);
          delete_here (λ r, delete fuel r item) h item
        end
      | Nil => None
      end
  end.

(** The callers of the three blacken the root and count. *)
Definition deleted_from (t : LLRB) (r : option (Node * option (Item A))) : option (option (Item A) * LLRB) :=
  '(h, deleted) ← r;
  Some (deleted, {| root := blacken h;
                    count := if bool_decide (is_Some deleted) then (count t - 1)%Z else count t |}).

Definition DeleteMin (t : LLRB) : option (option (Item A) * LLRB) :=
  deleted_from t (deleteMin (S (size (root t))) (root t)).

Definition DeleteMax (t : LLRB) : option (option (Item A) * LLRB) :=
  deleted_from t (deleteMax (S (size (root t))) (root t)).

Definition Delete (key : Item A) (t : LLRB) : option (option (Item A) * LLRB) :=
  deleted_from t (delete (S (size (root t))) (root t) key).

(** ** Iteration: a callback on a state of the caller's, which returns whether to go on *)
Section iterators.
Context {R : Type} (iterator : Item A → R → bool * R).

Abbreviation walk := (R → option (bool * R)).

(** [if !m { return false }; k] *)
Definition and_then (m k : walk) : walk := λ r,
  '(go, r) ← m r; if go : bool then k r else Some (false, r).

Definition visit (x : Item A) : walk := λ r, Some (iterator x r).

Fixpoint ascendRange (h : Node) (inf sup : Item A) : walk := λ s,
  match h with
  | Nil => Some (true, s)
  | Node_ l x r _ =>
    b ← less x sup;
    if negb b then ascendRange l inf sup s
    else
      b ← less x inf;
      if b : bool then ascendRange r inf sup s
      else and_then (ascendRange l inf sup) (and_then (visit x) (ascendRange r inf sup)) s
  end.

Fixpoint ascendGreaterOrEqual (h : Node) (pivot : Item A) : walk := λ s,
  match h with
  | Nil => Some (true, s)
  | Node_ l x r _ =>
    b ← less x pivot;
    (if negb b then and_then (ascendGreaterOrEqual l pivot) (and_then (visit x) (ascendGreaterOrEqual r pivot))
     else ascendGreaterOrEqual r pivot) s
  end.

Fixpoint ascendLessThan (h : Node) (pivot : Item A) : walk := λ s,
  match h with
  | Nil => Some (true, s)
  | Node_ l x _ _ =>
    and_then (ascendLessThan l pivot)
      (and_then (visit x) (λ s, b ← less x pivot; if b : bool then ascendLessThan l pivot s else Some (true, s))) s
  end.

Fixpoint descendLessOrEqual (h : Node) (pivot : Item A) : walk := λ s,
  match h with
  | Nil => Some (true, s)
  | Node_ l x r _ =>
    b ← less x pivot;
    b ← (if b : bool then Some true else (b ← less pivot x; Some (negb b)));
    (if b : bool then and_then (descendLessOrEqual r pivot) (and_then (visit x) (descendLessOrEqual l pivot))
     else descendLessOrEqual l pivot) s
  end.

Definition AscendRange (greaterOrEqual lessThan : Item A) (t : LLRB) (s : R) : option R :=
  snd <$> ascendRange (root t) greaterOrEqual lessThan s.
Definition AscendGreaterOrEqual (pivot : Item A) (t : LLRB) (s : R) : option R :=
  snd <$> ascendGreaterOrEqual (root t) pivot s.
Definition AscendLessThan (pivot : Item A) (t : LLRB) (s : R) : option R :=
  snd <$> ascendLessThan (root t) pivot s.
Definition DescendLessOrEqual (pivot : Item A) (t : LLRB) (s : R) : option R :=
  snd <$> descendLessOrEqual (root t) pivot s.
End iterators.
End llrb.
