(* ===== verification/LlrbBalance.v ===== *)
(** * The balance of left-leaning red-black trees (github.com/petar/GoLLRB/llrb/llrb.go)

    A tree stands for a 2-3 tree: a black node with a red left child is a 3-node.  The
    operations keep this shape, never panic on it, and keep the items in order. *)

From S2P Require Import Prelude Llrb.

Create HintDb llrb.

Section balance.
Context {A : Type} (Less : A → Item A → option bool).

Implicit Types (t h l r : Node (A := A)) (x y : Item A) (c : bool) (n : nat).

(** The items from left to right. *)
Fixpoint to_list (h : Node (A := A)) : list (Item A) :=
  match h with Nil => [] | Node_ l x r _ => to_list l ++ x :: to_list r end.

(** ** Shapes

    [bl n t]: [t] is a 2-3 tree of height [n], its root not red. *)
Inductive bl : nat → Node (A := A) → Prop :=
| bl_nil : bl 0 Nil
| bl_2 n l x r : bl n l → bl n r → bl (S n) (Node_ l x r true)
| bl_3 n a x b y r : bl n a → bl n b → bl n r → bl (S n) (Node_ (Node_ a x b false) y r true).

(** Nodes whose own colour is left open, with subtrees of height [n]: a 2-node, a 3-node,
    and a 3-node that leans right. *)
Inductive two c n : Node (A := A) → Prop :=
| two_ l x r : bl n l → bl n r → two c n (Node_ l x r c).

Inductive three c n : Node (A := A) → Prop :=
| three_ a x b y r : bl n a → bl n b → bl n r → three c n (Node_ (Node_ a x b false) y r c).

Inductive three_right c n : Node (A := A) → Prop :=
| three_right_ a x b y r : bl n a → bl n b → bl n r → three_right c n (Node_ a x (Node_ b y r false) c).

Definition kept c n t : Prop := two c n t ∨ three c n t.

(** What is left of a 2-node after a deletion: a 2-node, or a tree that is one lower. *)
Definition shrunk c n t : Prop :=
  two c n t ∨
  match n with 0 => t = Nil | S m => kept (negb c) m t end.

#[local] Hint Constructors bl two three three_right : llrb.

Lemma kept_bl n t : kept true n t ↔ bl (S n) t.
Proof.
  split; [intros [[]|[]]; auto with llrb|]. unfold kept. inversion 1; subst; auto with llrb.
Qed.

Lemma bl_black n t : bl n t → isRed t = false.
Proof. by destruct 1. Qed.

(** A tree of height zero is empty; others have a root. *)
Lemma bl_0 t : bl 0 t → t = Nil.
Proof. by inversion 1. Qed.

Lemma shrunk_cases n t : shrunk false n t → two false n t ∨ bl n t.
Proof.
  intros [H2|H]; [by left|]. right. destruct n as [|n]; [subst; constructor|]. by apply kept_bl.
Qed.

(** ** Rotations and flips keep the items *)
Ltac inv_opt :=
  repeat match goal with
  | H : Some _ = Some _ |- _ => injection H as H; subst
  | H : None = Some _ |- _ => discriminate H
  | H : (match ?x with _ => _ end) = Some _ |- _ => let E := fresh "E" in destruct x eqn:E
  | H : mbind _ ?m = Some _ |- _ => let E := fresh "E" in destruct m eqn:E; cbn [mbind option_bind] in H
  end.

Lemma rotateLeft_list h h' : rotateLeft h = Some h' → to_list h' = to_list h.
Proof. unfold rotateLeft. intros H. inv_opt. cbn. by rewrite <-app_assoc. Qed.

Lemma rotateRight_list h h' : rotateRight h = Some h' → to_list h' = to_list h.
Proof. unfold rotateRight. intros H. inv_opt. cbn. by rewrite <-app_assoc. Qed.

Lemma flip_list h h' : flip h = Some h' → to_list h' = to_list h.
Proof. unfold flip. intros H. inv_opt. done. Qed.

Lemma lean_right_list h h' : lean_right h = Some h' → to_list h' = to_list h.
Proof. unfold lean_right. intros H. inv_opt; eauto using rotateRight_list. Qed.

Lemma split_reds_list h h' : split_reds h = Some h' → to_list h' = to_list h.
Proof. unfold split_reds. intros H. inv_opt; eauto using flip_list. Qed.

Lemma fixUp_list h h' : fixUp h = Some h' → to_list h' = to_list h.
Proof.
  unfold fixUp. intros (r & _ & (h1 & H1 & (h2 & H2 & H3)%bind_Some)%bind_Some)%bind_Some.
  rewrite (split_reds_list _ _ H3), (lean_right_list _ _ H2). destruct (isRed r); [by apply rotateLeft_list|by simplify_eq].
Qed.

Lemma walkUpRot23_list h h' : walkUpRot23 h = Some h' → to_list h' = to_list h.
Proof.
  unfold walkUpRot23. intros (l & _ & (r & _ & (h1 & H1 & (h2 & H2 & H3)%bind_Some)%bind_Some)%bind_Some)%bind_Some.
  rewrite (split_reds_list _ _ H3), (lean_right_list _ _ H2). destruct (_ && _); [by apply rotateLeft_list|by simplify_eq].
Qed.

(** ** Repairing a node after a change below it *)
Ltac black :=
  repeat match goal with H : bl ?n ?t |- context [isRed ?t] => rewrite (bl_black n t H) end.

Ltac shape := cbn; black; cbn; black; cbn; black; cbn.

(** A node after its left child was changed by a deletion. *)
Lemma fixUp_left_two c n l x r :
  bl n l → bl n r → fixUp (Node_ l x r c) = Some (Node_ l x r c).
Proof. intros Hl Hr. unfold fixUp, lean_right, split_reds. by shape. Qed.

Lemma fixUp_three c n l x r :
  two false n l → bl n r → fixUp (Node_ l x r c) = Some (Node_ l x r c).
Proof. intros [a y b Ha Hb] Hr. unfold fixUp, lean_right, split_reds. by shape. Qed.

Lemma fixUp_three_right c n l x r :
  bl n l → two false n r → ∃ t, fixUp (Node_ l x r c) = Some t ∧ three c n t.
Proof.
  intros Hl [a y b Ha Hb]. unfold fixUp, lean_right, split_reds. shape. eexists. split; [done|]. auto with llrb.
Qed.

(** A 4-node: it is split again, with its colour turned. *)
Lemma fixUp_four c n l x r :
  two false n l → two false n r → ∃ t, fixUp (Node_ l x r (negb c)) = Some t ∧ two c (S n) t.
Proof.
  intros [a y b Ha Hb] [d z e Hd He]. unfold fixUp, lean_right, split_reds. shape. eexists. split; [done|].
  rewrite negb_involutive. auto with llrb.
Qed.

(** ** Borrowing for a 2-node *)
Definition fused c n l r c' : Prop := c' = negb c ∧ two false n l ∧ two false n r.

Lemma moveRedLeft_spec c n a x b y r :
  bl n a → bl n b → bl (S n) r →
  ∃ l' z r' c', moveRedLeft (Node_ (Node_ a x b true) y r c) = Some (Node_ l' z r' c') ∧
    to_list (Node_ l' z r' c') = to_list (Node_ (Node_ a x b true) y r c) ∧
    (fused c n l' r' c' ∧ z = y ∨ c' = c ∧ three true n l' ∧ bl (S n) r' ∧ z ∈ to_list r).
Proof.
  intros Ha Hb Hr. unfold moveRedLeft, fused. inversion Hr as [|? p u q Hp Hq|? p u q v w Hp Hq Hw]; subst; shape.
  - eexists _, _, _, _. split_and!; [done|done|]. left. auto with llrb.
  - rewrite negb_involutive. eexists _, _, _, _. split; [done|]. split; [cbn; by rewrite <-!app_assoc|]. right.
    split_and!; [done|auto with llrb..|]. cbn. set_solver.
Qed.

Lemma moveRedRight_spec c n l y a x b :
  bl n a → bl n b → bl (S n) l →
  ∃ l' z r' c', moveRedRight (Node_ l y (Node_ a x b true) c) = Some (Node_ l' z r' c') ∧
    to_list (Node_ l' z r' c') = to_list (Node_ l y (Node_ a x b true) c) ∧
    (fused c n l' r' c' ∧ z = y ∨
     c' = c ∧ bl (S n) l' ∧ three_right true n r' ∧ z ∈ to_list l ∧ ∃ p q, r' = Node_ p y q true).
Proof.
  intros Ha Hb Hl. unfold moveRedRight, fused. inversion Hl as [|? p u q Hp Hq|? p u q v w Hp Hq Hw]; subst; shape.
  - eexists _, _, _, _. split_and!; [done|done|]. left. auto with llrb.
  - rewrite negb_involutive. eexists _, _, _, _. split; [done|]. split; [cbn; by rewrite <-!app_assoc|]. right.
    split_and!; [done|auto with llrb..| |by eexists _, _]. cbn. set_solver.
Qed.

(** The repair of a node whose left, or right, child was a red or a 3-node before a deletion. *)
Lemma fixUp_shrunk_left c n l x r :
  shrunk false n l → bl n r → ∃ t, fixUp (Node_ l x r c) = Some t ∧ kept c n t.
Proof.
  intros [Hl|Hl]%shrunk_cases Hr.
  - rewrite (fixUp_three c n) by done. eexists. split; [done|]. right. destruct Hl. auto with llrb.
  - rewrite (fixUp_left_two c n) by done. eexists. split; [done|]. left. auto with llrb.
Qed.

Lemma fixUp_shrunk_right c n l x r :
  bl n l → shrunk false n r → ∃ t, fixUp (Node_ l x r c) = Some t ∧ kept c n t.
Proof.
  intros Hl [Hr|Hr]%shrunk_cases.
  - destruct (fixUp_three_right c n l x r Hl Hr) as (t & Ht & H3). exists t. split; [done|by right].
  - rewrite (fixUp_left_two c n) by done. eexists. split; [done|]. left. auto with llrb.
Qed.

Lemma fixUp_fused_left c n l x r :
  shrunk false n l → two false n r → ∃ t, fixUp (Node_ l x r (negb c)) = Some t ∧ shrunk c (S n) t.
Proof.
  intros [Hl|Hl]%shrunk_cases Hr.
  - destruct (fixUp_four c n l x r Hl Hr) as (t & Ht & H2). exists t. split; [done|by left].
  - destruct (fixUp_three_right (negb c) n l x r Hl Hr) as (t & Ht & H3). exists t. split; [done|]. right. by right.
Qed.

Lemma fixUp_fused_right c n l x r :
  two false n l → shrunk false n r → ∃ t, fixUp (Node_ l x r (negb c)) = Some t ∧ shrunk c (S n) t.
Proof.
  intros Hl [Hr|Hr]%shrunk_cases.
  - destruct (fixUp_four c n l x r Hl Hr) as (t & Ht & H2). exists t. split; [done|by left].
  - rewrite (fixUp_three (negb c) n) by done. eexists. split; [done|]. right. right. destruct Hl. auto with llrb.
Qed.

(** ** Deleting the first and the last item *)
Lemma size_list t : size t = length (to_list t).
Proof. induction t; cbn; [done|]. rewrite length_app. cbn. lia. Qed.

Lemma size_left l x r c : size l < size (Node_ l x r c).
Proof. cbn. lia. Qed.

Definition after_min (P : Node (A := A) → Prop) t (o : option (Node (A := A) * option (Item A))) : Prop :=
  ∃ t' x, o = Some (t', Some x) ∧ P t' ∧ to_list t = x :: to_list t'.

Definition after_max (P : Node (A := A) → Prop) t (o : option (Node (A := A) * option (Item A))) : Prop :=
  ∃ t' x, o = Some (t', Some x) ∧ P t' ∧ to_list t = to_list t' ++ [x].

Lemma deleteMin_spec fuel c n t :
  size t < fuel →
  (two c n t → after_min (shrunk c n) t (deleteMin fuel t)) ∧
  (three c n t → after_min (kept c n) t (deleteMin fuel t)).
Proof.
  revert c n t. induction fuel as [|fuel IH]; intros c n t Hf; [lia|]. split.
  - intros H2. destruct H2 as [l x r Hl Hr] in Hf |- *. inversion Hl as [|m a y b Ha Hb|m a y b z d Ha Hb Hd]; subst.
    + exists Nil, x. apply bl_0 in Hr as ->. split_and!; [done|by right|done].
    + cbn [deleteMin]. cbn [isRed negb andb]. black. cbn [negb].
      destruct (moveRedLeft_spec c m a y b x r Ha Hb Hr) as (l' & z & r' & c' & -> & Hlist & Hcase).
      cbn [mbind option_bind]. rewrite size_list, <-Hlist, <-size_list in Hf. pose proof (size_left l' z r' c') as Hlt.
      unfold after_min. rewrite <-Hlist. destruct Hcase as [[(-> & Hl' & Hr') _]|(-> & Hl' & Hr' & _)].
      * destruct (IH false m l') as [IH2 _]; [lia|]. destruct (IH2 Hl') as (l2 & u & -> & Hs & Hu). cbn [mbind option_bind].
        destruct (fixUp_fused_left c m l2 z r' Hs Hr') as (t' & Ht & Hshape). rewrite Ht. cbn [mbind option_bind].
        exists t', u. split_and!; [done|done|]. rewrite (fixUp_list _ _ Ht). cbn. by rewrite Hu.
      * destruct (IH true m l') as [_ IH3]; [lia|]. destruct (IH3 Hl') as (l2 & u & -> & Hs & Hu). cbn [mbind option_bind].
        apply kept_bl in Hs. rewrite (fixUp_left_two c (S m)) by done. cbn [mbind option_bind].
        eexists _, u. split_and!; [done|left; auto with llrb|]. cbn. by rewrite Hu.
    + cbn [deleteMin]. cbn [isRed negb andb mbind option_bind]. cbn in Hf.
      destruct (IH true m (Node_ (Node_ a y b false) z d true)) as [_ IH3]; [cbn; lia|].
      destruct IH3 as (l2 & u & -> & Hs & Hu); [auto with llrb|]. cbn [mbind option_bind].
      apply kept_bl in Hs. rewrite (fixUp_left_two c (S m)) by done. cbn [mbind option_bind].
      eexists _, u. split_and!; [done|left; auto with llrb|].
      change (to_list (Node_ ?l ?x ?r ?c)) with (to_list l ++ x :: to_list r) at 1. by rewrite Hu.
  - intros H3. destruct H3 as [a x b y r Ha Hb Hr] in Hf |- *. cbn [deleteMin isRed negb andb mbind option_bind].
    destruct (IH false n (Node_ a x b false)) as [IH2 _]; [cbn in *; lia|].
    destruct IH2 as (l2 & u & -> & Hs & Hu); [auto with llrb|]. cbn [mbind option_bind].
    destruct (fixUp_shrunk_left c n l2 y r Hs Hr) as (t' & Ht & Hshape). rewrite Ht. cbn [mbind option_bind].
    exists t', u. split_and!; [done|done|]. rewrite (fixUp_list _ _ Ht).
    change (to_list (Node_ ?l ?x ?r ?c)) with (to_list l ++ x :: to_list r) at 1. by rewrite Hu.
Qed.

Lemma to_list_node l x r c : to_list (Node_ l x r c) = to_list l ++ x :: to_list r.
Proof. done. Qed.

Lemma size_right l x r c : size r < size (Node_ l x r c).
Proof. cbn. lia. Qed.

(** [deleteMax] on a 3-node that leans right, which is what it makes of a 3-node. *)
Lemma deleteMax_right fuel c n a x b y r :
  bl n a → after_max (shrunk false n) (Node_ b y r false) (deleteMax fuel (Node_ b y r false)) →
  after_max (kept c n) (Node_ a x (Node_ b y r false) c)
    ('(r, deleted) ← deleteMax fuel (Node_ b y r false);
     h ← fixUp (Node_ a x r c);
     Some (h, deleted)).
Proof.
  intros Ha (r2 & u & -> & Hs & Hu). cbn [mbind option_bind].
  destruct (fixUp_shrunk_right c n a x r2 Ha Hs) as (t' & Ht & Hshape). rewrite Ht. cbn [mbind option_bind].
  exists t', u. split_and!; [done|done|]. rewrite (fixUp_list _ _ Ht), (to_list_node a x), (to_list_node a x), Hu. by rewrite <-app_assoc.
Qed.

Lemma deleteMax_spec fuel c n t :
  size t < fuel →
  (two c n t → after_max (shrunk c n) t (deleteMax fuel t)) ∧
  (three c n t ∨ three_right c n t → after_max (kept c n) t (deleteMax fuel t)).
Proof.
  revert c n t. induction fuel as [|fuel IH]; intros c n t Hf; [lia|]. split.
  - intros H2. destruct H2 as [l x r Hl Hr] in Hf |- *. cbn [deleteMax]. black. cbn [mbind option_bind].
    inversion Hr as [|m a y b Ha Hb|m a y b z d Ha Hb Hd]; subst.
    + exists Nil, x. apply bl_0 in Hl as ->. split_and!; [done|by right|done].
    + cbn [isRed negb andb]. black. cbn [negb].
      destruct (moveRedRight_spec c m l x a y b Ha Hb Hl) as (l' & z & r' & c' & -> & Hlist & Hcase).
      cbn [mbind option_bind]. rewrite size_list, <-Hlist, <-size_list in Hf. pose proof (size_right l' z r' c') as Hlt.
      unfold after_max. rewrite <-Hlist. destruct Hcase as [[(-> & Hl' & Hr') _]|(-> & Hl' & Hr' & _)].
      * destruct (IH false m r') as [IH2 _]; [lia|]. destruct (IH2 Hr') as (r2 & u & -> & Hs & Hu). cbn [mbind option_bind].
        destruct (fixUp_fused_right c m l' z r2 Hl' Hs) as (t' & Ht & Hshape). rewrite Ht. cbn [mbind option_bind].
        exists t', u. split_and!; [done|done|]. rewrite (fixUp_list _ _ Ht), !to_list_node, Hu. by rewrite <-app_assoc.
      * destruct (IH true m r') as [_ IH3]; [lia|]. destruct (IH3 (or_intror Hr')) as (r2 & u & -> & Hs & Hu). cbn [mbind option_bind].
        apply kept_bl in Hs. rewrite (fixUp_left_two c (S m)) by done. cbn [mbind option_bind].
        eexists _, u. split_and!; [done|left; auto with llrb|]. rewrite !to_list_node, Hu. by rewrite <-app_assoc.
    + cbn [isRed negb andb mbind option_bind]. pose proof (size_right l x (Node_ (Node_ a y b false) z d true) c) as Hlt.
      destruct (IH true m (Node_ (Node_ a y b false) z d true)) as [_ IH3]; [lia|].
      destruct IH3 as (r2 & u & -> & Hs & Hu); [left; auto with llrb|]. cbn [mbind option_bind].
      apply kept_bl in Hs. rewrite (fixUp_left_two c (S m)) by done. cbn [mbind option_bind].
      eexists _, u. split_and!; [done|left; auto with llrb|]. rewrite (to_list_node l x), (to_list_node l x), Hu. by rewrite <-app_assoc.
  - intros H3. assert (∃ a x b y r, to_list t = to_list (Node_ a x (Node_ b y r false) c) ∧ bl n a ∧ bl n b ∧ bl n r ∧
      deleteMax (S fuel) t = ('(r, deleted) ← deleteMax fuel (Node_ b y r false); h ← fixUp (Node_ a x r c); Some (h, deleted)))
      as (a & x & b & y & r & Hlist & Ha & Hb & Hr & ->).
    { destruct H3 as [[a x b y r Ha Hb Hr]|[a x b y r Ha Hb Hr]]; eexists a, x, b, y, r.
      - cbn. split_and!; [by rewrite <-app_assoc|done..].
      - split_and!; [done..|]. cbn [deleteMax]. by black. }
    rewrite size_list, Hlist, <-size_list in Hf. pose proof (size_right a x (Node_ b y r false) c) as Hlt.
    unfold after_max. rewrite Hlist. apply (deleteMax_right fuel c n); [done|].
    apply (IH false n); [lia|auto with llrb].
Qed.

(** ** Insertion

    Inserting into a black node leaves it, or turns it red; inserting into a red node may
    also leave a red node with a red left child, which its parent repairs. *)
Definition grown n t : Prop := bl n t ∨ two false n t.
Definition grown_red n t : Prop := two false n t ∨ three false n t.

Lemma walkUp_grown_left n l x r : grown n l → bl n r → ∃ t, walkUpRot23 (Node_ l x r true) = Some t ∧ bl (S n) t.
Proof.
  unfold walkUpRot23, lean_right, split_reds. intros [Hl|[a y b Ha Hb]] Hr; shape; eexists; (split; [done|]); auto with llrb.
Qed.

Lemma walkUp_grown_right n l x r : bl n l → grown n r → ∃ t, walkUpRot23 (Node_ l x r true) = Some t ∧ bl (S n) t.
Proof.
  unfold walkUpRot23, lean_right, split_reds. intros Hl [Hr|[a y b Ha Hb]]; shape; eexists; (split; [done|]); auto with llrb.
Qed.

Lemma walkUp_three_left n l x r :
  grown_red n l → bl n r → ∃ t, walkUpRot23 (Node_ l x r true) = Some t ∧ grown (S n) t.
Proof.
  unfold walkUpRot23, lean_right, split_reds, grown. intros [[a y b Ha Hb]|[a y b z d Ha Hb Hd]] Hr; shape; eexists; (split; [done|]); auto with llrb.
Qed.

Lemma walkUp_three_right n l x r :
  two false n l → grown n r → ∃ t, walkUpRot23 (Node_ l x r true) = Some t ∧ grown (S n) t.
Proof.
  unfold walkUpRot23, lean_right, split_reds, grown. intros [a y b Ha Hb] [Hr|[d z e Hd He]]; shape; eexists; (split; [done|]); auto with llrb.
Qed.

Lemma walkUp_red_left n l x r : grown n l → bl n r → ∃ t, walkUpRot23 (Node_ l x r false) = Some t ∧ grown_red n t.
Proof.
  unfold walkUpRot23, lean_right, split_reds, grown_red. intros [Hl|[a y b Ha Hb]] Hr; shape; eexists; (split; [done|]); auto with llrb.
Qed.

Lemma walkUp_red_right n l x r : bl n l → grown n r → ∃ t, walkUpRot23 (Node_ l x r false) = Some t ∧ grown_red n t.
Proof.
  unfold walkUpRot23, lean_right, split_reds, grown_red. intros Hl [Hr|[a y b Ha Hb]]; shape; eexists; (split; [done|]); auto with llrb.
Qed.

(** An insertion below a node, and at it. *)
Definition wf n t : Prop := bl n t ∨ two false n t.
Definition ins_ok n t t' : Prop := (bl n t → grown n t') ∧ (two false n t → grown_red n t').

Lemma walk_left n l x r c :
  wf n (Node_ l x r c) →
  ∃ m, wf m l ∧ ∀ l', ins_ok m l l' → ∃ t', walkUpRot23 (Node_ l' x r c) = Some t' ∧ ins_ok n (Node_ l x r c) t'.
Proof.
  intros [H|H].
  - inversion H as [|m ? ? ? Hl Hr|m a y b ? ? Ha Hb Hr]; subst; exists m.
    + split; [by left|]. intros l' [Hok _]. destruct (walkUp_grown_left m l' x r (Hok Hl) Hr) as (t' & -> & Ht).
      exists t'. split; [done|]. split; [intros _; by left|by inversion 1].
    + split; [right; auto with llrb|]. intros l' [_ Hok].
      destruct (walkUp_three_left m l' x r) as (t' & -> & Ht); [apply Hok; auto with llrb|done|].
      exists t'. split; [done|]. by split; [|inversion 1].
  - inversion H as [? ? ? Hl Hr]; subst. exists n. split; [by left|]. intros l' [Hok _].
    destruct (walkUp_red_left n l' x r (Hok Hl) Hr) as (t' & -> & Ht). exists t'. split; [done|]. by split; [inversion 1|].
Qed.

Lemma walk_right n l x r c :
  wf n (Node_ l x r c) →
  ∃ m, wf m r ∧ ∀ r', ins_ok m r r' → ∃ t', walkUpRot23 (Node_ l x r' c) = Some t' ∧ ins_ok n (Node_ l x r c) t'.
Proof.
  intros [H|H].
  - inversion H as [|m ? ? ? Hl Hr|m a y b ? ? Ha Hb Hr]; subst; exists m; (split; [by left|]); intros r' [Hok _].
    + destruct (walkUp_grown_right m l x r' Hl (Hok Hr)) as (t' & -> & Ht).
      exists t'. split; [done|]. split; [intros _; by left|by inversion 1].
    + destruct (walkUp_three_right m (Node_ a y b false) x r') as (t' & -> & Ht); [auto with llrb|by apply Hok|].
      exists t'. split; [done|]. by split; [|inversion 1].
  - inversion H as [? ? ? Hl Hr]; subst. exists n. split; [by left|]. intros r' [Hok _].
    destruct (walkUp_red_right n l x r' Hl (Hok Hr)) as (t' & -> & Ht). exists t'. split; [done|]. by split; [inversion 1|].
Qed.

Lemma walk_same n l x y r c :
  wf n (Node_ l x r c) → walkUpRot23 (Node_ l y r c) = Some (Node_ l y r c) ∧ ins_ok n (Node_ l x r c) (Node_ l y r c).
Proof.
  unfold walkUpRot23, lean_right, split_reds, ins_ok, grown, grown_red.
  intros [H|H]; inversion H; subst; shape; (split; [done|]); split; try (by inversion 1); intros _; left; auto with llrb.
Qed.

Lemma ins_new n x : wf n Nil → ins_ok n Nil (newNode x).
Proof.
  intros _. split; [|by inversion 1]. intros Hn. inversion Hn; subst.
  right. unfold newNode. auto with llrb.
Qed.
End balance.

#[export] Hint Constructors bl two three three_right : llrb.
