(* ===== verification/LlrbMap.v ===== *)
(** * Left-leaning red-black trees as sorted lists (github.com/petar/GoLLRB/llrb: llrb.go)

    What the operations compute, against a list of the items in order. *)

From S2P Require Import Prelude SortedLists Llrb LlrbBalance.

(** A [Less] method that is a strict weak order on the items that are not infinite. *)
Class item_order {A} (Less : A → Item A → option bool) (lt : A → A → bool) : Prop := {
  Less_El x y : Less x (El y) = Some (lt x y);
  item_strict_weak_order :: strict_weak_order lt;
}.

Section map.
Context {A : Type} (Less : A → Item A → option bool) (lt : A → A → bool) `{!item_order Less lt}.
Implicit Types (k x y : A) (L : list A).

Local Notation ordered := (ordered lt).
Local Notation strict := (strict lt).
Local Notation below := (below lt).
Local Notation above := (above lt).
Local Notation equal := (equal lt).
Local Notation upto := (upto lt).
Local Notation inserted := (inserted lt).
Local Notation inserted_after := (inserted_after lt).
Local Notation removed := (removed lt).

(** ** Trees that hold a list of items *)
Definition holds t L : Prop := to_list t = El <$> L.

Lemma holds_node l (x : Item A) r c L :
  holds (Node_ l x r c) L → ∃ L1 x0 L2, L = L1 ++ x0 :: L2 ∧ holds l L1 ∧ x = El x0 ∧ holds r L2.
Proof.
  unfold holds. cbn. intros H. symmetry in H. apply fmap_app_inv in H as (L1 & L' & H1 & H2 & ->).
  symmetry in H2. apply fmap_cons_inv in H2 as (x0 & L2 & -> & H2 & ->). eauto 10.
Qed.

Lemma holds_node_2 l x r c L1 L2 : holds l L1 → holds r L2 → holds (Node_ l (El x) r c) (L1 ++ x :: L2).
Proof. unfold holds. cbn. intros -> ->. by rewrite fmap_app. Qed.

Lemma less_El x y : less Less (El x) (El y) = Some (lt x y).
Proof. exact (Less_El x y). Qed.

Lemma ordered_parts L1 x L2 : ordered (L1 ++ x :: L2) → ordered L1 ∧ ordered L2.
Proof. by intros (? & ? & _)%sorted_around. Qed.

Lemma strict_parts L1 x L2 : strict (L1 ++ x :: L2) → strict L1 ∧ strict L2.
Proof. by intros (? & ? & _)%sorted_around. Qed.

Lemma get_from_spec t L k : holds t L → strict L → get_from Less t (El k) = Some (El <$> head (equal k L)).
Proof.
  revert L. induction t as [|l IHl x r IHr c]; intros L HL Hs.
  { unfold holds in HL. symmetry in HL. apply fmap_nil_inv in HL as ->. done. }
  apply holds_node in HL as (L1 & x0 & L2 & -> & H1 & -> & H2). apply strict_parts in Hs as Hs'. destruct Hs' as [Hs1 Hs2].
  cbn [get_from]. rewrite !less_El. cbn [mbind option_bind]. destruct (lt k x0) eqn:Hk.
  - destruct (around_less k x0 L1 L2 (strict_ordered _ Hs) Hk) as (_ & _ & -> & _). by apply IHl.
  - destruct (lt x0 k) eqn:Hk'.
    + destruct (around_greater k x0 L1 L2 (strict_ordered _ Hs) Hk') as (_ & _ & ->). by apply IHr.
    + by destruct (around_equal k x0 L1 L2 Hs Hk Hk') as (_ & _ & ->).
Qed.

(** ** Insertion *)

Lemma walked h t L : walkUpRot23 h = Some t → holds h L → holds t L.
Proof. unfold holds. by intros ->%walkUpRot23_list. Qed.

Lemma replaceOrInsert_spec t L k n :
  holds t L → strict L → wf n t →
  ∃ t', replaceOrInsert Less t (El k) = Some (t', El <$> head (equal k L)) ∧ ins_ok n t t' ∧ holds t' (inserted k L).
Proof.
  revert L n. induction t as [|l IHl x r IHr c]; intros L n HL Hs Hwf.
  { unfold holds in HL. symmetry in HL. apply fmap_nil_inv in HL as ->.
    exists (newNode (El k)). split; [done|]. split; [by apply ins_new|done]. }
  apply holds_node in HL as (L1 & x0 & L2 & -> & H1 & -> & H2). apply strict_parts in Hs as Hs'. destruct Hs' as [Hs1 Hs2].
  cbn [replaceOrInsert]. rewrite !less_El. cbn [mbind option_bind]. unfold inserted. destruct (lt k x0) eqn:Hk; [|destruct (lt x0 k) eqn:Hk'].
  - destruct (around_less k x0 L1 L2 (strict_ordered _ Hs) Hk) as (-> & -> & -> & _).
    destruct (walk_left n _ _ _ _ Hwf) as (m & Hm & Hwalk). destruct (IHl L1 m H1 Hs1 Hm) as (l' & -> & Hok & Hl').
    cbn [mbind option_bind]. destruct (Hwalk l' Hok) as (t' & Hw & Hok'). rewrite Hw. eexists. split_and!; [done..|].
    apply (walked _ _ _ Hw). replace (below k L1 ++ _) with (inserted k L1 ++ x0 :: L2) by (unfold inserted; by rewrite <-app_assoc).
    by apply holds_node_2.
  - destruct (around_greater k x0 L1 L2 (strict_ordered _ Hs) Hk') as (-> & -> & ->).
    destruct (walk_right n _ _ _ _ Hwf) as (m & Hm & Hwalk). destruct (IHr L2 m H2 Hs2 Hm) as (r' & -> & Hok & Hr').
    cbn [mbind option_bind]. destruct (Hwalk r' Hok) as (t' & Hw & Hok'). rewrite Hw. eexists. split_and!; [done..|].
    apply (walked _ _ _ Hw). rewrite <-app_assoc. by apply holds_node_2.
  - destruct (around_equal k x0 L1 L2 Hs Hk Hk') as (-> & -> & ->). cbn [mbind option_bind].
    destruct (walk_same n _ _ (El k) _ _ Hwf) as [Hw Hok]. rewrite Hw. eexists. split_and!; [done..|]. by apply holds_node_2.
Qed.

Lemma insertNoReplace_spec t L k n :
  holds t L → ordered L → wf n t →
  ∃ t', insertNoReplace Less t (El k) = Some t' ∧ ins_ok n t t' ∧ holds t' (inserted_after k L).
Proof.
  revert L n. induction t as [|l IHl x r IHr c]; intros L n HL Hs Hwf.
  { unfold holds in HL. symmetry in HL. apply fmap_nil_inv in HL as ->.
    exists (newNode (El k)). split; [done|]. split; [by apply ins_new|done]. }
  apply holds_node in HL as (L1 & x0 & L2 & -> & H1 & -> & H2). apply ordered_parts in Hs as Hs'. destruct Hs' as [Hs1 Hs2].
  cbn [insertNoReplace]. rewrite less_El. cbn [mbind option_bind]. unfold inserted_after. destruct (lt k x0) eqn:Hk.
  - destruct (around_less k x0 L1 L2 Hs Hk) as (_ & -> & _ & ->).
    destruct (walk_left n _ _ _ _ Hwf) as (m & Hm & Hwalk). destruct (IHl L1 m H1 Hs1 Hm) as (l' & -> & Hok & Hl').
    cbn [mbind option_bind]. destruct (Hwalk l' Hok) as (t' & Hw & Hok'). rewrite Hw. eexists. split_and!; [done..|].
    apply (walked _ _ _ Hw). replace (upto k L1 ++ _) with (inserted_after k L1 ++ x0 :: L2) by (unfold inserted_after; by rewrite <-app_assoc).
    by apply holds_node_2.
  - destruct (around_not_less k x0 L1 L2 Hs Hk) as (-> & ->).
    destruct (walk_right n _ _ _ _ Hwf) as (m & Hm & Hwalk). destruct (IHr L2 m H2 Hs2 Hm) as (r' & -> & Hok & Hr').
    cbn [mbind option_bind]. destruct (Hwalk r' Hok) as (t' & Hw & Hok'). rewrite Hw. eexists. split_and!; [done..|].
    apply (walked _ _ _ Hw). rewrite <-app_assoc. by apply holds_node_2.
Qed.

(** ** Deletion *)

Definition after_delete (P : Node (A := A) → Prop) k L (o : option (Node (A := A) * option (Item A))) : Prop :=
  ∃ t, o = Some (t, El <$> head (equal k L)) ∧ P t ∧ holds t (removed k L).

Lemma after_delete_mono (P Q : Node (A := A) → Prop) k L o : after_delete P k L o → (∀ t, P t → Q t) → after_delete Q k L o.
Proof. intros (t & -> & HP & Ht) HPQ. exists t. auto. Qed.

Lemma fixed h t L : fixUp h = Some t → holds h L → holds t L.
Proof. unfold holds. by intros ->%fixUp_list. Qed.

Lemma delete_left (P Q : Node (A := A) → Prop) o k z r c L1 L2 :
  strict (L1 ++ z :: L2) → lt k z = true → holds r L2 → after_delete P k L1 o →
  (∀ l, P l → ∃ t, fixUp (Node_ l (El z) r c) = Some t ∧ Q t) →
  after_delete Q k (L1 ++ z :: L2) ('(l, deleted) ← o; h ← fixUp (Node_ l (El z) r c); Some (h, deleted)).
Proof.
  intros Hs Hk Hr (l & -> & HP & Hl) Hfix. cbn [mbind option_bind]. destruct (Hfix l HP) as (t & Ht & HQ). rewrite Ht.
  destruct (around_less k z L1 L2 (strict_ordered _ Hs) Hk) as (Hb & Ha & He & _).
  exists t. rewrite He. split_and!; [done..|]. apply (fixed _ _ _ Ht). unfold removed. rewrite Hb, Ha, app_assoc.
  by apply holds_node_2.
Qed.

Lemma delete_right (P Q : Node (A := A) → Prop) (f : Node (A := A) → option (Node (A := A) * option (Item A))) k l z r c L1 L2 :
  strict (L1 ++ z :: L2) → lt k z = false → holds l L1 → holds r L2 →
  after_delete P k L2 (f r) → (lt z k = false → after_min P r (deleteMin (S (size r)) r)) →
  (∀ r (x : Item A), P r → ∃ t, fixUp (Node_ l x r c) = Some t ∧ Q t) →
  after_delete Q k (L1 ++ z :: L2) (delete_here Less f (Node_ l (El z) r c) (El k)).
Proof.
  intros Hs Hk Hl Hr (r' & Hf & HP & Hr') Hmin Hfix. unfold delete_here. rewrite less_El. cbn [mbind option_bind].
  destruct (lt z k) eqn:Hk'; cbn [negb].
  - destruct (Hfix r' (El z) HP) as (t & Ht & HQ). rewrite Hf. cbn [mbind option_bind]. rewrite Ht.
    destruct (around_greater k z L1 L2 (strict_ordered _ Hs) Hk') as (Hb & Ha & He).
    exists t. rewrite He. split_and!; [done..|]. apply (fixed _ _ _ Ht). unfold removed. rewrite Hb, Ha, <-app_assoc.
    by apply holds_node_2.
  - destruct (Hmin eq_refl) as (r2 & u & -> & HP2 & Hu). cbn [mbind option_bind].
    destruct (Hfix r2 u HP2) as (t & Ht & HQ). rewrite Ht. destruct (around_equal k z L1 L2 Hs Hk Hk') as (Hb & Ha & He).
    exists t. rewrite He. split_and!; [done..|]. apply (fixed _ _ _ Ht). unfold removed. rewrite Hb, Ha.
    unfold holds in Hr. rewrite Hr in Hu. symmetry in Hu. symmetry in Hu. apply fmap_cons_inv in Hu as (u0 & L2' & -> & Hu & ->).
    by apply holds_node_2.
Qed.

Lemma head_not_less k x L1 L2 y :
  strict (L1 ++ x :: L2) → lt k x = true → y ∈ L2 → lt k y = true.
Proof. intros (_ & _ & _ & H)%sorted_around Hk Hy. rewrite Forall_forall in H. apply (lt_trans k x y Hk). by apply H. Qed.

Lemma before_less k x L1 L2 y :
  strict (L1 ++ x :: L2) → lt k x = false → y ∈ L1 → lt y k = true.
Proof. intros (_ & _ & H & _)%sorted_around Hk Hy. rewrite Forall_forall in H. apply (lt_le y x k); [|done]. by apply H. Qed.

Definition root_upto k t : Prop := ∀ x, (∃ l r c, t = Node_ l (El x) r c) → lt k x = false.

Lemma holds_split l (x : A) r c L : holds (Node_ l (El x) r c) L → ∃ L1 L2, L = L1 ++ x :: L2 ∧ holds l L1 ∧ holds r L2.
Proof. intros (L1 & x0 & L2 & -> & H1 & [= <-] & H2)%holds_node. eauto. Qed.

Lemma holds_in l (x : Item A) L : holds l L → x ∈ to_list l → ∃ y, x = El y ∧ y ∈ L.
Proof. unfold holds. intros -> Hx. by apply list_elem_of_fmap in Hx as (y & -> & ?); eauto. Qed.

Section step.
Context (fuel : nat) (IH : ∀ c n t L k, size t < fuel → holds t L → strict L →
  (two c n t → after_delete (shrunk c n) k L (delete Less fuel t (El k))) ∧
  (three c n t ∨ (three_right c n t ∧ root_upto k t) → after_delete (kept c n) k L (delete Less fuel t (El k)))).

Lemma fix_bl c n l (x : Item A) r : bl n l → bl n r → ∃ t, fixUp (Node_ l x r c) = Some t ∧ two c n t.
Proof. intros Hl Hr. rewrite (fixUp_left_two c n) by done. eexists. split; [done|by constructor]. Qed.

(** A 2-node whose item is above the key. *)
Lemma delete_two_left c n l x r L1 L2 k :
  size (Node_ l (El x) r c) < S fuel → holds l L1 → holds r L2 → strict (L1 ++ x :: L2) → bl n l → bl n r → lt k x = true →
  after_delete (shrunk c n) k (L1 ++ x :: L2) (delete Less (S fuel) (Node_ l (El x) r c) (El k)).
Proof.
  intros Hf H1 H2 Hs Hl Hr Hk. cbn [delete]. rewrite less_El, Hk. cbn [mbind option_bind].
  inversion Hl as [|m a y b Ha Hb|m a y b z d Ha Hb Hd]; subst.
  - exists (Node_ Nil (El x) r c). destruct (around_less k x L1 L2 (strict_ordered _ Hs) Hk) as (Hb & Ha & He & _).
    unfold holds in H1. symmetry in H1. apply fmap_nil_inv in H1 as ->. unfold removed. rewrite Hb, Ha, He.
    split_and!; [done|left; by constructor|]. by apply (holds_node_2 Nil x r c [] L2).
  - cbn [isRed negb andb]. rewrite (bl_black m a Ha). cbn [negb].
    destruct (moveRedLeft_spec c m a y b (El x) r Ha Hb Hr) as (l' & z & r' & c' & -> & Hlist & Hcase). cbn [mbind option_bind].
    assert (holds (Node_ l' z r' c') (L1 ++ x :: L2)) as Hh by (unfold holds; rewrite Hlist; by apply holds_node_2).
    apply holds_node in Hh as (M1 & z0 & M2 & HM & Hm1 & -> & Hm2). rewrite HM in *.
    assert (lt k z0 = true) as Hkz.
    { destruct Hcase as [[_ [= ->]]|(_ & _ & _ & Hz)]; [done|]. apply (holds_in r (El z0) L2 H2) in Hz as (w & [= <-] & Hw).
      rewrite <-HM in Hs. by apply (head_not_less k x L1 L2). }
    rewrite size_list, <-Hlist, <-size_list in Hf. pose proof (size_left l' (El z0) r' c') as Hlt.
    destruct (strict_parts _ _ _ Hs) as [Hs1 _].
    destruct Hcase as [[(-> & Hl' & Hr') _]|(-> & Hl' & Hr' & _)].
    + apply (delete_left (shrunk false m)); [done|done|done|apply (IH false m l' M1 k); [lia|done..]|]. intros l2 Hl2. by apply (fixUp_fused_left c m).
    + apply (delete_left (kept true m)); [done|done|done|apply (IH true m l' M1 k); [lia|done..|by left]|]. intros l2 Hl2%kept_bl.
      destruct (fix_bl c (S m) l2 (El z0) r' Hl2 Hr') as (t & Ht & H). exists t. split; [done|by left].
  - cbn [isRed negb andb mbind option_bind]. pose proof (size_left (Node_ (Node_ a y b false) z d true) (El x) r c) as Hlt.
    destruct (strict_parts _ _ _ Hs) as [Hs1 _].
    apply (delete_left (kept true m)); [done|done|done|apply (IH true m _ L1 k); [lia|done..|left; by constructor]|]. intros l2 Hl2%kept_bl.
    destruct (fix_bl c (S m) l2 (El x) r Hl2 Hr) as (t & Ht & H). exists t. split; [done|by left].
Qed.

(** A 2-node whose item is not above the key. *)
Lemma delete_two_right c n l x r L1 L2 k :
  size (Node_ l (El x) r c) < S fuel → holds l L1 → holds r L2 → strict (L1 ++ x :: L2) → bl n l → bl n r → lt k x = false →
  after_delete (shrunk c n) k (L1 ++ x :: L2) (delete Less (S fuel) (Node_ l (El x) r c) (El k)).
Proof.
  intros Hf H1 H2 Hs Hl Hr Hk. cbn [delete]. rewrite less_El, Hk. cbn [mbind option_bind]. rewrite (bl_black n l Hl). cbn [mbind option_bind].
  rewrite less_El. cbn [mbind option_bind]. destruct (strict_parts _ _ _ Hs) as [_ Hs2].
  inversion Hr as [|m a y b Ha Hb|m a y b z d Ha Hb Hd]; subst.
  - apply bl_0 in Hl as ->. unfold holds in H1, H2. symmetry in H1, H2. apply fmap_nil_inv in H1 as ->. apply fmap_nil_inv in H2 as ->.
    destruct (lt x k) eqn:Hk'; cbn [negb].
    + unfold delete_here. rewrite less_El, Hk'. cbn [mbind option_bind negb]. destruct fuel as [|fuel']; [cbn in Hf; lia|]. cbn [delete mbind option_bind].
      destruct (around_greater k x [] [] (strict_ordered _ Hs) Hk') as (Hb & Ha & He).
      exists (Node_ Nil (El x) Nil c). unfold removed. rewrite Hb, Ha, He.
      split_and!; [done|left; repeat constructor|done].
    + destruct (around_equal k x [] [] Hs Hk Hk') as (Hb & Ha & He).
      exists Nil. unfold removed. rewrite Hb, Ha, He. split_and!; [done|by right|done].
  - cbn [isRed negb andb]. rewrite (bl_black m a Ha). cbn [negb].
    destruct (moveRedRight_spec c m l (El x) a y b Ha Hb Hl) as (l' & z & r' & c' & -> & Hlist & Hcase). cbn [mbind option_bind].
    assert (holds (Node_ l' z r' c') (L1 ++ x :: L2)) as Hh by (unfold holds; rewrite Hlist; by apply holds_node_2).
    apply holds_node in Hh as (M1 & z0 & M2 & HM & Hm1 & -> & Hm2). pose proof Hs as HsL. rewrite HM in Hs |- *.
    rewrite size_list, <-Hlist, <-size_list in Hf. pose proof (size_right l' (El z0) r' c') as Hlt.
    destruct (strict_parts _ _ _ Hs) as [_ HsM].
    destruct Hcase as [[(-> & Hl' & Hr') [= <-]]|(-> & Hl' & Hr' & Hz & p & q & ->)].
    + apply (delete_right (shrunk false m)); [done|done|done|done|apply (IH false m r' M2 k); [lia|done..]| |].
      * intros _. apply (deleteMin_spec _ false m); [lia|done].
      * intros r2 w Hr2. by apply (fixUp_fused_right c m).
    + apply (holds_in l (El z0) L1 H1) in Hz as (w & [= <-] & Hw). pose proof (before_less k x L1 L2 z0 HsL Hk Hw) as Hzk.
      apply (delete_right (kept true m)); [done|by apply lt_asym|done|done|apply (IH true m _ M2 k); [lia|done..|right; split; [done|]]| |].
      * intros w (? & ? & ? & [= _ <- _ _]). done.
      * by rewrite Hzk.
      * intros r2 w Hr2%kept_bl. destruct (fix_bl c (S m) l' w r2 Hl' Hr2) as (t & Ht & H). exists t. split; [done|by left].
  - cbn [isRed negb andb mbind option_bind]. pose proof (size_right l (El x) (Node_ (Node_ a y b false) z d true) c) as Hlt.
    apply (delete_right (kept true m)); [done|done|done|done|apply (IH true m _ L2 k); [lia|done..|left; by constructor]| |].
    + intros _. apply (deleteMin_spec _ true m); [lia|by constructor].
    + intros r2 w Hr2%kept_bl. destruct (fix_bl c (S m) l w r2 Hl Hr2) as (t & Ht & H). exists t. split; [done|by left].
Qed.

(** A 3-node, leaning right, whose item is not above the key. *)
Lemma delete_three_right c n a x b (y : Item A) r L1 L2 k :
  size (Node_ b y r false) < fuel → holds a L1 → holds (Node_ b y r false) L2 → strict (L1 ++ x :: L2) →
  bl n a → bl n b → bl n r → lt k x = false →
  after_delete (kept c n) k (L1 ++ x :: L2)
    (delete_here Less (λ r, delete Less fuel r (El k)) (Node_ a (El x) (Node_ b y r false) c) (El k)).
Proof.
  intros Hf H1 H2 Hs Ha Hb Hr Hk. destruct (strict_parts _ _ _ Hs) as [_ Hs2].
  apply (delete_right (shrunk false n)); [done|done|done|done|apply (IH false n _ L2 k); [done|done|done|by constructor]| |].
  - intros _. apply (deleteMin_spec _ false n); [lia|by constructor].
  - intros r2 w Hr2. by apply (fixUp_shrunk_right c n).
Qed.
End step.

Lemma delete_spec fuel c n t L k :
  size t < fuel → holds t L → strict L →
  (two c n t → after_delete (shrunk c n) k L (delete Less fuel t (El k))) ∧
  (three c n t ∨ (three_right c n t ∧ root_upto k t) → after_delete (kept c n) k L (delete Less fuel t (El k))).
Proof.
  revert c n t L k. induction fuel as [|fuel IH]; intros c n t L k Hf HL Hs; [lia|]. split.
  - intros H2. destruct H2 as [l x r Hl Hr] in Hf, HL |- *. apply holds_node in HL as (L1 & x0 & L2 & -> & H1 & -> & H2').
    destruct (lt k x0) eqn:Hk; [by apply delete_two_left|by apply delete_two_right].
  - intros [H3|[H3 Hroot]].
    + destruct H3 as [a x b y r Ha Hb Hr] in Hf, HL |- *. pose proof HL as (L1 & y0 & L2 & -> & H1 & -> & H2)%holds_node.
      pose proof (size_left (Node_ a x b false) (El y0) r c) as Hlt. destruct (strict_parts _ _ _ Hs) as [Hs1 _].
      cbn [delete]. rewrite less_El. cbn [mbind option_bind]. destruct (lt k y0) eqn:Hk.
      * cbn [isRed negb andb mbind option_bind].
        apply (delete_left (shrunk false n)); [done|done|done|apply (IH false n _ L1 k); [lia|done|done|by constructor]|].
        intros l2 Hl2. by apply (fixUp_shrunk_left c n).
      * cbn [isRed negb rotateRight mbind option_bind]. pose proof H1 as (K1 & x0 & K2 & -> & HK1 & -> & HK2)%holds_node.
        rewrite less_El. cbn [isRed negb andb mbind option_bind].
        assert (lt x0 k = true) as Hxk by (apply (before_less k y0 _ _ x0 Hs Hk); set_solver).
        rewrite <-app_assoc in Hs |- *. cbn [app] in Hs |- *.
        apply (delete_three_right fuel IH c n); [cbn in *; lia|done|by apply holds_node_2|done|done|done|done|by apply lt_asym].
    + destruct H3 as [a x b y r Ha Hb Hr] in Hf, HL, Hroot |- *. pose proof HL as (L1 & x0 & L2 & -> & H1 & -> & H2)%holds_node.
      assert (lt k x0 = false) as Hk by (apply Hroot; eauto). cbn [delete]. rewrite less_El, Hk. cbn [mbind option_bind].
      rewrite (bl_black n a Ha). cbn [mbind option_bind]. rewrite less_El. cbn [isRed negb andb mbind option_bind].
      pose proof (size_right a (El x0) (Node_ b y r false) c) as Hlt. apply (delete_three_right fuel IH c n); try done. lia.
Qed.

(** ** The whole tree *)
Definition valid (t : LLRB (A := A)) L : Prop :=
  (∃ n, bl n (root t)) ∧ holds (root t) L ∧ count t = Z.of_nat (length L).

Lemma blacken_holds t L : holds t L → holds (blacken t) L.
Proof. by destruct t. Qed.

Lemma blacken_grown n (t : Node (A := A)) : grown n t → ∃ m, bl m (blacken t).
Proof. intros [[]|[]]; eexists; cbn; eauto with llrb. Qed.

Lemma blacken_shrunk n (t : Node (A := A)) : shrunk true n t → ∃ m, bl m (blacken t).
Proof.
  intros [[]|H]; [eexists; cbn; eauto with llrb|]. destruct n as [|n]; [subst; eexists; cbn; eauto with llrb|].
  destruct H as [[]|[]]; eexists; cbn; eauto with llrb.
Qed.

Lemma shrunk_kept n (t : Node (A := A)) : kept true n t → ∃ m, bl m (blacken t).
Proof. intros [[]|[]]; eexists; cbn; eauto with llrb. Qed.

Lemma insert_valid (t : LLRB (A := A)) L k :
  valid t L → ordered L → ∃ t', InsertNoReplace Less (Some (El k)) t = Some t' ∧ valid t' (inserted_after k L).
Proof.
  intros ([n Hn] & HL & Hc) Hs. destruct (insertNoReplace_spec (root t) L k n HL Hs (or_introl Hn)) as (h & Hi & [Hok _] & Hh).
  unfold InsertNoReplace. cbn [mbind option_bind]. rewrite Hi. eexists. split; [done|]. split_and!.
  - by apply (blacken_grown n), Hok.
  - by apply blacken_holds.
  - cbn. rewrite Hc. unfold inserted_after. rewrite length_app. cbn. enough (length L = length (upto k L) + length (above k L)) by lia.
    clear -lt. unfold upto, above. induction L as [|x L IH]; [done|]. rewrite !filter_cons.
    repeat case_decide; cbn; try lia; by destruct (lt k x).
Qed.

Lemma equal_length_El k L : strict L → length (equal k L) = if bool_decide (is_Some (El <$> head (equal k L))) then 1 else 0.
Proof. intros Hs. rewrite (equal_length k L Hs). by destruct (head (equal k L)). Qed.

Lemma replace_valid (t : LLRB (A := A)) L k :
  valid t L → strict L →
  ∃ t', ReplaceOrInsert Less (Some (El k)) t = Some (El <$> head (equal k L), t') ∧ valid t' (inserted k L).
Proof.
  intros ([n Hn] & HL & Hc) Hs. destruct (replaceOrInsert_spec (root t) L k n HL Hs (or_introl Hn)) as (h & Hi & [Hok _] & Hh).
  unfold ReplaceOrInsert. cbn [mbind option_bind]. rewrite Hi. cbn [mbind option_bind]. eexists. split; [done|]. split_and!.
  - by apply (blacken_grown n), Hok.
  - by apply blacken_holds.
  - cbn [count]. rewrite Hc. unfold inserted. rewrite length_app. cbn [length]. pose proof (parts_length k L) as Hp.
    pose proof (equal_length_El k L Hs) as He. case_bool_decide; lia.
Qed.

(** What the three deleting operations share. *)
Lemma deleted_valid (t : LLRB (A := A)) h (d : option (Item A)) L' :
  (∃ m, bl m (blacken h)) → holds h L' → count t = (Z.of_nat (length L') + if bool_decide (is_Some d) then 1 else 0)%Z →
  ∃ t', deleted_from t (Some (h, d)) = Some (d, t') ∧ valid t' L'.
Proof.
  intros Hb Hh Hc. unfold deleted_from. cbn [mbind option_bind]. eexists. split; [done|]. split_and!; [done|by apply blacken_holds|].
  cbn. case_bool_decide; lia.
Qed.

Lemma bl_root n (t : Node (A := A)) : bl n t → t = Nil ∨ ∃ m, two true m t ∨ three true m t.
Proof. destruct 1; [by left|right; eexists; left; by constructor|right; eexists; right; by constructor]. Qed.

Lemma delete_valid (t : LLRB (A := A)) L k :
  valid t L → strict L →
  ∃ t', Delete Less (El k) t = Some (El <$> head (equal k L), t') ∧ valid t' (removed k L).
Proof.
  intros ([n Hn] & HL & Hc) Hs. unfold Delete.
  assert (∃ h, delete Less (S (size (root t))) (root t) (El k) = Some (h, El <$> head (equal k L)) ∧
    (∃ m, bl m (blacken h)) ∧ holds h (removed k L)) as (h & -> & Hb & Hh).
  { destruct (bl_root n _ Hn) as [Hnil|(m & Hm)].
    - rewrite Hnil in HL |- *. unfold holds in HL. symmetry in HL. apply fmap_nil_inv in HL as ->.
      exists Nil. split_and!; [done|exists 0; constructor|done].
    - destruct (delete_spec (S (size (root t))) true m (root t) L k) as [H2 H3]; [lia|done|done|].
      destruct Hm as [Hm|Hm]; [destruct (H2 Hm) as (h & -> & Hb & Hh)|destruct (H3 (or_introl Hm)) as (h & -> & Hb & Hh)];
        exists h; split_and!; [done|by apply (blacken_shrunk m)|done|done|by apply (shrunk_kept m)|done]. }
  apply deleted_valid; [done|done|]. rewrite Hc. unfold removed. rewrite length_app.
  pose proof (parts_length k L) as Hp. pose proof (equal_length_El k L Hs) as He. case_bool_decide; lia.
Qed.

Lemma deleteMin_valid (t : LLRB (A := A)) L :
  valid t L → ∃ t', DeleteMin t = Some (El <$> head L, t') ∧ valid t' (tail L).
Proof.
  intros ([n Hn] & HL & Hc). unfold DeleteMin. destruct (bl_root n _ Hn) as [Hnil|(m & Hm)].
  - rewrite Hnil in HL |- *. unfold holds in HL. symmetry in HL. apply fmap_nil_inv in HL as ->.
    apply (deleted_valid t Nil None []); [exists 0; constructor|done|]. cbn. by rewrite Hc.
  - destruct (deleteMin_spec (S (size (root t))) true m (root t)) as [H2 H3]; [lia|].
    assert (∃ h (x : Item A), deleteMin (S (size (root t))) (root t) = Some (h, Some x) ∧ (∃ m, bl m (blacken h)) ∧
      to_list (root t) = x :: to_list h) as (h & x & -> & Hb & Hx).
    { destruct Hm as [Hm|Hm]; [destruct (H2 Hm) as (h & x & -> & Hb & Hx)|destruct (H3 Hm) as (h & x & -> & Hb & Hx)];
        exists h, x; split_and!; [done|by apply (blacken_shrunk m)|done|done|by apply (shrunk_kept m)|done]. }
    unfold holds in HL. rewrite HL in Hx. apply fmap_cons_inv in Hx as (x0 & L' & -> & Hx & ->).
    apply deleted_valid; [done|done|]. rewrite Hc. cbn. lia.
Qed.

Lemma deleteMax_valid (t : LLRB (A := A)) L :
  valid t L → ∃ t', DeleteMax t = Some (El <$> last L, t') ∧ valid t' (removelast L).
Proof.
  intros ([n Hn] & HL & Hc). unfold DeleteMax. destruct (bl_root n _ Hn) as [Hnil|(m & Hm)].
  - rewrite Hnil in HL |- *. unfold holds in HL. symmetry in HL. apply fmap_nil_inv in HL as ->.
    apply (deleted_valid t Nil None []); [exists 0; constructor|done|]. cbn. by rewrite Hc.
  - destruct (deleteMax_spec (S (size (root t))) true m (root t)) as [H2 H3]; [lia|].
    assert (∃ h (x : Item A), deleteMax (S (size (root t))) (root t) = Some (h, Some x) ∧ (∃ m, bl m (blacken h)) ∧
      to_list (root t) = to_list h ++ [x]) as (h & x & -> & Hb & Hx).
    { destruct Hm as [Hm|Hm]; [destruct (H2 Hm) as (h & x & -> & Hb & Hx)|destruct (H3 (or_introl Hm)) as (h & x & -> & Hb & Hx)];
        exists h, x; split_and!; [done|by apply (blacken_shrunk m)|done|done|by apply (shrunk_kept m)|done]. }
    unfold holds in HL. rewrite HL in Hx. apply fmap_app_inv in Hx as (L' & Lx & Hh & Hx & ->).
    symmetry in Hx. apply fmap_cons_inv in Hx as (x0 & Ln & -> & Hn' & ->). symmetry in Hn'. apply fmap_nil_inv in Hn' as ->.
    rewrite last_snoc, removelast_last. apply deleted_valid; [done|done|]. rewrite Hc, length_app. cbn. lia.
Qed.
End map.
