(* ===== verification/LlrbRefinement.v ===== *)
(** * What the trees of GoLLRB promise (github.com/petar/GoLLRB/llrb: llrb.go, iterator.go)

    Any sequence of operations on a new tree, against the list of its items in order; the
    height of the trees; what the iterators visit; and where the code departs from this. *)

From S2P Require Import Prelude SortedLists Llrb LlrbBalance LlrbMap.

(** ** Sequences of operations *)
Inductive llrb_op (A : Type) : Type :=
| DoReplaceOrInsert (k : A)
| DoInsertNoReplace (k : A)
| DoDeleteMin
| DoDeleteMax
| DoDelete (k : A).
Arguments DoReplaceOrInsert {A} _.
Arguments DoInsertNoReplace {A} _.
Arguments DoDeleteMin {A}.
Arguments DoDeleteMax {A}.
Arguments DoDelete {A} _.

Section refinement.
Context {A : Type} (Less : A → Item A → option bool) (lt : A → A → bool).
Implicit Types (k x y : A) (L : list A).

Definition do_op (o : llrb_op A) (t : LLRB (A := A)) : option (option (Item A) * LLRB (A := A)) :=
  match o with
  | DoReplaceOrInsert k => ReplaceOrInsert Less (Some (El k)) t
  | DoInsertNoReplace k => t ← InsertNoReplace Less (Some (El k)) t; Some (None, t)
  | DoDeleteMin => DeleteMin t
  | DoDeleteMax => DeleteMax t
  | DoDelete k => Delete Less (El k) t
  end.

Fixpoint do_ops (os : list (llrb_op A)) (t : LLRB (A := A)) : option (list (option (Item A)) * LLRB (A := A)) :=
  match os with
  | [] => Some ([], t)
  | o :: os' => '(r, t) ← do_op o t; '(rs, t) ← do_ops os' t; Some (r :: rs, t)
  end.

(** The same on the list of the items. *)
Definition list_op (o : llrb_op A) L : option A * list A :=
  match o with
  | DoReplaceOrInsert k => (head (equal lt k L), inserted lt k L)
  | DoInsertNoReplace k => (None, inserted_after lt k L)
  | DoDeleteMin => (head L, tail L)
  | DoDeleteMax => (last L, removelast L)
  | DoDelete k => (head (equal lt k L), removed lt k L)
  end.

Fixpoint list_ops (os : list (llrb_op A)) L : list (option A) * list A :=
  match os with
  | [] => ([], L)
  | o :: os' => let '(r, L) := list_op o L in let '(rs, L) := list_ops os' L in (r :: rs, L)
  end.

Definition items_of (rs : list (option A)) : list (option (Item A)) := (λ r : option A, El <$> r) <$> rs.

Definition keeps_distinct (o : llrb_op A) : Prop := ∀ k, o ≠ DoInsertNoReplace k.
Definition keeps_equal (o : llrb_op A) : Prop := ∀ k, o ≠ DoDelete k ∧ o ≠ DoReplaceOrInsert k.

Context `{!item_order Less lt}.

Lemma do_op_strict o t L :
  keeps_distinct o → valid t L → strict lt L →
  ∃ t', do_op o t = Some (El <$> (list_op o L).1, t') ∧ valid t' (list_op o L).2 ∧ strict lt (list_op o L).2.
Proof.
  intros Ho Hv Hs. destruct o as [k|k| | |k]; cbn [do_op list_op fst snd].
  - destruct (replace_valid Less lt t L k Hv Hs) as (t' & -> & Hv'). exists t'. split_and!; [done..|by apply strict_inserted].
  - by destruct (Ho k).
  - destruct (deleteMin_valid t L Hv) as (t' & -> & Hv'). exists t'. split_and!; [done..|by apply sorted_tail].
  - destruct (deleteMax_valid t L Hv) as (t' & -> & Hv'). exists t'. split_and!; [done..|by apply sorted_removelast].
  - destruct (delete_valid Less lt t L k Hv Hs) as (t' & -> & Hv'). exists t'. split_and!; [done..|by apply strict_removed].
Qed.

Lemma do_op_ordered o t L :
  keeps_equal o → valid t L → ordered lt L →
  ∃ t', do_op o t = Some (El <$> (list_op o L).1, t') ∧ valid t' (list_op o L).2 ∧ ordered lt (list_op o L).2.
Proof.
  intros Ho Hv Hs. destruct o as [k|k| | |k]; cbn [do_op list_op fst snd].
  - by destruct (Ho k).
  - destruct (insert_valid Less lt t L k Hv Hs) as (t' & -> & Hv'). exists t'. split_and!; [done..|by apply ordered_inserted_after].
  - destruct (deleteMin_valid t L Hv) as (t' & -> & Hv'). exists t'. split_and!; [done..|by apply sorted_tail].
  - destruct (deleteMax_valid t L Hv) as (t' & -> & Hv'). exists t'. split_and!; [done..|by apply sorted_removelast].
  - by destruct (Ho k).
Qed.

Lemma do_ops_steps (I : list A → Prop) (ok : llrb_op A → Prop) os t L :
  (∀ o t L, ok o → valid t L → I L → ∃ t', do_op o t = Some (El <$> ((list_op o L).1 : option A), t') ∧ valid t' (list_op o L).2 ∧ I (list_op o L).2) →
  Forall ok os → valid t L → I L →
  ∃ t', do_ops os t = Some (items_of (list_ops os L).1, t') ∧ valid t' (list_ops os L).2 ∧ I (list_ops os L).2.
Proof.
  intros Hstep Hos. revert t L. induction Hos as [|o os Ho _ IH]; intros t L Hv HI; cbn; [by exists t|].
  destruct (Hstep o t L Ho Hv HI) as (t1 & -> & Hv1 & HI1). cbn. destruct (list_op o L) as [r L1]. cbn in *.
  destruct (IH t1 L1 Hv1 HI1) as (t2 & -> & Hv2 & HI2). cbn. destruct (list_ops os L1) as [rs L2]. eauto.
Qed.

Lemma valid_New : valid (New (A := A)) [].
Proof. split_and!; [exists 0; constructor|done|done]. Qed.

Lemma leftmost_head l (x : Item A) : head (to_list l ++ [x]) = Some (leftmost l x).
Proof. revert x. induction l as [|l IH y r _ c]; intros x; [done|]. cbn. rewrite <-app_assoc. specialize (IH y). by destruct (to_list l). Qed.

Lemma rightmost_last r (x : Item A) : last (x :: to_list r) = Some (rightmost x r).
Proof.
  revert x. induction r as [|l _ y r IH c]; intros x; [done|]. cbn [to_list rightmost].
  change (x :: to_list l ++ y :: to_list r) with ((x :: to_list l) ++ y :: to_list r). by rewrite last_app, IH.
Qed.

Lemma valid_Min t L : valid t L → Min t = El <$> head L.
Proof.
  intros (_ & HL & _). unfold Min. unfold holds in HL. destruct (root t) as [|l x r c].
  - symmetry in HL. by apply fmap_nil_inv in HL as ->.
  - rewrite <-leftmost_head. cbn in HL.
    assert (head (to_list l ++ [x]) = head (to_list l ++ x :: to_list r)) as -> by by destruct (to_list l). rewrite HL. by destruct L.
Qed.

Lemma valid_Max t L : valid t L → Max t = El <$> last L.
Proof.
  intros (_ & HL & _). unfold Max. unfold holds in HL. destruct (root t) as [|l x r c].
  - symmetry in HL. by apply fmap_nil_inv in HL as ->.
  - cbn in HL. rewrite <-fmap_last, <-HL, last_app, rightmost_last. done.
Qed.

(** [C16] A tree without duplicates refines the sorted list of its items: whatever items
    are replaced or inserted and deleted, no call panics, each returns what the list
    operation returns, and the tree then answers [Get], [Has], [Min], [Max] and [Len]
    from that list. *)
Theorem llrb_refines_sorted_list os :
  Forall keeps_distinct os →
  let '(rs, L) := list_ops os [] in
  ∃ t, do_ops os New = Some (items_of rs, t) ∧ strict lt L ∧ to_list (root t) = El <$> L ∧ Len t = Z.of_nat (length L) ∧
    (∀ k, Get Less (El k) t = Some (El <$> head (equal lt k L)) ∧
          Has Less (El k) t = Some (bool_decide (equal lt k L ≠ []))) ∧
    Min t = El <$> head L ∧ Max t = El <$> last L.
Proof.
  intros Hos. destruct (do_ops_steps (strict lt) keeps_distinct os New [] do_op_strict Hos valid_New) as (t & Hdo & Hv & Hs).
  { constructor. }
  destruct (list_ops os []) as [rs L]. cbn [fst snd] in *. pose proof Hv as (_ & HL & Hc).
  assert (∀ k, Get Less (El k) t = Some (El <$> head (equal lt k L))) as HG by (intros k; by apply (get_from_spec Less lt)).
  exists t. split_and!; [done..| |by apply valid_Min|by apply valid_Max].
  intros k. split; [apply HG|]. unfold Has. rewrite HG. cbn. f_equal. apply bool_decide_ext.
  destruct (equal lt k L); cbn; split; (done || by eexists || by intros [? ?]).
Qed.

(** With duplicates: items inserted without replacing go behind their equals, and the
    first and the last item are what [DeleteMin] and [DeleteMax] take. *)
Theorem llrb_keeps_duplicates os :
  Forall keeps_equal os →
  let '(rs, L) := list_ops os [] in
  ∃ t, do_ops os New = Some (items_of rs, t) ∧ ordered lt L ∧ to_list (root t) = El <$> L ∧ Len t = Z.of_nat (length L) ∧
    Min t = El <$> head L ∧ Max t = El <$> last L.
Proof.
  intros Hos. destruct (do_ops_steps (ordered lt) keeps_equal os New [] do_op_ordered Hos valid_New) as (t & Hdo & Hv & Hs).
  { constructor. }
  destruct (list_ops os []) as [rs L]. cbn [fst snd] in *. pose proof Hv as (_ & HL & Hc).
  exists t. split_and!; [done..|by apply valid_Min|by apply valid_Max].
Qed.

(** ** Height *)
Fixpoint height (h : Node (A := A)) : nat :=
  match h with Nil => 0 | Node_ l _ r _ => S (max (height l) (height r)) end.

Lemma bl_bounds n h : bl n h → height h ≤ 2 * n ∧ 2 ^ n ≤ S (size h).
Proof.
  induction 1 as [|n l x r _ [IHl Sl] _ [IHr Sr]|n a x b y r _ [IHa Sa] _ [IHb Sb] _ [IHr Sr]]; cbn in *; lia.
Qed.

(** Trees stay balanced: without duplicates or without [Delete], no path from the root
    is longer than twice the logarithm of the number of items plus one. *)
Theorem llrb_balanced os :
  Forall keeps_distinct os ∨ Forall keeps_equal os →
  ∃ rs t, do_ops os New = Some (rs, t) ∧ height (root t) ≤ 2 * Nat.log2 (S (Z.to_nat (Len t))).
Proof.
  intros Hos. assert (∃ t, do_ops os New = Some (items_of (list_ops os []).1, t) ∧ valid t (list_ops os []).2)
    as (t & Hdo & [n Hn] & HL & Hc).
  { destruct Hos as [Hos|Hos].
    - destruct (do_ops_steps (strict lt) keeps_distinct os New [] do_op_strict Hos valid_New) as (t & ? & ? & _); [constructor|eauto].
    - destruct (do_ops_steps (ordered lt) keeps_equal os New [] do_op_ordered Hos valid_New) as (t & ? & ? & _); [constructor|eauto]. }
  eexists _, t. split; [done|]. unfold Len. rewrite Hc, Nat2Z.id. destruct (bl_bounds n _ Hn) as [Hh Hsz].
  rewrite size_list in Hsz. unfold holds in HL. rewrite HL, length_fmap in Hsz.
  assert (n ≤ Nat.log2 (S (length (list_ops os []).2))); [|lia]. apply Nat.log2_le_pow2; lia.
Qed.

(** ** Iteration *)
Section iteration.
Context {R : Type} (iterator : Item A → R → bool * R).

(** Visiting items in turn until the callback has enough. *)
Fixpoint visit_all (l : list (Item A)) (s : R) : bool * R :=
  match l with
  | [] => (true, s)
  | x :: l' => let '(go, s) := iterator x s in if go : bool then visit_all l' s else (false, s)
  end.

(** A walk that visits the items of a list. *)
Definition visits (w : R → option (bool * R)) L : Prop := ∀ s, w s = Some (visit_all (El <$> L) s).

Lemma visits_nil : visits (λ s, Some (true, s)) [].
Proof. done. Qed.

Lemma visits_app w1 w2 L1 L2 : visits w1 L1 → visits w2 L2 → visits (and_then w1 w2) (L1 ++ L2).
Proof.
  intros H1 H2 s. unfold and_then. rewrite H1. cbn. rewrite fmap_app. revert s. generalize (El <$> L1). intros l.
  induction l as [|x l IH]; intros s; cbn; [apply H2|]. destruct (iterator x s) as [[] s']; [apply IH|done].
Qed.

Lemma visits_one x : visits (visit iterator (El x)) [x].
Proof. intros s. unfold visit. cbn. by destruct (iterator (El x) s) as [[] s']. Qed.

Lemma visits_around w1 w2 x L1 L2 :
  visits w1 L1 → visits w2 L2 → visits (and_then w1 (and_then (visit iterator (El x)) w2)) (L1 ++ x :: L2).
Proof. intros H1 H2. apply visits_app; [done|]. by apply (visits_app _ _ [x]); [apply visits_one|]. Qed.

Definition between a b L : list A := filter (λ x, lt x a = false ∧ lt x b = true) L.
Definition from_on a L : list A := filter (λ x, lt x a = false) L.

Lemma filter_app_cons (P : A → Prop) `{∀ x, Decision (P x)} L1 x L2 :
  filter P (L1 ++ x :: L2) = filter P L1 ++ (if decide (P x) then [x] else []) ++ filter P L2.
Proof. rewrite filter_app, filter_cons. by case_decide. Qed.

Lemma ascendRange_visits h L a b :
  holds h L → ordered lt L → visits (ascendRange Less iterator h (El a) (El b)) (between a b L).
Proof.
  revert L. induction h as [|l IHl x r IHr c]; intros L HL Hs.
  { unfold holds in HL. symmetry in HL. apply fmap_nil_inv in HL as ->. apply visits_nil. }
  apply holds_node in HL as (L1 & x0 & L2 & -> & H1 & -> & H2). destruct (ordered_parts lt _ _ _ Hs) as [Hs1 Hs2].
  apply sorted_around in Hs as (_ & _ & Hx1 & Hx2). unfold between. rewrite filter_app_cons.
  intros s. cbn [ascendRange]. rewrite !(less_El Less lt). cbn [mbind option_bind].
  destruct (lt x0 b) eqn:Hb; cbn [negb].
  - destruct (lt x0 a) eqn:Ha.
    + rewrite decide_False by naive_solver. cbn. rewrite filter_none; [by apply IHr|].
      apply (Forall_impl _ _ _ Hx1). intros y Hy [Hya _]. by rewrite (le_lt y x0 a) in Hya.
    + rewrite decide_True by done. apply (visits_around _ _ x0 (between a b L1) (between a b L2)); [by apply IHl|by apply IHr].
  - rewrite decide_False by naive_solver. cbn. rewrite (filter_none _ L2), app_nil_r; [by apply IHl|].
    apply (Forall_impl _ _ _ Hx2). intros y Hy [_ Hyb].
    rewrite (le_lt x0 y b Hy Hyb) in Hb. done.
Qed.

Lemma ascendGreaterOrEqual_visits h L a :
  holds h L → ordered lt L → visits (ascendGreaterOrEqual Less iterator h (El a)) (from_on a L).
Proof.
  revert L. induction h as [|l IHl x r IHr c]; intros L HL Hs.
  { unfold holds in HL. symmetry in HL. apply fmap_nil_inv in HL as ->. apply visits_nil. }
  apply holds_node in HL as (L1 & x0 & L2 & -> & H1 & -> & H2). destruct (ordered_parts lt _ _ _ Hs) as [Hs1 Hs2].
  apply sorted_around in Hs as (_ & _ & Hx1 & Hx2). unfold from_on. rewrite filter_app_cons.
  intros s. cbn [ascendGreaterOrEqual]. rewrite !(less_El Less lt). cbn [mbind option_bind].
  destruct (lt x0 a) eqn:Ha; cbn [negb].
  - rewrite decide_False by done. cbn. rewrite filter_none; [by apply IHr|].
    apply (Forall_impl _ _ _ Hx1). intros y Hy Hya. by rewrite (le_lt y x0 a) in Hya.
  - rewrite decide_True by done. apply (visits_around _ _ x0 (from_on a L1) (from_on a L2)); [by apply IHl|by apply IHr].
Qed.

Lemma descendLessOrEqual_visits h L a :
  holds h L → ordered lt L → visits (descendLessOrEqual Less iterator h (El a)) (reverse (upto lt a L)).
Proof.
  revert L. induction h as [|l IHl x r IHr c]; intros L HL Hs.
  { unfold holds in HL. symmetry in HL. apply fmap_nil_inv in HL as ->. apply visits_nil. }
  apply holds_node in HL as (L1 & x0 & L2 & -> & H1 & -> & H2). destruct (ordered_parts lt _ _ _ Hs) as [Hs1 Hs2].
  intros s. cbn [descendLessOrEqual]. rewrite !(less_El Less lt). cbn [mbind option_bind].
  assert ((if lt x0 a then Some true else Some (negb (lt a x0))) = Some (negb (lt a x0))) as ->.
  { destruct (lt x0 a) eqn:Ha; [by rewrite (lt_asym x0 a Ha)|done]. }
  cbn [mbind option_bind]. destruct (lt a x0) eqn:Ha; cbn [negb].
  - destruct (around_less a x0 L1 L2 Hs Ha) as (_ & _ & _ & ->). by apply IHl.
  - destruct (around_not_less a x0 L1 L2 Hs Ha) as (-> & _). rewrite reverse_app, reverse_cons, <-app_assoc.
    apply (visits_around _ _ x0 (reverse (upto lt a L2)) (reverse L1)); [by apply IHr|].
    assert (upto lt a L1 = L1) as <-; [|by apply IHl].
    apply sorted_around in Hs as (_ & _ & Hx1 & _). apply filter_all. apply (Forall_impl _ _ _ Hx1).
    intros y Hy. by apply (le_le y x0 a).
Qed.

(** The iterators visit exactly the items of their range, in ascending order, or
    descending for the last, until the callback returns false. *)
Theorem iterators_exact t L a b s :
  to_list (root t) = El <$> L → ordered lt L →
  AscendRange Less iterator (El a) (El b) t s = Some (visit_all (El <$> between a b L) s).2 ∧
  AscendGreaterOrEqual Less iterator (El a) t s = Some (visit_all (El <$> from_on a L) s).2 ∧
  DescendLessOrEqual Less iterator (El b) t s = Some (visit_all (El <$> reverse (upto lt b L)) s).2.
Proof.
  intros HL Hs. unfold AscendRange, AscendGreaterOrEqual, DescendLessOrEqual.
  rewrite (ascendRange_visits _ L a b HL Hs), (ascendGreaterOrEqual_visits _ L a HL Hs), (descendLessOrEqual_visits _ L b HL Hs).
  done.
Qed.
End iteration.
End refinement.

(** ** Integers as items: [Int] of util.go, whose [Less] asserts that the other is one *)
Definition Int_Less (x : Z) (than : Item Z) : option bool :=
  match than with El y => Some (bool_decide (x < y)%Z) | _ => None end.

#[export] Instance Int_order : item_order Int_Less int_lt.
Proof. split; [done|apply _]. Qed.

Definition ex_ops : list (llrb_op Z) :=
  [DoReplaceOrInsert 5; DoReplaceOrInsert 2; DoReplaceOrInsert 8; DoReplaceOrInsert 1; DoReplaceOrInsert 2;
   DoDelete 5; DoDeleteMin; DoDelete 7; DoDeleteMax]%Z.

Lemma llrb_refines_sorted_list_witness :
  ∃ t, do_ops Int_Less ex_ops New =
      Some ([None; None; None; None; Some (El 2); Some (El 5); Some (El 1); None; Some (El 8)]%Z, t) ∧
    strict int_lt [2%Z] ∧ to_list (root t) = El <$> [2%Z] ∧ Len t = 1%Z ∧
    (∀ k, Get Int_Less (El k) t = Some (El <$> head (equal int_lt k [2%Z])) ∧
          Has Int_Less (El k) t = Some (bool_decide (equal int_lt k [2%Z] ≠ []))) ∧
    Min t = Some (El 2%Z) ∧ Max t = Some (El 2%Z).
Proof.
  apply (llrb_refines_sorted_list Int_Less int_lt ex_ops). by repeat constructor.
Defined.

Definition ex_duplicates : list (llrb_op Z) :=
  [DoInsertNoReplace 2; DoInsertNoReplace 2; DoInsertNoReplace 3; DoInsertNoReplace 1; DoDeleteMax]%Z.

Lemma llrb_keeps_duplicates_witness :
  ∃ t, do_ops Int_Less ex_duplicates New = Some ([None; None; None; None; Some (El 3)]%Z, t) ∧
    ordered int_lt [1; 2; 2]%Z ∧ to_list (root t) = El <$> [1; 2; 2]%Z ∧ Len t = 3%Z ∧
    Min t = Some (El 1%Z) ∧ Max t = Some (El 2%Z).
Proof. apply (llrb_keeps_duplicates Int_Less int_lt ex_duplicates). by repeat constructor. Defined.

Lemma llrb_balanced_witness :
  ∃ rs t, do_ops Int_Less ex_ops New = Some (rs, t) ∧ height (root t) ≤ 2 * Nat.log2 (S (Z.to_nat (Len t))).
Proof. apply (llrb_balanced Int_Less int_lt). left. by repeat constructor. Defined.

(** The items a callback that never stops has seen. *)
Definition collect (x : Item Z) (s : list (Item Z)) : bool * list (Item Z) := (true, s ++ [x]).

Definition tree_of (ks : list Z) : LLRB := default New (ReplaceOrInsertBulk Int_Less ((λ k, Some (El k)) <$> ks) New).

Lemma iterators_exact_witness :
  AscendRange Int_Less collect (El 2%Z) (El 4%Z) (tree_of [4; 1; 3; 2]%Z) [] = Some [El 2%Z; El 3%Z] ∧
  AscendGreaterOrEqual Int_Less collect (El 2%Z) (tree_of [4; 1; 3; 2]%Z) [] = Some [El 2%Z; El 3%Z; El 4%Z] ∧
  DescendLessOrEqual Int_Less collect (El 4%Z) (tree_of [4; 1; 3; 2]%Z) [] = Some [El 4%Z; El 3%Z; El 2%Z; El 1%Z].
Proof.
  apply (iterators_exact Int_Less int_lt collect (tree_of [4; 1; 3; 2]%Z) [1; 2; 3; 4]%Z 2%Z 4%Z []); [vm_compute; reflexivity|].
  repeat constructor.
Defined.

(** ** Where the code departs from what it says *)

(** With duplicates, deleting one item can lose another: [Delete 2] of 1, 2, 2, 3
    leaves only 1 and 2, with a count of three. *)
Theorem Delete_loses_item :
  ∃ rs t d t', do_ops Int_Less (DoInsertNoReplace <$> [2; 2; 3; 1]%Z) New = Some (rs, t) ∧
    to_list (root t) = El <$> [1; 2; 2; 3]%Z ∧ Delete Int_Less (El 2%Z) t = Some (Some d, t') ∧
    to_list (root t') = El <$> [1; 2]%Z ∧ Len t' = 3%Z.
Proof. eexists _, _, _, _. by vm_compute. Qed.

(** [AscendLessThan] goes left twice and never right: it visits 1 twice, misses 3, and
    visits an item that is not below the pivot. *)
Theorem AscendLessThan_wrong :
  AscendLessThan Int_Less collect (El 4%Z) (tree_of [2; 1; 3]%Z) [] = Some [El 1%Z; El 2%Z; El 1%Z] ∧
  AscendLessThan Int_Less collect (El 1%Z) (tree_of [2; 1; 3]%Z) [] = Some [El 1%Z; El 2%Z].
Proof. by vm_compute. Qed.

(** The infinite items cannot stand on the right of a comparison: looking one up in a
    tree of the package's own integers, or iterating up to one, panics. *)
Theorem Inf_panics :
  Inf (A := Z) 1 = Some PInf ∧ Inf (A := Z) (-1) = Some NInf ∧
  Get Int_Less PInf (tree_of [1]%Z) = None ∧
  AscendRange Int_Less collect (El 1%Z) PInf (tree_of [1]%Z) [] = None ∧
  AscendGreaterOrEqual Int_Less collect NInf (tree_of [1]%Z) [] = None.
Proof. by vm_compute. Qed.
