(* ===== verification/ContainerHeap.v ===== *)
(** * The standard library's container/heap

    The heap algorithms the vendored code calls, over the [heap.Interface] the clients
    implement: [HeapInterface] has its methods, [HeapLaws] what they promise of the
    sequence of elements they stand for.  Clients are the keyed heap of the client-go
    cache and the priority queue of the delaying work queue. *)

From S2P Require Import Prelude.

(** [X] is what is pushed, [Y] what popping gives back. *)
Class HeapInterface (S X Y : Type) := {
  hLen : S → nat;
  hLess : nat → nat → S → bool;
  hSwap : nat → nat → S → S;
  hPush : X → S → S;
  hPop : S → Y * S;
}.

(** ** Exchanging two elements of a list *)
Definition swap {X} (i j : nat) (l : list X) : list X :=
  match l !! i, l !! j with
  | Some x, Some y => <[i := y]> (<[j := x]> l)
  | _, _ => l
  end.

Section swap.
Context {X : Type}.
Implicit Types l : list X.

Lemma length_swap i j l : length (swap i j l) = length l.
Proof. unfold swap. destruct (l !! i), (l !! j); by rewrite ?length_insert. Qed.

Lemma lookup_swap i j l k :
  i < length l → j < length l →
  swap i j l !! k = if decide (k = i) then l !! j else if decide (k = j) then l !! i else l !! k.
Proof.
  intros Hi Hj. unfold swap. destruct (lookup_lt_is_Some_2 l i Hi) as [x Hx].
  destruct (lookup_lt_is_Some_2 l j Hj) as [y Hy]. rewrite Hx, Hy.
  repeat case_decide; subst.
  - apply list_lookup_insert_eq. by rewrite length_insert.
  - rewrite list_lookup_insert_ne by done. by apply list_lookup_insert_eq.
  - by rewrite !list_lookup_insert_ne.
Qed.

Lemma swap_diag i l : swap i i l = l.
Proof.
  unfold swap. destruct (l !! i) as [x|] eqn:E; [|done].
  by rewrite (list_insert_id l i x E), list_insert_id.
Qed.

Lemma swap_perm i j l : swap i j l ≡ₚ l.
Proof.
  destruct (decide (i < length l ∧ j < length l)) as [[Hi Hj]|Hn].
  - apply Permutation_inj. split; [apply length_swap|].
    exists (λ k, if decide (k = i) then j else if decide (k = j) then i else k). split.
    + intros a b. repeat case_decide; congruence.
    + intros k. rewrite lookup_swap by done. repeat case_decide; subst; done.
  - unfold swap. destruct (l !! i) eqn:Ei, (l !! j) eqn:Ej; try done.
    apply lookup_lt_Some in Ei. apply lookup_lt_Some in Ej. naive_solver.
Qed.
End swap.

Class HeapLaws (S X Y : Type) `{HeapInterface S X Y} (lt : X → X → bool) := {
  elems : S → list X;
  hwf : S → Prop;          (* the client's own invariant *)
  hfresh : X → S → Prop;   (* what may be pushed *)
  out : X → Y;
  hLen_law s : hLen s = length (elems s);
  hLess_law i j s x y :
    hwf s → elems s !! i = Some x → elems s !! j = Some y → hLess i j s = lt x y;
  hSwap_law i j s : hwf s → i < length (elems s) → j < length (elems s) →
    hwf (hSwap i j s) ∧ elems (hSwap i j s) = swap i j (elems s);
  hPush_law x s : hwf s → hfresh x s → hwf (hPush x s) ∧ elems (hPush x s) = elems s ++ [x];
  hPop_law s l x : hwf s → elems s = l ++ [x] →
    (hPop s).1 = out x ∧ hwf (hPop s).2 ∧ elems (hPop s).2 = l;
}.

(** ** The algorithms *)
Section algorithms.
Context {S X Y : Type} `{HeapInterface S X Y}.

(** The loop of [up], on fuel; [j] decreases, so fuel [j + 1] is enough. *)
Fixpoint up_loop (fuel : nat) (j : nat) (h : S) : S :=
  match fuel with
  | 0 => h
  | Datatypes.S fuel' =>
    let i := (j - 1) / 2 in
    if bool_decide (i = j) || negb (hLess j i h) then h
    else up_loop fuel' i (hSwap i j h)
  end.

Definition up (j : nat) (h : S) : S := up_loop (j + 1) j h.

(** The loop of [down], on fuel; [i] increases up to [n], so fuel [n + 1] is enough.
    The result is the heap with the last [i]. *)
Fixpoint down_loop (fuel : nat) (i n : nat) (h : S) : nat * S :=
  match fuel with
  | 0 => (i, h)
  | Datatypes.S fuel' =>
    let j1 := 2 * i + 1 in
    if bool_decide (n ≤ j1) then (i, h)
    else
      let j2 := j1 + 1 in
      let j := if bool_decide (j2 < n) && hLess j2 j1 h then j2 else j1 in
      if negb (hLess j i h) then (i, h)
      else down_loop fuel' j n (hSwap i j h)
  end.

Definition down (i0 n : nat) (h : S) : bool * S :=
  let '(i, h) := down_loop (n + 1) i0 n h in (bool_decide (i0 < i), h).

Definition Push (x : X) (h : S) : S :=
  let h := hPush x h in up (hLen h - 1) h.

(** [heap.Pop] on an empty heap swaps out of range. *)
Definition Pop (h : S) : outcome S Y :=
  if bool_decide (hLen h = 0) then Panic h
  else
    let n := hLen h - 1 in
    let h := hSwap 0 n h in
    let h := (down 0 n h).2 in
    let '(x, h) := hPop h in Ret x h.

Definition Fix (i : nat) (h : S) : S :=
  let '(moved, h) := down i (hLen h) h in
  if negb moved then up i h else h.

Definition Remove (i : nat) (h : S) : outcome S Y :=
  if bool_decide (hLen h = 0) then Panic h
  else
    let n := hLen h - 1 in
    let h := if bool_decide (n ≠ i)
             then let '(moved, h) := down i n (hSwap i n h) in
                  if negb moved then up i h else h
             else h in
    let '(x, h) := hPop h in Ret x h.

(** [for i := n/2 - 1; i >= 0; i-- { down(h, i, n) }] *)
Fixpoint init_loop (i n : nat) (h : S) : S :=
  match i with
  | 0 => h
  | Datatypes.S i' => init_loop i' n (down i' n h).2
  end.

Definition Init (h : S) : S := init_loop (hLen h / 2) (hLen h) h.
End algorithms.

Arguments Push : simpl never.
Arguments Pop : simpl never.
Arguments Fix : simpl never.
Arguments Remove : simpl never.

(** ** Correctness *)
Section correctness.
Context {S X Y : Type} `{HeapInterface S X Y} (lt : X → X → bool) `{!HeapLaws S X Y lt}.

(** [lt] is a strict weak order. *)
Context (lt_asym : ∀ x y, lt x y = true → lt y x = false)
        (lt_neg_trans : ∀ x y z, lt x y = false → lt y z = false → lt x z = false).

(** Element [i] is not above element [j]. *)
Definition le_at (l : list X) (i j : nat) : Prop :=
  ∀ x y, l !! i = Some x → l !! j = Some y → lt y x = false.

Definition parent (j : nat) : nat := (j - 1) / 2.

Definition heap_upto (l : list X) (n : nat) : Prop :=
  ∀ j, 0 < j < n → le_at l (parent j) j.

Definition is_heap (h : S) : Prop := heap_upto (elems (lt:=lt) h) (length (elems (lt:=lt) h)).

Abbreviation els := (elems (lt:=lt)).
Abbreviation wf := (hwf (lt:=lt)).

(** A heap but for the element at [i], whose children are in order with its parent. *)
Definition heap_but (l : list X) (n i : nat) : Prop :=
  (∀ j, 0 < j < n → j ≠ i → parent j ≠ i → le_at l (parent j) j) ∧
  (∀ j, 0 < j < n → parent j = i → 0 < i → le_at l (parent i) j).

Definition above_children (l : list X) (n i : nat) : Prop :=
  ∀ j, 0 < j < n → parent j = i → le_at l i j.

Lemma parent_lt j : 0 < j → parent j < j.
Proof. intros Hj. unfold parent. apply Nat.Div0.div_lt_upper_bound. lia. Qed.

Lemma parent_children j i : 0 < j → parent j = i ↔ j = 2 * i + 1 ∨ j = 2 * i + 2.
Proof.
  intros Hj. unfold parent. pose proof (Nat.div_mod_eq (j - 1) 2).
  pose proof (Nat.mod_upper_bound (j - 1) 2 ltac:(lia)). lia.
Qed.

Lemma le_at_trans l i j k : is_Some (l !! j) → le_at l i j → le_at l j k → le_at l i k.
Proof.
  intros [y Hy] Hij Hjk x z Hx Hz. apply (lt_neg_trans z y x); [by apply Hjk|by apply Hij].
Qed.

Lemma le_at_refl l i : le_at l i i.
Proof.
  intros x y Hx Hy. assert (x = y) as -> by congruence. destruct (lt y y) eqn:E; [|done].
  rewrite <-E. by apply lt_asym.
Qed.

Lemma le_at_ext l l' a a' b b' :
  l' !! a' = l !! a → l' !! b' = l !! b → le_at l a b → le_at l' a' b'.
Proof. unfold le_at. intros -> ->. done. Qed.

(** One exchange of [down]: the element at [i] goes below its smaller child [j]. *)
Lemma heap_but_down l n i j x y :
  n ≤ length l → j < n → parent j = i → 0 < j →
  l !! i = Some x → l !! j = Some y → lt y x = true →
  (∀ k, 0 < k < n → parent k = i → le_at l j k) →
  heap_but l n i →
  heap_but (swap i j l) n j ∧ le_at (swap i j l) i j.
Proof.
  intros Hn Hj Hp Hj0 Hx Hy Hlt Hmin [H1 H2].
  assert (i < j) as Hij by (subst i; by apply parent_lt).
  assert (∀ k, swap i j l !! k = if decide (k = i) then l !! j
    else if decide (k = j) then l !! i else l !! k) as Hs by (intros; apply lookup_swap; lia).
  split; [split|].
  - intros k Hk Hkj Hpk. destruct (decide (parent k = i)) as [Hpi|Hpi].
    + apply (le_at_ext l _ j _ k); [by rewrite Hs, decide_True|rewrite Hs, !decide_False; try done|auto].
      intros ->. pose proof (parent_lt i ltac:(lia)). lia.
    + destruct (decide (k = i)) as [->|Hki].
      * apply (le_at_ext l _ (parent i) _ j); [|by rewrite Hs, decide_True|apply H2; [lia|done|lia]].
        by rewrite Hs, !decide_False.
      * apply (le_at_ext l _ (parent k) _ k); [by rewrite Hs, !decide_False..|by apply H1].
  - intros k Hk Hpk _. rewrite Hp. pose proof (parent_lt k ltac:(lia)).
    apply (le_at_ext l _ j _ k); [by rewrite Hs, decide_True|rewrite Hs, !decide_False by lia; done|].
    rewrite <-Hpk. apply H1; lia.
  - intros x' y'. rewrite !Hs, decide_True, decide_False, decide_True by lia.
    intros Hx' Hy'. assert (x' = y) as -> by congruence. assert (y' = x) as -> by congruence.
    by apply lt_asym.
Qed.

Lemma down_loop_spec fuel i n h :
  wf h → n ≤ length (els h) → i < n → n - i < fuel → heap_but (els h) n i →
  let '(i', h') := down_loop fuel i n h in
  wf h' ∧ els h' ≡ₚ els h ∧ (∀ k, n ≤ k → els h' !! k = els h !! k) ∧
  (i' = i ∧ h' = h ∧ above_children (els h) n i ∨ i < i' ∧ heap_upto (els h') n).
Proof.
  revert i h. induction fuel as [|fuel IH]; intros i h Hwf Hn Hi Hf Hb; [lia|].
  cbn [down_loop]. case_bool_decide as Hj1.
  { split_and!; try done. left. split_and!; try done. intros j Hj Hp. apply parent_children in Hp; lia. }
  set (j := if _ && _ then _ else _).
  assert (parent j = i ∧ 0 < j < n ∧ ∀ k, 0 < k < n → parent k = i → le_at (els h) j k)
    as (Hp & Hj & Hmin).
  { assert (parent j = i) as Hp.
    { apply parent_children; unfold j; destruct (_ && _); lia. }
    split; [done|]. unfold j in *. destruct (bool_decide (2 * i + 1 + 1 < n)) eqn:E;
      [apply bool_decide_eq_true in E|apply bool_decide_eq_false in E]; cbn [andb] in *.
    - destruct (lookup_lt_is_Some_2 (els h) (2 * i + 1)) as [y1 Hy1]; [lia|].
      destruct (lookup_lt_is_Some_2 (els h) (2 * i + 1 + 1)) as [y2 Hy2]; [lia|].
      rewrite (hLess_law _ _ _ _ _ Hwf Hy2 Hy1) in *.
      destruct (lt y2 y1) eqn:El; (split; [lia|]); intros k Hk Hpk;
        (apply parent_children in Hpk as [->| ->]; [| |lia]);
        replace (2 * i + 2) with (2 * i + 1 + 1) by lia; try apply le_at_refl.
      + intros a b Ha Hb'. assert (a = y2) as -> by congruence. assert (b = y1) as -> by congruence.
        by apply lt_asym.
      + intros a b Ha Hb'. assert (a = y1) as -> by congruence. assert (b = y2) as -> by congruence.
        done.
    - split; [lia|]. intros k Hk Hpk. apply parent_children in Hpk as [->| ->]; [|lia|lia].
      apply le_at_refl. }
  clearbody j. destruct (lookup_lt_is_Some_2 (els h) i) as [x Hx]; [lia|].
  destruct (lookup_lt_is_Some_2 (els h) j) as [y Hy]; [lia|].
  rewrite (hLess_law _ _ _ _ _ Hwf Hy Hx). destruct (lt y x) eqn:El; cbn [negb].
  - destruct (hSwap_law i j h Hwf) as [Hwf' Hel]; [lia|lia|].
    destruct (heap_but_down (els h) n i j x y) as [Hb' Hij]; try done; [lia|lia|].
    pose proof (parent_lt j ltac:(lia)).
    specialize (IH j (hSwap i j h)). rewrite Hel, length_swap in IH.
    specialize (IH Hwf' Hn ltac:(lia) ltac:(lia) Hb').
    destruct (down_loop fuel j n (hSwap i j h)) as [i' h'].
    destruct IH as (IH1 & IH2 & IH3 & IH4). split_and!; [done|by rewrite IH2, swap_perm| |].
    + intros k Hk. rewrite IH3, lookup_swap, !decide_False by lia. done.
    + right. destruct IH4 as [(-> & -> & Ha)|[Hlt Hh]]; [|split; [lia|done]]. split; [lia|].
      rewrite Hel. intros k Hk. destruct (decide (k = j)) as [->|Hkj]; [by rewrite Hp|].
      destruct (decide (parent k = j)) as [Hpk|Hpk]; [rewrite Hpk; by apply Ha|].
      by apply Hb'.
  - split_and!; try done. left. split_and!; try done. intros k Hk Hpk.
    apply (le_at_trans _ i j k); [by rewrite Hy| |by apply Hmin].
    intros a b Ha Hb'. assert (a = x) as -> by congruence. assert (b = y) as -> by congruence. done.
Qed.

(** A heap but for the edge from [j] up, around which the order holds. *)
Definition heap_but_up (l : list X) (n j : nat) : Prop :=
  (∀ k, 0 < k < n → k ≠ j → le_at l (parent k) k) ∧
  (∀ k, 0 < k < n → parent k = j → 0 < j → le_at l (parent j) k).

Lemma heap_but_up_step l n j x y :
  n ≤ length l → 0 < j < n → l !! parent j = Some x → l !! j = Some y → lt y x = true →
  heap_but_up l n j → heap_but_up (swap (parent j) j l) n (parent j).
Proof.
  intros Hn Hj Hx Hy Hlt [H1 H2]. pose proof (parent_lt j ltac:(lia)) as Hpj.
  set (i := parent j) in *.
  assert (∀ k, swap i j l !! k = if decide (k = i) then l !! j
    else if decide (k = j) then l !! i else l !! k) as Hs by (intros; apply lookup_swap; lia).
  assert (le_at l j i) as Hji.
  { intros a b Ha Hb. assert (a = y) as -> by congruence. assert (b = x) as -> by congruence.
    by apply lt_asym. }
  split; intros k Hk.
  - intros Hki. pose proof (parent_lt k ltac:(lia)). destruct (decide (k = j)) as [->|Hkj].
    + fold i. apply (le_at_ext l _ j _ i); [by rewrite Hs, decide_True| |done].
      by rewrite Hs, decide_False, decide_True by lia.
    + destruct (decide (parent k = i)) as [Hpk|Hpk]; [|destruct (decide (parent k = j)) as [Hpk'|Hpk']].
      * apply (le_at_ext l _ j _ k); [by rewrite Hs, decide_True|by rewrite Hs, !decide_False|].
        apply (le_at_trans _ j i k); [by rewrite Hx|done|]. rewrite <-Hpk. by apply H1.
      * apply (le_at_ext l _ i _ k); [|by rewrite Hs, !decide_False|apply H2; [done|done|lia]].
        rewrite Hs, decide_False, decide_True by lia. done.
      * apply (le_at_ext l _ (parent k) _ k); [by rewrite Hs, !decide_False..|by apply H1].
  - intros Hpk Hi. pose proof (parent_lt i Hi) as Hpi.
    assert (le_at l (parent i) i) as Hii by (apply H1; lia).
    assert (swap i j l !! parent i = l !! parent i) as Hpp by (by rewrite Hs, !decide_False by lia).
    destruct (decide (k = j)) as [->|Hkj].
    + apply (le_at_ext l _ (parent i) _ i); [done| |done]. by rewrite Hs, decide_False, decide_True by lia.
    + pose proof (parent_lt k ltac:(lia)).
      apply (le_at_ext l _ (parent i) _ k); [done|rewrite Hs, !decide_False by lia; done|].
      apply (le_at_trans _ (parent i) i k); [by rewrite Hx|done|]. rewrite <-Hpk. apply H1; lia.
Qed.

Lemma up_loop_spec fuel n j h :
  wf h → n ≤ length (els h) → j < n → j < fuel → heap_but_up (els h) n j →
  let h' := up_loop fuel j h in
  wf h' ∧ els h' ≡ₚ els h ∧ heap_upto (els h') n ∧ ∀ k, n ≤ k → els h' !! k = els h !! k.
Proof.
  revert j h. induction fuel as [|fuel IH]; intros j h Hwf Hn Hj Hf Hb; [lia|]. cbn zeta.
  cbn [up_loop]. fold (parent j). case_bool_decide as Hij; cbn [orb].
  { assert (j = 0) as -> by (destruct j; [done|pose proof (parent_lt (Datatypes.S j)); lia]).
    split_and!; [done..| |done]. intros k Hk. apply Hb; lia. }
  assert (0 < j) as Hj0 by (destruct j; [done|lia]). pose proof (parent_lt j Hj0) as Hpj.
  destruct (lookup_lt_is_Some_2 (els h) (parent j)) as [x Hx]; [lia|].
  destruct (lookup_lt_is_Some_2 (els h) j) as [y Hy]; [lia|].
  rewrite (hLess_law _ _ _ _ _ Hwf Hy Hx). destruct (lt y x) eqn:El; cbn [negb].
  - destruct (hSwap_law (parent j) j h Hwf) as [Hwf' Hel]; [lia|lia|].
    destruct (IH (parent j) (hSwap (parent j) j h)) as (? & Hperm & ? & Hfr);
      [done|rewrite Hel, length_swap; lia|lia|lia|rewrite Hel; by eapply heap_but_up_step|].
    split_and!; [done|by rewrite Hperm, Hel, swap_perm|done|].
    intros k Hk. rewrite Hfr, Hel, lookup_swap, !decide_False by lia. done.
  - split_and!; [done..| |done]. intros k Hk. destruct (decide (k = j)) as [->|]; [|by apply Hb].
    intros a b Ha Hb'. assert (a = x) as -> by congruence. by assert (b = y) as -> by congruence.
Qed.

(** Sinking and then, if that did not move it, raising the element at [i] repairs a
    heap that is broken only there. *)
Definition repair (i n : nat) (h : S) : S :=
  let '(moved, h) := down i n h in if negb moved then up i h else h.

Lemma repair_spec i n h :
  wf h → n ≤ length (els h) → i < n → heap_but (els h) n i →
  wf (repair i n h) ∧ els (repair i n h) ≡ₚ els h ∧ heap_upto (els (repair i n h)) n ∧
  ∀ k, n ≤ k → els (repair i n h) !! k = els h !! k.
Proof.
  intros Hwf Hn Hi Hb. unfold repair, down.
  pose proof (down_loop_spec (n + 1) i n h Hwf Hn Hi ltac:(lia) Hb) as Hd.
  destruct (down_loop (n + 1) i n h) as [i' h']. destruct Hd as (H1 & H2 & H3 & H4).
  destruct H4 as [(-> & -> & Ha)|[Hlt Hh]].
  - rewrite bool_decide_eq_false_2 by lia. cbn [negb].
    destruct (up_loop_spec (i + 1) n i h) as (? & ? & ? & ?); try done; [lia|]. destruct Hb as [Hb1 Hb2].
    split; intros k Hk; [|by apply Hb2]. intros Hki.
    destruct (decide (parent k = i)) as [Hp|Hp]; [rewrite Hp; by apply Ha|by apply Hb1].
  - rewrite bool_decide_eq_true_2 by lia. done.
Qed.

Lemma heap_min l n k x y :
  n ≤ length l → heap_upto l n → l !! 0 = Some x → k < n → l !! k = Some y → lt y x = false.
Proof.
  intros Hn Hh Hx. revert y. induction k as [k IH] using lt_wf_ind. intros y Hk Hy.
  destruct (decide (k = 0)) as [->|Hk0].
  { assert (x = y) as -> by congruence. by eapply (le_at_refl l 0). }
  pose proof (parent_lt k ltac:(lia)) as Hp.
  destruct (lookup_lt_is_Some_2 l (parent k)) as [z Hz]; [lia|].
  apply (lt_neg_trans y z x); [|by apply (IH (parent k)); [lia|lia|]]. by apply (Hh k); [lia| |].
Qed.

Lemma heap_upto_app l l' n : n ≤ length l → heap_upto (l ++ l') n ↔ heap_upto l n.
Proof.
  intros Hn. split; intros Hh k Hk; (eapply le_at_ext; [| |by apply Hh]);
    pose proof (parent_lt k ltac:(lia)); rewrite ?lookup_app_l by lia; done.
Qed.

(** [heap.Push] *)
Lemma Push_spec x h :
  wf h → is_heap h → hfresh (lt:=lt) x h →
  wf (Push x h) ∧ is_heap (Push x h) ∧ els (Push x h) ≡ₚ els h ++ [x].
Proof.
  intros Hwf Hh Hx. unfold Push. destruct (hPush_law x h Hwf Hx) as [Hwf' Hel].
  rewrite (hLen_law (lt:=lt)), Hel, length_app. cbn [length]. rewrite Nat.add_sub.
  destruct (up_loop_spec (length (els h) + 1) (length (els h) + 1) (length (els h)) (hPush x h))
    as (H1 & H2 & H3 & _); [done|rewrite Hel, length_app; cbn; lia|lia|lia| |].
  { rewrite Hel. split.
    - intros k Hk Hkn. pose proof (parent_lt k ltac:(lia)).
      eapply le_at_ext; [| |apply (Hh k); lia]; rewrite lookup_app_l by lia; done.
    - intros k Hk Hp. pose proof (parent_lt k ltac:(lia)). lia. }
  unfold up. split_and!; [done| |by rewrite H2, Hel].
  unfold is_heap. by rewrite (Permutation_length H2), Hel, length_app.
Qed.

(** Taking the element at [i] to the end and repairing the rest. *)
Lemma take_out_spec i h x :
  wf h → is_heap h → els h !! i = Some x →
  let n := length (els h) - 1 in
  let h1 := if bool_decide (n ≠ i) then repair i n (hSwap i n h) else h in
  wf h1 ∧ ∃ l, els h1 = l ++ [x] ∧ l ++ [x] ≡ₚ els h ∧ heap_upto l (length l).
Proof.
  intros Hwf Hh Hx. pose proof (lookup_lt_Some _ _ _ Hx) as Hi. cbn zeta.
  set (n := length (els h) - 1). case_bool_decide as Hni.
  - destruct (hSwap_law i n h Hwf) as [Hwf' Hel]; [done|lia|].
    destruct (repair_spec i n (hSwap i n h)) as (H1 & H2 & H3 & H4); try done;
      [rewrite Hel, length_swap; lia|lia| |].
    { rewrite Hel. split.
      - intros k Hk Hki Hpk. pose proof (parent_lt k ltac:(lia)).
        eapply le_at_ext; [| |apply (Hh k); lia]; rewrite lookup_swap, !decide_False by lia; done.
      - intros k Hk Hpk Hi0. pose proof (parent_lt i Hi0). pose proof (parent_lt k ltac:(lia)).
        apply (le_at_ext (els h) _ (parent i) _ k);
          [rewrite lookup_swap, !decide_False by lia; done..|].
        apply (le_at_trans _ _ i); [by rewrite Hx|apply Hh; lia|]. rewrite <-Hpk. apply Hh. lia. }
    assert (length (els (repair i n (hSwap i n h))) = n + 1) as Hlen.
    { rewrite (Permutation_length H2), Hel, length_swap. lia. }
    split; [done|]. exists (take n (els (repair i n (hSwap i n h)))).
    assert (take n (els (repair i n (hSwap i n h))) ++ [x] = els (repair i n (hSwap i n h))) as Heq.
    { rewrite <-(take_drop n (els (repair i n (hSwap i n h)))) at 2. f_equal.
      rewrite (drop_S (els (repair i n (hSwap i n h))) x n); [by rewrite drop_ge by lia|].
      rewrite H4, Hel, lookup_swap by lia. rewrite decide_False, decide_True by done. done. }
    split_and!; [done|by rewrite Heq, H2, Hel, swap_perm|].
    rewrite length_take, Nat.min_l by lia.
    rewrite <-(take_drop n (els (repair i n (hSwap i n h)))) in H3.
    apply heap_upto_app in H3; [done|]. rewrite length_take. lia.
  - unfold n in Hni. clear n. split; [done|].
    destruct (els h) as [|z l _] eqn:E using rev_ind; [done|].
    rewrite length_app in *. cbn in *. assert (i = length l) as -> by lia.
    rewrite list_lookup_middle in Hx by done. injection Hx as ->.
    exists l. split_and!; [done..|]. unfold is_heap in Hh. rewrite E, length_app in Hh.
    apply (heap_upto_app l [x]); [lia|]. intros k Hk. apply Hh. cbn. lia.
Qed.

(** [heap.Remove] takes out the element at [i] and keeps the heap. *)
Lemma Remove_spec i h x :
  wf h → is_heap h → els h !! i = Some x →
  ∃ h', Remove i h = Ret (out (lt:=lt) x) h' ∧ wf h' ∧ is_heap h' ∧ x :: els h' ≡ₚ els h.
Proof.
  intros Hwf Hh Hx. pose proof (lookup_lt_Some _ _ _ Hx) as Hi. unfold Remove.
  rewrite (hLen_law (lt:=lt)), bool_decide_eq_false_2 by lia.
  destruct (take_out_spec i h x Hwf Hh Hx) as (Hwf1 & l & Hl & Hp & Hhl).
  unfold repair in *. set (h1 := if bool_decide _ then _ else h) in *.
  destruct (hPop_law (lt:=lt) h1 l x Hwf1 Hl) as (Ho & Hwf2 & Hel).
  destruct (hPop h1) as [y h2]. cbn in *. subst y. exists h2. split_and!; [done|done| |].
  - unfold is_heap. by rewrite Hel.
  - by rewrite Hel, <-Hp, Permutation_app_comm.
Qed.

(** [heap.Pop] takes out a least element. *)
Lemma Pop_spec h x :
  wf h → is_heap h → els h !! 0 = Some x →
  ∃ h', Pop h = Ret (out (lt:=lt) x) h' ∧ wf h' ∧ is_heap h' ∧ x :: els h' ≡ₚ els h ∧
    ∀ y, y ∈ els h → lt y x = false.
Proof.
  intros Hwf Hh Hx. pose proof (lookup_lt_Some _ _ _ Hx) as Hi. unfold Pop.
  rewrite (hLen_law (lt:=lt)), bool_decide_eq_false_2 by lia.
  destruct (take_out_spec 0 h x Hwf Hh Hx) as (Hwf1 & l & Hl & Hp & Hhl).
  assert (∀ y, y ∈ els h → lt y x = false) as Hmin.
  { intros y [k Hk]%list_elem_of_lookup. eapply (heap_min (els h) (length (els h)) k); try done.
    by eapply lookup_lt_Some. }
  set (n := length (els h) - 1) in *. set (h1 := if bool_decide _ then _ else h) in *.
  assert (wf (down 0 n (hSwap 0 n h)).2 ∧ els (down 0 n (hSwap 0 n h)).2 = l ++ [x]) as [Hwf2 Hl2].
  { unfold h1 in *. case_bool_decide as Hn0.
    - assert (repair 0 n (hSwap 0 n h) = (down 0 n (hSwap 0 n h)).2) as <-; [|done].
      unfold repair. by destruct (down 0 n (hSwap 0 n h)) as [[] ?].
    - assert (n = 0) as Hz by lia. clearbody n. subst n. destruct (hSwap_law 0 0 h Hwf) as [Hwf' Hel]; [done..|].
      change ((down 0 0 (hSwap 0 0 h)).2) with (hSwap 0 0 h). split; [done|].
      by rewrite Hel, swap_diag. }
  destruct (hPop_law (lt:=lt) _ l x Hwf2 Hl2) as (Ho & Hwf3 & Hel).
  destruct (hPop _) as [y h2]. cbn in *. subst y. exists h2. split_and!; [done|done| | |done].
  - unfold is_heap. by rewrite Hel.
  - by rewrite Hel, <-Hp, Permutation_app_comm.
Qed.

(** A heap with the element at [i] replaced by any other is broken only there. *)
Lemma heap_but_insert l i x :
  heap_upto l (length l) → i < length l → heap_but (<[i := x]> l) (length l) i.
Proof.
  intros Hh Hi. destruct (lookup_lt_is_Some_2 l i Hi) as [z Hz]. split.
  - intros k Hk Hki Hpk. pose proof (parent_lt k ltac:(lia)).
    apply (le_at_ext l _ (parent k) _ k); [by rewrite list_lookup_insert_ne..|by apply Hh].
  - intros k Hk Hpk Hi0. pose proof (parent_lt i Hi0). pose proof (parent_lt k ltac:(lia)).
    apply (le_at_ext l _ (parent i) _ k); [rewrite list_lookup_insert_ne by lia; done..|].
    apply (le_at_trans _ _ i); [by rewrite Hz|apply Hh; lia|]. rewrite <-Hpk. by apply Hh.
Qed.

(** [heap.Fix] after the element at [i] was changed. *)
Lemma Fix_spec i h :
  wf h → i < length (els h) → heap_but (els h) (length (els h)) i →
  wf (Fix i h) ∧ is_heap (Fix i h) ∧ els (Fix i h) ≡ₚ els h.
Proof.
  intros Hwf Hi Hb. destruct (repair_spec i (length (els h)) h) as (H1 & H2 & H3 & _); try done.
  assert (Fix i h = repair i (length (els h)) h) as ->.
  { unfold Fix. by rewrite (hLen_law (lt:=lt)). }
  split_and!; [done| |done]. unfold is_heap. by rewrite (Permutation_length H2).
Qed.
End correctness.
