(* ===== verification/Heap.v ===== *)
(** * The keyed heap of the client-go cache (k8s.io/client-go/tools/cache/heap.go)

    [heapData] keeps the keys in a binary heap and, for each key, its object and its
    position in the heap; it implements the [heap.Interface] of [ContainerHeap].
    [Heap] is the locked producer/consumer queue on top.  A [Pop] that would wait is
    the result [HeapBlocked]. *)

From S2P Require Import Prelude Store ContainerHeap.

Record heapItem (Obj : Type) : Type := { obj : option Obj; index : nat }.
Arguments Build_heapItem {Obj} _ _.
Arguments obj {Obj} _.
Arguments index {Obj} _.

Record heapData (Obj : Type) : Type := {
  items : gmap string (heapItem Obj);
  queue : list string;
  keyFunc : option Obj → res string string;
  lessFunc : option Obj → option Obj → bool;
}.
Arguments Build_heapData {Obj} _ _ _ _.
Arguments items {Obj} _.
Arguments queue {Obj} _.
Arguments keyFunc {Obj} _ _.
Arguments lessFunc {Obj} _ _ _.

Section heapData.
Context {Obj : Type}.

Definition set_data (m : gmap string (heapItem Obj)) (q : list string) (h : heapData Obj) :
    heapData Obj :=
  {| items := m; queue := q; keyFunc := keyFunc h; lessFunc := lessFunc h |}.

Definition set_index (i : nat) (it : heapItem Obj) : heapItem Obj := Build_heapItem (obj it) i.
Definition set_obj (o : option Obj) (it : heapItem Obj) : heapItem Obj := Build_heapItem o (index it).

(** container/heap only passes positions of the queue. *)
Definition data_Less (i j : nat) (h : heapData Obj) : bool :=
  if bool_decide (length (queue h) < i) || bool_decide (length (queue h) < j) then false
  else match itemi ← (queue h !! i) ≫= (items h !!.); itemj ← (queue h !! j) ≫= (items h !!.);
             Some (lessFunc h (obj itemi) (obj itemj)) with
       | Some b => b
       | None => false
       end.

Definition data_Len (h : heapData Obj) : nat := length (queue h).

Definition data_Swap (i j : nat) (h : heapData Obj) : heapData Obj :=
  let q := swap i j (queue h) in
  let m := match q !! i with Some k => alter (set_index i) k (items h) | None => items h end in
  let m := match q !! j with Some k => alter (set_index j) k m | None => m end in
  set_data m q h.

Definition data_Push (kv : string * option Obj) (h : heapData Obj) : heapData Obj :=
  let n := length (queue h) in
  set_data (<[kv.1 := Build_heapItem kv.2 n]> (items h)) (queue h ++ [kv.1]) h.

Definition data_Pop (h : heapData Obj) : option Obj * heapData Obj :=
  match last (queue h) with
  | None => (None, h)
  | Some key =>
    let q := take (length (queue h) - 1) (queue h) in
    match items h !! key with
    | None => (None, set_data (items h) q h)
    | Some item => (obj item, set_data (delete key (items h)) q h)
    end
  end.

#[export] Instance heapData_Interface :
    HeapInterface (heapData Obj) (string * option Obj) (option Obj) :=
  {| hLen := data_Len; hLess := data_Less; hSwap := data_Swap; hPush := data_Push;
     hPop := data_Pop |}.

Context (kf : option Obj → res string string).

(** "Items in the map are in the queue and vice versa", at the positions they record;
    the functions of the heap are never changed. *)
Record data_wf (less : option Obj → option Obj → bool) (h : heapData Obj) : Prop := {
  dw_key : keyFunc h = kf;
  dw_less : lessFunc h = less;
  dw_queue i k : queue h !! i = Some k → ∃ o, items h !! k = Some (Build_heapItem o i);
  dw_items k it : items h !! k = Some it → queue h !! index it = Some k;
}.

(** The elements of the heap, in heap order. *)
Definition entry (h : heapData Obj) (k : string) : string * option Obj :=
  (k, items h !! k ≫= obj).

Definition entries (h : heapData Obj) : list (string * option Obj) := entry h <$> queue h.

Definition entry_less (less : option Obj → option Obj → bool) (x y : string * option Obj) : bool :=
  less x.2 y.2.

Lemma dw_inj less h i j k :
  data_wf less h → queue h !! i = Some k → queue h !! j = Some k → i = j.
Proof. intros [_ _ Hq _] [o Hi]%Hq [o' Hj]%Hq. congruence. Qed.

Lemma entries_lookup h i x :
  entries h !! i = Some x → ∃ k, queue h !! i = Some k ∧ x = entry h k.
Proof. unfold entries. rewrite list_lookup_fmap, fmap_Some. naive_solver. Qed.

Lemma data_Less_wf less i j h x y :
  data_wf less h → entries h !! i = Some x → entries h !! j = Some y →
  data_Less i j h = entry_less less x y.
Proof.
  intros Hwf (ki & Hi & ->)%entries_lookup (kj & Hj & ->)%entries_lookup.
  pose proof (lookup_lt_Some _ _ _ Hi). pose proof (lookup_lt_Some _ _ _ Hj).
  unfold data_Less. rewrite !bool_decide_eq_false_2 by lia. cbn.
  destruct (dw_queue _ _ Hwf i ki Hi) as [oi Hoi]. destruct (dw_queue _ _ Hwf j kj Hj) as [oj Hoj].
  rewrite Hi, Hj. cbn. rewrite Hoi, Hoj. cbn. unfold entry_less, entry. cbn.
  rewrite Hoi, Hoj, (dw_less _ _ Hwf). done.
Qed.

Lemma data_Swap_items i j h less k :
  data_wf less h → i < length (queue h) → j < length (queue h) →
  items (data_Swap i j h) !! k =
  (λ it, set_index (if decide (index it = i) then j else if decide (index it = j) then i else index it) it)
    <$> items h !! k.
Proof.
  intros Hwf Hi Hj. unfold data_Swap. cbn.
  destruct (lookup_lt_is_Some_2 _ _ Hi) as [ki Hki]. destruct (lookup_lt_is_Some_2 _ _ Hj) as [kj Hkj].
  assert (swap i j (queue h) !! i = Some kj) as ->
    by (rewrite lookup_swap by done; repeat case_decide; congruence).
  assert (swap i j (queue h) !! j = Some ki) as ->
    by (rewrite lookup_swap by done; repeat case_decide; congruence).
  destruct (items h !! k) as [[o n]|] eqn:E.
  2:{ rewrite !lookup_alter. repeat case_decide; subst; by rewrite ?E. }
  pose proof (dw_items _ _ Hwf k _ E) as Hn. cbn in Hn |- *.
  destruct (decide (ki = k)) as [->|Hik].
  - assert (n = i) as -> by (by eapply dw_inj). rewrite lookup_alter_eq, lookup_alter.
    rewrite (decide_True (P := i = i)) by done. case_decide; subst; rewrite E; done.
  - rewrite lookup_alter_ne by done. assert (n ≠ i) by congruence.
    rewrite (decide_False (P := n = i)) by done. destruct (decide (kj = k)) as [->|Hjk].
    + assert (n = j) as -> by (by eapply dw_inj). rewrite lookup_alter_eq, E.
      by rewrite (decide_True (P := j = j)).
    + rewrite lookup_alter_ne, E by done. rewrite decide_False; [done|congruence].
Qed.

Lemma data_Swap_wf less i j h :
  data_wf less h → i < length (entries h) → j < length (entries h) →
  data_wf less (data_Swap i j h) ∧ entries (data_Swap i j h) = swap i j (entries h).
Proof.
  unfold entries. rewrite !length_fmap. intros Hwf Hi Hj.
  pose proof (data_Swap_items i j h less) as Hit.
  assert (queue (data_Swap i j h) = swap i j (queue h)) as Hq by done. split.
  - split; [by apply Hwf|by apply Hwf| |].
    + intros n k. rewrite Hq, Hit, lookup_swap by done. intros Hk.
      assert (∃ m, queue h !! m = Some k ∧
        n = if decide (m = i) then j else if decide (m = j) then i else m) as (m & Hm & ->).
      { repeat case_decide; subst; eexists; (split; [exact Hk|]); repeat case_decide; congruence. }
      destruct (dw_queue _ _ Hwf m k Hm) as [o ->]. cbn. by eexists.
    + intros k it. rewrite Hq, Hit by done. intros ([o n] & Hk & ->)%fmap_Some. cbn.
      pose proof (dw_items _ _ Hwf k _ Hk) as Hn. cbn in Hn. rewrite lookup_swap by done.
      repeat case_decide; congruence.
  - apply list_eq. intros n. rewrite Hq, list_lookup_fmap, !lookup_swap by (by rewrite ?length_fmap).
    assert (∀ k, entry (data_Swap i j h) k = entry h k) as He.
    { intros k. unfold entry. rewrite Hit by done. by destruct (items h !! k). }
    rewrite !list_lookup_fmap. repeat case_decide;
      (destruct (queue h !! _); cbn; [by rewrite He|done]).
Qed.

Lemma data_Push_wf less kv h :
  data_wf less h → items h !! kv.1 = None →
  data_wf less (data_Push kv h) ∧ entries (data_Push kv h) = entries h ++ [kv].
Proof.
  destruct kv as [k o]. cbn. intros [Hkf Hl Hq Hi] Hk. split; [split|]; cbn.
  - done.
  - done.
  - intros n k' [Hn|[-> ->]]%lookup_snoc_Some.
    + destruct Hn as [_ Hn]. apply Hq in Hn as [o' Ho']. exists o'.
      rewrite lookup_insert_ne by congruence. done.
    + exists o. apply lookup_insert_eq.
  - intros k' it. rewrite lookup_insert. case_decide as Hkk.
    + intros [= <-]. subst. by apply list_lookup_middle.
    + intros Hit%Hi. by apply lookup_app_l_Some.
  - unfold entries. cbn. rewrite fmap_app. cbn. unfold entry at 2. cbn. rewrite lookup_insert_eq. cbn.
    f_equal. apply list_fmap_ext. intros n k' Hn. unfold entry. cbn.
    apply Hq in Hn as [o' Ho']. rewrite lookup_insert_ne by congruence. done.
Qed.

Lemma data_Pop_wf less h l x :
  data_wf less h → entries h = l ++ [x] →
  (data_Pop h).1 = x.2 ∧ data_wf less (data_Pop h).2 ∧ entries (data_Pop h).2 = l.
Proof.
  intros Hwf He. unfold entries in He.
  destruct (queue h) as [|k q _] eqn:Eq using rev_ind; [by destruct l|].
  rewrite fmap_app in He. cbn in He. apply app_inj_tail in He as [<- <-].
  destruct (dw_queue _ _ Hwf (length q) k) as [o Ho]; [rewrite Eq; by apply list_lookup_middle|].
  unfold data_Pop. rewrite Eq, last_snoc, length_app. cbn [length]. rewrite Nat.add_sub, take_app_length, Ho.
  cbn. rewrite Ho. cbn. split; [done|].
  assert (∀ n k', q !! n = Some k' → k' ≠ k) as Hne.
  { intros n k' Hn ->. pose proof (lookup_lt_Some _ _ _ Hn).
    assert (n = length q); [|lia]. eapply (dw_inj less h n); [done| |];
      rewrite Eq; [by apply lookup_app_l_Some|by apply list_lookup_middle]. }
  split; [split; cbn|].
  - by apply Hwf.
  - by apply Hwf.
  - intros n k' Hn. rewrite lookup_delete_ne by (symmetry; by eapply Hne).
    apply (dw_queue _ _ Hwf). rewrite Eq. by apply lookup_app_l_Some.
  - intros k' it [Hk Hit]%lookup_delete_Some. apply (dw_items _ _ Hwf) in Hit. rewrite Eq in Hit.
    apply lookup_snoc_Some in Hit as [[_ ?]|[_ ?]]; [done|congruence].
  - unfold entries. cbn. apply list_fmap_ext. intros n k' Hn. unfold entry. cbn.
    rewrite lookup_delete_ne by (symmetry; by eapply Hne). done.
Qed.

(** [heapData] satisfies the interface of container/heap. *)
Definition heapData_Laws less :
  HeapLaws (heapData Obj) (string * option Obj) (option Obj) (entry_less less).
Proof.
  refine {| elems := entries; hwf := data_wf less; hfresh := λ kv h, items h !! kv.1 = None;
            out := snd |}.
  - intros h. unfold entries. by rewrite length_fmap.
  - intros. by apply data_Less_wf.
  - intros. by apply data_Swap_wf.
  - intros. by apply data_Push_wf.
  - intros. by apply data_Pop_wf.
Defined.
End heapData.

(** ** The locked heap *)
Section Heap.
Context {Obj : Type}.

Record Heap := { data : heapData Obj; closed : bool }.

Definition NewHeap (keyFn : option Obj → res string string)
    (lessFn : option Obj → option Obj → bool) : Heap :=
  {| data := Build_heapData ∅ [] keyFn lessFn; closed := false |}.

Definition set_heap (d : heapData Obj) (h : Heap) : Heap := {| data := d; closed := closed h |}.

Inductive HeapError : Type :=
| HeapKeyError (obj : option Obj) (err : string)
| HeapClosed
| ObjectNotFound
| ObjectRemoved.

Definition Close (h : Heap) : Heap := {| data := data h; closed := true |}.

Definition IsClosed (h : Heap) : bool := if closed h then true else false.

Definition addIfNotPresentLocked (key : string) (o : option Obj) (h : Heap) : Heap :=
  match items (data h) !! key with
  | Some _ => h
  | None => set_heap (ContainerHeap.Push (key, o) (data h)) h
  end.

(** The body shared by [Add] and [BulkAdd]: update in place, or push. *)
Definition add_locked (key : string) (o : option Obj) (h : Heap) : Heap :=
  match items (data h) !! key with
  | Some item =>
    let d := set_data (<[key := set_obj o item]> (items (data h))) (queue (data h)) (data h) in
    set_heap (ContainerHeap.Fix (index item) d) h
  | None => addIfNotPresentLocked key o h
  end.

Definition Add (o : option Obj) (h : Heap) : option HeapError * Heap :=
  match keyFunc (data h) o with
  | Err err => (Some (HeapKeyError o err), h)
  | Ok key => if closed h then (Some HeapClosed, h) else (None, add_locked key o h)
  end.

Fixpoint bulk_add (l : list (option Obj)) (h : Heap) : option HeapError * Heap :=
  match l with
  | [] => (None, h)
  | o :: l' =>
    match keyFunc (data h) o with
    | Err err => (Some (HeapKeyError o err), h)
    | Ok key => bulk_add l' (add_locked key o h)
    end
  end.

Definition BulkAdd (l : list (option Obj)) (h : Heap) : option HeapError * Heap :=
  if closed h then (Some HeapClosed, h) else bulk_add l h.

Definition AddIfNotPresent (o : option Obj) (h : Heap) : option HeapError * Heap :=
  match keyFunc (data h) o with
  | Err err => (Some (HeapKeyError o err), h)
  | Ok id => if closed h then (Some HeapClosed, h) else (None, addIfNotPresentLocked id o h)
  end.

Definition Update (o : option Obj) (h : Heap) : option HeapError * Heap := Add o h.

Definition Delete (o : option Obj) : st Heap (option HeapError) := λ h,
  match keyFunc (data h) o with
  | Err err => Ret (Some (HeapKeyError o err)) h
  | Ok key =>
    match items (data h) !! key with
    | Some item =>
      match ContainerHeap.Remove (index item) (data h) with
      | Ret _ d => Ret None (set_heap d h)
      | Panic d => Panic (set_heap d h)
      end
    | None => Ret (Some ObjectNotFound) h
    end
  end.

Inductive HeapPop : Type :=
| HeapPopped (o : Obj)
| HeapPopError (e : HeapError)
| HeapBlocked.

Definition Pop : st Heap HeapPop := λ h,
  if bool_decide (length (queue (data h)) = 0)
  then Ret (if closed h then HeapPopError HeapClosed else HeapBlocked) h
  else match ContainerHeap.Pop (data h) with
       | Ret (Some o) d => Ret (HeapPopped o) (set_heap d h)
       | Ret None d => Ret (HeapPopError ObjectRemoved) (set_heap d h)
       | Panic d => Panic (set_heap d h)
       end.

Definition List (rng : gmap string (heapItem Obj) → list (string * heapItem Obj)) (h : Heap) :
    list (option Obj) := (λ kv, obj kv.2) <$> rng (items (data h)).

Definition ListKeys (rng : gmap string (heapItem Obj) → list (string * heapItem Obj)) (h : Heap) :
    list string := (rng (items (data h))).*1.

Definition GetByKey (key : string) (h : Heap) : option Obj * bool :=
  match items (data h) !! key with
  | None => (None, false)
  | Some item => (obj item, true)
  end.

Definition Get (o : option Obj) (h : Heap) : res HeapError (option Obj * bool) :=
  match keyFunc (data h) o with
  | Err err => Err (HeapKeyError o err)
  | Ok key => Ok (GetByKey key h)
  end.

(** ** The heap as a map with least elements *)
Definition contents (h : Heap) : gmap string (option Obj) := obj <$> items (data h).

Inductive heap_op : Type :=
| HAdd (o : option Obj)
| HUpdate (o : option Obj)
| HAddIfNotPresent (o : option Obj)
| HBulkAdd (l : list (option Obj))
| HDelete (o : option Obj)
| HPop
| HClose.

Inductive heap_result : Type :=
| RErr (e : option HeapError)
| RPop (r : HeapPop).

Definition heap_run (op : heap_op) : st Heap heap_result := λ h,
  match op with
  | HAdd o => let '(e, h') := Add o h in Ret (RErr e) h'
  | HUpdate o => let '(e, h') := Update o h in Ret (RErr e) h'
  | HAddIfNotPresent o => let '(e, h') := AddIfNotPresent o h in Ret (RErr e) h'
  | HBulkAdd l => let '(e, h') := BulkAdd l h in Ret (RErr e) h'
  | HDelete o => (e ← Delete o; mret (RErr e)) h
  | HPop => (r ← Pop; mret (RPop r)) h
  | HClose => Ret (RErr None) (Close h)
  end.

(** What the operations promise on a map of objects. *)
Definition keyed_put (kf : option Obj → res string string) (o : option Obj)
    (put : string → gmap string (option Obj)) (m : gmap string (option Obj)) (c : bool) :
    option HeapError * gmap string (option Obj) :=
  match kf o with
  | Err err => (Some (HeapKeyError o err), m)
  | Ok k => if c then (Some HeapClosed, m) else (None, put k)
  end.

Fixpoint put_all (kf : option Obj → res string string) (l : list (option Obj))
    (m : gmap string (option Obj)) : option HeapError * gmap string (option Obj) :=
  match l with
  | [] => (None, m)
  | o :: l' =>
    match kf o with
    | Err err => (Some (HeapKeyError o err), m)
    | Ok k => put_all kf l' (<[k := o]> m)
    end
  end.

Definition heap_spec (kf : option Obj → res string string) (less : option Obj → option Obj → bool)
    (op : heap_op) (m : gmap string (option Obj)) (c : bool) (r : heap_result)
    (m' : gmap string (option Obj)) : Prop :=
  match op with
  | HAdd o | HUpdate o => ∃ e, r = RErr e ∧ keyed_put kf o (λ k, <[k := o]> m) m c = (e, m')
  | HAddIfNotPresent o =>
    ∃ e, r = RErr e ∧ keyed_put kf o (λ k, if m !! k is Some _ then m else <[k := o]> m) m c = (e, m')
  | HBulkAdd l =>
    ∃ e, r = RErr e ∧ (if c then (Some HeapClosed, m) else put_all kf l m) = (e, m')
  | HDelete o =>
    match kf o with
    | Err err => r = RErr (Some (HeapKeyError o err)) ∧ m' = m
    | Ok k => m' = delete k m ∧ r = RErr (if m !! k is Some _ then None else Some ObjectNotFound)
    end
  | HPop =>
    (m = ∅ ∧ m' = ∅ ∧ r = RPop (if c then HeapPopError HeapClosed else HeapBlocked)) ∨
    (∃ k o, m !! k = Some o ∧ m' = delete k m ∧
       (∀ k' o', m !! k' = Some o' → less o' o = false) ∧
       r = RPop (if o is Some x then HeapPopped x else HeapPopError ObjectRemoved))
  | HClose => r = RErr None ∧ m' = m
  end.
End Heap.
Arguments Heap : clear implicits.
Arguments HeapError : clear implicits.

Section correctness.
Context {Obj : Type} (kf : option Obj → res string string) (less : option Obj → option Obj → bool).
Context (less_asym : ∀ x y, less x y = true → less y x = false)
        (less_neg_trans : ∀ x y z, less x y = false → less y z = false → less x z = false).

Abbreviation elt := (entry_less less).
#[local] Instance Laws : HeapLaws (heapData Obj) (string * option Obj) (option Obj) elt :=
  heapData_Laws kf less.

Lemma elt_asym x y : elt x y = true → elt y x = false.
Proof. apply less_asym. Qed.

Lemma elt_neg_trans x y z : elt x y = false → elt y z = false → elt x z = false.
Proof. apply less_neg_trans. Qed.

(** The invariant: the map and the queue agree, and the queue is a heap. *)
Record heap_inv (h : Heap Obj) : Prop := {
  hi_wf : data_wf kf less (data h);
  hi_heap : is_heap elt (data h);
}.

Lemma contents_lookup (h : Heap Obj) k : contents h !! k = obj <$> items (data h) !! k.
Proof. apply lookup_fmap. Qed.

Lemma contents_entries h :
  data_wf kf less (data h) → contents h = list_to_map (entries (data h)) ∧ NoDup (entries (data h)).*1.
Proof.
  intros Hwf. assert ((entries (data h)).*1 = queue (data h)) as Hk.
  { unfold entries. rewrite <-list_fmap_compose. apply list_fmap_id. }
  assert (NoDup (entries (data h)).*1) as Hnd.
  { rewrite Hk. apply NoDup_alt. intros i j k. by apply (dw_inj kf less). }
  split; [|done]. apply map_eq. intros k. unfold contents. rewrite lookup_fmap.
  destruct (items (data h) !! k) as [it|] eqn:E; cbn.
  - symmetry. apply elem_of_list_to_map; [done|]. apply (dw_items _ _ _ Hwf) in E as Hq.
    apply list_elem_of_fmap. exists k. split; [|by eapply list_elem_of_lookup_2].
    unfold entry. by rewrite E.
  - symmetry. apply not_elem_of_list_to_map. rewrite Hk. intros [i Hi]%list_elem_of_lookup.
    apply (dw_queue _ _ _ Hwf) in Hi as [o Ho]. congruence.
Qed.

(** Contents after a change that permutes the elements. *)
Lemma contents_perm h (l : list (string * option Obj)) :
  data_wf kf less (data h) → entries (data h) ≡ₚ l → contents h = list_to_map l.
Proof.
  intros Hwf Hp. destruct (contents_entries h Hwf) as [-> Hnd]. by apply list_to_map_proper.
Qed.

Lemma push_inv key o h :
  heap_inv h → items (data h) !! key = None →
  heap_inv (set_heap (ContainerHeap.Push (key, o) (data h)) h) ∧
  contents (set_heap (ContainerHeap.Push (key, o) (data h)) h) = <[key := o]> (contents h).
Proof.
  intros [Hwf Hh] Hk.
  destruct (Push_spec elt (HeapLaws0:=Laws) elt_asym elt_neg_trans (key, o) (data h) Hwf Hh Hk) as (H1 & H2 & H3).
  split; [by split|]. destruct (contents_entries h Hwf) as [-> Hnd].
  rewrite (contents_perm _ ((key, o) :: entries (data h))); [done|done|].
  cbn. etransitivity; [exact H3|]. by rewrite Permutation_app_comm.
Qed.

Lemma fix_inv key o item h :
  heap_inv h → items (data h) !! key = Some item →
  let d := set_data (<[key := set_obj o item]> (items (data h))) (queue (data h)) (data h) in
  let h' := set_heap (ContainerHeap.Fix (index item) d) h in
  heap_inv h' ∧ contents h' = <[key := o]> (contents h).
Proof.
  intros [Hwf Hh] Hk d h'. pose proof (dw_items _ _ _ Hwf _ _ Hk) as Hi.
  assert (data_wf kf less d) as Hwd.
  { split; cbn; [by apply Hwf|by apply Hwf| |].
    - intros i k Hq. destruct (dw_queue _ _ _ Hwf _ _ Hq) as [o' Ho']. rewrite lookup_insert.
      case_decide as Hkk; [|eauto]. subst k. assert (item = Build_heapItem o' i) as -> by congruence.
      by exists o.
    - intros k it. rewrite lookup_insert. case_decide as Hkk; [|by apply Hwf].
      intros [= <-]. by subst. }
  assert (entries d = <[index item := (key, o)]> (entries (data h))) as Hel.
  { apply list_eq. intros i. unfold entries. rewrite list_lookup_fmap. cbn.
    destruct (decide (i = index item)) as [->|Hne].
    - rewrite list_lookup_insert_eq by (rewrite length_fmap; by eapply lookup_lt_Some).
      rewrite Hi. cbn. unfold entry. cbn. by rewrite lookup_insert_eq.
    - rewrite list_lookup_insert_ne, list_lookup_fmap by done.
      destruct (queue (data h) !! i) as [k|] eqn:E; [|done]. cbn. unfold entry. cbn.
      rewrite lookup_insert_ne; [done|]. intros ->. destruct Hne. by eapply (dw_inj kf less). }
  assert (index item < length (entries (data h))) as Hlt.
  { unfold entries. rewrite length_fmap. by eapply lookup_lt_Some. }
  destruct (Fix_spec elt (HeapLaws0:=Laws) elt_asym elt_neg_trans (index item) d Hwd) as (H1 & H2 & H3).
  { change (index item < length (entries d)). by rewrite Hel, length_insert. }
  { change (heap_but elt (entries d) (length (entries d)) (index item)).
    rewrite Hel, length_insert. by apply (heap_but_insert elt elt_neg_trans). }
  split; [by split|].
  transitivity (contents (set_heap d h)).
  - destruct (contents_entries (set_heap d h) Hwd) as [-> _]. by apply contents_perm.
  - unfold contents. cbn. by rewrite fmap_insert.
Qed.

Lemma add_locked_inv key o h :
  heap_inv h → heap_inv (add_locked key o h) ∧ contents (add_locked key o h) = <[key := o]> (contents h).
Proof.
  intros Hi. unfold add_locked, addIfNotPresentLocked.
  destruct (items (data h) !! key) as [item|] eqn:E; [by apply fix_inv|by apply push_inv].
Qed.

Lemma remove_inv item key h :
  heap_inv h → items (data h) !! key = Some item →
  ∃ d, ContainerHeap.Remove (index item) (data h) = Ret (obj item) d ∧
    heap_inv (set_heap d h) ∧ contents (set_heap d h) = delete key (contents h).
Proof.
  intros [Hwf Hh] Hk. pose proof (dw_items _ _ _ Hwf _ _ Hk) as Hi.
  destruct (Remove_spec elt (HeapLaws0:=Laws) elt_asym elt_neg_trans (index item) (data h) (key, obj item) Hwf Hh)
    as (d & Hr & H1 & H2 & H3).
  { change (entries (data h) !! index item = Some (key, obj item)). unfold entries. rewrite list_lookup_fmap, Hi. cbn. unfold entry. by rewrite Hk. }
  exists d. split_and!; [done|by split|]. cbn in H3.
  destruct (contents_entries h Hwf) as [_ Hnd].
  rewrite (contents_perm h ((key, obj item) :: entries d)) by done.
  destruct (contents_entries (set_heap d h) H1) as [-> _]. cbn.
  rewrite <-H3 in Hnd. apply NoDup_cons in Hnd as [Hnk _].
  rewrite delete_insert_id; [done|]. by apply not_elem_of_list_to_map.
Qed.

Lemma pop_least h :
  heap_inv h → queue (data h) ≠ [] →
  ∃ k o d, ContainerHeap.Pop (data h) = Ret o d ∧ contents h !! k = Some o ∧
    heap_inv (set_heap d h) ∧ contents (set_heap d h) = delete k (contents h) ∧
    ∀ k' o', contents h !! k' = Some o' → less o' o = false.
Proof.
  intros [Hwf Hh] Hq. destruct (queue (data h)) as [|k q] eqn:Eq; [done|].
  destruct (dw_queue _ _ _ Hwf 0 k) as [o Ho]; [by rewrite Eq|].
  destruct (Pop_spec elt (HeapLaws0:=Laws) elt_asym elt_neg_trans (data h) (k, o) Hwf Hh)
    as (d & Hr & H1 & H2 & H3 & Hmin).
  { change (entries (data h) !! 0 = Some (k, o)). unfold entries. rewrite Eq. cbn. unfold entry. by rewrite Ho. }
  destruct (contents_entries h Hwf) as [Hc Hnd].
  exists k, o, d. cbn in H3. split_and!; [done| |by split| |].
  - unfold contents. by rewrite lookup_fmap, Ho.
  - rewrite (contents_perm h ((k, o) :: entries d)) by done.
    destruct (contents_entries (set_heap d h) H1) as [-> _]. cbn.
    rewrite <-H3 in Hnd. apply NoDup_cons in Hnd as [Hnk _].
    rewrite delete_insert_id; [done|]. by apply not_elem_of_list_to_map.
  - intros k' o' Hk'. rewrite Hc in Hk'. apply elem_of_list_to_map_2 in Hk'.
    exact (Hmin (k', o') Hk').
Qed.

Lemma bulk_add_inv l h :
  heap_inv h → heap_inv (bulk_add l h).2 ∧ put_all kf l (contents h) = ((bulk_add l h).1, contents (bulk_add l h).2).
Proof.
  revert h. induction l as [|o l IH]; intros h Hi; [done|]. cbn [bulk_add put_all].
  rewrite (dw_key _ _ _ (hi_wf _ Hi)). destruct (kf o) as [key|err]; [|done].
  destruct (add_locked_inv key o h Hi) as [Hi' Hc]. rewrite <-Hc. by apply IH.
Qed.

(** Every operation returns, keeps the invariant and acts as the specification. *)
Lemma heap_run_inv op h :
  heap_inv h → ∃ r h', heap_run op h = Ret r h' ∧ heap_inv h' ∧
    heap_spec kf less op (contents h) (closed h) r (contents h').
Proof.
  intros Hi. pose proof (dw_key _ _ _ (hi_wf _ Hi)) as Hkf. destruct op as [o|o|o|l|o| |]; cbn [heap_run].
  1,2: unfold Update, Add; rewrite Hkf; cbn; unfold keyed_put; destruct (kf o) as [key|err];
    [destruct (closed h)|]; try (eexists _, _; split_and!; [done|done|by eexists]).
  1,2: destruct (add_locked_inv key o h Hi) as [Hi' Hc]; eexists _, _; split_and!; [done|done|];
    rewrite Hc; by eexists.
  - unfold AddIfNotPresent. rewrite Hkf. cbn. unfold keyed_put. destruct (kf o) as [key|err];
      [destruct (closed h)|]; try (eexists _, _; split_and!; [done|done|by eexists]).
    unfold addIfNotPresentLocked. rewrite contents_lookup.
    destruct (items (data h) !! key) as [item|] eqn:E; cbn.
    + eexists _, _. split_and!; [done|done|by eexists].
    + destruct (push_inv key o h Hi E) as [Hi' Hc]. eexists _, _. split_and!; [done|done|].
      rewrite Hc. by eexists.
  - unfold BulkAdd. cbn. destruct (closed h); [eexists _, _; split_and!; [done|done|by eexists]|].
    destruct (bulk_add_inv l h Hi) as [Hi' ->]. destruct (bulk_add l h) as [e h'].
    eexists _, _. split_and!; [done|done|by eexists].
  - cbn. unfold Delete, mbind, st_bind. rewrite Hkf. destruct (kf o) as [key|err];
      [|eexists _, _; by split_and!].
    rewrite contents_lookup.
    destruct (items (data h) !! key) as [item|] eqn:E; cbn.
    + destruct (remove_inv item key h Hi E) as (d & -> & Hi' & Hc). eexists _, _. by split_and!.
    + eexists _, _. split_and!; [done|done| |done]. symmetry. apply delete_id.
      by rewrite contents_lookup, E.
  - cbn. unfold Pop, mbind, st_bind. case_bool_decide as Hq.
    + eexists _, _. split_and!; [done|done|]. left.
      assert (contents h = ∅) as ->; [|done]. destruct (contents_entries h (hi_wf _ Hi)) as [-> _].
      unfold entries. destruct (queue (data h)); [done|]. cbn in Hq. lia.
    + destruct (pop_least h Hi) as (k & o & d & -> & Hk & Hi' & Hc & Hmin); [by intros E; rewrite E in Hq|].
      destruct o as [x|]; (eexists _, _; split_and!; [done|done|]); right; by eexists _, _.
  - cbn. eexists _, _. split_and!; [done|destruct Hi; by split|done..].
Qed.

(** Runs of the heap, with the closed flag and the contents they pass through. *)
Inductive heap_reach : Heap Obj → Prop :=
| heap_reach_new : heap_reach (NewHeap kf less)
| heap_reach_step h op r h' : heap_reach h → heap_run op h = Ret r h' → heap_reach h'.

Lemma heap_reach_inv h : heap_reach h → heap_inv h.
Proof.
  induction 1 as [|h op r h' _ IH Hr].
  - split; [split|]; [done|done| | |].
    + intros i k Hk. cbn in Hk. by destruct i.
    + intros k it Hk. cbn in Hk. by rewrite lookup_empty in Hk.
    + intros j Hj. cbn in Hj. lia.
  - destruct (heap_run_inv op h IH) as (r1 & h1 & Hr1 & Hi & _).
    rewrite Hr in Hr1. by injection Hr1 as <- <-.
Qed.

(** [C31] Under a strict weak order, no call on a reachable heap panics, and each acts
    on the stored objects as on a map, errors included; in particular [Pop] returns and
    removes an object below which there is no other, and waits or reports a closed heap
    only when the heap is empty. *)
Theorem heap_refines_map h op :
  heap_reach h → ∃ r h', heap_run op h = Ret r h' ∧
    heap_spec kf less op (contents h) (closed h) r (contents h').
Proof.
  intros Hi%heap_reach_inv. destruct (heap_run_inv op h Hi) as (r & h' & Hr & _ & Hs). eauto.
Qed.

(** In every reachable heap each key is in the queue exactly once, at the position
    its item records, and no object is below its parent in the binary heap. *)
Theorem heap_positions_exact h :
  heap_reach h →
  NoDup (queue (data h)) ∧
  (∀ i k, queue (data h) !! i = Some k ↔ ∃ o, items (data h) !! k = Some (Build_heapItem o i)) ∧
  (∀ j k k' o o', 0 < j → queue (data h) !! j = Some k → queue (data h) !! ((j - 1) / 2) = Some k' →
     contents h !! k = Some o → contents h !! k' = Some o' → less o o' = false).
Proof.
  intros [Hwf Hh]%heap_reach_inv. split_and!.
  - apply NoDup_alt. intros i j k. by apply (dw_inj kf less).
  - intros i k. split; [apply Hwf|]. intros [o Ho]. by apply (dw_items _ _ _ Hwf) in Ho.
  - intros j k k' o o' Hj Hk Hk' Ho Ho'.
    apply (Hh j) with (x := (k', o')) (y := (k, o)).
    + split; [done|]. change (j < length (entries (data h))). unfold entries. rewrite length_fmap.
      by eapply lookup_lt_Some.
    + change (entries (data h) !! parent j = Some (k', o')). unfold entries.
      rewrite list_lookup_fmap. unfold parent. rewrite Hk'. cbn. unfold entry.
      rewrite contents_lookup in Ho'. by destruct (items (data h) !! k'); simplify_eq/=.
    + change (entries (data h) !! j = Some (k, o)). unfold entries.
      rewrite list_lookup_fmap, Hk. cbn. unfold entry.
      rewrite contents_lookup in Ho. by destruct (items (data h) !! k); simplify_eq/=.
Qed.
End correctness.

(** ** Witnesses: named numbers, ordered by value *)
Definition hex_key (o : option (string * nat)) : res string string :=
  match o with Some (k, _) => Ok k | None => Err "no key" end.

Definition hex_less (x y : option (string * nat)) : bool :=
  bool_decide (default 0 (snd <$> x) < default 0 (snd <$> y)).

Lemma hex_asym x y : hex_less x y = true → hex_less y x = false.
Proof. unfold hex_less. rewrite bool_decide_eq_true, bool_decide_eq_false. lia. Qed.

Lemma hex_neg_trans x y z : hex_less x y = false → hex_less y z = false → hex_less x z = false.
Proof. unfold hex_less. rewrite !bool_decide_eq_false. lia. Qed.

Definition hex_heap : Heap (string * nat) :=
  final (heap_run (HBulkAdd [Some ("b", 5); Some ("a", 3); Some ("c", 1); Some ("b", 0)])
    (NewHeap hex_key hex_less)).

Lemma hex_reach : heap_reach hex_key hex_less hex_heap.
Proof.
  eapply (heap_reach_step _ _ _ (HBulkAdd [Some ("b", 5); Some ("a", 3); Some ("c", 1); Some ("b", 0)]));
    [constructor|reflexivity].
Qed.

Lemma heap_refines_map_witness :
  ∃ r h', heap_run HPop hex_heap = Ret r h' ∧
    heap_spec hex_key hex_less HPop (contents hex_heap) (closed hex_heap) r (contents h').
Proof.
  exact (heap_refines_map hex_key hex_less hex_asym hex_neg_trans hex_heap HPop hex_reach).
Defined.

Lemma heap_positions_exact_witness : queue (data hex_heap) = ["b"; "c"; "a"] ∧ NoDup (queue (data hex_heap)).
Proof.
  split; [reflexivity|].
  apply (heap_positions_exact hex_key hex_less hex_asym hex_neg_trans hex_heap hex_reach).
Defined.
