(* ===== verification/WorkQueue.v ===== *)
(** * The work queue (k8s.io/client-go/util/workqueue/queue.go)

    Items wait in [queue]; [dirty] are the items that need processing, [processing] the
    ones workers have taken and not finished.  Every method holds the lock, hence is
    one transition; a [Get] that would wait is the result [GetBlocked].  Metrics are
    left out. *)

From S2P Require Import Prelude.

Section WorkQueue.
Context {A : Type} `{Countable A}.

Record Queue := {
  queue : list A;
  dirty : gset A;
  processing : gset A;
  shuttingDown : bool;
}.

Definition New : Queue :=
  {| queue := []; dirty := ∅; processing := ∅; shuttingDown := false |}.

Definition has (s : gset A) (item : A) : bool := bool_decide (item ∈ s).
Definition insert_ (s : gset A) (item : A) : gset A := {[item]} ∪ s.
Definition delete_ (s : gset A) (item : A) : gset A := s ∖ {[item]}.

Definition Add (item : A) (q : Queue) : Queue :=
  if shuttingDown q then q
  else if has (dirty q) item then q
  else
    let q := {| queue := queue q; dirty := insert_ (dirty q) item; processing := processing q;
                shuttingDown := shuttingDown q |} in
    if has (processing q) item then q
    else {| queue := queue q ++ [item]; dirty := dirty q; processing := processing q;
            shuttingDown := shuttingDown q |}.

Definition Len (q : Queue) : nat := length (queue q).

Inductive GetResult : Type :=
| Got (item : A)
| GetShutdown
| GetBlocked.

Definition Get (q : Queue) : GetResult * Queue :=
  match queue q with
  | [] => (if shuttingDown q then GetShutdown else GetBlocked, q)
  | item :: rest =>
    (Got item, {| queue := rest; dirty := delete_ (dirty q) item;
                  processing := insert_ (processing q) item; shuttingDown := shuttingDown q |})
  end.

Definition Done (item : A) (q : Queue) : Queue :=
  let q := {| queue := queue q; dirty := dirty q; processing := delete_ (processing q) item;
              shuttingDown := shuttingDown q |} in
  if has (dirty q) item
  then {| queue := queue q ++ [item]; dirty := dirty q; processing := processing q;
          shuttingDown := shuttingDown q |}
  else q.

Definition ShutDown (q : Queue) : Queue :=
  {| queue := queue q; dirty := dirty q; processing := processing q; shuttingDown := true |}.

Definition ShuttingDown (q : Queue) : bool := shuttingDown q.

(** ** Runs

    "You must call Done with item when you have finished processing it": [Done] is
    called for items that a [Get] has handed out and no [Done] has ended. *)
Inductive wevent : Type :=
| WAdd (x : A)
| WGet (x : A)      (* a Get that returned [x] *)
| WDone (x : A)
| WShutDown.

Inductive wstep (q : Queue) : wevent → Queue → Prop :=
| wstep_add x : wstep q (WAdd x) (Add x q)
| wstep_get x q' : Get q = (Got x, q') → wstep q (WGet x) q'
| wstep_done x : x ∈ processing q → wstep q (WDone x) (Done x q)
| wstep_shutdown : wstep q WShutDown (ShutDown q).

(** The events of a run, newest first. *)
Inductive wrun : list wevent → Queue → Prop :=
| wrun_new : wrun [] New
| wrun_step es q e q' : wrun es q → wstep q e q' → wrun (e :: es) q'.

(** "Every element of queue should be in the dirty set and not in the processing set",
    once, and nothing else is. *)
Record winv (q : Queue) : Prop := {
  wi_nodup : NoDup (queue q);
  wi_queue x : x ∈ queue q ↔ x ∈ dirty q ∧ x ∉ processing q;
}.

Lemma winv_New : winv New.
Proof. split; cbn; [apply NoDup_nil_2|set_solver]. Qed.

Lemma winv_step q e q' : winv q → wstep q e q' → winv q'.
Proof.
  intros [Hnd Hq]. destruct 1 as [x|x q' Hg|x Hx|].
  - unfold Add, has, insert_. destruct (shuttingDown q); [done|].
    case_bool_decide as Hd; [done|]. cbn. case_bool_decide as Hp; split; cbn.
    + done.
    + intros y. specialize (Hq y). set_solver.
    + apply NoDup_app. split_and!; [done|set_solver|apply NoDup_singleton].
    + intros y. specialize (Hq y). set_solver.
  - unfold Get in Hg. destruct (queue q) as [|y rest] eqn:E; [by destruct (shuttingDown q)|].
    injection Hg as -> <-. apply NoDup_cons in Hnd as [Hx Hnd].
    split; cbn; [done|]. unfold delete_, insert_. intros z. specialize (Hq z). set_solver.
  - unfold Done, has, delete_. cbn. case_bool_decide as Hd; split; cbn.
    + apply NoDup_app. split_and!; [done|set_solver|apply NoDup_singleton].
    + intros y. specialize (Hq y). destruct (decide (y = x)); set_solver.
    + done.
    + intros y. specialize (Hq y). set_solver.
  - by split.
Qed.

Lemma winv_run es q : wrun es q → winv q.
Proof. induction 1; [apply winv_New|by eapply winv_step]. Qed.

(** ** What the events say about one item *)

(** Whether [x] needs processing, and whether it is being processed, from the events
    alone: an addition marks it unless the queue is shutting down, a [Get] takes the
    mark and starts processing, a [Done] ends it. *)
Fixpoint shut (es : list wevent) : bool :=
  match es with
  | [] => false
  | WShutDown :: _ => true
  | _ :: es' => shut es'
  end.

Fixpoint marked (x : A) (es : list wevent) : bool :=
  match es with
  | [] => false
  | WAdd y :: es' => marked x es' || (bool_decide (x = y) && negb (shut es'))
  | WGet y :: es' => marked x es' && negb (bool_decide (x = y))
  | _ :: es' => marked x es'
  end.

Fixpoint busy (x : A) (es : list wevent) : bool :=
  match es with
  | [] => false
  | WGet y :: es' => busy x es' || bool_decide (x = y)
  | WDone y :: es' => busy x es' && negb (bool_decide (x = y))
  | _ :: es' => busy x es'
  end.

Lemma run_abs es q :
  wrun es q →
  shuttingDown q = shut es ∧ (∀ x, x ∈ dirty q ↔ marked x es = true) ∧
  (∀ x, x ∈ processing q ↔ busy x es = true).
Proof.
  induction 1 as [|es q e q' Hr (IHs & IHd & IHp) Hs]; [cbn; set_solver|].
  destruct Hs as [x|x q' Hg|x Hx|]; cbn.
  - unfold Add, has, insert_. rewrite IHs. destruct (shut es) eqn:Es; cbn.
    { split_and!; [done| |done]. intros y. by rewrite andb_false_r, orb_false_r. }
    assert (∀ y, y ∈ {[x]} ∪ dirty q ↔ marked y es || bool_decide (y = x) && true = true) as Hd.
    { intros y. rewrite andb_true_r, orb_true_iff, bool_decide_eq_true, <-IHd. set_solver. }
    case_bool_decide as Hin; cbn.
    + split_and!; [congruence| |done]. intros y. rewrite <-Hd. set_solver.
    + case_bool_decide; cbn; split_and!; done || congruence.
  - unfold Get in Hg. destruct (queue q) as [|y rest] eqn:E; [by destruct (shuttingDown q)|].
    injection Hg as -> <-. cbn. unfold delete_, insert_. split_and!; [done| |].
    + intros y. rewrite andb_true_iff, negb_true_iff, bool_decide_eq_false, <-IHd. set_solver.
    + intros y. rewrite orb_true_iff, bool_decide_eq_true, <-IHp. set_solver.
  - unfold Done, has, delete_. cbn.
    assert (∀ y, y ∈ processing q ∖ {[x]} ↔ busy y es && negb (bool_decide (y = x)) = true) as Hp.
    { intros y. rewrite andb_true_iff, negb_true_iff, bool_decide_eq_false, <-IHp. set_solver. }
    case_bool_decide; cbn; by split_and!.
  - done.
Qed.

(** [C32] In every run of the work queue where [Done] is called only for items that are
    being processed, the state is what the events imply: the queue
    holds, once each, exactly the items that were added since they were last handed out
    and are not being processed; so [Get] never hands out an item that another worker
    is still processing, and it waits (or reports the shutdown) only when every item
    that needs processing is being processed. *)
Theorem workqueue_exact es q :
  wrun es q →
  NoDup (queue q) ∧
  (∀ x, x ∈ queue q ↔ marked x es = true ∧ busy x es = false) ∧
  match Get q with
  | (Got x, _) => marked x es = true ∧ busy x es = false
  | (r, q') => q' = q ∧ r = (if shut es then GetShutdown else GetBlocked) ∧
      ∀ x, marked x es = true → busy x es = true
  end.
Proof.
  intros Hr. destruct (run_abs es q Hr) as (Hs & Hd & Hp). destruct (winv_run es q Hr) as [Hnd Hq].
  assert (∀ x, x ∈ queue q ↔ marked x es = true ∧ busy x es = false) as Hx.
  { intros x. by rewrite Hq, Hd, Hp, not_true_iff_false. }
  split_and!; [done|done|]. unfold Get. destruct (queue q) as [|x rest].
  - rewrite Hs. assert (∀ x, marked x es = true → busy x es = true) as Hall.
    { intros x Hm. destruct (busy x es) eqn:E; [done|].
      destruct (not_elem_of_nil x). by apply Hx. }
    by destruct (shut es).
  - apply Hx. set_solver.
Qed.

(** ** Draining *)

(** A worker: take an item, process it, report it done. *)
Fixpoint worker (n : nat) (q : Queue) : list A * Queue :=
  match n with
  | 0 => ([], q)
  | S n' =>
    match Get q with
    | (Got x, q1) => let '(xs, q2) := worker n' (Done x q1) in (x :: xs, q2)
    | (_, q1) => ([], q1)
    end
  end.

(** No work is lost and none is done twice: once the other workers have finished,
    a worker handles each waiting item exactly once, in the order of the queue, and
    leaves nothing marked; after a shutdown it is then told to exit. *)
Theorem worker_drains_queue es q :
  wrun es q → processing q = ∅ →
  ∃ q', worker (length (queue q)) q = (queue q, q') ∧ (∀ x, x ∈ dirty q ↔ x ∈ queue q) ∧
    queue q' = [] ∧ dirty q' = ∅ ∧ processing q' = ∅ ∧
    Get q' = (if shuttingDown q then GetShutdown else GetBlocked, q').
Proof.
  intros Hr%winv_run Hp. remember (queue q) as l eqn:El. revert q Hr Hp El.
  induction l as [|x l IH]; intros q [Hnd Hq] Hp El.
  - assert (dirty q = ∅) as Hd.
    { apply set_eq. intros x. rewrite Hp in Hq. specialize (Hq x). rewrite <-El in Hq. set_solver. }
    exists q. split_and!; [done| |done..|].
    + rewrite Hd. set_solver.
    + unfold Get. by rewrite <-El.
  - cbn [length worker]. unfold Get. rewrite <-El. rewrite <-El in Hnd, Hq.
    apply NoDup_cons in Hnd as [Hx Hnd].
    set (q1 := Done x _).
    assert (queue q1 = l ∧ dirty q1 = dirty q ∖ {[x]} ∧ processing q1 = ∅ ∧
      shuttingDown q1 = shuttingDown q) as (E1 & E2 & E3 & E4).
    { unfold q1, Done, has, delete_, insert_. cbn. rewrite bool_decide_eq_false_2 by set_solver. cbn.
      rewrite Hp. split_and!; [done|done|set_solver|done]. }
    destruct (IH q1) as (q' & Hw & _ & ? & ? & ? & ?).
    + split; [by rewrite E1|]. intros y. rewrite E1, E2, E3. specialize (Hq y). rewrite Hp in Hq.
      set_solver.
    + done.
    + done.
    + exists q'. rewrite Hw, E4 in *. split_and!; try done.
      intros y. specialize (Hq y). rewrite Hp in Hq. set_solver.
Qed.
End WorkQueue.
Arguments Queue A {_ _} : assert.

Definition wex_events : list (wevent (A:=nat)) := [WAdd 1; WAdd 3; WAdd 2; WGet 1; WAdd 1].

Definition wex_queue : Queue nat := Add 1 (Add 3 (Add 2 (Get (Add 1 New)).2)).

Lemma wex_run : wrun wex_events wex_queue.
Proof.
  eapply wrun_step; [|apply wstep_add]. eapply wrun_step; [|apply wstep_add].
  eapply wrun_step; [|apply wstep_add]. apply (wrun_step _ (Add 1 New)); [|by apply wstep_get].
  eapply wrun_step; [|apply wstep_add]. apply wrun_new.
Qed.

(** Item 1 is being processed and was added again: it is marked but not queued. *)
Lemma workqueue_exact_witness :
  queue wex_queue = [2; 3] ∧ 1 ∈ dirty wex_queue ∧ NoDup (queue wex_queue).
Proof.
  split; [reflexivity|]. split; [by apply (bool_decide_unpack _); vm_compute|].
  apply (workqueue_exact wex_events wex_queue wex_run).
Defined.

Lemma worker_drains_queue_witness :
  (worker 3 (Done 1 wex_queue)).1 = [2; 3; 1].
Proof.
  assert (wrun (WDone 1 :: wex_events) (Done 1 wex_queue)) as Hr.
  { eapply wrun_step; [exact wex_run|]. apply wstep_done.
    by apply (bool_decide_unpack _); vm_compute. }
  destruct (worker_drains_queue _ (Done 1 wex_queue) Hr) as (q' & Hw & _); [reflexivity|].
  change (queue (Done 1 wex_queue)) with [2; 3; 1] in Hw. cbn [length] in Hw. by rewrite Hw.
Defined.
