(* ===== verification/TokenBucket.v ===== *)
(** * The token bucket (github.com/juju/ratelimit/ratelimit.go)

    Times and durations are nanoseconds; the clock is read once per call, and the
    reading is an argument.  Arithmetic is that of [int64]. *)

From S2P Require Import Prelude.
Open Scope Z_scope.

Record Bucket := {
  startTime : Z;
  capacity : Z;
  quantum : Z;
  fillInterval : Z;
  availableTokens : Z;
  latestTick : Z;
}.

Definition set_tokens (tokens tick : Z) (tb : Bucket) : Bucket :=
  {| startTime := startTime tb; capacity := capacity tb; quantum := quantum tb;
     fillInterval := fillInterval tb; availableTokens := tokens; latestTick := tick |}.

(** [None] is the panic on arguments that are not positive. *)
Definition NewBucketWithQuantumAndClock (fill cap q now : Z) : option Bucket :=
  if bool_decide (fill ≤ 0) then None
  else if bool_decide (cap ≤ 0) then None
  else if bool_decide (q ≤ 0) then None
  else Some {| startTime := now; capacity := cap; quantum := q; fillInterval := fill;
               availableTokens := cap; latestTick := 0 |}.

Definition NewBucket (fill cap now : Z) : option Bucket :=
  NewBucketWithQuantumAndClock fill cap 1 now.

Definition NewBucketWithQuantum (fill cap q now : Z) : option Bucket :=
  NewBucketWithQuantumAndClock fill cap q now.

Definition nextQuantum (q : Z) : Z :=
  let q1 := Z.quot (i64 (q * 11)) 10 in
  if bool_decide (q1 = q) then q1 + 1 else q1.

Definition infinityDuration : Z := 2 ^ 63 - 1.

(** Times are less than 292 years apart, where [Sub] saturates. *)
Definition currentTick (now : Z) (tb : Bucket) : Z := Z.quot (now - startTime tb) (fillInterval tb).

Definition adjustavailableTokens (tick : Z) (tb : Bucket) : Bucket :=
  if bool_decide (capacity tb ≤ availableTokens tb) then tb
  else
    let tokens := i64 (availableTokens tb + i64 (i64 (tick - latestTick tb) * quantum tb)) in
    let tokens := if bool_decide (capacity tb < tokens) then capacity tb else tokens in
    set_tokens tokens tick tb.

Definition take_ (now count maxWait : Z) (tb : Bucket) : Z * bool * Bucket :=
  if bool_decide (count ≤ 0) then (0, true, tb)
  else
    let tick := currentTick now tb in
    let tb := adjustavailableTokens tick tb in
    let avail := i64 (availableTokens tb - count) in
    if bool_decide (0 ≤ avail) then (0, true, set_tokens avail (latestTick tb) tb)
    else
      let endTick := i64 (tick + Z.quot (i64 (- avail + quantum tb - 1)) (quantum tb)) in
      let endTime := startTime tb + i64 (endTick * fillInterval tb) in
      let waitTime := endTime - now in
      if bool_decide (maxWait < waitTime) then (0, false, tb)
      else (waitTime, true, set_tokens avail (latestTick tb) tb).

Definition Take (now count : Z) (tb : Bucket) : Z * Bucket :=
  let '(d, _, tb) := take_ now count infinityDuration tb in (d, tb).

Definition TakeMaxDuration (now count maxWait : Z) (tb : Bucket) : Z * bool * Bucket :=
  take_ now count maxWait tb.

Definition takeAvailable (now count : Z) (tb : Bucket) : Z * Bucket :=
  if bool_decide (count ≤ 0) then (0, tb)
  else
    let tb := adjustavailableTokens (currentTick now tb) tb in
    if bool_decide (availableTokens tb ≤ 0) then (0, tb)
    else
      let count := if bool_decide (availableTokens tb < count) then availableTokens tb else count in
      (count, set_tokens (i64 (availableTokens tb - count)) (latestTick tb) tb).

Definition available (now : Z) (tb : Bucket) : Z * Bucket :=
  let tb := adjustavailableTokens (currentTick now tb) tb in (availableTokens tb, tb).

Definition Capacity (tb : Bucket) : Z := capacity tb.

(** [Wait]: the duration slept, if any. *)
Definition Wait (now count : Z) (tb : Bucket) : option Z * Bucket :=
  let '(d, tb) := Take now count tb in
  (if bool_decide (0 < d) then Some d else None, tb).

Definition WaitMaxDuration (now count maxWait : Z) (tb : Bucket) : option Z * bool * Bucket :=
  let '(d, ok, tb) := TakeMaxDuration now count maxWait tb in
  (if bool_decide (0 < d) then Some d else None, ok, tb).

(** ** Runs: takes at times that do not decrease *)
Inductive bucket_op : Type :=
| BTake (count maxWait : Z)
| BTakeAvailable (count : Z)
| BAvailable.

(** The tokens an operation grants, and how long it tells the caller to wait. *)
Definition run_op (now : Z) (o : bucket_op) (tb : Bucket) : Z * Z * Bucket :=
  match o with
  | BTake count maxWait =>
    let '(d, ok, tb) := TakeMaxDuration now count maxWait tb in
    (if ok then Z.max 0 count else 0, d, tb)
  | BTakeAvailable count => let '(n, tb) := takeAvailable now count tb in (n, 0, tb)
  | BAvailable => let '(_, tb) := available now tb in (0, 0, tb)
  end.

(** [bucket_run tb0 now granted tb]: calls at times up to [now] have granted [granted]
    tokens in all.  All quantities stay below 2^61, far from overflow. *)
Definition moderate (z : Z) : Prop := - 2 ^ 61 ≤ z ≤ 2 ^ 61.

Definition op_moderate (now : Z) (o : bucket_op) (tb : Bucket) : Prop :=
  moderate (quantum tb * (currentTick now tb + 1)) ∧
  match o with
  | BTake count _ =>
    moderate count ∧
    moderate ((currentTick now tb + Z.abs count + Z.abs (availableTokens tb) + 1) * fillInterval tb)
  | BTakeAvailable count => moderate count
  | BAvailable => True
  end ∧ moderate (availableTokens tb).

Inductive bucket_run (tb0 : Bucket) : Z → Z → Bucket → Prop :=
| bucket_start : bucket_run tb0 (startTime tb0) 0 tb0
| bucket_step now granted tb now' o n d tb' :
    bucket_run tb0 now granted tb → now ≤ now' → op_moderate now' o tb →
    run_op now' o tb = (n, d, tb') →
    bucket_run tb0 now' (granted + n) tb'.

(** Invariant: what was granted and what is left come from the initial contents and
    from the ticks counted so far. *)
Record bucket_inv (tb0 : Bucket) (now granted : Z) (tb : Bucket) : Prop := {
  bi_config : startTime tb = startTime tb0 ∧ capacity tb = capacity tb0 ∧
    quantum tb = quantum tb0 ∧ fillInterval tb = fillInterval tb0;
  bi_pos : 0 < quantum tb ∧ 0 < fillInterval tb ∧ 0 < capacity tb ≤ 2 ^ 61;
  bi_now : startTime tb ≤ now;
  bi_tick : 0 ≤ latestTick tb ≤ currentTick now tb;
  bi_cap : availableTokens tb ≤ capacity tb;
  bi_total : granted + availableTokens tb ≤ capacity tb + quantum tb * latestTick tb;
}.

Lemma currentTick_mono now now' tb :
  0 < fillInterval tb → startTime tb ≤ now → now ≤ now' →
  0 ≤ currentTick now tb ≤ currentTick now' tb.
Proof.
  intros Hf Hs Hn. unfold currentTick. split.
  - apply Z.quot_pos; lia.
  - apply Z.quot_le_mono; lia.
Qed.

Lemma adjust_inv tb0 now granted tb now' :
  bucket_inv tb0 now granted tb → now ≤ now' →
  moderate (quantum tb * (currentTick now' tb + 1)) → moderate (availableTokens tb) →
  let tb' := adjustavailableTokens (currentTick now' tb) tb in
  bucket_inv tb0 now' granted tb' ∧ currentTick now' tb' = currentTick now' tb ∧
  availableTokens tb ≤ availableTokens tb'.
Proof.
  intros [Hc Hp Hn Ht Hcap Htot] Hle Hm Ha. cbn zeta.
  pose proof (currentTick_mono now now' tb ltac:(lia) Hn Hle) as Hmono.
  unfold adjustavailableTokens. case_bool_decide as Hfull.
  { split_and!; [|done|lia]. split; try done; lia. }
  assert (currentTick now' tb - latestTick tb ≤ quantum tb * (currentTick now' tb + 1)) by nia.
  assert (0 ≤ (currentTick now' tb - latestTick tb) * quantum tb ≤
    quantum tb * (currentTick now' tb + 1)) by nia.
  unfold moderate in *.
  rewrite (i64_id (currentTick now' tb - latestTick tb)) by (unfold in_i64; lia).
  rewrite (i64_id ((currentTick now' tb - latestTick tb) * quantum tb)) by (unfold in_i64; lia).
  rewrite i64_id by (unfold in_i64; lia).
  assert (∀ x t, currentTick now' (set_tokens x t tb) = currentTick now' tb) as Heq by done.
  split_and!; [|done|cbn; case_bool_decide; nia].
  split; cbn [set_tokens startTime capacity quantum fillInterval availableTokens latestTick];
    rewrite ?Heq; try done; try lia; case_bool_decide; nia.
Qed.

(** Rounding the missing tokens up to whole ticks. *)
Lemma missing_ticks x q :
  0 < q → 0 < x → let t := Z.quot (x + q - 1) q in x ≤ q * t ∧ 0 < t ≤ x.
Proof.
  intros Hq Hx t. unfold t. rewrite Z.quot_div_nonneg by lia.
  pose proof (Z.div_mod (x + q - 1) q ltac:(lia)).
  pose proof (Z.mod_pos_bound (x + q - 1) q Hq). split; [lia|]. nia.
Qed.

Lemma tick_of_time t tb :
  0 < fillInterval tb → currentTick (startTime tb + t * fillInterval tb) tb = t.
Proof.
  intros Hf. unfold currentTick.
  replace (startTime tb + t * fillInterval tb - startTime tb) with (t * fillInterval tb) by lia.
  apply Z.quot_mul. lia.
Qed.

(** The last part of [take], on adjusted tokens; [M] bounds the missing tokens. *)
Lemma take_inv tb0 now granted tb count maxWait M d ok tb' :
  bucket_inv tb0 now granted tb → 0 < count → moderate count → moderate (availableTokens tb) →
  moderate (quantum tb * (currentTick now tb + 1)) → count - availableTokens tb ≤ M →
  (currentTick now tb + Z.max 0 M + 1) * fillInterval tb ≤ 2 ^ 61 →
  (let avail := i64 (availableTokens tb - count) in
   if bool_decide (0 ≤ avail) then (0, true, set_tokens avail (latestTick tb) tb)
   else
     let endTick := i64 (currentTick now tb + Z.quot (i64 (- avail + quantum tb - 1)) (quantum tb)) in
     let endTime := startTime tb + i64 (endTick * fillInterval tb) in
     let waitTime := endTime - now in
     if bool_decide (maxWait < waitTime) then (0, false, tb)
     else (waitTime, true, set_tokens avail (latestTick tb) tb)) = (d, ok, tb') →
  bucket_inv tb0 now (granted + if ok : bool then count else 0) tb' ∧ 0 ≤ d ∧
  (ok = true → granted + count ≤ capacity tb0 + quantum tb0 * currentTick (now + d) tb0).
Proof.
  intros [Hc Hp Hn Ht Hcap Htot] Hcount Hmc Hma Hmq HM Hmf. unfold moderate in *.
  pose proof Hc as (Hs0 & Hc0 & Hq0 & Hf0). cbn zeta.
  rewrite (i64_id (availableTokens tb - count)) by (unfold in_i64; lia).
  assert (∀ x, bucket_inv tb0 now granted (set_tokens x (latestTick tb) tb) ↔
    x ≤ capacity tb ∧ granted + x ≤ capacity tb + quantum tb * latestTick tb) as Hset.
  { intros x. split; [intros []; done|]. intros [? ?]. by split. }
  case_bool_decide as Ha.
  { intros [= <- <- <-]. split_and!; [|done|].
    - split; try done; cbn; lia.
    - intros _. rewrite Z.add_0_r. unfold currentTick in *. rewrite <-Hs0, <-Hf0, <-Hc0, <-Hq0. nia. }
  set (miss := count - availableTokens tb) in *.
  assert (- (availableTokens tb - count) + quantum tb - 1 = miss + quantum tb - 1) as -> by lia.
  assert (quantum tb ≤ 2 ^ 61) by nia.
  rewrite (i64_id (miss + quantum tb - 1)) by (unfold in_i64; lia).
  destruct (missing_ticks miss (quantum tb)) as [Hmiss Hticks]; [lia|lia|].
  set (t := Z.quot (miss + quantum tb - 1) (quantum tb)) in *.
  assert (0 ≤ (currentTick now tb + t) * fillInterval tb ≤ 2 ^ 61) by nia.
  assert (currentTick now tb + t ≤ 2 ^ 61) by nia.
  rewrite (i64_id (currentTick now tb + t)) by (unfold in_i64; lia).
  rewrite (i64_id ((currentTick now tb + t) * fillInterval tb)) by (unfold in_i64; lia).
  assert (now < startTime tb + (currentTick now tb + 1) * fillInterval tb) as Hnext.
  { unfold currentTick. rewrite Z.quot_div_nonneg by lia.
    pose proof (Z.div_mod (now - startTime tb) (fillInterval tb) ltac:(lia)).
    pose proof (Z.mod_pos_bound (now - startTime tb) (fillInterval tb) ltac:(lia)). nia. }
  assert ((currentTick now tb + 1) * fillInterval tb ≤ (currentTick now tb + t) * fillInterval tb)
    by (apply Z.mul_le_mono_nonneg_r; lia).
  assert (quantum tb * latestTick tb ≤ quantum tb * currentTick now tb)
    by (apply Z.mul_le_mono_nonneg_l; lia).
  case_bool_decide as Hw; intros [= <- <- <-].
  - split_and!; [|done|done]. rewrite Z.add_0_r. by split.
  - split_and!; [|lia|].
    + split; try done; cbn; lia.
    + intros _. replace (now + (startTime tb + (currentTick now tb + t) * fillInterval tb - now))
        with (startTime tb + (currentTick now tb + t) * fillInterval tb) by lia.
      assert (currentTick (startTime tb + (currentTick now tb + t) * fillInterval tb) tb0 =
        currentTick now tb + t) as ->.
      { etransitivity; [|apply (tick_of_time _ tb); lia]. unfold currentTick. by rewrite Hs0, Hf0. }
      rewrite <-Hc0, <-Hq0, Z.mul_add_distr_l. lia.
Qed.

Lemma run_op_inv tb0 now granted tb now' o n d tb' :
  bucket_inv tb0 now granted tb → now ≤ now' → op_moderate now' o tb →
  run_op now' o tb = (n, d, tb') →
  bucket_inv tb0 now' (granted + n) tb' ∧ 0 ≤ n ∧ 0 ≤ d ∧
  (0 < n → granted + n ≤ capacity tb0 + quantum tb0 * currentTick (now' + d) tb0).
Proof.
  intros Hi Hle (Hm1 & Hm2 & Hm3) Hrun.
  destruct (adjust_inv tb0 now granted tb now' Hi Hle Hm1 Hm3) as (Hi' & Hct & Hav).
  pose proof (currentTick_mono now now' tb ltac:(apply Hi) ltac:(apply Hi) Hle) as Hmono.
  pose proof (bi_config _ _ _ _ Hi) as Hcfg. pose proof (bi_config _ _ _ _ Hi') as Hcfg'.
  pose proof (bi_pos _ _ _ _ Hi') as Hpos'. pose proof (bi_cap _ _ _ _ Hi') as Hcap'.
  assert (bucket_inv tb0 now' granted tb) as Hi0.
  { destruct Hi. split; try done; lia. }
  set (tb1 := adjustavailableTokens (currentTick now' tb) tb) in *.
  unfold moderate in *. destruct o as [count maxWait|count|]; cbn [run_op] in Hrun.
  - unfold TakeMaxDuration, take_ in Hrun. case_bool_decide as Hc.
    { injection Hrun as <- <- <-. rewrite Z.max_l, Z.add_0_r by lia. split_and!; done || lia. }
    fold tb1 in Hrun. rewrite <-Hct in Hrun. cbn zeta in Hrun.
    destruct (if bool_decide (0 ≤ i64 (availableTokens tb1 - count)) then _ else _)
      as [[d1 ok] tb2] eqn:Hx.
    assert (quantum tb1 = quantum tb ∧ fillInterval tb1 = fillInterval tb) as [Eq Ef] by lia.
    destruct (take_inv tb0 now' granted tb1 count maxWait
      (Z.abs count + Z.abs (availableTokens tb)) d1 ok tb2) as (H1 & H2 & H3).
    + done.
    + lia.
    + apply Hm2.
    + unfold moderate. lia.
    + unfold moderate. rewrite Hct, Eq. lia.
    + lia.
    + rewrite Hct, Ef, Z.max_r, Z.add_assoc by lia. lia.
    + exact Hx.
    + injection Hrun as <- <- <-. destruct ok.
      * rewrite Z.max_r by lia. split_and!; [done|lia|done|]. intros _. by apply H3.
      * split_and!; [done|lia|done|lia].
  - unfold takeAvailable in Hrun. case_bool_decide as Hc.
    { injection Hrun as <- <- <-. rewrite Z.add_0_r. split_and!; done || lia. }
    fold tb1 in Hrun. cbn zeta in Hrun. case_bool_decide as Ha.
    { injection Hrun as <- <- <-. rewrite Z.add_0_r. split_and!; done || lia. }
    destruct Hi' as [A1 A2 A3 A4 A5 A6].
    injection Hrun as <- <- <-. rewrite i64_id by (unfold in_i64; case_bool_decide; lia).
    split_and!; [|case_bool_decide; lia|lia|].
    + split; try done; cbn; case_bool_decide; lia.
    + intros _. rewrite Z.add_0_r. destruct A1 as (E1 & E2 & E3 & E4). rewrite <-E2, <-E3.
      assert (currentTick now' tb0 = currentTick now' tb1) as -> by (unfold currentTick; by rewrite E1, E4).
      case_bool_decide; nia.
  - unfold available in Hrun. injection Hrun as <- <- <-. rewrite Z.add_0_r. split_and!; done || lia.
Qed.

Lemma bucket_run_inv fill cap q t0 tb0 now granted tb :
  NewBucketWithQuantumAndClock fill cap q t0 = Some tb0 → cap ≤ 2 ^ 61 →
  bucket_run tb0 now granted tb → bucket_inv tb0 now granted tb.
Proof.
  intros Hnew Hcap. unfold NewBucketWithQuantumAndClock in Hnew. repeat case_bool_decide; try done.
  injection Hnew as <-. induction 1 as [|now granted tb now' o n d tb' _ IH Hle Hm Hrun].
  - split; cbn; try done; try lia. unfold currentTick. cbn. rewrite Z.sub_diag, Z.quot_0_l; lia.
  - by eapply run_op_inv.
Qed.

(** [C38] A token bucket never grants more than it may: whenever a call grants tokens
    and tells the caller to wait [d], all tokens granted so far are at most the initial
    capacity plus the tokens of the ticks that will have passed at [now + d].  No wait
    is negative.  Amounts and times are below 2^61 ([op_moderate]), so that no sum
    overflows. *)
Theorem bucket_rate_bounded fill cap q t0 tb0 now granted tb now' o n d tb' :
  NewBucketWithQuantumAndClock fill cap q t0 = Some tb0 → cap ≤ 2 ^ 61 →
  bucket_run tb0 now granted tb → now ≤ now' → op_moderate now' o tb →
  run_op now' o tb = (n, d, tb') →
  0 ≤ d ∧ (0 < n → granted + n ≤ cap + q * currentTick (now' + d) tb0).
Proof.
  intros Hnew Hcap Hrun Hle Hm Hop.
  pose proof (bucket_run_inv _ _ _ _ _ _ _ _ Hnew Hcap Hrun) as Hi.
  destruct (run_op_inv _ _ _ _ _ _ _ _ _ Hi Hle Hm Hop) as (_ & _ & Hd & Hn). split; [done|].
  unfold NewBucketWithQuantumAndClock in Hnew. repeat case_bool_decide; try done.
  by injection Hnew as <-.
Qed.

Lemma Take_enough now count tb :
  let tb1 := adjustavailableTokens (currentTick now tb) tb in
  0 < count → count ≤ availableTokens tb1 ≤ 2 ^ 62 →
  Take now count tb = (0, set_tokens (availableTokens tb1 - count) (latestTick tb1) tb1).
Proof.
  intros tb1 Hc Ha. unfold Take, take_. rewrite bool_decide_eq_false_2 by lia. fold tb1. cbn zeta.
  rewrite i64_id by (unfold in_i64; lia). by rewrite bool_decide_eq_true_2 by lia.
Qed.

(** A bucket that stayed full for a while grants twice its capacity at one
    instant: the first call leaves [latestTick] behind, so the next one refills the
    bucket for ticks that passed while it was full. *)
Theorem bucket_burst_doubles fill cap q t0 tb0 now :
  NewBucketWithQuantumAndClock fill cap q t0 = Some tb0 → cap ≤ 2 ^ 61 →
  cap ≤ q * currentTick now tb0 ≤ 2 ^ 61 →
  let '(d1, tb1) := Take now cap tb0 in
  let '(d2, tb2) := Take now cap tb1 in
  d1 = 0 ∧ d2 = 0 ∧ availableTokens tb2 = 0.
Proof.
  intros Hnew Hcap Ht. unfold NewBucketWithQuantumAndClock in Hnew.
  repeat case_bool_decide; try done. injection Hnew as <-.
  set (tb0 := {| startTime := t0; capacity := cap; quantum := q; fillInterval := fill;
                 availableTokens := cap; latestTick := 0 |}) in *.
  set (T := currentTick now tb0) in *. assert (0 ≤ T ≤ 2 ^ 61) by nia.
  assert (adjustavailableTokens T tb0 = tb0) as Ha0.
  { unfold adjustavailableTokens. by rewrite bool_decide_eq_true_2. }
  assert (adjustavailableTokens T (set_tokens 0 0 tb0) = set_tokens cap T tb0) as Ha1.
  { unfold adjustavailableTokens. cbn. rewrite bool_decide_eq_false_2 by lia.
    rewrite Z.sub_0_r, (i64_id T) by (unfold in_i64; lia).
    rewrite (i64_id (T * q)) by (unfold in_i64; lia). rewrite Z.add_0_l, i64_id by (unfold in_i64; lia).
    assert ((if bool_decide (cap < T * q) then cap else T * q) = cap) as -> by (case_bool_decide; lia).
    done. }
  rewrite (Take_enough now cap tb0) by (fold T; rewrite ?Ha0; cbn; lia). fold T. rewrite Ha0.
  cbn [availableTokens latestTick tb0]. rewrite Z.sub_diag. fold tb0.
  rewrite (Take_enough now cap (set_tokens 0 0 tb0));
    change (currentTick now (set_tokens 0 0 tb0)) with T; rewrite ?Ha1; cbn; try lia.
Qed.

(** ** Witnesses *)
Definition tex_bucket : Bucket :=
  {| startTime := 0; capacity := 10; quantum := 1; fillInterval := 100; availableTokens := 10;
     latestTick := 0 |}.

Lemma bucket_rate_bounded_witness :
  run_op 50 (BTake 12 infinityDuration) tex_bucket = (12, 150, set_tokens (-2) 0 tex_bucket) ∧
  12 ≤ 10 + 1 * currentTick 200 tex_bucket.
Proof.
  split; [reflexivity|].
  apply (bucket_rate_bounded 100 10 1 0 tex_bucket 0 0 tex_bucket 50 (BTake 12 infinityDuration)
    12 150 (set_tokens (-2) 0 tex_bucket));
    [reflexivity|lia|apply (bucket_start tex_bucket)|lia| |reflexivity|lia].
  unfold op_moderate, moderate. vm_compute. repeat split; discriminate.
Defined.

Lemma bucket_burst_doubles_witness :
  let '(d1, tb1) := Take 1000 10 tex_bucket in
  let '(d2, tb2) := Take 1000 10 tb1 in
  d1 = 0 ∧ d2 = 0 ∧ availableTokens tb2 = 0.
Proof.
  apply (bucket_burst_doubles 100 10 1 0 tex_bucket 1000); [reflexivity|lia|].
  vm_compute. split; discriminate.
Defined.
