(* ===== verification/RateLimiters.v ===== *)
(** * Rate limiters of the work queue
    (k8s.io/client-go/util/workqueue/default_rate_limiters.go)

    The exponential limiter computes in float64.  Its operands are integers and powers
    of two, so the values that occur are integers, infinities and NaN; [F64] has these,
    with rounding to 53 bits where an integer is converted.  What converting an
    out-of-range float64 to int64 gives depends on the implementation: it is the
    argument [out_of_range]. *)

From S2P Require Import Prelude TokenBucket.
Open Scope Z_scope.

Inductive F64 : Type :=
| Fin (z : Z)
| PosInf
| NegInf
| NaN.

(** [float64(z)]: nearest multiple of a power of two with a 53-bit mantissa, ties to
    even. *)
Definition float64_of_int (z : Z) : F64 :=
  if bool_decide (Z.abs z < 2 ^ 53) then Fin z
  else
    let e := Z.log2 (Z.abs z) - 52 in
    let m := Z.abs z / 2 ^ e in
    let r := Z.abs z mod 2 ^ e in
    let up := bool_decide (2 ^ (e - 1) < r) || (bool_decide (r = 2 ^ (e - 1)) && Z.odd m) in
    Fin (Z.sgn z * ((if up then m + 1 else m) * 2 ^ e)).

(** [math.Pow(2, float64(exp))] for a count [exp]. *)
Definition Pow2 (exp : Z) : F64 := if bool_decide (exp < 1024) then Fin (2 ^ exp) else PosInf.

(** Product of a rounded integer with a power of two: exact, unless out of range. *)
Definition fmul (x y : F64) : F64 :=
  match x, y with
  | Fin a, Fin b =>
    if bool_decide (Z.abs (a * b) < 2 ^ 1024) then Fin (a * b)
    else if bool_decide (0 < a * b) then PosInf else NegInf
  | Fin a, PosInf => if bool_decide (a = 0) then NaN else if bool_decide (0 < a) then PosInf else NegInf
  | _, _ => NaN
  end.

(** [backoff > math.MaxInt64]: the constant is 2^63 as a float64. *)
Definition gt_MaxInt64 (x : F64) : bool :=
  match x with
  | Fin z => bool_decide (2 ^ 63 < z)
  | PosInf => true
  | _ => false
  end.

(** [time.Duration(backoff)] *)
Definition duration_of_float (out_of_range : F64 → Z) (x : F64) : Z :=
  match x with
  | Fin z => if bool_decide (- 2 ^ 63 ≤ z < 2 ^ 63) then z else out_of_range x
  | _ => out_of_range x
  end.

Section limiters.
Context {A : Type} `{Countable A} (out_of_range : F64 → Z).

(** ** Exponential *)
Record ItemExponentialFailureRateLimiter := {
  e_failures : gmap A Z;
  baseDelay : Z;
  maxDelay : Z;
}.

Definition NewItemExponentialFailureRateLimiter (base max : Z) : ItemExponentialFailureRateLimiter :=
  {| e_failures := ∅; baseDelay := base; maxDelay := max |}.

Definition DefaultItemBasedRateLimiter : ItemExponentialFailureRateLimiter :=
  NewItemExponentialFailureRateLimiter 1000000 (1000 * 1000000000).

Definition set_failures (m : gmap A Z) (r : ItemExponentialFailureRateLimiter) :
    ItemExponentialFailureRateLimiter :=
  {| e_failures := m; baseDelay := baseDelay r; maxDelay := maxDelay r |}.

Definition exp_When (item : A) (r : ItemExponentialFailureRateLimiter) :
    Z * ItemExponentialFailureRateLimiter :=
  let exp := default 0 (e_failures r !! item) in
  let r := set_failures (<[item := i64 (exp + 1)]> (e_failures r)) r in
  let backoff := fmul (float64_of_int (baseDelay r)) (Pow2 exp) in
  if gt_MaxInt64 backoff then (maxDelay r, r)
  else
    let calculated := duration_of_float out_of_range backoff in
    if bool_decide (maxDelay r < calculated) then (maxDelay r, r) else (calculated, r).

Definition exp_NumRequeues (item : A) (r : ItemExponentialFailureRateLimiter) : Z :=
  default 0 (e_failures r !! item).

Definition exp_Forget (item : A) (r : ItemExponentialFailureRateLimiter) :
    ItemExponentialFailureRateLimiter := set_failures (delete item (e_failures r)) r.

(** ** Fast, then slow *)
Record ItemFastSlowRateLimiter := {
  f_failures : gmap A Z;
  maxFastAttempts : Z;
  fastDelay : Z;
  slowDelay : Z;
}.

Definition NewItemFastSlowRateLimiter (fast slow maxFast : Z) : ItemFastSlowRateLimiter :=
  {| f_failures := ∅; maxFastAttempts := maxFast; fastDelay := fast; slowDelay := slow |}.

Definition set_f_failures (m : gmap A Z) (r : ItemFastSlowRateLimiter) : ItemFastSlowRateLimiter :=
  {| f_failures := m; maxFastAttempts := maxFastAttempts r; fastDelay := fastDelay r;
     slowDelay := slowDelay r |}.

Definition fast_When (item : A) (r : ItemFastSlowRateLimiter) : Z * ItemFastSlowRateLimiter :=
  let n := i64 (default 0 (f_failures r !! item) + 1) in
  let r := set_f_failures (<[item := n]> (f_failures r)) r in
  if bool_decide (n ≤ maxFastAttempts r) then (fastDelay r, r) else (slowDelay r, r).

Definition fast_NumRequeues (item : A) (r : ItemFastSlowRateLimiter) : Z :=
  default 0 (f_failures r !! item).

Definition fast_Forget (item : A) (r : ItemFastSlowRateLimiter) : ItemFastSlowRateLimiter :=
  set_f_failures (delete item (f_failures r)) r.

(** ** Token bucket: the item does not matter *)
Definition bucket_When (now : Z) (b : Bucket) : Z * Bucket := Take now 1 b.
Definition bucket_NumRequeues (b : Bucket) : Z := 0.
Definition bucket_Forget (b : Bucket) : Bucket := b.

(** ** The interface, as the limiters that implement it *)
Inductive RateLimiter : Type :=
| LExponential (r : ItemExponentialFailureRateLimiter)
| LFastSlow (r : ItemFastSlowRateLimiter)
| BucketRateLimiter (b : Bucket)
| MaxOfRateLimiter (limiters : list RateLimiter).

(** [now] is what the bucket's clock shows. *)
Fixpoint When (now : Z) (item : A) (l : RateLimiter) : Z * RateLimiter :=
  match l with
  | LExponential r => let '(d, r) := exp_When item r in (d, LExponential r)
  | LFastSlow r => let '(d, r) := fast_When item r in (d, LFastSlow r)
  | BucketRateLimiter b => let '(d, b) := bucket_When now b in (d, BucketRateLimiter b)
  | MaxOfRateLimiter ls =>
    let '(ret, ls) :=
      (fix loop (ret : Z) (ls : list RateLimiter) : Z * list RateLimiter :=
         match ls with
         | [] => (ret, [])
         | limiter :: ls' =>
           let '(curr, limiter) := When now item limiter in
           let '(ret, ls') := loop (if bool_decide (ret < curr) then curr else ret) ls' in
           (ret, limiter :: ls')
         end) 0 ls in
    (ret, MaxOfRateLimiter ls)
  end.

Fixpoint NumRequeues (item : A) (l : RateLimiter) : Z :=
  match l with
  | LExponential r => exp_NumRequeues item r
  | LFastSlow r => fast_NumRequeues item r
  | BucketRateLimiter b => bucket_NumRequeues b
  | MaxOfRateLimiter ls =>
    foldl (λ ret limiter, let curr := NumRequeues item limiter in
             if bool_decide (ret < curr) then curr else ret) 0 ls
  end.

Fixpoint Forget (item : A) (l : RateLimiter) : RateLimiter :=
  match l with
  | LExponential r => LExponential (exp_Forget item r)
  | LFastSlow r => LFastSlow (fast_Forget item r)
  | BucketRateLimiter b => BucketRateLimiter (bucket_Forget b)
  | MaxOfRateLimiter ls => MaxOfRateLimiter (Forget item <$> ls)
  end.

(** ** Backoff *)

(** Calls on the exponential limiter, newest first, and the failures of an item they
    amount to: the calls of [When] since the last [Forget]. *)
Inductive exp_op : Type := OWhen (item : A) | OForget (item : A).

Fixpoint exp_run (r0 : ItemExponentialFailureRateLimiter) (ops : list exp_op) :
    ItemExponentialFailureRateLimiter :=
  match ops with
  | [] => r0
  | OWhen x :: ops' => (exp_When x (exp_run r0 ops')).2
  | OForget x :: ops' => exp_Forget x (exp_run r0 ops')
  end.

Fixpoint failures_of (item : A) (ops : list exp_op) : nat :=
  match ops with
  | [] => 0
  | OWhen x :: ops' => if decide (x = item) then S (failures_of item ops') else failures_of item ops'
  | OForget x :: ops' => if decide (x = item) then 0 else failures_of item ops'
  end.

Lemma failures_le item ops : (failures_of item ops ≤ length ops)%nat.
Proof. induction ops as [|[x|x] ops IH]; cbn; try case_decide; lia. Qed.

Lemma exp_run_failures base max ops item :
  Z.of_nat (length ops) < 2 ^ 63 →
  let r := exp_run (NewItemExponentialFailureRateLimiter base max) ops in
  default 0 (e_failures r !! item) = Z.of_nat (failures_of item ops) ∧
  baseDelay r = base ∧ maxDelay r = max.
Proof.
  intros Hlen. induction ops as [|[x|x] ops IH]; cbn zeta in *.
  { cbn [exp_run NewItemExponentialFailureRateLimiter e_failures]. by rewrite lookup_empty. }
  - destruct IH as (IH & Hb & Hm); [cbn in Hlen; lia|]. cbn [exp_run failures_of].
    assert (∀ r, e_failures (exp_When x r).2 = <[x := i64 (default 0 (e_failures r !! x) + 1)]> (e_failures r)
      ∧ baseDelay (exp_When x r).2 = baseDelay r ∧ maxDelay (exp_When x r).2 = maxDelay r) as Hw.
    { intros r. unfold exp_When. destruct (gt_MaxInt64 _); [done|]. by case_bool_decide. }
    destruct (Hw (exp_run (NewItemExponentialFailureRateLimiter base max) ops)) as (-> & -> & ->).
    split; [|done]. rewrite lookup_insert. case_decide; [|done]. subst. cbn. rewrite IH.
    pose proof (failures_le item ops). cbn in Hlen. rewrite i64_id by (unfold in_i64; lia). lia.
  - destruct IH as (IH & Hb & Hm); [cbn in Hlen; lia|]. cbn [exp_run failures_of].
    split; [|done]. cbn. rewrite lookup_delete. by case_decide.
Qed.

Lemma backoff_value base n :
  0 < base < 2 ^ 53 → 0 ≤ n →
  gt_MaxInt64 (fmul (float64_of_int base) (Pow2 n)) = bool_decide (2 ^ 63 < base * 2 ^ n) ∧
  (base * 2 ^ n ≤ 2 ^ 63 → fmul (float64_of_int base) (Pow2 n) = Fin (base * 2 ^ n)).
Proof.
  intros Hb Hn. unfold float64_of_int. rewrite bool_decide_eq_true_2 by lia.
  assert (0 < 2 ^ n) by lia. assert (2 ^ n ≤ base * 2 ^ n) by nia.
  assert (2 ^ 63 < 2 ^ 1024) by by apply Z.pow_lt_mono_r.
  assert (0 < base * 2 ^ n) by lia.
  unfold Pow2. case_bool_decide as Hn2; cbn -[Z.pow Z.mul].
  - rewrite (Z.abs_eq (base * 2 ^ n)) by lia. case_bool_decide as Hlt; [done|].
    rewrite (bool_decide_eq_true_2 (0 < base * 2 ^ n)) by done. cbn -[Z.pow Z.mul].
    split; [|lia]. symmetry. apply bool_decide_eq_true_2. lia.
  - assert (2 ^ 1024 ≤ 2 ^ n) by (apply Z.pow_le_mono_r; lia).
    rewrite bool_decide_eq_false_2, bool_decide_eq_true_2 by lia. cbn -[Z.pow Z.mul].
    split; [|lia]. symmetry. apply bool_decide_eq_true_2. lia.
Qed.

Lemma exp_When_value base max ops item :
  0 < base < 2 ^ 53 → 0 ≤ max < 2 ^ 63 → Z.of_nat (length ops) < 2 ^ 63 →
  let n := Z.of_nat (failures_of item ops) in
  base * 2 ^ n ≠ 2 ^ 63 →
  (exp_When item (exp_run (NewItemExponentialFailureRateLimiter base max) ops)).1 =
    Z.min (base * 2 ^ n) max.
Proof.
  intros Hb Hm Hlen n Hne. destruct (exp_run_failures base max ops item Hlen) as (Hf & Hbd & Hmd).
  fold n in Hf. unfold exp_When. cbn zeta.
  cbn [set_failures baseDelay maxDelay]. rewrite Hf, Hbd, Hmd.
  destruct (backoff_value base n Hb ltac:(lia)) as [Hgt Hval]. rewrite Hgt.
  assert (0 < base * 2 ^ n) by (apply Z.mul_pos_pos; lia).
  case_bool_decide as Hbig; [cbn; lia|]. rewrite Hval by lia. cbn -[Z.pow Z.mul Z.min].
  rewrite (bool_decide_eq_true_2 (- 2 ^ 63 ≤ base * 2 ^ n < 2 ^ 63)) by lia.
  case_bool_decide; cbn -[Z.pow Z.mul Z.min]; lia.
Qed.

(** After any calls, the exponential limiter delays an item by
    [baseDelay * 2^n], at most [maxDelay], where [n] counts the calls of [When] for the
    item since it was last forgotten (and [NumRequeues] is [n]), except where that
    product is exactly 2^63. *)
Theorem exponential_backoff_exact base max ops item :
  0 < base < 2 ^ 53 → 0 ≤ max < 2 ^ 63 → Z.of_nat (length ops) < 2 ^ 63 →
  let r := exp_run (NewItemExponentialFailureRateLimiter base max) ops in
  let n := Z.of_nat (failures_of item ops) in
  exp_NumRequeues item r = n ∧
  (base * 2 ^ n ≠ 2 ^ 63 → (exp_When item r).1 = Z.min (base * 2 ^ n) max).
Proof.
  intros Hb Hm Hlen r n. split; [by apply exp_run_failures|]. by apply exp_When_value.
Qed.

(** The cap misses one value: when [baseDelay * 2^n] is exactly 2^63 the
    comparison does not catch it, and the delay is whatever the conversion to int64
    gives (the least int64, for example, where that is how it overflows). *)
Theorem exponential_backoff_overflow base max ops item :
  0 < base < 2 ^ 53 → Z.of_nat (length ops) < 2 ^ 63 →
  base * 2 ^ Z.of_nat (failures_of item ops) = 2 ^ 63 →
  out_of_range (Fin (2 ^ 63)) ≤ max →
  (exp_When item (exp_run (NewItemExponentialFailureRateLimiter base max) ops)).1 =
    out_of_range (Fin (2 ^ 63)).
Proof.
  intros Hb Hlen Heq Ho. destruct (exp_run_failures base max ops item Hlen) as (Hf & Hbd & Hmd).
  unfold exp_When. cbn zeta. cbn [set_failures baseDelay maxDelay]. rewrite Hf, Hbd, Hmd.
  destruct (backoff_value base (Z.of_nat (failures_of item ops)) Hb ltac:(lia)) as [Hgt Hval].
  rewrite Hgt, Heq, bool_decide_eq_false_2, Hval, Heq by lia.
  cbn -[Z.pow]. rewrite (bool_decide_eq_false_2 (- 2 ^ 63 ≤ 2 ^ 63 < 2 ^ 63)) by lia.
  rewrite bool_decide_eq_false_2 by lia. done.
Qed.
End limiters.

Definition rex_ops : list (exp_op (A:=nat)) := [OWhen 7%nat; OWhen 8%nat; OWhen 7%nat].

Lemma exponential_backoff_exact_witness :
  (exp_When (λ _, 0) 7%nat
    (exp_run (λ _, 0) (NewItemExponentialFailureRateLimiter 1000 5000) rex_ops)).1 = 4000.
Proof.
  destruct (exponential_backoff_exact (λ _, 0) 1000 5000 rex_ops 7%nat) as [_ Hw];
    [lia|lia|reflexivity|].
  rewrite Hw; [reflexivity|]. vm_compute. discriminate.
Defined.

(** On a machine that converts to the least int64, a delay becomes negative. *)
Lemma exponential_backoff_overflow_witness :
  (exp_When (λ _, - 2 ^ 63) 7%nat (exp_run (λ _, - 2 ^ 63)
     (NewItemExponentialFailureRateLimiter (2 ^ 52) 1000) (replicate 11 (OWhen 7%nat)))).1 = - 2 ^ 63.
Proof.
  rewrite (exponential_backoff_overflow (λ _, - 2 ^ 63) (2 ^ 52) 1000
    (replicate 11 (OWhen 7%nat)) 7%nat); [reflexivity|lia|reflexivity|reflexivity|lia].
Defined.
