(* ===== verification/DelayingQueue.v ===== *)
(** * The delaying work queue (k8s.io/client-go/util/workqueue/delaying_queue.go)

    Entries are heap objects, shared by the priority queue, the map of known entries
    and the channel: pointers are numbers, [objs] is what they point to.  The priority
    queue implements the [heap.Interface] of [ContainerHeap].  A run of [waitingLoop]
    is a sequence of the two parts of its body: adding what is ready, and receiving an
    entry from the channel.  Times are nanoseconds. *)

From S2P Require Import Prelude ContainerHeap WorkQueue.
Open Scope Z_scope.

Section delaying.
Context {A : Type} `{Countable A}.

Record waitFor := { wdata : A; readyAt : Z; windex : Z }.

Definition set_windex (i : Z) (e : waitFor) : waitFor :=
  {| wdata := wdata e; readyAt := readyAt e; windex := i |}.
Definition set_readyAt (t : Z) (e : waitFor) : waitFor :=
  {| wdata := wdata e; readyAt := t; windex := windex e |}.

(** ** The priority queue *)
Record waitForPriorityQueue := { objs : gmap nat waitFor; pq : list nat }.

Definition pq_Len (q : waitForPriorityQueue) : nat := length (pq q).

(** container/heap only passes positions of the queue. *)
Definition pq_Less (i j : nat) (q : waitForPriorityQueue) : bool :=
  match (pq q !! i) ≫= (objs q !!.), (pq q !! j) ≫= (objs q !!.) with
  | Some ei, Some ej => bool_decide (readyAt ei < readyAt ej)
  | _, _ => false
  end.

Definition set_index_at (i : nat) (q : waitForPriorityQueue) : waitForPriorityQueue :=
  match pq q !! i with
  | Some p => {| objs := alter (set_windex (Z.of_nat i)) p (objs q); pq := pq q |}
  | None => q
  end.

Definition pq_Swap (i j : nat) (q : waitForPriorityQueue) : waitForPriorityQueue :=
  set_index_at j (set_index_at i {| objs := objs q; pq := swap i j (pq q) |}).

Definition pq_Push (p : nat) (q : waitForPriorityQueue) : waitForPriorityQueue :=
  {| objs := alter (set_windex (Z.of_nat (length (pq q)))) p (objs q); pq := pq q ++ [p] |}.

(** On an empty queue [Pop] indexes out of range; container/heap does not get there. *)
Definition pq_Pop (q : waitForPriorityQueue) : nat * waitForPriorityQueue :=
  match last (pq q) with
  | None => (0%nat, q)
  | Some p => (p, {| objs := alter (set_windex (-1)) p (objs q);
                     pq := take (length (pq q) - 1) (pq q) |})
  end.

Definition Peek (q : waitForPriorityQueue) : option nat := head (pq q).

#[export] Instance pq_Interface : HeapInterface waitForPriorityQueue nat nat :=
  {| hLen := pq_Len; hLess := pq_Less; hSwap := pq_Swap; hPush := pq_Push; hPop := pq_Pop |}.

(** What the heap operations do not touch: data and time of every object. *)
Definition view (e : waitFor) : A * Z := (wdata e, readyAt e).

Definition time_of (O : gmap nat (A * Z)) (p : nat) : Z := default 0 (snd <$> O !! p).

Definition sooner (O : gmap nat (A * Z)) (p p' : nat) : bool :=
  bool_decide (time_of O p < time_of O p').

Record pq_wf (O : gmap nat (A * Z)) (q : waitForPriorityQueue) : Prop := {
  pw_view : view <$> objs q = O;
  pw_index i p : pq q !! i = Some p → ∃ e, objs q !! p = Some e ∧ windex e = Z.of_nat i;
}.

Lemma view_alter (f : waitFor → waitFor) p (m : gmap nat waitFor) :
  (∀ e, view (f e) = view e) → view <$> alter f p m = view <$> m.
Proof.
  intros Hf. apply map_eq. intros k. rewrite !lookup_fmap, lookup_alter.
  case_decide; [subst|done]. destruct (m !! k); [|done]. cbn. by rewrite Hf.
Qed.

Lemma pw_inj O q i j p : pq_wf O q → pq q !! i = Some p → pq q !! j = Some p → i = j.
Proof. intros [_ Hi] (e & ? & ?)%Hi (e' & ? & ?)%Hi. simplify_eq. lia. Qed.

Lemma pq_Less_wf O i j q p p' :
  pq_wf O q → pq q !! i = Some p → pq q !! j = Some p' → pq_Less i j q = sooner O p p'.
Proof.
  intros [<- Hx] Hi Hj. destruct (Hx _ _ Hi) as (e & He & _). destruct (Hx _ _ Hj) as (e' & He' & _).
  unfold pq_Less, sooner, time_of. rewrite Hi, Hj, !lookup_fmap. cbn. by rewrite He, He'.
Qed.

Lemma pq_Swap_wf O i j q :
  pq_wf O q → (i < length (pq q))%nat → (j < length (pq q))%nat →
  pq_wf O (pq_Swap i j q) ∧ pq (pq_Swap i j q) = swap i j (pq q).
Proof.
  intros Hwf Hi Hj.
  destruct (lookup_lt_is_Some_2 _ _ Hi) as [pi Hpi]. destruct (lookup_lt_is_Some_2 _ _ Hj) as [pj Hpj].
  assert (swap i j (pq q) !! i = Some pj) as Ei
    by (rewrite lookup_swap by done; repeat case_decide; congruence).
  assert (swap i j (pq q) !! j = Some pi) as Ej
    by (rewrite lookup_swap by done; repeat case_decide; congruence).
  assert (pq_Swap i j q = {| objs := alter (set_windex (Z.of_nat j)) pi
    (alter (set_windex (Z.of_nat i)) pj (objs q)); pq := swap i j (pq q) |}) as ->.
  { unfold pq_Swap, set_index_at. cbn. rewrite Ei. cbn. by rewrite Ej. }
  split; [|done]. split; cbn.
  - rewrite !view_alter by done. apply Hwf.
  - intros n p. rewrite lookup_swap by done. rewrite !lookup_alter. intros Hp.
    destruct (decide (pi = p)) as [->|Hpi'].
    + assert (n = j) as -> by (repeat case_decide; subst; try done;
        [by eapply (pw_inj O q)|by destruct (pw_inj O q n i p Hwf Hp Hpi)]).
      destruct (pw_index _ _ Hwf i p Hpi) as (e & He & _).
      destruct (decide (pj = p)) as [->|]; rewrite He; cbn; eauto.
    + destruct (decide (pj = p)) as [->|Hpj'].
      * assert (n = i) as -> by (repeat case_decide; subst; try done; try congruence;
          by destruct (pw_inj O q n j p Hwf Hp Hpj)).
        destruct (pw_index _ _ Hwf j p Hpj) as (e & He & _). rewrite He. cbn. eauto.
      * repeat case_decide; subst; try congruence. by apply (pw_index _ _ Hwf).
Qed.

Lemma pq_Push_wf O p q :
  pq_wf O q → p ∉ pq q ∧ is_Some (O !! p) → pq_wf O (pq_Push p q) ∧ pq (pq_Push p q) = pq q ++ [p].
Proof.
  intros [Hv Hx] [Hp Ho]. split; [|done]. split; cbn.
  - by rewrite view_alter.
  - intros n p' [[_ Hn]|[-> ->]]%lookup_snoc_Some.
    + rewrite lookup_alter_ne; [by apply Hx|]. intros ->. apply Hp. by eapply list_elem_of_lookup_2.
    + rewrite lookup_alter_eq. rewrite <-Hv, lookup_fmap in Ho. destruct (objs q !! p'); [|by destruct Ho].
      cbn. eauto.
Qed.

Lemma pq_Pop_wf O q l p :
  pq_wf O q → pq q = l ++ [p] → (pq_Pop q).1 = p ∧ pq_wf O (pq_Pop q).2 ∧ pq (pq_Pop q).2 = l.
Proof.
  intros Hwf Hq. unfold pq_Pop. rewrite Hq, last_snoc, length_app. cbn.
  rewrite Nat.add_sub, take_app_length. split_and!; [done| |done]. split; cbn.
  - rewrite view_alter by done. apply Hwf.
  - intros n p' Hn. rewrite lookup_alter_ne.
    + apply (pw_index _ _ Hwf). rewrite Hq. by apply lookup_app_l_Some.
    + intros ->. pose proof (lookup_lt_Some _ _ _ Hn).
      assert (n = length l); [|lia]. eapply (pw_inj O q n); [done| |]; rewrite Hq;
        [by apply lookup_app_l_Some|by apply list_lookup_middle].
Qed.

Definition pq_Laws O : HeapLaws waitForPriorityQueue nat nat (sooner O).
Proof.
  refine {| elems := pq; hwf := pq_wf O; hfresh := λ p q, p ∉ pq q ∧ is_Some (O !! p);
            out := λ p, p |}.
  - done.
  - intros. by apply pq_Less_wf.
  - intros. by apply pq_Swap_wf.
  - intros. by apply pq_Push_wf.
  - intros. by apply pq_Pop_wf.
Defined.

Lemma sooner_asym O x y : sooner O x y = true → sooner O y x = false.
Proof. unfold sooner. rewrite bool_decide_eq_true, bool_decide_eq_false. lia. Qed.

Lemma sooner_neg_trans O x y z : sooner O x y = false → sooner O y z = false → sooner O x z = false.
Proof. unfold sooner. rewrite !bool_decide_eq_false. lia. Qed.

(** ** The delaying queue *)
Record delayingType := {
  wq : Queue A;                       (* the Interface *)
  waiting : waitForPriorityQueue;     (* waitingForQueue, with the objects *)
  known : gmap A nat;                 (* waitingEntryByData *)
  waitingForAddCh : list nat;
  next : nat;                         (* the next free pointer *)
}.

Definition newDelayingQueue : delayingType :=
  {| wq := New; waiting := {| objs := ∅; pq := [] |}; known := ∅; waitingForAddCh := []; next := 0 |}.

Definition set_wq (q : Queue A) (s : delayingType) : delayingType :=
  {| wq := q; waiting := waiting s; known := known s; waitingForAddCh := waitingForAddCh s;
     next := next s |}.
Definition set_waiting (w : waitForPriorityQueue) (m : gmap A nat) (s : delayingType) : delayingType :=
  {| wq := wq s; waiting := w; known := m; waitingForAddCh := waitingForAddCh s; next := next s |}.
Definition set_channel (l : list nat) (s : delayingType) : delayingType :=
  {| wq := wq s; waiting := waiting s; known := known s; waitingForAddCh := l; next := next s |}.

(** [AddAfter] at time [now]; a full channel would only make the caller wait. *)
Definition AddAfter (now : Z) (item : A) (duration : Z) (s : delayingType) : delayingType :=
  if ShuttingDown (wq s) then s
  else if bool_decide (duration ≤ 0) then set_wq (Add item (wq s)) s
  else
    let p := next s in
    {| wq := wq s;
       waiting := {| objs := <[p := {| wdata := item; readyAt := now + duration; windex := 0 |}]>
                               (objs (waiting s));
                     pq := pq (waiting s) |};
       known := known s; waitingForAddCh := waitingForAddCh s ++ [p]; next := S p |}.

(** [insert]: a known entry only ever gets an earlier time. *)
Definition insert_entry (p : nat) (s : delayingType) : delayingType :=
  match objs (waiting s) !! p with
  | None => s
  | Some entry =>
    match known s !! wdata entry with
    | Some pe =>
      match objs (waiting s) !! pe with
      | None => s
      | Some existing =>
        if bool_decide (readyAt entry < readyAt existing) then
          let w := {| objs := <[pe := set_readyAt (readyAt entry) existing]> (objs (waiting s));
                      pq := pq (waiting s) |} in
          set_waiting (ContainerHeap.Fix (Z.to_nat (windex existing)) w) (known s) s
        else s
      end
    | None =>
      set_waiting (ContainerHeap.Push p (waiting s)) (<[wdata entry := p]> (known s)) s
    end
  end.

(** The loop that adds ready entries; it pops one entry per round, so as many rounds as
    there are entries are enough. *)
Fixpoint add_ready (fuel : nat) (now : Z) (s : delayingType) : delayingType :=
  match fuel with
  | 0%nat => s
  | S fuel' =>
    match Peek (waiting s) ≫= (objs (waiting s) !!.) with
    | None => s
    | Some entry =>
      if bool_decide (now < readyAt entry) then s
      else match ContainerHeap.Pop (waiting s) with
           | Panic _ => s
           | Ret p w =>
             match objs w !! p with
             | None => s
             | Some entry =>
               add_ready fuel' now
                 (set_waiting w (delete (wdata entry) (known s)) (set_wq (Add (wdata entry) (wq s)) s))
             end
           end
    end
  end.

(** The head of the loop body, at time [now]. *)
Definition loop_head (now : Z) (s : delayingType) : delayingType :=
  if ShuttingDown (wq s) then s else add_ready (pq_Len (waiting s)) now s.

(** [case waitEntry := <-q.waitingForAddCh], and each round of the draining loop. *)
Definition receive (now : Z) (s : delayingType) : delayingType :=
  match waitingForAddCh s with
  | [] => s
  | p :: rest =>
    let s := set_channel rest s in
    match objs (waiting s) !! p with
    | None => s
    | Some entry =>
      if bool_decide (now < readyAt entry) then insert_entry p s
      else set_wq (Add (wdata entry) (wq s)) s
    end
  end.

Definition delaying_ShutDown (s : delayingType) : delayingType := set_wq (ShutDown (wq s)) s.

(** ** What the entries mean *)
Definition O_of (s : delayingType) : gmap nat (A * Z) := view <$> objs (waiting s).

(** When each waiting item is due, and the entries on the channel. *)
Definition deadlines (s : delayingType) : gmap A Z := time_of (O_of s) <$> known s.
Definition announced (s : delayingType) : list (A * Z) := omap (O_of s !!.) (waitingForAddCh s).

Record dinv (s : delayingType) : Prop := {
  di_wf : pq_wf (O_of s) (waiting s);
  di_heap : heap_upto (sooner (O_of s)) (pq (waiting s)) (length (pq (waiting s)));
  di_known d p : known s !! d = Some p → p ∈ pq (waiting s) ∧ ∃ t, O_of s !! p = Some (d, t);
  di_entry p : p ∈ pq (waiting s) → ∃ d t, O_of s !! p = Some (d, t) ∧ known s !! d = Some p;
  di_chan p : p ∈ waitingForAddCh s → p ∉ pq (waiting s) ∧ is_Some (O_of s !! p);
  di_nodup : NoDup (waitingForAddCh s);
  di_next p : is_Some (O_of s !! p) → (p < next s)%nat;
}.

Lemma O_of_set_waiting w m (s : delayingType) : O_of (set_waiting w m s) = view <$> objs w.
Proof. done. Qed.

(** Popping the entry that is due first. *)
Lemma pop_first s p :
  dinv s → head (pq (waiting s)) = Some p →
  ∃ d t w, O_of s !! p = Some (d, t) ∧ ContainerHeap.Pop (waiting s) = Ret p w ∧
    view <$> objs w = O_of s ∧ known s !! d = Some p ∧
    (∀ d' t', deadlines s !! d' = Some t' → t ≤ t') ∧
    dinv (set_waiting w (delete d (known s)) s) ∧ p :: pq w ≡ₚ pq (waiting s).
Proof.
  intros [Hwf Hh Hk He Hc Hnd Hn] Hp.
  assert (pq (waiting s) !! 0%nat = Some p) as Hp0 by (by destruct (pq (waiting s))).
  destruct (He p) as (d & t & Ho & Hkd); [by eapply list_elem_of_lookup_2|].
  destruct (Pop_spec (sooner (O_of s)) (HeapLaws0 := pq_Laws (O_of s)) (sooner_asym _) (sooner_neg_trans _)
    (waiting s) p Hwf Hh Hp0) as (w & Hpop & Hwf' & Hh' & Hperm & Hmin).
  change (elems w) with (pq w) in *. change (elems (waiting s)) with (pq (waiting s)) in *.
  assert (view <$> objs w = O_of s) as Hv by apply Hwf'.
  assert (NoDup (p :: pq w)) as [Hpw _]%NoDup_cons.
  { rewrite Hperm. apply NoDup_alt. intros i j x. by apply (pw_inj (O_of s)). }
  assert (∀ x, x ∈ pq w ↔ x ∈ pq (waiting s) ∧ x ≠ p) as Hin.
  { intros x. rewrite <-Hperm, elem_of_cons. naive_solver. }
  exists d, t, w. split_and!; try done.
  - intros d' t'. unfold deadlines. rewrite lookup_fmap. intros (p' & Hp' & ->)%fmap_Some.
    apply Hk in Hp' as [Hp' _]. apply Hmin in Hp'. unfold sooner in Hp'.
    apply bool_decide_eq_false in Hp'. unfold time_of at 2 in Hp'. rewrite Ho in Hp'. cbn in Hp'. lia.
  - split; rewrite ?O_of_set_waiting, ?Hv; cbn; try done.
    + intros d' p' [Hne Hp']%lookup_delete_Some. destruct (Hk _ _ Hp') as [? [t' ?]].
      split; [|eauto]. apply Hin. split; [done|]. intros ->. congruence.
    + intros p' [Hp' Hne]%Hin. destruct (He p' Hp') as (d' & t' & ? & Hd'). exists d', t'.
      split; [done|]. rewrite lookup_delete_ne; [done|]. intros ->. congruence.
    + intros p' Hp'. destruct (Hc p' Hp'). split; [|done]. by intros [? _]%Hin.
Qed.

Lemma dinv_set_wq q s : dinv s → dinv (set_wq q s).
Proof. intros []. by split. Qed.

Lemma deadlines_delete s d w :
  view <$> objs w = O_of s → deadlines (set_waiting w (delete d (known s)) s) = delete d (deadlines s).
Proof. intros Hv. unfold deadlines. rewrite O_of_set_waiting, Hv. cbn. by rewrite fmap_delete. Qed.

Lemma deadline_known s d p t :
  known s !! d = Some p → O_of s !! p = Some (d, t) → deadlines s !! d = Some t.
Proof. intros Hk Ho. unfold deadlines. rewrite lookup_fmap, Hk. cbn. unfold time_of. by rewrite Ho. Qed.

(** The loop adds the items that are due, in the order of their deadlines. *)
Lemma add_ready_spec fuel now s :
  dinv s → (length (pq (waiting s)) ≤ fuel)%nat →
  let s' := add_ready fuel now s in
  dinv s' ∧ announced s' = announced s ∧ waitingForAddCh s' = waitingForAddCh s ∧
  deadlines s' = filter (λ kv, now < kv.2) (deadlines s) ∧
  ∃ l, NoDup l ∧ StronglySorted (λ x y, default 0 (deadlines s !! x) ≤ default 0 (deadlines s !! y)) l ∧
    (∀ x, x ∈ l ↔ ∃ t, deadlines s !! x = Some t ∧ t ≤ now) ∧
    wq s' = foldl (λ q x, Add x q) (wq s) l.
Proof.
  revert s. induction fuel as [|fuel IH]; intros s Hi Hlen; cbn zeta.
  { assert (pq (waiting s) = []) as Hq by (destruct (pq (waiting s)); [done|cbn in Hlen; lia]).
    assert (deadlines s = ∅) as Hd.
    { unfold deadlines. assert (known s = ∅) as ->; [|apply fmap_empty]. apply map_empty. intros d.
      destruct (known s !! d) as [p|] eqn:E; [|done]. apply (di_known _ Hi) in E as [Hin _].
      rewrite Hq in Hin. by apply not_elem_of_nil in Hin. }
    cbn. rewrite Hd. split_and!; [done|done|done|by rewrite map_filter_empty|].
    exists []. split_and!; [apply NoDup_nil_2|constructor| |done].
    intros x. setoid_rewrite lookup_empty. set_solver. }
  cbn [add_ready]. unfold Peek. destruct (head (pq (waiting s))) as [p|] eqn:Hp; cbn.
  2:{ assert (pq (waiting s) = []) as Hq by (by destruct (pq (waiting s))).
      assert (length (pq (waiting s)) ≤ fuel)%nat as Hlen' by (rewrite Hq; cbn; lia).
      specialize (IH s Hi Hlen'). destruct fuel as [|fuel]; [exact IH|].
      cbn [add_ready] in IH. unfold Peek in IH. rewrite Hp in IH. exact IH. }
  destruct (pop_first s p Hi Hp) as (d & t & w & Ho & Hpop & Hv & Hkd & Hmin & Hi1 & Hperm).
  assert (∃ e, objs (waiting s) !! p = Some e ∧ view e = (d, t)) as (e & He & Hve).
  { unfold O_of in Ho. rewrite lookup_fmap in Ho. by apply fmap_Some in Ho as (e & ? & ?); eauto. }
  assert (readyAt e = t) as Ht by (by injection Hve). rewrite He, Ht.
  pose proof (deadline_known s d p t Hkd Ho) as Hdl.
  case_bool_decide as Hnow.
  - split_and!; try done.
    + symmetry. apply map_filter_id. intros d' t' Hd'. apply Hmin in Hd'. cbn. lia.
    + exists []. split_and!; [apply NoDup_nil_2|constructor| |done].
      intros x. split; [by intros ?%not_elem_of_nil|]. intros (t' & Hx & ?). apply Hmin in Hx. lia.
  - rewrite Hpop.
    assert (∃ e', objs w !! p = Some e' ∧ wdata e' = d) as (e' & -> & Hed).
    { assert ((view <$> objs w) !! p = Some (d, t)) as Hx by by rewrite Hv.
      rewrite lookup_fmap in Hx. apply fmap_Some in Hx as (e' & ? & Hx). exists e'. by injection Hx. }
    rewrite Hed. set (s1 := set_waiting w (delete d (known s)) (set_wq (Add d (wq s)) s)).
    destruct (IH s1) as (IH1 & IH2 & IH3 & IH4 & l & Hnd & Hso & Hl & Hwq).
    { apply (dinv_set_wq (Add d (wq s))) in Hi1. exact Hi1. }
    { cbn. apply Permutation_length in Hperm. cbn in Hperm. lia. }
    assert (deadlines s1 = delete d (deadlines s)) as Hd1 by exact (deadlines_delete s d w Hv).
    rewrite Hd1 in *. split_and!; [done| |done| |].
    + rewrite IH2. unfold announced. by replace (O_of s1) with (O_of s).
    + rewrite IH4. apply map_eq. intros x. destruct (decide (x = d)) as [->|Hx].
      * rewrite !map_lookup_filter, lookup_delete_eq, Hdl. cbn.
        rewrite option_guard_False; [done|]. cbn. lia.
      * by rewrite !map_lookup_filter, lookup_delete_ne.
    + exists (d :: l). assert (d ∉ l) as Hdl'.
      { intros (t' & Ht' & _)%Hl. by rewrite lookup_delete_eq in Ht'. }
      split_and!.
      * by apply NoDup_cons.
      * constructor.
        -- eapply StronglySorted_impl_elem; [|exact Hso]. intros x y Hx Hy. cbn beta.
           by rewrite !lookup_delete_ne by (by intros ->).
        -- apply Forall_forall. intros x (t' & Hx & _)%Hl. rewrite Hdl. cbn.
           apply lookup_delete_Some in Hx as [_ Hx]. rewrite Hx. cbn. by eapply Hmin.
      * intros x. rewrite elem_of_cons, Hl. destruct (decide (x = d)) as [->|Hx].
        -- split; [|by left]. intros _. exists t. split; [done|lia].
        -- rewrite lookup_delete_ne by done. naive_solver.
      * by rewrite Hwq.
Qed.

(** ** Receiving an entry *)

Lemma le_at_times O O' (l : list nat) i j :
  (∀ p, l !! i = Some p ∨ l !! j = Some p → time_of O' p = time_of O p) →
  le_at (sooner O) l i j → le_at (sooner O') l i j.
Proof.
  intros Ht Hle x y Hx Hy. specialize (Hle x y Hx Hy). unfold sooner in *.
  by rewrite !Ht by auto.
Qed.

Lemma lookup_O s p d t :
  O_of s !! p = Some (d, t) → ∃ e, objs (waiting s) !! p = Some e ∧ wdata e = d ∧ readyAt e = t.
Proof.
  unfold O_of. rewrite lookup_fmap. intros (e & He & Hv)%fmap_Some. injection Hv as -> ->. eauto.
Qed.

Lemma time_insert_ne (O : gmap nat (A * Z)) p x p' : p' ≠ p → time_of (<[p := x]> O) p' = time_of O p'.
Proof. intros Hne. unfold time_of. by rewrite lookup_insert_ne. Qed.

Lemma insert_known_inv s p pe d t t0 existing :
  dinv s → known s !! d = Some pe → objs (waiting s) !! pe = Some existing →
  O_of s !! pe = Some (d, t0) → p = pe →
  let w := {| objs := <[pe := set_readyAt t existing]> (objs (waiting s)); pq := pq (waiting s) |} in
  let s' := set_waiting (ContainerHeap.Fix (Z.to_nat (windex existing)) w) (known s) s in
  dinv s' ∧ O_of s' = <[pe := (d, t)]> (O_of s) ∧ deadlines s' = <[d := t]> (deadlines s).
Proof.
  intros Hi Hk He Ho _ w s'. destruct Hi as [Hwf Hh Hkn Hen Hc Hnd Hn].
  destruct (Hkn d pe Hk) as [Hin _]. apply list_elem_of_lookup in Hin as [i Hin].
  destruct (pw_index _ _ Hwf i pe Hin) as (e' & He' & Hidx). assert (e' = existing) as -> by congruence.
  assert (Z.to_nat (windex existing) = i) as Hix by lia.
  set (O' := <[pe := (d, t)]> (O_of s)).
  assert (view <$> objs w = O') as HO'.
  { unfold w, O', O_of. cbn. rewrite fmap_insert. f_equal. unfold view. cbn.
    destruct (lookup_O s pe d t0 Ho) as (e1 & He1 & <- & _). by assert (e1 = existing) as -> by congruence. }
  assert (∀ k x, pq (waiting s) !! k = Some x → k ≠ i → x ≠ pe) as Hne.
  { intros k x Hx Hki ->. apply Hki. by eapply (pw_inj (O_of s)). }
  assert (pq_wf O' w) as Hww.
  { split; [done|]. intros k x Hx. cbn in *. rewrite lookup_insert. case_decide as Hxp.
    - subst x. assert (k = i) as -> by (by eapply (pw_inj (O_of s))). by eexists.
    - by apply (pw_index _ _ Hwf). }
  assert (heap_but (sooner O') (pq (waiting s)) (length (pq (waiting s))) i) as Hb.
  { split.
    - intros k Hkk Hki Hpi. eapply le_at_times; [|by apply Hh].
      intros x [Hx|Hx]; apply time_insert_ne; by eapply Hne.
    - intros k Hkk Hpk Hi0. pose proof (parent_lt i Hi0). pose proof (parent_lt k ltac:(lia)).
      eapply le_at_times.
      + intros x [Hx|Hx]; apply time_insert_ne; eapply Hne; [exact Hx|lia|exact Hx|lia].
      + apply (le_at_trans _ (sooner_neg_trans _) _ _ i); [by rewrite Hin|apply Hh|].
        * pose proof (lookup_lt_Some _ _ _ Hin). lia.
        * rewrite <-Hpk. by apply Hh. }
  destruct (Fix_spec (sooner O') (HeapLaws0 := pq_Laws O') (sooner_asym _) (sooner_neg_trans _) i w Hww)
    as (Hf1 & Hf2 & Hf3).
  { by eapply lookup_lt_Some. }
  { exact Hb. }
  unfold s'. rewrite Hix. clear s'. set (s' := set_waiting (ContainerHeap.Fix i w) (known s) s).
  change (elems (ContainerHeap.Fix i w)) with (pq (ContainerHeap.Fix i w)) in Hf3.
  change (elems w) with (pq (waiting s)) in Hf3.
  assert (O_of s' = O') as HOs by apply Hf1.
  split_and!; [|done|].
  - split; rewrite ?HOs; cbn; [exact Hf1|exact Hf2| | | |done|].
    + intros d' p' Hk'. rewrite Hf3. destruct (Hkn d' p' Hk') as [? [t' Ht']]. split; [done|].
      unfold O'. rewrite lookup_insert. case_decide; [|eauto]. subst. eexists. f_equal. f_equal. congruence.
    + intros p' Hp'. rewrite Hf3 in Hp'. destruct (Hen p' Hp') as (d' & t' & Ho' & Hk').
      unfold O'. rewrite lookup_insert. case_decide; [|eauto]. subst. exists d, t.
      split; [done|]. congruence.
    + intros p' Hp'. rewrite Hf3. destruct (Hc p' Hp') as [? Hs]. split; [done|].
      unfold O'. rewrite lookup_insert. by case_decide; [eexists|].
    + intros p'. unfold O'. rewrite lookup_insert. case_decide; [|apply Hn]. subst. intros _.
      apply Hn. by rewrite Ho.
  - unfold deadlines. rewrite HOs. cbn. apply map_eq. intros x. rewrite lookup_fmap, lookup_insert.
    case_decide as Hx.
    + subst x. rewrite Hk. cbn. unfold time_of, O'. by rewrite lookup_insert_eq.
    + rewrite lookup_fmap. destruct (known s !! x) as [px|] eqn:E; [|done]. cbn. f_equal.
      apply time_insert_ne. intros ->. destruct (Hkn x pe E) as [_ [t' Ht']]. congruence.
Qed.

Lemma insert_new_inv s p d t :
  dinv s → O_of s !! p = Some (d, t) → p ∉ pq (waiting s) → p ∉ waitingForAddCh s →
  known s !! d = None →
  let s' := set_waiting (ContainerHeap.Push p (waiting s)) (<[d := p]> (known s)) s in
  dinv s' ∧ O_of s' = O_of s ∧ deadlines s' = <[d := t]> (deadlines s).
Proof.
  intros Hi Ho Hp Hpc Hk s'. destruct Hi as [Hwf Hh Hkn Hen Hc Hnd Hn].
  destruct (Push_spec (sooner (O_of s)) (HeapLaws0 := pq_Laws (O_of s)) (sooner_asym _)
    (sooner_neg_trans _) p (waiting s) Hwf Hh) as (H1 & H2 & H3); [by split; [|eexists]|].
  change (elems (ContainerHeap.Push p (waiting s))) with (pq (ContainerHeap.Push p (waiting s))) in H3.
  change (elems (waiting s)) with (pq (waiting s)) in H3.
  assert (O_of s' = O_of s) as HO by apply H1.
  assert (∀ x, x ∈ pq (ContainerHeap.Push p (waiting s)) ↔ x ∈ pq (waiting s) ∨ x = p) as Hin.
  { intros x. by rewrite H3, elem_of_app, list_elem_of_singleton. }
  split_and!; [|done|].
  - split; rewrite ?HO; cbn; [exact H1|exact H2| | | |done|done].
    + intros d' p'. rewrite lookup_insert. case_decide as Hd.
      * intros [= <-]. subst. split; [apply Hin; by right|eauto].
      * intros Hk'. destruct (Hkn d' p' Hk') as [? ?]. split; [apply Hin; by left|done].
    + intros p' [Hp'| ->]%Hin.
      * destruct (Hen p' Hp') as (d' & t' & ? & Hk'). exists d', t'. split; [done|].
        rewrite lookup_insert_ne; [done|]. intros ->. congruence.
      * exists d, t. split; [done|]. apply lookup_insert_eq.
    + intros p' Hp'. destruct (Hc p' Hp'). split; [|done]. intros [?| ->]%Hin; done.
  - unfold deadlines. rewrite HO. cbn. rewrite fmap_insert. f_equal. unfold time_of. by rewrite Ho.
Qed.

Lemma omap_insert_fresh (O : gmap nat (A * Z)) p x (l : list nat) :
  p ∉ l → omap (<[p := x]> O !!.) l = omap (O !!.) l.
Proof.
  induction l as [|p' l IH]; [done|]. rewrite not_elem_of_cons. intros [Hne Hl]. cbn.
  rewrite lookup_insert_ne by done. by rewrite IH.
Qed.

(** The earlier of two deadlines wins. *)
Definition announce (d : A) (t : Z) (W : gmap A Z) : gmap A Z :=
  <[d := match W !! d with Some t0 => Z.min t t0 | None => t end]> W.

Lemma insert_entry_spec s p d t :
  dinv s → O_of s !! p = Some (d, t) → p ∉ pq (waiting s) → p ∉ waitingForAddCh s →
  dinv (insert_entry p s) ∧ deadlines (insert_entry p s) = announce d t (deadlines s) ∧
  announced (insert_entry p s) = announced s ∧ wq (insert_entry p s) = wq s ∧
  waitingForAddCh (insert_entry p s) = waitingForAddCh s.
Proof.
  intros Hi Ho Hp Hpc. destruct (lookup_O s p d t Ho) as (entry & He & Hd & Ht).
  unfold insert_entry, announce. rewrite He, Hd, Ht.
  destruct (known s !! d) as [pe|] eqn:Hk.
  - destruct (di_known _ Hi d pe Hk) as [Hin [t0 Ho0]].
    destruct (lookup_O s pe d t0 Ho0) as (existing & He0 & Hd0 & Ht0). rewrite He0, Ht0.
    rewrite (deadline_known s d pe t0 Hk Ho0). case_bool_decide as Hlt.
    + destruct (insert_known_inv s pe pe d t t0 existing Hi Hk He0 Ho0 eq_refl) as (H1 & H2 & H3).
      rewrite Z.min_l by lia. split_and!; try done. unfold announced. cbn [set_waiting waitingForAddCh].
      rewrite H2. apply omap_insert_fresh. by intros [? _]%(di_chan _ Hi).
    + rewrite Z.min_r by lia. split_and!; try done. symmetry. apply insert_id.
      by apply (deadline_known s d pe).
  - assert (deadlines s !! d = None) as Hdn by (unfold deadlines; by rewrite lookup_fmap, Hk).
    destruct (insert_new_inv s p d t Hi Ho Hp Hpc Hk) as (H1 & H2 & H3).
    rewrite Hdn. split_and!; try done. unfold announced. by rewrite H2.
Qed.

Lemma AddAfter_spec now item duration s :
  dinv s →
  let s' := AddAfter now item duration s in
  dinv s' ∧ deadlines s' = deadlines s ∧
  if shuttingDown (wq s) then s' = s
  else if bool_decide (duration ≤ 0) then announced s' = announced s ∧ wq s' = Add item (wq s)
  else announced s' = announced s ++ [(item, now + duration)] ∧ wq s' = wq s.
Proof.
  intros Hi. cbn zeta. unfold AddAfter, ShuttingDown. destruct (shuttingDown (wq s)); [done|].
  case_bool_decide as Hd; [by split; [apply dinv_set_wq|]|].
  set (e := {| wdata := item; readyAt := now + duration; windex := 0 |}). set (s' := Build_delayingType _ _ _ _ _).
  destruct Hi as [Hwf Hh Hkn Hen Hc Hnd Hn].
  assert (O_of s' = <[next s := (item, now + duration)]> (O_of s)) as HO.
  { unfold O_of, s'. cbn. by rewrite fmap_insert. }
  assert (∀ p, is_Some (O_of s !! p) → p ≠ next s) as Hfr by (intros p ?%Hn; lia).
  assert (∀ p, p ∈ pq (waiting s) → p ≠ next s) as Hfq.
  { intros p (d & t & Ho & _)%Hen. apply Hfr. by rewrite Ho. }
  split_and!.
  - split; rewrite ?HO; cbn.
    + split; [exact HO|]. intros i p Hp. cbn in Hp |- *. destruct (pw_index _ _ Hwf i p Hp) as (e' & ? & ?).
      exists e'. split; [|done]. rewrite lookup_insert_ne; [done|]. symmetry. apply Hfq.
      by eapply list_elem_of_lookup_2.
    + intros j Hj. eapply le_at_times; [|by apply Hh].
      intros p [Hp|Hp]; apply time_insert_ne, Hfq; by eapply list_elem_of_lookup_2.
    + intros d p Hk. destruct (Hkn d p Hk) as [Hp [t Ht]]. split; [done|]. exists t.
      rewrite lookup_insert_ne; [done|]. symmetry. by apply Hfq.
    + intros p Hp. destruct (Hen p Hp) as (d & t & Ho & Hk). exists d, t.
      rewrite lookup_insert_ne; [done|]. symmetry. by apply Hfq.
    + intros p. rewrite elem_of_app, list_elem_of_singleton. intros [Hp| ->].
      * destruct (Hc p Hp) as [? Hs]. split; [done|]. rewrite lookup_insert_ne; [done|].
        symmetry. by apply Hfr.
      * split; [by intros ?%Hfq|]. rewrite lookup_insert_eq. by eexists.
    + apply NoDup_app. split_and!; [done| |apply NoDup_singleton].
      intros p Hp ->%list_elem_of_singleton. apply Hc in Hp as [_ Hp]. by apply Hfr in Hp.
    + intros p. rewrite lookup_insert. case_decide; [subst; lia|]. intros ?%Hn. lia.
  - unfold deadlines. rewrite HO. cbn. apply map_fmap_ext. intros d p Hk. apply time_insert_ne, Hfq.
    by destruct (Hkn d p Hk).
  - unfold announced. rewrite HO. cbn. rewrite omap_app, omap_insert_fresh.
    + cbn. by rewrite lookup_insert_eq.
    + intros Hp. apply Hc in Hp as [_ Hp]. by apply Hfr in Hp.
  - done.
Qed.

Lemma receive_spec now s :
  dinv s →
  let s' := receive now s in
  dinv s' ∧
  match announced s with
  | [] => s' = s
  | (d, t) :: ch => announced s' = ch ∧
    if bool_decide (now < t) then deadlines s' = announce d t (deadlines s) ∧ wq s' = wq s
    else deadlines s' = deadlines s ∧ wq s' = Add d (wq s)
  end.
Proof.
  intros Hi. cbn zeta. unfold receive, announced at 1.
  destruct (waitingForAddCh s) as [|p rest] eqn:Ech; [done|].
  destruct (di_chan _ Hi p) as [Hp [[d t] Ho]]; [rewrite Ech; by left|].
  destruct (lookup_O s p d t Ho) as (e & He & Hd & Ht).
  assert (p ∉ rest ∧ NoDup rest) as [Hpr Hnd] by (apply NoDup_cons; rewrite <-Ech; apply Hi).
  assert (dinv (set_channel rest s)) as Hi1.
  { destruct Hi. split; try done. intros p' Hp'. apply di_chan0. rewrite Ech. by right. }
  cbn [set_channel waiting omap list_omap]. rewrite Ho. cbn zeta. change (objs (waiting (set_channel rest s))) with (objs (waiting s)). rewrite He, Hd, Ht.
  case_bool_decide as Hnow.
  - destruct (insert_entry_spec (set_channel rest s) p d t Hi1 Ho Hp Hpr) as (H1 & H2 & H3 & H4 & H5).
    by split_and!.
  - split; [by apply dinv_set_wq|]. done.
Qed.

(** ** Runs *)
Inductive devent : Type :=
| DAdd (x : A)
| DAddAfter (now : Z) (x : A) (duration : Z)
| DReady (now : Z)      (* the head of the loop body *)
| DReceive (now : Z)    (* one receive from the channel *)
| DGet
| DDone (x : A)
| DShutDown.

Definition drun (e : devent) (s : delayingType) : delayingType :=
  match e with
  | DAdd x => set_wq (Add x (wq s)) s
  | DAddAfter now x duration => AddAfter now x duration s
  | DReady now => loop_head now s
  | DReceive now => receive now s
  | DGet => set_wq (Get (wq s)).2 s
  | DDone x => set_wq (Done x (wq s)) s
  | DShutDown => delaying_ShutDown s
  end.

Lemma dinv_new : dinv newDelayingQueue.
Proof.
  split; cbn.
  - split; [done|]. intros i p Hp. by destruct i.
  - intros j Hj. lia.
  - intros d p. by rewrite lookup_empty.
  - intros p ?%not_elem_of_nil. done.
  - intros p ?%not_elem_of_nil. done.
  - apply NoDup_nil_2.
  - intros p. unfold O_of. cbn. rewrite fmap_empty, lookup_empty. by intros [].
Qed.

Lemma drun_inv e s : dinv s → dinv (drun e s).
Proof.
  intros Hi. destruct e; cbn; try (by apply dinv_set_wq).
  - by apply AddAfter_spec.
  - unfold loop_head. destruct (ShuttingDown (wq s)); [done|]. by apply add_ready_spec.
  - by apply receive_spec.
Qed.

Lemma drun_all_inv es s : dinv s → dinv (foldl (λ s e, drun e s) s es).
Proof. revert s. induction es as [|e es IH]; intros s Hi; [done|]. cbn. by apply IH, drun_inv. Qed.

(** [C35] After any sequence of events, each part of the delaying queue does what it
    should to the deadlines of the waiting items: [AddAfter] announces the item with its
    due time (or adds it at once, or ignores it when shutting down); receiving an
    announcement keeps the earlier of the old and the new deadline, or adds an item that
    is already due; and the loop moves exactly the items whose deadline has passed into
    the work queue, once each, in the order of their deadlines. *)
Theorem delaying_queue_exact es :
  let s := foldl (λ s e, drun e s) newDelayingQueue es in
  (∀ now x duration, let s' := drun (DAddAfter now x duration) s in
     deadlines s' = deadlines s ∧
     if shuttingDown (wq s) then s' = s
     else if bool_decide (duration ≤ 0) then announced s' = announced s ∧ wq s' = Add x (wq s)
     else announced s' = announced s ++ [(x, now + duration)] ∧ wq s' = wq s) ∧
  (∀ now, let s' := drun (DReceive now) s in
     match announced s with
     | [] => s' = s
     | (d, t) :: ch => announced s' = ch ∧
       if bool_decide (now < t) then deadlines s' = announce d t (deadlines s) ∧ wq s' = wq s
       else deadlines s' = deadlines s ∧ wq s' = Add d (wq s)
     end) ∧
  (∀ now, let s' := drun (DReady now) s in
     if shuttingDown (wq s) then s' = s
     else announced s' = announced s ∧
       deadlines s' = filter (λ kv, now < kv.2) (deadlines s) ∧
       ∃ l, NoDup l ∧
         StronglySorted (λ x y, default 0 (deadlines s !! x) ≤ default 0 (deadlines s !! y)) l ∧
         (∀ x, x ∈ l ↔ ∃ t, deadlines s !! x = Some t ∧ t ≤ now) ∧
         wq s' = foldl (λ q x, Add x q) (wq s) l).
Proof.
  intros s. assert (dinv s) as Hi by apply drun_all_inv, dinv_new. split_and!.
  - intros now x duration. by apply AddAfter_spec.
  - intros now. by apply receive_spec.
  - intros now. cbn. unfold loop_head, ShuttingDown. destruct (shuttingDown (wq s)); [done|].
    destruct (add_ready_spec (pq_Len (waiting s)) now s Hi ltac:(done)) as (_ & ? & _ & ? & ?). done.
Qed.
End delaying.
