(* ===== verification/RateLimitingQueue.v ===== *)
(** * The rate limited work queue
    (k8s.io/client-go/util/workqueue/rate_limitting_queue.go)

    A delaying queue together with a rate limiter; the operations of the delaying
    queue are those of [DelayingQueue]. *)

From S2P Require Import Prelude WorkQueue TokenBucket RateLimiters DelayingQueue.
Open Scope Z_scope.

Section ratelimiting.
Context {A : Type} `{Countable A} (out_of_range : F64 → Z).

Record rateLimitingType := {
  DelayingInterface : delayingType (A:=A);
  rateLimiter : RateLimiter (A:=A);
}.

Definition NewRateLimitingQueue (limiter : RateLimiter (A:=A)) : rateLimitingType :=
  {| DelayingInterface := newDelayingQueue; rateLimiter := limiter |}.

(** The limiter is asked first: its state changes even when the queue is shutting down. *)
Definition AddRateLimited (now : Z) (item : A) (q : rateLimitingType) : rateLimitingType :=
  let '(d, limiter) := When out_of_range now item (rateLimiter q) in
  {| DelayingInterface := AddAfter now item d (DelayingInterface q); rateLimiter := limiter |}.

Definition queue_NumRequeues (item : A) (q : rateLimitingType) : Z :=
  NumRequeues item (rateLimiter q).

Definition queue_Forget (item : A) (q : rateLimitingType) : rateLimitingType :=
  {| DelayingInterface := DelayingInterface q; rateLimiter := Forget item (rateLimiter q) |}.

(** ** Runs *)
Inductive qevent : Type :=
| QAddRateLimited (now : Z) (item : A)
| QForget (item : A)
| QDelaying (e : devent (A:=A)).

Definition qstep (e : qevent) (q : rateLimitingType) : rateLimitingType :=
  match e with
  | QAddRateLimited now item => AddRateLimited now item q
  | QForget item => queue_Forget item q
  | QDelaying e => {| DelayingInterface := drun e (DelayingInterface q); rateLimiter := rateLimiter q |}
  end.

(** Events newest first, and the calls on the limiter among them. *)
Fixpoint qrun (limiter : RateLimiter (A:=A)) (es : list qevent) : rateLimitingType :=
  match es with
  | [] => NewRateLimitingQueue limiter
  | e :: es' => qstep e (qrun limiter es')
  end.

Fixpoint limiter_ops (es : list qevent) : list exp_op :=
  match es with
  | [] => []
  | QAddRateLimited _ item :: es' => OWhen item :: limiter_ops es'
  | QForget item :: es' => OForget item :: limiter_ops es'
  | QDelaying _ :: es' => limiter_ops es'
  end.

Lemma limiter_ops_length es : (length (limiter_ops es) ≤ length es)%nat.
Proof. induction es as [|[] es IH]; cbn in *; lia. Qed.

Lemma qrun_limiter r es :
  rateLimiter (qrun (LExponential r) es) = LExponential (exp_run out_of_range r (limiter_ops es)).
Proof.
  induction es as [|[now x|x|e] es IH]; cbn; [done| | |done].
  - unfold AddRateLimited. rewrite IH. cbn. by destruct (exp_When _ _ _).
  - by rewrite IH.
Qed.

Lemma qrun_inv limiter es : dinv (DelayingInterface (qrun limiter es)).
Proof.
  induction es as [|[now x|x|e] es IH]; cbn; [apply dinv_new| |done|by apply drun_inv].
  unfold AddRateLimited. destruct (When _ _ _ _). cbn. by apply AddAfter_spec.
Qed.

Lemma qrun_NumRequeues base max es item :
  Z.of_nat (length es) < 2 ^ 63 →
  queue_NumRequeues item (qrun (LExponential (NewItemExponentialFailureRateLimiter base max)) es) =
    Z.of_nat (failures_of item (limiter_ops es)).
Proof.
  intros Hl. unfold queue_NumRequeues. rewrite qrun_limiter. cbn. unfold exp_NumRequeues.
  pose proof (limiter_ops_length es). apply exp_run_failures. lia.
Qed.

(** The delay of the exponential limiter after the calls of a run. *)
Lemma qrun_When base max es now item :
  0 < base < 2 ^ 53 → 0 ≤ max < 2 ^ 63 → Z.of_nat (length es) < 2 ^ 63 →
  base * 2 ^ Z.of_nat (failures_of item (limiter_ops es)) ≠ 2 ^ 63 →
  (When out_of_range now item (rateLimiter
     (qrun (LExponential (NewItemExponentialFailureRateLimiter base max)) es))).1 =
  Z.min (base * 2 ^ Z.of_nat (failures_of item (limiter_ops es))) max.
Proof.
  intros Hb Hm Hl Hne. rewrite qrun_limiter. cbn.
  pose proof (limiter_ops_length es).
  rewrite <-(exp_When_value out_of_range base max (limiter_ops es) item) by (done || lia).
  by destruct (exp_When _ _ _).
Qed.

(** A retried item is due again after [baseDelay * 2^n], at most [maxDelay],
    where [n] is how often it was added rate limited since it was last forgotten: a
    queue with the exponential limiter that is not shutting down announces it with
    exactly that due time, whatever else was done to the queue, and changes neither
    the deadlines nor the work queue of the other items; [NumRequeues] then is [n + 1]. *)
Theorem retry_backoff_exact base max es now item :
  0 < base < 2 ^ 53 → 0 < max < 2 ^ 63 → Z.of_nat (length es) + 1 < 2 ^ 63 →
  let q := qrun (LExponential (NewItemExponentialFailureRateLimiter base max)) es in
  let n := Z.of_nat (failures_of item (limiter_ops es)) in
  base * 2 ^ n ≠ 2 ^ 63 →
  shuttingDown (wq (DelayingInterface q)) = false →
  let q' := AddRateLimited now item q in
  announced (DelayingInterface q') =
    announced (DelayingInterface q) ++ [(item, now + Z.min (base * 2 ^ n) max)] ∧
  deadlines (DelayingInterface q') = deadlines (DelayingInterface q) ∧
  wq (DelayingInterface q') = wq (DelayingInterface q) ∧
  queue_NumRequeues item q = n ∧ queue_NumRequeues item q' = n + 1.
Proof.
  intros Hb Hm Hl q n Hne Hsd q'.
  assert (queue_NumRequeues item q' = n + 1) as Hn'.
  { change q' with (qrun (LExponential (NewItemExponentialFailureRateLimiter base max))
      (QAddRateLimited now item :: es)).
    rewrite qrun_NumRequeues by (cbn; lia). cbn. rewrite decide_True by done. unfold n. cbn. lia. }
  pose proof (qrun_When base max es now item Hb ltac:(lia) ltac:(lia) Hne) as Hw. fold q n in Hw.
  destruct (AddAfter_spec now item (Z.min (base * 2 ^ n) max) (DelayingInterface q)
    (qrun_inv _ es)) as (_ & Hdl & Hif).
  rewrite Hsd, bool_decide_eq_false_2 in Hif
    by (assert (0 < base * 2 ^ n) by (apply Z.mul_pos_pos; lia); lia).
  assert (DelayingInterface q' = AddAfter now item (Z.min (base * 2 ^ n) max) (DelayingInterface q)) as ->.
  { unfold q', AddRateLimited. by destruct (When _ _ _ _); cbn in *; subst. }
  destruct Hif. split_and!; try done. apply qrun_NumRequeues. lia.
Qed.
End ratelimiting.

Lemma retry_backoff_exact_witness :
  announced (DelayingInterface (AddRateLimited (λ _, 0) 500 3%nat
    (qrun (λ _, 0) (LExponential (NewItemExponentialFailureRateLimiter 10 1000))
       [QDelaying (DReceive 7); QAddRateLimited 6 3%nat; QAddRateLimited 5 4%nat]))) =
  [(3%nat, 16); (3%nat, 520)].
Proof.
  destruct (retry_backoff_exact (λ _, 0) 10 1000
    [QDelaying (DReceive 7); QAddRateLimited 6 3%nat; QAddRateLimited 5 4%nat] 500 3%nat)
    as [Hw _]; [lia|lia|reflexivity|vm_compute; discriminate|reflexivity|].
  rewrite Hw. reflexivity.
Defined.
