(* ===== verification/LruCache.v ===== *)
(** * Least-recently-used caches (github.com/hashicorp/golang-lru: simplelru/lru.go,
    simplelru/lru_interface.go, lru.go)

    The interface [LRUCache] with the laws its clients rely on: a cache is a list of
    entries in the order of their last use.  [LRU] implements it with a list of elements
    and a map from keys to elements. *)

From S2P Require Import Prelude.

(** ** Recency lists: the entries of a cache, the most recently used first *)
Section recency.
Context {K V : Type} `{Countable K}.

Definition rl_map (l : list (K * V)) : gmap K V := list_to_map l.
Definition rl_remove (k : K) (l : list (K * V)) : list (K * V) := filter (λ kv, kv.1 ≠ k) l.

Definition rl_add (n : nat) (k : K) (v : V) (l : list (K * V)) : bool * list (K * V) :=
  match rl_map l !! k with
  | Some _ => (false, (k, v) :: rl_remove k l)
  | None => if bool_decide (n ≤ length l) then (true, take (length l) ((k, v) :: l)) else (false, (k, v) :: l)
  end.

Definition rl_get (k : K) (l : list (K * V)) : option V * list (K * V) :=
  match rl_map l !! k with
  | Some v => (Some v, (k, v) :: rl_remove k l)
  | None => (None, l)
  end.

Definition rl_pop (l : list (K * V)) : option (K * V) * list (K * V) := (last l, take (length l - 1) l).

Lemma rl_map_elem l k v : NoDup l.*1 → rl_map l !! k = Some v ↔ (k, v) ∈ l.
Proof. intros. symmetry. by apply elem_of_list_to_map. Qed.

Lemma rl_map_None l k : rl_map l !! k = None ↔ k ∉ l.*1.
Proof. symmetry. apply not_elem_of_list_to_map. Qed.

Lemma rl_map_Some l k : is_Some (rl_map l !! k) ↔ k ∈ l.*1.
Proof. unfold rl_map. by rewrite list_to_map_is_Some. Qed.

Lemma rl_remove_cons k k' v l :
  rl_remove k ((k', v) :: l) = if decide (k' = k) then rl_remove k l else (k', v) :: rl_remove k l.
Proof. unfold rl_remove. rewrite filter_cons. cbn. repeat case_decide; naive_solver. Qed.

Lemma rl_remove_keys k l k' : k' ∈ (rl_remove k l).*1 ↔ k' ≠ k ∧ k' ∈ l.*1.
Proof.
  unfold rl_remove. rewrite !list_elem_of_fmap. split.
  - intros (x & -> & [Hx Hin]%list_elem_of_filter). eauto.
  - intros (Hne & x & -> & Hin). exists x. split; [done|]. by apply list_elem_of_filter.
Qed.

Lemma rl_remove_NoDup k l : NoDup l.*1 → NoDup (rl_remove k l).*1.
Proof. apply NoDup_fst_filter. Qed.

Lemma rl_remove_absent k l : k ∉ l.*1 → rl_remove k l = l.
Proof.
  induction l as [|[k' v] l IH]; [done|]. rewrite fmap_cons, rl_remove_cons. cbn [fst]. intros Hk.
  rewrite decide_False by set_solver. f_equal. set_solver.
Qed.

Lemma rl_remove_map k l : rl_map (rl_remove k l) = delete k (rl_map l).
Proof.
  induction l as [|[k' v] l IH]; [cbn; by rewrite delete_empty|]. rewrite rl_remove_cons.
  case_decide as Hk; cbn; fold (rl_map l).
  - subst. by rewrite delete_insert_eq.
  - fold (rl_map (rl_remove k l)). by rewrite IH, delete_insert_ne.
Qed.

Lemma rl_remove_length k l : length (rl_remove k l) ≤ length l.
Proof. apply length_filter. Qed.

Lemma rl_remove_length_in k l : NoDup l.*1 → k ∈ l.*1 → S (length (rl_remove k l)) = length l.
Proof.
  induction l as [|[k' v] l IH]; [by intros _ ?%not_elem_of_nil|]. rewrite fmap_cons. cbn [fst].
  intros [Hk Hl]%NoDup_cons [->|Hin]%elem_of_cons; rewrite rl_remove_cons.
  - by rewrite decide_True, rl_remove_absent.
  - rewrite decide_False by (by intros ->). cbn. by rewrite IH.
Qed.

(** Removing an element commutes with taking a prefix that contains it. *)
Lemma rl_remove_take n k l :
  NoDup l.*1 → k ∈ (take (S n) l).*1 → rl_remove k (take (S n) l) = take n (rl_remove k l).
Proof.
  revert n. induction l as [|[k' v] l IH]; intros n; [by intros _ ?%not_elem_of_nil|].
  rewrite fmap_cons. cbn [take fst fmap list_fmap].
  intros [Hk Hl]%NoDup_cons Hin. rewrite !rl_remove_cons. case_decide as E.
  - subst. rewrite !rl_remove_absent; [done|done|]. rewrite fmap_take. by intros ?%subseteq_take.
  - apply elem_of_cons in Hin as [?|Hin]; [done|]. destruct n as [|n].
    { by apply not_elem_of_nil in Hin. }
    cbn [take]. f_equal. by apply IH.
Qed.

Lemma rl_remove_last l k v :
  NoDup l.*1 → last l = Some (k, v) → rl_remove k l = take (length l - 1) l.
Proof.
  intros Hn [l' ->]%last_Some. rewrite length_app, fmap_app in *. cbn in *.
  replace (length l' + 1 - 1) with (length l') by lia. rewrite take_app_length.
  apply NoDup_app in Hn as (_ & Hn & _). unfold rl_remove. rewrite filter_app.
  fold (rl_remove k l') (rl_remove k [(k, v)]). rewrite rl_remove_cons, decide_True by done.
  rewrite rl_remove_absent by (intros Hin; by apply (Hn k Hin); left). by rewrite app_nil_r.
Qed.

Lemma rl_remove_take_absent n k l :
  NoDup l.*1 → k ∉ (take (S n) l).*1 → take n (rl_remove k l) = take n l.
Proof.
  revert n. induction l as [|[k' v] l IH]; intros n; [done|].
  rewrite fmap_cons. cbn [take fst fmap list_fmap].
  intros [Hk Hl]%NoDup_cons Hin. rewrite rl_remove_cons, decide_False by set_solver.
  destruct n as [|n]; [done|]. cbn [take]. f_equal. apply IH; [done|]. set_solver.
Qed.
End recency.

(** ** The interface *)
Class LRUCache_ops (L K V : Type) := {
  lc_Add : K → V → L → bool * L;
  lc_Get : K → L → option V * L;
  lc_Contains : K → L → bool;
  lc_Peek : K → L → option V;
  lc_Remove : K → L → bool * L;
  lc_RemoveOldest : L → option (K * V) * L;
  lc_GetOldest : L → option (K * V);
  lc_Keys : L → option (list (option K));   (* [None]: panics *)
  lc_Len : L → Z;
  lc_Purge : L → L;
}.

Class LRUCache_laws (L K V : Type) `{Countable K} `{!LRUCache_ops L K V} := {
  lc_list : L → list (K * V);
  lc_size : L → nat;
  lc_ok : L → Prop;
  lc_NoDup c : lc_ok c → NoDup (lc_list c).*1;
  lc_bound c : lc_ok c → length (lc_list c) ≤ lc_size c;
  lc_pos c : lc_ok c → 0 < lc_size c;
  lc_Add_law k v c : lc_ok c →
    let r := lc_Add k v c in
    lc_ok r.2 ∧ lc_size r.2 = lc_size c ∧ (r.1, lc_list r.2) = rl_add (lc_size c) k v (lc_list c);
  lc_Get_law k c : lc_ok c →
    let r := lc_Get k c in
    lc_ok r.2 ∧ lc_size r.2 = lc_size c ∧ (r.1, lc_list r.2) = rl_get k (lc_list c);
  lc_Contains_law k c : lc_ok c → lc_Contains k c = bool_decide (k ∈ (lc_list c).*1);
  lc_Peek_law k c : lc_ok c → lc_Peek k c = rl_map (lc_list c) !! k;
  lc_Remove_law k c : lc_ok c →
    let r := lc_Remove k c in
    lc_ok r.2 ∧ lc_size r.2 = lc_size c ∧ r.1 = bool_decide (k ∈ (lc_list c).*1) ∧
    lc_list r.2 = rl_remove k (lc_list c);
  lc_RemoveOldest_law c : lc_ok c →
    let r := lc_RemoveOldest c in
    lc_ok r.2 ∧ lc_size r.2 = lc_size c ∧ (r.1, lc_list r.2) = rl_pop (lc_list c);
  lc_GetOldest_law c : lc_ok c → lc_GetOldest c = last (lc_list c);
  lc_Keys_law c : lc_ok c → lc_Keys c = Some (Some <$> reverse (lc_list c).*1);
  lc_Len_law c : lc_ok c → lc_Len c = Z.of_nat (length (lc_list c));
  lc_Purge_law c : lc_ok c →
    lc_ok (lc_Purge c) ∧ lc_size (lc_Purge c) = lc_size c ∧ lc_list (lc_Purge c) = [];
}.

(** A constructor for caches of a given size, without callback. *)
Class LRUCache_new (L K V : Type) `{LRUCache_laws L K V} := {
  lc_New : Z → res string L;
  lc_New_err sz : (sz ≤ 0)%Z → ∃ e, lc_New sz = Err e;
  lc_New_ok sz : (0 < sz)%Z →
    ∃ c, lc_New sz = Ok c ∧ lc_ok c ∧ lc_size c = Z.to_nat sz ∧ lc_list c = [];
}.

(** ** Caches as bounded maps: what clients that keep several caches use *)
Section map_view.
Context {L K V : Type} `{LRUCache_laws L K V}.

Definition lmap (c : L) : gmap K V := rl_map (lc_list c).

Lemma lmap_size c : lc_ok c → size (lmap c) = length (lc_list c).
Proof.
  intros Hc%lc_NoDup. unfold lmap, rl_map. rewrite <-length_map_to_list.
  by rewrite map_to_list_to_map.
Qed.

Lemma lmap_bound c : lc_ok c → size (lmap c) ≤ lc_size c.
Proof. intros Hc. rewrite lmap_size by done. by apply lc_bound. Qed.

Lemma mv_Contains k c : lc_ok c → lc_Contains k c = bool_decide (k ∈ dom (lmap c)).
Proof.
  intros Hc. rewrite lc_Contains_law by done. apply bool_decide_ext. rewrite elem_of_dom. unfold lmap. by rewrite rl_map_Some.
Qed.

Lemma mv_Peek k c : lc_ok c → lc_Peek k c = lmap c !! k.
Proof. apply lc_Peek_law. Qed.

Lemma mv_Len c : lc_ok c → lc_Len c = Z.of_nat (size (lmap c)).
Proof. intros Hc. by rewrite lc_Len_law, lmap_size. Qed.

Lemma mv_Get k c :
  lc_ok c →
  let r := lc_Get k c in
  lc_ok r.2 ∧ lc_size r.2 = lc_size c ∧ r.1 = lmap c !! k ∧ lmap r.2 = lmap c.
Proof.
  intros Hc. destruct (lc_Get_law k c Hc) as (Hc' & Hs & Hl). cbn. unfold rl_get in Hl.
  fold (lmap c) in Hl. destruct (lmap c !! k) as [v|] eqn:E; injection Hl as H1 H2; split_and!; try done.
  - unfold lmap at 1. rewrite H2. cbn. fold (rl_map (rl_remove k (lc_list c))).
    rewrite rl_remove_map. fold (lmap c). by rewrite insert_delete_id.
  - unfold lmap. by rewrite H2.
Qed.

Lemma mv_Remove k c :
  lc_ok c →
  let r := lc_Remove k c in
  lc_ok r.2 ∧ lc_size r.2 = lc_size c ∧ r.1 = bool_decide (k ∈ dom (lmap c)) ∧
  lmap r.2 = delete k (lmap c).
Proof.
  intros Hc. destruct (lc_Remove_law k c Hc) as (Hc' & Hs & Hr & Hl). cbn. split_and!; try done.
  - rewrite Hr. apply bool_decide_ext. rewrite elem_of_dom. unfold lmap. by rewrite rl_map_Some.
  - unfold lmap. by rewrite Hl, rl_remove_map.
Qed.

Lemma mv_RemoveOldest c :
  lc_ok c →
  let r := lc_RemoveOldest c in
  lc_ok r.2 ∧ lc_size r.2 = lc_size c ∧
  match r.1 with
  | None => lmap c = ∅ ∧ lmap r.2 = ∅
  | Some (k, v) => lmap c !! k = Some v ∧ lmap r.2 = delete k (lmap c)
  end.
Proof.
  intros Hc. destruct (lc_RemoveOldest_law c Hc) as (Hc' & Hs & [= Hr Hl]). cbn. split_and!; try done.
  rewrite Hr. unfold lmap. rewrite Hl. destruct (last (lc_list c)) as [[k v]|] eqn:E.
  - rewrite <-(rl_remove_last _ k v) by (done || by apply lc_NoDup). split; [|apply rl_remove_map].
    apply rl_map_elem; [by apply lc_NoDup|]. apply last_Some in E as [? ->]. set_solver.
  - apply last_None in E. by rewrite E.
Qed.

Lemma mv_Add k v c :
  lc_ok c →
  let c' := (lc_Add k v c).2 in
  lc_ok c' ∧ lc_size c' = lc_size c ∧ lmap c' !! k = Some v ∧ lmap c' ⊆ <[k := v]> (lmap c) ∧
  size (lmap c') = lc_size c `min` size (<[k := v]> (lmap c)).
Proof.
  intros Hc. destruct (lc_Add_law k v c Hc) as (Hc' & Hs & Hl). cbn. unfold rl_add in Hl.
  pose proof (lmap_bound c Hc) as Hb. pose proof (lc_pos c Hc) as Hp. pose proof (lmap_size c Hc) as Hsz.
  fold (lmap c) in Hl. split; [done|]. split; [done|].
  destruct (lmap c !! k) as [v0|] eqn:E; [|case_bool_decide as Hd]; injection Hl as _ Hl.
  - assert (lmap (lc_Add k v c).2 = <[k := v]> (lmap c)) as ->.
    { unfold lmap at 1. rewrite Hl. cbn. fold (rl_map (rl_remove k (lc_list c))).
      rewrite rl_remove_map. apply insert_delete_eq. }
    rewrite lookup_insert_eq, (map_size_insert_Some _ _ _ (mk_is_Some _ _ E)). split_and!; [done..|]. lia.
  - rewrite map_size_insert_None by done.
    destruct (length (lc_list c)) as [|m] eqn:Em; [lia|]. cbn [take] in Hl.
    assert (lmap (lc_Add k v c).2 = <[k := v]> (rl_map (take m (lc_list c)))) as Hm
      by (unfold lmap; by rewrite Hl).
    assert (NoDup (take m (lc_list c)).*1) as Hnd
      by (rewrite fmap_take; eapply sublist_NoDup; [apply lc_NoDup, Hc|apply sublist_take]).
    split_and!.
    + by rewrite Hm, lookup_insert_eq.
    + rewrite Hm. apply insert_mono, map_subseteq_spec. intros k' v' Hk'.
      apply rl_map_elem in Hk'; [|done]. apply rl_map_elem; [by apply lc_NoDup|]. by eapply subseteq_take.
    + rewrite lmap_size by done. rewrite Hl. cbn. rewrite length_take. lia.
  - assert (lmap (lc_Add k v c).2 = <[k := v]> (lmap c)) as -> by (unfold lmap; by rewrite Hl).
    rewrite lookup_insert_eq, map_size_insert_None by done. split_and!; [done..|]. lia.
Qed.

Lemma mv_Add_exact k v c :
  lc_ok c → size (<[k := v]> (lmap c)) ≤ lc_size c → lmap (lc_Add k v c).2 = <[k := v]> (lmap c).
Proof.
  intros Hc Hs. destruct (mv_Add k v c Hc) as (_ & _ & _ & Hsub & Hsz).
  apply map_subseteq_size_eq; [done|]. rewrite Hsz. lia.
Qed.

(** The domain of a cache after each call. *)
Lemma dom_Add k v (l : L) :
  lc_ok l → dom (lmap (lc_Add k v l).2) ⊆ {[k]} ∪ dom (lmap l).
Proof.
  intros Hl. destruct (mv_Add k v l Hl) as (_ & _ & _ & Hsub & _). apply subseteq_dom in Hsub.
  by rewrite dom_insert_L in Hsub.
Qed.

Lemma dom_Remove k (l : L) :
  lc_ok l → dom (lmap (lc_Remove k l).2) = dom (lmap l) ∖ {[k]}.
Proof. intros Hl. destruct (mv_Remove k l Hl) as (_ & _ & _ & ->). apply dom_delete_L. Qed.

Lemma dom_RemoveOldest (l : L) :
  lc_ok l → dom (lmap (lc_RemoveOldest l).2) ⊆ dom (lmap l).
Proof.
  intros Hl. destruct (mv_RemoveOldest l Hl) as (_ & _ & Hr).
  destruct (lc_RemoveOldest l).1 as [[k v]|]; destruct Hr as [? ->]; [rewrite dom_delete_L|]; set_solver.
Qed.

Lemma size_delete_in k (m : gmap K V) : k ∈ dom m → S (size (delete k m)) = size m.
Proof.
  intros [v Hv]%elem_of_dom. rewrite map_size_delete, Hv.
  assert (size m ≠ 0); [|lia]. intros Hz%map_size_empty_inv. by rewrite Hz, lookup_empty in Hv.
Qed.
End map_view.

(** ** The implementation

    An element of the list is known by its address; the map holds addresses.  [world] is
    what the callback acts on. *)
Section lru.
Context {K V W : Type} `{Countable K}.
Context (rng : gmap K nat → list (K * nat)) `{!range_order rng}.

Abbreviation element := (nat * (K * V))%type.

Record LRU := {
  lru_size : Z;
  evictList : list element;
  items : gmap K nat;
  onEvict : option (K → V → W → W);
  world : W;
  next : nat;               (* the next free address *)
}.

Definition set_lru (l : list element) (m : gmap K nat) (c : LRU) : LRU :=
  {| lru_size := lru_size c; evictList := l; items := m; onEvict := onEvict c; world := world c; next := next c |}.
Definition set_world (w : W) (c : LRU) : LRU :=
  {| lru_size := lru_size c; evictList := evictList c; items := items c; onEvict := onEvict c; world := w;
     next := next c |}.

(** The operations of container/list. *)
Definition list_Remove (e : nat) (l : list element) : list element := filter (λ x, x.1 ≠ e) l.
Definition list_Value (e : nat) (l : list element) : option (K * V) :=
  snd <$> find (λ x, bool_decide (x.1 = e)) l.
Definition list_MoveToFront (e : nat) (l : list element) : list element :=
  match list_Value e l with
  | Some kv => (e, kv) :: list_Remove e l
  | None => l
  end.
Definition list_Back (l : list element) : option element := last l.

Definition NewLRU (size : Z) (onEvict : option (K → V → W → W)) (w : W) : res string LRU :=
  if bool_decide (size ≤ 0)%Z then Err "Must provide a positive size"
  else Ok {| lru_size := size; evictList := []; items := ∅; onEvict := onEvict; world := w; next := 0 |}.

Definition call_onEvict (kv : K * V) (c : LRU) : LRU :=
  match onEvict c with
  | Some f => set_world (f kv.1 kv.2 (world c)) c
  | None => c
  end.

Fixpoint purge_items (l : list (K * nat)) (c : LRU) : LRU :=
  match l with
  | [] => c
  | (k, e) :: l' =>
    let c := match list_Value e (evictList c) with
             | Some kv => call_onEvict (k, kv.2) c
             | None => c
             end in
    purge_items l' (set_lru (evictList c) (delete k (items c)) c)
  end.

Definition Purge (c : LRU) : LRU :=
  let c := purge_items (rng (items c)) c in
  set_lru [] (items c) c.

Definition removeElement (e : element) (c : LRU) : LRU :=
  let c := set_lru (list_Remove e.1 (evictList c)) (items c) c in
  let kv := e.2 in
  let c := set_lru (evictList c) (delete kv.1 (items c)) c in
  call_onEvict kv c.

Definition removeOldest (c : LRU) : LRU :=
  match list_Back (evictList c) with
  | Some ent => removeElement ent c
  | None => c
  end.

Definition Len (c : LRU) : Z := Z.of_nat (length (evictList c)).

Definition Add (key : K) (value : V) (c : LRU) : bool * LRU :=
  match items c !! key with
  | Some ent =>
    let l := list_MoveToFront ent (evictList c) in
    (false, set_lru ((λ x, if bool_decide (x.1 = ent) then (x.1, (x.2.1, value)) else x) <$> l) (items c) c)
  | None =>
    let e := next c in
    let c := {| lru_size := lru_size c; evictList := (e, (key, value)) :: evictList c; items := <[key := e]> (items c);
                onEvict := onEvict c; world := world c; next := S e |} in
    let evict := bool_decide (lru_size c < Len c)%Z in
    (evict, if evict then removeOldest c else c)
  end.

Definition Get (key : K) (c : LRU) : option V * LRU :=
  match items c !! key with
  | Some ent => (snd <$> list_Value ent (evictList c), set_lru (list_MoveToFront ent (evictList c)) (items c) c)
  | None => (None, c)
  end.

Definition Contains (key : K) (c : LRU) : bool := bool_decide (is_Some (items c !! key)).

Definition Peek (key : K) (c : LRU) : option V :=
  match items c !! key with
  | Some ent => snd <$> list_Value ent (evictList c)
  | None => None
  end.

Definition Remove (key : K) (c : LRU) : bool * LRU :=
  match items c !! key with
  | Some ent =>
    match list_Value ent (evictList c) with
    | Some kv => (true, removeElement (ent, kv) c)
    | None => (true, c)
    end
  | None => (false, c)
  end.

Definition RemoveOldest (c : LRU) : option (K * V) * LRU :=
  match list_Back (evictList c) with
  | Some ent => (Some ent.2, removeElement ent c)
  | None => (None, c)
  end.

Definition GetOldest (c : LRU) : option (K * V) := snd <$> list_Back (evictList c).

(** [Keys]: a slice with one place per item, written from the back of the list on. *)
Fixpoint write_keys (i : nat) (l : list element) (keys : list (option K)) : option (list (option K)) :=
  match l with
  | [] => Some keys
  | e :: l' =>
    if bool_decide (i < length keys) then write_keys (S i) l' (<[i := Some e.2.1]> keys) else None
  end.

Definition Keys (c : LRU) : option (list (option K)) :=
  write_keys 0 (reverse (evictList c)) (replicate (size (items c)) None).

#[export] Instance LRU_ops : LRUCache_ops LRU K V := {|
  lc_Add := Add; lc_Get := Get; lc_Contains := Contains; lc_Peek := Peek; lc_Remove := Remove;
  lc_RemoveOldest := RemoveOldest; lc_GetOldest := GetOldest; lc_Keys := Keys; lc_Len := Len;
  lc_Purge := Purge;
|}.

(** ** The list and the map agree *)
Definition entries (c : LRU) : list (K * V) := (evictList c).*2.

Record agree (c : LRU) : Prop := {
  ag_addr : NoDup (evictList c).*1;
  ag_keys : NoDup (entries c).*1;
  ag_items k e : items c !! k = Some e ↔ ∃ v, (e, (k, v)) ∈ evictList c;
  ag_next e : e ∈ (evictList c).*1 → e < next c;
}.

Definition lru_ok (c : LRU) : Prop :=
  agree c ∧ (0 < lru_size c)%Z ∧ length (evictList c) ≤ Z.to_nat (lru_size c).

Lemma list_Value_map e (l : list element) : list_Value e l = rl_map l !! e.
Proof.
  unfold list_Value, rl_map. induction l as [|[e' kv] l IH]; [done|]. cbn.
  case_bool_decide as E; cbn in E; [subst; by rewrite lookup_insert_eq|by rewrite lookup_insert_ne].
Qed.

Lemma agree_Value c k e :
  agree c → items c !! k = Some e →
  ∃ v, list_Value e (evictList c) = Some (k, v) ∧ (e, (k, v)) ∈ evictList c ∧
    rl_map (entries c) !! k = Some v.
Proof.
  intros [Ha Hk Hi _] (v & Hv)%Hi. exists v. split_and!; [|done|].
  - rewrite list_Value_map. by apply rl_map_elem.
  - apply rl_map_elem; [done|]. apply list_elem_of_fmap. by exists (e, (k, v)).
Qed.

Lemma agree_None c k : agree c → items c !! k = None ↔ rl_map (entries c) !! k = None.
Proof.
  intros [Ha Hk Hi _]. split; intros Hn.
  - destruct (rl_map (entries c) !! k) as [v|] eqn:E; [|done].
    apply rl_map_elem in E; [|done]. apply list_elem_of_fmap in E as ([e kv] & Heq & Hin). cbn in Heq. subst kv.
    assert (items c !! k = Some e) as Hs by (apply Hi; eauto). by rewrite Hs in Hn.
  - destruct (items c !! k) as [e|] eqn:E; [|done]. apply Hi in E as (v & Hv).
    assert (rl_map (entries c) !! k = Some v) as Hs; [|by rewrite Hs in Hn].
    apply rl_map_elem; [done|]. apply list_elem_of_fmap. by exists (e, (k, v)).
Qed.

Lemma remove_entries e k v (l : list element) :
  NoDup l.*1 → NoDup l.*2.*1 → (e, (k, v)) ∈ l → (list_Remove e l).*2 = rl_remove k l.*2.
Proof.
  change (list_Remove e l) with (rl_remove e l).
  induction l as [|[e' [k' v']] l IH]; [by intros _ _ ?%not_elem_of_nil|]. rewrite !fmap_cons. cbn [fst snd].
  intros [He Hl]%NoDup_cons [Hk Hl2]%NoDup_cons [[= <- <- <-]|Hin]%elem_of_cons; rewrite !rl_remove_cons.
  - by rewrite !decide_True, !rl_remove_absent.
  - assert (e ∈ l.*1) by (apply list_elem_of_fmap; by exists (e, (k, v))).
    assert (k ∈ l.*2.*1) by (rewrite <-list_fmap_compose; apply list_elem_of_fmap; by exists (e, (k, v))).
    rewrite !decide_False by (by intros ->). rewrite fmap_cons. f_equal. by apply IH.
Qed.

Lemma elem_list_Remove e x (l : list element) : x ∈ list_Remove e l ↔ x ∈ l ∧ x.1 ≠ e.
Proof. unfold list_Remove. rewrite list_elem_of_filter. tauto. Qed.

(** The fields a call leaves alone. *)
Definition same_rest (c c' : LRU) : Prop :=
  lru_size c' = lru_size c ∧ onEvict c' = onEvict c.

Definition notified (kvs : list (K * V)) (c : LRU) : W :=
  match onEvict c with
  | Some f => foldl (λ w kv, f kv.1 kv.2 w) (world c) kvs
  | None => world c
  end.

Lemma call_onEvict_rest kv c :
  same_rest c (call_onEvict kv c) ∧ evictList (call_onEvict kv c) = evictList c ∧
  items (call_onEvict kv c) = items c ∧ next (call_onEvict kv c) = next c ∧
  world (call_onEvict kv c) = notified [kv] c.
Proof. unfold call_onEvict, notified, same_rest. by destruct (onEvict c) eqn:E; cbn; rewrite ?E. Qed.

Lemma removeElement_law e k v c :
  agree c → (e, (k, v)) ∈ evictList c →
  let c' := removeElement (e, (k, v)) c in
  agree c' ∧ same_rest c c' ∧ entries c' = rl_remove k (entries c) ∧ world c' = notified [(k, v)] c.
Proof.
  intros Hg Hin c'. destruct Hg as [Ha Hk Hi Hn].
  set (c1 := set_lru (list_Remove e (evictList c)) (delete k (items c)) c).
  destruct (call_onEvict_rest (k, v) c1) as ([S1 S2] & El & Ei & En & Ew).
  change (call_onEvict (k, v) c1) with c' in *. cbn in *.
  pose proof (remove_entries e k v _ Ha Hk Hin) as He.
  split; [|split; [done|split; [unfold entries; by rewrite El|done]]].
  split; unfold entries; rewrite ?El, ?Ei, ?En.
  - by apply rl_remove_NoDup.
  - rewrite He. by apply rl_remove_NoDup.
  - intros k' e'. rewrite lookup_delete. setoid_rewrite elem_list_Remove. cbn.
    assert (items c !! k = Some e) as Hke by (apply Hi; eauto). case_decide as E.
    + subst k'. split; [done|]. intros (v' & Hv' & Hne). exfalso.
      assert (items c !! k = Some e') by (apply Hi; eauto). congruence.
    + rewrite Hi. split; intros (v' & Hv'); [|naive_solver]. exists v'. split; [done|]. intros ->.
      apply (rl_map_elem _ _ _ Ha) in Hin, Hv'. congruence.
  - intros e'. rewrite list_elem_of_fmap. intros (x & -> & [Hx _]%elem_list_Remove).
    apply Hn, list_elem_of_fmap. eauto.
Qed.

Lemma agree_reorder c l' :
  agree c → l' ≡ₚ evictList c → agree (set_lru l' (items c) c).
Proof.
  intros [Ha Hk Hi Hn] Hp. split; unfold entries in *; cbn; try setoid_rewrite Hp; done.
Qed.

Lemma MoveToFront_perm e kv (l : list element) :
  NoDup l.*1 → (e, kv) ∈ l →
  list_MoveToFront e l = (e, kv) :: list_Remove e l ∧ list_MoveToFront e l ≡ₚ l.
Proof.
  intros Hn Hin. unfold list_MoveToFront. rewrite list_Value_map, (proj2 (rl_map_elem l e kv Hn) Hin).
  split; [done|]. apply NoDup_Permutation.
  - apply NoDup_cons. split; [rewrite elem_list_Remove; naive_solver|].
    eapply NoDup_fmap_1, rl_remove_NoDup, Hn.
  - by eapply NoDup_fmap_1.
  - intros [e' kv']. rewrite elem_of_cons, elem_list_Remove. cbn. split; [naive_solver|].
    intros Hx. destruct (decide (e' = e)) as [->|]; [left|by right].
    apply (rl_map_elem _ _ _ Hn) in Hin, Hx. congruence.
Qed.

Lemma Get_law k c :
  lru_ok c →
  let r := Get k c in
  lru_ok r.2 ∧ same_rest c r.2 ∧ world r.2 = world c ∧ (r.1, entries r.2) = rl_get k (entries c).
Proof.
  intros (Hg & Hs & Hb). unfold Get, rl_get.
  destruct (items c !! k) as [e|] eqn:Ei; cbn zeta; cbn [fst snd].
  - destruct (agree_Value c k e Hg Ei) as (v & Hv & Hin & ->). rewrite Hv.
    destruct (MoveToFront_perm e (k, v) _ (ag_addr _ Hg) Hin) as [Hm Hp].
    split_and!; [|done|done|].
    + split_and!; [by apply agree_reorder|done|]. cbn. by rewrite Hp.
    + cbn. unfold entries at 1. cbn. rewrite Hm. cbn. do 2 f_equal.
      by apply (remove_entries e k v); [apply Hg|apply Hg|].
  - by rewrite (proj1 (agree_None c k Hg) Ei).
Qed.

Lemma Remove_law k c :
  lru_ok c →
  let r := Remove k c in
  lru_ok r.2 ∧ same_rest c r.2 ∧ r.1 = bool_decide (k ∈ (entries c).*1) ∧
  entries r.2 = rl_remove k (entries c) ∧
  world r.2 = notified (match rl_map (entries c) !! k with Some v => [(k, v)] | None => [] end) c.
Proof.
  intros (Hg & Hs & Hb). unfold Remove.
  destruct (items c !! k) as [e|] eqn:Ei; cbn zeta; cbn [fst snd].
  - destruct (agree_Value c k e Hg Ei) as (v & Hv & Hin & Hm). rewrite Hv, Hm. cbn [fst snd].
    destruct (removeElement_law e k v c Hg Hin) as (Hg' & [H1 H2] & He & Hw). split_and!; try done.
    + split_and!; [done|by rewrite H1|]. rewrite H1.
      assert (length (entries (removeElement (e, (k, v)) c)) ≤ length (entries c)) as Hl
        by (rewrite He; apply rl_remove_length).
      unfold entries in Hl. rewrite !length_fmap in Hl. lia.
    + rewrite bool_decide_eq_true_2; [done|]. apply rl_map_Some. by eexists.
  - apply (agree_None c k Hg) in Ei. rewrite Ei. apply rl_map_None in Ei.
    rewrite rl_remove_absent by done. split_and!; [done..|by rewrite bool_decide_eq_false_2|done|].
    unfold notified. by destruct (onEvict c).
Qed.

Lemma removeOldest_law c :
  agree c →
  let c' := removeOldest c in
  agree c' ∧ same_rest c c' ∧ entries c' = take (length (entries c) - 1) (entries c) ∧
  world c' = notified (from_option (λ kv, [kv]) [] (last (entries c))) c.
Proof.
  intros Hg. unfold removeOldest, list_Back, entries at 4. rewrite fmap_last.
  destruct (last (evictList c)) as [[e [k v]]|] eqn:El; cbn zeta; cbn [fmap option_fmap option_map from_option snd].
  - assert ((e, (k, v)) ∈ evictList c) as Hin by (apply last_Some in El as [? ->]; set_solver).
    destruct (removeElement_law e k v c Hg Hin) as (Hg' & Hr & He & Hw). split_and!; [done..| |done].
    rewrite He. apply (rl_remove_last _ _ v); [apply Hg|]. unfold entries. by rewrite fmap_last, El.
  - apply last_None in El. unfold entries. rewrite El. split_and!; [done..|].
    unfold notified. by destruct (onEvict c).
Qed.

Lemma removeOldest_ok c :
  agree c → (0 < lru_size c)%Z → length (evictList c) ≤ S (Z.to_nat (lru_size c)) → lru_ok (removeOldest c).
Proof.
  intros Hg Hs Hb. destruct (removeOldest_law c Hg) as (Hg' & [H1 H2] & He & _).
  split_and!; [done|by rewrite H1|]. rewrite H1. apply (f_equal length) in He.
  unfold entries in He. rewrite length_take, !length_fmap in He. lia.
Qed.

(** The entry of the given key, moved to the front, gets the new value. *)
Lemma set_value_entries e k v v' (l : list element) :
  NoDup l.*1 → NoDup l.*2.*1 → (e, (k, v)) ∈ l →
  ((λ x : element, if bool_decide (x.1 = e) then (x.1, (x.2.1, v')) else x) <$> list_MoveToFront e l)
    = (e, (k, v')) :: list_Remove e l.
Proof.
  intros Ha Hk Hin. destruct (MoveToFront_perm e (k, v) l Ha Hin) as [-> _]. rewrite fmap_cons. cbn.
  rewrite bool_decide_eq_true_2 by done. f_equal.
  rewrite <-(list_fmap_id (list_Remove e l)) at 2. apply list_fmap_ext. intros i x Hx.
  apply list_elem_of_lookup_2, elem_list_Remove in Hx as [_ Hx]. by rewrite bool_decide_eq_false_2.
Qed.

Lemma agree_set_value e k v v' c :
  agree c → (e, (k, v)) ∈ evictList c →
  agree (set_lru ((e, (k, v')) :: list_Remove e (evictList c)) (items c) c).
Proof.
  intros Hg Hin. destruct (MoveToFront_perm e (k, v) _ (ag_addr _ Hg) Hin) as [Hm Hp]. rewrite Hm in Hp.
  destruct (agree_reorder c _ Hg Hp) as [Ha Hk Hi Hn]. unfold entries in *. cbn in *.
  split; unfold entries; cbn; [done|done| |done].
  intros k' e'. rewrite Hi. setoid_rewrite elem_of_cons.
  split; intros (x & [[= -> -> ->]|Hx]); eauto.
Qed.

Lemma agree_push c k v :
  agree c → items c !! k = None →
  agree {| lru_size := lru_size c; evictList := (next c, (k, v)) :: evictList c; items := <[k := next c]> (items c);
           onEvict := onEvict c; world := world c; next := S (next c) |}.
Proof.
  intros Hg Hk. pose proof (proj1 (agree_None c k Hg) Hk) as Hm%rl_map_None. destruct Hg as [Ha HK Hi Hn].
  split; unfold entries in *; cbn.
  - apply NoDup_cons. split; [|done]. intros Hin%Hn. lia.
  - by apply NoDup_cons.
  - intros k' e. rewrite lookup_insert. setoid_rewrite elem_of_cons. case_decide as E.
    + subst k'. split; [intros [= <-]; eauto|]. intros (v' & [[= <- <-]|Hin]); [done|].
      exfalso. apply Hm. apply list_elem_of_fmap. exists (k, v'). split; [done|].
      apply list_elem_of_fmap. by exists (e, (k, v')).
    + rewrite Hi. split; [naive_solver|]. intros (v' & [[= -> -> ->]|Hin]); [done|eauto].
  - intros e [->|Hin%Hn]%elem_of_cons; lia.
Qed.

Lemma Add_law k v c :
  lru_ok c →
  let r := Add k v c in
  lru_ok r.2 ∧ same_rest c r.2 ∧ (r.1, entries r.2) = rl_add (Z.to_nat (lru_size c)) k v (entries c) ∧
  world r.2 = notified (if r.1 then from_option (λ kv, [kv]) [] (last ((k, v) :: entries c)) else []) c.
Proof.
  intros (Hg & Hs & Hb). unfold Add, rl_add.
  assert (notified [] c = world c) as Hnil by (unfold notified; by destruct (onEvict c)).
  destruct (items c !! k) as [e|] eqn:Ei; cbn zeta; cbn [fst snd].
  - destruct (agree_Value c k e Hg Ei) as (v0 & Hv & Hin & ->).
    rewrite (set_value_entries e k v0 v) by (done || apply Hg).
    split_and!; [split_and!; [by eapply agree_set_value|done|]|done| |done].
    + cbn. destruct (MoveToFront_perm e (k, v0) _ (ag_addr _ Hg) Hin) as [Hm Hp].
      apply Permutation_length in Hp. rewrite Hm in Hp. cbn in Hp. lia.
    + f_equal. unfold entries at 1. cbn. f_equal. apply (remove_entries e k v0); [apply Hg|apply Hg|done].
  - rewrite (proj1 (agree_None c k Hg) Ei). pose proof (agree_push c k v Hg Ei) as Hg1.
    set (c1 := {| lru_size := lru_size c |}) in *.
    assert (entries c1 = (k, v) :: entries c) as E1 by done.
    assert (Len c1 = Z.of_nat (S (length (evictList c)))) as EL by done.
    assert (length (entries c) = length (evictList c)) as El by (unfold entries; by rewrite length_fmap).
    case_bool_decide as Hlt; rewrite EL in Hlt; cbn [lru_size c1] in Hlt.
    + rewrite bool_decide_eq_true_2 by lia.
      destruct (removeOldest_law c1 Hg1) as (_ & Hr & He & Hw). rewrite E1 in He, Hw.
      split_and!; [apply removeOldest_ok; [done|done|cbn; lia]|done| |done].
      f_equal. rewrite He. f_equal. cbn. lia.
    + rewrite bool_decide_eq_false_2 by lia. split_and!; [split_and!; [done|done|cbn; lia]|done..].
Qed.

Lemma RemoveOldest_law c :
  lru_ok c →
  let r := RemoveOldest c in
  lru_ok r.2 ∧ same_rest c r.2 ∧ (r.1, entries r.2) = rl_pop (entries c) ∧
  world r.2 = notified (from_option (λ kv, [kv]) [] (last (entries c))) c.
Proof.
  intros (Hg & Hs & Hb). destruct (removeOldest_law c Hg) as (_ & Hr & He & Hw).
  assert (RemoveOldest c = (last (entries c), removeOldest c)) as ->.
  { unfold RemoveOldest, removeOldest, list_Back, entries. rewrite fmap_last.
    by destruct (last (evictList c)). }
  split_and!; [apply removeOldest_ok; [done|done|lia]|done| |done]. unfold rl_pop. cbn. by rewrite He.
Qed.

Lemma write_keys_exact l i keys :
  i + length l ≤ length keys →
  write_keys i l keys = Some (take i keys ++ ((λ e : element, Some e.2.1) <$> l) ++ drop (i + length l) keys).
Proof.
  revert i keys. induction l as [|e l IH]; intros i keys Hl; cbn in *.
  { by rewrite Nat.add_0_r, take_drop. }
  rewrite bool_decide_eq_true_2 by lia. rewrite IH by (rewrite length_insert; lia). f_equal.
  rewrite (take_S_r _ i (Some e.2.1)) by (apply list_lookup_insert_eq; lia).
  rewrite take_insert_ge, drop_insert_lt by lia. rewrite <-app_assoc. cbn. do 4 f_equal. lia.
Qed.

Lemma items_size c : agree c → size (items c) = length (evictList c).
Proof.
  intros Hg. rewrite <-length_map_to_list. transitivity (length (entries c)); [|apply length_fmap].
  rewrite <-(length_fmap fst (map_to_list (items c))), <-(length_fmap fst (entries c)).
  apply Permutation_length, NoDup_Permutation; [apply NoDup_fst_map_to_list|apply Hg|].
  intros k. rewrite (range_keys map_to_list), <-rl_map_Some, <-!not_eq_None_Some.
  by rewrite (agree_None c k Hg).
Qed.

Lemma Keys_law c : lru_ok c → Keys c = Some (Some <$> reverse (entries c).*1).
Proof.
  intros (Hg & _). unfold Keys. rewrite write_keys_exact; rewrite length_reverse, (items_size c Hg).
  - rewrite take_0, drop_ge by (rewrite length_replicate; lia). rewrite app_nil_r. cbn [app]. f_equal.
    unfold entries. rewrite <-!fmap_reverse, <-!list_fmap_compose. done.
  - rewrite length_replicate. lia.
Qed.

Lemma purge_items_law l c :
  NoDup l.*1 → (∀ k e, (k, e) ∈ l → ∃ v, list_Value e (evictList c) = Some (k, v)) →
  ∃ ev, ev.*1 = l.*1 ∧ (∀ kv, kv ∈ ev → kv ∈ entries c) ∧
    let c' := purge_items l c in
    same_rest c c' ∧ evictList c' = evictList c ∧ next c' = next c ∧ world c' = notified ev c ∧
    ∀ k, items c' !! k = if decide (k ∈ l.*1) then None else items c !! k.
Proof.
  revert c. induction l as [|[k e] l IH]; intros c Hn Hv; cbn zeta.
  { exists []. split_and!; [done|by intros kv ?%not_elem_of_nil|done..| |done].
    unfold notified. by destruct (onEvict c). }
  rewrite fmap_cons in Hn. apply NoDup_cons in Hn as [Hk Hn].
  destruct (Hv k e) as (v & Hve); [by left|]. cbn [purge_items]. rewrite Hve. cbn [snd].
  destruct (call_onEvict_rest (k, v) c) as ([S1 S2] & El & Ei & En & Ew).
  set (c1 := call_onEvict (k, v) c) in *.
  set (c2 := set_lru (evictList c1) (delete k (items c1)) c1).
  destruct (IH c2) as (ev & He & Hin & [R1 R2] & Rl & Rn & Rw & Ri); [done| |].
  { intros k' e' Hke. cbn. rewrite El. apply Hv. by right. }
  exists ((k, v) :: ev). rewrite !fmap_cons, He. split_and!; [done| |split; cbn in *; congruence|..].
  - intros kv [->|Hkv]%elem_of_cons.
    + apply list_elem_of_fmap. exists (e, (k, v)). split; [done|]. rewrite list_Value_map in Hve.
      by apply elem_of_list_to_map_2 in Hve.
    + apply Hin in Hkv. unfold entries in *. cbn in Hkv. by rewrite El in Hkv.
  - cbn in *. congruence.
  - cbn in *. congruence.
  - rewrite Rw. unfold notified. cbn [c2 set_lru onEvict world]. rewrite S2, Ew. unfold notified.
    by destruct (onEvict c).
  - intros k'. rewrite Ri. cbn. rewrite Ei, lookup_delete. repeat case_decide; set_solver.
Qed.

Lemma Purge_law c :
  lru_ok c →
  lru_ok (Purge c) ∧ same_rest c (Purge c) ∧ entries (Purge c) = [] ∧
  ∃ ev, ev ≡ₚ entries c ∧ world (Purge c) = notified ev c.
Proof.
  intros (Hg & Hs & Hb).
  destruct (purge_items_law (rng (items c)) c) as (ev & He & Hin & [R1 R2] & Rl & Rn & Rw & Ri).
  { apply range_NoDup_fst; apply _. }
  { intros k e Hke. apply range_elem in Hke; [|apply _].
    destruct (agree_Value c k e Hg Hke) as (v & Hv & _). eauto. }
  assert (∀ k, items (Purge c) !! k = None) as Hi.
  { intros k. cbn. rewrite Ri. case_decide as Hd; [done|]. destruct (items c !! k) eqn:E; [|done].
    destruct Hd. apply range_keys; [apply _|]. by eexists. }
  split_and!; [|by split|done|exists ev; split; [|done]].
  - split_and!; [|by cbn; rewrite R1|cbn; lia]. split; [apply NoDup_nil_2|apply NoDup_nil_2| |by intros e ?%not_elem_of_nil].
    intros k e. rewrite Hi. split; [done|]. by intros (v & ?%not_elem_of_nil).
  - assert (NoDup ev.*1) as Hne by (rewrite He; apply range_NoDup_fst; apply _).
    apply NoDup_Permutation; [by eapply NoDup_fmap_1|eapply NoDup_fmap_1; apply Hg|].
    intros [k v]. split; [apply Hin|]. intros Hkv. apply (rl_map_elem _ _ _ (ag_keys _ Hg)) in Hkv.
    assert (k ∈ ev.*1) as ([k' v'] & -> & Hev)%list_elem_of_fmap.
    { rewrite He. apply range_keys; [apply _|]. apply not_eq_None_Some. intros Hn%(agree_None c k Hg). congruence. }
    pose proof (Hin _ Hev) as Hkv'. apply (rl_map_elem _ _ _ (ag_keys _ Hg)) in Hkv'. cbn in *. congruence.
Qed.

Lemma Peek_law k c : lru_ok c → Peek k c = rl_map (entries c) !! k.
Proof.
  intros (Hg & _). unfold Peek. destruct (items c !! k) as [e|] eqn:Ei.
  - destruct (agree_Value c k e Hg Ei) as (v & -> & _ & ->). done.
  - by rewrite (proj1 (agree_None c k Hg) Ei).
Qed.

Lemma Contains_law k c : lru_ok c → Contains k c = bool_decide (k ∈ (entries c).*1).
Proof.
  intros (Hg & _). unfold Contains. apply bool_decide_ext.
  by rewrite <-rl_map_Some, <-!not_eq_None_Some, (agree_None c k Hg).
Qed.

(** [LRU] keeps the promises of the interface. *)
#[export] Instance LRU_laws : LRUCache_laws LRU K V.
Proof.
  refine {| lc_list := entries; lc_size c := Z.to_nat (lru_size c); lc_ok := lru_ok |}; cbn.
  - intros c (Hg & _). apply Hg.
  - intros c (_ & _ & Hb). unfold entries. by rewrite length_fmap.
  - intros c (_ & Hs & _). lia.
  - intros k v c Hc. destruct (Add_law k v c Hc) as (? & [-> _] & ? & _). auto.
  - intros k c Hc. destruct (Get_law k c Hc) as (? & [-> _] & _ & ?). auto.
  - apply Contains_law.
  - apply Peek_law.
  - intros k c Hc. destruct (Remove_law k c Hc) as (? & [-> _] & ? & ? & _). auto.
  - intros c Hc. destruct (RemoveOldest_law c Hc) as (? & [-> _] & ? & _). auto.
  - intros c Hc. unfold GetOldest, list_Back, entries. by rewrite fmap_last.
  - apply Keys_law.
  - intros c Hc. unfold Len, entries. by rewrite length_fmap.
  - intros c Hc. destruct (Purge_law c Hc) as (? & [H1 _] & ? & _). split_and!; [done|exact (f_equal Z.to_nat H1)|done].
Defined.

Lemma NewLRU_ok sz cb w c : NewLRU sz cb w = Ok c → lru_ok c ∧ entries c = [] ∧ lru_size c = sz ∧ onEvict c = cb ∧ world c = w.
Proof.
  unfold NewLRU. case_bool_decide; [done|]. intros [= <-]. split; [|done]. split_and!; [|cbn; lia..].
  split; cbn; [apply NoDup_nil_2..| |by intros e ?%not_elem_of_nil].
  intros k e. split; [done|]. by intros (v & ?%not_elem_of_nil).
Qed.

#[export] Instance LRU_new (w : W) : LRUCache_new LRU K V.
Proof.
  refine {| lc_New sz := NewLRU sz None w |}.
  - intros sz Hsz. unfold NewLRU. rewrite bool_decide_eq_true_2 by done. by eexists.
  - intros sz Hsz. destruct (NewLRU sz None w) as [c|e] eqn:E.
    + destruct (NewLRU_ok _ _ _ _ E) as (Hc & He & Hs & _). exists c. cbn. by rewrite Hs.
    + unfold NewLRU in E. rewrite bool_decide_eq_false_2 in E by lia. done.
Defined.

(** ** The thread-safe cache (lru.go): each method is one call under the lock *)
Definition NewWithEvict (size : Z) (onEvicted : option (K → V → W → W)) (w : W) : res string LRU :=
  NewLRU size onEvicted w.
Definition New (size : Z) (w : W) : res string LRU := NewWithEvict size None w.
Definition cache_Purge (c : LRU) : LRU := lc_Purge (V:=V) c.
Definition cache_Add (key : K) (value : V) (c : LRU) : bool * LRU := lc_Add key value c.
Definition cache_Get (key : K) (c : LRU) : option V * LRU := lc_Get key c.
Definition cache_Contains (key : K) (c : LRU) : bool := lc_Contains (V:=V) key c.
Definition cache_Peek (key : K) (c : LRU) : option V := lc_Peek key c.
Definition cache_Remove (key : K) (c : LRU) : LRU := (lc_Remove (V:=V) key c).2.
Definition cache_RemoveOldest (c : LRU) : LRU := (lc_RemoveOldest (K:=K) (V:=V) c).2.
Definition cache_Keys (c : LRU) : option (list (option K)) := lc_Keys (V:=V) c.
Definition cache_Len (c : LRU) : Z := lc_Len (K:=K) (V:=V) c.

Definition ContainsOrAdd (key : K) (value : V) (c : LRU) : (bool * bool) * LRU :=
  if lc_Contains (V:=V) key c then ((true, false), c)
  else let '(evicted, c) := lc_Add key value c in ((false, evicted), c).

(** ** Runs of a cache and of its recency list *)
Inductive cache_op : Type :=
| OpAdd (k : K) (v : V) | OpGet (k : K) | OpContains (k : K) | OpPeek (k : K)
| OpContainsOrAdd (k : K) (v : V) | OpRemove (k : K) | OpRemoveOldest | OpKeys | OpLen | OpPurge.

Inductive cache_res : Type :=
| RNone | RBool (b : bool) | RValue (v : option V) | RFound (ok evicted : bool)
| RKeys (l : list (option K)) | RLen (n : Z).

Definition run_op (op : cache_op) (c : LRU) : option (cache_res * LRU) :=
  match op with
  | OpAdd k v => let '(b, c) := cache_Add k v c in Some (RBool b, c)
  | OpGet k => let '(v, c) := cache_Get k c in Some (RValue v, c)
  | OpContains k => Some (RBool (cache_Contains k c), c)
  | OpPeek k => Some (RValue (cache_Peek k c), c)
  | OpContainsOrAdd k v => let '((b, e), c) := ContainsOrAdd k v c in Some (RFound b e, c)
  | OpRemove k => Some (RNone, cache_Remove k c)
  | OpRemoveOldest => Some (RNone, cache_RemoveOldest c)
  | OpKeys => (λ l, (RKeys l, c)) <$> cache_Keys c
  | OpLen => Some (RLen (cache_Len c), c)
  | OpPurge => Some (RNone, cache_Purge c)
  end.

(** What the same call does to a recency list: the result, the new list, and the
    entries that leave it and are given to the callback. *)
Definition spec_op (n : nat) (op : cache_op) (l : list (K * V)) :
    cache_res * list (K * V) * list (K * V) :=
  match op with
  | OpAdd k v =>
    let '(b, l') := rl_add n k v l in (RBool b, l', if b then option_list (last ((k, v) :: l)) else [])
  | OpGet k => let '(v, l') := rl_get k l in (RValue v, l', [])
  | OpContains k => (RBool (bool_decide (k ∈ l.*1)), l, [])
  | OpPeek k => (RValue (rl_map l !! k), l, [])
  | OpContainsOrAdd k v =>
    if bool_decide (k ∈ l.*1) then (RFound true false, l, [])
    else let '(b, l') := rl_add n k v l in
         (RFound false b, l', if b then option_list (last ((k, v) :: l)) else [])
  | OpRemove k => (RNone, rl_remove k l, option_list ((k,.) <$> rl_map l !! k))
  | OpRemoveOldest => (RNone, (rl_pop l).2, option_list (last l))
  | OpKeys => (RKeys (Some <$> reverse l.*1), l, [])
  | OpLen => (RLen (Z.of_nat (length l)), l, [])
  | OpPurge => (RNone, [], l)
  end.

Fixpoint run_ops (ops : list cache_op) (c : LRU) : option (list cache_res * LRU) :=
  match ops with
  | [] => Some ([], c)
  | op :: ops' =>
    '(r, c) ← run_op op c; '(rs, c) ← run_ops ops' c; Some (r :: rs, c)
  end.

Fixpoint spec_ops (n : nat) (ops : list cache_op) (l : list (K * V)) :
    list cache_res * list (K * V) * list (list (K * V)) :=
  match ops with
  | [] => ([], l, [])
  | op :: ops' =>
    let '(r, l, ev) := spec_op n op l in
    let '(rs, l, evs) := spec_ops n ops' l in (r :: rs, l, ev :: evs)
  end.

Lemma cache_op_refines op c :
  lru_ok c →
  let '(r, l, ev) := spec_op (Z.to_nat (lru_size c)) op (entries c) in
  ∃ c' ev', run_op op c = Some (r, c') ∧ lru_ok c' ∧ same_rest c c' ∧ entries c' = l ∧ ev' ≡ₚ ev ∧
    world c' = notified ev' c.
Proof.
  intros Hc.
  assert (notified [] c = world c) as Hnil by (unfold notified; by destruct (onEvict c)).
  destruct op as [k v|k|k|k|k v|k| | | |]; cbn -[rl_add rl_get rl_pop rl_remove].
  - destruct (Add_law k v c Hc) as (Hc' & Hr & He & Hw). unfold cache_Add. cbn [lc_Add LRU_ops].
    destruct (Add k v c) as [b c']. cbn in He, Hc', Hr, Hw. rewrite <-He.
    by eexists _, _.
  - destruct (Get_law k c Hc) as (Hc' & Hr & Hw & He). unfold cache_Get. cbn [lc_Get LRU_ops].
    destruct (Get k c) as [b c']. cbn in He, Hc', Hr, Hw. rewrite <-He.
    eexists _, []. split_and!; try done. by rewrite Hw, Hnil.
  - exists c, []. split_and!; try done. f_equal. f_equal. f_equal. by apply Contains_law.
  - exists c, []. split_and!; try done. f_equal. f_equal. f_equal. by apply Peek_law.
  - unfold ContainsOrAdd. cbn [lc_Contains lc_Add LRU_ops]. rewrite Contains_law by done.
    case_bool_decide; [by exists c, []|].
    destruct (Add_law k v c Hc) as (Hc' & Hr & He & Hw).
    destruct (Add k v c) as [b c']. cbn in He, Hc', Hr, Hw. rewrite <-He.
    by eexists _, _.
  - destruct (Remove_law k c Hc) as (Hc' & Hr & _ & He & Hw).
    eexists _, _. split_and!; [done..| |exact Hw]. by destruct (rl_map (entries c) !! k).
  - destruct (RemoveOldest_law c Hc) as (Hc' & Hr & He & Hw). injection He as _ He.
    eexists _, _. split_and!; [done..| |exact Hw]. by destruct (last (entries c)).
  - exists c, []. unfold cache_Keys. cbn [lc_Keys LRU_ops]. by rewrite Keys_law.
  - exists c, []. split_and!; try done. f_equal. f_equal. f_equal. unfold cache_Len. cbn.
    unfold Len, entries. by rewrite length_fmap.
  - destruct (Purge_law c Hc) as (Hc' & Hr & He & ev & Hev & Hw). by exists (Purge c), ev.
Qed.

Lemma notified_app ev1 ev2 c c' :
  onEvict c' = onEvict c → world c' = notified ev1 c → notified ev2 c' = notified (ev1 ++ ev2) c.
Proof. intros Ho Hw. unfold notified in *. rewrite Ho, Hw. destruct (onEvict c); [|done]. by rewrite foldl_app. Qed.

Lemma cache_ops_refines ops c :
  lru_ok c →
  let '(rs, l, evs) := spec_ops (Z.to_nat (lru_size c)) ops (entries c) in
  ∃ c' evs', run_ops ops c = Some (rs, c') ∧ lru_ok c' ∧ same_rest c c' ∧ entries c' = l ∧
    Forall2 (≡ₚ) evs' evs ∧ world c' = notified (concat evs') c.
Proof.
  revert c. induction ops as [|op ops IH]; intros c Hc; cbn [spec_ops run_ops].
  { exists c, []. split_and!; [done..|by constructor|]. unfold notified. by destruct (onEvict c). }
  pose proof (cache_op_refines op c Hc) as H1.
  destruct (spec_op (Z.to_nat (lru_size c)) op (entries c)) as [[r l] ev].
  destruct H1 as (c1 & ev' & Hrun & Hc1 & [S1 S2] & He & Hev & Hw).
  pose proof (IH c1 Hc1) as H2. rewrite S1, He in H2.
  destruct (spec_ops (Z.to_nat (lru_size c)) ops l) as [[rs l2] evs].
  destruct H2 as (c2 & evs' & Hrun2 & Hc2 & [S3 S4] & He2 & Hevs & Hw2).
  exists c2, (ev' :: evs'). rewrite Hrun. cbn. rewrite Hrun2. cbn.
  split_and!; [done..|split; congruence|done|by constructor|].
  rewrite Hw2. by apply notified_app.
Qed.

(** [C23] A cache of golang-lru is a list of its entries in the order of their last use:
    every sequence of calls, whatever the order in which the map of [Purge] is ranged
    over, returns without panic exactly what the same calls on the recency list give,
    keeps at most [sz] entries with distinct keys, and hands every entry that leaves the
    list, and no other, to the eviction callback, call after call. *)
Theorem lru_refines_recency_list sz cb w c ops :
  NewWithEvict sz cb w = Ok c →
  let '(rs, l, evs) := spec_ops (Z.to_nat sz) ops [] in
  ∃ c' evs', run_ops ops c = Some (rs, c') ∧ entries c' = l ∧ NoDup l.*1 ∧ length l ≤ Z.to_nat sz ∧
    Forall2 (≡ₚ) evs' evs ∧
    world c' = match cb with
               | Some f => foldl (λ w kv, f kv.1 kv.2 w) w (concat evs')
               | None => w
               end.
Proof.
  intros (Hc & He & Hs & Hcb & Hw)%NewLRU_ok. pose proof (cache_ops_refines ops c Hc) as Hr.
  rewrite He, Hs in Hr. destruct (spec_ops _ _ _) as [[rs l] evs].
  destruct Hr as (c' & evs' & Hrun & (Hg & Hp & Hb) & [S1 S2] & <- & Hevs & Hw').
  exists c', evs'. split_and!; [done|done|apply Hg| |done|].
  - unfold entries. rewrite length_fmap. lia.
  - rewrite Hw'. unfold notified. by rewrite Hcb, Hw.
Qed.

(** All keys ever added, the latest first, each with its latest value. *)
Definition latest (kvs : list (K * V)) : list (K * V) :=
  foldl (λ l kv, kv :: rl_remove kv.1 l) [] kvs.

Lemma latest_NoDup kvs : NoDup (latest kvs).*1.
Proof.
  unfold latest. induction kvs as [|kv kvs IH] using rev_ind; [apply NoDup_nil_2|].
  rewrite foldl_app. cbn. apply NoDup_cons. split; [rewrite rl_remove_keys; naive_solver|].
  by apply rl_remove_NoDup.
Qed.

Lemma rl_add_latest n (k : K) (v : V) (l : list (K * V)) :
  0 < n → NoDup l.*1 → (rl_add n k v (take n l)).2 = take n ((k, v) :: rl_remove k l).
Proof.
  intros Hn Hl. destruct n as [|n]; [lia|]. cbn [take]. unfold rl_add.
  destruct (rl_map (take (S n) l) !! k) as [v'|] eqn:E.
  - cbn [snd]. f_equal. apply rl_remove_take; [done|]. apply rl_map_Some. by eexists.
  - apply rl_map_None in E. rewrite (rl_remove_take_absent n k l Hl E). rewrite length_take.
    case_bool_decide as Hb; cbn [snd].
    + replace (S n `min` length l) with (S n) by lia. cbn [take]. f_equal.
      rewrite take_take. f_equal. lia.
    + f_equal. rewrite !take_ge by lia. done.
Qed.

(** A cache that entries are added to keeps exactly the [sz] most recently added
    keys, each with its latest value, in the order of their additions. *)
Theorem lru_keeps_most_recent sz cb w c kvs :
  NewWithEvict sz cb w = Ok c →
  ∃ rs c', run_ops ((λ kv, OpAdd kv.1 kv.2) <$> kvs) c = Some (rs, c') ∧
    entries c' = take (Z.to_nat sz) (latest kvs).
Proof.
  intros (Hc & He & Hs & _)%NewLRU_ok.
  assert (0 < Z.to_nat sz) as Hpos by (destruct Hc as (_ & ? & _); lia).
  pose proof (cache_ops_refines ((λ kv, OpAdd kv.1 kv.2) <$> kvs) c Hc) as Hr. rewrite He, Hs in Hr.
  assert (∀ l0, NoDup l0.*1 →
    (spec_ops (Z.to_nat sz) ((λ kv, OpAdd kv.1 kv.2) <$> kvs) (take (Z.to_nat sz) l0)).1.2 =
    take (Z.to_nat sz) (foldl (λ l kv, kv :: rl_remove kv.1 l) l0 kvs)) as Hspec.
  { clear Hr. induction kvs as [|[k v] kvs IH]; intros l0 Hl0; [done|].
    rewrite fmap_cons. cbn [spec_ops spec_op fst snd]. pose proof (rl_add_latest _ k v l0 Hpos Hl0) as Ha.
    destruct (rl_add _ k v (take _ l0)) as [b l1]. cbn in Ha. subst l1.
    specialize (IH ((k, v) :: rl_remove k l0)). cbn [foldl fst]. rewrite <-IH.
    - by destruct (spec_ops _ _ _) as [[??]?].
    - cbn. apply NoDup_cons. split; [rewrite rl_remove_keys; naive_solver|by apply rl_remove_NoDup]. }
  specialize (Hspec [] (NoDup_nil_2)). rewrite take_nil in Hspec.
  destruct (spec_ops _ _ _) as [[rs l] evs]. cbn in Hspec.
  destruct Hr as (c' & evs' & Hrun & _ & _ & <- & _). exists rs, c'. by split.
Qed.
End lru.

(** ** A concrete cache, for the witnesses: two entries, evictions are logged *)
Definition lex_callback (k : string) (v : nat) (log : list (string * nat)) : list (string * nat) :=
  log ++ [(k, v)].

Definition lex_cache : LRU (K:=string) (V:=nat) (W:=list (string * nat)) :=
  {| lru_size := 2; evictList := []; items := ∅; onEvict := Some lex_callback; world := []; next := 0 |}.

Lemma lru_refines_recency_list_witness :
  NewWithEvict 2 (Some lex_callback) [] = Ok lex_cache ∧
  ∃ c', run_ops map_to_list [OpAdd "a" 1; OpAdd "b" 2; OpGet "a"; OpAdd "c" 3; OpKeys; OpPurge; OpLen] lex_cache
    = Some ([RBool false; RBool false; RValue (Some 1); RBool true; RKeys [Some "a"; Some "c"]; RNone; RLen 0], c') ∧
  ∃ evs', Forall2 (≡ₚ) evs' [[]; []; []; [("b", 2)]; []; [("c", 3); ("a", 1)]; []] ∧ world c' = concat evs'.
Proof.
  split; [reflexivity|].
  destruct (lru_refines_recency_list map_to_list 2 (Some lex_callback) [] lex_cache
    [OpAdd "a" 1; OpAdd "b" 2; OpGet "a"; OpAdd "c" 3; OpKeys; OpPurge; OpLen] eq_refl)
    as (c' & evs' & Hr & _ & _ & _ & Hevs & Hw).
  exists c'. split; [exact Hr|]. exists evs'. split; [exact Hevs|]. rewrite Hw.
  assert (∀ l w, foldl (λ (w : list (string * nat)) kv, lex_callback kv.1 kv.2 w) w l = w ++ l) as Hf.
  { induction l as [|[k v] l IH]; intros w; cbn; [by rewrite app_nil_r|].
    rewrite IH. unfold lex_callback. by rewrite <-app_assoc. }
  apply Hf.
Defined.

Lemma lru_keeps_most_recent_witness :
  ∃ rs c', run_ops map_to_list [OpAdd "a" 1; OpAdd "b" 2; OpAdd "a" 3; OpAdd "c" 4] lex_cache = Some (rs, c') ∧
    entries c' = [("c", 4); ("a", 3)].
Proof.
  exact (lru_keeps_most_recent map_to_list 2 (Some lex_callback) [] lex_cache
    [("a", 1); ("b", 2); ("a", 3); ("c", 4)] eq_refl).
Defined.
