(* ===== verification/ArcCache.v ===== *)
(** * The adaptive replacement cache (github.com/hashicorp/golang-lru/arc.go)

    Four caches behind the interface of [LruCache]: [t1] and [t2] hold the entries used
    once and those used again, [b1] and [b2] the keys evicted from them.  A value is an
    [interface{}], [None] is nil. *)

From S2P Require Import Prelude LruCache.

Section arc.
Context {L K Val : Type} `{LRUCache_new L K (option Val)}.

Abbreviation value := (option Val).
Abbreviation lc_Len := (lc_Len (K:=K) (V:=value)).
Abbreviation lc_Contains := (lc_Contains (V:=value)).
Abbreviation lc_Remove := (lc_Remove (V:=value)).

Record ARCCache := {
  arc_size : Z;   (* the total capacity *)
  p : Z;          (* the dynamic preference towards t1 or t2 *)
  t1 : L;
  b1 : L;
  t2 : L;
  b2 : L;
}.

Definition set_p (x : Z) (c : ARCCache) : ARCCache :=
  {| arc_size := arc_size c; p := x; t1 := t1 c; b1 := b1 c; t2 := t2 c; b2 := b2 c |}.
Definition set_t1 (x : L) (c : ARCCache) : ARCCache :=
  {| arc_size := arc_size c; p := p c; t1 := x; b1 := b1 c; t2 := t2 c; b2 := b2 c |}.
Definition set_b1 (x : L) (c : ARCCache) : ARCCache :=
  {| arc_size := arc_size c; p := p c; t1 := t1 c; b1 := x; t2 := t2 c; b2 := b2 c |}.
Definition set_t2 (x : L) (c : ARCCache) : ARCCache :=
  {| arc_size := arc_size c; p := p c; t1 := t1 c; b1 := b1 c; t2 := x; b2 := b2 c |}.
Definition set_b2 (x : L) (c : ARCCache) : ARCCache :=
  {| arc_size := arc_size c; p := p c; t1 := t1 c; b1 := b1 c; t2 := t2 c; b2 := x |}.

Definition NewARC (size : Z) : res string ARCCache :=
  match lc_New size with
  | Err e => Err e
  | Ok b1 =>
    match lc_New size with
    | Err e => Err e
    | Ok b2 =>
      match lc_New size with
      | Err e => Err e
      | Ok t1 =>
        match lc_New size with
        | Err e => Err e
        | Ok t2 => Ok {| arc_size := size; p := 0; t1 := t1; b1 := b1; t2 := t2; b2 := b2 |}
        end
      end
    end
  end.

Definition arc_Get (key : K) (c : ARCCache) : option value * ARCCache :=
  match lc_Peek key (t1 c) with
  | Some val =>
    let c := set_t1 (lc_Remove key (t1 c)).2 c in
    (Some val, set_t2 (lc_Add key val (t2 c)).2 c)
  | None =>
    let '(r, t2') := lc_Get key (t2 c) in
    (r, set_t2 t2' c)
  end.

Definition replace (b2ContainsKey : bool) (c : ARCCache) : ARCCache :=
  let t1Len := lc_Len (t1 c) in
  if bool_decide (0 < t1Len)%Z &&
     (bool_decide (p c < t1Len)%Z || (bool_decide (t1Len = p c) && b2ContainsKey)) then
    let '(r, t1') := lc_RemoveOldest (V:=value) (t1 c) in
    let c := set_t1 t1' c in
    match r with
    | Some (k, _) => set_b1 (lc_Add k None (b1 c)).2 c
    | None => c
    end
  else
    let '(r, t2') := lc_RemoveOldest (V:=value) (t2 c) in
    let c := set_t2 t2' c in
    match r with
    | Some (k, _) => set_b2 (lc_Add k None (b2 c)).2 c
    | None => c
    end.

(** [a / b] on int: panics for zero. *)
Definition int_div (a b : Z) : option Z := if bool_decide (b = 0)%Z then None else Some (Z.quot a b).

Definition make_room (b2ContainsKey : bool) (c : ARCCache) : ARCCache :=
  if bool_decide (arc_size c ≤ lc_Len (t1 c) + lc_Len (t2 c))%Z then replace b2ContainsKey c else c.

Definition trim_ghosts (c : ARCCache) : ARCCache :=
  let c := if bool_decide (arc_size c - p c < lc_Len (b1 c))%Z
           then set_b1 (lc_RemoveOldest (K:=K) (V:=value) (b1 c)).2 c else c in
  if bool_decide (p c < lc_Len (b2 c))%Z
  then set_b2 (lc_RemoveOldest (K:=K) (V:=value) (b2 c)).2 c else c.

Definition arc_Add (key : K) (val : value) : st ARCCache () := λ c,
  if lc_Contains key (t1 c) then
    let c := set_t1 (lc_Remove key (t1 c)).2 c in
    Ret () (set_t2 (lc_Add key val (t2 c)).2 c)
  else if lc_Contains key (t2 c) then Ret () (set_t2 (lc_Add key val (t2 c)).2 c)
  else if lc_Contains key (b1 c) then
    let b1Len := lc_Len (b1 c) in
    let b2Len := lc_Len (b2 c) in
    match (if bool_decide (b1Len < b2Len)%Z then int_div b2Len b1Len else Some 1%Z) with
    | None => Panic c
    | Some delta =>
      let c := set_p (if bool_decide (arc_size c ≤ p c + delta)%Z then arc_size c else p c + delta)%Z c in
      let c := make_room false c in
      let c := set_b1 (lc_Remove key (b1 c)).2 c in
      Ret () (set_t2 (lc_Add key val (t2 c)).2 c)
    end
  else if lc_Contains key (b2 c) then
    let b1Len := lc_Len (b1 c) in
    let b2Len := lc_Len (b2 c) in
    match (if bool_decide (b2Len < b1Len)%Z then int_div b1Len b2Len else Some 1%Z) with
    | None => Panic c
    | Some delta =>
      let c := set_p (if bool_decide (p c ≤ delta)%Z then 0 else p c - delta)%Z c in
      let c := make_room true c in
      let c := set_b2 (lc_Remove key (b2 c)).2 c in
      Ret () (set_t2 (lc_Add key val (t2 c)).2 c)
    end
  else
    let c := make_room false c in
    let c := trim_ghosts c in
    Ret () (set_t1 (lc_Add key val (t1 c)).2 c).

Definition arc_Len (c : ARCCache) : Z := lc_Len (t1 c) + lc_Len (t2 c).

Definition arc_Keys (c : ARCCache) : option (list (option K)) :=
  k1 ← lc_Keys (V:=value) (t1 c); k2 ← lc_Keys (V:=value) (t2 c); Some (k1 ++ k2).

Definition arc_Remove (key : K) (c : ARCCache) : ARCCache :=
  let '(ok, t) := lc_Remove key (t1 c) in let c := set_t1 t c in
  if ok then c else
  let '(ok, t) := lc_Remove key (t2 c) in let c := set_t2 t c in
  if ok then c else
  let '(ok, t) := lc_Remove key (b1 c) in let c := set_b1 t c in
  if ok then c else
  let '(ok, t) := lc_Remove key (b2 c) in let c := set_b2 t c in
  if ok then c else c.

Definition arc_Purge (c : ARCCache) : ARCCache :=
  let c := set_t1 (lc_Purge (K:=K) (V:=value) (t1 c)) c in
  let c := set_t2 (lc_Purge (K:=K) (V:=value) (t2 c)) c in
  let c := set_b1 (lc_Purge (K:=K) (V:=value) (b1 c)) c in
  set_b2 (lc_Purge (K:=K) (V:=value) (b2 c)) c.

Definition arc_Contains (key : K) (c : ARCCache) : bool :=
  lc_Contains key (t1 c) || lc_Contains key (t2 c).

Definition arc_Peek (key : K) (c : ARCCache) : option value :=
  match lc_Peek key (t1 c) with
  | Some val => Some val
  | None => lc_Peek key (t2 c)
  end.

(** ** The invariant *)
Definition contents (c : ARCCache) : gmap K value := lmap (t1 c) ∪ lmap (t2 c).

Definition total (c : ARCCache) : nat := size (lmap (t1 c)) + size (lmap (t2 c)).

Record lists_ok (c : ARCCache) : Prop := {
  ao_t1 : lc_ok (t1 c) ∧ lc_size (t1 c) = Z.to_nat (arc_size c);
  ao_b1 : lc_ok (b1 c) ∧ lc_size (b1 c) = Z.to_nat (arc_size c);
  ao_t2 : lc_ok (t2 c) ∧ lc_size (t2 c) = Z.to_nat (arc_size c);
  ao_b2 : lc_ok (b2 c) ∧ lc_size (b2 c) = Z.to_nat (arc_size c);
  ao_size : (0 < arc_size c)%Z;
  ao_p : (0 ≤ p c ≤ arc_size c)%Z;
  ao_t1_t2 : dom (lmap (t1 c)) ## dom (lmap (t2 c));
  ao_t1_b1 : dom (lmap (t1 c)) ## dom (lmap (b1 c));
  ao_t1_b2 : dom (lmap (t1 c)) ## dom (lmap (b2 c));
  ao_t2_b1 : dom (lmap (t2 c)) ## dom (lmap (b1 c));
  ao_t2_b2 : dom (lmap (t2 c)) ## dom (lmap (b2 c));
  ao_b1_b2 : dom (lmap (b1 c)) ## dom (lmap (b2 c));
}.

Definition arc_ok (c : ARCCache) : Prop := lists_ok c ∧ total c ≤ S (Z.to_nat (arc_size c)).

(** What [make_room] leaves. *)
Record shrinks (c c' : ARCCache) : Prop := {
  sh_ok : lists_ok c';
  sh_size : arc_size c' = arc_size c;
  sh_p : p c' = p c;
  sh_t1 : lmap (t1 c') ⊆ lmap (V:=value) (t1 c);
  sh_t2 : lmap (t2 c') ⊆ lmap (V:=value) (t2 c);
  sh_b1 : dom (lmap (b1 c')) ⊆ dom (lmap (V:=value) (b1 c)) ∪ dom (lmap (t1 c));
  sh_b2 : dom (lmap (b2 c')) ⊆ dom (lmap (V:=value) (b2 c)) ∪ dom (lmap (t2 c));
}.

Lemma shrinks_refl c : lists_ok c → shrinks c c.
Proof. intros Hc. split; [done..|set_solver|set_solver]. Qed.

Lemma replace_t1 c k v :
  lists_ok c → (lc_RemoveOldest (t1 c)).1 = Some (k, v) →
  let c1 := set_t1 (lc_RemoveOldest (K:=K) (V:=value) (t1 c)).2 c in
  let c' := set_b1 (lc_Add k None (b1 c1)).2 c1 in
  shrinks c c' ∧ S (total c') = total c.
Proof.
  intros [[A1 A2] [B1 B2] [C1 C2] [D1 D2] Hs Hp E1 E2 E3 E4 E5 E6] Hr. cbn.
  destruct (mv_RemoveOldest (t1 c) A1) as (Q1 & Q2 & Q3). rewrite Hr in Q3. destruct Q3 as [Hk Hd].
  destruct (mv_Add k None (b1 c) B1) as (G1 & G2 & _ & _ & _). pose proof (dom_Add k None (b1 c) B1) as Hb.
  assert (k ∈ dom (lmap (t1 c))) as Hin by (apply elem_of_dom; by eexists).
  split.
  - split; cbn; [split; cbn| | | | | |]; try done; try (split; congruence);
      rewrite ?Hd, ?dom_delete_L; try apply delete_subseteq; set_solver.
  - unfold total. cbn. rewrite Hd, <-(size_delete_in k (lmap (t1 c))) by done. done.
Qed.

Lemma replace_t2 c k v :
  lists_ok c → (lc_RemoveOldest (t2 c)).1 = Some (k, v) →
  let c1 := set_t2 (lc_RemoveOldest (K:=K) (V:=value) (t2 c)).2 c in
  let c' := set_b2 (lc_Add k None (b2 c1)).2 c1 in
  shrinks c c' ∧ S (total c') = total c.
Proof.
  intros [[A1 A2] [B1 B2] [C1 C2] [D1 D2] Hs Hp E1 E2 E3 E4 E5 E6] Hr. cbn.
  destruct (mv_RemoveOldest (t2 c) C1) as (Q1 & Q2 & Q3). rewrite Hr in Q3. destruct Q3 as [Hk Hd].
  destruct (mv_Add k None (b2 c) D1) as (G1 & G2 & _ & _ & _). pose proof (dom_Add k None (b2 c) D1) as Hb.
  assert (k ∈ dom (lmap (t2 c))) as Hin by (apply elem_of_dom; by eexists).
  split.
  - split; cbn; [split; cbn| | | | | |]; try done; try (split; congruence);
      rewrite ?Hd, ?dom_delete_L; try apply delete_subseteq; set_solver.
  - unfold total. cbn. rewrite Hd, <-(size_delete_in k (lmap (t2 c))) by done. lia.
Qed.

(** [replace] takes an entry out, unless [t2] is empty and [t1] is within its share. *)
Lemma replace_law b c :
  lists_ok c →
  let c' := replace b c in
  shrinks c c' ∧
  (S (total c') = total c ∨ total c' = total c ∧ total c ≤ Z.to_nat (arc_size c)).
Proof.
  intros Hc. cbn zeta. pose proof Hc as [[A1 A2] [B1 B2] [C1 C2] [D1 D2] Hs Hp _ _ _ _ _ _].
  pose proof (lmap_bound (t1 c) A1) as Hb1. unfold replace.
  destruct (bool_decide (0 < _)%Z && _) eqn:Hcond.
  - apply andb_true_iff in Hcond as [Hpos%bool_decide_eq_true _]. rewrite mv_Len in Hpos by done.
    pose proof (replace_t1 c) as Hr. destruct (mv_RemoveOldest (t1 c) A1) as (_ & _ & Q3).
    destruct (lc_RemoveOldest (t1 c)) as [[[k v]|] t]; cbn in *.
    + destruct (Hr k v Hc eq_refl) as [??]. auto.
    + destruct Q3 as [Q3 _]. rewrite Q3, map_size_empty in Hpos. lia.
  - pose proof (replace_t2 c) as Hr. destruct (mv_RemoveOldest (t2 c) C1) as (Q1 & Q2 & Q3).
    destruct (lc_RemoveOldest (t2 c)) as [[[k v]|] t]; cbn in *.
    + destruct (Hr k v Hc eq_refl) as [??]. auto.
    + destruct Q3 as [Q3 Q4]. unfold total. cbn. rewrite Q3, Q4, map_size_empty. split; [|right; lia].
      clear -Hc Q1 Q2 Q3 Q4. destruct (shrinks_refl c Hc) as [_ S1 S2 S3 S4 S5 S6].
      pose proof (ao_t2 c Hc) as [_ C2]. destruct Hc. rewrite <-Q3 in Q4. split; cbn; [split; cbn| | | | | |]; rewrite ?Q4; try done.
      split; congruence.
Qed.

Lemma make_room_law b c :
  arc_ok c →
  let c' := make_room b c in
  shrinks c c' ∧ total c' ≤ Z.to_nat (arc_size c) ∧ (total c < Z.to_nat (arc_size c) → c' = c).
Proof.
  intros [Hc Ht]. cbn zeta. unfold make_room. pose proof (ao_size c Hc).
  rewrite !mv_Len by apply Hc. fold (total c).
  case_bool_decide as Hd.
  - destruct (replace_law b c Hc) as [Hsh Htot]. split_and!; [done| |].
    + lia.
    + unfold total in *. lia.
  - split_and!; [by apply shrinks_refl| |done]. unfold total. lia.
Qed.

Lemma trim_ghosts_law c :
  lists_ok c →
  let c' := trim_ghosts c in
  lists_ok c' ∧ arc_size c' = arc_size c ∧ p c' = p c ∧ t1 c' = t1 c ∧ t2 c' = t2 c ∧
  dom (lmap (b1 c')) ⊆ dom (lmap (V:=value) (b1 c)) ∧ dom (lmap (b2 c')) ⊆ dom (lmap (V:=value) (b2 c)).
Proof.
  intros [[A1 A2] [B1 B2] [C1 C2] [D1 D2] Hs Hp E1 E2 E3 E4 E5 E6].
  destruct (mv_RemoveOldest (b1 c) B1) as (Q1 & Q2 & _). pose proof (dom_RemoveOldest (b1 c) B1) as Q3.
  destruct (mv_RemoveOldest (b2 c) D1) as (G1 & G2 & _). pose proof (dom_RemoveOldest (b2 c) D1) as G3.
  unfold trim_ghosts. case_bool_decide; cbn; case_bool_decide; cbn; (split; [split; cbn|]);
    try done; try (split; congruence); set_solver.
Qed.

(** ** Taking a key out of a list, and putting it into another *)
Definition cap (c : ARCCache) : nat := Z.to_nat (arc_size c).

Lemma take_t1_law c k :
  lists_ok c → k ∈ dom (lmap (t1 c)) →
  let c' := set_t1 (lc_Remove k (t1 c)).2 c in
  lists_ok c' ∧ S (total c') = total c ∧ contents c' = delete k (contents c) ∧
  k ∉ dom (lmap (t1 c')).
Proof.
  intros [[A1 A2] B [C1 C2] D Hs Hp E1 E2 E3 E4 E5 E6] Hk. cbn.
  destruct (mv_Remove k (t1 c) A1) as (F1 & F2 & _ & F4).
  split_and!.
  - split; cbn; rewrite ?F4, ?dom_delete_L; try done; [split; congruence|set_solver..].
  - unfold total. cbn. rewrite F4, <-(size_delete_in k (lmap (t1 c))) by done. done.
  - unfold contents. cbn. rewrite F4, delete_union. f_equal. symmetry. apply delete_id, not_elem_of_dom.
    set_solver.
  - rewrite F4, dom_delete_L. set_solver.
Qed.

Lemma take_b1_law c k :
  lists_ok c →
  let c' := set_b1 (lc_Remove k (b1 c)).2 c in lists_ok c' ∧ k ∉ dom (lmap (b1 c')).
Proof.
  intros [A [B1 B2] C D Hs Hp E1 E2 E3 E4 E5 E6]. cbn.
  destruct (mv_Remove k (b1 c) B1) as (F1 & F2 & _ & F4). rewrite F4.
  split; [|rewrite dom_delete_L; set_solver].
  split; cbn; rewrite ?F4, ?dom_delete_L; try done; [split; congruence|set_solver..].
Qed.

Lemma take_b2_law c k :
  lists_ok c →
  let c' := set_b2 (lc_Remove k (b2 c)).2 c in lists_ok c' ∧ k ∉ dom (lmap (b2 c')).
Proof.
  intros [A B C [D1 D2] Hs Hp E1 E2 E3 E4 E5 E6]. cbn.
  destruct (mv_Remove k (b2 c) D1) as (F1 & F2 & _ & F4). rewrite F4.
  split; [|rewrite dom_delete_L; set_solver].
  split; cbn; rewrite ?F4, ?dom_delete_L; try done; [split; congruence|set_solver..].
Qed.

(** The entries after a key was written, where one may have been evicted. *)
Record added (k : K) (v : value) (c c' : ARCCache) : Prop := {
  ad_ok : lists_ok c';
  ad_size : arc_size c' = arc_size c;
  ad_key : contents c' !! k = Some v;
  ad_sub : contents c' ⊆ <[k := v]> (contents c);
  ad_total : total c' ≤ S (total c);
}.

Lemma put_t2_law c k v :
  lists_ok c → k ∉ dom (lmap (t1 c)) → k ∉ dom (lmap (b1 c)) → k ∉ dom (lmap (b2 c)) →
  let c' := set_t2 (lc_Add k v (t2 c)).2 c in
  added k v c c' ∧ (k ∈ dom (lmap (t2 c)) → total c' ≤ total c) ∧
  (k ∈ dom (lmap (t2 c)) ∨ size (lmap (t2 c)) < cap c → contents c' = <[k := v]> (contents c)).
Proof.
  intros [A B [C1 C2] D Hs Hp E1 E2 E3 E4 E5 E6] K1 K2 K3. cbn.
  destruct (mv_Add k v (t2 c) C1) as (F1 & F2 & F3 & F4 & F5).
  pose proof (dom_Add k v (t2 c) C1) as Hd. pose proof (mv_Add_exact k v (t2 c) C1) as Hex.
  pose proof (map_size_insert k v (lmap (t2 c))) as Hsz. rewrite C2 in Hex. pose proof (lmap_bound _ C1) as Hb.
  assert (lmap (t1 c) ∪ <[k := v]> (lmap (t2 c)) = <[k := v]> (contents c)) as Hu
    by (symmetry; apply insert_union_r; by apply not_elem_of_dom).
  split; [split|split].
  - split; cbn; try done; [split; congruence|set_solver..].
  - done.
  - unfold contents. cbn. rewrite lookup_union_r; [done|]. by apply not_elem_of_dom.
  - unfold contents at 1. cbn. rewrite <-Hu. by apply map_union_mono_l.
  - unfold total. cbn. destruct (lmap (t2 c) !! k); cbn in Hsz; lia.
  - intros [x Hx]%elem_of_dom. unfold total. cbn. rewrite Hx in Hsz. cbn in Hsz. lia.
  - intros Hroom. unfold contents at 1. cbn. rewrite Hex; [done|]. unfold cap in Hroom.
    destruct Hroom as [[x Hx]%elem_of_dom|Hroom]; [rewrite Hx in Hsz; cbn in Hsz; lia|].
    destruct (lmap (t2 c) !! k); cbn in Hsz; lia.
Qed.

Lemma put_t1_law c k v :
  lists_ok c → k ∉ dom (lmap (t2 c)) → k ∉ dom (lmap (b1 c)) → k ∉ dom (lmap (b2 c)) →
  let c' := set_t1 (lc_Add k v (t1 c)).2 c in
  added k v c c' ∧ (size (lmap (t1 c)) < cap c → contents c' = <[k := v]> (contents c)).
Proof.
  intros [[A1 A2] B C D Hs Hp E1 E2 E3 E4 E5 E6] K1 K2 K3. cbn.
  destruct (mv_Add k v (t1 c) A1) as (F1 & F2 & F3 & F4 & F5).
  pose proof (dom_Add k v (t1 c) A1) as Hd. pose proof (mv_Add_exact k v (t1 c) A1) as Hex.
  pose proof (map_size_insert k v (lmap (t1 c))) as Hsz. rewrite A2 in Hex.
  assert (<[k := v]> (lmap (t1 c)) ∪ lmap (t2 c) = <[k := v]> (contents c)) as Hu
    by (symmetry; apply insert_union_l).
  split; [split|].
  - split; cbn; try done; [split; congruence|set_solver..].
  - done.
  - unfold contents. cbn. by apply lookup_union_Some_l.
  - unfold contents at 1. cbn. rewrite <-Hu. apply map_union_mono_r; [|done].
    apply map_disjoint_dom. rewrite dom_insert_L. set_solver.
  - unfold total. cbn. destruct (lmap (t1 c) !! k); cbn in Hsz; lia.
  - intros Hroom. unfold contents at 1. cbn. rewrite Hex; [done|]. unfold cap in Hroom.
    destruct (lmap (t1 c) !! k); cbn in Hsz; lia.
Qed.

(** ** The calls *)
Lemma contents_dom c k : k ∈ dom (contents c) ↔ k ∈ dom (lmap (V:=value) (t1 c)) ∨ k ∈ dom (lmap (V:=value) (t2 c)).
Proof. unfold contents. rewrite dom_union_L. set_solver. Qed.

Lemma arc_Get_law k c :
  arc_ok c →
  let r := arc_Get k c in
  arc_ok r.2 ∧ arc_size r.2 = arc_size c ∧ r.1 = contents c !! k ∧ contents r.2 ⊆ contents c ∧
  (total c ≤ cap c → contents r.2 = contents c).
Proof.
  intros [Hc Ht]. cbn zeta. unfold arc_Get. rewrite mv_Peek by apply Hc.
  destruct (lmap (t1 c) !! k) as [val|] eqn:Hk.
  - assert (k ∈ dom (lmap (t1 c))) as Hin by (apply elem_of_dom; by eexists).
    destruct (take_t1_law c k Hc Hin) as (Hc1 & Ht1 & He1 & Hn1).
    set (c1 := set_t1 _ c) in *.
    assert (contents c !! k = Some val) as Hkc by (unfold contents; by apply lookup_union_Some_l).
    destruct (put_t2_law c1 k val Hc1 Hn1) as ([D1 D2 D3 D4 D5] & _ & D6);
      [pose proof (ao_t1_b1 c Hc); cbn; set_solver|pose proof (ao_t1_b2 c Hc); cbn; set_solver|].
    rewrite He1, insert_delete_id in D4, D6 by done. cbn [fst snd].
    split_and!; [split; [done|cbn in *; lia]|done|done|done|].
    intros Hcap. apply D6. right. unfold total, cap in *. cbn in *. lia.
  - destruct (mv_Get k (t2 c) (proj1 (ao_t2 c Hc))) as (F1 & F2 & F3 & F4).
    destruct (lc_Get k (t2 c)) as [r t]. cbn in *. unfold contents, total in *. cbn.
    rewrite F4, lookup_union_r by done. split_and!; try done.
    destruct Hc as [A B [C1 C2] D Hs Hp E1 E2 E3 E4 E5 E6].
    split; [|unfold total; cbn; by rewrite F4]. split; cbn; rewrite ?F4; try done. split; congruence.
Qed.

Lemma set_p_ok x c : lists_ok c → (0 ≤ x ≤ arc_size c)%Z → lists_ok (set_p x c).
Proof. intros [] Hx. by split. Qed.

(** Writing a key that was made room for. *)
Lemma added_shrinks k v c c1 c' :
  arc_ok c → shrinks c c1 → total c1 ≤ cap c → added k v c1 c' →
  arc_ok c' ∧ arc_size c' = arc_size c ∧ contents c' !! k = Some v ∧ contents c' ⊆ <[k := v]> (contents c).
Proof.
  intros [Hc Ht] [S1 S2 S3 S4 S5 _ _] Hcap [D1 D2 D3 D4 D5]. split_and!; [|congruence|done|].
  - split; [done|]. rewrite D2, S2. unfold cap in Hcap. lia.
  - etransitivity; [done|]. apply insert_mono. unfold contents.
    etransitivity; [by apply map_union_mono_l|]. apply map_union_mono_r; [|done].
    apply map_disjoint_dom, Hc.
Qed.

(** A key found among the evicted ones. *)
Lemma ghost_hit k v c x b (fromB1 : bool) :
  arc_ok c → (0 ≤ x ≤ arc_size c)%Z → k ∉ dom (contents c) →
  k ∈ dom (lmap (if fromB1 then b1 c else b2 c)) →
  let c1 := make_room b (set_p x c) in
  let c2 := if fromB1 then set_b1 (lc_Remove k (b1 c1)).2 c1 else set_b2 (lc_Remove k (b2 c1)).2 c1 in
  let c' := set_t2 (lc_Add k v (t2 c2)).2 c2 in
  arc_ok c' ∧ arc_size c' = arc_size c ∧ contents c' !! k = Some v ∧ contents c' ⊆ <[k := v]> (contents c) ∧
  (total c < cap c → contents c' = <[k := v]> (contents c)).
Proof.
  intros Hc Hx Hk Hb c1 c2 c'. rewrite contents_dom in Hk.
  assert (arc_ok (set_p x c)) as Hc0 by (destruct Hc; split; [by apply set_p_ok|done]).
  destruct (make_room_law b _ Hc0) as (Hsh & Hcap & Hid). fold c1 in Hsh, Hcap, Hid.
  pose proof Hsh as [S1 S2 S3 S4 S5 S6 S7]. apply subseteq_dom in S4, S5. cbn in S4, S5, S6, S7.
  assert (lists_ok c2 ∧ t1 c2 = t1 c1 ∧ t2 c2 = t2 c1 ∧ arc_size c2 = arc_size c1 ∧
    k ∉ dom (lmap (b1 c2)) ∧ k ∉ dom (lmap (b2 c2))) as (Hl2 & T1 & T2 & Ts & K1 & K2).
  { pose proof (ao_b1_b2 c (proj1 Hc)) as Hbb. unfold c2. destruct fromB1.
    - destruct (take_b1_law c1 k S1) as [? ?]. split_and!; try done. cbn. set_solver.
    - destruct (take_b2_law c1 k S1) as [? ?]. split_and!; try done. cbn. set_solver. }
  destruct (put_t2_law c2 k v Hl2) as (Had & _ & Hex); [rewrite T1; set_solver|done..|].
  assert (contents c2 = contents c1 ∧ total c2 = total c1) as [Q1 Q2]
    by (unfold contents, total; by rewrite T1, T2).
  destruct Had as [D1 D2 D3 D4 D5]. rewrite Q1 in D4, Hex. rewrite Q2 in D5.
  destruct (added_shrinks k v (set_p x c) c1 c' Hc0 Hsh Hcap) as (R1 & R2 & R3 & R4).
  { split; [done|exact (eq_trans D2 Ts)|done..]. }
  split_and!; [done..|]. intros Hlt. specialize (Hid Hlt). rewrite Hid in *. apply Hex. right.
  unfold cap, total in *. rewrite T2, Ts. cbn. lia.
Qed.

Lemma delta_exists k (m1 m2 : gmap K value) :
  k ∈ dom m1 →
  ∃ delta, (0 ≤ delta)%Z ∧
    (if bool_decide (Z.of_nat (size m1) < Z.of_nat (size m2))%Z
     then int_div (Z.of_nat (size m2)) (Z.of_nat (size m1)) else Some 1%Z) = Some delta.
Proof.
  intros Hk. case_bool_decide; [|by exists 1%Z]. unfold int_div.
  pose proof (size_delete_in k m1 Hk).
  rewrite bool_decide_eq_false_2 by lia. eexists. split; [|done]. apply Z.quot_pos; lia.
Qed.

Lemma arc_Add_law k v c :
  arc_ok c →
  ∃ c', arc_Add k v c = Ret () c' ∧ arc_ok c' ∧ arc_size c' = arc_size c ∧ contents c' !! k = Some v ∧
    contents c' ⊆ <[k := v]> (contents c) ∧
    (total c < cap c ∨ total c ≤ cap c ∧ k ∈ dom (contents c) → contents c' = <[k := v]> (contents c)).
Proof.
  intros Hok. pose proof Hok as [Hc Ht].
  pose proof Hc as [[A1 A2] [B1 B2] [C1 C2] [D1 D2] Hs Hp E1 E2 E3 E4 E5 E6].
  unfold arc_Add. rewrite !mv_Contains, !(mv_Len (b1 c)), !(mv_Len (b2 c)) by done.
  case_bool_decide as K1.
  { destruct (take_t1_law c k Hc K1) as (Hc1 & Ht1 & He1 & Hn1). set (c1 := set_t1 _ c) in *.
    destruct (put_t2_law c1 k v Hc1 Hn1) as ([F1 F2 F3 F4 F5] & _ & F6); [cbn; set_solver..|].
    rewrite He1, insert_delete_eq in F4, F6.
    eexists. split; [reflexivity|]. split_and!; [split; [done|cbn in *; lia]|done..|].
    intros Hroom. apply F6. right. unfold total, cap in *. cbn in *. lia. }
  case_bool_decide as K2.
  { destruct (put_t2_law c k v Hc) as ([F1 F2 F3 F4 F5] & F6 & F7); [set_solver..|].
    eexists. split; [reflexivity|]. split_and!; [split; [done|]|done..|auto].
    specialize (F6 K2). cbn in *. lia. }
  assert (k ∉ dom (contents c)) as Kc by (rewrite contents_dom; tauto).
  case_bool_decide as K3.
  { assert (∃ delta, (0 ≤ delta)%Z ∧
      (if bool_decide (Z.of_nat (size (lmap (b1 c))) < Z.of_nat (size (lmap (b2 c))))%Z
       then int_div (Z.of_nat (size (lmap (b2 c)))) (Z.of_nat (size (lmap (b1 c)))) else Some 1%Z)
        = Some delta) as (delta & Hd & ->) by by apply (delta_exists k).
    eexists. split; [reflexivity|].
    destruct (ghost_hit k v c (if bool_decide (arc_size c ≤ p c + delta)%Z then arc_size c else p c + delta)%Z
      false true Hok) as (R1 & R2 & R3 & R4 & R5); [case_bool_decide; lia|done..|].
    split_and!; [done..|]. naive_solver. }
  case_bool_decide as K4.
  { assert (∃ delta, (0 ≤ delta)%Z ∧
      (if bool_decide (Z.of_nat (size (lmap (b2 c))) < Z.of_nat (size (lmap (b1 c))))%Z
       then int_div (Z.of_nat (size (lmap (b1 c)))) (Z.of_nat (size (lmap (b2 c)))) else Some 1%Z)
        = Some delta) as (delta & Hd & ->) by by apply (delta_exists k).
    eexists. split; [reflexivity|].
    destruct (ghost_hit k v c (if bool_decide (p c ≤ delta)%Z then 0 else p c - delta)%Z
      true false Hok) as (R1 & R2 & R3 & R4 & R5); [case_bool_decide; lia|done..|].
    split_and!; [done..|]. naive_solver. }
  destruct (make_room_law false c Hok) as (Hsh & Hcap & Hid). set (c1 := make_room false c) in *.
  pose proof Hsh as [S1 S2 S3 S4 S5 S6 S7]. apply subseteq_dom in S4, S5.
  destruct (trim_ghosts_law c1 S1) as (L1 & L2 & L3 & L4 & L5 & L6 & L7). set (c2 := trim_ghosts c1) in *.
  destruct (put_t1_law c2 k v L1) as ([F1 F2 F3 F4 F5] & F6); [rewrite L5; set_solver|set_solver..|].
  eexists. split; [reflexivity|].
  assert (contents c2 = contents c1 ∧ total c2 = total c1) as [Q1 Q2]
    by (unfold contents, total; by rewrite L4, L5).
  rewrite Q1 in F4, F6. rewrite Q2 in F5.
  destruct (added_shrinks k v c c1 (set_t1 (lc_Add k v (t1 c2)).2 c2) Hok Hsh Hcap) as (R1 & R2 & R3 & R4).
  { split; [done|exact (eq_trans F2 L2)|done..]. }
  split_and!; [done..|]. intros [Hlt|[_ Hin]]; [|done]. specialize (Hid Hlt). rewrite Hid in *. apply F6.
  unfold cap, total in *. rewrite L4, L2. lia.
Qed.

(** Caches that hold parts of what they held. *)
Lemma lists_ok_sub c x1 y1 x2 y2 :
  lists_ok c →
  (∀ l l', (l, l') ∈ [(t1 c, x1); (b1 c, y1); (t2 c, x2); (b2 c, y2)] →
     lc_ok l' ∧ lc_size l' = lc_size l ∧ dom (lmap (V:=value) l') ⊆ dom (lmap l)) →
  lists_ok {| arc_size := arc_size c; p := p c; t1 := x1; b1 := y1; t2 := x2; b2 := y2 |}.
Proof.
  intros [[A1 A2] [B1 B2] [C1 C2] [D1 D2] Hs Hp E1 E2 E3 E4 E5 E6] Hl.
  destruct (Hl (t1 c) x1) as (F1 & F2 & F3); [by repeat constructor|].
  destruct (Hl (b1 c) y1) as (F4 & F5 & F6); [by repeat constructor|].
  destruct (Hl (t2 c) x2) as (F7 & F8 & F9); [by repeat constructor|].
  destruct (Hl (b2 c) y2) as (G1 & G2 & G3); [by repeat constructor|]. clear Hl.
  split; cbn; try done; try (split; congruence); set_solver.
Qed.

Lemma arc_Remove_law k c :
  arc_ok c →
  let c' := arc_Remove k c in
  arc_ok c' ∧ arc_size c' = arc_size c ∧ contents c' = delete k (contents c).
Proof.
  intros [Hc Ht]. cbn zeta.
  assert (∃ x1 y1 x2 y2,
    arc_Remove k c = {| arc_size := arc_size c; p := p c; t1 := x1; b1 := y1; t2 := x2; b2 := y2 |} ∧
    (∀ l l', (l, l') ∈ [(t1 c, x1); (b1 c, y1); (t2 c, x2); (b2 c, y2)] →
       lc_ok l' ∧ lc_size l' = lc_size l ∧ lmap (V:=value) l' ⊆ lmap l) ∧
    lmap x1 = delete k (lmap (t1 c)) ∧ lmap x2 = delete k (lmap (t2 c)))
    as (x1 & y1 & x2 & y2 & -> & Hl & R1 & R2).
  { pose proof Hc as [[A1 _] [B1 _] [C1 _] [D1 _] _ _ E1 _ _ _ _ _]. unfold arc_Remove.
    destruct (mv_Remove k (t1 c) A1) as (F1 & F2 & F3 & F4). destruct (lc_Remove k (t1 c)) as [o1 z1].
    destruct (mv_Remove k (t2 c) C1) as (G1 & G2 & G3 & G4). cbn. destruct (lc_Remove k (t2 c)) as [o2 z2].
    destruct (mv_Remove k (b1 c) B1) as (I1 & I2 & I3 & I4). cbn. destruct (lc_Remove k (b1 c)) as [o3 z3].
    destruct (mv_Remove k (b2 c) D1) as (J1 & J2 & J3 & J4). cbn. destruct (lc_Remove k (b2 c)) as [o4 z4].
    cbn in *. subst o1 o2 o3 o4.
    assert (∀ l : L, lc_ok l → lc_ok l ∧ lc_size l = lc_size l ∧ lmap (V:=value) l ⊆ lmap l) as Hsame by done.
    assert (∀ m : gmap K value, delete k m ⊆ m) as Hdel by (intros; apply delete_subseteq).
    case_bool_decide as K1; [|case_bool_decide as K2; [|case_bool_decide as K3; [|case_bool_decide as K4]]];
      eexists _, _, _, _; (split; [reflexivity|]);
      (split; [intros l l'; rewrite !elem_of_cons, elem_of_nil;
               intros [[= -> ->]|[[= -> ->]|[[= -> ->]|[[= -> ->]|[]]]]]; rewrite ?F4, ?G4, ?I4, ?J4; by auto|]);
      rewrite ?F4, ?G4; try done.
    split; [done|]. symmetry. apply delete_id, not_elem_of_dom. set_solver. }
  unfold arc_ok, total, contents in *. cbn. rewrite R1, R2.
  split; [|split; [done|symmetry; apply delete_union]]. split; [|rewrite !map_size_delete; destruct (_ !! k), (_ !! k); cbn; lia].
  apply lists_ok_sub; [done|]. intros l l' Hin. destruct (Hl l l' Hin) as (? & ? & Hsub).
  split_and!; [done..|by apply subseteq_dom].
Qed.

Lemma arc_Purge_law c :
  arc_ok c → let c' := arc_Purge c in arc_ok c' ∧ arc_size c' = arc_size c ∧ contents c' = ∅.
Proof.
  intros [Hc Ht]. cbn zeta. unfold arc_Purge. cbn.
  assert (∀ l : L, lc_ok l → lc_ok (lc_Purge (K:=K) (V:=value) l) ∧
    lc_size (lc_Purge (K:=K) (V:=value) l) = lc_size l ∧ lmap (V:=value) (lc_Purge (K:=K) (V:=value) l) = ∅) as Hp.
  { intros l Hl. destruct (lc_Purge_law l Hl) as (F1 & F2 & F3). split_and!; try done.
    unfold lmap. by rewrite F3. }
  destruct (Hp _ (proj1 (ao_t1 c Hc))) as (_ & _ & P1). destruct (Hp _ (proj1 (ao_t2 c Hc))) as (_ & _ & P2).
  unfold arc_ok, total, contents. cbn. rewrite P1, P2. split; [|split; [done|apply (left_id_L ∅ (∪))]].
  split; [|rewrite map_size_empty; lia]. apply (lists_ok_sub c); [done|].
  intros l l' Hin. assert (lc_ok l ∧ l' = lc_Purge (K:=K) (V:=value) l) as [Hl ->].
  { clear -Hc Hin. destruct Hc as [[? _] [? _] [? _] [? _] _ _ _ _ _ _ _ _].
    rewrite !elem_of_cons, elem_of_nil in Hin. naive_solver. }
  destruct (Hp l Hl) as (? & ? & ->). split_and!; [done..|]. rewrite dom_empty_L. apply empty_subseteq.
Qed.

Lemma NewARC_ok sz c :
  NewARC sz = Ok c → arc_ok c ∧ arc_size c = sz ∧ contents c = ∅ ∧ total c = 0.
Proof.
  unfold NewARC. destruct (decide (0 < sz)%Z) as [Hsz|Hsz].
  - destruct (lc_New_ok sz Hsz) as (l & -> & Hl & Hs & He). intros [= <-].
    assert (lmap l = ∅) as Hm by (unfold lmap; by rewrite He).
    unfold arc_ok, total, contents. cbn. rewrite Hm, map_size_empty.
    split; [|split_and!; [done|apply (left_id_L ∅ (∪))|done]]. split; [|lia].
    split; cbn; rewrite ?Hm; try done; try lia; set_solver.
  - by destruct (lc_New_err sz) as [e ->]; [lia|].
Qed.

(** ** Runs *)
Inductive arc_op : Type :=
| AAdd (k : K) (v : value) | AGet (k : K) | ARemove (k : K) | APurge.

Definition arc_do (op : arc_op) : st ARCCache () := λ c,
  match op with
  | AAdd k v => arc_Add k v c
  | AGet k => Ret () (arc_Get k c).2
  | ARemove k => Ret () (arc_Remove k c)
  | APurge => Ret () (arc_Purge c)
  end.

(** The value last written to each key and not removed since. *)
Definition written (m : gmap K value) (op : arc_op) : gmap K value :=
  match op with
  | AAdd k v => <[k := v]> m
  | AGet _ => m
  | ARemove k => delete k m
  | APurge => ∅
  end.

Lemma arc_do_law op c m :
  arc_ok c → contents c ⊆ m →
  ∃ c', arc_do op c = Ret () c' ∧ arc_ok c' ∧ arc_size c' = arc_size c ∧ contents c' ⊆ written m op.
Proof.
  intros Hc Hm. destruct op as [k v|k|k|]; cbn.
  - destruct (arc_Add_law k v c Hc) as (c' & -> & F1 & F2 & _ & F4 & _). eexists. split_and!; try done.
    etransitivity; [done|]. by apply insert_mono.
  - destruct (arc_Get_law k c Hc) as (F1 & F2 & _ & F4 & _). eexists. split_and!; try done. by etransitivity.
  - destruct (arc_Remove_law k c Hc) as (F1 & F2 & F3). eexists. split_and!; try done.
    rewrite F3. by apply delete_mono.
  - destruct (arc_Purge_law c Hc) as (F1 & F2 & F3). eexists. split_and!; try done. by rewrite F3.
Qed.

Lemma arc_run_law ops c m :
  arc_ok c → contents c ⊆ m →
  ∃ c', st_for ops arc_do c = Ret () c' ∧ arc_ok c' ∧ arc_size c' = arc_size c ∧
    contents c' ⊆ foldl written m ops.
Proof.
  revert c m. induction ops as [|op ops IH]; intros c m Hc Hm; cbn [st_for foldl]; [by exists c|].
  destruct (arc_do_law op c m Hc Hm) as (c1 & E1 & F1 & F2 & F3).
  rewrite (st_bind_ret _ _ _ _ _ E1). destruct (IH c1 _ F1 F3) as (c' & E2 & G1 & G2 & G3).
  exists c'. by rewrite G2.
Qed.

Lemma arc_Peek_law k c : arc_ok c → arc_Peek k c = contents c !! k.
Proof.
  intros [Hc _]. unfold arc_Peek, contents. rewrite !mv_Peek by apply Hc.
  destruct (lmap (t1 c) !! k) eqn:E; [symmetry; by apply lookup_union_Some_l|by rewrite lookup_union_r].
Qed.

Lemma arc_Contains_law k c : arc_ok c → arc_Contains k c = bool_decide (is_Some (contents c !! k)).
Proof.
  intros [Hc _]. unfold arc_Contains. rewrite !mv_Contains by apply Hc. apply eq_true_iff_eq.
  rewrite orb_true_iff, !bool_decide_eq_true, <-elem_of_dom, contents_dom. done.
Qed.

Lemma arc_Len_law c : arc_ok c → arc_Len c = Z.of_nat (total c).
Proof. intros [Hc _]. unfold arc_Len, total. rewrite !mv_Len by apply Hc. lia. Qed.

(** The adaptive replacement cache is a cache: any sequence of calls returns without
    panic, in particular without division by zero; after it [Get] and [Peek] agree and
    give, for a key, nothing or the value last written to it and not removed since;
    [Contains] says which; a value just added is found, and a cache below its capacity
    forgets nothing when a value is added. *)
Theorem arc_serves_last_write sz ops c0 :
  NewARC sz = Ok c0 →
  ∃ c, st_for ops arc_do c0 = Ret () c ∧
    (∀ k, arc_Peek k c = (arc_Get k c).1 ∧ arc_Contains k c = bool_decide (is_Some (arc_Peek k c)) ∧
       ∀ v, arc_Peek k c = Some v → foldl written ∅ ops !! k = Some v) ∧
    (∀ k v, ∃ c', arc_Add k v c = Ret () c' ∧ arc_Peek k c' = Some v ∧
       ((arc_Len c < sz)%Z → ∀ k', k' ≠ k → arc_Peek k' c' = arc_Peek k' c)).
Proof.
  intros (Hc0 & Hs0 & He0 & _)%NewARC_ok.
  destruct (arc_run_law ops c0 ∅ Hc0) as (c & Hrun & Hc & Hs & Hsub); [by rewrite He0|].
  exists c. split_and!; [done| |].
  - intros k. rewrite arc_Peek_law, arc_Contains_law by done.
    destruct (arc_Get_law k c Hc) as (_ & _ & -> & _). split_and!; [done..|]. intros v.
    intros Hv. by eapply lookup_weaken.
  - intros k v. destruct (arc_Add_law k v c Hc) as (c' & Ha & Hc' & _ & Hk & _ & Hex). exists c'.
    rewrite arc_Peek_law, arc_Len_law by done. split_and!; [done..|]. intros Hlt k' Hne.
    rewrite !arc_Peek_law by done. rewrite Hex; [by apply lookup_insert_ne|]. left. unfold cap. lia.
Qed.

(** [C24] The lists of the adaptive replacement cache stay within bounds: after any
    sequence of calls it holds at most one entry more than its size, the preference [p]
    is between zero and the size, neither list of evicted keys is longer than the size,
    and no key is in two of the four lists. *)
Theorem arc_bounded sz ops c0 c :
  NewARC sz = Ok c0 → st_for ops arc_do c0 = Ret () c →
  (arc_Len c ≤ sz + 1)%Z ∧ (0 ≤ p c ≤ sz)%Z ∧ (lc_Len (b1 c) ≤ sz)%Z ∧ (lc_Len (b2 c) ≤ sz)%Z ∧
  ∀ k, length (filter (λ l, lc_Contains k l = true) [t1 c; b1 c; t2 c; b2 c]) ≤ 1.
Proof.
  intros (Hc0 & Hs0 & He0 & _)%NewARC_ok Hr.
  destruct (arc_run_law ops c0 ∅ Hc0) as (c' & Hrun & Hc & Hs & _); [by rewrite He0|].
  rewrite Hr in Hrun. injection Hrun as <-. rewrite arc_Len_law by done. destruct Hc as [Hc Ht].
  pose proof Hc as [[A1 A2] [B1 B2] [C1 C2] [D1 D2] Hpos Hp E1 E2 E3 E4 E5 E6].
  pose proof (lmap_bound _ B1). pose proof (lmap_bound _ D1). rewrite !mv_Len by done.
  split_and!; [lia..|]. intros k. rewrite !filter_cons, filter_nil, !mv_Contains by done.
  assert (∀ X Y : gset K, X ## Y → bool_decide (k ∈ X) && bool_decide (k ∈ Y) = false) as Hdisj.
  { intros X Y HXY. apply not_true_iff_false. rewrite andb_true_iff, !bool_decide_eq_true.
    intros [HX HY]. by apply (HXY k). }
  apply Hdisj in E1, E2, E3, E4, E5, E6. revert E1 E2 E3 E4 E5 E6. clear.
  do 4 case_bool_decide; try done; intros _ _ _ _ _ _; repeat case_decide; cbn; (done || lia).
Qed.
End arc.

(** ** Concrete caches *)
#[local] Instance aex_ops : LRUCache_ops (LRU (K:=string) (V:=option nat) (W:=())) string (option nat) :=
  LRU_ops map_to_list.
#[local] Instance aex_laws : LRUCache_laws (LRU (K:=string) (V:=option nat) (W:=())) string (option nat) :=
  LRU_laws map_to_list.
#[local] Instance aex_new : LRUCache_new (LRU (K:=string) (V:=option nat) (W:=())) string (option nat) :=
  LRU_new map_to_list ().

Definition aex_run (sz : Z) (ops : list (arc_op (K:=string) (Val:=nat))) :
    option (ARCCache (L:=LRU (K:=string) (V:=option nat) (W:=()))) :=
  match NewARC sz with
  | Ok c => match st_for ops arc_do c with Ret _ c => Some c | Panic _ => None end
  | Err _ => None
  end.

(** The adaptive replacement cache can exceed its size: when [t1] fills the cache, [t2]
    is empty and [p] has grown to the size, a key found among the evicted ones makes
    [replace] take the oldest entry of the empty [t2], so nothing leaves and the key is
    added on top.  Six additions do it for a cache of size two. *)
Theorem arc_exceeds_size :
  arc_Len <$> aex_run 1 ((λ k, AAdd k (Some 0)) <$> ["a"; "b"; "a"]) = Some 2%Z ∧
  arc_Len <$> aex_run 2 ((λ k, AAdd k (Some 0)) <$> ["a"; "b"; "c"; "a"; "d"; "b"]) = Some 3%Z.
Proof. split; vm_compute; reflexivity. Qed.

Definition aex_empty : ARCCache (L:=LRU (K:=string) (V:=option nat) (W:=())) :=
  let l := {| lru_size := 2; evictList := []; items := ∅; onEvict := None; world := (); next := 0 |} in
  {| arc_size := 2; p := 0; t1 := l; b1 := l; t2 := l; b2 := l |}.

Lemma aex_empty_new : NewARC 2 = Ok aex_empty.
Proof. reflexivity. Qed.

Lemma arc_serves_last_write_witness : ∃ c,
  NewARC 2 = Ok aex_empty ∧
  st_for [AAdd "a" (Some 1); AGet "a"; AAdd "b" (Some 2); AAdd "a" (Some 3)] arc_do aex_empty = Ret () c ∧
  arc_Peek "a" c = Some (Some 3) ∧ ∃ c', arc_Add "c" None c = Ret () c' ∧ arc_Peek "c" c' = Some None.
Proof.
  destruct (arc_serves_last_write 2 [AAdd "a" (Some 1); AGet "a"; AAdd "b" (Some 2); AAdd "a" (Some 3)]
    aex_empty aex_empty_new) as (c & Hr & _ & Ha).
  exists c. split; [reflexivity|]. split; [exact Hr|]. split.
  - assert (arc_Peek "a" (final (st_for [AAdd "a" (Some 1); AGet "a"; AAdd "b" (Some 2); AAdd "a" (Some 3)]
      arc_do aex_empty)) = Some (Some 3)) as Hp by (vm_compute; reflexivity).
    rewrite Hr in Hp. exact Hp.
  - destruct (Ha "c" None) as (c' & H1 & H2 & _). exists c'. split; [exact H1|exact H2].
Defined.

Lemma arc_bounded_witness : ∃ c,
  NewARC 2 = Ok aex_empty ∧
  st_for ((λ k, AAdd k (Some 0)) <$> ["a"; "b"; "c"; "a"; "d"; "b"]) arc_do aex_empty = Ret () c ∧
  (arc_Len c ≤ 3)%Z ∧ arc_Len c = 3%Z.
Proof.
  assert (panics (st_for ((λ k, AAdd k (Some 0)) <$> ["a"; "b"; "c"; "a"; "d"; "b"]) arc_do aex_empty)
    = false ∧ arc_Len (final (st_for ((λ k, AAdd k (Some 0)) <$> ["a"; "b"; "c"; "a"; "d"; "b"]) arc_do aex_empty))
    = 3%Z) as [Hp Hl] by (split; vm_compute; reflexivity).
  destruct (st_for ((λ k, AAdd k (Some 0)) <$> ["a"; "b"; "c"; "a"; "d"; "b"]) arc_do aex_empty)
    as [[] c|] eqn:Er; [|discriminate Hp].
  exists c. split; [reflexivity|]. split; [reflexivity|]. split; [|exact Hl].
  exact (proj1 (arc_bounded 2 _ aex_empty c aex_empty_new Er)).
Defined.
