(* ===== verification/TwoQueueCache.v ===== *)
(** * The two-queue cache (github.com/hashicorp/golang-lru/2q.go)

    Three caches behind the interface of [LruCache]: [recent] and [frequent] hold the
    entries used once and those used again, [recentEvict] the keys evicted from [recent].
    A [float64] is a [spec_float] of precision 53. *)

From Stdlib Require Import SpecFloat.
From S2P Require Import Prelude LruCache.

(** ** float64 *)
Definition float_of_int (z : Z) : spec_float := binary_normalize 53 1024 z 0 false.
Definition float_mul (x y : spec_float) : spec_float := SFmul 53 1024 x y.

(** [int(f)]: truncation; out of range, what amd64 gives. *)
Definition int_of_float (f : spec_float) : Z :=
  match f with
  | S754_zero _ => 0
  | S754_finite s m e =>
    let n := (if (0 <=? e)%Z then Z.pos m * 2 ^ e else Z.pos m / 2 ^ (- e))%Z in
    let z := (if s then - n else n)%Z in
    if bool_decide (- 2 ^ 63 ≤ z < 2 ^ 63)%Z then z else (- 2 ^ 63)%Z
  | _ => (- 2 ^ 63)%Z
  end.

Definition float_0 : spec_float := S754_zero false.
Definition float_1 : spec_float := S754_finite false 4503599627370496 (-52).
Definition Default2QRecentRatio : spec_float := S754_finite false 4503599627370496 (-54).   (* 0.25 *)
Definition Default2QGhostEntries : spec_float := S754_finite false 4503599627370496 (-53).  (* 0.50 *)

Section twoq.
Context {L K Val : Type} `{LRUCache_new L K (option Val)}.

Abbreviation value := (option Val).
Abbreviation lc_Len := (lc_Len (K:=K) (V:=value)).
Abbreviation lc_Contains := (lc_Contains (V:=value)).
Abbreviation lc_Remove := (lc_Remove (V:=value)).

Record TwoQueueCache := {
  q_size : Z;
  recentSize : Z;
  recent : L;
  frequent : L;
  recentEvict : L;
}.

Definition set_recent (x : L) (c : TwoQueueCache) : TwoQueueCache :=
  {| q_size := q_size c; recentSize := recentSize c; recent := x; frequent := frequent c;
     recentEvict := recentEvict c |}.
Definition set_frequent (x : L) (c : TwoQueueCache) : TwoQueueCache :=
  {| q_size := q_size c; recentSize := recentSize c; recent := recent c; frequent := x;
     recentEvict := recentEvict c |}.
Definition set_recentEvict (x : L) (c : TwoQueueCache) : TwoQueueCache :=
  {| q_size := q_size c; recentSize := recentSize c; recent := recent c; frequent := frequent c;
     recentEvict := x |}.

Definition New2QParams (size : Z) (recentRatio ghostRatio : spec_float) : res string TwoQueueCache :=
  if bool_decide (size ≤ 0)%Z then Err "invalid size"
  else if SFltb recentRatio float_0 || SFltb float_1 recentRatio then Err "invalid recent ratio"
  else if SFltb ghostRatio float_0 || SFltb float_1 ghostRatio then Err "invalid ghost ratio"
  else
    let recentSize := int_of_float (float_mul (float_of_int size) recentRatio) in
    let evictSize := int_of_float (float_mul (float_of_int size) ghostRatio) in
    match lc_New size with
    | Err e => Err e
    | Ok recent =>
      match lc_New size with
      | Err e => Err e
      | Ok frequent =>
        match lc_New evictSize with
        | Err e => Err e
        | Ok recentEvict =>
          Ok {| q_size := size; recentSize := recentSize; recent := recent; frequent := frequent;
                recentEvict := recentEvict |}
        end
      end
    end.

Definition New2Q (size : Z) : res string TwoQueueCache :=
  New2QParams size Default2QRecentRatio Default2QGhostEntries.

Definition q_Get (key : K) (c : TwoQueueCache) : option value * TwoQueueCache :=
  let '(r, f) := lc_Get key (frequent c) in
  let c := set_frequent f c in
  match r with
  | Some val => (Some val, c)
  | None =>
    match lc_Peek key (recent c) with
    | Some val =>
      let c := set_recent (lc_Remove key (recent c)).2 c in
      (Some val, set_frequent (lc_Add key val (frequent c)).2 c)
    | None => (None, c)
    end
  end.

Definition ensureSpace (recentEvict_ : bool) (c : TwoQueueCache) : TwoQueueCache :=
  let recentLen := lc_Len (recent c) in
  let freqLen := lc_Len (frequent c) in
  if bool_decide (recentLen + freqLen < q_size c)%Z then c
  else if bool_decide (0 < recentLen)%Z &&
          (bool_decide (recentSize c < recentLen)%Z ||
           (bool_decide (recentLen = recentSize c) && negb recentEvict_)) then
    let '(r, l) := lc_RemoveOldest (V:=value) (recent c) in
    let c := set_recent l c in
    match r with
    | Some (k, _) => set_recentEvict (lc_Add k None (recentEvict c)).2 c
    | None => c   (* adds the key nil; not reached, the list has an entry *)
    end
  else set_frequent (lc_RemoveOldest (K:=K) (V:=value) (frequent c)).2 c.

Definition q_Add (key : K) (val : value) (c : TwoQueueCache) : TwoQueueCache :=
  if lc_Contains key (frequent c) then set_frequent (lc_Add key val (frequent c)).2 c
  else if lc_Contains key (recent c) then
    let c := set_recent (lc_Remove key (recent c)).2 c in
    set_frequent (lc_Add key val (frequent c)).2 c
  else if lc_Contains key (recentEvict c) then
    let c := ensureSpace true c in
    let c := set_recentEvict (lc_Remove key (recentEvict c)).2 c in
    set_frequent (lc_Add key val (frequent c)).2 c
  else
    let c := ensureSpace false c in
    set_recent (lc_Add key val (recent c)).2 c.

Definition q_Len (c : TwoQueueCache) : Z := lc_Len (recent c) + lc_Len (frequent c).

Definition q_Keys (c : TwoQueueCache) : option (list (option K)) :=
  k1 ← lc_Keys (V:=value) (frequent c); k2 ← lc_Keys (V:=value) (recent c); Some (k1 ++ k2).

Definition q_Remove (key : K) (c : TwoQueueCache) : TwoQueueCache :=
  let '(ok, l) := lc_Remove key (frequent c) in let c := set_frequent l c in
  if ok then c else
  let '(ok, l) := lc_Remove key (recent c) in let c := set_recent l c in
  if ok then c else
  let '(ok, l) := lc_Remove key (recentEvict c) in let c := set_recentEvict l c in
  if ok then c else c.

Definition q_Purge (c : TwoQueueCache) : TwoQueueCache :=
  let c := set_recent (lc_Purge (K:=K) (V:=value) (recent c)) c in
  let c := set_frequent (lc_Purge (K:=K) (V:=value) (frequent c)) c in
  set_recentEvict (lc_Purge (K:=K) (V:=value) (recentEvict c)) c.

Definition q_Contains (key : K) (c : TwoQueueCache) : bool :=
  lc_Contains key (frequent c) || lc_Contains key (recent c).

Definition q_Peek (key : K) (c : TwoQueueCache) : option value :=
  match lc_Peek key (frequent c) with
  | Some val => Some val
  | None => lc_Peek key (recent c)
  end.

(** ** The invariant *)
Definition q_contents (c : TwoQueueCache) : gmap K value := lmap (frequent c) ∪ lmap (recent c).
Definition q_total (c : TwoQueueCache) : nat := size (lmap (recent c)) + size (lmap (frequent c)).
Definition q_cap (c : TwoQueueCache) : nat := Z.to_nat (q_size c).

Record queues_ok (c : TwoQueueCache) : Prop := {
  qo_recent : lc_ok (recent c) ∧ lc_size (recent c) = q_cap c;
  qo_frequent : lc_ok (frequent c) ∧ lc_size (frequent c) = q_cap c;
  qo_evict : lc_ok (recentEvict c);
  qo_size : (0 < q_size c)%Z;
  qo_rf : dom (lmap (recent c)) ## dom (lmap (frequent c));
  qo_re : dom (lmap (recent c)) ## dom (lmap (recentEvict c));
  qo_fe : dom (lmap (frequent c)) ## dom (lmap (recentEvict c));
}.

(** With room left for recent entries below the size, the size is never exceeded. *)
Definition q_ok (c : TwoQueueCache) : Prop :=
  queues_ok c ∧ q_total c ≤ S (q_cap c) ∧ ((recentSize c < q_size c)%Z → q_total c ≤ q_cap c).

(** What changed no more than the entries. *)
Definition same_params (c c' : TwoQueueCache) : Prop :=
  q_size c' = q_size c ∧ recentSize c' = recentSize c.

(** ** Making space *)
Record q_shrinks (c c' : TwoQueueCache) : Prop := {
  qs_ok : queues_ok c';
  qs_params : same_params c c';
  qs_recent : lmap (recent c') ⊆ lmap (V:=value) (recent c);
  qs_frequent : lmap (frequent c') ⊆ lmap (V:=value) (frequent c);
  qs_evict : dom (lmap (recentEvict c')) ⊆ dom (lmap (V:=value) (recentEvict c)) ∪ dom (lmap (recent c));
}.

Lemma evict_recent_law c k v :
  queues_ok c → (lc_RemoveOldest (recent c)).1 = Some (k, v) →
  let c1 := set_recent (lc_RemoveOldest (K:=K) (V:=value) (recent c)).2 c in
  let c' := set_recentEvict (lc_Add k None (recentEvict c1)).2 c1 in
  q_shrinks c c' ∧ S (q_total c') = q_total c.
Proof.
  intros [[A1 A2] [B1 B2] C1 Hs E1 E2 E3] Hr. cbn.
  destruct (mv_RemoveOldest (recent c) A1) as (F1 & F2 & F3). rewrite Hr in F3. destruct F3 as [Hk Hd].
  destruct (mv_Add k None (recentEvict c) C1) as (G1 & G2 & _ & _ & _).
  pose proof (dom_Add k None (recentEvict c) C1) as Hb.
  assert (k ∈ dom (lmap (recent c))) as Hin by (apply elem_of_dom; by eexists).
  split.
  - split; cbn; [split; cbn| | | |]; try done; try (by split); try (split; [done|by etransitivity]);
      rewrite ?Hd, ?dom_delete_L; try apply delete_subseteq; set_solver.
  - unfold q_total. cbn. pose proof (size_delete_in k _ Hin). rewrite Hd. lia.
Qed.

Lemma evict_frequent_law c :
  queues_ok c →
  let c' := set_frequent (lc_RemoveOldest (K:=K) (V:=value) (frequent c)).2 c in
  q_shrinks c c' ∧ (lmap (frequent c) = ∅ ∧ q_total c' = q_total c ∨ S (q_total c') = q_total c).
Proof.
  intros [[A1 A2] [B1 B2] C1 Hs E1 E2 E3]. cbn.
  destruct (mv_RemoveOldest (frequent c) B1) as (F1 & F2 & F3).
  assert (lmap (lc_RemoveOldest (K:=K) (V:=value) (frequent c)).2 ⊆ lmap (frequent c)) as Hsub.
  { destruct (lc_RemoveOldest _).1 as [[k v]|]; destruct F3 as [? ->]; [apply delete_subseteq|apply map_empty_subseteq]. }
  pose proof (subseteq_dom _ _ Hsub) as Hdom. split.
  - clear F3. split; cbn; [split; cbn| | | |]; try done; try (by split); try (split; [done|by etransitivity]); set_solver.
  - unfold q_total. cbn. destruct (lc_RemoveOldest _).1 as [[k v]|]; destruct F3 as [F3 ->].
    + right. pose proof (size_delete_in k (lmap (frequent c))) as Hsz. rewrite <-Hsz; [lia|].
      apply elem_of_dom. by eexists.
    + left. by rewrite F3.
Qed.

Lemma ensureSpace_law b c :
  q_ok c →
  let c' := ensureSpace b c in
  q_shrinks c c' ∧ q_total c' ≤ q_cap c ∧ (q_total c < q_cap c → c' = c) ∧
  ((recentSize c < q_size c)%Z → q_total c' < q_cap c).
Proof.
  intros (Hc & Ht & Htight). cbn zeta. pose proof Hc as [[A1 A2] [B1 B2] C1 Hs _ _ _].
  pose proof (lmap_bound _ A1) as Hb. rewrite A2 in Hb.
  unfold ensureSpace. rewrite !mv_Len by done. case_bool_decide as Hd.
  { assert (q_total c < q_cap c) by (unfold q_total, q_cap; lia).
    split_and!; [|lia|done|done]. split; [done|by split|done|done|set_solver]. }
  assert (¬ q_total c < q_cap c) as Hfull by (unfold q_total, q_cap; lia).
  destruct (bool_decide (0 < _)%Z && _) eqn:Hcond.
  - pose proof (evict_recent_law c) as Hr. destruct (mv_RemoveOldest (recent c) A1) as (_ & _ & F3).
    apply andb_true_iff in Hcond as [Hpos%bool_decide_eq_true _].
    destruct (lc_RemoveOldest (recent c)) as [[[k v]|] l]; cbn in *.
    + destruct (Hr k v Hc eq_refl) as [Q1 Q2]. split_and!; [done|lia|done|]. intros ?%Htight. lia.
    + destruct F3 as [F3 _]. rewrite F3, map_size_empty in Hpos. lia.
  - destruct (evict_frequent_law c Hc) as [Q1 Q2]. split_and!; [done| |done|].
    + destruct Q2 as [[Q2 ->]|Q2]; [|lia]. unfold q_total. rewrite Q2, map_size_empty. lia.
    + intros Hlt. specialize (Htight Hlt). destruct Q2 as [[Q2 _]|Q2]; [exfalso|lia].
      assert (q_total c = size (lmap (recent c))) as Hqt by (unfold q_total; rewrite Q2, map_size_empty; lia).
      apply andb_false_iff in Hcond as [Hn|Hn]; [apply bool_decide_eq_false in Hn; unfold q_cap in *; lia|].
      apply orb_false_iff in Hn as [Hn%bool_decide_eq_false _]. unfold q_cap in *. lia.
Qed.

(** ** Taking a key out of a queue, and putting it into another *)
Lemma take_recent_law c k :
  queues_ok c → k ∈ dom (lmap (recent c)) →
  let c' := set_recent (lc_Remove k (recent c)).2 c in
  queues_ok c' ∧ S (q_total c') = q_total c ∧ q_contents c' = delete k (q_contents c) ∧
  k ∉ dom (lmap (recent c')).
Proof.
  intros [[A1 A2] [B1 B2] C1 Hs E1 E2 E3] Hk. cbn.
  destruct (mv_Remove k (recent c) A1) as (F1 & F2 & _ & F4). split_and!.
  - split; cbn; rewrite ?F4, ?dom_delete_L; try done; [split; [done|by etransitivity]|set_solver..].
  - unfold q_total. cbn. rewrite F4, <-(size_delete_in k (lmap (recent c))) by done. done.
  - unfold q_contents. cbn. rewrite F4, delete_union. f_equal. symmetry. apply delete_id, not_elem_of_dom.
    set_solver.
  - rewrite F4, dom_delete_L. set_solver.
Qed.

Lemma take_evict_law c k :
  queues_ok c →
  let c' := set_recentEvict (lc_Remove k (recentEvict c)).2 c in
  queues_ok c' ∧ k ∉ dom (lmap (recentEvict c')).
Proof.
  intros [A B C1 Hs E1 E2 E3]. cbn.
  destruct (mv_Remove k (recentEvict c) C1) as (F1 & F2 & _ & F4). rewrite F4.
  split; [|rewrite dom_delete_L; set_solver].
  split; cbn; rewrite ?F4, ?dom_delete_L; try done; set_solver.
Qed.

Record q_added (k : K) (v : value) (c c' : TwoQueueCache) : Prop := {
  qa_ok : queues_ok c';
  qa_params : same_params c c';
  qa_key : q_contents c' !! k = Some v;
  qa_sub : q_contents c' ⊆ <[k := v]> (q_contents c);
  qa_total : q_total c' ≤ S (q_total c);
}.

Lemma put_frequent_law c k v :
  queues_ok c → k ∉ dom (lmap (recent c)) → k ∉ dom (lmap (recentEvict c)) →
  let c' := set_frequent (lc_Add k v (frequent c)).2 c in
  q_added k v c c' ∧ (k ∈ dom (lmap (frequent c)) → q_total c' ≤ q_total c) ∧
  (k ∈ dom (lmap (frequent c)) ∨ size (lmap (frequent c)) < q_cap c →
   q_contents c' = <[k := v]> (q_contents c)).
Proof.
  intros [A [B1 B2] C1 Hs E1 E2 E3] K1 K2. cbn.
  destruct (mv_Add k v (frequent c) B1) as (F1 & F2 & F3 & F4 & F5).
  pose proof (dom_Add k v (frequent c) B1) as Hd. pose proof (mv_Add_exact k v (frequent c) B1) as Hex.
  pose proof (map_size_insert k v (lmap (frequent c))) as Hsz. rewrite B2 in Hex. pose proof (lmap_bound _ B1) as Hb.
  assert (<[k := v]> (lmap (frequent c)) ∪ lmap (recent c) = <[k := v]> (q_contents c)) as Hu
    by (symmetry; apply insert_union_l).
  split; [split|split].
  - split; cbn; try done; [split; [done|by etransitivity]|set_solver..].
  - by split.
  - unfold q_contents. cbn. by apply lookup_union_Some_l.
  - unfold q_contents at 1. cbn. rewrite <-Hu. apply map_union_mono_r; [|done].
    apply map_disjoint_dom. rewrite dom_insert_L. set_solver.
  - unfold q_total. cbn. destruct (lmap (frequent c) !! k); cbn in Hsz; lia.
  - intros [x Hx]%elem_of_dom. unfold q_total. cbn. rewrite Hx in Hsz. cbn in Hsz. lia.
  - intros Hroom. unfold q_contents at 1. cbn. rewrite Hex; [done|].
    destruct Hroom as [[x Hx]%elem_of_dom|Hroom]; [rewrite Hx in Hsz; cbn in Hsz; lia|].
    destruct (lmap (frequent c) !! k); cbn in Hsz; lia.
Qed.

Lemma put_recent_law c k v :
  queues_ok c → k ∉ dom (lmap (frequent c)) → k ∉ dom (lmap (recentEvict c)) →
  let c' := set_recent (lc_Add k v (recent c)).2 c in
  q_added k v c c' ∧ (size (lmap (recent c)) < q_cap c → q_contents c' = <[k := v]> (q_contents c)).
Proof.
  intros [[A1 A2] B C1 Hs E1 E2 E3] K1 K2. cbn.
  destruct (mv_Add k v (recent c) A1) as (F1 & F2 & F3 & F4 & F5).
  pose proof (dom_Add k v (recent c) A1) as Hd. pose proof (mv_Add_exact k v (recent c) A1) as Hex.
  pose proof (map_size_insert k v (lmap (recent c))) as Hsz. rewrite A2 in Hex.
  assert (lmap (frequent c) ∪ <[k := v]> (lmap (recent c)) = <[k := v]> (q_contents c)) as Hu
    by (symmetry; apply insert_union_r; by apply not_elem_of_dom).
  split; [split|].
  - split; cbn; try done; [split; [done|by etransitivity]|set_solver..].
  - by split.
  - unfold q_contents. cbn. rewrite lookup_union_r; [done|]. by apply not_elem_of_dom.
  - unfold q_contents at 1. cbn. rewrite <-Hu. by apply map_union_mono_l.
  - unfold q_total. cbn. destruct (lmap (recent c) !! k); cbn in Hsz; lia.
  - intros Hroom. unfold q_contents at 1. cbn. rewrite Hex; [done|].
    destruct (lmap (recent c) !! k); cbn in Hsz; lia.
Qed.

(** ** The calls *)
Lemma q_contents_dom c k :
  k ∈ dom (q_contents c) ↔ k ∈ dom (lmap (V:=value) (frequent c)) ∨ k ∈ dom (lmap (V:=value) (recent c)).
Proof. unfold q_contents. rewrite dom_union_L. set_solver. Qed.

Lemma q_ok_total c c' :
  q_ok c → queues_ok c' → same_params c c' → q_total c' ≤ q_total c → q_ok c'.
Proof.
  intros (Hc & Ht & Htight) Hc' [S1 S2] Hle. unfold q_ok, q_cap in *. rewrite S1, S2. split_and!; [done|lia|].
  intros ?%Htight. lia.
Qed.

Lemma frequent_Get_ok k c :
  queues_ok c →
  let c' := set_frequent (lc_Get (V:=value) k (frequent c)).2 c in
  queues_ok c' ∧ lmap (V:=value) (frequent c') = lmap (frequent c).
Proof.
  intros [A [B1 B2] C1 Hs E1 E2 E3]. cbn. destruct (mv_Get k (frequent c) B1) as (F1 & F2 & _ & F4).
  split; [|done]. split; cbn; rewrite ?F4; try done. split; [done|by etransitivity].
Qed.

Lemma q_Get_law k c :
  q_ok c →
  let r := q_Get k c in
  q_ok r.2 ∧ same_params c r.2 ∧ r.1 = q_contents c !! k ∧ q_contents r.2 ⊆ q_contents c ∧
  (q_total c ≤ q_cap c → q_contents r.2 = q_contents c).
Proof.
  intros Hok. pose proof Hok as (Hc & Ht & _). cbn zeta. unfold q_Get.
  destruct (mv_Get k (frequent c) (proj1 (qo_frequent c Hc))) as (_ & _ & F3 & _).
  destruct (frequent_Get_ok k c Hc) as [Hc1 F4].
  destruct (lc_Get k (frequent c)) as [r f]. cbn in F3, F4. cbn [snd] in Hc1. set (c1 := set_frequent f c) in *.
  assert (q_contents c1 = q_contents c ∧ q_total c1 = q_total c) as [Q1 Q2]
    by (unfold q_contents, q_total, c1; cbn; by rewrite F4).
  assert (q_ok c1) as Hok1 by (apply (q_ok_total c); [done..|lia]).
  assert (q_contents c !! k = match r with Some val => Some val | None => lmap (recent c) !! k end) as Hlook.
  { unfold q_contents. subst r. destruct (lmap (frequent c) !! k) eqn:E; [by apply lookup_union_Some_l|].
    by apply lookup_union_r. }
  destruct r as [val|]; cbn [fst snd]; [by rewrite Q1, Hlook|].
  rewrite mv_Peek by apply Hc1. change (recent c1) with (recent c).
  destruct (lmap (recent c) !! k) as [val|] eqn:Hk; cbn [fst snd]; [|by rewrite Q1, Hlook].
  assert (k ∈ dom (lmap (recent c1))) as Hin by (apply elem_of_dom; by eexists).
  destruct (take_recent_law c1 k Hc1 Hin) as (Hc2 & Ht2 & He2 & Hn2). set (c2 := set_recent _ c1) in *.
  destruct (put_frequent_law c2 k val Hc2 Hn2) as ([D1 D2 D3 D4 D5] & _ & D6);
    [pose proof (qo_re c Hc); cbn in *; set_solver|].
  rewrite He2, Q1, insert_delete_id in D4, D6 by (by rewrite Hlook).
  split_and!; [|done|by rewrite Hlook|done|].
  - apply (q_ok_total c); [done..|]. cbn in *. lia.
  - intros Hcap. apply D6. right. unfold q_total, q_cap in *. cbn in *. lia.
Qed.

(** Writing a key that space was made for. *)
Lemma q_added_shrinks k v c c1 c' :
  q_ok c → q_shrinks c c1 → q_total c1 ≤ q_cap c →
  ((recentSize c < q_size c)%Z → q_total c1 < q_cap c) → q_added k v c1 c' →
  q_ok c' ∧ same_params c c' ∧ q_contents c' !! k = Some v ∧ q_contents c' ⊆ <[k := v]> (q_contents c).
Proof.
  intros (Hc & _ & _) [S1 [S2 S3] S4 S5 _] Hcap Htight [D1 [D2 D2'] D3 D4 D5].
  assert (q_size c' = q_size c ∧ recentSize c' = recentSize c) as [E1 E2] by (split; congruence).
  split_and!; [|by split|done|].
  - unfold q_ok, q_cap in *. rewrite E1, E2. split_and!; [done|lia|]. intros ?%Htight. lia.
  - etransitivity; [done|]. apply insert_mono. unfold q_contents.
    etransitivity; [by apply map_union_mono_l|]. apply map_union_mono_r; [|done].
    apply map_disjoint_dom. symmetry. apply Hc.
Qed.

Lemma q_Add_law k v c :
  q_ok c →
  let c' := q_Add k v c in
  q_ok c' ∧ same_params c c' ∧ q_contents c' !! k = Some v ∧ q_contents c' ⊆ <[k := v]> (q_contents c) ∧
  (q_total c < q_cap c ∨ q_total c ≤ q_cap c ∧ k ∈ dom (q_contents c) →
   q_contents c' = <[k := v]> (q_contents c)).
Proof.
  intros Hok. pose proof Hok as (Hc & Ht & _). cbn zeta.
  pose proof Hc as [[A1 A2] [B1 B2] C1 Hs E1 E2 E3]. unfold q_Add. rewrite !mv_Contains by done.
  case_bool_decide as K1.
  { destruct (put_frequent_law c k v Hc) as ([F1 F2 F3 F4 F5] & F6 & F7); [set_solver..|].
    split_and!; [|done..|auto]. apply (q_ok_total c); auto. }
  case_bool_decide as K2.
  { destruct (take_recent_law c k Hc K2) as (Hc1 & Ht1 & He1 & Hn1). set (c1 := set_recent _ c) in *.
    destruct (put_frequent_law c1 k v Hc1 Hn1) as ([F1 F2 F3 F4 F5] & _ & F6); [cbn; set_solver|].
    rewrite He1, insert_delete_eq in F4, F6. split_and!; [|done..|].
    - apply (q_ok_total c); [done..|]. cbn in *. lia.
    - intros Hroom. apply F6. right. unfold q_total, q_cap in *. cbn in *. lia. }
  assert (k ∉ dom (q_contents c)) as Kc by (rewrite q_contents_dom; tauto).
  case_bool_decide as K3.
  - destruct (ensureSpace_law true c Hok) as (Hsh & Hcap & Hid & Htight). set (c1 := ensureSpace true c) in *.
    pose proof Hsh as [S1 S2 S3 S4 S5]. apply subseteq_dom in S3, S4.
    destruct (take_evict_law c1 k S1) as [L1 L2]. set (c2 := set_recentEvict _ c1) in *.
    destruct (put_frequent_law c2 k v L1) as (Had & _ & F6); [cbn; set_solver|done|].
    set (c' := set_frequent _ c2) in *. assert (q_added k v c1 c') as Had1 by (destruct Had; by split).
    destruct (q_added_shrinks k v c c1 _ Hok Hsh Hcap Htight Had1) as (R1 & R2 & R3 & R4).
    split_and!; [done..|]. intros [Hlt|[_ Hin]]; [|done].
    change (size (lmap (frequent c2))) with (size (lmap (frequent c1))) in F6.
    change (q_cap c2) with (q_cap c1) in F6. change (q_contents c2) with (q_contents c1) in F6.
    rewrite (Hid Hlt) in F6. apply F6. right. unfold q_cap, q_total in *. lia.
  - destruct (ensureSpace_law false c Hok) as (Hsh & Hcap & Hid & Htight). set (c1 := ensureSpace false c) in *.
    pose proof Hsh as [S1 S2 S3 S4 S5]. apply subseteq_dom in S3, S4.
    destruct (put_recent_law c1 k v S1) as (Had & F6); [set_solver..|].
    destruct (q_added_shrinks k v c c1 _ Hok Hsh Hcap Htight Had) as (R1 & R2 & R3 & R4).
    split_and!; [done..|]. intros [Hlt|[_ Hin]]; [|done].
    rewrite (Hid Hlt) in F6 |- *. apply F6. unfold q_cap, q_total in *. lia.
Qed.

(** Caches that hold parts of what they held. *)
Lemma queues_ok_sub c x y z :
  queues_ok c →
  (∀ l l', (l, l') ∈ [(recent c, x); (frequent c, y); (recentEvict c, z)] →
     lc_ok l' ∧ lc_size l' = lc_size l ∧ dom (lmap (V:=value) l') ⊆ dom (lmap l)) →
  queues_ok {| q_size := q_size c; recentSize := recentSize c; recent := x; frequent := y; recentEvict := z |}.
Proof.
  intros [[A1 A2] [B1 B2] C1 Hs E1 E2 E3] Hl.
  destruct (Hl (recent c) x) as (F1 & F2 & F3); [by repeat constructor|].
  destruct (Hl (frequent c) y) as (F4 & F5 & F6); [by repeat constructor|].
  destruct (Hl (recentEvict c) z) as (F7 & F8 & F9); [by repeat constructor|]. clear Hl.
  split; cbn; try done; try (split; [done|by etransitivity]); set_solver.
Qed.

Lemma q_Remove_law k c :
  q_ok c →
  let c' := q_Remove k c in
  q_ok c' ∧ same_params c c' ∧ q_contents c' = delete k (q_contents c).
Proof.
  intros Hok. pose proof Hok as (Hc & Ht & _). cbn zeta.
  assert (∃ x y z,
    q_Remove k c = {| q_size := q_size c; recentSize := recentSize c; recent := x; frequent := y; recentEvict := z |} ∧
    (∀ l l', (l, l') ∈ [(recent c, x); (frequent c, y); (recentEvict c, z)] →
       lc_ok l' ∧ lc_size l' = lc_size l ∧ lmap (V:=value) l' ⊆ lmap l) ∧
    lmap x = delete k (lmap (recent c)) ∧ lmap y = delete k (lmap (frequent c)))
    as (x & y & z & -> & Hl & R1 & R2).
  { pose proof Hc as [[A1 _] [B1 _] C1 _ E1 _ _]. unfold q_Remove.
    destruct (mv_Remove k (frequent c) B1) as (F1 & F2 & F3 & F4). destruct (lc_Remove k (frequent c)) as [o1 z1].
    destruct (mv_Remove k (recent c) A1) as (G1 & G2 & G3 & G4). cbn. destruct (lc_Remove k (recent c)) as [o2 z2].
    destruct (mv_Remove k (recentEvict c) C1) as (I1 & I2 & I3 & I4). cbn.
    destruct (lc_Remove k (recentEvict c)) as [o3 z3].
    cbn in *. subst o1 o2 o3.
    assert (∀ l : L, lc_ok l → lc_ok l ∧ lc_size l = lc_size l ∧ lmap (V:=value) l ⊆ lmap l) as Hsame by done.
    assert (∀ m : gmap K value, delete k m ⊆ m) as Hdel by (intros; apply delete_subseteq).
    case_bool_decide as K1; [|case_bool_decide as K2; [|case_bool_decide as K3]];
      eexists _, _, _; (split; [reflexivity|]);
      (split; [intros l l'; rewrite !elem_of_cons, elem_of_nil;
               intros [[= -> ->]|[[= -> ->]|[[= -> ->]|[]]]]; rewrite ?F4, ?G4, ?I4; by auto|]);
      rewrite ?F4, ?G4; try done.
    split; [|done]. symmetry. apply delete_id, not_elem_of_dom. set_solver. }
  split_and!; [|by split|unfold q_contents; cbn; by rewrite R1, R2, delete_union].
  apply (q_ok_total c); [done| |by split|].
  - apply queues_ok_sub; [done|]. intros l l' Hin. destruct (Hl l l' Hin) as (? & ? & Hsub).
    split_and!; [done..|by apply subseteq_dom].
  - unfold q_total. cbn. rewrite R1, R2, !map_size_delete. destruct (_ !! k), (_ !! k); cbn; lia.
Qed.

Lemma q_Purge_law c :
  q_ok c → let c' := q_Purge c in q_ok c' ∧ same_params c c' ∧ q_contents c' = ∅.
Proof.
  intros Hok. pose proof Hok as (Hc & Ht & _). cbn zeta.
  assert (∀ l : L, lc_ok l → lc_ok (lc_Purge (K:=K) (V:=value) l) ∧
    lc_size (lc_Purge (K:=K) (V:=value) l) = lc_size l ∧ lmap (V:=value) (lc_Purge (K:=K) (V:=value) l) = ∅) as Hp.
  { intros l Hl. destruct (lc_Purge_law l Hl) as (F1 & F2 & F3). split_and!; try done.
    unfold lmap. by rewrite F3. }
  destruct (Hp _ (proj1 (qo_recent c Hc))) as (_ & _ & P1). destruct (Hp _ (proj1 (qo_frequent c Hc))) as (_ & _ & P2).
  split_and!; [|by split|unfold q_contents; cbn; rewrite P1, P2; apply (left_id_L ∅ (∪))].
  apply (q_ok_total c); [done| |by split|unfold q_total; cbn; rewrite P1, P2, map_size_empty; lia].
  apply (queues_ok_sub c); [done|].
  intros l l' Hin. assert (lc_ok l ∧ l' = lc_Purge (K:=K) (V:=value) l) as [Hl ->].
  { clear -Hc Hin. destruct Hc as [[? _] [? _] ? _ _ _ _].
    rewrite !elem_of_cons, elem_of_nil in Hin. cbn in Hin. naive_solver. }
  destruct (Hp l Hl) as (? & ? & ->). split_and!; [done..|]. rewrite dom_empty_L. apply empty_subseteq.
Qed.

Lemma New2QParams_ok sz rr gr c :
  New2QParams sz rr gr = Ok c → q_ok c ∧ q_size c = sz ∧ q_contents c = ∅ ∧ q_total c = 0.
Proof.
  unfold New2QParams. case_bool_decide as Hsz; [done|]. destruct (_ || _); [done|]. destruct (_ || _); [done|].
  destruct (lc_New_ok sz) as (l & -> & Hl & Hs & He); [lia|].
  set (ev := int_of_float (float_mul (float_of_int sz) gr)).
  destruct (decide (0 < ev)%Z) as [Hev|Hev]; [|by destruct (lc_New_err ev) as [e ->]; [lia|]].
  destruct (lc_New_ok ev Hev) as (g & -> & Hg & _ & Hge). intros [= <-].
  assert (lmap l = ∅ ∧ lmap g = ∅) as [Hm1 Hm2] by (unfold lmap; by rewrite He, Hge).
  unfold q_contents, q_total. cbn. rewrite Hm1, map_size_empty. split_and!; [|done|apply (left_id_L ∅ (∪))|done].
  unfold q_ok, q_total. cbn. rewrite Hm1, map_size_empty. split_and!; [|lia|lia].
  split; cbn; rewrite ?Hm1, ?Hm2; try done; try lia; set_solver.
Qed.

(** ** Runs *)
Inductive q_op : Type :=
| QAdd (k : K) (v : value) | QGet (k : K) | QRemove (k : K) | QPurge.

Definition q_do (c : TwoQueueCache) (op : q_op) : TwoQueueCache :=
  match op with
  | QAdd k v => q_Add k v c
  | QGet k => (q_Get k c).2
  | QRemove k => q_Remove k c
  | QPurge => q_Purge c
  end.

(** The value last written to each key and not removed since. *)
Definition q_written (m : gmap K value) (op : q_op) : gmap K value :=
  match op with
  | QAdd k v => <[k := v]> m
  | QGet _ => m
  | QRemove k => delete k m
  | QPurge => ∅
  end.

Lemma q_do_law op c m :
  q_ok c → q_contents c ⊆ m →
  q_ok (q_do c op) ∧ same_params c (q_do c op) ∧ q_contents (q_do c op) ⊆ q_written m op.
Proof.
  intros Hc Hm. destruct op as [k v|k|k|]; cbn.
  - destruct (q_Add_law k v c Hc) as (F1 & F2 & _ & F4 & _). split_and!; [done..|].
    etransitivity; [done|]. by apply insert_mono.
  - destruct (q_Get_law k c Hc) as (F1 & F2 & _ & F4 & _). split_and!; [done..|]. by etransitivity.
  - destruct (q_Remove_law k c Hc) as (F1 & F2 & F3). split_and!; [done..|]. rewrite F3. by apply delete_mono.
  - destruct (q_Purge_law c Hc) as (F1 & F2 & F3). split_and!; [done..|]. by rewrite F3.
Qed.

Lemma q_run_law ops c m :
  q_ok c → q_contents c ⊆ m →
  q_ok (foldl q_do c ops) ∧ same_params c (foldl q_do c ops) ∧
  q_contents (foldl q_do c ops) ⊆ foldl q_written m ops.
Proof.
  revert c m. induction ops as [|op ops IH]; intros c m Hc Hm; cbn [foldl]; [done|].
  destruct (q_do_law op c m Hc Hm) as (F1 & [F2 F2'] & F3).
  destruct (IH _ _ F1 F3) as (G1 & [G2 G2'] & G3). split_and!; [done|split; congruence|done].
Qed.

Lemma q_Peek_law k c : q_ok c → q_Peek k c = q_contents c !! k.
Proof.
  intros (Hc & _). unfold q_Peek, q_contents. rewrite !mv_Peek by apply Hc.
  destruct (lmap (frequent c) !! k) eqn:E; [symmetry; by apply lookup_union_Some_l|by rewrite lookup_union_r].
Qed.

Lemma q_Contains_law k c : q_ok c → q_Contains k c = bool_decide (is_Some (q_contents c !! k)).
Proof.
  intros (Hc & _). unfold q_Contains. rewrite !mv_Contains by apply Hc. apply eq_true_iff_eq.
  rewrite orb_true_iff, !bool_decide_eq_true, <-elem_of_dom, q_contents_dom. done.
Qed.

Lemma q_Len_law c : q_ok c → q_Len c = Z.of_nat (q_total c).
Proof. intros (Hc & _). unfold q_Len, q_total. rewrite !mv_Len by apply Hc. lia. Qed.

(** The two-queue cache is a cache: after any sequence of calls [Get] and [Peek]
    agree and give, for a key, nothing or the value last written to it and not removed
    since; [Contains] says which; a value just added is found, and a cache below its
    capacity forgets nothing when a value is added. *)
Theorem twoq_serves_last_write sz rr gr c0 ops :
  New2QParams sz rr gr = Ok c0 →
  let c := foldl q_do c0 ops in
  (∀ k, q_Peek k c = (q_Get k c).1 ∧ q_Contains k c = bool_decide (is_Some (q_Peek k c)) ∧
     ∀ v, q_Peek k c = Some v → foldl q_written ∅ ops !! k = Some v) ∧
  (∀ k v, q_Peek k (q_Add k v c) = Some v ∧
     ((q_Len c < sz)%Z → ∀ k', k' ≠ k → q_Peek k' (q_Add k v c) = q_Peek k' c)).
Proof.
  intros (Hc0 & Hs0 & He0 & _)%New2QParams_ok. cbn zeta.
  destruct (q_run_law ops c0 ∅ Hc0) as (Hc & [Hs _] & Hsub); [by rewrite He0|].
  set (c := foldl q_do c0 ops) in *. split.
  - intros k. rewrite q_Peek_law, q_Contains_law by done.
    destruct (q_Get_law k c Hc) as (_ & _ & -> & _). split_and!; [done..|]. intros v Hv.
    by eapply lookup_weaken.
  - intros k v. destruct (q_Add_law k v c Hc) as (Hc' & _ & Hk & _ & Hex).
    rewrite q_Peek_law, q_Len_law by done. split; [done|]. intros Hlt k' Hne.
    rewrite !q_Peek_law by done. rewrite Hex; [by apply lookup_insert_ne|]. left. unfold q_cap. lia.
Qed.

(** The two-queue cache stays within its size when the share of recent entries is
    below the size, and exceeds it by at most one entry otherwise; the evicted keys it
    remembers are never among its entries. *)
Theorem twoq_bounded sz rr gr c0 ops :
  New2QParams sz rr gr = Ok c0 →
  let c := foldl q_do c0 ops in
  (q_Len c ≤ sz + 1)%Z ∧ ((recentSize c0 < sz)%Z → (q_Len c ≤ sz)%Z) ∧
  ∀ k, lc_Contains k (recentEvict c) = true → q_Contains k c = false.
Proof.
  intros (Hc0 & Hs0 & He0 & _)%New2QParams_ok. cbn zeta.
  destruct (q_run_law ops c0 ∅ Hc0) as (Hc & [Hs Hr] & _); [by rewrite He0|].
  set (c := foldl q_do c0 ops) in *. rewrite q_Len_law by done. pose proof Hc as (Hq & Ht & Htight).
  unfold q_cap in *. pose proof (qo_size c Hq). split_and!; [lia| |].
  - intros Hlt. rewrite Hs, Hr in Htight. lia.
  - intros k. rewrite q_Contains_law, mv_Contains, bool_decide_eq_true, bool_decide_eq_false by (done || apply Hq).
    rewrite <-elem_of_dom, q_contents_dom. intros Hk. pose proof (qo_re c Hq) as D1. pose proof (qo_fe c Hq) as D2.
    intros [Hf|Hf]; [exact (D2 k Hf Hk)|exact (D1 k Hf Hk)].
Qed.
End twoq.

(** ** Concrete caches *)
#[local] Instance qex_ops : LRUCache_ops (LRU (K:=string) (V:=option nat) (W:=())) string (option nat) :=
  LRU_ops map_to_list.
#[local] Instance qex_laws : LRUCache_laws (LRU (K:=string) (V:=option nat) (W:=())) string (option nat) :=
  LRU_laws map_to_list.
#[local] Instance qex_new : LRUCache_new (LRU (K:=string) (V:=option nat) (W:=())) string (option nat) :=
  LRU_new map_to_list ().

Abbreviation qex_cache := (TwoQueueCache (L:=LRU (K:=string) (V:=option nat) (W:=()))).

Definition qex_len (r : res string qex_cache) (ops : list (q_op (K:=string) (Val:=nat))) : option Z :=
  match r with Ok c => Some (q_Len (foldl q_do c ops)) | Err _ => None end.

(** With the whole size given to recent entries, which the constructor accepts, the
    two-queue cache exceeds its size: a key that is found among the evicted ones, while
    [recent] fills the cache, makes [ensureSpace] take the oldest entry of the empty
    [frequent]. *)
Theorem twoq_exceeds_size :
  qex_len (New2QParams 1 float_1 float_1) ((λ k, QAdd k (Some 0)) <$> ["a"; "b"; "a"]) = Some 2%Z ∧
  qex_len (New2QParams 3 float_1 float_1) ((λ k, QAdd k (Some 0)) <$> ["a"; "b"; "c"; "d"; "a"]) = Some 4%Z.
Proof. split; vm_compute; reflexivity. Qed.

(** A cache of size one cannot be made with the default ratios: half of it is no entry. *)
Lemma New2Q_one_fails : (New2Q 1 : res string qex_cache) = Err "Must provide a positive size".
Proof. vm_compute. reflexivity. Qed.

Definition qex_new8 : qex_cache :=
  let l n := {| lru_size := n; evictList := []; items := ∅; onEvict := None; world := (); next := 0 |} in
  {| q_size := 8; recentSize := 2; recent := l 8%Z; frequent := l 8%Z; recentEvict := l 4%Z |}.

Lemma qex_new8_ok : New2QParams 8 Default2QRecentRatio Default2QGhostEntries = Ok qex_new8.
Proof. vm_compute. reflexivity. Qed.

Lemma twoq_serves_last_write_witness :
  let c := foldl q_do qex_new8 [QAdd "a" (Some 1); QGet "a"; QAdd "b" (Some 2); QAdd "a" (Some 3)] in
  q_Peek "a" c = Some (Some 3) ∧ q_Peek "c" (q_Add "c" None c) = Some None ∧
  q_Peek "b" (q_Add "c" None c) = q_Peek "b" c.
Proof.
  destruct (twoq_serves_last_write 8 Default2QRecentRatio Default2QGhostEntries qex_new8
    [QAdd "a" (Some 1); QGet "a"; QAdd "b" (Some 2); QAdd "a" (Some 3)] qex_new8_ok) as [_ Ha].
  destruct (Ha "c" None) as [H1 H2]. split; [vm_compute; reflexivity|]. split; [exact H1|].
  apply H2; [vm_compute; reflexivity|discriminate].
Defined.

Lemma twoq_bounded_witness :
  (recentSize qex_new8 < 8)%Z ∧
  (q_Len (foldl q_do qex_new8 ((λ k, QAdd k (Some 0%nat)) <$> ["a"; "b"; "c"; "d"; "e"; "f"; "g"; "h"; "i"])) ≤ 8)%Z.
Proof.
  destruct (twoq_bounded 8 Default2QRecentRatio Default2QGhostEntries qex_new8
    ((λ k, QAdd k (Some 0%nat)) <$> ["a"; "b"; "c"; "d"; "e"; "f"; "g"; "h"; "i"]) qex_new8_ok) as (_ & H2 & _).
  assert (recentSize qex_new8 < 8)%Z as Hlt by (vm_compute; reflexivity).
  split; [exact Hlt|exact (H2 Hlt)].
Defined.
