(* ===== verification/Snappy.v ===== *)
(** * Snappy block format (github.com/golang/snappy)

    The portable encoder and decoder ([encode_other.go], [decode_other.go]) with
    [Encode] and [Decode].  A byte is a number below 256.  A write or a slice out of
    range panics: a call is an [option], and [None] is a panic.  A function that writes
    into a slice returns the new contents of the slice; [at_offset] passes [dst[d:]]
    and writes the result back.  [wordSize] is the width of Go's [int] (32 or 64). *)

From S2P Require Import Prelude.
Open Scope Z_scope.

Definition u8 (z : Z) : Z := z mod 2 ^ 8.
Definition u16 (z : Z) : Z := z mod 2 ^ 16.
Definition u32 (z : Z) : Z := z mod 2 ^ 32.
Definition u64 (z : Z) : Z := z mod 2 ^ 64.

(** Conversion to the platform's [int]. *)
Definition to_int (wordSize z : Z) : Z :=
  (z + 2 ^ (wordSize - 1)) mod 2 ^ wordSize - 2 ^ (wordSize - 1).

Definition tagLiteral : Z := 0.
Definition tagCopy1 : Z := 1.
Definition tagCopy2 : Z := 2.
Definition tagCopy4 : Z := 3.
Definition maxBlockSize : Z := 65536.
Definition inputMargin : nat := 16 - 1.
Definition minNonLiteralBlockSize : nat := 1 + 1 + inputMargin.

Definition put (i : nat) (b : Z) (dst : list Z) : option (list Z) :=
  if bool_decide (i < length dst)%nat then Some (<[i := b]> dst) else None.

Definition at_offset (d : nat) (f : list Z → option (list Z * nat)) (dst : list Z) :
    option (list Z * nat) :=
  tail ← slice d (length dst) dst;
  '(tail, n) ← f tail;
  Some (take d dst ++ tail, (d + n)%nat).

(** ** Varints (encoding/binary) *)
Fixpoint put_uvarint (fuel : nat) (i : nat) (x : Z) (dst : list Z) : option (list Z * nat) :=
  match fuel with
  | O => None
  | S fuel =>
    if bool_decide (0x80 ≤ x) then
      dst ← put i (Z.lor (u8 x) 0x80) dst; put_uvarint fuel (S i) (Z.shiftr x 7) dst
    else dst ← put i (u8 x) dst; Some (dst, S i)
  end.

Definition PutUvarint (dst : list Z) (x : Z) : option (list Z * nat) := put_uvarint 10 0 x dst.

(** Value and number of bytes; the number is not positive for a bad encoding. *)
Fixpoint uvarint_from (i : nat) (x shift : Z) (buf : list Z) : Z * Z :=
  match buf with
  | [] => (0, 0)
  | b :: buf' =>
    if bool_decide (b < 0x80) then
      if bool_decide (9 < i)%nat || (bool_decide (i = 9)%nat && bool_decide (1 < b))
      then (0, - (Z.of_nat i + 1))
      else (Z.lor x (u64 (Z.shiftl b shift)), Z.of_nat i + 1)
    else uvarint_from (S i) (Z.lor x (u64 (Z.shiftl (Z.land b 0x7f) shift))) (shift + 7) buf'
  end.

Definition Uvarint (buf : list Z) : Z * Z := uvarint_from 0 0 0 buf.

(** ** Encoder *)
Definition le4 (b0 b1 b2 b3 : Z) : Z :=
  Z.lor (Z.lor (Z.lor b0 (Z.shiftl b1 8)) (Z.shiftl b2 16)) (Z.shiftl b3 24).

Definition load32 (b : list Z) (i : nat) : option Z :=
  b ← slice i (i + 4) b;
  match b with
  | [b0; b1; b2; b3] => Some (le4 b0 b1 b2 b3)
  | _ => None
  end.

Definition load64 (b : list Z) (i : nat) : option Z :=
  b ← slice i (i + 8) b;
  match b with
  | [b0; b1; b2; b3; b4; b5; b6; b7] =>
    Some (Z.lor (Z.lor (Z.lor (Z.lor (le4 b0 b1 b2 b3)
      (Z.shiftl b4 32)) (Z.shiftl b5 40)) (Z.shiftl b6 48)) (Z.shiftl b7 56))
  | _ => None
  end.

Definition emitLiteral (lit dst : list Z) : option (list Z * nat) :=
  let n := u64 (Z.of_nat (length lit) - 1) in
  '(dst, i) ←
    (if bool_decide (n < 60) then
       dst ← put 0 (Z.lor (u8 (Z.shiftl (u8 n) 2)) tagLiteral) dst; Some (dst, 1%nat)
     else if bool_decide (n < Z.shiftl 1 8) then
       dst ← put 0 (Z.lor (Z.shiftl 60 2) tagLiteral) dst;
       dst ← put 1 (u8 n) dst; Some (dst, 2%nat)
     else
       dst ← put 0 (Z.lor (Z.shiftl 61 2) tagLiteral) dst;
       dst ← put 1 (u8 n) dst;
       dst ← put 2 (u8 (Z.shiftr n 8)) dst; Some (dst, 3%nat));
  tail ← slice i (length dst) dst;
  Some (take i dst ++ copy tail lit, (i + (length tail `min` length lit))%nat).

Definition put_copy2 (i : nat) (m offset : Z) (dst : list Z) : option (list Z) :=
  dst ← put (i + 0) (Z.lor (u8 (Z.shiftl m 2)) tagCopy2) dst;
  dst ← put (i + 1) (u8 offset) dst;
  put (i + 2) (u8 (Z.shiftr offset 8)) dst.

(** The loop that emits copies of length 64: index and length afterwards. *)
Fixpoint emit_copy64 (fuel : nat) (offset length : Z) (i : nat) (dst : list Z) :
    option (list Z * nat * Z) :=
  if bool_decide (68 ≤ length) then
    match fuel with
    | O => None
    | S fuel =>
      dst ← put_copy2 i 63 offset dst; emit_copy64 fuel offset (length - 64) (i + 3) dst
    end
  else Some (dst, i, length).

Definition emitCopy (offset length : Z) (dst : list Z) : option (list Z * nat) :=
  '(dst, i, length) ← emit_copy64 (Z.to_nat length) offset length 0 dst;
  '(dst, i, length) ←
    (if bool_decide (64 < length) then
       dst ← put_copy2 i 59 offset dst; Some (dst, (i + 3)%nat, length - 60)
     else Some (dst, i, length));
  if bool_decide (12 ≤ length) || bool_decide (2048 ≤ offset) then
    dst ← put_copy2 i (u8 (length - 1)) offset dst; Some (dst, (i + 3)%nat)
  else
    dst ← put (i + 0) (Z.lor (Z.lor (u8 (Z.shiftl (u8 (Z.shiftr offset 8)) 5))
                                    (u8 (Z.shiftl (u8 (length - 4)) 2))) tagCopy1) dst;
    dst ← put (i + 1) (u8 offset) dst; Some (dst, (i + 2)%nat).

(** [extendMatch], as it is inlined in [encodeBlock]. *)
Fixpoint extendMatch (fuel : nat) (src : list Z) (i j : nat) : option nat :=
  if bool_decide (j < length src)%nat then
    x ← src !! i; y ← src !! j;
    if bool_decide (x = y) then
      match fuel with
      | O => None
      | S fuel => extendMatch fuel src (S i) (S j)
      end
    else Some j
  else Some j.

Definition hash (u shift : Z) : Z := Z.shiftr (u32 (u * 0x1e35a7bd)) shift.

(** The hash table: [maxTableSize] zero-initialised entries, indexed under [tableMask]. *)
Definition tableMask : Z := Z.shiftl 1 14 - 1.
Definition table_get (table : gmap Z Z) (h : Z) : Z := default 0 (table !! Z.land h tableMask).
Definition table_set (h v : Z) (table : gmap Z Z) : gmap Z Z := <[Z.land h tableMask := u16 v]> table.

Fixpoint table_shift (fuel : nat) (tableSize len shift : Z) : Z :=
  match fuel with
  | O => shift
  | S fuel =>
    if bool_decide (tableSize < Z.shiftl 1 14) && bool_decide (tableSize < len)
    then table_shift fuel (tableSize * 2) len (shift - 1) else shift
  end.

(** What the loops of [encodeBlock] keep between their rounds. *)
Record enc := {
  e_dst : list Z;
  e_d : nat;
  e_table : gmap Z Z;
  e_nextEmit : nat;
  e_s : nat;
  e_nextHash : Z;
}.

Section block.
Context (src : list Z) (shift : Z).

(** Looking for a match: position, candidate, next hash and table; [None] inside is
    [goto emitRemainder]. *)
Fixpoint find_match (fuel : nat) (sLimit : Z) (skip : Z) (nextS : nat) (nextHash : Z)
    (table : gmap Z Z) : option (option (nat * nat * Z * gmap Z Z)) :=
  match fuel with
  | O => None
  | S fuel =>
    let s := nextS in
    let bytesBetweenHashLookups := Z.shiftr skip 5 in
    let nextS := (s + Z.to_nat bytesBetweenHashLookups)%nat in
    let skip := skip + bytesBetweenHashLookups in
    if bool_decide (sLimit < Z.of_nat nextS) then Some None
    else
      let candidate := Z.to_nat (table_get table nextHash) in
      let table := table_set nextHash (Z.of_nat s) table in
      x ← load32 src nextS;
      let nextHash := hash x shift in
      y ← load32 src s;
      z ← load32 src candidate;
      if bool_decide (y = z) then Some (Some (s, candidate, nextHash, table))
      else find_match fuel sLimit skip nextS nextHash table
  end.

(** Emitting copies while the input goes on with a match; [false] is
    [goto emitRemainder]. *)
Fixpoint emit_copies (fuel : nat) (sLimit : Z) (s candidate : nat) (dst : list Z) (d : nat)
    (table : gmap Z Z) : option (bool * enc) :=
  match fuel with
  | O => None
  | S fuel =>
    let base := s in
    s ← extendMatch (length src) src (candidate + 4) (s + 4);
    '(dst, d) ← at_offset d (emitCopy (Z.of_nat base - Z.of_nat candidate)
                               (Z.of_nat s - Z.of_nat base)) dst;
    let st := {| e_dst := dst; e_d := d; e_table := table; e_nextEmit := s; e_s := s;
                 e_nextHash := 0 |} in
    if bool_decide (sLimit ≤ Z.of_nat s) then Some (false, st)
    else
      x ← load64 src (s - 1);
      let prevHash := hash (u32 (Z.shiftr x 0)) shift in
      let table := table_set prevHash (Z.of_nat s - 1) table in
      let currHash := hash (u32 (Z.shiftr x 8)) shift in
      let candidate := Z.to_nat (table_get table currHash) in
      let table := table_set currHash (Z.of_nat s) table in
      y ← load32 src candidate;
      if bool_decide (u32 (Z.shiftr x 8) ≠ y) then
        Some (true, {| e_dst := dst; e_d := d; e_table := table; e_nextEmit := s; e_s := S s;
                       e_nextHash := hash (u32 (Z.shiftr x 16)) shift |})
      else emit_copies fuel sLimit s candidate dst d table
  end.

Fixpoint encode_loop (fuel : nat) (sLimit : Z) (e : enc) : option enc :=
  match fuel with
  | O => None
  | S fuel =>
    m ← find_match (length src) sLimit 32 (e_s e) (e_nextHash e) (e_table e);
    match m with
    | None => Some e
    | Some (s, candidate, nextHash, table) =>
      lit ← slice (e_nextEmit e) s src;
      '(dst, d) ← at_offset (e_d e) (emitLiteral lit) (e_dst e);
      r ← emit_copies (length src) sLimit s candidate dst d table;
      match r with
      | (true, e) => encode_loop fuel sLimit e
      | (false, e) => Some e
      end
    end
  end.
End block.

Definition encodeBlock (src dst : list Z) : option (list Z * nat) :=
  let shift := table_shift 7 (Z.shiftl 1 8) (Z.of_nat (length src)) (32 - 8) in
  let sLimit := Z.of_nat (length src) - Z.of_nat inputMargin in
  x ← load32 src 1;
  e ← encode_loop src shift (length src) sLimit
        {| e_dst := dst; e_d := 0; e_table := ∅; e_nextEmit := 0; e_s := 1;
           e_nextHash := hash x shift |};
  if bool_decide (e_nextEmit e < length src)%nat then
    lit ← slice (e_nextEmit e) (length src) src;
    at_offset (e_d e) (emitLiteral lit) (e_dst e)
  else Some (e_dst e, e_d e).

Definition MaxEncodedLen (wordSize srcLen : Z) : Z :=
  let n := u64 srcLen in
  if bool_decide (0xffffffff < n) then -1
  else
    let n := 32 + n + n / 6 in
    if bool_decide (0xffffffff < n) then -1 else to_int wordSize n.

Fixpoint encode_blocks (fuel : nat) (src dst : list Z) (d : nat) : option (list Z * nat) :=
  match src, fuel with
  | [], _ => Some (dst, d)
  | _, O => None
  | _, S fuel =>
    let long := bool_decide (maxBlockSize < Z.of_nat (length src)) in
    let p := if long then take (Z.to_nat maxBlockSize) src else src in
    let src := if long then drop (Z.to_nat maxBlockSize) src else [] in
    '(dst, d) ←
      (if bool_decide (length p < minNonLiteralBlockSize)%nat
       then at_offset d (emitLiteral p) dst else at_offset d (encodeBlock p) dst);
    encode_blocks fuel src dst d
  end.

(** [Encode]: what the caller's [dst] holds afterwards, and the encoding. *)
Definition Encode (wordSize : Z) (dst src : list Z) : option (list Z * list Z) :=
  let n := MaxEncodedLen wordSize (Z.of_nat (length src)) in
  if bool_decide (n < 0) then None
  else
    let fresh := bool_decide (Z.of_nat (length dst) < n) in
    let buf := if fresh then replicate (Z.to_nat n) 0 else dst in
    '(buf, d) ← PutUvarint buf (u64 (Z.of_nat (length src)));
    '(buf, d) ← encode_blocks (length src) src buf d;
    enc ← slice 0 d buf;
    Some (if fresh then dst else buf, enc).

(** ** Decoder *)
Inductive snappy_error : Type := ErrCorrupt | ErrTooLarge | ErrUnsupported | ErrUnsupportedLiteralLength.

Definition decodeErrCodeCorrupt : Z := 1.
Definition decodeErrCodeUnsupportedLiteralLength : Z := 2.

(** The length byte(s) of a literal: position of its bytes and [x]. *)
Definition literal_header (src : list Z) (s : nat) (x : Z) : option (res Z (nat * Z)) :=
  if bool_decide (x < 60) then Some (Ok (S s, x))
  else
    let s := (s + Z.to_nat (x - 58))%nat in
    if bool_decide (length src < s)%nat then Some (Err decodeErrCodeCorrupt)
    else if bool_decide (x = 60) then
      b1 ← src !! (s - 1)%nat; Some (Ok (s, b1))
    else if bool_decide (x = 61) then
      b2 ← src !! (s - 2)%nat; b1 ← src !! (s - 1)%nat;
      Some (Ok (s, Z.lor b2 (Z.shiftl b1 8)))
    else if bool_decide (x = 62) then
      b3 ← src !! (s - 3)%nat; b2 ← src !! (s - 2)%nat; b1 ← src !! (s - 1)%nat;
      Some (Ok (s, Z.lor (Z.lor b3 (Z.shiftl b2 8)) (Z.shiftl b1 16)))
    else
      b4 ← src !! (s - 4)%nat; b3 ← src !! (s - 3)%nat;
      b2 ← src !! (s - 2)%nat; b1 ← src !! (s - 1)%nat;
      Some (Ok (s, le4 b4 b3 b2 b1)).

(** The bytes of a copy tag: position after them, length and offset. *)
Definition copy_header (wordSize : Z) (src : list Z) (s : nat) (tag : Z) :
    option (res Z (nat * Z * Z)) :=
  let n := if bool_decide (tag = tagCopy1) then 2%nat
           else if bool_decide (tag = tagCopy2) then 3%nat else 5%nat in
  let s := (s + n)%nat in
  if bool_decide (length src < s)%nat then Some (Err decodeErrCodeCorrupt)
  else if bool_decide (tag = tagCopy1) then
    b2 ← src !! (s - 2)%nat; b1 ← src !! (s - 1)%nat;
    Some (Ok (s, 4 + Z.land (Z.shiftr b2 2) 0x7,
              to_int wordSize (Z.lor (Z.shiftl (Z.land b2 0xe0) 3) b1)))
  else if bool_decide (tag = tagCopy2) then
    b3 ← src !! (s - 3)%nat; b2 ← src !! (s - 2)%nat; b1 ← src !! (s - 1)%nat;
    Some (Ok (s, 1 + Z.shiftr b3 2, to_int wordSize (Z.lor b2 (Z.shiftl b1 8))))
  else
    b5 ← src !! (s - 5)%nat; b4 ← src !! (s - 4)%nat; b3 ← src !! (s - 3)%nat;
    b2 ← src !! (s - 2)%nat; b1 ← src !! (s - 1)%nat;
    Some (Ok (s, 1 + Z.shiftr b5 2, to_int wordSize (le4 b4 b3 b2 b1))).

(** [for end := d + length; d != end; d++ { dst[d] = dst[d-offset] }] *)
Fixpoint forward_copy (length offset d : nat) (dst : list Z) : option (list Z) :=
  match length with
  | O => Some dst
  | S length =>
    b ← dst !! (d - offset)%nat; dst ← put d b dst; forward_copy length offset (S d) dst
  end.

Fixpoint decode_loop (wordSize : Z) (fuel : nat) (src dst : list Z) (d s : nat) :
    option (Z * list Z) :=
  if bool_decide (s < length src)%nat then
    match fuel with
    | O => None
    | S fuel =>
      c ← src !! s;
      let tag := Z.land c 0x03 in
      if bool_decide (tag = tagLiteral) then
        h ← literal_header src s (Z.shiftr c 2);
        match h with
        | Err code => Some (code, dst)
        | Ok (s, x) =>
          let len := to_int wordSize (to_int wordSize x + 1) in
          if bool_decide (len ≤ 0) then Some (decodeErrCodeUnsupportedLiteralLength, dst)
          else if bool_decide (Z.of_nat (length dst) - Z.of_nat d < len) ||
                  bool_decide (Z.of_nat (length src) - Z.of_nat s < len)
          then Some (decodeErrCodeCorrupt, dst)
          else
            tail ← slice d (length dst) dst;
            lit ← slice s (s + Z.to_nat len) src;
            decode_loop wordSize fuel src (take d dst ++ copy tail lit)
              (d + Z.to_nat len) (s + Z.to_nat len)
        end
      else
        h ← copy_header wordSize src s tag;
        match h with
        | Err code => Some (code, dst)
        | Ok (s, len, offset) =>
          if bool_decide (offset ≤ 0) || bool_decide (Z.of_nat d < offset) ||
             bool_decide (Z.of_nat (length dst) - Z.of_nat d < len)
          then Some (decodeErrCodeCorrupt, dst)
          else
            dst ← forward_copy (Z.to_nat len) (Z.to_nat offset) d dst;
            decode_loop wordSize fuel src dst (d + Z.to_nat len) s
        end
    end
  else Some (if bool_decide (d = length dst) then 0 else decodeErrCodeCorrupt, dst).

Definition decode (wordSize : Z) (dst src : list Z) : option (Z * list Z) :=
  decode_loop wordSize (length src) src dst 0 0.

Definition decodedLen (wordSize : Z) (src : list Z) : res snappy_error (Z * Z) :=
  let '(v, n) := Uvarint src in
  if bool_decide (n ≤ 0) || bool_decide (0xffffffff < v) then Err ErrCorrupt
  else if bool_decide (wordSize = 32) && bool_decide (0x7fffffff < v) then Err ErrTooLarge
  else Ok (to_int wordSize v, n).

Definition DecodedLen (wordSize : Z) (src : list Z) : res snappy_error Z :=
  match decodedLen wordSize src with Ok (v, _) => Ok v | Err e => Err e end.

(** [Decode]: what the caller's [dst] holds afterwards, and the result. *)
Definition Decode (wordSize : Z) (dst src : list Z) : option (list Z * res snappy_error (list Z)) :=
  match decodedLen wordSize src with
  | Err e => Some (dst, Err e)
  | Ok (dLen, s) =>
    let n := Z.to_nat dLen in
    let reuse := bool_decide (n ≤ length dst)%nat in
    let buf := if reuse then take n dst else replicate n 0 in
    src ← slice (Z.to_nat s) (length src) src;
    '(code, buf) ← decode wordSize buf src;
    let dst := if reuse then buf ++ drop n dst else dst in
    Some (dst, if bool_decide (code = 0) then Ok buf
               else if bool_decide (code = decodeErrCodeUnsupportedLiteralLength)
                    then Err ErrUnsupportedLiteralLength
               else Err ErrCorrupt)
  end.
