(* ===== verification/SnappyFormat.v ===== *)
(** * The snappy block format, and the decoder on it

    A block is a sequence of operations: a literal, or a copy of bytes already produced.
    [do_ops] is what they mean, [ops_bytes] how the encoder writes them, and
    [decode_ops] shows that the decoder computes the meaning.  [decode_total] is about
    arbitrary input. *)

From S2P Require Import Prelude Snappy.
Open Scope Z_scope.

Inductive op : Type :=
| Lit (l : list Z)
| Copy1 (offset len : nat)
| Copy2 (offset len : nat).

(** Bytes produced one at a time, so that a copy may overlap itself. *)
Fixpoint extend (offset n : nat) (out : list Z) : list Z :=
  match n with
  | O => out
  | S n => extend offset n (out ++ [default 0 (out !! (length out - offset)%nat)])
  end.

Definition op_valid (o : op) (out : list Z) : Prop :=
  match o with
  | Lit l => 1 ≤ Z.of_nat (length l) ≤ 65536
  | Copy1 offset len => (4 ≤ len ≤ 11 ∧ 1 ≤ offset ≤ length out)%nat ∧ Z.of_nat offset < 2048
  | Copy2 offset len => (1 ≤ len ≤ 64 ∧ 1 ≤ offset ≤ length out)%nat ∧ Z.of_nat offset < 65536
  end.

#[export] Instance op_valid_dec o out : Decision (op_valid o out).
Proof. destruct o; cbn; apply _. Defined.

Definition do_op (o : op) (out : list Z) : option (list Z) :=
  if decide (op_valid o out) then
    Some match o with
         | Lit l => out ++ l
         | Copy1 offset len | Copy2 offset len => extend offset len out
         end
  else None.

Fixpoint do_ops (ops : list op) (out : list Z) : option (list Z) :=
  match ops with
  | [] => Some out
  | o :: ops' => do_op o out ≫= do_ops ops'
  end.

Definition lit_header (n : Z) : list Z :=
  if bool_decide (n < 60) then [n * 4]
  else if bool_decide (n < 256) then [240; n] else [244; n mod 256; n / 256].

Definition op_bytes (o : op) : list Z :=
  match o with
  | Lit l => lit_header (Z.of_nat (length l) - 1) ++ l
  | Copy1 offset len =>
    let off := Z.of_nat offset in
    [off / 256 * 32 + (Z.of_nat len - 4) * 4 + 1; off mod 256]
  | Copy2 offset len =>
    let off := Z.of_nat offset in
    [(Z.of_nat len - 1) * 4 + 2; off mod 256; off / 256]
  end.

Definition ops_bytes (ops : list op) : list Z := concat (op_bytes <$> ops).

Lemma do_ops_app a b out : do_ops (a ++ b) out = do_ops a out ≫= do_ops b.
Proof. revert out. induction a as [|o a IH]; intros out; cbn; [done|]. by destruct (do_op o out); cbn. Qed.

Lemma ops_bytes_app a b : ops_bytes (a ++ b) = ops_bytes a ++ ops_bytes b.
Proof. unfold ops_bytes. by rewrite fmap_app, concat_app. Qed.

Lemma length_lit_header n : (1 ≤ length (lit_header n) ≤ 3)%nat.
Proof. unfold lit_header. repeat case_bool_decide; cbn; lia. Qed.

Lemma length_op_bytes o : (1 ≤ length (op_bytes o))%nat.
Proof.
  destruct o as [l| |]; cbn; [|lia..]. rewrite length_app.
  pose proof (length_lit_header (Z.of_nat (length l) - 1)). lia.
Qed.

Lemma length_extend offset n out : length (extend offset n out) = (length out + n)%nat.
Proof. revert out. induction n as [|n IH]; intros out; cbn; [lia|]. rewrite IH, length_app. cbn. lia. Qed.

Lemma extend_add offset a b out : extend offset (a + b) out = extend offset b (extend offset a out).
Proof. revert out. induction a as [|a IH]; intros out; cbn; [done|]. apply IH. Qed.

Lemma take_extend offset n out : take (length out) (extend offset n out) = out.
Proof.
  revert out. induction n as [|n IH]; intros out; cbn; [by rewrite take_ge|].
  specialize (IH (out ++ [default 0 (out !! (length out - offset)%nat)])).
  apply (f_equal (take (length out))) in IH.
  rewrite take_take, length_app, Nat.min_l in IH by (cbn; lia). rewrite IH.
  apply take_app_length.
Qed.

(** Copying from an earlier place of [src] continues a prefix of [src]. *)
Lemma extend_prefix src hist b c n :
  (c < b)%nat → (b + n ≤ length src)%nat →
  (∀ k, (k < n)%nat → src !! (c + k)%nat = src !! (b + k)%nat) →
  extend (b - c) n (hist ++ take b src) = hist ++ take (b + n) src.
Proof.
  intros Hc. revert b c Hc. induction n as [|n IH]; intros b c Hc Hb Hm; cbn.
  { by rewrite Nat.add_0_r. }
  destruct (lookup_lt_is_Some_2 src b ltac:(lia)) as [x Hx].
  assert ((hist ++ take b src) !! (length (hist ++ take b src) - (b - c))%nat = Some x) as ->.
  { rewrite length_app, length_take, lookup_app_r by lia.
    replace (_ - _)%nat with c by lia. rewrite lookup_take_lt by lia.
    specialize (Hm 0%nat ltac:(lia)). by rewrite !Nat.add_0_r, Hx in Hm. }
  cbn. rewrite <-app_assoc, <-(take_S_r _ _ x) by done.
  replace (b - c)%nat with (S b - S c)%nat by lia. rewrite IH; [f_equal; f_equal; lia|lia|lia|].
  intros k Hk. specialize (Hm (S k) ltac:(lia)).
  replace (S c + k)%nat with (c + S k)%nat by lia. by replace (S b + k)%nat with (b + S k)%nat by lia.
Qed.

(** ** Bit operations on bytes *)
Definition is_byte (b : Z) : Prop := 0 ≤ b < 256.

Lemma lor_shiftl_add a b k : 0 ≤ k → 0 ≤ a < 2 ^ k → Z.lor a (Z.shiftl b k) = a + b * 2 ^ k.
Proof.
  intros Hk Ha. rewrite <-Z.shiftl_mul_pow2 by done.
  assert (Z.land a (Z.shiftl b k) = 0) as Hz.
  { apply Z.bits_inj'. intros n Hn. rewrite Z.land_spec, Z.shiftl_spec, Z.bits_0 by done.
    destruct (decide (n < k)); [rewrite (Z.testbit_neg_r b) by lia; apply andb_false_r|].
    rewrite <-(Z.mod_small a (2 ^ k)) by done. rewrite Z.mod_pow2_bits_high by lia. done. }
  by rewrite Z.add_nocarry_lxor, Z.lxor_lor.
Qed.

Lemma le4_value b0 b1 b2 b3 :
  is_byte b0 → is_byte b1 → is_byte b2 → is_byte b3 →
  le4 b0 b1 b2 b3 = b0 + b1 * 2 ^ 8 + b2 * 2 ^ 16 + b3 * 2 ^ 24.
Proof.
  unfold is_byte, le4. intros. rewrite (lor_shiftl_add b0 b1), (lor_shiftl_add _ b2), (lor_shiftl_add _ b3) by lia.
  done.
Qed.

Lemma land_3 c : Z.land c 0x03 = c mod 4.
Proof. change 3 with (Z.ones 2). by rewrite Z.land_ones. Qed.

Lemma land_7 c : Z.land c 0x7 = c mod 8.
Proof. change 7 with (Z.ones 3). by rewrite Z.land_ones. Qed.

Lemma shiftr_div c k : 0 ≤ k → Z.shiftr c k = c / 2 ^ k.
Proof. apply Z.shiftr_div_pow2. Qed.

(** A statement about bytes holds when it holds of each of them. *)
Lemma byte_forall (f : Z → bool) : forallb f (seqZ 0 256) = true → ∀ b, is_byte b → f b = true.
Proof.
  intros Hf b Hb. rewrite forallb_forall in Hf. apply Hf. apply list_elem_of_In, elem_of_seqZ.
  unfold is_byte in Hb. lia.
Qed.

Lemma land_e0 b : is_byte b → Z.shiftl (Z.land b 0xe0) 3 = Z.shiftl (b / 32) 8.
Proof. intros Hb. apply Z.eqb_eq. revert b Hb. apply byte_forall. vm_compute. reflexivity. Qed.

Lemma to_int_id W z : W = 32 ∨ W = 64 → 0 ≤ z < 2 ^ 31 → to_int W z = z.
Proof.
  intros HW Hz. unfold to_int. destruct HW as [-> | ->].
  - rewrite Z.mod_small; lia.
  - rewrite Z.mod_small; lia.
Qed.

(** ** The decoder on encoded operations *)
Section decoding.
Context (W : Z) (HW : W = 32 ∨ W = 64).

Lemma forward_copy_extend n offset d out dst :
  length out = d → take d dst = out → (1 ≤ offset ≤ d)%nat → (d + n ≤ length dst)%nat →
  ∃ dst', forward_copy n offset d dst = Some dst' ∧ length dst' = length dst ∧
    take (d + n) dst' = extend offset n out.
Proof.
  revert d out dst. induction n as [|n IH]; intros d out dst Hd Ht Ho Hlen; cbn.
  { eexists. rewrite Nat.add_0_r. done. }
  destruct (lookup_lt_is_Some_2 dst (d - offset) ltac:(lia)) as [x Hx].
  assert (out !! (d - offset)%nat = Some x) as Hxo by (rewrite <-Ht, lookup_take_lt by lia; done).
  rewrite Hx. cbn. unfold put. rewrite bool_decide_eq_true_2 by lia. cbn.
  destruct (IH (S d) (out ++ [x]) (<[d:=x]> dst)) as (dst' & -> & Hl & Ht').
  - rewrite length_app. cbn. lia.
  - rewrite (take_S_r _ _ x) by (apply list_lookup_insert_eq; lia).
    by rewrite take_insert_ge, Ht by lia.
  - lia.
  - rewrite length_insert. lia.
  - eexists. split; [done|]. rewrite length_insert in Hl. split; [done|].
    rewrite Hd, Hxo. cbn. rewrite <-Ht'. f_equal. lia.
Qed.

Lemma write_at d (lit dst : list Z) :
  (d + length lit ≤ length dst)%nat →
  ∃ tail, slice d (length dst) dst = Some tail ∧
    length (take d dst ++ copy tail lit) = length dst ∧
    take (d + length lit) (take d dst ++ copy tail lit) = take d dst ++ lit ∧
    take d dst ++ copy tail lit = take d dst ++ lit ++ drop (d + length lit) dst.
Proof.
  intros Hl. rewrite slice_Some by lia. eexists. split; [done|].
  rewrite (take_ge (drop d dst)) by (rewrite length_drop; lia). unfold copy.
  rewrite (take_ge lit) by (rewrite length_drop; lia). rewrite drop_drop.
  split; [rewrite !length_app, length_take, length_drop; lia|]. split; [|done].
  rewrite app_assoc. apply take_app_length'. rewrite length_app, length_take. lia.
Qed.

(** One round of the loop on one operation. *)
Definition decodes_op (o : op) : Prop :=
  ∀ fuel pre rest dst out out',
    take (length out) dst = out → do_op o out = Some out' → (length out' ≤ length dst)%nat →
    ∃ dst', decode_loop W (S fuel) (pre ++ op_bytes o ++ rest) dst (length out) (length pre) =
            decode_loop W fuel (pre ++ op_bytes o ++ rest) dst' (length out')
              (length pre + length (op_bytes o)) ∧
      take (length out') dst' = out' ∧ length dst' = length dst.

Lemma lookup_pre (pre l rest : list Z) i :
  (i < length l)%nat → (pre ++ l ++ rest) !! (length pre + i)%nat = l !! i.
Proof. intros Hi. rewrite lookup_app_r by lia. rewrite lookup_app_l by lia. f_equal. lia. Qed.

Lemma slice_mid (pre l rest : list Z) n :
  length l = n → slice (length pre) (length pre + n) (pre ++ l ++ rest) = Some l.
Proof.
  intros <-. rewrite slice_Some by (rewrite !length_app; lia).
  rewrite drop_app_length. replace (_ - _)%nat with (length l) by lia. by rewrite take_app_length.
Qed.

Lemma literal_header_spec pre n rest :
  0 ≤ n < 65536 →
  ∃ c, (pre ++ lit_header n ++ rest) !! length pre = Some c ∧ Z.land c 0x03 = tagLiteral ∧
    literal_header (pre ++ lit_header n ++ rest) (length pre) (Z.shiftr c 2) =
      Some (Ok ((length pre + length (lit_header n))%nat, n)).
Proof.
  intros Hn. pose proof (lookup_pre pre (lit_header n) rest) as Hlk.
  revert Hlk. unfold lit_header. case_bool_decide as H60; [|case_bool_decide as H256]; intros Hlk.
  - exists (n * 4). specialize (Hlk 0%nat). rewrite Nat.add_0_r in Hlk. rewrite Hlk by (cbn; lia).
    rewrite land_3, Z.mod_mul, shiftr_div by lia. change (2 ^ 2) with 4. rewrite Z.div_mul by lia.
    split; [done|]. split; [done|]. unfold literal_header. rewrite bool_decide_eq_true_2 by done.
    cbn. do 3 f_equal. lia.
  - exists 240. pose proof (Hlk 0%nat) as H0. rewrite Nat.add_0_r in H0. rewrite H0 by (cbn; lia).
    split; [done|]. split; [done|]. unfold literal_header. change (Z.shiftr 240 2) with 60.
    assert (length pre + 2 ≤ length (pre ++ [240; n]%Z ++ rest))%nat by (rewrite !length_app; cbn; lia).
    set (src := pre ++ [240; n] ++ rest) in *. change (Z.to_nat (60 - 58)) with 2%nat.
    rewrite !bool_decide_eq_false_2, bool_decide_eq_true_2 by lia.
    replace (length pre + 2 - 1)%nat with (length pre + 1)%nat by lia.
    rewrite Hlk by (cbn; lia). done.
  - exists 244. pose proof (Hlk 0%nat) as H0. rewrite Nat.add_0_r in H0. rewrite H0 by (cbn; lia).
    split; [done|]. split; [done|]. unfold literal_header. change (Z.shiftr 244 2) with 61.
    assert (length pre + 3 ≤ length (pre ++ [244; n mod 256; n / 256]%Z ++ rest))%nat
      by (rewrite !length_app; cbn; lia).
    set (src := pre ++ [244; n mod 256; n / 256] ++ rest) in *. change (Z.to_nat (61 - 58)) with 3%nat.
    rewrite !bool_decide_eq_false_2, bool_decide_eq_true_2 by lia.
    replace (length pre + 3 - 2)%nat with (length pre + 1)%nat by lia.
    replace (length pre + 3 - 1)%nat with (length pre + 2)%nat by lia.
    rewrite !Hlk by (cbn; lia). cbn. rewrite lor_shiftl_add by zlia. do 3 f_equal. zlia.
Qed.

Lemma decodes_Lit l : decodes_op (Lit l).
Proof.
  intros fuel pre rest dst out out' Ht Hdo Hlen. unfold do_op in Hdo. case_decide as Hv; [|done].
  injection Hdo as <-. cbn [op_bytes op_valid] in *. rewrite !length_app in *. set (n := Z.of_nat (length l) - 1).
  destruct (literal_header_spec pre n (l ++ rest) ltac:(lia)) as (c & Hc & Htag & Hh).
  rewrite <-!app_assoc. set (src := pre ++ lit_header n ++ l ++ rest) in *.
  assert (length src = length pre + length (lit_header n) + length l + length rest)%nat as Hls
    by (unfold src; rewrite !length_app; lia).
  pose proof (length_lit_header n).
  assert (slice (length pre + length (lit_header n)) (length pre + length (lit_header n) + length l) src
    = Some l) as Hsl.
  { unfold src. rewrite app_assoc, <-length_app. by apply slice_mid. }
  clearbody src.
  cbn [decode_loop]. rewrite bool_decide_eq_true_2 by lia.
  rewrite Hc. cbn [mbind option_bind]. rewrite Htag, bool_decide_eq_true_2, Hh by done.
  cbn [mbind option_bind]. rewrite (to_int_id W n), (to_int_id W (n + 1)) by (done || lia).
  replace (n + 1) with (Z.of_nat (length l)) by lia. rewrite Nat2Z.id.
  rewrite bool_decide_eq_false_2 by lia.
  rewrite !bool_decide_eq_false_2 by lia. cbn [orb].
  destruct (write_at (length out) l dst Hlen) as (tail & -> & Hl1 & Hl2 & _). cbn [mbind option_bind].
  rewrite Hsl. cbn [mbind option_bind]. eexists. rewrite Nat.add_assoc. split; [done|].
  split; [by rewrite Hl2, Ht|done].
Qed.

Lemma copy_header1_spec pre offset len rest :
  (4 ≤ len ≤ 11)%nat → 1 ≤ Z.of_nat offset < 2048 →
  let src := pre ++ op_bytes (Copy1 offset len) ++ rest in
  ∃ c, src !! length pre = Some c ∧ Z.land c 0x03 = tagCopy1 ∧
    copy_header W src (length pre) tagCopy1 =
      Some (Ok ((length pre + 2)%nat, Z.of_nat len, Z.of_nat offset)).
Proof.
  intros Hl Ho src. pose proof (lookup_pre pre (op_bytes (Copy1 offset len)) rest) as Hlk. fold src in Hlk.
  assert (length pre + 2 ≤ length src)%nat by (unfold src; rewrite !length_app; cbn; lia).
  clearbody src. cbn [op_bytes] in Hlk. set (off := Z.of_nat offset) in *.
  set (c := off / 256 * 32 + (Z.of_nat len - 4) * 4 + 1) in *.
  pose proof (Hlk 0%nat) as H0. pose proof (Hlk 1%nat) as H1. rewrite Nat.add_0_r in H0.
  exists c. rewrite H0 by (cbn; lia). split; [done|]. rewrite land_3.
  split; [unfold c, tagCopy1; zlia|]. unfold copy_header. cbn zeta.
  rewrite (bool_decide_eq_true_2 (tagCopy1 = tagCopy1)) by done. cbv iota. rewrite bool_decide_eq_false_2 by lia.
  replace (length pre + 2 - 2)%nat with (length pre) by lia.
  replace (length pre + 2 - 1)%nat with (length pre + 1)%nat by lia.
  rewrite H0, H1 by (cbn; lia). cbn [mbind option_bind lookup list_lookup].
  rewrite land_7, shiftr_div by lia. rewrite land_e0 by (unfold is_byte, c; zlia).
  rewrite Z.lor_comm, lor_shiftl_add by zlia.
  assert (c / 32 = off / 256) as -> by (unfold c; zlia).
  rewrite to_int_id by (done || zlia). do 3 f_equal; [f_equal|]; unfold c; zlia.
Qed.

Lemma copy_header2_spec pre offset len rest :
  (1 ≤ len ≤ 64)%nat → 1 ≤ Z.of_nat offset < 65536 →
  let src := pre ++ op_bytes (Copy2 offset len) ++ rest in
  ∃ c, src !! length pre = Some c ∧ Z.land c 0x03 = tagCopy2 ∧
    copy_header W src (length pre) tagCopy2 =
      Some (Ok ((length pre + 3)%nat, Z.of_nat len, Z.of_nat offset)).
Proof.
  intros Hl Ho src. pose proof (lookup_pre pre (op_bytes (Copy2 offset len)) rest) as Hlk. fold src in Hlk.
  assert (length pre + 3 ≤ length src)%nat by (unfold src; rewrite !length_app; cbn; lia).
  clearbody src. cbn [op_bytes] in Hlk. set (off := Z.of_nat offset) in *.
  set (c := (Z.of_nat len - 1) * 4 + 2) in *.
  pose proof (Hlk 0%nat) as H0. pose proof (Hlk 1%nat) as H1. pose proof (Hlk 2%nat) as H2.
  rewrite Nat.add_0_r in H0.
  exists c. rewrite H0 by (cbn; lia). split; [done|]. rewrite land_3.
  split; [unfold c, tagCopy2; zlia|]. unfold copy_header. cbn zeta.
  rewrite (bool_decide_eq_false_2 (tagCopy2 = tagCopy1)) by done.
  rewrite (bool_decide_eq_true_2 (tagCopy2 = tagCopy2)) by done. cbv iota. rewrite bool_decide_eq_false_2 by lia.
  replace (length pre + 3 - 3)%nat with (length pre) by lia.
  replace (length pre + 3 - 2)%nat with (length pre + 1)%nat by lia.
  replace (length pre + 3 - 1)%nat with (length pre + 2)%nat by lia.
  rewrite H0, H1, H2 by (cbn; lia). cbn [mbind option_bind lookup list_lookup].
  rewrite shiftr_div by lia. rewrite lor_shiftl_add by zlia.
  rewrite to_int_id by (done || zlia). do 3 f_equal; [f_equal|]; unfold c; zlia.
Qed.

(** What a round does with the header of a copy. *)
Lemma decode_copy_round fuel src dst d s c tag s' len offset out :
  (s < length src)%nat → src !! s = Some c → Z.land c 0x03 = tag → tag ≠ tagLiteral →
  copy_header W src s tag = Some (Ok (s', Z.of_nat len, Z.of_nat offset)) →
  length out = d → take d dst = out → (1 ≤ offset ≤ d)%nat → (d + len ≤ length dst)%nat →
  ∃ dst', decode_loop W (S fuel) src dst d s = decode_loop W fuel src dst' (d + len) s' ∧
    take (d + len) dst' = extend offset len out ∧ length dst' = length dst.
Proof.
  intros Hs Hc Htag Hne Hh Hd Ht Ho Hl. cbn [decode_loop]. rewrite bool_decide_eq_true_2, Hc by done.
  cbn [mbind option_bind]. rewrite Htag, bool_decide_eq_false_2, Hh by done. cbn [mbind option_bind].
  rewrite !bool_decide_eq_false_2 by lia. cbn [orb]. rewrite !Nat2Z.id.
  destruct (forward_copy_extend len offset d out dst Hd Ht Ho Hl) as (dst' & -> & ? & ?).
  cbn [mbind option_bind]. eauto.
Qed.

Lemma decodes_op_all o : decodes_op o.
Proof.
  destruct o as [l|offset len|offset len]; [apply decodes_Lit| |];
    intros fuel pre rest dst out out' Ht Hdo Hlen; unfold do_op in Hdo; (case_decide as Hv; [|done]);
    injection Hdo as <-; cbn [op_valid] in Hv; rewrite length_extend in *.
  - destruct (copy_header1_spec pre offset len rest) as (c & Hc & Htag & Hh); [lia..|].
    eapply decode_copy_round; try done; [|lia]. rewrite !length_app. cbn. lia.
  - destruct (copy_header2_spec pre offset len rest) as (c & Hc & Htag & Hh); [lia..|].
    eapply decode_copy_round; try done; [|lia]. rewrite !length_app. cbn. lia.
Qed.

Lemma do_op_length o out out' : do_op o out = Some out' → (length out ≤ length out')%nat.
Proof.
  unfold do_op. case_decide; [|done]. intros [= <-].
  destruct o; rewrite ?length_app, ?length_extend; lia.
Qed.

Lemma do_ops_length ops out out' : do_ops ops out = Some out' → (length out ≤ length out')%nat.
Proof.
  revert out. induction ops as [|o ops IH]; intros out; cbn; [by intros [= ->]|].
  intros (o1 & H1%do_op_length & H2%IH)%bind_Some. lia.
Qed.

Lemma length_ops_bytes ops : (length ops ≤ length (ops_bytes ops))%nat.
Proof.
  induction ops as [|o ops IH]; [done|]. change (ops_bytes (o :: ops)) with (op_bytes o ++ ops_bytes ops).
  rewrite length_app. pose proof (length_op_bytes o). cbn. lia.
Qed.

(** The decoder computes the meaning of the operations. *)
Lemma decode_ops ops fuel pre dst out out' :
  take (length out) dst = out → do_ops ops out = Some out' → length out' = length dst →
  (length ops ≤ fuel)%nat →
  decode_loop W fuel (pre ++ ops_bytes ops) dst (length out) (length pre) = Some (0, out').
Proof.
  revert fuel pre dst out. induction ops as [|o ops IH]; intros fuel pre dst out Ht Hdo Hlen Hf.
  - injection Hdo as ->. unfold ops_bytes. cbn. rewrite app_nil_r.
    rewrite (take_ge dst) in Ht by lia. subst dst.
    destruct fuel; cbn; rewrite bool_decide_eq_false_2, bool_decide_eq_true_2 by lia; done.
  - cbn in Hdo. apply bind_Some in Hdo as (o1 & H1 & H2). cbn in Hf. destruct fuel as [|fuel]; [lia|].
    pose proof (do_ops_length _ _ _ H2).
    change (ops_bytes (o :: ops)) with (op_bytes o ++ ops_bytes ops).
    destruct (decodes_op_all o fuel pre (ops_bytes ops) dst out o1 Ht H1 ltac:(lia)) as (dst' & -> & Ht' & Hl').
    rewrite app_assoc, <-length_app. apply IH; (done || lia).
Qed.

(** ** The decoder on arbitrary input *)
Lemma lookup_in (src : list Z) i : (i < length src)%nat → ∃ b, src !! i = Some b.
Proof. intros Hi. destruct (lookup_lt_is_Some_2 src i Hi); eauto. Qed.

Ltac next_byte :=
  match goal with
  | |- context [(?src !! ?i) ≫= _] =>
    let b := fresh "b" in let Hb := fresh "Hb" in
    destruct (lookup_in src i ltac:(lia)) as [b Hb]; rewrite Hb; cbn [mbind option_bind]
  end.

Lemma literal_header_total src s x :
  (s < length src)%nat → 0 ≤ x ≤ 63 →
  ∃ r, literal_header src s x = Some r ∧
    match r with
    | Ok (s', _) => (s < s' ≤ length src)%nat
    | Err code => code = decodeErrCodeCorrupt
    end.
Proof.
  intros Hs Hx. unfold literal_header. case_bool_decide; [eexists; split; [done|]; cbn; lia|].
  cbn zeta. case_bool_decide; [by eexists|].
  repeat case_bool_decide; repeat next_byte; (eexists; split; [done|]; cbn; lia).
Qed.

Lemma copy_header_total src s tag :
  (s < length src)%nat → Forall is_byte src →
  ∃ r, copy_header W src s tag = Some r ∧
    match r with
    | Ok (s', len, _) => (s < s' ≤ length src)%nat ∧ 0 ≤ len
    | Err code => code = decodeErrCodeCorrupt
    end.
Proof.
  intros Hs Hb. unfold copy_header. cbn zeta.
  destruct (bool_decide (tag = tagCopy1)); [|destruct (bool_decide (tag = tagCopy2))];
    (case_bool_decide; [by eexists|]); repeat next_byte;
    (eexists; split; [done|]; cbn; split; [lia|]).
  - rewrite land_7. zlia.
  - rewrite shiftr_div by lia. eapply Forall_lookup_1 in Hb0; [|done]. unfold is_byte in Hb0. zlia.
  - rewrite shiftr_div by lia. eapply Forall_lookup_1 in Hb0; [|done]. unfold is_byte in Hb0. zlia.
Qed.

Lemma decode_loop_total fuel src dst d s :
  Forall is_byte src → (d ≤ length dst)%nat → (length src - s ≤ fuel)%nat →
  ∃ code dst', decode_loop W fuel src dst d s = Some (code, dst') ∧ length dst' = length dst.
Proof.
  intros Hb. revert dst d s. induction fuel as [|fuel IH]; intros dst d s Hd Hf; cbn [decode_loop].
  { rewrite bool_decide_eq_false_2 by lia. by eexists _, _. }
  case_bool_decide as Hs; [|by eexists _, _].
  destruct (lookup_in src s Hs) as [c Hc]. rewrite Hc. cbn [mbind option_bind].
  assert (is_byte c) as Hcb by (by eapply Forall_lookup_1 in Hc).
  case_bool_decide as Htag.
  - destruct (literal_header_total src s (Z.shiftr c 2) Hs) as ([[s' x]|code] & -> & Hr).
    { rewrite shiftr_div by lia. unfold is_byte in Hcb. zlia. }
    2:{ cbn. by eexists _, _. }
    cbn [mbind option_bind]. set (len := to_int W _). case_bool_decide; [by eexists _, _|].
    case_bool_decide; [by eexists _, _|]. case_bool_decide; [by eexists _, _|]. cbn [orb].
    destruct (slice_some s' (s' + Z.to_nat len) src) as (lit & Hlit & Hll); [lia|].
    destruct (write_at d lit dst) as (tail & -> & Hl & _); [lia|]. cbn [mbind option_bind].
    rewrite Hlit. cbn [mbind option_bind].
    destruct (IH (take d dst ++ copy tail lit) (d + Z.to_nat len)%nat (s' + Z.to_nat len)%nat)
      as (code & dst' & -> & Hl'); [lia..|]. eexists _, _. split; [done|]. lia.
  - destruct (copy_header_total src s (Z.land c 3) Hs Hb) as ([[[s' len] off]|code] & -> & Hr).
    2:{ cbn. by eexists _, _. }
    cbn [mbind option_bind]. repeat (case_bool_decide; [by eexists _, _|]). cbn [orb].
    destruct (forward_copy_extend (Z.to_nat len) (Z.to_nat off) d (take d dst) dst)
      as (dst1 & -> & Hl & _); [rewrite length_take; lia|done|lia|lia|]. cbn [mbind option_bind].
    destruct (IH dst1 (d + Z.to_nat len)%nat s') as (code & dst' & -> & Hl'); [lia..|].
    eexists _, _. split; [done|]. lia.
Qed.

Lemma uvarint_from_bound buf i x shift v n :
  0 ≤ x → uvarint_from i x shift buf = (v, n) → 0 ≤ v ∧ n ≤ Z.of_nat i + Z.of_nat (length buf).
Proof.
  revert i x shift. induction buf as [|b buf IH]; intros i x shift Hx; cbn [uvarint_from].
  { intros [= <- <-]. lia. }
  assert (∀ z, 0 ≤ Z.lor x (u64 z)) as Hlor
    by (intros z; apply Z.lor_nonneg; split; [done|]; unfold u64; zlia).
  case_bool_decide; [|intros [? ?]%IH; [cbn; lia|apply Hlor]].
  destruct (_ || _); intros [= <- <-]; cbn [length]; split; try apply Hlor; lia.
Qed.

(** [C36] Decoding untrusted input is safe: for every input and every destination buffer
    [Decode] returns without an access out of range, with an error or with a block of
    the length its header announces, and the caller's buffer keeps its length. *)
Theorem Decode_total dst src :
  Forall is_byte src →
  ∃ dst' r, Decode W dst src = Some (dst', r) ∧ length dst' = length dst ∧
    match r with
    | Ok out => DecodedLen W src = Ok (Z.of_nat (length out))
    | Err _ => True
    end.
Proof.
  intros Hb. unfold Decode, DecodedLen, decodedLen. destruct (Uvarint src) as [v n] eqn:Hu.
  apply uvarint_from_bound in Hu as [Hv Hn]; [|done].
  case_bool_decide as Hn0; [by eexists _, _|]. case_bool_decide as Hv0; [by eexists _, _|]. cbn [orb].
  destruct (bool_decide (W = 32) && bool_decide (0x7fffffff < v)) eqn:H32; [by eexists _, _|].
  assert (to_int W v = v) as ->.
  { destruct HW as [HW' | HW']; [apply to_int_id; [done|]|rewrite HW'; unfold to_int; rewrite Z.mod_small; lia].
    rewrite HW' in H32. cbn in H32. apply bool_decide_eq_false in H32. lia. }
  clear H32. cbv beta iota zeta.
  set (buf := if bool_decide (Z.to_nat v ≤ length dst)%nat then take (Z.to_nat v) dst
              else replicate (Z.to_nat v) 0). assert (length buf = Z.to_nat v) as Hlb.
  { unfold buf. case_bool_decide; [rewrite length_take; lia|apply length_replicate]. }
  destruct (slice_some (Z.to_nat n) (length src) src) as (src' & Hs & Hls); [lia|].
  rewrite Hs. cbn [mbind option_bind]. unfold decode.
  destruct (decode_loop_total (length src') src' buf 0 0) as (code & buf' & -> & Hlen); [|lia..|].
  { unfold slice in Hs. case_bool_decide; [|done]. simplify_eq. by apply Forall_take, Forall_drop. }
  cbn [mbind option_bind]. eexists _, _. split; [done|]. split.
  - case_bool_decide; [|done]. rewrite length_app, length_drop. lia.
  - repeat case_bool_decide; try done. f_equal. lia.
Qed.
End decoding.

Lemma Decode_total_witness : ∃ dst' r, Decode 32 [7; 7; 7] [200; 1; 255; 254] = Some (dst', r) ∧
  length dst' = 3%nat ∧ ∀ out, r ≠ Ok out.
Proof.
  destruct (Decode_total 32 ltac:(by left) [7; 7; 7] [200; 1; 255; 254]) as (dst' & r & H1 & H2 & H3).
  { repeat constructor; unfold is_byte; lia. }
  exists dst', r. split; [done|]. split; [done|]. intros out ->. vm_compute in H1. discriminate H1.
Defined.
