(* ===== verification/SnappyRoundtrip.v ===== *)
(** * The snappy encoder writes the block format

    Every call of [emitLiteral] and [emitCopy] writes operations of [SnappyFormat];
    the loops of [encodeBlock] keep that the operations written so far mean the input
    consumed so far.  The theorems are the round trip and the bound on the length. *)

From S2P Require Import Prelude Snappy SnappyFormat.
Open Scope Z_scope.

(** A buffer whose first bytes are [bs], the rest as in [dst]. *)
Definition filled (bs dst : list Z) : list Z := bs ++ drop (length bs) dst.

Lemma length_filled bs dst : (length bs ≤ length dst)%nat → length (filled bs dst) = length dst.
Proof. intros. unfold filled. rewrite length_app, length_drop. lia. Qed.

Lemma put_filled i bs b dst :
  i = length bs → (length bs < length dst)%nat →
  put i b (filled bs dst) = Some (filled (bs ++ [b]) dst).
Proof.
  intros -> Hl. unfold put, filled. rewrite bool_decide_eq_true_2 by (rewrite length_app, length_drop; lia).
  f_equal. destruct (lookup_lt_is_Some_2 dst (length bs) Hl) as [x Hx].
  rewrite (drop_S _ _ _ Hx), length_app, Nat.add_1_r, <-app_assoc.
  rewrite insert_app_r_alt, Nat.sub_diag by lia. done.
Qed.

Lemma put_first b dst : (0 < length dst)%nat → put 0 b dst = Some (filled [b] dst).
Proof. intros Hl. by apply (put_filled 0 [] b dst). Qed.

Lemma at_offset_filled f bs bs' dst :
  (length bs ≤ length dst)%nat → f (drop (length bs) dst) = Some (filled bs' (drop (length bs) dst), length bs') →
  at_offset (length bs) f (filled bs dst) = Some (filled (bs ++ bs') dst, length (bs ++ bs')).
Proof.
  intros Hl Hf. unfold at_offset. rewrite length_filled by done.
  rewrite slice_Some by (rewrite length_filled; lia). cbn [mbind option_bind].
  assert (drop (length bs) (filled bs dst) = drop (length bs) dst) as -> by apply drop_app_length.
  rewrite (take_ge (drop (length bs) dst)) by (rewrite length_drop; lia).
  rewrite Hf. cbn [mbind option_bind]. unfold filled. rewrite take_app_length, length_app.
  by rewrite drop_drop, app_assoc.
Qed.

(** ** Literals *)
Lemma put_header n dst :
  0 ≤ n < 65536 → (length (lit_header n) ≤ length dst)%nat →
  (if bool_decide (n < 60) then
     dst ← put 0 (Z.lor (u8 (Z.shiftl (u8 n) 2)) tagLiteral) dst; Some (dst, 1%nat)
   else if bool_decide (n < Z.shiftl 1 8) then
     dst ← put 0 (Z.lor (Z.shiftl 60 2) tagLiteral) dst;
     dst ← put 1 (u8 n) dst; Some (dst, 2%nat)
   else
     dst ← put 0 (Z.lor (Z.shiftl 61 2) tagLiteral) dst;
     dst ← put 1 (u8 n) dst;
     dst ← put 2 (u8 (Z.shiftr n 8)) dst; Some (dst, 3%nat)) =
  Some (filled (lit_header n) dst, length (lit_header n)).
Proof.
  intros Hn. unfold lit_header. change (Z.shiftl 1 8) with 256.
  change (Z.shiftl 60 2) with 240. change (Z.shiftl 61 2) with 244. rewrite !Z.lor_0_r.
  rewrite Z.shiftl_mul_pow2, shiftr_div by lia. unfold u8.
  case_bool_decide; [|case_bool_decide]; cbn [length]; intros Hl;
    rewrite put_first by lia; cbn [mbind option_bind];
    repeat (rewrite put_filled by (done || cbn [length app]; lia); cbn [mbind option_bind app]).
  - by rewrite (Z.mod_small n), Z.mod_small by lia.
  - by rewrite (Z.mod_small n) by lia.
  - by rewrite (Z.mod_small (n / 2 ^ 8)) by zlia.
Qed.

Lemma emitLiteral_filled lit dst :
  1 ≤ Z.of_nat (length lit) ≤ 65536 → (length (op_bytes (Lit lit)) ≤ length dst)%nat →
  emitLiteral lit dst = Some (filled (op_bytes (Lit lit)) dst, length (op_bytes (Lit lit))).
Proof.
  intros Hl. cbn [op_bytes]. set (n := Z.of_nat (length lit) - 1). rewrite length_app. intros Hlen.
  unfold emitLiteral. replace (u64 (Z.of_nat (length lit) - 1)) with n by (unfold u64; zlia).
  rewrite put_header by lia. cbn [mbind option_bind].
  destruct (write_at (length (lit_header n)) lit (filled (lit_header n) dst)) as (tail & Hs & _ & _ & Hw).
  { rewrite length_filled by lia. lia. }
  pose proof Hs as Hs'. unfold slice in Hs'. rewrite bool_decide_eq_true_2 in Hs'
    by (rewrite length_filled by lia; lia). injection Hs' as Htail.
  rewrite Hs. cbn [mbind option_bind]. rewrite Hw. f_equal. f_equal.
  - unfold filled. rewrite take_app_length, drop_app_add, drop_drop, length_app, app_assoc. done.
  - rewrite <-Htail, length_take, length_drop, length_filled by lia. lia.
Qed.

(** ** Copies *)
Section copies.
Context (offset : nat) (Hoff : 1 ≤ Z.of_nat offset < 65536) (dst : list Z).

Lemma do_Copy2 len out :
  (1 ≤ len ≤ 64)%nat → (offset ≤ length out)%nat →
  do_ops [Copy2 offset len] out = Some (extend offset len out).
Proof. intros Hl Ho. cbn. unfold do_op. rewrite decide_True by (cbn; lia). done. Qed.

Lemma do_Copy1 len out :
  (4 ≤ len ≤ 11)%nat → Z.of_nat offset < 2048 → (offset ≤ length out)%nat →
  do_ops [Copy1 offset len] out = Some (extend offset len out).
Proof. intros Hl Ho Hlt. cbn. unfold do_op. rewrite decide_True by (cbn; lia). done. Qed.

(** [ops] mean copying [n] bytes. *)
Definition copies (ops : list op) (n : nat) : Prop :=
  ∀ out, (offset ≤ length out)%nat → do_ops ops out = Some (extend offset n out).

Lemma copies_app a b n m : copies a n → copies b m → copies (a ++ b) (n + m).
Proof.
  intros Ha Hb out Ho. rewrite do_ops_app, Ha by done. cbn.
  rewrite Hb by (rewrite length_extend; lia). by rewrite extend_add.
Qed.

Lemma put_copy2_filled bs len :
  (1 ≤ len ≤ 64)%nat → (length bs + 3 ≤ length dst)%nat →
  put_copy2 (length bs) (Z.of_nat len - 1) (Z.of_nat offset) (filled bs dst) =
    Some (filled (bs ++ op_bytes (Copy2 offset len)) dst).
Proof.
  intros Hl Hd. unfold put_copy2.
  rewrite put_filled by (rewrite ?length_app; cbn; lia). cbn [mbind option_bind].
  rewrite put_filled by (rewrite ?length_app; cbn; lia). cbn [mbind option_bind].
  rewrite put_filled by (rewrite ?length_app; cbn; lia). rewrite <-!app_assoc. cbn [op_bytes app].
  do 2 f_equal. f_equal. unfold u8. rewrite shiftr_div by lia.
  rewrite (Z.mod_small (Z.of_nat offset / 2 ^ 8)) by zlia. f_equal.
  rewrite Z.mod_small by (rewrite Z.shiftl_mul_pow2; lia).
  unfold tagCopy2. rewrite Z.lor_comm, lor_shiftl_add by lia. lia.
Qed.

Lemma put_copy1_filled bs len :
  (4 ≤ len ≤ 11)%nat → Z.of_nat offset < 2048 → (length bs + 2 ≤ length dst)%nat →
  (dst ← put (length bs + 0) (Z.lor (Z.lor (u8 (Z.shiftl (u8 (Z.shiftr (Z.of_nat offset) 8)) 5))
      (u8 (Z.shiftl (u8 (Z.of_nat len - 4)) 2))) tagCopy1) (filled bs dst);
   dst ← put (length bs + 1) (u8 (Z.of_nat offset)) dst; Some (dst, (length bs + 2)%nat)) =
  Some (filled (bs ++ op_bytes (Copy1 offset len)) dst, length (bs ++ op_bytes (Copy1 offset len))).
Proof.
  intros Hl Ho Hd.
  rewrite put_filled by (rewrite ?length_app; cbn; lia). cbn [mbind option_bind].
  rewrite put_filled by (rewrite ?length_app; cbn; lia). cbn [mbind option_bind].
  rewrite length_app. rewrite <-!app_assoc. cbn [op_bytes app length].
  do 2 f_equal. f_equal. f_equal. f_equal. unfold u8. rewrite shiftr_div by lia.
  rewrite (Z.mod_small (Z.of_nat offset / 2 ^ 8)) by zlia.
  rewrite (Z.mod_small (Z.of_nat len - 4)) by lia.
  rewrite !Z.mod_small by (rewrite Z.shiftl_mul_pow2 by lia; zlia).
  unfold tagCopy1. rewrite <-Z.lor_assoc, (Z.lor_comm (Z.shiftl _ 2)), lor_shiftl_add by lia.
  rewrite Z.lor_comm, lor_shiftl_add by lia. zlia.
Qed.

Lemma emit_copy64_filled fuel len bs :
  (4 ≤ len ≤ fuel)%nat → (length bs + len ≤ length dst + 1)%nat →
  ∃ ops len',
    emit_copy64 fuel (Z.of_nat offset) (Z.of_nat len) (length bs) (filled bs dst) =
      Some (filled (bs ++ ops_bytes ops) dst, length (bs ++ ops_bytes ops), Z.of_nat len') ∧
    (4 ≤ len' < 68)%nat ∧ (length (ops_bytes ops) + len' ≤ len)%nat ∧ copies ops (len - len').
Proof.
  revert len bs. induction fuel as [|fuel IH]; intros len bs Hl Hd; [lia|]. cbn [emit_copy64].
  case_bool_decide as H68.
  - change 63 with (Z.of_nat 64 - 1). rewrite put_copy2_filled by lia. cbn [mbind option_bind].
    replace (Z.of_nat len - 64) with (Z.of_nat (len - 64)) by lia.
    replace (length bs + 3)%nat with (length (bs ++ op_bytes (Copy2 offset 64)))
      by (rewrite length_app; cbn; lia).
    destruct (IH (len - 64)%nat (bs ++ op_bytes (Copy2 offset 64))) as (ops & len' & Heq & H1 & H2 & H3).
    { lia. } { rewrite length_app. cbn. lia. }
    exists (Copy2 offset 64 :: ops), len'.
    change (ops_bytes (Copy2 offset 64 :: ops)) with (op_bytes (Copy2 offset 64) ++ ops_bytes ops).
    rewrite app_assoc, Heq. split; [done|]. split; [lia|]. split; [rewrite length_app; cbn; lia|].
    replace (len - len')%nat with (64 + (len - 64 - len'))%nat by lia.
    apply (copies_app [_]); [|done]. intros out Ho. apply do_Copy2; lia.
  - exists [], len. unfold ops_bytes. cbn. rewrite app_nil_r. split; [done|]. split; [lia|].
    split; [lia|]. rewrite Nat.sub_diag. intros out _. done.
Qed.

(** The last one or two copies. *)
Lemma emit_rest_filled bs len :
  (4 ≤ len ≤ 64)%nat → (length bs + len ≤ length dst + 1)%nat →
  ∃ o, (if bool_decide (12 ≤ Z.of_nat len) || bool_decide (2048 ≤ Z.of_nat offset) then
      dst ← put_copy2 (length bs) (u8 (Z.of_nat len - 1)) (Z.of_nat offset) (filled bs dst);
      Some (dst, (length bs + 3)%nat)
    else
      dst ← put (length bs + 0) (Z.lor (Z.lor (u8 (Z.shiftl (u8 (Z.shiftr (Z.of_nat offset) 8)) 5))
        (u8 (Z.shiftl (u8 (Z.of_nat len - 4)) 2))) tagCopy1) (filled bs dst);
      dst ← put (length bs + 1) (u8 (Z.of_nat offset)) dst; Some (dst, (length bs + 2)%nat)) =
    Some (filled (bs ++ op_bytes o) dst, length (bs ++ op_bytes o)) ∧
    (length (op_bytes o) ≤ 3)%nat ∧ copies [o] len.
Proof.
  intros Hl Hd. destruct (_ || _) eqn:Hc.
  - exists (Copy2 offset len). unfold u8. rewrite Z.mod_small, put_copy2_filled by lia.
    rewrite length_app. cbn. split; [done|]. split; [lia|]. intros out Ho. apply do_Copy2; lia.
  - apply orb_false_iff in Hc as [H12%bool_decide_eq_false Ho%bool_decide_eq_false].
    exists (Copy1 offset len). split; [apply put_copy1_filled; lia|]. split; [cbn; lia|].
    intros out Hout. apply do_Copy1; lia.
Qed.

Lemma emitCopy_filled len :
  (4 ≤ len)%nat → (len ≤ length dst + 1)%nat →
  ∃ ops, emitCopy (Z.of_nat offset) (Z.of_nat len) dst =
      Some (filled (ops_bytes ops) dst, length (ops_bytes ops)) ∧
    (length (ops_bytes ops) < len)%nat ∧ copies ops len.
Proof.
  intros Hl Hd. unfold emitCopy. rewrite Nat2Z.id.
  destruct (emit_copy64_filled len len []) as (ops & len' & Heq & H1 & H2 & H3); [lia|cbn; lia|].
  change (filled [] dst) with dst in Heq. change (length []) with 0%nat in Heq. rewrite Heq.
  cbn [mbind option_bind app].
  destruct (bool_decide_reflect (64 < Z.of_nat len')) as [H64|H64].
  - change 59 with (Z.of_nat 60 - 1). rewrite put_copy2_filled by lia. cbn [mbind option_bind].
    set (bs := ops_bytes ops ++ op_bytes (Copy2 offset 60)).
    assert (length (ops_bytes ops) + 3 = length bs)%nat as Hbs by (unfold bs; rewrite length_app; cbn; lia).
    rewrite Hbs. replace (Z.of_nat len' - 60) with (Z.of_nat (len' - 60)) by lia.
    destruct (emit_rest_filled bs (len' - 60)) as (o & -> & Ho & Hc); [lia|lia|].
    exists (ops ++ [Copy2 offset 60] ++ [o]). rewrite !ops_bytes_app.
    assert (∀ o, ops_bytes [o] = op_bytes o) as Hone by (intros; unfold ops_bytes; cbn; by rewrite app_nil_r).
    rewrite !Hone, app_assoc. fold bs. split; [done|]. split; [rewrite length_app; lia|].
    replace len with ((len - len') + (60 + (len' - 60)))%nat by lia.
    apply copies_app; [done|]. apply copies_app; [|done]. intros out Hout. apply do_Copy2; lia.
  - cbn [mbind option_bind].
    destruct (emit_rest_filled (ops_bytes ops) len') as (o & -> & Ho & Hc); [lia|lia|].
    exists (ops ++ [o]). rewrite ops_bytes_app.
    assert (ops_bytes [o] = op_bytes o) as -> by (unfold ops_bytes; cbn; by rewrite app_nil_r).
    split; [done|]. split; [rewrite length_app; lia|].
    replace len with ((len - len') + len')%nat by lia. by apply copies_app.
Qed.
End copies.

(** ** Loads *)
Section loads.
Context (src : list Z) (Hsrc : Forall is_byte src).

Lemma slice_bytes i n :
  (i + n ≤ length src)%nat →
  ∃ l, slice i (i + n) src = Some l ∧ length l = n ∧ Forall is_byte l ∧
    ∀ k, (k < n)%nat → src !! (i + k)%nat = l !! k.
Proof.
  intros Hi. destruct (slice_some i (i + n) src) as (l & Hs & Hl); [lia|]. exists l.
  split; [done|]. split; [lia|]. rewrite slice_Some in Hs by lia. injection Hs as <-.
  split; [by apply Forall_take, Forall_drop|]. intros k Hk.
  rewrite lookup_take_lt, lookup_drop by lia. done.
Qed.

Lemma load32_spec i :
  (i + 4 ≤ length src)%nat →
  ∃ b0 b1 b2 b3, load32 src i = Some (b0 + b1 * 2 ^ 8 + b2 * 2 ^ 16 + b3 * 2 ^ 24) ∧
    Forall is_byte [b0; b1; b2; b3] ∧
    ∀ k, (k < 4)%nat → src !! (i + k)%nat = [b0; b1; b2; b3] !! k.
Proof.
  intros Hi. destruct (slice_bytes i 4 Hi) as (l & Hs & Hl & Hb & Hk).
  destruct l as [|b0 [|b1 [|b2 [|b3 [|]]]]]; try done. exists b0, b1, b2, b3.
  split; [|done]. unfold load32. rewrite Hs. cbn [mbind option_bind].
  decompose_Forall_hyps. by rewrite le4_value.
Qed.

(** Two equal loads are four equal bytes. *)
Lemma load32_inj i j v :
  (i + 4 ≤ length src)%nat → (j + 4 ≤ length src)%nat →
  load32 src i = Some v → load32 src j = Some v →
  ∀ k, (k < 4)%nat → src !! (i + k)%nat = src !! (j + k)%nat.
Proof.
  intros Hi Hj H1 H2 k Hk.
  destruct (load32_spec i Hi) as (a0 & a1 & a2 & a3 & Ha & Hab & Hak).
  destruct (load32_spec j Hj) as (b0 & b1 & b2 & b3 & Hb & Hbb & Hbk).
  rewrite Hak, Hbk by done. unfold is_byte in *. decompose_Forall_hyps.
  assert (a0 = b0 ∧ a1 = b1 ∧ a2 = b2 ∧ a3 = b3) as (-> & -> & -> & ->); [|done]. lia.
Qed.

(** The four bytes in the middle of an eight byte load. *)
Lemma load64_mid i :
  (i + 8 ≤ length src)%nat →
  ∃ x, load64 src i = Some x ∧ load32 src (i + 1) = Some (u32 (Z.shiftr x 8)).
Proof.
  intros Hi. destruct (slice_bytes i 8 Hi) as (l & Hs & Hl & Hb & Hk).
  destruct l as [|b0 [|b1 [|b2 [|b3 [|b4 [|b5 [|b6 [|b7 [|]]]]]]]]]; try done.
  unfold load64. rewrite Hs. cbn [mbind option_bind]. eexists. split; [done|].
  destruct (load32_spec (i + 1)) as (a1 & a2 & a3 & a4 & -> & _ & Hak); [lia|].
  assert (∀ k, (k < 4)%nat → [a1; a2; a3; a4] !! k = [b1; b2; b3; b4] !! k) as Heq.
  { intros k Hlt. rewrite <-Hak by done. replace (i + 1 + k)%nat with (i + S k)%nat by lia.
    rewrite Hk by lia. by destruct k as [|[|[|[|]]]]; [..|lia]. }
  pose proof (Heq 0%nat ltac:(lia)). pose proof (Heq 1%nat ltac:(lia)).
  pose proof (Heq 2%nat ltac:(lia)). pose proof (Heq 3%nat ltac:(lia)). simplify_eq/=. f_equal.
  unfold is_byte in *. decompose_Forall_hyps. unfold u32. rewrite shiftr_div by lia.
  rewrite le4_value by done.
  rewrite (lor_shiftl_add _ b4), (lor_shiftl_add _ b5), (lor_shiftl_add _ b6), (lor_shiftl_add _ b7) by lia.
  zlia.
Qed.
End loads.

(** ** One block *)
Section block.
Context (src : list Z) (shift : Z) (Hsrc : Forall is_byte src).
Context (Hlen : 17 ≤ Z.of_nat (length src) ≤ 65536).

(** The table holds positions before [s]. *)
Definition table_ok (table : gmap Z Z) (s : nat) : Prop :=
  ∀ h, 0 ≤ table_get table h < Z.of_nat s.

Lemma table_ok_set table s s' h v :
  table_ok table s → (s ≤ s')%nat → 0 ≤ v < Z.of_nat s' → v < 65536 → table_ok (table_set h v table) s'.
Proof.
  intros Ht Hs Hv Hu h'. specialize (Ht h'). unfold table_get, table_set in *.
  rewrite lookup_insert. case_decide; [|lia]. cbn. unfold u16. rewrite Z.mod_small; lia.
Qed.

Definition match4 (c s : nat) : Prop :=
  (c < s)%nat ∧ ∀ k, (k < 4)%nat → src !! (c + k)%nat = src !! (s + k)%nat.

Local Notation sLimit := (Z.of_nat (length src) - Z.of_nat inputMargin).

Lemma load32_some i : (i + 4 ≤ length src)%nat → ∃ x, load32 src i = Some x.
Proof. intros Hi. destruct (load32_spec src Hsrc i Hi) as (? & ? & ? & ? & ? & _). eauto. Qed.

Lemma find_match_spec fuel skip nextS nextHash table :
  32 ≤ skip → (1 ≤ nextS)%nat → (length src < fuel + nextS)%nat → (nextS ≤ length src)%nat →
  table_ok table nextS →
  ∃ r, find_match src shift fuel sLimit skip nextS nextHash table = Some r ∧
    match r with
    | None => True
    | Some (s, c, _, table') =>
      (nextS ≤ s)%nat ∧ Z.of_nat s < sLimit ∧ match4 c s ∧ table_ok table' (S s)
    end.
Proof.
  unfold inputMargin. revert skip nextS nextHash table.
  induction fuel as [|fuel IH]; intros skip s nextHash table Hskip Hs Hf Hsl Ht; [lia|].
  cbn [find_match]. cbn zeta. set (step := Z.shiftr skip 5).
  assert (1 ≤ step) as Hstep by (unfold step; rewrite shiftr_div by lia; zlia).
  case_bool_decide as Hlim; [by eexists|]. pose proof (Ht nextHash) as Hc.
  set (c := Z.to_nat (table_get table nextHash)) in *.
  destruct (load32_some (s + Z.to_nat step)) as [x ->]; [lia|]. cbn [mbind option_bind].
  destruct (load32_some s) as [y Hy]; [lia|]. rewrite Hy. cbn [mbind option_bind].
  destruct (load32_some c) as [z Hz]; [lia|]. rewrite Hz. cbn [mbind option_bind].
  assert (table_ok (table_set nextHash (Z.of_nat s) table) (S s)) as Ht'
    by (eapply table_ok_set; [done|lia..]).
  case_bool_decide as Hyz.
  - subst z. eexists. split; [done|]. cbn. split; [done|]. split; [lia|]. split; [|done].
    split; [lia|]. apply (load32_inj src Hsrc c s y); (done || lia).
  - destruct (IH (skip + step) (s + Z.to_nat step)%nat (hash x shift)
      (table_set nextHash (Z.of_nat s) table)) as (r & -> & Hr); [lia..| |].
    { intros h. specialize (Ht' h). lia. }
    exists r. split; [done|]. destruct r as [[[[s' c'] h'] t']|]; [|done].
    destruct Hr as (? & ? & ? & ?). split_and!; (done || lia).
Qed.

Lemma extendMatch_spec fuel i j :
  (i < j ≤ length src)%nat → (length src ≤ fuel + j)%nat →
  ∃ j', extendMatch fuel src i j = Some j' ∧ (j ≤ j' ≤ length src)%nat ∧
    ∀ k, (k < j' - j)%nat → src !! (i + k)%nat = src !! (j + k)%nat.
Proof.
  revert i j. induction fuel as [|fuel IH]; intros i j Hij Hf; cbn [extendMatch].
  { rewrite bool_decide_eq_false_2 by lia. eexists. split; [done|]. split; [lia|]. lia. }
  case_bool_decide as Hj; [|eexists; split; [done|]; split; [lia|]; lia].
  destruct (lookup_in src i ltac:(lia)) as [x Hx]. destruct (lookup_in src j Hj) as [y Hy].
  rewrite Hx, Hy. cbn [mbind option_bind].
  case_bool_decide as Hxy; [|eexists; split; [done|]; split; [lia|]; lia].
  destruct (IH (S i) (S j)) as (j' & -> & Hj' & Hk); [lia..|]. exists j'. split; [done|].
  split; [lia|]. intros [|k] Hlt; [rewrite !Nat.add_0_r; congruence|].
  specialize (Hk k ltac:(lia)).
  replace (i + S k)%nat with (S i + k)%nat by lia. by replace (j + S k)%nat with (S j + k)%nat by lia.
Qed.

(** The operations written to [dst], [d] bytes, mean the first [upto] bytes of [src]. *)
Definition written (dst0 dst : list Z) (d upto : nat) : Prop :=
  ∃ ops, dst = filled (ops_bytes ops) dst0 ∧ d = length (ops_bytes ops) ∧
    (length (ops_bytes ops) ≤ length dst0)%nat ∧
    ∀ hist, do_ops ops hist = Some (hist ++ take upto src).

Lemma written_step dst0 dst d upto f ops upto' :
  written dst0 dst d upto → (d + length (ops_bytes ops) ≤ length dst0)%nat →
  f (drop d dst0) = Some (filled (ops_bytes ops) (drop d dst0), length (ops_bytes ops)) →
  (∀ hist, do_ops ops (hist ++ take upto src) = Some (hist ++ take upto' src)) →
  ∃ dst', at_offset d f dst = Some (dst', (d + length (ops_bytes ops))%nat) ∧
    written dst0 dst' (d + length (ops_bytes ops)) upto'.
Proof.
  intros (ops0 & -> & -> & Hl & Hdo) Hroom Hf Hdo'.
  rewrite (at_offset_filled f (ops_bytes ops0) (ops_bytes ops)) by done. rewrite length_app.
  eexists. split; [done|]. exists (ops0 ++ ops). rewrite ops_bytes_app, length_app.
  split_and!; [done|done|lia|]. intros hist. rewrite do_ops_app, Hdo. cbn. apply Hdo'.
Qed.

(** Writing a literal costs its length and a header that later copies pay for. *)
Lemma write_literal dst0 dst d a b :
  written dst0 dst d a → (a < b ≤ length src)%nat →
  60 * Z.of_nat d ≤ 61 * Z.of_nat a → 61 * Z.of_nat b + 60 ≤ 60 * Z.of_nat (length dst0) →
  ∃ lit dst' d', slice a b src = Some lit ∧
    at_offset d (emitLiteral lit) dst = Some (dst', d') ∧ written dst0 dst' d' b ∧
    60 * Z.of_nat d' ≤ 61 * Z.of_nat b + 60.
Proof.
  intros Hw Hab Hd Hroom. destruct (slice_some a b src) as (lit & Hs & Hl); [lia|].
  exists lit. set (ops := [Lit lit]).
  assert (ops_bytes ops = op_bytes (Lit lit)) as Hops by (unfold ops_bytes; cbn; by rewrite app_nil_r).
  assert (60 * Z.of_nat (d + length (ops_bytes ops)) ≤ 61 * Z.of_nat b + 60) as Hcost.
  { rewrite Hops. cbn [op_bytes]. rewrite length_app. unfold lit_header.
    repeat case_bool_decide; cbn [length]; lia. }
  destruct (written_step dst0 dst d a (emitLiteral lit) ops b) as (dst' & Hat & Hw'); [done|lia| | |].
  - rewrite Hops in *. apply emitLiteral_filled; [lia|]. rewrite length_drop. lia.
  - intros hist. cbn. unfold do_op. rewrite decide_True by (cbn; lia). cbn.
    rewrite <-app_assoc. rewrite slice_Some in Hs by lia. injection Hs as <-.
    rewrite <-(take_drop a (take b src)), take_take, Nat.min_l by lia.
    by rewrite <-skipn_firstn_comm.
  - eexists _, _. done.
Qed.

(** Writing a copy costs less than its length. *)
Lemma write_copy dst0 dst d c s s' :
  written dst0 dst d s → (c < s)%nat → (s + 4 ≤ s' ≤ length src)%nat →
  (∀ k, (k < s' - s)%nat → src !! (c + k)%nat = src !! (s + k)%nat) →
  60 * Z.of_nat d ≤ 61 * Z.of_nat s + 60 → 61 * Z.of_nat s' ≤ 60 * Z.of_nat (length dst0) →
  ∃ dst' d',
    at_offset d (emitCopy (Z.of_nat s - Z.of_nat c) (Z.of_nat s' - Z.of_nat s)) dst = Some (dst', d') ∧
    written dst0 dst' d' s' ∧ 60 * Z.of_nat d' ≤ 61 * Z.of_nat s'.
Proof.
  intros Hw Hc Hs Hm Hd Hroom.
  replace (Z.of_nat s - Z.of_nat c) with (Z.of_nat (s - c)) by lia.
  replace (Z.of_nat s' - Z.of_nat s) with (Z.of_nat (s' - s)) by lia.
  destruct (emitCopy_filled (s - c) ltac:(lia) (drop d dst0) (s' - s)) as (ops & He & Hcost & Hcp).
  { lia. } { rewrite length_drop. lia. }
  destruct (written_step dst0 dst d s _ ops s' Hw ltac:(lia) He) as (dst' & Hat & Hw').
  - intros hist. rewrite Hcp by (rewrite length_app, length_take; lia).
    rewrite extend_prefix by (done || lia). do 2 f_equal. f_equal. lia.
  - exists dst', (d + length (ops_bytes ops))%nat. split; [done|]. split; [done|]. lia.
Qed.

Context (dst0 : list Z) (Hroom : 7 * Z.of_nat (length src) ≤ 6 * Z.of_nat (length dst0)).

(** Between rounds of the main loop. *)
Definition enc_ok (e : enc) : Prop :=
  written dst0 (e_dst e) (e_d e) (e_nextEmit e) ∧ (e_nextEmit e ≤ length src)%nat ∧
  60 * Z.of_nat (e_d e) ≤ 61 * Z.of_nat (e_nextEmit e).

Definition enc_ready (e : enc) : Prop :=
  enc_ok e ∧ e_s e = S (e_nextEmit e) ∧ (e_s e ≤ length src)%nat ∧ table_ok (e_table e) (e_s e).

Lemma emit_copies_spec fuel s c dst d table :
  written dst0 dst d s → match4 c s → (s + 4 ≤ length src)%nat → table_ok table (S s) →
  60 * Z.of_nat d ≤ 61 * Z.of_nat s + 60 → (length src < fuel + s)%nat →
  ∃ again e, emit_copies src shift fuel sLimit s c dst d table = Some (again, e) ∧
    enc_ok e ∧ (s < e_nextEmit e)%nat ∧ (again = true → enc_ready e).
Proof.
  unfold inputMargin. revert s c dst d table.
  induction fuel as [|fuel IH]; intros s c dst d table Hw [Hc H4] Hs Ht Hd Hf; [lia|].
  cbn [emit_copies]. cbn zeta.
  destruct (extendMatch_spec (length src) (c + 4) (s + 4)) as (s' & -> & Hs' & Hm); [lia..|].
  cbn [mbind option_bind].
  destruct (write_copy dst0 dst d c s s') as (dst' & d' & -> & Hw' & Hd'); [done..|lia| |done|lia|].
  { intros k Hk. destruct (decide (k < 4)%nat) as [|Hge]; [by apply H4|].
    specialize (Hm (k - 4)%nat ltac:(lia)). replace (c + 4 + (k - 4))%nat with (c + k)%nat in Hm by lia.
    by replace (s + 4 + (k - 4))%nat with (s + k)%nat in Hm by lia. }
  cbn [mbind option_bind]. case_bool_decide as Hlim.
  { eexists _, _. split; [done|]. split; [by split_and!; cbn; [done|lia|]|]. split; [cbn; lia|done]. }
  destruct (load64_mid src Hsrc (s' - 1)) as (x & -> & Hx); [lia|]. cbn [mbind option_bind].
  replace (s' - 1 + 1)%nat with s' in Hx by lia.
  set (table1 := table_set _ (Z.of_nat s' - 1) table).
  assert (table_ok table1 s') as Ht1 by (eapply table_ok_set; [done|lia..]).
  set (currHash := hash _ _). pose proof (Ht1 currHash) as Hc'.
  set (c' := Z.to_nat (table_get table1 currHash)) in *.
  assert (table_ok (table_set currHash (Z.of_nat s') table1) (S s')) as Ht2
    by (eapply table_ok_set; [done|lia..]).
  destruct (load32_some c') as [y Hy]; [lia|]. rewrite Hy. cbn [mbind option_bind].
  case_bool_decide as Hxy.
  - eexists _, _. split; [done|]. assert (enc_ok {| e_dst := dst'; e_d := d';
      e_table := table_set currHash (Z.of_nat s') table1; e_nextEmit := s'; e_s := S s';
      e_nextHash := hash (u32 (Z.shiftr x 16)) shift |}) as Hok by (split_and!; cbn; [done|lia|done]).
    split; [done|]. split; [cbn; lia|]. intros _. split; [done|]. cbn. split; [done|]. split; [lia|done].
  - destruct (IH s' c' dst' d' (table_set currHash (Z.of_nat s') table1))
      as (again & e & -> & Hok & Hlt & Hr); [done| |lia|done|lia|lia|].
    { split; [lia|]. apply (load32_inj src Hsrc c' s' y); [lia|lia|done|congruence]. }
    exists again, e. split_and!; (done || lia).
Qed.

Lemma encode_loop_spec fuel e :
  enc_ready e → (length src < fuel + e_s e)%nat →
  ∃ e', encode_loop src shift fuel sLimit e = Some e' ∧ enc_ok e'.
Proof.
  revert e. induction fuel as [|fuel IH]; intros e (Hok & He & Hs & Ht) Hf; [lia|]. cbn [encode_loop].
  destruct (find_match_spec (length src) 32 (e_s e) (e_nextHash e) (e_table e))
    as (r & -> & Hr); [lia..|done|].
  cbn [mbind option_bind]. destruct r as [[[[s c] h] table]|]; [|eauto].
  destruct Hr as (Hse & Hlim & Hm & Ht'). destruct Hok as (Hw & Hne & Hd). unfold inputMargin in Hlim.
  destruct (write_literal dst0 (e_dst e) (e_d e) (e_nextEmit e) s) as (lit & dst' & d' & -> & Hat & Hw' & Hd');
    [done|lia|done|lia|].
  cbn [mbind option_bind]. rewrite Hat. cbn [mbind option_bind].
  destruct (emit_copies_spec (length src) s c dst' d' table) as (again & e' & -> & Hok' & Hlt & Hrdy);
    [done|done|lia|done|done|lia|].
  cbn [mbind option_bind]. destruct again; [|eauto]. specialize (Hrdy eq_refl).
  apply IH; [done|]. destruct Hrdy as (_ & He' & _). lia.
Qed.
End block.

Definition block_shift (src : list Z) : Z :=
  table_shift 7 (Z.shiftl 1 8) (Z.of_nat (length src)) (32 - 8).

Lemma encodeBlock_filled src dst :
  Forall is_byte src → 17 ≤ Z.of_nat (length src) ≤ 65536 →
  7 * Z.of_nat (length src) ≤ 6 * Z.of_nat (length dst) →
  ∃ ops, encodeBlock src dst = Some (filled (ops_bytes ops) dst, length (ops_bytes ops)) ∧
    6 * Z.of_nat (length (ops_bytes ops)) ≤ 7 * Z.of_nat (length src) ∧
    ∀ hist, do_ops ops hist = Some (hist ++ src).
Proof.
  intros Hb Hl Hroom. unfold encodeBlock. fold (block_shift src).
  destruct (load32_some src Hb 1) as [x ->]; [lia|]. cbn [mbind option_bind].
  destruct (encode_loop_spec src (block_shift src) Hb Hl dst Hroom (length src)
    {| e_dst := dst; e_d := 0; e_table := ∅; e_nextEmit := 0; e_s := 1;
       e_nextHash := hash x (block_shift src) |}) as (e & -> & Hw & Hne & Hd).
  - split; [split_and!; cbn; [|lia|lia]|]; cbn.
    + exists []. unfold ops_bytes, filled. cbn. split_and!; [done|done|lia|]. intros hist. by rewrite app_nil_r.
    + split; [done|]. split; [lia|]. intros h. unfold table_get. rewrite lookup_empty. cbn. lia.
  - cbn. lia.
  - cbn [mbind option_bind]. case_bool_decide as Hlt.
    + destruct (write_literal src Hl dst (e_dst e) (e_d e) (e_nextEmit e) (length src))
        as (lit & dst' & d' & -> & Hat & Hw' & Hd'); [done|lia|done|lia|].
      cbn [mbind option_bind]. rewrite Hat. destruct Hw' as (ops & -> & -> & _ & Hdo).
      exists ops. split; [done|]. split; [lia|]. intros hist. by rewrite Hdo, take_ge.
    + destruct Hw as (ops & -> & Hde & _ & Hdo). rewrite Hde in *. exists ops. split; [done|].
      split; [lia|]. intros hist. by rewrite Hdo, take_ge by lia.
Qed.

(** ** The length header *)
Fixpoint uv_bytes (fuel : nat) (x : Z) : list Z :=
  match fuel with
  | O => []
  | S fuel => if bool_decide (128 ≤ x) then x mod 128 + 128 :: uv_bytes fuel (x / 128) else [x]
  end.

Lemma length_uv_bytes fuel x : (length (uv_bytes fuel x) ≤ fuel)%nat.
Proof. revert x. induction fuel as [|fuel IH]; intros x; cbn; [done|]. case_bool_decide; cbn; [|lia]. specialize (IH (x / 128)). lia. Qed.

Lemma lor_80 b : is_byte b → Z.lor b 0x80 = b mod 128 + 128.
Proof. intros Hb. apply Z.eqb_eq. revert b Hb. apply byte_forall. vm_compute. reflexivity. Qed.

Lemma land_7f b : Z.land b 0x7f = b mod 128.
Proof. change 127 with (Z.ones 7). by rewrite Z.land_ones. Qed.

Lemma put_uvarint_filled fuel x bs dst :
  (1 ≤ fuel)%nat → 0 ≤ x < 2 ^ (7 * Z.of_nat fuel) → (length bs + fuel ≤ length dst)%nat →
  put_uvarint fuel (length bs) x (filled bs dst) =
    Some (filled (bs ++ uv_bytes fuel x) dst, length (bs ++ uv_bytes fuel x)).
Proof.
  revert x bs. induction fuel as [|fuel IH]; intros x bs Hfu Hx Hd; [lia|]. cbn [put_uvarint uv_bytes].
  case_bool_decide as H80; rewrite put_filled by (done || lia); cbn [mbind option_bind].
  - replace (S (length bs)) with (length (bs ++ [Z.lor (u8 x) 128])) by (rewrite length_app; cbn; lia).
    rewrite shiftr_div by lia. rewrite IH.
    + rewrite <-app_assoc. cbn [app]. change (2 ^ 7) with 128. unfold u8.
      rewrite lor_80 by (unfold is_byte; zlia).
      by replace ((x mod 2 ^ 8) mod 128) with (x mod 128) by zlia.
    + destruct fuel; [cbn in Hx|]; lia.
    + replace (7 * Z.of_nat (S fuel)) with (7 + 7 * Z.of_nat fuel) in Hx by lia.
      rewrite Z.pow_add_r in Hx by lia. split; [zlia|]. apply Z.div_lt_upper_bound; lia.
    + rewrite length_app. cbn. lia.
  - unfold u8. rewrite Z.mod_small, length_app by lia. cbn. by rewrite Nat.add_1_r.
Qed.

Lemma uvarint_uv_bytes fuel i acc x rest :
  let shift := 7 * Z.of_nat i in
  (1 ≤ fuel)%nat → 0 ≤ x < 2 ^ (7 * Z.of_nat fuel) → 0 ≤ acc < 2 ^ shift → x * 2 ^ shift < 2 ^ 63 → (x = 0 → i = 0%nat) →
  uvarint_from i acc shift (uv_bytes fuel x ++ rest) =
    (acc + x * 2 ^ shift, Z.of_nat i + Z.of_nat (length (uv_bytes fuel x))).
Proof.
  revert i acc x. induction fuel as [|fuel IH]; intros i acc x shift Hfu Hx Hacc Hbig H0; [lia|].
  cbn [uv_bytes]. assert (0 < 2 ^ shift) as Hp by (apply Z.pow_pos_nonneg; lia).
  assert (i < 9)%nat as Hi.
  { destruct (decide (x = 0)) as [->|]; [rewrite H0 by done; lia|].
    destruct (decide (i < 9)%nat); [done|]. assert (2 ^ 63 ≤ 2 ^ shift) by (apply Z.pow_le_mono_r; lia). nia. }
  assert (∀ b, 0 ≤ b → b * 2 ^ shift < 2 ^ 63 →
    Z.lor acc (u64 (Z.shiftl b shift)) = acc + b * 2 ^ shift) as Hlor.
  { intros b Hb Hb'. unfold u64. rewrite (Z.mod_small (Z.shiftl b shift)).
    - apply lor_shiftl_add; lia.
    - rewrite Z.shiftl_mul_pow2 by lia. split; [nia|lia]. }
  case_bool_decide as H80.
  - cbn [app uvarint_from]. rewrite bool_decide_eq_false_2 by zlia.
    rewrite land_7f. replace ((x mod 128 + 128) mod 128) with (x mod 128) by zlia.
    assert (x mod 128 * 2 ^ shift ≤ x * 2 ^ shift)
      by (apply Z.mul_le_mono_nonneg_r; [lia|]; apply Z.mod_le; lia).
    rewrite Hlor by zlia. replace (shift + 7) with (7 * Z.of_nat (S i)) by lia.
    assert (2 ^ (7 * Z.of_nat (S i)) = 128 * 2 ^ shift) as Hpow.
    { replace (7 * Z.of_nat (S i)) with (7 + shift) by lia. by rewrite Z.pow_add_r by lia. }
    pose proof (Z.div_mod x 128 ltac:(lia)) as Hdm. pose proof (Z.mod_pos_bound x 128 ltac:(lia)).
    rewrite IH; rewrite ?Hpow.
    + cbn [length]. f_equal; [|lia]. rewrite Hdm at 3. ring.
    + destruct fuel; [cbn in Hx|]; lia.
    + replace (7 * Z.of_nat (S fuel)) with (7 + 7 * Z.of_nat fuel) in Hx by lia.
      rewrite Z.pow_add_r in Hx by lia. split; [zlia|]. apply Z.div_lt_upper_bound; lia.
    + nia.
    + nia.
    + intros Hz. zlia.
  - cbn [app uvarint_from]. rewrite bool_decide_eq_true_2 by lia.
    rewrite !bool_decide_eq_false_2 by lia. cbn [orb andb]. rewrite Hlor by lia. done.
Qed.

(** ** Whole inputs *)
Lemma encode_piece p bs dst :
  Forall is_byte p → 1 ≤ Z.of_nat (length p) ≤ 65536 →
  6 * Z.of_nat (length bs) + 7 * Z.of_nat (length p) + 6 ≤ 6 * Z.of_nat (length dst) →
  ∃ ops, (if bool_decide (length p < minNonLiteralBlockSize)%nat
       then at_offset (length bs) (emitLiteral p) (filled bs dst)
       else at_offset (length bs) (encodeBlock p) (filled bs dst)) =
      Some (filled (bs ++ ops_bytes ops) dst, length (bs ++ ops_bytes ops)) ∧
    6 * Z.of_nat (length (ops_bytes ops)) ≤
      7 * Z.of_nat (length p) + (if decide (length p < 17)%nat then 6 else 0) ∧
    ∀ hist, do_ops ops hist = Some (hist ++ p).
Proof.
  intros Hb Hp Hroom. unfold minNonLiteralBlockSize, inputMargin. case_bool_decide as H17.
  - rewrite decide_True by lia. exists [Lit p].
    assert (ops_bytes [Lit p] = op_bytes (Lit p)) as -> by (unfold ops_bytes; cbn; by rewrite app_nil_r).
    assert (length (op_bytes (Lit p)) = 1 + length p)%nat as Hl.
    { cbn [op_bytes]. rewrite length_app. unfold lit_header. by rewrite bool_decide_eq_true_2 by lia. }
    split; [apply at_offset_filled; [lia|]; apply emitLiteral_filled; [lia|]; rewrite length_drop; lia|].
    split; [lia|]. intros hist. cbn. unfold do_op. by rewrite decide_True by (cbn; lia).
  - rewrite decide_False by lia.
    destruct (encodeBlock_filled p (drop (length bs) dst)) as (ops & He & Hl & Hdo);
      [done|lia|rewrite length_drop; lia|].
    exists ops. split; [apply at_offset_filled; [lia|done]|]. split; [lia|done].
Qed.

(** The header of a last short literal. *)
Definition slack (src : list Z) : Z := match src with [] => 0 | _ => 6 end.

Lemma encode_blocks_filled fuel src bs dst :
  Forall is_byte src → (length src ≤ fuel)%nat →
  6 * Z.of_nat (length bs) + 7 * Z.of_nat (length src) + slack src ≤ 6 * Z.of_nat (length dst) →
  ∃ ops, encode_blocks fuel src (filled bs dst) (length bs) =
      Some (filled (bs ++ ops_bytes ops) dst, length (bs ++ ops_bytes ops)) ∧
    6 * Z.of_nat (length (ops_bytes ops)) ≤ 7 * Z.of_nat (length src) + slack src ∧
    ∀ hist, do_ops ops hist = Some (hist ++ src).
Proof.
  revert src bs. induction fuel as [|fuel IH]; intros src bs Hb Hf Hroom;
    (destruct (decide (src = [])) as [->|Hne];
     [exists []; cbn; rewrite app_nil_r; split_and!; [done|lia|]; intros; by rewrite app_nil_r|]).
  { destruct src; [done|cbn in Hf; lia]. }
  assert (1 ≤ length src)%nat as H1 by (destruct src; [done|cbn; lia]).
  assert (slack src = 6) as Hsl by (by destruct src). rewrite Hsl in *.
  set (long := bool_decide (maxBlockSize < Z.of_nat (length src))).
  set (p := if long then take (Z.to_nat maxBlockSize) src else src).
  set (src' := if long then drop (Z.to_nat maxBlockSize) src else []).
  assert (src = p ++ src') as Hsplit.
  { unfold p, src'. destruct long; [by rewrite take_drop|by rewrite app_nil_r]. }
  assert (1 ≤ Z.of_nat (length p) ≤ 65536 ∧ (length p < 17 → src' = [])%nat) as [Hp Hshort].
  { unfold p, src', long, maxBlockSize. case_bool_decide; [|by split; [lia|]].
    rewrite length_take. split; [lia|]. lia. }
  assert (length src = length p + length src')%nat as Hlen by (rewrite Hsplit at 1; apply length_app).
  assert (Forall is_byte p ∧ Forall is_byte src') as [Hbp Hbs]
    by (rewrite Hsplit in Hb; by apply Forall_app).
  destruct (encode_piece p bs dst Hbp Hp ltac:(lia)) as (ops & Hpiece & Hl & Hdo).
  assert (encode_blocks (S fuel) src (filled bs dst) (length bs) =
    encode_blocks fuel src' (filled (bs ++ ops_bytes ops) dst) (length (bs ++ ops_bytes ops))) as ->.
  { destruct src as [|x src0]; [done|]. cbn [encode_blocks]. fold long p src'. by rewrite Hpiece. }
  assert (slack src' ≤ 6 ∧ ((length p < 17)%nat → slack src' = 0)) as [Hs6 Hs0].
  { split; [destruct src'; cbn; lia|]. intros Hlt. by rewrite Hshort. }
  clearbody p src' long.
  destruct (IH src' (bs ++ ops_bytes ops)) as (ops' & -> & Hl' & Hdo'); [done|lia| |].
  { rewrite length_app. case_decide as Hlt; [rewrite Hs0 by done|]; lia. }
  exists (ops ++ ops'). rewrite ops_bytes_app, <-app_assoc. split; [done|]. split.
  - rewrite length_app. case_decide as Hlt; [rewrite Hs0 in Hl' by done|]; lia.
  - intros hist. rewrite do_ops_app, Hdo. cbn. rewrite Hdo', <-app_assoc. by rewrite <-Hsplit.
Qed.

Section whole.
Context (W : Z) (HW : W = 32 ∨ W = 64).

Lemma MaxEncodedLen_value len :
  0 ≤ len < 2 ^ 63 → 0 ≤ MaxEncodedLen W len →
  MaxEncodedLen W len = 32 + len + len / 6 ∧ len < 2 ^ 32 ∧ to_int W len = len ∧
  (W = 32 → len < 2 ^ 31).
Proof.
  intros Hlen. unfold MaxEncodedLen, u64. cbn zeta. rewrite Z.mod_small by lia.
  case_bool_decide; [lia|]. case_bool_decide; [lia|]. unfold to_int.
  destruct HW as [-> | ->]; intros Hi; rewrite (Z.mod_small (len + _)); zlia.
Qed.

(** What [Encode] returns, and what it leaves in the caller's buffer. *)
Lemma Encode_spec dst src :
  Forall is_byte src → let len := Z.of_nat (length src) in len < 2 ^ 63 → 0 ≤ MaxEncodedLen W len →
  ∃ dst' ops, let enc := uv_bytes 10 len ++ ops_bytes ops in
    Encode W dst src = Some (dst', enc) ∧ do_ops ops [] = Some src ∧
    Z.of_nat (length enc) ≤ MaxEncodedLen W len ∧ length dst' = length dst ∧
    (MaxEncodedLen W len ≤ Z.of_nat (length dst) → take (length enc) dst' = enc).
Proof.
  intros Hb len Hlen HM. destruct (MaxEncodedLen_value len ltac:(lia) HM) as (HMv & Hl32 & _).
  set (M := MaxEncodedLen W len) in *.
  set (buf := if bool_decide (Z.of_nat (length dst) < M) then replicate (Z.to_nat M) 0 else dst).
  assert (M ≤ Z.of_nat (length buf)) as Hbuf.
  { unfold buf. case_bool_decide; [rewrite length_replicate|]; lia. }
  pose proof (length_uv_bytes 10 len) as Huv.
  destruct (encode_blocks_filled (length src) src (uv_bytes 10 len) buf) as (ops & He & Hops & Hdo);
    [done|done| |].
  { fold len. assert (slack src ≤ 6) by (destruct src; cbn; lia). zlia. }
  assert (slack src ≤ 6) as Hs6 by (destruct src; cbn; lia). fold len in Hops.
  set (enc := uv_bytes 10 len ++ ops_bytes ops) in *.
  assert (Z.of_nat (length enc) ≤ M) as Henc by (unfold enc; rewrite length_app; zlia).
  exists (if bool_decide (Z.of_nat (length dst) < M) then dst else filled enc buf), ops. cbn zeta. fold enc.
  split_and!; [|apply (Hdo [])|done| |].
  - unfold Encode. fold len M. rewrite bool_decide_eq_false_2 by lia. cbn zeta. fold buf.
    unfold PutUvarint, u64. rewrite Z.mod_small by lia.
    pose proof (put_uvarint_filled 10 len [] buf) as Hput. change (filled [] buf) with buf in Hput.
    change (length []) with 0%nat in Hput.
    change (7 * Z.of_nat 10) with 70 in Hput. rewrite Hput by zlia. cbn [mbind option_bind app].
    rewrite He. cbn [mbind option_bind]. rewrite slice_Some by (rewrite length_filled; lia).
    cbn [mbind option_bind]. rewrite Nat.sub_0_r, drop_0.
    by replace (take (length enc) (filled enc buf)) with enc by (symmetry; apply take_app_length).
  - unfold buf. case_bool_decide; [done|]. apply length_filled. lia.
  - intros Hbig. rewrite bool_decide_eq_false_2 by lia. apply take_app_length.
Qed.

(** The decoder on what [Encode] returns. *)
Lemma decodedLen_encoding len rest :
  0 ≤ len < 2 ^ 32 → to_int W len = len → (W = 32 → len < 2 ^ 31) →
  decodedLen W (uv_bytes 10 len ++ rest) = Ok (len, Z.of_nat (length (uv_bytes 10 len))).
Proof.
  intros Hl32 Hint H32. unfold decodedLen, Uvarint.
  pose proof (uvarint_uv_bytes 10 0 0 len rest) as Hu. cbn zeta in Hu.
  change (7 * Z.of_nat 0) with 0 in Hu. change (7 * Z.of_nat 10) with 70 in Hu.
  change (2 ^ 0) with 1 in Hu. rewrite Hu by (done || lia). clear Hu.
  rewrite Z.mul_1_r, !Z.add_0_l. set (n := length (uv_bytes 10 len)).
  assert (1 ≤ n)%nat as Hn by (unfold n; cbn; case_bool_decide; cbn; lia).
  rewrite (bool_decide_eq_false_2 (Z.of_nat n ≤ 0)), (bool_decide_eq_false_2 (0xffffffff < len)) by lia.
  cbn [orb]. assert (bool_decide (W = 32) && bool_decide (0x7fffffff < len) = false) as ->.
  { destruct (decide (W = 32)) as [e|e]; [|by rewrite bool_decide_eq_false_2].
    rewrite (bool_decide_eq_false_2 (_ < len)); [apply andb_false_r|]. specialize (H32 e). lia. }
  by rewrite Hint.
Qed.

Lemma Decode_encoding buf src ops :
  let len := Z.of_nat (length src) in len < 2 ^ 63 → 0 ≤ MaxEncodedLen W len → do_ops ops [] = Some src →
  ∃ buf', Decode W buf (uv_bytes 10 len ++ ops_bytes ops) = Some (buf', Ok src) ∧
    ((length src ≤ length buf)%nat → buf' = filled src buf).
Proof.
  intros len Hlen HM Hdo. destruct (MaxEncodedLen_value len ltac:(lia) HM) as (_ & Hl32 & Hint & H32).
  unfold Decode. rewrite decodedLen_encoding by (done || lia). set (n := length (uv_bytes 10 len)).
  unfold len. rewrite !Nat2Z.id. fold len.
  set (b := if bool_decide _ then take _ buf else _).
  assert (length b = length src) as Hb.
  { unfold b. case_bool_decide; [rewrite length_take; lia|apply length_replicate]. }
  rewrite slice_Some by (rewrite length_app; unfold n; lia).
  unfold n. rewrite drop_app_length, (take_ge (ops_bytes ops)) by (rewrite length_app; lia).
  cbn [mbind option_bind]. unfold decode.
  pose proof (decode_ops W HW ops (length (ops_bytes ops)) [] b [] src) as Hd.
  rewrite app_nil_l in Hd. change (length []) with 0%nat in Hd.
  rewrite Hd by (done || apply length_ops_bytes). cbn [mbind option_bind].
  eexists. split; [done|]. intros Hle. by rewrite bool_decide_eq_true_2.
Qed.

(** [C7] Round trip: every input whose encoded length is representable is encoded, into
    a fresh buffer or the caller's, and decoding the result, into any buffer, gives the
    input back. *)
Theorem snappy_roundtrip dst src buf :
  Forall is_byte src → let len := Z.of_nat (length src) in len < 2 ^ 63 → 0 ≤ MaxEncodedLen W len →
  ∃ dst' enc buf', Encode W dst src = Some (dst', enc) ∧ Decode W buf enc = Some (buf', Ok src).
Proof.
  intros Hb len Hlen HM. destruct (Encode_spec dst src Hb Hlen HM) as (dst' & ops & He & Hdo & _).
  destruct (Decode_encoding buf src ops Hlen HM Hdo) as (buf' & Hd & _). by eexists _, _, _.
Qed.

(** [MaxEncodedLen] bounds what [Encode] writes: no write is out of range, the
    encoding is no longer, and a caller's buffer of that length holds it. *)
Theorem Encode_within_bound dst src :
  Forall is_byte src → let len := Z.of_nat (length src) in len < 2 ^ 63 → 0 ≤ MaxEncodedLen W len →
  ∃ dst' enc, Encode W dst src = Some (dst', enc) ∧
    Z.of_nat (length enc) ≤ MaxEncodedLen W len ∧ length dst' = length dst ∧
    (MaxEncodedLen W len ≤ Z.of_nat (length dst) → take (length enc) dst' = enc).
Proof.
  intros Hb len Hlen HM. destruct (Encode_spec dst src Hb Hlen HM) as (dst' & ops & He & _ & H).
  by eexists _, _.
Qed.
End whole.

Definition sex : list Z := concat (replicate 9 [1; 2; 3; 4; 5; 6; 7]) ++ [200; 201; 3; 4; 5; 6; 7; 8; 9].

Lemma sex_bytes : Forall is_byte sex.
Proof. repeat constructor; unfold is_byte; lia. Qed.

Lemma snappy_roundtrip_witness : ∃ dst' enc buf',
  Encode 64 [] sex = Some (dst', enc) ∧ Decode 64 [] enc = Some (buf', Ok sex) ∧ length enc = 22%nat.
Proof.
  destruct (snappy_roundtrip 64 ltac:(by right) [] sex [] sex_bytes) as (dst' & enc & buf' & H1 & H2);
    [reflexivity|vm_compute; discriminate|].
  exists dst', enc, buf'. split; [done|]. split; [done|]. vm_compute in H1. by injection H1 as <- <-.
Defined.

Lemma Encode_within_bound_witness : ∃ dst' enc,
  Encode 32 (replicate 120 0) sex = Some (dst', enc) ∧ take (length enc) dst' = enc ∧ length dst' = 120%nat.
Proof.
  destruct (Encode_within_bound 32 ltac:(by left) (replicate 120 0) sex sex_bytes)
    as (dst' & enc & H1 & _ & H2 & H3); [reflexivity|vm_compute; discriminate|].
  exists dst', enc. split; [done|]. split; [apply H3; vm_compute; discriminate|done].
Defined.
