(* ===== verification/SnappyStream.v ===== *)
(** * The snappy framing format: Writer and Reader (github.com/golang/snappy)

    A [Writer] cuts what is written into chunks and sends each, compressed or not, with
    a checksum to an [io.Writer], the argument [sink_Write]; a [Reader] takes the chunks
    from a stream of bytes and checks them.  [io.ReadFull] is modelled on the bytes the
    stream still has. *)

From S2P Require Import Prelude Snappy SnappyFormat SnappyRoundtrip.
Open Scope Z_scope.

Definition checksumSize : Z := 4.
Definition chunkHeaderSize : Z := 4.
Definition magicBody : list Z := [115; 78; 97; 80; 112; 89].       (* sNaPpY *)
Definition magicChunk : list Z := [255; 6; 0; 0] ++ magicBody.
Definition maxEncodedLenOfMaxBlockSize : Z := 76490.
Definition obufHeaderLen : nat := 10 + 4 + 4.
Definition obufLen : Z := Z.of_nat obufHeaderLen + maxEncodedLenOfMaxBlockSize.
Definition chunkTypeCompressedData : Z := 0x00.
Definition chunkTypeUncompressedData : Z := 0x01.
Definition chunkTypePadding : Z := 0xfe.
Definition chunkTypeStreamIdentifier : Z := 0xff.

(** ** Checksum: CRC-32C (hash/crc32) and its masking *)
Definition castagnoli : Z := 0x82f63b78.

Fixpoint crc_bits (n : nat) (c : Z) : Z :=
  match n with
  | O => c
  | S n => crc_bits n (if Z.odd c then Z.lxor (Z.shiftr c 1) castagnoli else Z.shiftr c 1)
  end.

Definition crcTable (i : Z) : Z := crc_bits 8 i.

Definition crc32_Update (crc : Z) (b : list Z) : Z :=
  Z.lxor 0xffffffff
    (foldl (λ c v, Z.lxor (crcTable (Z.lxor (u8 c) v)) (Z.shiftr c 8)) (Z.lxor 0xffffffff crc) b).

Definition crc (b : list Z) : Z :=
  let c := crc32_Update 0 b in
  u32 (u32 (Z.lor (Z.shiftr c 15) (u32 (Z.shiftl c 17))) + 0xa282ead8).

(** The two little-endian numbers of a chunk header. *)
Definition le24_bytes (n : Z) : list Z := [u8 (Z.shiftr n 0); u8 (Z.shiftr n 8); u8 (Z.shiftr n 16)].
Definition le32_bytes (n : Z) : list Z := le24_bytes n ++ [u8 (Z.shiftr n 24)].

Fixpoint put_list (i : nat) (bs : list Z) (dst : list Z) : option (list Z) :=
  match bs with
  | [] => Some dst
  | b :: bs' => dst ← put i b dst; put_list (S i) bs' dst
  end.

(** ** Writer *)
Section writer.
Context {S E : Type} (sink_Write : list Z → S → option E * S) (wordSize : Z).

Inductive write_error : Type :=
| SinkError (e : E)
| errClosed.

Record Writer := {
  w_w : S;
  w_err : option write_error;
  ibuf : option (list Z);     (* nil, or a slice of capacity maxBlockSize *)
  obuf : list Z;
  wroteStreamHeader : bool;
}.

Definition NewWriter (w : S) : Writer :=
  {| w_w := w; w_err := None; ibuf := None; obuf := replicate (Z.to_nat obufLen) 0;
     wroteStreamHeader := false |}.

Definition NewBufferedWriter (w : S) : Writer :=
  {| w_w := w; w_err := None; ibuf := Some []; obuf := replicate (Z.to_nat obufLen) 0;
     wroteStreamHeader := false |}.

Definition w_Reset (writer : S) (w : Writer) : Writer :=
  {| w_w := writer; w_err := None; ibuf := (λ _, []) <$> ibuf w; obuf := obuf w;
     wroteStreamHeader := false |}.

Definition set_ibuf (b : list Z) (w : Writer) : Writer :=
  {| w_w := w_w w; w_err := w_err w; ibuf := Some b; obuf := obuf w;
     wroteStreamHeader := wroteStreamHeader w |}.
Definition set_obuf (b : list Z) (header : bool) (w : Writer) : Writer :=
  {| w_w := w_w w; w_err := w_err w; ibuf := ibuf w; obuf := b; wroteStreamHeader := header |}.
Definition set_w_err (e : write_error) (w : Writer) : Writer :=
  {| w_w := w_w w; w_err := Some e; ibuf := ibuf w; obuf := obuf w;
     wroteStreamHeader := wroteStreamHeader w |}.

(** [w.w.Write(b)], with the error kept in [w.err]. *)
Definition send (b : list Z) (w : Writer) : option write_error * Writer :=
  let '(e, s) := sink_Write b (w_w w) in
  let w := {| w_w := s; w_err := w_err w; ibuf := ibuf w; obuf := obuf w;
              wroteStreamHeader := wroteStreamHeader w |} in
  match e with
  | None => (None, w)
  | Some e => (Some (SinkError e), set_w_err (SinkError e) w)
  end.

(** One round of the loop of [write]: a chunk of uncompressed data. *)
Definition write_chunk (uncompressed : list Z) (w : Writer) : option (option write_error * Writer) :=
  let obufStart := if wroteStreamHeader w then length magicChunk else 0%nat in
  let w := if wroteStreamHeader w then w else set_obuf (copy (obuf w) magicChunk) true w in
  let checksum := crc uncompressed in
  tail ← slice obufHeaderLen (length (obuf w)) (obuf w);
  '(tail, compressed) ← Encode wordSize tail uncompressed;
  let buf := take obufHeaderLen (obuf w) ++ tail in
  let n := Z.of_nat (length uncompressed) in
  let big := bool_decide (n - n / 8 ≤ Z.of_nat (length compressed)) in
  let chunkType := if big then chunkTypeUncompressedData else chunkTypeCompressedData in
  let chunkLen := 4 + (if big then n else Z.of_nat (length compressed)) in
  let obufEnd := if big then obufHeaderLen else (obufHeaderLen + length compressed)%nat in
  buf ← put_list (length magicChunk) ([chunkType] ++ le24_bytes chunkLen ++ le32_bytes checksum) buf;
  let w := set_obuf buf (wroteStreamHeader w) w in
  out ← slice obufStart obufEnd buf;
  match send out w with
  | (Some e, w) => Some (Some e, w)
  | (None, w) =>
    if big then Some (send uncompressed w) else Some (None, w)
  end.

Fixpoint write_loop (fuel : nat) (nRet : nat) (p : list Z) (w : Writer) :
    option (nat * option write_error * Writer) :=
  match p, fuel with
  | [], _ => Some (nRet, None, w)
  | _, O => None
  | _, Datatypes.S fuel =>
    let long := bool_decide (maxBlockSize < Z.of_nat (length p)) in
    let uncompressed := if long then take (Z.to_nat maxBlockSize) p else p in
    let p := if long then drop (Z.to_nat maxBlockSize) p else [] in
    r ← write_chunk uncompressed w;
    match r with
    | (Some e, w) => Some (nRet, Some e, w)
    | (None, w) => write_loop fuel (nRet + length uncompressed) p w
    end
  end.

Definition write (p : list Z) (w : Writer) : option (nat * option write_error * Writer) :=
  match w_err w with
  | Some e => Some (0%nat, Some e, w)
  | None => write_loop (length p) 0 p w
  end.

Definition Flush (w : Writer) : option (option write_error * Writer) :=
  match w_err w with
  | Some e => Some (Some e, w)
  | None =>
    match default [] (ibuf w) with
    | [] => Some (None, w)
    | b => '(_, _, w) ← write b w; let w := set_ibuf [] w in Some (w_err w, w)
    end
  end.

(** The loop of [Write] on a buffered writer: buffer, what is left of [p] and [nRet]. *)
Fixpoint write_buffered (fuel : nat) (nRet : nat) (p b : list Z) (w : Writer) :
    option (nat * option write_error * Writer) :=
  let cap := Z.to_nat maxBlockSize in
  if bool_decide (cap - length b < length p)%nat then
    match w_err w with
    | Some e => Some (nRet, Some e, w)
    | None =>
      match fuel with
      | O => None
      | Datatypes.S fuel =>
        match b with
        | [] => '(n, _, w) ← write p w;
                write_buffered fuel (nRet + n) (drop n p) [] w
        | _ =>
          let n := ((cap - length b) `min` length p)%nat in
          '(_, w) ← Flush (set_ibuf (b ++ take n p) w);
          write_buffered fuel (nRet + n) (drop n p) (default [] (ibuf w)) w
        end
      end
    end
  else
    match w_err w with
    | Some e => Some (nRet, Some e, w)
    | None => Some ((nRet + length p)%nat, None, set_ibuf (b ++ p) w)
    end.

Definition Write (p : list Z) (w : Writer) : option (nat * option write_error * Writer) :=
  match ibuf w with
  | None => write p w
  | Some b => write_buffered 3 0 p b w
  end.

Definition w_Close (w : Writer) : option (option write_error * Writer) :=
  '(_, w) ← Flush w;
  Some (w_err w, match w_err w with None => set_w_err errClosed w | Some _ => w end).
End writer.
Arguments Writer : clear implicits.
Arguments write_error : clear implicits.

(** ** Reader *)
Section reader.
Context (wordSize : Z).

Inductive read_error : Type :=
| RSnappy (e : snappy_error)
| EOF
| ErrUnexpectedEOF.

Record Reader := {
  r_r : list Z;         (* what the stream still has *)
  r_err : option read_error;
  decoded : list Z;
  r_buf : list Z;
  r_i : nat;
  r_j : nat;
  readHeader : bool;
}.

Definition NewReader (r : list Z) : Reader :=
  {| r_r := r; r_err := None; decoded := replicate (Z.to_nat maxBlockSize) 0;
     r_buf := replicate (Z.to_nat (maxEncodedLenOfMaxBlockSize + checksumSize)) 0;
     r_i := 0; r_j := 0; readHeader := false |}.

Definition r_Reset (reader : list Z) (r : Reader) : Reader :=
  {| r_r := reader; r_err := None; decoded := decoded r; r_buf := r_buf r; r_i := 0; r_j := 0;
     readHeader := false |}.

Definition fail (e : read_error) (r : Reader) : Reader :=
  {| r_r := r_r r; r_err := Some e; decoded := decoded r; r_buf := r_buf r; r_i := r_i r; r_j := r_j r;
     readHeader := readHeader r |}.
Definition set_r_buf (b : list Z) (r : Reader) : Reader :=
  {| r_r := r_r r; r_err := r_err r; decoded := decoded r; r_buf := b; r_i := r_i r; r_j := r_j r;
     readHeader := readHeader r |}.
Definition set_decoded (b : list Z) (r : Reader) : Reader :=
  {| r_r := r_r r; r_err := r_err r; decoded := b; r_buf := r_buf r; r_i := r_i r; r_j := r_j r;
     readHeader := readHeader r |}.
Definition set_ij (i j : nat) (r : Reader) : Reader :=
  {| r_r := r_r r; r_err := r_err r; decoded := decoded r; r_buf := r_buf r; r_i := i; r_j := j;
     readHeader := readHeader r |}.
Definition set_readHeader (r : Reader) : Reader :=
  {| r_r := r_r r; r_err := r_err r; decoded := decoded r; r_buf := r_buf r; r_i := r_i r; r_j := r_j r;
     readHeader := true |}.

(** [readFull] into a slice of length [n]: the bytes it got, and whether it got them all. *)
Definition readFull (n : nat) (allowEOF : bool) (r : Reader) : bool * list Z * Reader :=
  let got := take n (r_r r) in
  let e := if bool_decide (length got = n) then None
           else if bool_decide (length got = 0%nat) then Some EOF else Some ErrUnexpectedEOF in
  let r := {| r_r := drop n (r_r r); r_err := e; decoded := decoded r; r_buf := r_buf r; r_i := r_i r;
              r_j := r_j r; readHeader := readHeader r |} in
  match e with
  | None => (true, got, r)
  | Some EOF => (false, got, if allowEOF then r else fail (RSnappy ErrCorrupt) r)
  | Some _ => (false, got, fail (RSnappy ErrCorrupt) r)
  end.

(** [readFull(r.buf[:n])] and [readFull(r.decoded[:n])] *)
Definition read_buf (n : nat) (allowEOF : bool) (r : Reader) : bool * Reader :=
  let '(ok, got, r) := readFull n allowEOF r in (ok, set_r_buf (got ++ drop (length got) (r_buf r)) r).
Definition read_decoded (n : nat) (r : Reader) : bool * Reader :=
  let '(ok, got, r) := readFull n false r in (ok, set_decoded (got ++ drop (length got) (decoded r)) r).

(** What a round of the loop does after the chunk header: go on with this reader, or
    return its error. *)
Definition read_compressed (chunkLen : Z) (r : Reader) : option (bool * Reader) :=
  if bool_decide (chunkLen < checksumSize) then Some (false, fail (RSnappy ErrCorrupt) r)
  else
    match read_buf (Z.to_nat chunkLen) false r with
    | (false, r) => Some (false, r)
    | (true, r) =>
      buf ← slice 0 (Z.to_nat chunkLen) (r_buf r);
      match buf with
      | b0 :: b1 :: b2 :: b3 :: buf =>
        let checksum := le4 b0 b1 b2 b3 in
        match DecodedLen wordSize buf with
        | Err e => Some (false, fail (RSnappy e) r)
        | Ok n =>
          if bool_decide (Z.of_nat (length (decoded r)) < n) then Some (false, fail (RSnappy ErrCorrupt) r)
          else
            '(dec, res) ← Decode wordSize (decoded r) buf;
            let r := set_decoded dec r in
            match res with
            | Err e => Some (false, fail (RSnappy e) r)
            | Ok _ =>
              data ← slice 0 (Z.to_nat n) (decoded r);
              if bool_decide (crc data ≠ checksum) then Some (false, fail (RSnappy ErrCorrupt) r)
              else Some (true, set_ij 0 (Z.to_nat n) r)
            end
        end
      | _ => None
      end
    end.

Definition read_uncompressed (chunkLen : Z) (r : Reader) : option (bool * Reader) :=
  if bool_decide (chunkLen < checksumSize) then Some (false, fail (RSnappy ErrCorrupt) r)
  else
    match read_buf (Z.to_nat checksumSize) false r with
    | (false, r) => Some (false, r)
    | (true, r) =>
      buf ← slice 0 (Z.to_nat checksumSize) (r_buf r);
      match buf with
      | [b0; b1; b2; b3] =>
        let checksum := le4 b0 b1 b2 b3 in
        let n := chunkLen - checksumSize in
        if bool_decide (Z.of_nat (length (decoded r)) < n) then Some (false, fail (RSnappy ErrCorrupt) r)
        else
          match read_decoded (Z.to_nat n) r with
          | (false, r) => Some (false, r)
          | (true, r) =>
            data ← slice 0 (Z.to_nat n) (decoded r);
            if bool_decide (crc data ≠ checksum) then Some (false, fail (RSnappy ErrCorrupt) r)
            else Some (true, set_ij 0 (Z.to_nat n) r)
          end
      | _ => None
      end
    end.

Definition read_identifier (chunkLen : Z) (r : Reader) : option (bool * Reader) :=
  if bool_decide (chunkLen ≠ Z.of_nat (length magicBody)) then Some (false, fail (RSnappy ErrCorrupt) r)
  else
    match read_buf (length magicBody) false r with
    | (false, r) => Some (false, r)
    | (true, r) =>
      buf ← slice 0 (length magicBody) (r_buf r);
      if bool_decide (buf ≠ magicBody) then Some (false, fail (RSnappy ErrCorrupt) r) else Some (true, r)
    end.

(** One round of the loop of [Read] when nothing decoded is left. *)
Definition read_chunk (r : Reader) : option (bool * Reader) :=
  match read_buf 4 true r with
  | (false, r) => Some (false, r)
  | (true, r) =>
    hdr ← slice 0 4 (r_buf r);
    match hdr with
    | [chunkType; l0; l1; l2] =>
      if negb (readHeader r) && bool_decide (chunkType ≠ chunkTypeStreamIdentifier)
      then Some (false, fail (RSnappy ErrCorrupt) r)
      else
        let r := set_readHeader r in
        let chunkLen := Z.lor (Z.lor l0 (Z.shiftl l1 8)) (Z.shiftl l2 16) in
        if bool_decide (Z.of_nat (length (r_buf r)) < chunkLen)
        then Some (false, fail (RSnappy ErrUnsupported) r)
        else if bool_decide (chunkType = chunkTypeCompressedData) then read_compressed chunkLen r
        else if bool_decide (chunkType = chunkTypeUncompressedData) then read_uncompressed chunkLen r
        else if bool_decide (chunkType = chunkTypeStreamIdentifier) then read_identifier chunkLen r
        else if bool_decide (chunkType ≤ 0x7f) then Some (false, fail (RSnappy ErrUnsupported) r)
        else Some (read_buf (Z.to_nat chunkLen) false r)
    | _ => None
    end
  end.

(** [Read] into a slice of length [n]: the bytes delivered and the error. *)
Fixpoint read_loop (fuel : nat) (n : nat) (r : Reader) : option (list Z * option read_error * Reader) :=
  if bool_decide (r_i r < r_j r)%nat then
    data ← slice (r_i r) (r_j r) (decoded r);
    let got := take n data in
    Some (got, None, set_ij (r_i r + length got) (r_j r) r)
  else
    match fuel with
    | O => None
    | Datatypes.S fuel =>
      x ← read_chunk r;
      match x with
      | (true, r) => read_loop fuel n r
      | (false, r) => Some ([], r_err r, r)
      end
    end.

Definition Read (n : nat) (r : Reader) : option (list Z * option read_error * Reader) :=
  match r_err r with
  | Some e => Some ([], Some e, r)
  | None => read_loop (Datatypes.S (length (r_r r))) n r
  end.
End reader.
