(* ===== verification/SnappyFraming.v ===== *)
(** * What a snappy Writer sends, a Reader reads

    A chunk carries some data; [chunk] says how.  The writer keeps that what it sent is
    the stream header and chunks with the data it was given; the reader, that what it
    has decoded and what the stream still has carry the data not yet delivered. *)

From S2P Require Import Prelude Snappy SnappyFormat SnappyRoundtrip SnappyStream.
Open Scope Z_scope.

Definition chunk_header (type n sum : Z) : list Z := [type] ++ le24_bytes n ++ le32_bytes sum.

Inductive chunk : list Z → list Z → Prop :=
| chunk_compressed p ops :
    let enc := uv_bytes 10 (Z.of_nat (length p)) ++ ops_bytes ops in
    1 ≤ Z.of_nat (length p) ≤ maxBlockSize → do_ops ops [] = Some p →
    Z.of_nat (length enc) ≤ maxEncodedLenOfMaxBlockSize →
    chunk (chunk_header 0 (4 + Z.of_nat (length enc)) (crc p) ++ enc) p
| chunk_raw p :
    1 ≤ Z.of_nat (length p) ≤ maxBlockSize →
    chunk (chunk_header 1 (4 + Z.of_nat (length p)) (crc p) ++ p) p.

Lemma chunk_data c p : chunk c p → p ≠ [].
Proof. destruct 1; intros ->; cbn in *; lia. Qed.

Lemma crc_range p : 0 ≤ crc p < 2 ^ 32.
Proof. unfold crc. cbn zeta. apply Z.mod_pos_bound. lia. Qed.

Lemma le24_value n : 0 ≤ n < 2 ^ 24 →
  Z.lor (Z.lor (u8 (Z.shiftr n 0)) (Z.shiftl (u8 (Z.shiftr n 8)) 8)) (Z.shiftl (u8 (Z.shiftr n 16)) 16) = n.
Proof.
  intros Hn. unfold u8. rewrite !shiftr_div by lia.
  rewrite (lor_shiftl_add _ ((n / 2 ^ 8) mod 2 ^ 8)) by zlia. rewrite lor_shiftl_add by zlia. zlia.
Qed.

Lemma le32_value n : 0 ≤ n < 2 ^ 32 →
  le4 (u8 (Z.shiftr n 0)) (u8 (Z.shiftr n 8)) (u8 (Z.shiftr n 16)) (u8 (Z.shiftr n 24)) = n.
Proof.
  intros Hn. unfold u8. rewrite !shiftr_div by lia.
  rewrite le4_value by (unfold is_byte; zlia). zlia.
Qed.

(** ** The writer *)
Lemma put_list_over i pre old bs (rest : list Z) :
  i = length pre → length old = length bs →
  put_list i bs (pre ++ old ++ rest) = Some (pre ++ bs ++ rest).
Proof.
  revert i pre old. induction bs as [|b bs IH]; intros i pre old -> Hl.
  { destruct old; done. }
  destruct old as [|o old]; [done|]. cbn [put_list]. unfold put.
  rewrite bool_decide_eq_true_2 by (rewrite !length_app; cbn; lia). cbn [mbind option_bind].
  rewrite insert_app_r_alt, Nat.sub_diag by lia. cbn [app insert list_insert].
  change (pre ++ b :: old ++ rest) with (pre ++ [b] ++ old ++ rest). rewrite app_assoc.
  rewrite (IH (S (length pre)) (pre ++ [b]) old); [by rewrite <-app_assoc|rewrite length_app; cbn; lia|].
  cbn in Hl. lia.
Qed.

(** The part of the buffer that is sent. *)
Lemma slice_out (wrote : bool) (h10 hdr body tail : list Z) n :
  length h10 = 10%nat → length hdr = 8%nat → (wrote = false → h10 = magicChunk) →
  take (length body) tail = body → n = (18 + length body)%nat →
  slice (if wrote then 10 else 0)%nat n (h10 ++ hdr ++ tail) =
    Some ((if wrote then [] else magicChunk) ++ hdr ++ body).
Proof.
  intros H10 H8 Hm Hb ->. assert (length body ≤ length tail)%nat as Hl.
  { rewrite <-Hb, length_take. lia. }
  rewrite slice_Some by (rewrite !length_app; destruct wrote; lia).
  rewrite <-Hb at 2. destruct wrote.
  - rewrite drop_app_length' by done. replace (_ - _)%nat with (length hdr + length body)%nat by lia.
    by rewrite take_app_add.
  - rewrite drop_0, <-Hm by done.
    replace (_ - _)%nat with (length h10 + (length hdr + length body))%nat by lia.
    by rewrite !take_app_add.
Qed.

Section writing.
Context {S E : Type} (sink_Write : list Z → S → option E * S) (contents : S → list Z).
Context (W : Z) (HW : W = 32 ∨ W = 64).

(** The sink takes everything. *)
Context (Hsink : ∀ b s, (sink_Write b s).1 = None ∧ contents (sink_Write b s).2 = contents s ++ b).

Lemma send_spec b (w : Writer S E) :
  ∃ w', send sink_Write b w = (None, w') ∧ contents (w_w w') = contents (w_w w) ++ b ∧
    w_err w' = w_err w ∧ ibuf w' = ibuf w ∧ obuf w' = obuf w ∧
    wroteStreamHeader w' = wroteStreamHeader w.
Proof.
  unfold send. destruct (Hsink b (w_w w)) as [H1 H2]. destruct (sink_Write b (w_w w)) as [e s].
  cbn in *. subst e. eexists. split; [done|]. done.
Qed.

Lemma MaxEncodedLen_block n : 0 ≤ n ≤ 65536 → 0 ≤ MaxEncodedLen W n ≤ maxEncodedLenOfMaxBlockSize.
Proof.
  intros Hn. unfold MaxEncodedLen, u64. cbn zeta. rewrite Z.mod_small by lia.
  rewrite !bool_decide_eq_false_2 by zlia. rewrite to_int_id by (done || zlia).
  unfold maxEncodedLenOfMaxBlockSize. zlia.
Qed.

Lemma split_obuf (b : list Z) :
  length b = Z.to_nat obufLen →
  ∃ h10 h8 tail, b = h10 ++ h8 ++ tail ∧ length h10 = 10%nat ∧ length h8 = 8%nat ∧
    length tail = Z.to_nat maxEncodedLenOfMaxBlockSize.
Proof.
  unfold obufLen, obufHeaderLen, maxEncodedLenOfMaxBlockSize. intros Hb. exists (take 10 b), (take 8 (drop 10 b)), (drop 8 (drop 10 b)).
  rewrite !take_drop, !length_take, !length_drop. split; [done|]. lia.
Qed.

Lemma copy_magic (b : list Z) :
  length b = Z.to_nat obufLen → length (copy b magicChunk) = Z.to_nat obufLen ∧
  take 10 (copy b magicChunk) = magicChunk.
Proof.
  intros Hb. rewrite length_copy. split; [done|]. unfold copy. rewrite (take_ge magicChunk).
  - apply (take_app_length magicChunk).
  - rewrite Hb. unfold obufLen, obufHeaderLen, maxEncodedLenOfMaxBlockSize. cbn [length magicChunk app magicBody]. lia.
Qed.

(** A chunk from a writer whose buffer is [h10 ++ h8 ++ tail]. *)
Lemma write_chunk_spec p (w : Writer S E) :
  Forall is_byte p → 1 ≤ Z.of_nat (length p) ≤ maxBlockSize → length (obuf w) = Z.to_nat obufLen →
  ∃ w' c, write_chunk sink_Write W p w = Some (None, w') ∧ chunk c p ∧
    contents (w_w w') = contents (w_w w) ++ (if wroteStreamHeader w then [] else magicChunk) ++ c ∧
    w_err w' = w_err w ∧ ibuf w' = ibuf w ∧ length (obuf w') = Z.to_nat obufLen ∧
    wroteStreamHeader w' = true.
Proof.
  intros Hb Hp Ho. unfold write_chunk. cbn zeta.
  set (w1 := if wroteStreamHeader w then w else _).
  assert (length (obuf w1) = Z.to_nat obufLen ∧ contents (w_w w1) = contents (w_w w) ∧
    w_err w1 = w_err w ∧ ibuf w1 = ibuf w ∧ wroteStreamHeader w1 = true ∧
    (wroteStreamHeader w = false → take 10 (obuf w1) = magicChunk)) as (Ho1 & Hc1 & He1 & Hi1 & Hh1 & Hm1).
  { unfold w1. destruct (wroteStreamHeader w) eqn:Hh; [done|].
    destruct (copy_magic (obuf w) Ho) as [H1 H2]. done. }
  clearbody w1. destruct (split_obuf (obuf w1) Ho1) as (h10 & h8 & tail & Hob & H10 & H8 & Htl).
  unfold maxBlockSize in Hp.
  destruct (MaxEncodedLen_block (Z.of_nat (length p)) ltac:(lia)) as [HM0 HM].
  destruct (Encode_spec W HW tail p Hb ltac:(lia) HM0) as (tail' & ops & Henc & Hdo & Hle & Hlt & Hin).
  specialize (Hin ltac:(lia)). set (enc := uv_bytes 10 (Z.of_nat (length p)) ++ ops_bytes ops) in *.
  assert (slice obufHeaderLen (length (obuf w1)) (obuf w1) = Some tail ∧
    take obufHeaderLen (obuf w1) = h10 ++ h8) as [-> ->].
  { rewrite Hob, (app_assoc h10), slice_Some by (rewrite !length_app; unfold obufHeaderLen; lia).
    rewrite drop_app_length', (take_ge tail), take_app_length' by (rewrite !length_app; unfold obufHeaderLen; lia).
    done. }
  cbn [mbind option_bind]. rewrite Henc. cbn [mbind option_bind].
  assert (wroteStreamHeader w = false → h10 = magicChunk) as Hm.
  { intros Hf. specialize (Hm1 Hf). rewrite Hob in Hm1. by rewrite take_app_length' in Hm1. }
  assert (∀ type n, put_list (length magicChunk) ([type] ++ le24_bytes n ++ le32_bytes (crc p))
    ((h10 ++ h8) ++ tail') = Some (h10 ++ chunk_header type n (crc p) ++ tail')) as Hput.
  { intros. rewrite <-app_assoc. by apply put_list_over. }
  rewrite Hput. cbn [mbind option_bind].
  assert (∀ hdr : list Z, length hdr = 8%nat → length (h10 ++ hdr ++ tail') = Z.to_nat obufLen) as Hlen.
  { intros hdr Hh. rewrite <-Ho1, Hob, !length_app. lia. }
  destruct (bool_decide _).
  - rewrite (slice_out _ h10 _ [] tail') by done. cbn [mbind option_bind]. rewrite app_nil_r.
    edestruct send_spec as (w2 & -> & Hc2 & He2 & Hi2 & Ho2 & Hh2).
    destruct (send_spec p w2) as (w3 & -> & Hc3 & He3 & Hi3 & Ho3 & Hh3).
    eexists _, _. split; [done|]. split; [by apply chunk_raw|]. cbn [set_obuf obuf w_w w_err ibuf wroteStreamHeader] in He2, Hi2, Ho2, Hh2, Hc2.
    rewrite Hc3, Hc2, Hc1, He3, He2, Hi3, Hi2, Ho3, Ho2, Hh3, Hh2. rewrite <-!app_assoc.
    split_and!; try done. by apply Hlen.
  - rewrite (slice_out _ h10 _ enc tail') by done. cbn [mbind option_bind].
    edestruct send_spec as (w2 & -> & Hc2 & He2 & Hi2 & Ho2 & Hh2).
    eexists _, _. split; [done|]. split; [apply chunk_compressed; [done|done|by etrans]|].
    cbn [set_obuf obuf w_w w_err ibuf wroteStreamHeader] in He2, Hi2, Ho2, Hh2, Hc2.
    rewrite Hc2, Hc1, He2, Hi2, Ho2, Hh2. split_and!; try done. by apply Hlen.
Qed.

(** What was sent is the header and chunks that carry [data]. *)
Definition stream_of (bs data : list Z) : Prop :=
  ∃ l, Forall (λ x, chunk x.1 x.2) l ∧ data = concat l.*2 ∧
    ((l = [] ∧ bs = []) ∨ bs = magicChunk ++ concat l.*1).

Record sent (w : Writer S E) (data : list Z) : Prop := {
  s_err : w_err w = None;
  s_obuf : length (obuf w) = Z.to_nat obufLen;
  s_stream : stream_of (contents (w_w w)) data;
  s_header : if wroteStreamHeader w then contents (w_w w) ≠ [] else contents (w_w w) = [];
}.

Lemma stream_snoc bs data c p :
  stream_of bs data → chunk c p →
  stream_of (bs ++ (if decide (bs = []) then magicChunk else []) ++ c) (data ++ p).
Proof.
  intros (l & Hl & -> & Hbs) Hc. exists (l ++ [(c, p)]). rewrite !fmap_app, !concat_app. cbn.
  rewrite !app_nil_r. split; [apply Forall_app; split; [done|by repeat constructor]|]. split; [done|].
  right. destruct Hbs as [[-> ->] | ->]; [done|].
  rewrite decide_False by done. by rewrite <-app_assoc.
Qed.

Lemma sent_chunk w data p :
  sent w data → Forall is_byte p → 1 ≤ Z.of_nat (length p) ≤ maxBlockSize →
  ∃ w', write_chunk sink_Write W p w = Some (None, w') ∧ sent w' (data ++ p) ∧ ibuf w' = ibuf w.
Proof.
  intros [He Ho Hs Hh] Hb Hp.
  destruct (write_chunk_spec p w Hb Hp Ho) as (w' & c & Heq & Hc & Hcon & He' & Hi' & Ho' & Hh').
  assert (contents (w_w w') = contents (w_w w) ++
    (if decide (contents (w_w w) = []) then magicChunk else []) ++ c) as Hcon'.
  { rewrite Hcon. destruct (wroteStreamHeader w); [by rewrite decide_False|by rewrite decide_True]. }
  exists w'. split; [done|]. split; [|done]. split; [congruence|done| |].
  - rewrite Hcon'. by apply stream_snoc.
  - rewrite Hh', Hcon'. intros [? Hnil]%app_nil. destruct Hc; destruct (decide _); done.
Qed.

Lemma write_loop_sent fuel n w data p :
  sent w data → Forall is_byte p → (length p ≤ fuel)%nat →
  ∃ w', write_loop sink_Write W fuel n p w = Some ((n + length p)%nat, None, w') ∧
    sent w' (data ++ p) ∧ ibuf w' = ibuf w.
Proof.
  revert n w data p. induction fuel as [|fuel IH]; intros n w data p Hs Hb Hf;
    (destruct (decide (p = [])) as [->|Hne];
     [exists w; rewrite app_nil_r; cbn; by rewrite Nat.add_0_r|]).
  { destruct p; [done|cbn in Hf; lia]. }
  assert (1 ≤ length p)%nat as H1 by (destruct p; [done|cbn; lia]).
  set (long := bool_decide (maxBlockSize < Z.of_nat (length p))).
  set (u := if long then take (Z.to_nat maxBlockSize) p else p).
  set (p' := if long then drop (Z.to_nat maxBlockSize) p else []).
  assert (p = u ++ p') as Hsplit.
  { unfold u, p'. destruct long; [by rewrite take_drop|by rewrite app_nil_r]. }
  assert (1 ≤ Z.of_nat (length u) ≤ maxBlockSize) as Hu.
  { unfold u, long, maxBlockSize. case_bool_decide; [rewrite length_take|]; lia. }
  assert (Forall is_byte u ∧ Forall is_byte p') as [Hbu Hbp] by (rewrite Hsplit in Hb; by apply Forall_app).
  destruct (sent_chunk w data u Hs Hbu Hu) as (w1 & Hw1 & Hs1 & Hi1).
  assert (write_loop sink_Write W (Datatypes.S fuel) n p w =
    write_loop sink_Write W fuel (n + length u) p' w1) as ->.
  { destruct p as [|x p0]; [done|]. cbn [write_loop]. fold long u p'. rewrite Hw1. done. }
  assert (length p = length u + length p')%nat as Hlen by (rewrite Hsplit at 1; apply length_app).
  clearbody u p' long. destruct (IH (n + length u)%nat w1 (data ++ u) p') as (w2 & -> & Hs2 & Hi2);
    [done|done|lia|].
  exists w2. rewrite <-app_assoc, <-Hsplit in Hs2. split; [do 3 f_equal; lia|]. split; [done|congruence].
Qed.

Lemma write_sent w data p :
  sent w data → Forall is_byte p →
  ∃ w', write sink_Write W p w = Some (length p, None, w') ∧ sent w' (data ++ p) ∧ ibuf w' = ibuf w.
Proof.
  intros Hs Hb. unfold write. rewrite (s_err _ _ Hs). by apply (write_loop_sent (length p) 0).
Qed.

Lemma sent_set_ibuf w data b : sent w data → sent (set_ibuf b w) data.
Proof. intros [????]. by split. Qed.

Lemma Flush_sent w data b :
  sent w data → ibuf w = Some b → Forall is_byte b →
  ∃ w', Flush sink_Write W w = Some (None, w') ∧ sent w' (data ++ b) ∧ ibuf w' = Some [].
Proof.
  intros Hs Hi Hb. unfold Flush. rewrite (s_err _ _ Hs), Hi. cbn [default].
  destruct b as [|x b]; [exists w; by rewrite app_nil_r|].
  destruct (write_sent w data (x :: b) Hs Hb) as (w' & Hw' & Hs' & Hi').
  cbn [default option_map from_option id]. rewrite Hw'. cbn [mbind option_bind].
  pose proof (sent_set_ibuf w' _ [] Hs') as Hs2.
  exists (set_ibuf [] w'). rewrite (s_err _ _ Hs2). by split_and!.
Qed.

(** The state of a buffered writer that was given [data]. *)
Definition writer_ok (w : Writer S E) (data : list Z) : Prop :=
  ∃ d b, data = d ++ b ∧ sent w d ∧ ibuf w = Some b ∧ Z.of_nat (length b) ≤ maxBlockSize ∧ Forall is_byte b.

Local Notation cap := (Z.to_nat maxBlockSize).

Lemma buffered_fit fuel n p b w d :
  sent w d → Forall is_byte p → Forall is_byte b → (length b + length p ≤ cap)%nat →
  ∃ w', write_buffered sink_Write W fuel n p b w = Some ((n + length p)%nat, None, w') ∧
    writer_ok w' (d ++ b ++ p).
Proof.
  intros Hs Hp Hb Hl.
  assert (write_buffered sink_Write W fuel n p b w =
    Some ((n + length p)%nat, None, set_ibuf (b ++ p) w)) as ->.
  { destruct fuel; cbn [write_buffered]; rewrite bool_decide_eq_false_2 by lia; by rewrite (s_err _ _ Hs). }
  eexists. split; [done|]. exists d, (b ++ p). split; [done|]. split; [by apply sent_set_ibuf|].
  split; [done|]. split; [rewrite length_app; unfold maxBlockSize in *; lia|by apply Forall_app].
Qed.

Lemma buffered_empty fuel n p w d :
  sent w d → ibuf w = Some [] → Forall is_byte p →
  ∃ w', write_buffered sink_Write W (Datatypes.S fuel) n p [] w = Some ((n + length p)%nat, None, w') ∧
    writer_ok w' (d ++ p).
Proof.
  intros Hs Hi Hp. destruct (decide (length p ≤ cap)%nat) as [Hle|Hgt].
  { by apply (buffered_fit _ n p [] w d). }
  cbn [write_buffered]. rewrite bool_decide_eq_true_2 by (cbn; lia). rewrite (s_err _ _ Hs).
  destruct (write_sent w d p Hs Hp) as (w1 & -> & Hs1 & Hi1). cbn [mbind option_bind].
  rewrite drop_ge by done.
  destruct (buffered_fit fuel (n + length p) [] [] w1 (d ++ p) Hs1) as (w' & -> & Hok); [done..|cbn; lia|].
  rewrite !app_nil_r in Hok. exists w'. split; [|done]. do 3 f_equal. cbn. lia.
Qed.

Lemma Write_ok w data p :
  writer_ok w data → Forall is_byte p →
  ∃ w', Write sink_Write W p w = Some (length p, None, w') ∧ writer_ok w' (data ++ p).
Proof.
  intros (d & b & -> & Hs & Hi & Hl & Hb) Hp. unfold Write. rewrite Hi, <-app_assoc.
  destruct (decide (length b + length p ≤ cap)%nat) as [Hle|Hgt].
  { by apply (buffered_fit 3 0 p b w d). }
  destruct (decide (b = [])) as [->|Hne]; [by apply (buffered_empty 2 0 p w d)|].
  set (n := ((cap - length b) `min` length p)%nat).
  assert (Forall is_byte (b ++ take n p)) as Hbn by (apply Forall_app; split; [done|by apply Forall_take]).
  destruct (Flush_sent (set_ibuf (b ++ take n p) w) d (b ++ take n p)) as (w1 & Hf & Hs1 & Hi1);
    [by apply sent_set_ibuf|done|done|].
  assert (write_buffered sink_Write W 3 0 p b w = write_buffered sink_Write W 2 n (drop n p) [] w1) as ->.
  { cbn [write_buffered]. rewrite bool_decide_eq_true_2 by lia. rewrite (s_err _ _ Hs).
    destruct b as [|x b]; [done|]. fold n. rewrite Hf. cbn [mbind option_bind]. by rewrite Hi1. }
  destruct (buffered_empty 1 n (drop n p) w1 _ Hs1 Hi1) as (w' & -> & Hok); [by apply Forall_drop|].
  exists w'. rewrite <-!app_assoc, take_drop in Hok. split; [|done]. do 3 f_equal.
  rewrite length_drop. lia.
Qed.

(** Calls on a writer before it is closed. *)
Inductive writer_call : Type := CWrite (p : list Z) | CFlush.

Definition given (c : writer_call) : list Z := match c with CWrite p => p | CFlush => [] end.

(** The writer after a call that reports success. *)
Definition run_call (w : Writer S E) (c : writer_call) : option (Writer S E) :=
  match c with
  | CWrite p =>
    match Write sink_Write W p w with
    | Some (n, None, w') => if decide (n = length p) then Some w' else None
    | _ => None
    end
  | CFlush => match Flush sink_Write W w with Some (None, w') => Some w' | _ => None end
  end.

Fixpoint run_calls (cs : list writer_call) (w : Writer S E) : option (Writer S E) :=
  match cs with
  | [] => match w_Close sink_Write W w with Some (None, w') => Some w' | _ => None end
  | c :: cs' => run_call w c ≫= run_calls cs'
  end.

Lemma run_calls_ok cs w data :
  writer_ok w data → Forall (λ c, Forall is_byte (given c)) cs →
  ∃ w', run_calls cs w = Some w' ∧ stream_of (contents (w_w w')) (data ++ concat (given <$> cs)).
Proof.
  revert w data. induction cs as [|c cs IH]; intros w data Hok Hb; cbn [run_calls].
  - destruct Hok as (d & b & -> & Hs & Hi & Hl & Hbb).
    destruct (Flush_sent w d b Hs Hi Hbb) as (w1 & Hf & Hs1 & Hi1). unfold w_Close. rewrite Hf.
    cbn [mbind option_bind]. rewrite (s_err _ _ Hs1). eexists. split; [done|]. cbn.
    rewrite app_nil_r. apply Hs1.
  - apply Forall_cons in Hb as [Hc Hb].
    assert (∃ w1, run_call w c = Some w1 ∧ writer_ok w1 (data ++ given c)) as (w1 & -> & Hok1).
    { destruct c as [p|]; cbn [run_call given].
      - destruct (Write_ok w data p Hok Hc) as (w1 & -> & Hok1). rewrite decide_True by done. eauto.
      - destruct Hok as (d & b & -> & Hs & Hi & Hl & Hbb).
        destruct (Flush_sent w d b Hs Hi Hbb) as (w1 & -> & Hs1 & Hi1). exists w1. split; [done|].
        exists (d ++ b), []. split_and!; [done|done|done|cbn; lia|done]. }
    cbn [mbind option_bind]. destruct (IH w1 _ Hok1 Hb) as (w' & -> & Hst).
    exists w'. split; [done|]. cbn. by rewrite app_assoc.
Qed.

Lemma NewBufferedWriter_ok s : contents s = [] → writer_ok (NewBufferedWriter s) [].
Proof.
  intros Hc. exists [], []. split; [done|]. split; [|done].
  split; cbn; [done|by rewrite length_replicate| |done]. exists []. split; [done|]. split; [done|]. by left.
Qed.
End writing.

(** ** The reader *)
Section reading.
Context (W : Z) (HW : W = 32 ∨ W = 64).

Record buffers (r : Reader) : Prop := {
  b_decoded : Z.of_nat (length (decoded r)) = maxBlockSize;
  b_buf : Z.of_nat (length (r_buf r)) = maxEncodedLenOfMaxBlockSize + checksumSize;
}.

Lemma readFull_ok bs rest allow r :
  r_r r = bs ++ rest →
  readFull (length bs) allow r =
    (true, bs, {| r_r := rest; r_err := None; decoded := decoded r; r_buf := r_buf r; r_i := r_i r;
                  r_j := r_j r; readHeader := readHeader r |}).
Proof.
  intros Hr. unfold readFull. rewrite Hr, take_app_length, drop_app_length. cbn zeta.
  by rewrite bool_decide_eq_true_2.
Qed.

Lemma read_buf_ok n bs rest allow r :
  r_r r = bs ++ rest → buffers r → n = length bs →
  Z.of_nat n ≤ maxEncodedLenOfMaxBlockSize + checksumSize →
  ∃ r', read_buf n allow r = (true, r') ∧ r_r r' = rest ∧ r_err r' = None ∧ buffers r' ∧
    decoded r' = decoded r ∧ r_i r' = r_i r ∧ r_j r' = r_j r ∧ readHeader r' = readHeader r ∧
    slice 0 n (r_buf r') = Some bs.
Proof.
  intros Hr [Hd Hb] -> Hn. unfold read_buf. rewrite (readFull_ok bs rest) by done. cbn [set_r_buf].
  eexists. split; [done|]. split_and!; try done.
  - split; cbn; [done|]. rewrite length_app, length_drop. unfold maxEncodedLenOfMaxBlockSize, checksumSize in *. lia.
  - cbn [set_r_buf r_buf]. rewrite slice_Some by (rewrite length_app; lia). by rewrite Nat.sub_0_r, drop_0, take_app_length.
Qed.

(** At the end of the stream. *)
Lemma read_chunk_eof r :
  r_r r = [] → ∃ r', read_chunk W r = Some (false, r') ∧ r_err r' = Some EOF.
Proof. intros Hr. unfold read_chunk, read_buf, readFull. rewrite Hr. cbn. eexists. done. Qed.

(** The stream header. *)
Lemma read_chunk_magic r rest :
  r_r r = magicChunk ++ rest → buffers r →
  ∃ r', read_chunk W r = Some (true, r') ∧ r_r r' = rest ∧ r_err r' = None ∧ buffers r' ∧
    r_i r' = r_i r ∧ r_j r' = r_j r ∧ readHeader r' = true.
Proof.
  intros Hr Hb. unfold read_chunk.
  destruct (read_buf_ok 4 [255; 6; 0; 0] (magicBody ++ rest) true r) as
    (r1 & -> & Hr1 & He1 & Hb1 & Hd1 & Hi1 & Hj1 & Hh1 & Hs1); [done|done|done|done|].
  rewrite Hs1. cbn [mbind option_bind].
  rewrite (bool_decide_eq_false_2 (255 ≠ chunkTypeStreamIdentifier)), andb_false_r
    by (intros Hne; by apply Hne).
  change (Z.lor (Z.lor 6 (Z.shiftl 0 8)) (Z.shiftl 0 16)) with 6. cbn zeta.
  set (r2 := set_readHeader r1). assert (buffers r2) as Hb2 by (by destruct Hb1; split).
  rewrite bool_decide_eq_false_2
    by (rewrite (b_buf _ Hb2); unfold maxEncodedLenOfMaxBlockSize, checksumSize; lia).
  rewrite !bool_decide_eq_false_2, bool_decide_eq_true_2 by done. unfold read_identifier.
  rewrite bool_decide_eq_false_2 by (intros Hne; by apply Hne).
  destruct (read_buf_ok (length magicBody) magicBody rest false r2) as
    (r3 & -> & Hr3 & He3 & Hb3 & Hd3 & Hi3 & Hj3 & Hh3 & Hs3); [done|done|done|done|].
  rewrite Hs3. cbn [mbind option_bind]. rewrite bool_decide_eq_false_2 by (intros Hne; by apply Hne).
  exists r3. split; [done|]. by rewrite Hi3, Hj3, Hh3.
Qed.

(** What the reader looks like after a chunk with data [p]. *)
Definition has_chunk (p rest : list Z) (r : Reader) : Prop :=
  r_r r = rest ∧ r_err r = None ∧ buffers r ∧ readHeader r = true ∧
  r_i r = 0%nat ∧ r_j r = length p ∧ take (length p) (decoded r) = p.

Lemma read_uncompressed_ok p rest r :
  1 ≤ Z.of_nat (length p) ≤ maxBlockSize → buffers r → readHeader r = true →
  r_r r = le32_bytes (crc p) ++ p ++ rest →
  ∃ r', read_uncompressed (4 + Z.of_nat (length p)) r = Some (true, r') ∧ has_chunk p rest r'.
Proof.
  intros Hp Hb Hh Hr. unfold read_uncompressed. rewrite bool_decide_eq_false_2 by (unfold checksumSize; lia).
  destruct (read_buf_ok (Z.to_nat checksumSize) (le32_bytes (crc p)) (p ++ rest) false r) as
    (r1 & -> & Hr1 & He1 & Hb1 & Hd1 & Hi1 & Hj1 & Hh1 & Hs1); [done|done|done|done|].
  rewrite Hs1. cbn [mbind option_bind le32_bytes le24_bytes app].
  rewrite bool_decide_eq_false_2 by (rewrite (b_decoded _ Hb1); unfold checksumSize; lia).
  unfold checksumSize. replace (4 + Z.of_nat (length p) - 4) with (Z.of_nat (length p)) by lia.
  rewrite Nat2Z.id. unfold read_decoded. rewrite (readFull_ok p rest) by done.
  rewrite le32_value by apply crc_range.
  set (r2 := set_decoded _ _). assert (decoded r2 = filled p (decoded r1)) as Hd2 by done.
  assert (length p ≤ length (decoded r1))%nat as Hle by (pose proof (b_decoded _ Hb1); lia).
  assert (take (length p) (decoded r2) = p) as Ht by (rewrite Hd2; apply take_app_length).
  rewrite slice_Some by (rewrite Hd2, length_filled; lia). cbn [mbind option_bind].
  rewrite Nat.sub_0_r, drop_0, Ht. rewrite bool_decide_eq_false_2 by (intros Hne; by apply Hne).
  eexists. split; [done|]. split_and!; try done; [|by rewrite <-Hh, <-Hh1].
  split; [|apply Hb1]. cbn. rewrite length_app, length_drop. pose proof (b_decoded _ Hb1). lia.
Qed.

Lemma read_compressed_ok p ops rest r :
  let enc := uv_bytes 10 (Z.of_nat (length p)) ++ ops_bytes ops in
  1 ≤ Z.of_nat (length p) ≤ maxBlockSize → do_ops ops [] = Some p →
  Z.of_nat (length enc) ≤ maxEncodedLenOfMaxBlockSize → buffers r → readHeader r = true →
  r_r r = (le32_bytes (crc p) ++ enc) ++ rest →
  ∃ r', read_compressed W (4 + Z.of_nat (length enc)) r = Some (true, r') ∧ has_chunk p rest r'.
Proof.
  intros enc Hp Hdo Hle Hb Hh Hr. unfold maxBlockSize in Hp.
  destruct (MaxEncodedLen_block W HW (Z.of_nat (length p)) ltac:(lia)) as [HM0 HM].
  unfold read_compressed. rewrite bool_decide_eq_false_2 by (unfold checksumSize; lia).
  destruct (read_buf_ok (Z.to_nat (4 + Z.of_nat (length enc))) (le32_bytes (crc p) ++ enc) rest false r) as
    (r1 & -> & Hr1 & He1 & Hb1 & Hd1 & Hi1 & Hj1 & Hh1 & Hs1); [done|done|rewrite length_app; cbn; lia| |].
  { unfold checksumSize. lia. }
  rewrite Hs1. cbn [mbind option_bind le32_bytes le24_bytes app]. rewrite le32_value by apply crc_range.
  assert (length p ≤ length (decoded r1))%nat as Hl1 by (pose proof (b_decoded _ Hb1); unfold maxBlockSize in *; lia).
  unfold DecodedLen. unfold enc at 1.
  rewrite (decodedLen_encoding W) by (lia || (apply to_int_id; [done|lia])).
  rewrite bool_decide_eq_false_2 by lia.
  destruct (Decode_encoding W HW (decoded r1) p ops) as (dec & Hdec & Hfill); [lia|done|done|].
  fold enc in Hdec. rewrite Hdec. cbn [mbind option_bind]. specialize (Hfill Hl1). subst dec.
  rewrite Nat2Z.id. set (r2 := set_decoded _ r1). assert (decoded r2 = filled p (decoded r1)) as Hd2 by done.
  rewrite slice_Some by (rewrite Hd2, length_filled; lia). cbn [mbind option_bind].
  assert (take (length p) (decoded r2) = p) as Ht by (rewrite Hd2; apply take_app_length).
  rewrite Nat.sub_0_r, drop_0, Ht. rewrite bool_decide_eq_false_2 by (intros Hne; by apply Hne).
  eexists. split; [done|]. split_and!; try done; [|by rewrite <-Hh, <-Hh1].
  split; [|apply Hb1]. cbn [set_ij decoded]. rewrite Hd2, length_filled by done. apply Hb1.
Qed.

(** The eight bytes of a chunk header, and what is decided on them. *)
Lemma read_chunk_header type n sum body rest r :
  0 ≤ n ≤ maxEncodedLenOfMaxBlockSize + checksumSize → 0 ≤ type ≤ 1 →
  r_r r = chunk_header type n sum ++ body ++ rest → buffers r → readHeader r = true →
  ∃ r', read_chunk W r = (if bool_decide (type = 0) then read_compressed W n r' else read_uncompressed n r') ∧
    r_r r' = (le32_bytes sum ++ body) ++ rest ∧ buffers r' ∧ readHeader r' = true.
Proof.
  intros Hn Hty Hr Hb Hh. unfold read_chunk.
  destruct (read_buf_ok 4 ([type] ++ le24_bytes n) ((le32_bytes sum ++ body) ++ rest) true r) as
    (r1 & -> & Hr1 & He1 & Hb1 & Hd1 & Hi1 & Hj1 & Hh1 & Hs1); [|done|done|done|].
  { rewrite Hr. unfold chunk_header. by rewrite <-!app_assoc. }
  rewrite Hs1. cbn [mbind option_bind app le24_bytes]. rewrite Hh1, Hh. cbn [negb andb].
  assert (0 ≤ n < 2 ^ 24) as Hn24 by (unfold maxEncodedLenOfMaxBlockSize, checksumSize in Hn; lia).
  rewrite le24_value by done. cbn zeta.
  assert (buffers (set_readHeader r1)) as Hb2 by (by destruct Hb1; split).
  rewrite bool_decide_eq_false_2 by (rewrite (b_buf _ Hb2); lia).
  exists (set_readHeader r1). split; [|done].
  unfold chunkTypeCompressedData, chunkTypeUncompressedData.
  case_bool_decide; [done|]. by rewrite bool_decide_eq_true_2 by lia.
Qed.

Lemma read_chunk_data c p rest r :
  chunk c p → r_r r = c ++ rest → buffers r → readHeader r = true →
  ∃ r', read_chunk W r = Some (true, r') ∧ has_chunk p rest r'.
Proof.
  destruct 1 as [p ops enc Hp Hdo Hle|p Hp]; rewrite <-app_assoc; intros Hr Hb Hh;
    apply read_chunk_header in Hr as (r1 & -> & Hr1 & Hb1 & Hh1);
    try (done || unfold maxBlockSize, maxEncodedLenOfMaxBlockSize, checksumSize in *; lia).
  - apply (read_compressed_ok p ops rest r1); done.
  - apply (read_uncompressed_ok p rest r1); done.
Qed.

(** What is decoded and not delivered. *)
Definition pending (r : Reader) : list Z := take (r_j r - r_i r) (drop (r_i r) (decoded r)).

(** The reader will deliver [data]. *)
Definition reader_ok (r : Reader) (data : list Z) : Prop :=
  r_err r = None ∧ buffers r ∧ (r_i r ≤ r_j r ≤ length (decoded r))%nat ∧
  ∃ l, Forall (λ x, chunk x.1 x.2) l ∧ data = pending r ++ concat l.*2 ∧
    ((readHeader r = true ∧ r_r r = concat l.*1) ∨
     (r_i r = r_j r ∧ ((l = [] ∧ r_r r = []) ∨ r_r r = magicChunk ++ concat l.*1))).

(** What a call of [Read] does for a reader that will deliver [data]. *)
Definition delivers (data : list Z) (o : option (list Z * option read_error * Reader)) : Prop :=
  ∃ got e r', o = Some (got, e, r') ∧
    match data with
    | [] => got = [] ∧ e = Some EOF ∧ r_err r' = Some EOF
    | _ => got ≠ [] ∧ e = None ∧ ∃ data', data = got ++ data' ∧ reader_ok r' data'
    end.

Lemma length_pending r :
  (r_i r ≤ r_j r ≤ length (decoded r))%nat → length (pending r) = (r_j r - r_i r)%nat.
Proof. intros Hij. unfold pending. rewrite length_take, length_drop. lia. Qed.

Lemma drop_window n k i (l : list Z) :
  drop n (take k (drop i l)) = take (k - n `min` k) (drop (i + n `min` k) l).
Proof.
  destruct (decide (n ≤ k)%nat) as [Hle|Hgt].
  - rewrite Nat.min_l by done. by rewrite skipn_firstn_comm, drop_drop.
  - rewrite Nat.min_r, Nat.sub_diag by lia. rewrite drop_ge; [done|]. rewrite length_take. lia.
Qed.

Lemma read_loop_pending fuel n r l :
  (1 ≤ n)%nat → r_err r = None → buffers r → (r_i r < r_j r ≤ length (decoded r))%nat → readHeader r = true →
  Forall (λ x, chunk x.1 x.2) l → r_r r = concat l.*1 →
  delivers (pending r ++ concat l.*2) (read_loop W fuel n r).
Proof.
  intros Hn He Hb Hij Hh Hl Hr.
  assert (read_loop W fuel n r = Some (take n (pending r), None,
    set_ij (r_i r + length (take n (pending r))) (r_j r) r)) as ->.
  { unfold pending. destruct fuel; cbn [read_loop]; rewrite bool_decide_eq_true_2 by lia;
      rewrite slice_Some by lia; done. }
  pose proof (length_pending r ltac:(lia)) as Hlp. set (got := take n (pending r)).
  assert (length got = n `min` (r_j r - r_i r))%nat as Hgot by (unfold got; rewrite length_take; lia).
  eexists _, _, _. split; [done|].
  destruct (pending r ++ concat l.*2) eqn:Hd; [apply (f_equal length) in Hd; rewrite length_app in Hd; cbn in Hd; lia|].
  rewrite <-Hd. split; [intros Hnil; rewrite Hnil in Hgot; cbn in Hgot; lia|]. split; [done|].
  exists (drop n (pending r) ++ concat l.*2). split; [by rewrite app_assoc; unfold got; rewrite take_drop|].
  split; [done|]. split; [by destruct Hb; split|]. cbn [set_ij r_i r_j decoded]. split; [lia|].
  exists l. split; [done|]. split; [|by left]. f_equal.
  unfold pending. cbn [set_ij r_i r_j decoded]. rewrite Hgot, drop_window. f_equal. lia.
Qed.

(** A reader past the stream header, with nothing decoded. *)
Lemma read_loop_chunk fuel n r l :
  (1 ≤ n)%nat → (1 ≤ fuel)%nat → buffers r → r_i r = r_j r → readHeader r = true →
  Forall (λ x, chunk x.1 x.2) l → r_r r = concat l.*1 → delivers (concat l.*2) (read_loop W fuel n r).
Proof.
  intros Hn Hf Hb Hij Hh Hl Hr. destruct fuel as [|fuel]; [lia|]. cbn [read_loop].
  rewrite bool_decide_eq_false_2 by lia. destruct l as [|[c p] l].
  - destruct (read_chunk_eof r Hr) as (r' & -> & He). cbn. rewrite He. by eexists _, _, _.
  - apply Forall_cons in Hl as [Hc Hl]. cbn in Hr, Hc.
    destruct (read_chunk_data c p (concat l.*1) r Hc Hr Hb Hh) as (r' & -> & Hr' & He' & Hb' & Hh' & Hi' & Hj' & Hp').
    cbn [mbind option_bind fmap list_fmap snd concat].
    assert (pending r' = p) as Hpend by (unfold pending; by rewrite Hi', Hj', Nat.sub_0_r, drop_0).
    pose proof (chunk_data c p Hc) as Hne.
    assert (length p ≤ length (decoded r'))%nat as Hle by (rewrite <-Hp' at 1; rewrite length_take; lia).
    rewrite <-Hpend at 1. apply read_loop_pending; try done.
    rewrite Hi', Hj'. split; [destruct p; [done|cbn; lia]|done].
Qed.

Lemma Read_delivers n r data : (1 ≤ n)%nat → reader_ok r data → delivers data (Read W n r).
Proof.
  intros Hn (He & Hb & Hij & l & Hl & -> & Hst). unfold Read. rewrite He.
  destruct Hst as [[Hh Hr]|[Heq Hr]].
  - destruct (decide (r_i r = r_j r)) as [Heq|Hne].
    + unfold pending. rewrite Heq, Nat.sub_diag. cbn [take app]. apply read_loop_chunk; (done || lia).
    + apply read_loop_pending; (done || lia).
  - assert (pending r = []) as -> by (unfold pending; by rewrite Heq, Nat.sub_diag). cbn [app].
    cbn [read_loop]. rewrite bool_decide_eq_false_2 by lia. destruct Hr as [[-> Hr]|Hr].
    + destruct (read_chunk_eof r Hr) as (r' & -> & He'). cbn. rewrite He'. by eexists _, _, _.
    + destruct (read_chunk_magic r _ Hr Hb) as (r' & -> & Hr' & He' & Hb' & Hi' & Hj' & Hh').
      cbn [mbind option_bind]. apply read_loop_chunk; try done; [|congruence].
      rewrite Hr, length_app. cbn. lia.
Qed.

Lemma NewReader_ok bs data : stream_of bs data → reader_ok (NewReader bs) data.
Proof.
  intros (l & Hl & -> & Hbs). split; [done|].
  assert (buffers (NewReader bs)) as Hb.
  { split; unfold NewReader; cbn [decoded r_buf]; rewrite length_replicate;
      unfold maxBlockSize, maxEncodedLenOfMaxBlockSize, checksumSize; lia. }
  split; [done|]. cbn [NewReader r_i r_j]. split; [lia|]. exists l. split; [done|]. split; [done|].
  right. split; [done|]. destruct Hbs as [[-> ->] | ->]; [by left|by right].
Qed.

(** Calls of [Read] with the given buffer sizes: the answers. *)
Fixpoint run_reads (ns : list nat) (r : Reader) : option (list (list Z * option read_error)) :=
  match ns with
  | [] => Some []
  | n :: ns' => '(got, e, r') ← Read W n r; rest ← run_reads ns' r'; Some ((got, e) :: rest)
  end.

Lemma run_reads_eof ns r :
  r_err r = Some EOF → run_reads ns r = Some (replicate (length ns) ([], Some EOF)).
Proof.
  intros He. induction ns as [|n ns IH]; cbn [run_reads length replicate]; [done|].
  unfold Read. rewrite He. cbn [mbind option_bind]. by rewrite IH.
Qed.

Lemma run_reads_ok ns r data :
  Forall (λ n, 1 ≤ n)%nat ns → reader_ok r data →
  ∃ outs k rest, run_reads ns r = Some (((λ o, (o, None)) <$> outs) ++ replicate k ([], Some EOF)) ∧
    Forall (λ o, o ≠ []) outs ∧ data = concat outs ++ rest ∧ (k ≠ 0%nat → rest = []) ∧
    length ns = (length outs + k)%nat.
Proof.
  revert r data. induction ns as [|n ns IH]; intros r data Hns Hok.
  { exists [], 0%nat, data. by split_and!. }
  apply Forall_cons in Hns as [Hn Hns].
  destruct (Read_delivers n r data Hn Hok) as (got & e & r' & Heq & Hd). cbn [run_reads]. rewrite Heq.
  cbn [mbind option_bind]. destruct data as [|x data0] eqn:Hdata.
  - destruct Hd as (-> & -> & He). rewrite (run_reads_eof ns r' He).
    exists [], (S (length ns)), []. by split_and!.
  - destruct Hd as (Hne & -> & data' & Hdd & Hok'). rewrite Hdd.
    destruct (IH r' data' Hns Hok') as (outs & k & rest & -> & Ho & -> & Hk & Hlen).
    exists (got :: outs), k, rest. split; [done|]. split; [by constructor|].
    split; [cbn [concat]; by rewrite <-app_assoc|]. split; [done|]. cbn. lia.
Qed.
End reading.

(** [C8] What is written to a buffered Writer, in any pieces and with any flushes, is what a
    Reader of the bytes it sent delivers: every call of the writer succeeds, every read
    returns at least one byte until all data is delivered, in order, and from then on
    the end of the file. *)
Theorem stream_roundtrip {S E : Type} (sink_Write : list Z → S → option E * S) (contents : S → list Z)
    (W : Z) (s0 : S) (cs : list writer_call) (ns : list nat) :
  W = 32 ∨ W = 64 →
  (∀ b s, (sink_Write b s).1 = None ∧ contents (sink_Write b s).2 = contents s ++ b) →
  contents s0 = [] → Forall (λ c, Forall is_byte (given c)) cs → Forall (λ n, 1 ≤ n)%nat ns →
  ∃ w outs k rest,
    run_calls sink_Write W cs (NewBufferedWriter s0) = Some w ∧
    run_reads W ns (NewReader (contents (w_w w))) =
      Some (((λ o, (o, None)) <$> outs) ++ replicate k ([], Some EOF)) ∧
    concat (given <$> cs) = concat outs ++ rest ∧
    Forall (λ o, o ≠ []) outs ∧ (k ≠ 0%nat → rest = []) ∧ length ns = (length outs + k)%nat.
Proof.
  intros HW Hsink Hs0 Hcs Hns.
  destruct (run_calls_ok sink_Write contents W HW Hsink cs (NewBufferedWriter s0) []
    (NewBufferedWriter_ok contents s0 Hs0) Hcs) as (w & Hw & Hst). cbn [app] in Hst.
  destruct (run_reads_ok W HW ns _ _ Hns (NewReader_ok _ _ Hst)) as (outs & k & rest & Hr & Ho & Hd & Hk & Hl).
  exists w, outs, k, rest. by split_and!.
Qed.

(** A memory sink. *)
Definition mem_Write (b s : list Z) : option Empty_set * list Z := (None, s ++ b).

Lemma stream_roundtrip_witness : ∃ w outs k rest,
  run_calls mem_Write 64 [CWrite [1; 2; 3]; CFlush; CWrite sex] (NewBufferedWriter []) = Some w ∧
  run_reads 64 [2; 5; 30; 9; 100; 1]%nat (NewReader (w_w w)) =
    Some (((λ o, (o, None)) <$> outs) ++ replicate k ([], Some EOF)) ∧
  [1; 2; 3] ++ sex = concat outs ++ rest ∧ 6%nat = (length outs + k)%nat.
Proof.
  destruct (stream_roundtrip mem_Write (λ s, s) 64 [] [CWrite [1; 2; 3]; CFlush; CWrite sex]
    [2; 5; 30; 9; 100; 1]%nat) as (w & outs & k & rest & Hw & Hr & Hd & _ & _ & Hl).
  - by right.
  - done.
  - done.
  - repeat constructor; apply sex_bytes || (unfold is_byte; lia).
  - repeat constructor.
  - exists w, outs, k, rest. split; [exact Hw|]. split; [exact Hr|]. split; [exact Hd|exact Hl].
Defined.
