(* ===== verification/Wait.v ===== *)
(** * Waiting (k8s.io/apimachinery/pkg/util/wait/wait.go)

    Code that waits runs in a world with a clock.  The class [Timed] has what the
    functions below use of the world: its time, waiting until a time, and the choice a
    select statement makes between two ready cases.  While a goroutine waits, the world
    may change in any way; what a condition or a function does takes time too.  Floats are
    an argument: whether one is positive, and the product of a duration with it, with or
    without a random number between 0 and 1. *)

From S2P Require Import Prelude.

Class Timed (W : Type) := {
  now : W → Z;
  sleep_until : Z → W → W;
  select_first : W → bool;
}.

(** Time does not go back, timers do not fire early, and at most [slack] late. *)
Class Timed_laws (W : Type) `{Timed W} (slack : Z) := {
  sleep_mono t w : (now w ≤ now (sleep_until t w))%Z;
  sleep_ge t w : (t ≤ now (sleep_until t w))%Z;
  sleep_le t w : (now (sleep_until t w) ≤ Z.max t (now w) + slack)%Z;
}.

Section wait.
Context {W E F : Type} `{Timed W}.
Context (positive : F → bool) (one : F).
Context (times : F → Z → Z) (rand_times : F → Z → W → Z).

Inductive WaitError : Type :=
| ErrWaitTimeout
| ConditionError (e : E).

(** [ConditionFunc]: whether the condition is satisfied, or an error. *)
Definition ConditionFunc : Type := W → bool * option E * W.

Definition Jitter (duration : Z) (maxFactor : F) (w : W) : Z :=
  let maxFactor := if positive maxFactor then maxFactor else one in
  i64 (duration + rand_times maxFactor duration w).

(** ** Loops

    The result of a loop is [None] while it is still running. *)
Fixpoint JitterUntil (rounds : nat) (f : W → W) (period : Z) (jitterFactor : F)
    (sliding : bool) (stopped : W → bool) (w : W) : option W :=
  match rounds with
  | 0 => None
  | S rounds' =>
    if stopped w then Some w else
    let jitteredPeriod := if positive jitterFactor then Jitter period jitterFactor w else period in
    let started := now w in
    let w1 := f w in
    let fires := if sliding then (now w1 + jitteredPeriod)%Z else (started + jitteredPeriod)%Z in
    if stopped w1 then Some w1
    else JitterUntil rounds' f period jitterFactor sliding stopped (sleep_until fires w1)
  end.

Definition Until (rounds : nat) (zero : F) (f : W → W) (period : Z) : (W → bool) → W → option W :=
  JitterUntil rounds f period zero true.

Definition NonSlidingUntil (rounds : nat) (zero : F) (f : W → W) (period : Z) :
    (W → bool) → W → option W :=
  JitterUntil rounds f period zero false.

Definition Forever (rounds : nat) (zero : F) (f : W → W) (period : Z) : W → option W :=
  Until rounds zero f period (λ _, false).

Record Backoff := { Duration : Z; Factor : F; BJitter : F; Steps : nat }.

(** The loop of [ExponentialBackoff], with [steps] rounds left. *)
Fixpoint backoff_loop (backoff : Backoff) (condition : ConditionFunc) (first : bool)
    (duration : Z) (steps : nat) (w : W) : option WaitError * W :=
  match steps with
  | 0 => (Some ErrWaitTimeout, w)
  | S steps' =>
    let '(duration, w) :=
      if first then (duration, w)
      else
        let adjusted := if positive (BJitter backoff) then Jitter duration (BJitter backoff) w else duration in
        (times (Factor backoff) duration, sleep_until (now w + adjusted) w) in
    match condition w with
    | (_, Some e, w) => (Some (ConditionError e), w)
    | (true, None, w) => (None, w)
    | (false, None, w) => backoff_loop backoff condition false duration steps' w
    end
  end.

Definition ExponentialBackoff (backoff : Backoff) (condition : ConditionFunc) (w : W) :
    option WaitError * W :=
  backoff_loop backoff condition true (Duration backoff) (Steps backoff) w.

(** ** Polling

    The channel of a [poller]: when its goroutine started, the interval of its ticker, its
    timeout (0 means none) and when [done] is closed, if ever. *)
Record Poller := { p_start : Z; p_interval : Z; p_timeout : Z; p_done : option Z }.

Definition poller (interval timeout : Z) (done : option Z) (w : W) : Poller :=
  {| p_start := now w; p_interval := interval; p_timeout := timeout; p_done := done |}.

(** When the goroutine returns, which closes the channel. *)
Definition p_closes (p : Poller) : option Z :=
  let after := if (p_timeout p =? 0)%Z then None else Some (p_start p + p_timeout p)%Z in
  match after, p_done p with
  | Some a, Some d => Some (Z.min a d)
  | Some a, None => Some a
  | None, d => d
  end.

(** The first tick after [t]: ticks that nobody receives are dropped. *)
Definition next_tick (p : Poller) (t : Z) : Z :=
  (p_start p + ((t - p_start p) / p_interval p + 1) * p_interval p)%Z.

(** [_, open := <-c] *)
Definition receive (p : Poller) (w : W) : bool * W :=
  let tick := next_tick p (now w) in
  match p_closes p with
  | None => (true, sleep_until tick w)
  | Some c =>
    if (c <=? now w)%Z then (false, w)
    else if (c <? tick)%Z then (false, sleep_until c w)
    else if (tick <? c)%Z then (true, sleep_until tick w)
    else (select_first w, sleep_until tick w)
  end.

Fixpoint WaitFor (rounds : nat) (c : Poller) (fn : ConditionFunc) (w : W) :
    option (option WaitError * W) :=
  match rounds with
  | 0 => None
  | S rounds' =>
    let '(open, w1) := receive c w in
    match fn w1 with
    | (_, Some e, w2) => Some (Some (ConditionError e), w2)
    | (true, None, w2) => Some (None, w2)
    | (false, None, w2) => if open then WaitFor rounds' c fn w2 else Some (Some ErrWaitTimeout, w2)
    end
  end.

(** [time.NewTicker] panics on an interval that is not positive. *)
Definition WaitFor_poller (rounds : nat) (interval timeout : Z) (done : option Z)
    (condition : ConditionFunc) (w : W) : option (outcome W (option WaitError)) :=
  if (interval <=? 0)%Z then Some (Panic w)
  else (λ '(e, w'), Ret e w') <$> WaitFor rounds (poller interval timeout done w) condition w.

(** [done] of [pollInternal] is closed after [WaitFor] has returned. *)
Definition pollInternal (rounds : nat) (interval timeout : Z) (condition : ConditionFunc) :
    W → option (outcome W (option WaitError)) :=
  WaitFor_poller rounds interval timeout None condition.

Definition Poll (rounds : nat) (interval timeout : Z) (condition : ConditionFunc) :
    W → option (outcome W (option WaitError)) :=
  pollInternal rounds interval timeout condition.

Definition pollImmediateInternal (rounds : nat) (interval timeout : Z) (condition : ConditionFunc)
    (w : W) : option (outcome W (option WaitError)) :=
  match condition w with
  | (_, Some e, w1) => Some (Ret (Some (ConditionError e)) w1)
  | (true, None, w1) => Some (Ret None w1)
  | (false, None, w1) => pollInternal rounds interval timeout condition w1
  end.

Definition PollImmediate (rounds : nat) (interval timeout : Z) (condition : ConditionFunc) :
    W → option (outcome W (option WaitError)) :=
  pollImmediateInternal rounds interval timeout condition.

Definition PollUntil (rounds : nat) (interval : Z) (condition : ConditionFunc) (stopCh : option Z) :
    W → option (outcome W (option WaitError)) :=
  WaitFor_poller rounds interval 0 stopCh condition.

Definition PollInfinite (rounds : nat) (interval : Z) (condition : ConditionFunc) :
    W → option (outcome W (option WaitError)) :=
  PollUntil rounds interval condition None.

Definition PollImmediateInfinite (rounds : nat) (interval : Z) (condition : ConditionFunc) (w : W) :
    option (outcome W (option WaitError)) :=
  match condition w with
  | (_, Some e, w1) => Some (Ret (Some (ConditionError e)) w1)
  | (true, None, w1) => Some (Ret None w1)
  | (false, None, w1) => PollInfinite rounds interval condition w1
  end.

(** ** What polling does *)

(** [n] rounds in which the channel was open and the condition not satisfied. *)
Inductive open_rounds (c : Poller) (fn : ConditionFunc) : nat → W → W → Prop :=
| open_rounds_nil w : open_rounds c fn 0 w w
| open_rounds_cons n w w1 w2 w3 :
    receive c w = (true, w1) → fn w1 = (false, None, w2) →
    open_rounds c fn n w2 w3 → open_rounds c fn (S n) w w3.

(** What the last call of the condition makes of the whole wait. *)
Definition last_call (open : bool) (r : bool * option E) : option (option WaitError) :=
  match r with
  | (_, Some e) => Some (Some (ConditionError e))
  | (true, None) => Some None
  | (false, None) => if open then None else Some (Some ErrWaitTimeout)
  end.

Lemma WaitFor_rounds rounds c fn w e w' :
  WaitFor rounds c fn w = Some (e, w') →
  ∃ n w1 open w2 r, n < rounds ∧ open_rounds c fn n w w1 ∧ receive c w1 = (open, w2) ∧
    fn w2 = (r, w') ∧ last_call open r = Some e.
Proof.
  revert w. induction rounds as [|rounds IH]; [done|]. intros w. cbn.
  destruct (receive c w) as [open w1] eqn:Hr, (fn w1) as [[[|] [err|]] w2] eqn:Hf.
  1-3: intros [= <- <-]; exists 0, w, open, w1; eexists; repeat split; [lia|constructor|done|exact Hf|done].
  destruct open.
  - intros (n & w3 & o & w4 & r & Hn & Hrs & Hr' & Hf' & Hl)%IH.
    exists (S n), w3, o, w4, r. repeat split; [lia|by econstructor|done..].
  - intros [= <- <-]. exists 0, w, false, w1, (false, None). repeat split; [lia|constructor|done..].
Qed.

Section bounds.
Context (slack : Z) `{!Timed_laws W slack}.
Context (c : Poller) (fn : ConditionFunc) (D : Z).
Context (Hint : (0 < p_interval c)%Z) (Htime : (0 < p_timeout c)%Z) (Hdone : p_done c = None).
Context (Hfn : ∀ w, (now w ≤ now (fn w).2 ≤ now w + D)%Z).

Let T : Z := (p_start c + p_timeout c)%Z.

Lemma closes_at : p_closes c = Some T.
Proof. unfold p_closes. rewrite Hdone. destruct (Z.eqb_spec (p_timeout c) 0); [lia|done]. Qed.

(** The [k]-th tick or a later one has passed. *)
Definition ticked (k : Z) (w : W) : Prop := (p_start c + k * p_interval c ≤ now w)%Z.

Lemma next_tick_gt t : (t < next_tick c t)%Z.
Proof. unfold next_tick. zlia. Qed.

Lemma next_tick_ge k w : ticked k w → (p_start c + (k + 1) * p_interval c ≤ next_tick c (now w))%Z.
Proof.
  unfold ticked, next_tick. intros Hk.
  assert (k ≤ (now w - p_start c) / p_interval c)%Z by (apply Z.div_le_lower_bound; lia). nia.
Qed.

Lemma receive_open k w w1 :
  receive c w = (true, w1) → ticked k w →
  ticked (k + 1) w1 ∧ (k + 1 ≤ p_timeout c / p_interval c)%Z ∧ (now w1 ≤ T + slack)%Z.
Proof.
  intros Hr Hk%next_tick_ge. unfold receive in Hr. rewrite closes_at in Hr.
  destruct (Z.leb_spec T (now w)); [done|].
  destruct (Z.ltb_spec T (next_tick c (now w))); [done|].
  assert (w1 = sleep_until (next_tick c (now w)) w) as ->.
  { destruct (Z.ltb_spec (next_tick c (now w)) T); congruence. }
  pose proof (sleep_ge (next_tick c (now w)) w). pose proof (sleep_le (next_tick c (now w)) w).
  split; [unfold ticked; lia|]. split; [|lia].
  apply Z.div_le_lower_bound; [lia|]. unfold T in *. lia.
Qed.

Lemma receive_time open w w1 :
  receive c w = (open, w1) →
  (now w ≤ now w1)%Z ∧ (now w1 ≤ Z.max (now w) (T + slack))%Z ∧ (open = false → (T ≤ now w1)%Z).
Proof.
  unfold receive. rewrite closes_at. pose proof (sleep_le T w) as Hslack.
  destruct (Z.leb_spec T (now w)); [intros [= <- <-]; lia|].
  pose proof (sleep_ge T w). pose proof (sleep_mono T w).
  destruct (Z.ltb_spec T (next_tick c (now w))); [intros [= <- <-]; lia|].
  pose proof (sleep_le (next_tick c (now w)) w). pose proof (sleep_mono (next_tick c (now w)) w).
  pose proof (sleep_ge (next_tick c (now w)) w).
  destruct (Z.ltb_spec (next_tick c (now w)) T); intros [= <- <-]; lia.
Qed.

Lemma fn_time w r w' : fn w = (r, w') → (now w ≤ now w' ≤ now w + D)%Z.
Proof. intros Hf. specialize (Hfn w). by rewrite Hf in Hfn. Qed.

Lemma open_rounds_bounded n w w' k :
  open_rounds c fn n w w' → ticked k w → (0 ≤ k ≤ p_timeout c / p_interval c)%Z →
  (now w ≤ T + slack + D)%Z →
  ticked (k + Z.of_nat n) w' ∧ (k + Z.of_nat n ≤ p_timeout c / p_interval c)%Z ∧
  (now w' ≤ T + slack + D)%Z.
Proof.
  intros Hr. revert k. induction Hr as [w|n w w1 w2 w3 Hr Hf _ IH]; intros k Hk Hle Hw.
  { cbn. rewrite Z.add_0_r. repeat split; [done|lia|done]. }
  destruct (receive_open _ _ _ Hr Hk) as (Hk1 & Hle1 & Hw1). pose proof (fn_time _ _ _ Hf).
  destruct (IH (k + 1)%Z) as (? & ? & ?); [unfold ticked in *; lia..|].
  replace (k + Z.of_nat (S n))%Z with (k + 1 + Z.of_nat n)%Z by lia. done.
Qed.

Lemma WaitFor_returns rounds w k :
  ticked k w → (p_timeout c / p_interval c < k + Z.of_nat rounds)%Z →
  (k ≤ p_timeout c / p_interval c)%Z → is_Some (WaitFor rounds c fn w).
Proof.
  revert w k. induction rounds as [|rounds IH]; intros w k Hk Hlt Hle; [lia|]. cbn.
  destruct (receive c w) as [open w1] eqn:Hr, (fn w1) as [[[|] [err|]] w2] eqn:Hf; [done..|].
  destruct open; [|done]. destruct (receive_open _ _ _ Hr Hk) as (Hk1 & Hle1 & Hw1).
  pose proof (fn_time _ _ _ Hf). apply (IH w2 (k + 1)%Z); [unfold ticked in *; lia|lia..].
Qed.
End bounds.
End wait.
Arguments WaitError : clear implicits.
Arguments ErrWaitTimeout {E}.
Arguments ConditionError {E} _.
Arguments Backoff : clear implicits.
Arguments ConditionFunc : clear implicits.

#[export] Instance time_only : Timed Z :=
  {| now := id; sleep_until := Z.max; select_first := λ _, true |}.

#[export] Instance time_only_laws : Timed_laws Z 0.
Proof. split; intros; cbn; unfold id; lia. Qed.

(** When [Poll] returns, and what it has done by then. *)
Lemma Poll_returns {W E} `{Timed W} (slack interval timeout D : Z) (cond : ConditionFunc W E)
    (w : W) (rounds : nat) :
  Timed_laws W slack → (0 < interval)%Z → (0 < timeout)%Z →
  (∀ w, (now w ≤ now (cond w).2 ≤ now w + D)%Z) →
  (timeout / interval < Z.of_nat rounds)%Z →
  ∃ n w1 open w2 r w' e,
    Poll rounds interval timeout cond w = Some (Ret e w') ∧
    (Z.of_nat n ≤ timeout / interval)%Z ∧
    open_rounds (poller interval timeout None w) cond n w w1 ∧
    receive (poller interval timeout None w) w1 = (open, w2) ∧
    cond w2 = (r, w') ∧ last_call open r = Some e ∧
    (open = false → (now w + timeout ≤ now w2)%Z) ∧
    (now w' ≤ now w + timeout + slack + 2 * D)%Z.
Proof.
  intros Hl Hi Ht Hc Hn. set (c := poller interval timeout None w).
  destruct (WaitFor_returns slack c cond D Hi Ht eq_refl Hc rounds w 0) as [[e w'] Hw];
    [unfold ticked; cbn; lia|cbn; lia|apply Z.div_pos; cbn; lia|].
  pose proof (WaitFor_rounds _ _ _ _ _ _ Hw) as (n & w1 & open & w2 & r & Hlt & Hrs & Hr & Hf & He).
  assert (D_nonneg : (0 ≤ D)%Z) by (specialize (Hc w); lia).
  destruct (open_rounds_bounded slack c cond D Hi Ht eq_refl Hc n w w1 0 Hrs) as (_ & Hnb & Hb).
  { unfold ticked. cbn. lia. }
  { split; [done|]. apply Z.div_pos; cbn; lia. }
  { pose proof (sleep_le (now w) w). pose proof (sleep_mono (now w) w). cbn. lia. }
  destruct (receive_time slack c Ht eq_refl open w1 w2 Hr) as (_ & Hb2 & Hopen).
  pose proof (fn_time cond D Hc _ _ _ Hf). cbn in Hnb, Hb, Hb2, Hopen.
  exists n, w1, open, w2, r, w', e. unfold Poll, pollInternal, WaitFor_poller.
  rewrite (proj2 (Z.leb_gt interval 0)) by lia. fold c. rewrite Hw.
  repeat split; [cbn; lia|done..|lia].
Qed.

(** [C27] [Poll] with a positive interval and timeout always returns.  It calls the
    condition once more than the number of intervals in the timeout at most; every call
    but the last was not satisfied and followed a tick; the last call decides: its error,
    or success, or, when the timeout had passed before it, [ErrWaitTimeout].  Poll has
    returned two durations of the condition after the timeout at the latest: a call that
    the timeout finds running is followed by one more. *)
Theorem Poll_bounded {W E} `{Timed W} (slack interval timeout D : Z) (cond : ConditionFunc W E)
    (w : W) (rounds : nat) :
  Timed_laws W slack → (0 < interval)%Z → (0 < timeout)%Z →
  (∀ w, (now w ≤ now (cond w).2 ≤ now w + D)%Z) →
  (timeout / interval < Z.of_nat rounds)%Z →
  ∃ n w1 open w2 r w' e,
    Poll rounds interval timeout cond w = Some (Ret e w') ∧
    (Z.of_nat n ≤ timeout / interval)%Z ∧
    open_rounds (poller interval timeout None w) cond n w w1 ∧
    receive (poller interval timeout None w) w1 = (open, w2) ∧
    cond w2 = (r, w') ∧ last_call open r = Some e ∧
    (open = false → (now w + timeout ≤ now w2)%Z) ∧
    (now w' ≤ now w + timeout + slack + 2 * D)%Z.
Proof. apply Poll_returns. Qed.

(** A condition that holds from time 25 on and takes one unit, polled every 10 units. *)
Definition from_25 : ConditionFunc Z () := λ w, (bool_decide (25 ≤ w)%Z, None, (w + 1)%Z).

Example from_25_polled :
  Poll 4 10 35 from_25 0%Z = Some (Ret None 31%Z) ∧ Poll 3 10 20 from_25 0%Z = Some (Ret (Some ErrWaitTimeout) 22%Z).
Proof. split; reflexivity. Qed.

Lemma Poll_bounded_witness :
  ∃ n w1 open w2 r w' e,
    Poll 4 10 35 from_25 0%Z = Some (Ret e w') ∧ (Z.of_nat n ≤ 35 / 10)%Z ∧
    open_rounds (poller 10 35 None 0%Z) from_25 n 0%Z w1 ∧
    receive (poller 10 35 None 0%Z) w1 = (open, w2) ∧
    from_25 w2 = (r, w') ∧ last_call open r = Some e ∧
    (open = false → (now 0%Z + 35 ≤ now w2)%Z) ∧ (now w' ≤ now 0%Z + 35 + 0 + 2 * 1)%Z.
Proof.
  apply (Poll_bounded 0 10 35 1 from_25 0%Z 4 _).
  - lia.
  - lia.
  - intros w. cbn. unfold id. lia.
  - vm_compute. reflexivity.
Defined.
