(* ===== verification/ResourceLock.v ===== *)
(** * Lock records in API objects
    (k8s.io/client-go/tools/leaderelection/resourcelock)

    A lock keeps the record of an election in an annotation of an object, a ConfigMap or an
    Endpoints object, which it reads and writes through the API server.  Code that talks to
    the server is a program: a tree of actions, each followed by what the program does with
    the response, so that the same code can be run alone, against any answers, or
    interleaved with other clients.

    The text of an annotation is its JSON content, where it has the form of a record;
    timestamps have the precision they are printed with. *)

From S2P Require Import Prelude.
Open Scope Z_scope.

Definition second : Z := 1000000000.

(** ** Times (apimachinery/pkg/apis/meta/v1/time.go)

    In nanoseconds since the year 1.  A time that was read from a clock carries a monotonic
    reading, a time that was parsed has whole seconds and no monotonic reading: the two
    are never deeply equal. *)
Inductive Time : Type :=
| TZero
| TNow (ns : Z)
| TParsed (sec : Z).

#[export] Instance Time_eq_dec : EqDecision Time.
Proof. solve_decision. Defined.

Definition nanos (t : Time) : Z :=
  match t with TZero => 0 | TNow ns => ns | TParsed sec => sec * second end.

Definition IsZero (t : Time) : bool := nanos t =? 0.

(** The JSON form: null, or a time in RFC 3339, which has whole seconds. *)
Definition Time_MarshalJSON (t : Time) : option Z :=
  if IsZero t then None else Some (nanos t / second).

Definition Time_UnmarshalJSON (b : option Z) : Time :=
  match b with None => TZero | Some sec => TParsed sec end.

(** [t.Add(d).After(u)] *)
Definition AddAfter (t : Time) (d : Z) (u : Time) : bool := nanos u <? nanos t + d.

(** ** Records (interface.go) *)
Record LeaderElectionRecord := {
  HolderIdentity : string;
  LeaseDurationSeconds : Z;
  AcquireTime : Time;
  RenewTime : Time;
  LeaderTransitions : Z;
}.

#[export] Instance LeaderElectionRecord_eq_dec : EqDecision LeaderElectionRecord.
Proof. solve_decision. Defined.

Definition zero_record : LeaderElectionRecord :=
  {| HolderIdentity := ""; LeaseDurationSeconds := 0; AcquireTime := TZero; RenewTime := TZero;
     LeaderTransitions := 0 |}.

Definition LeaderElectionRecordAnnotationKey : string := "control-plane.alpha.kubernetes.io/leader".
Definition EndpointsResourceLock : string := "endpoints".
Definition ConfigMapsResourceLock : string := "configmaps".

(** An annotation: the JSON document of a record, or text that does not decode as one. *)
Inductive annotation : Type :=
| Document (holderIdentity : string) (leaseDurationSeconds : Z)
    (acquireTime renewTime : option Z) (leaderTransitions : Z)
| Malformed (text : string).

(** Marshalling a record does not fail. *)
Definition json_Marshal (r : LeaderElectionRecord) : annotation :=
  Document (HolderIdentity r) (LeaseDurationSeconds r) (Time_MarshalJSON (AcquireTime r))
    (Time_MarshalJSON (RenewTime r)) (LeaderTransitions r).

Definition json_Unmarshal (b : annotation) : option LeaderElectionRecord :=
  match b with
  | Document h l a r t =>
    Some {| HolderIdentity := h; LeaseDurationSeconds := l; AcquireTime := Time_UnmarshalJSON a;
            RenewTime := Time_UnmarshalJSON r; LeaderTransitions := t |}
  | Malformed _ => None
  end.

(** ** API objects and the client (client-go/kubernetes/typed/core/v1/configmap.go) *)
Record Object := {
  o_Name : string;
  o_Namespace : string;
  o_ResourceVersion : string;
  o_Annotations : option (gmap string annotation);
}.

Definition zero_object : Object :=
  {| o_Name := ""; o_Namespace := ""; o_ResourceVersion := ""; o_Annotations := None |}.

Definition with_Annotations (m : gmap string annotation) (o : Object) : Object :=
  {| o_Name := o_Name o; o_Namespace := o_Namespace o; o_ResourceVersion := o_ResourceVersion o;
     o_Annotations := Some m |}.

Inductive ApiError : Type :=
| NotFound
| AlreadyExists
| Conflict
| OtherError (reason : string).

Inductive Error : Type :=
| ApiErr (e : ApiError)
| SyntaxError
| NotInitialized.

Definition IsNotFound (e : Error) : bool :=
  match e with ApiErr NotFound => true | _ => false end.

(** What a client does: read its clock, call the server for an object of some resource,
    record an event, invoke a callback. *)
Inductive Callback : Type :=
| OnStartedLeading
| OnStoppedLeading
| OnNewLeader (identity : string).

Inductive action : Type :=
| ANow
| AGet (resource ns name : string)
| ACreate (resource ns : string) (o : Object)
| AUpdate (resource ns : string) (o : Object)
| AEvent (o : Object) (message : string)
| ACall (c : Callback).

Definition response (a : action) : Type :=
  match a with
  | ANow => Z
  | AGet _ _ _ | ACreate _ _ _ | AUpdate _ _ _ => res ApiError Object
  | AEvent _ _ | ACall _ => ()
  end.

Inductive prog (A : Type) : Type :=
| Return (a : A)
| Do (a : action) (k : response a → prog A)
| Crash.
Arguments Return {A} _.
Arguments Do {A} _ _.
Arguments Crash {A}.

#[export] Instance prog_ret : MRet prog := λ A, Return.

#[export] Instance prog_bind : MBind prog := λ A B f,
  fix bind m := match m with
  | Return a => f a
  | Do a k => Do a (λ r, bind (k r))
  | Crash => Crash
  end.

Definition act (a : action) : prog (response a) := Do a Return.

(** [result = &v1.ConfigMap{}; err = ... Into(result)]: the object is empty on an error. *)
Definition Into (r : res ApiError Object) : Object * option Error :=
  match r with Ok o => (o, None) | Err e => (zero_object, Some (ApiErr e)) end.

Definition client_Get (resource ns name : string) : prog (Object * option Error) :=
  r ← act (AGet resource ns name); mret (Into r).
Definition client_Create (resource ns : string) (o : Object) : prog (Object * option Error) :=
  r ← act (ACreate resource ns o); mret (Into r).
Definition client_Update (resource ns : string) (o : Object) : prog (Object * option Error) :=
  r ← act (AUpdate resource ns o); mret (Into r).

(** ** Locks

    [rl.Interface], with the lock as a value that its methods change. *)
Class Interface (L : Type) := {
  Get : L → prog (res Error LeaderElectionRecord * L);
  Create : LeaderElectionRecord → L → prog (option Error * L);
  Update : LeaderElectionRecord → L → prog (option Error * L);
  RecordEvent : string → L → prog ();
  Identity : L → string;
  Describe : L → string;
}.

(** [ConfigMapLock] and [EndpointsLock] differ in the resource only. *)
Record ResourceLock := {
  l_Resource : string;
  l_Namespace : string;
  l_Name : string;
  l_Identity : string;
  l_Object : option Object;   (* nil before the first call *)
}.

Definition set_Object (o : Object) (l : ResourceLock) : ResourceLock :=
  {| l_Resource := l_Resource l; l_Namespace := l_Namespace l; l_Name := l_Name l;
     l_Identity := l_Identity l; l_Object := Some o |}.

Definition lock_Get (l : ResourceLock) : prog (res Error LeaderElectionRecord * ResourceLock) :=
  '(o, err) ← client_Get (l_Resource l) (l_Namespace l) (l_Name l);
  match err with
  | Some e => mret (Err e, set_Object o l)
  | None =>
    let annotations := default ∅ (o_Annotations o) in
    let l := set_Object (with_Annotations annotations o) l in
    match annotations !! LeaderElectionRecordAnnotationKey with
    | Some recordBytes =>
      match json_Unmarshal recordBytes with
      | Some record => mret (Ok record, l)
      | None => mret (Err SyntaxError, l)
      end
    | None => mret (Ok zero_record, l)
    end
  end.

Definition lock_Create (ler : LeaderElectionRecord) (l : ResourceLock) :
    prog (option Error * ResourceLock) :=
  let recordBytes := json_Marshal ler in
  '(o, err) ← client_Create (l_Resource l) (l_Namespace l)
    {| o_Name := l_Name l; o_Namespace := l_Namespace l; o_ResourceVersion := "";
       o_Annotations := Some {[ LeaderElectionRecordAnnotationKey := recordBytes ]} |};
  mret (err, set_Object o l).

(** Assigning to a nil map panics. *)
Definition lock_Update (ler : LeaderElectionRecord) (l : ResourceLock) :
    prog (option Error * ResourceLock) :=
  match l_Object l with
  | None => mret (Some NotInitialized, l)
  | Some o =>
    let recordBytes := json_Marshal ler in
    match o_Annotations o with
    | None => Crash
    | Some m =>
      '(o', err) ← client_Update (l_Resource l) (l_Namespace l)
        (with_Annotations (<[LeaderElectionRecordAnnotationKey := recordBytes]> m) o);
      mret (err, set_Object o' l)
    end
  end.

Definition lock_RecordEvent (s : string) (l : ResourceLock) : prog () :=
  let events := (l_Identity l +:+ " " +:+ s)%string in
  match l_Object l with
  | None => Crash
  | Some o => act (AEvent o events)
  end.

Definition lock_Describe (l : ResourceLock) : string := (l_Namespace l +:+ "/" +:+ l_Name l)%string.

#[export] Instance ResourceLock_Interface : Interface ResourceLock := {|
  Get := lock_Get;
  Create := lock_Create;
  Update := lock_Update;
  RecordEvent := lock_RecordEvent;
  Identity := l_Identity;
  Describe := lock_Describe;
|}.

Definition New (lockType ns name identity : string) : option ResourceLock :=
  if bool_decide (lockType = EndpointsResourceLock ∨ lockType = ConfigMapsResourceLock) then
    Some {| l_Resource := lockType; l_Namespace := ns; l_Name := name; l_Identity := identity; l_Object := None |}
  else None.
