(* ===== verification/LeaderElection.v ===== *)
(** * Leader election (k8s.io/client-go/tools/leaderelection/leaderelection.go)

    An elector competes for a lock: it reads the record, waits until the record has not
    changed for the duration of a lease, and then writes its own name into it; the holder
    renews by writing again.  An attempt ([tryAcquireOrRenew]) is a program over the actions
    of [ResourceLock]; the loops around it ([acquire], [renew], [Run]) run such programs in a
    world that answers the actions, however it likes, and in which time passes. *)

From S2P Require Import Prelude TokenBucket RateLimiters Wait ResourceLock.
Open Scope Z_scope.

(** [time.Duration(JitterFactor*float64(d))] with [JitterFactor = 1.2]: as a float64 the
    factor is 5404319552844595 / 2^52; the product is rounded, then truncated. *)
Definition JitterFactor_mantissa : Z := 5404319552844595.

Definition times_JitterFactor (out_of_range : F64 → Z) (d : Z) : Z :=
  match float64_of_int d with
  | Fin x =>
    match float64_of_int (JitterFactor_mantissa * x) with
    | Fin p => duration_of_float out_of_range (Fin (Z.quot p (2 ^ 52)))
    | y => out_of_range y
    end
  | y => out_of_range y
  end.

Section elector.
Context {L : Type} `{Interface L}.

Record LeaderElectionConfig := {
  Lock : L;
  LeaseDuration : Z;
  RenewDeadline : Z;
  RetryPeriod : Z;
  HasOnNewLeader : bool;   (* Callbacks.OnNewLeader != nil *)
}.

Record LeaderElector := {
  config : LeaderElectionConfig;
  observedRecord : LeaderElectionRecord;
  observedTime : Time;
  reportedLeader : string;
}.

Inductive ConfigError : Type :=
| LeaseNotGreater
| DeadlineNotGreater
| NilLock.

(** A nil lock is [None]. *)
Definition NewLeaderElector (out_of_range : F64 → Z) (lock : option L)
    (lease deadline retry : Z) (hasOnNewLeader : bool) : res ConfigError LeaderElector :=
  if lease <=? deadline then Err LeaseNotGreater
  else if deadline <=? times_JitterFactor out_of_range retry then Err DeadlineNotGreater
  else match lock with
  | None => Err NilLock
  | Some l => Ok {|
      config := {| Lock := l; LeaseDuration := lease; RenewDeadline := deadline;
                   RetryPeriod := retry; HasOnNewLeader := hasOnNewLeader |};
      observedRecord := zero_record; observedTime := TZero; reportedLeader := "" |}
  end.

(** The lock changes when its methods are called. *)
Definition set_Lock (l : L) (le : LeaderElector) : LeaderElector :=
  {| config := {| Lock := l; LeaseDuration := LeaseDuration (config le);
                  RenewDeadline := RenewDeadline (config le); RetryPeriod := RetryPeriod (config le);
                  HasOnNewLeader := HasOnNewLeader (config le) |};
     observedRecord := observedRecord le; observedTime := observedTime le;
     reportedLeader := reportedLeader le |}.

Definition set_observed (r : LeaderElectionRecord) (t : Time) (le : LeaderElector) : LeaderElector :=
  {| config := config le; observedRecord := r; observedTime := t; reportedLeader := reportedLeader le |}.

Definition set_reported (s : string) (le : LeaderElector) : LeaderElector :=
  {| config := config le; observedRecord := observedRecord le; observedTime := observedTime le;
     reportedLeader := s |}.

Definition le_Identity (le : LeaderElector) : string := Identity (Lock (config le)).

Definition GetLeader (le : LeaderElector) : string := HolderIdentity (observedRecord le).

Definition IsLeader (le : LeaderElector) : bool :=
  bool_decide (HolderIdentity (observedRecord le) = le_Identity le).

(** ** One attempt *)

(** The record an attempt starts from. *)
Definition fresh_record (le : LeaderElector) (now : Time) : LeaderElectionRecord :=
  {| HolderIdentity := le_Identity le;
     LeaseDurationSeconds := Z.quot (LeaseDuration (config le)) second;
     AcquireTime := now; RenewTime := now; LeaderTransitions := 0 |}.

(** 3. What is kept of the old record. *)
Definition updated_record (le : LeaderElector) (old ler : LeaderElectionRecord) : LeaderElectionRecord :=
  if bool_decide (HolderIdentity old = le_Identity le) then
    {| HolderIdentity := HolderIdentity ler; LeaseDurationSeconds := LeaseDurationSeconds ler;
       AcquireTime := AcquireTime old; RenewTime := RenewTime ler;
       LeaderTransitions := LeaderTransitions old |}
  else
    {| HolderIdentity := HolderIdentity ler; LeaseDurationSeconds := LeaseDurationSeconds ler;
       AcquireTime := AcquireTime ler; RenewTime := RenewTime ler;
       LeaderTransitions := i64 (LeaderTransitions old + 1) |}.

(** 2. Note the time at which the record was first seen. *)
Definition observe (old : LeaderElectionRecord) (le : LeaderElector) : prog LeaderElector :=
  if bool_decide (observedRecord le = old) then mret le
  else t ← act ANow; mret (set_observed old (TNow t) le).

Definition held_by_other (le : LeaderElector) (old : LeaderElectionRecord) (now : Time) : bool :=
  AddAfter (observedTime le) (LeaseDuration (config le)) now &&
  negb (bool_decide (HolderIdentity old = le_Identity le)).

(** 1. No record yet: create it. *)
Definition try_create (ler : LeaderElectionRecord) (le : LeaderElector) : prog (bool * LeaderElector) :=
  '(err, lock) ← Create ler (Lock (config le));
  let le := set_Lock lock le in
  match err with
  | Some _ => mret (false, le)
  | None => t ← act ANow; mret (true, set_observed ler (TNow t) le)
  end.

(** Update the lock itself. *)
Definition try_update (ler : LeaderElectionRecord) (le : LeaderElector) : prog (bool * LeaderElector) :=
  '(err, lock) ← Update ler (Lock (config le));
  let le := set_Lock lock le in
  match err with
  | Some _ => mret (false, le)
  | None => t ← act ANow; mret (true, set_observed ler (TNow t) le)
  end.

Definition tryAcquireOrRenew (le : LeaderElector) : prog (bool * LeaderElector) :=
  t0 ← act ANow;
  let now := TNow t0 in
  let leaderElectionRecord := fresh_record le now in
  '(r, lock) ← Get (Lock (config le));
  let le := set_Lock lock le in
  match r with
  | Err e => if negb (IsNotFound e) then mret (false, le) else try_create leaderElectionRecord le
  | Ok old =>
    le ← observe old le;
    if held_by_other le old now then mret (false, le)
    else try_update (updated_record le old leaderElectionRecord) le
  end.

Definition maybeReportTransition (le : LeaderElector) : prog LeaderElector :=
  if bool_decide (HolderIdentity (observedRecord le) = reportedLeader le) then mret le
  else
    let le := set_reported (HolderIdentity (observedRecord le)) le in
    if HasOnNewLeader (config le) then act (ACall (OnNewLeader (reportedLeader le))) ;; mret le
    else mret le.

(** The function [acquire] repeats, with whether it closes [stop]. *)
Definition acquire_round (le : LeaderElector) : prog (bool * LeaderElector) :=
  '(succeeded, le) ← tryAcquireOrRenew le;
  le ← maybeReportTransition le;
  if (succeeded : bool) then RecordEvent "became leader" (Lock (config le)) ;; mret (true, le)
  else mret (false, le).

(** What [renew] does after polling, with whether it closes [stop]. *)
Definition renew_round (renewed : bool) (le : LeaderElector) : prog (bool * LeaderElector) :=
  le ← maybeReportTransition le;
  if renewed then mret (false, le)
  else RecordEvent "stopped leading" (Lock (config le)) ;; mret (true, le).

(** ** Running

    A world answers actions and has a clock. *)
Section run.
Context {W : Type} `{Timed W} (handle : ∀ a : action, W → response a * W).
Context {F : Type} (positive : F → bool) (one zero JitterFactor : F) (rand_times : F → Z → W → Z).

Fixpoint run {A} (p : prog A) (w : W) : option (A * W) :=
  match p with
  | Return a => Some (a, w)
  | Do a k => let '(r, w') := handle a w in run (k r) w'
  | Crash => None
  end.

(** How far a loop has got: its channel [stop] was closed, the goroutine panicked, or
    another goroutine panicked, which ends the process; [Polling] where the rounds given to
    a poll did not suffice. *)
Inductive status : Type := Going | Closed | Panicked | Killed | Polling.

#[export] Instance status_eq_dec : EqDecision status.
Proof. solve_decision. Defined.

(** An elector in its world. *)
Record running := { r_elector : LeaderElector; r_world : W; r_status : status }.

#[export] Instance running_Timed : Timed running := {|
  now s := now (r_world s);
  sleep_until t s := {| r_elector := r_elector s; r_world := sleep_until t (r_world s);
                        r_status := r_status s |};
  select_first s := select_first (r_world s);
|}.

Definition set_status (st : status) (s : running) : running :=
  {| r_elector := r_elector s; r_world := r_world s; r_status := st |}.

(** Runs a program on the elector and gives the boolean it returns. *)
Definition run_on (p : LeaderElector → prog (bool * LeaderElector)) (s : running) : bool * running :=
  match run (p (r_elector s)) (r_world s) with
  | Some ((b, le), w) => (b, {| r_elector := le; r_world := w; r_status := r_status s |})
  | None => (false, set_status Panicked s)
  end.

Definition close_stop (r : bool * running) : running :=
  let '(b, s) := r in if b then set_status Closed s else s.

Definition ended (s : running) : bool := negb (bool_decide (r_status s = Going)).

Definition start (le : LeaderElector) (w : W) : running :=
  {| r_elector := le; r_world := w; r_status := Going |}.

Definition acquire (rounds : nat) (le : LeaderElector) (w : W) : option running :=
  JitterUntil positive one (λ f d s, rand_times f d (r_world s)) rounds
    (λ s, close_stop (run_on acquire_round s)) (RetryPeriod (config le)) JitterFactor true ended
    (start le w).

(** The condition [renew] polls; an attempt that panics ends the polling. *)
Definition renew_condition (s : running) : bool * option () * running :=
  let '(b, s') := run_on tryAcquireOrRenew s in
  (b, if bool_decide (r_status s' = Panicked) then Some () else None, s').

(** One round of [renew]; the ticker of [Poll] panics in a goroutine of its own. *)
Definition renew_step (s : running) : running :=
  let retry := RetryPeriod (config (r_elector s)) in
  let deadline := RenewDeadline (config (r_elector s)) in
  match Poll (S (Z.to_nat (deadline / retry))) retry deadline renew_condition s with
  | Some (Ret err s') =>
    if bool_decide (r_status s' = Panicked) then s'
    else close_stop (run_on (renew_round (match err with None => true | _ => false end)) s')
  | Some (Panic s') => set_status Killed s'
  | None => set_status Polling s
  end.

Definition renew (rounds : nat) (le : LeaderElector) (w : W) : option running :=
  Until positive one (λ f d s, rand_times f d (r_world s)) rounds zero renew_step 0
    ended (start le w).

(** [OnStoppedLeading] is deferred, so it is called when the goroutine panics as well. *)
Definition Run (rounds : nat) (le : LeaderElector) (w : W) : option running :=
  s ← acquire rounds le w;
  s ← (if bool_decide (r_status s = Panicked) then Some s
       else
         let '(_, w) := handle (ACall OnStartedLeading) (r_world s) in
         renew rounds (r_elector s) w);
  if bool_decide (r_status s = Killed ∨ r_status s = Polling) then Some s
  else
    let '(_, w) := handle (ACall OnStoppedLeading) (r_world s) in
    Some {| r_elector := r_elector s; r_world := w; r_status := r_status s |}.

(** A configuration that is refused makes [RunOrDie] panic. *)
Definition RunOrDie (out_of_range : F64 → Z) (rounds : nat) (lock : option L)
    (lease deadline retry : Z) (hasOnNewLeader : bool) (w : W) : res ConfigError (option running) :=
  match NewLeaderElector out_of_range lock lease deadline retry hasOnNewLeader with
  | Err e => Err e
  | Ok le => Ok (Run rounds le w)
  end.
End run.
End elector.
Arguments LeaderElectionConfig : clear implicits.
Arguments LeaderElector : clear implicits.

(** ** Attempts are short and do not panic

    [safe n Q p]: whatever the responses, [p] returns after [n] actions at most, with a
    result in [Q]. *)
Fixpoint safe {A} (n : nat) (Q : A → Prop) (p : prog A) {struct p} : Prop :=
  match p with
  | Return a => Q a
  | Crash => False
  | Do a k => match n with 0%nat => False | S n => ∀ r, safe n Q (k r) end
  end.

Notation elector := (LeaderElector ResourceLock).

(** The settings of an elector do not change, and after an attempt its lock has an object. *)
Definition settings (le : elector) : Z * Z * Z * bool :=
  (LeaseDuration (config le), RenewDeadline (config le), RetryPeriod (config le), HasOnNewLeader (config le)).

Definition attempted (le : elector) (r : bool * elector) : Prop :=
  settings r.2 = settings le ∧ l_Object (Lock (config r.2)) ≠ None.

Lemma safe_mono {A} n m (Q Q' : A → Prop) p :
  (n ≤ m)%nat → (∀ a, Q a → Q' a) → safe n Q p → safe m Q' p.
Proof.
  intros Hnm HQ. revert n m Hnm. induction p as [a|a k IH|]; intros n m Hnm; cbn; [auto| |tauto].
  destruct n, m; [tauto..|lia|]. intros Hs r. eapply IH; [|done]. lia.
Qed.

Lemma safe_bind {A B} n m (Q : A → Prop) (Q' : B → Prop) (p : prog A) (f : A → prog B) :
  safe n Q p → (∀ a, Q a → safe m Q' (f a)) → safe (n + m) Q' (p ≫= f).
Proof.
  intros Hp Hf. revert n Hp. induction p as [a|a k IH|]; intros n; cbn; [| |tauto].
  - intros Ha. eapply safe_mono; [|done|by apply Hf]. lia.
  - destruct n; [tauto|]. intros Hs r. apply IH, Hs.
Qed.

Lemma safe_run {A} n (Q : A → Prop) (p : prog A) {W} (handle : ∀ a : action, W → response a * W) (w : W) :
  safe n Q p → ∃ a w', run handle p w = Some (a, w') ∧ Q a.
Proof.
  revert n w. induction p as [a|a k IH|]; intros n w; cbn; [eauto| |tauto].
  destruct n; [tauto|]. intros Hs. destruct (handle a w) as [r w']. by eapply IH.
Qed.

Lemma safe_write (ler : LeaderElectionRecord) (le le0 : elector) (p : prog (option Error * ResourceLock)) :
  settings le = settings le0 → safe 1 (λ r, l_Object r.2 ≠ None) p →
  safe 2 (attempted le0)
    ('(err, lock) ← p;
     match err with
     | Some _ => mret (false, set_Lock lock le)
     | None => t ← act ANow; mret (true, set_observed ler (TNow t) (set_Lock lock le))
     end).
Proof.
  intros Hs Hp. apply (safe_bind 1 1 _ _ _ _ Hp). intros [[e|] l] Hl; cbn in *; [done|]. by intros t.
Qed.

Lemma safe_tryAcquireOrRenew (le : elector) : safe 5 (attempted le) (tryAcquireOrRenew le).
Proof.
  intros t0. change (safe 4 (attempted le) ('(r, lock) ← lock_Get (Lock (config le));
    match r with
    | Err e => if negb (IsNotFound e) then mret (false, set_Lock lock le)
               else try_create (fresh_record le (TNow t0)) (set_Lock lock le)
    | Ok old => le' ← observe old (set_Lock lock le);
        if held_by_other le' old (TNow t0) then mret (false, le')
        else try_update (updated_record le' old (fresh_record le (TNow t0))) le'
    end)).
  apply (safe_bind 1 3 (λ r, ∃ o, l_Object r.2 = Some o ∧ (is_ok r.1 → is_Some (o_Annotations o)))).
  { intros [o|e]; cbn; [|eexists; split; [done|done]].
    destruct (_ !! _) as [b|]; cbn; [destruct (json_Unmarshal b); cbn|]; eexists; split; done. }
  intros [[old|e] l] (o & Ho & Hann); cbn in Ho, Hann.
  - apply (safe_bind 1 2 (λ le', settings le' = settings le ∧ Lock (config le') = l)).
    { unfold observe. case_bool_decide; cbn; [done|]. by intros ?. }
    intros le' [Hset <-]. destruct (held_by_other _ _ _).
    { cbn. split; [done|]. cbn. by rewrite Ho. }
    apply safe_write; [done|]. cbn. unfold lock_Update. rewrite Ho. destruct (Hann I) as [m ->]. by intros [?|?].
  - destruct (negb (IsNotFound e)); [cbn; split; [done|cbn; by rewrite Ho]|].
    eapply (safe_mono 2); [lia|done|]. apply safe_write; [done|]. by intros [?|?].
Qed.

Lemma safe_renew_round renewed (le : elector) :
  l_Object (Lock (config le)) ≠ None → safe 2 (λ r, attempted le r ∧ r.1 = negb renewed) (renew_round renewed le).
Proof.
  intros Ho. apply (safe_bind 1 1 (λ le', settings le' = settings le ∧ Lock (config le') = Lock (config le))).
  { unfold maybeReportTransition. case_bool_decide; [done|]. cbn. destruct (HasOnNewLeader _); [by intros ?|done]. }
  intros le' [Hs Hl]. assert (∀ b, attempted le (b, le')) as Ha by (intros b; split; cbn; by rewrite ?Hl).
  destruct renewed; cbn; [done|]. unfold lock_RecordEvent. rewrite Hl.
  destruct (l_Object (Lock (config le))) as [o|]; [|done]. by intros ?.
Qed.

(** ** How long a leader that cannot renew keeps leading *)
Section renewing.
Context {W : Type} `{Timed W} (slack d : Z) `{!Timed_laws W slack}.
Context (handle : ∀ a : action, W → response a * W).
Context (Hhandle : ∀ a w, now w ≤ now (handle a w).2 ≤ now w + d).

Notation state := (running (L := ResourceLock) (W := W)).

Lemma d_nonneg (w : W) : 0 ≤ d.
Proof. specialize (Hhandle ANow w). lia. Qed.

Lemma run_time {A} n (Q : A → Prop) (p : prog A) w a w' :
  safe n Q p → run handle p w = Some (a, w') → now w ≤ now w' ≤ now w + Z.of_nat n * d.
Proof.
  revert n w. induction p as [x|x k IH|]; intros n w; cbn; [| |done].
  - intros _ [= _ <-]. pose proof (d_nonneg w). nia.
  - destruct n; [done|]. intros Hs Hr. pose proof (Hhandle x w). destruct (handle x w) as [r w1].
    cbn in *. specialize (IH r n w1 (Hs r) Hr). lia.
Qed.

Lemma running_laws : Timed_laws state slack.
Proof. split; intros; [apply (sleep_mono (W := W))|apply (sleep_ge (W := W))|apply (sleep_le (W := W))]. Qed.

Lemma run_on_safe n (Q : bool * elector → Prop) p (s : state) :
  safe n Q (p (r_elector s)) →
  ∃ b s', run_on handle p s = (b, s') ∧ r_status s' = r_status s ∧ Q (b, r_elector s') ∧
    now s ≤ now s' ≤ now s + Z.of_nat n * d.
Proof.
  intros Hs. destruct (safe_run n Q _ handle (r_world s) Hs) as ([b le] & w & Hr & HQ).
  pose proof (run_time n Q _ _ _ _ Hs Hr). unfold run_on. rewrite Hr. by eexists _, _.
Qed.

Lemma renew_condition_spec (s : state) :
  ∃ b s', renew_condition handle s = (b, if bool_decide (r_status s = Panicked) then Some () else None, s') ∧
    r_status s' = r_status s ∧ attempted (r_elector s) (b, r_elector s') ∧ now s ≤ now s' ≤ now s + 5 * d.
Proof.
  destruct (run_on_safe 5 _ tryAcquireOrRenew s (safe_tryAcquireOrRenew _)) as (b & s' & Hr & Hst & Ha & Ht).
  exists b, s'. unfold renew_condition. rewrite Hr. by rewrite Hst.
Qed.

(** Polling leaves the settings and the status alone. *)
Definition alike (s s' : state) : Prop :=
  r_status s' = r_status s ∧ settings (r_elector s') = settings (r_elector s).

Lemma receive_alike c (s s' : state) open : receive c s = (open, s') → alike s s'.
Proof.
  unfold receive. destruct (p_closes c); [repeat case_match|]; intros [= _ <-]; done.
Qed.

Lemma open_rounds_alike c n (s s' : state) : open_rounds c (renew_condition handle) n s s' → alike s s'.
Proof.
  induction 1 as [|n s s1 s2 s3 Hr%receive_alike Hf _ IH]; [done|].
  destruct (renew_condition_spec s1) as (b & s2' & Hc & Hst & [Hset _] & _). rewrite Hc in Hf.
  injection Hf as _ _ <-. unfold alike in *. cbn in *. split; [destruct Hr, IH|destruct Hr, IH]; congruence.
Qed.

Lemma poll_spec (s : state) retry deadline :
  r_status s = Going → 0 < retry → 0 < deadline →
  ∃ e s', Poll (S (Z.to_nat (deadline / retry))) retry deadline (renew_condition handle) s = Some (Ret e s') ∧
    alike s s' ∧ l_Object (Lock (config (r_elector s'))) ≠ None ∧
    now s' ≤ now s + deadline + slack + 10 * d ∧
    (e = None ∨ e = Some ErrWaitTimeout ∧ now s + deadline ≤ now s').
Proof.
  intros Hs Hr Hd. assert (0 ≤ deadline / retry) by (apply Z.div_pos; lia).
  destruct (Poll_returns slack retry deadline (5 * d) (renew_condition handle) s (S (Z.to_nat (deadline / retry)))
    running_laws Hr Hd) as (n & s1 & open & s2 & r & s' & e & Hp & _ & Hrs & Hrec & Hc & Hl & Hopen & Ht); [|lia|].
  { intros s1. destruct (renew_condition_spec s1) as (b & s2 & -> & _ & _ & ?). done. }
  exists e, s'. split; [done|]. destruct (open_rounds_alike _ _ _ _ Hrs) as [Hst1 Hset1].
  destruct (receive_alike _ _ _ _ Hrec) as [Hst2 Hset2].
  destruct (renew_condition_spec s2) as (b & s2' & Hc' & Hst & [Hset Hobj] & Htime). rewrite Hc' in Hc.
  injection Hc as <- <-. rewrite bool_decide_eq_false_2 in Hl by congruence. cbn in Hset, Hobj.
  split; [split; congruence|]. split; [done|]. split; [lia|].
  destruct b; [left; cbn in Hl; congruence|]. destruct open; [done|]. right. cbn in Hl.
  split; [congruence|]. specialize (Hopen eq_refl). lia.
Qed.

(** After [k] polls that ended with a successful attempt, each begun within [slack] and two
    actions after the one before. *)
Inductive renewed (retry deadline : Z) : nat → state → state → Prop :=
| renewed_refl s : renewed retry deadline 0 s s
| renewed_step k s s1 s2 s3 :
    renewed retry deadline k s s1 →
    Poll (S (Z.to_nat (deadline / retry))) retry deadline (renew_condition handle) s1 = Some (Ret None s2) →
    now s2 ≤ now s3 ≤ now s2 + slack + 2 * d →
    renewed retry deadline (S k) s s3.

(** The state in which a leader gives up, at least [deadline] and at most [deadline] and a
    few actions after it began its last poll, all of whose attempts failed. *)
Definition gives_up (retry deadline : Z) (s s' : state) : Prop :=
  r_status s' = Closed ∧
  ∃ s1, Poll (S (Z.to_nat (deadline / retry))) retry deadline (renew_condition handle) s =
          Some (Ret (Some ErrWaitTimeout) s1) ∧
    now s + deadline ≤ now s' ≤ now s + deadline + slack + 12 * d.

Lemma renew_step_spec (s : state) retry deadline :
  r_status s = Going → RetryPeriod (config (r_elector s)) = retry →
  RenewDeadline (config (r_elector s)) = deadline → 0 < retry → 0 < deadline →
  settings (r_elector (renew_step handle s)) = settings (r_elector s) ∧
  ((∃ s1, Poll (S (Z.to_nat (deadline / retry))) retry deadline (renew_condition handle) s = Some (Ret None s1) ∧
      r_status (renew_step handle s) = Going ∧ now s1 ≤ now (renew_step handle s) ≤ now s1 + 2 * d) ∨
   gives_up retry deadline s (renew_step handle s)).
Proof.
  intros Hs Hret Hdl Hr Hd. destruct (poll_spec s retry deadline Hs Hr Hd) as (e & s1 & Hp & [Hst Hset] & Hobj & Ht & He).
  unfold gives_up, renew_step. rewrite Hret, Hdl, Hp, bool_decide_eq_false_2 by congruence.
  set (ok := match e with None => true | _ => false end).
  destruct (run_on_safe 2 _ (renew_round ok) s1 (safe_renew_round ok _ Hobj)) as
    (b & s2 & -> & Hst2 & [[Hset2 _] Hb] & Ht2). cbn in Hset2, Hb. subst b.
  destruct He as [->|[-> Hlow]]; cbn.
  - split; [congruence|]. left. exists s1. split; [done|]. split; [congruence|]. cbn in Ht2. lia.
  - split; [congruence|]. right. split; [done|]. exists s1. split; [done|]. unfold set_status. cbn in *. lia.
Qed.

Lemma renew_rounds {F} (positive : F → bool) one zero (rand_times : F → Z → state → Z)
    rounds retry deadline k (s0 s : state) :
  positive zero = false → 0 < retry → 0 < deadline → renewed retry deadline k s0 s →
  r_status s = Going → RetryPeriod (config (r_elector s)) = retry → RenewDeadline (config (r_elector s)) = deadline →
  let r := Until positive one rand_times rounds zero (renew_step handle) 0 ended s in
  (r = None ∧ ∃ s', renewed retry deadline (k + rounds) s0 s') ∨
  (∃ n sl s', (n < k + rounds)%nat ∧ r = Some s' ∧ renewed retry deadline n s0 sl ∧ gives_up retry deadline sl s').
Proof.
  intros Hz Hr Hd. unfold Until. revert k s. induction rounds as [|rounds IH]; intros k s Hk Hs Hret Hdl.
  { left. split; [done|]. exists s. by rewrite Nat.add_0_r. }
  destruct (renew_step_spec s retry deadline Hs Hret Hdl Hr Hd) as [Hset Hstep].
  cbn -[renew_step]. rewrite Hz. unfold ended at 1 2 4 5. rewrite Hs. cbn -[renew_step].
  destruct Hstep as [(s1 & Hp & Hgo & Ht)|Hgive].
  - rewrite Hgo. cbn -[renew_step]. set (s2 := renew_step handle s) in *.
    pose proof (sleep_mono (W := W) (now s2 + 0) (r_world s2)). pose proof (sleep_le (W := W) (now s2 + 0) (r_world s2)).
    injection Hset as _ Hdl' Hret' _. rewrite <-Nat.add_succ_comm. apply (IH (S k)); cbn in *; [|done|congruence..].
    eapply renewed_step; [done|done|]. cbn in *. lia.
  - right. pose proof Hgive as [Hst _]. rewrite Hst. cbn -[renew_step]. exists k, s, (renew_step handle s).
    split; [lia|done].
Qed.
End renewing.

(** [C26] A leader with a positive [RetryPeriod] and [RenewDeadline] keeps leading as long
    as it renews, and gives up when it cannot: [renew]
    either has had all its polls so far end in a successful attempt, or has returned, without
    a panic, after a last poll all of whose attempts failed.  In that case it returned no
    sooner than [RenewDeadline] after that poll began, that is after the last success, and no
    later than [RenewDeadline], the delay of a timer and the time of twelve actions. *)
Theorem renew_gives_up {W F} `{Timed W} (slack d : Z) (handle : ∀ a : action, W → response a * W)
    (positive : F → bool) (one zero : F) (rand_times : F → Z → W → Z)
    (le : LeaderElector ResourceLock) (w : W) (rounds : nat) :
  Timed_laws W slack → (∀ a w, now w ≤ now (handle a w).2 ≤ now w + d) → positive zero = false →
  0 < RetryPeriod (config le) → 0 < RenewDeadline (config le) →
  let retry := RetryPeriod (config le) in
  let deadline := RenewDeadline (config le) in
  let r := renew handle positive one zero rand_times rounds le w in
  (r = None ∧ ∃ s, renewed slack d handle retry deadline rounds (start le w) s) ∨
  (∃ n s s', (n < rounds)%nat ∧ r = Some s' ∧ renewed slack d handle retry deadline n (start le w) s ∧
     gives_up slack d handle retry deadline s s').
Proof.
  intros Hl Hh Hz Hr Hd retry deadline r.
  apply (renew_rounds slack d handle Hh positive one zero _ rounds retry deadline 0 (start le w) (start le w));
    try done. constructor.
Qed.

(** A world that is a clock, where every action takes one unit and the server does not answer. *)
Definition dead_server (a : action) (w : Z) : response a * Z :=
  match a return response a * Z with
  | ANow => (w, w + 1)
  | AGet _ _ _ | ACreate _ _ _ | AUpdate _ _ _ => (Err (OtherError "timeout"), w + 1)
  | AEvent _ _ | ACall _ => ((), w + 1)
  end.

Definition lone_elector (lease deadline retry : Z) : LeaderElector ResourceLock := {|
  config := {| Lock := {| l_Resource := "endpoints"; l_Namespace := "ns"; l_Name := "lock";
                          l_Identity := "a"; l_Object := None |};
               LeaseDuration := lease; RenewDeadline := deadline; RetryPeriod := retry; HasOnNewLeader := true |};
  observedRecord := zero_record; observedTime := TZero; reportedLeader := "" |}.

Lemma renew_gives_up_witness :
  (∃ n s s', (n < 2)%nat ∧ renew dead_server (λ _ : (), false) () () (λ _ _ _, 0) 2 (lone_elector 150 100 20) 0 = Some s' ∧
     renewed 0 1 dead_server 20 100 n (start (lone_elector 150 100 20) 0) s ∧ gives_up 0 1 dead_server 20 100 s s').
Proof.
  destruct (renew_gives_up 0 1 dead_server (λ _ : (), false) () () (λ _ _ _, 0) (lone_elector 150 100 20) 0 2
    time_only_laws) as [[Hr _]|Hr]; [|done|done|done|vm_compute in Hr; discriminate|exact Hr].
  intros a w. unfold now. cbn. unfold id. destruct a; cbn; lia.
Defined.

(** The constructor does not check that the retry period is positive.  Without one, the
    ticker of the first poll of a new leader panics, which ends the process. *)
Example zero_RetryPeriod_kills :
  NewLeaderElector (λ _, 0) (Some (Lock (config (lone_elector 150 100 0)))) 150 100 0 true =
    Ok (lone_elector 150 100 0) ∧
  (r_status <$> renew dead_server (λ _ : (), false) () () (λ _ _ _, 0) 2 (lone_elector 150 100 0) 0) = Some Killed.
Proof. split; reflexivity. Qed.
