(* ===== verification/ApiServer.v ===== *)
(** * What locks rely on of the API server

    The server is not part of the repository.  [ApiServer] has the calls a lock makes of it,
    [ApiServer_laws] what is documented of them: writes are atomic, an object is created only
    where there is none, an update is accepted only if it names the version that is stored,
    and a write that changes an object gives it a version that was never used before.
    [map_server] is a server of this kind. *)

From S2P Require Import Prelude ResourceLock.
From stdpp Require Import pretty.

Class ApiServer (S : Type) := {
  api_get : string → string → string → S → option Object;
  api_create : string → string → Object → S → res ApiError Object * S;
  api_update : string → string → Object → S → res ApiError Object * S;
}.

(** No annotations and an empty map of annotations are the same to the server. *)
Definition content (o : Object) : gmap string annotation := default ∅ (o_Annotations o).

Class ApiServer_laws (S : Type) `{ApiServer S} := {
  issued : S → string → Prop;   (* versions used so far *)
  issued_nonempty s v : issued s v → v ≠ "";
  get_issued r ns n s o : api_get r ns n s = Some o → issued s (o_ResourceVersion o) ∧ o_Name o = n;
  create_Ok r ns o s o' s' :
    api_create r ns o s = (Ok o', s') →
    api_get r ns (o_Name o) s = None ∧ api_get r ns (o_Name o) s' = Some o' ∧
    content o' = content o ∧ (∀ v, issued s v → issued s' v) ∧ ¬ issued s (o_ResourceVersion o');
  create_Err r ns o s e s' : api_create r ns o s = (Err e, s') → s' = s;
  update_Ok r ns o s o' s' :
    o_ResourceVersion o ≠ "" → api_update r ns o s = (Ok o', s') →
    ∃ cur, api_get r ns (o_Name o) s = Some cur ∧ o_ResourceVersion cur = o_ResourceVersion o ∧
      api_get r ns (o_Name o) s' = Some o' ∧ content o' = content o ∧
      (∀ v, issued s v → issued s' v) ∧
      (o_ResourceVersion o' = o_ResourceVersion cur ∧ content cur = content o ∨
       ¬ issued s (o_ResourceVersion o'));
  update_Err r ns o s e s' : api_update r ns o s = (Err e, s') → s' = s;
}.

(** ** A server that keeps its objects in a map

    The version of an object is the number of writes the server has seen. *)
Record map_server := { ms_objects : gmap (string * string * string) (gmap string annotation); ms_writes : N }.

Definition ms_version (s : map_server) : string := ("v" +:+ pretty (ms_writes s))%string.

Definition ms_object (ns n : string) (s : map_server) (m : gmap string annotation) : Object :=
  {| o_Name := n; o_Namespace := ns; o_ResourceVersion := ms_version s; o_Annotations := Some m |}.

Definition ms_get (r ns n : string) (s : map_server) : option Object :=
  ms_object ns n s <$> ms_objects s !! (r, ns, n).

Definition ms_write (r ns : string) (o : Object) (s : map_server) : res ApiError Object * map_server :=
  let s' := {| ms_objects := <[(r, ns, o_Name o) := content o]> (ms_objects s);
               ms_writes := N.succ (ms_writes s) |} in
  (Ok (ms_object ns (o_Name o) s' (content o)), s').

#[export] Instance map_server_ApiServer : ApiServer map_server := {|
  api_get := ms_get;
  api_create r ns o s :=
    match ms_get r ns (o_Name o) s with
    | Some _ => (Err AlreadyExists, s)
    | None => ms_write r ns o s
    end;
  api_update r ns o s :=
    match ms_get r ns (o_Name o) s with
    | None => (Err NotFound, s)
    | Some cur =>
      if bool_decide (o_ResourceVersion cur = o_ResourceVersion o ∨ o_ResourceVersion o = "")
      then ms_write r ns o s else (Err Conflict, s)
    end;
|}.

Definition ms_issued (s : map_server) (v : string) : Prop :=
  ∃ n, (n ≤ ms_writes s)%N ∧ v = ("v" +:+ pretty n)%string.

Lemma ms_write_Ok r ns o s o' s' :
  ms_write r ns o s = (Ok o', s') →
  ms_get r ns (o_Name o) s' = Some o' ∧ content o' = content o ∧
  (∀ v, ms_issued s v → ms_issued s' v) ∧ ¬ ms_issued s (o_ResourceVersion o').
Proof.
  intros [= <- <-]. unfold ms_get. cbn. rewrite lookup_insert_eq. repeat split.
  - intros v (n & Hn & ->). exists n. cbn. split; [lia|done].
  - intros (n & Hn & [= Hv]). apply (inj (pretty (A := N)) (N.succ _) n) in Hv. lia.
Qed.

#[export] Instance map_server_laws : ApiServer_laws map_server.
Proof.
  refine {| issued := ms_issued |}.
  - intros s v (n & _ & ->). done.
  - intros r ns n s o Hg. apply fmap_Some in Hg as (m & _ & ->). cbn. split; [|done].
    exists (ms_writes s). split; [lia|done].
  - intros r ns o s o' s'. cbn. destruct (ms_get r ns (o_Name o) s) as [cur|] eqn:Hg; [done|].
    intros (? & ? & ? & ?)%ms_write_Ok. done.
  - intros r ns o s e s'. cbn. destruct (ms_get _ _ _ s); [by intros [= _ <-]|done].
  - intros r ns o s o' s' Hv. cbn. destruct (ms_get r ns (o_Name o) s) as [cur|] eqn:Hg; [|done].
    case_bool_decide as Hd; [|done]. intros (? & ? & ? & ?)%ms_write_Ok.
    exists cur. destruct Hd; [|done]. repeat split; auto.
  - intros r ns o s e s'. cbn. destruct (ms_get _ _ _ s) as [cur|]; [|by intros [= _ <-]].
    case_bool_decide; [done|]. by intros [= _ <-].
Qed.
