(* ===== verification/LeaderSafety.v ===== *)
(** * Electors that compete for one lock

    Any number of electors, each with a clock of its own, run their attempts interleaved at
    every action against one server.  Requests can get lost, answers can get lost, and a
    request whose sender has given up can still be executed later, or more than once.  The
    system keeps, for the proofs only, the writes the server has accepted and when the
    attempts they belong to read their clock. *)

From S2P Require Import Prelude TokenBucket RateLimiters Wait ResourceLock LeaderElection ApiServer.
From stdpp Require Import functions.
Open Scope Z_scope.

Notation Elector := (LeaderElector ResourceLock).

Section system.
Context {S : Type} `{ApiServer S} {I : Type} `{EqDecision I}.
Context (clock : I → Z → Z) (identity : I → string) (lease : I → Z).
Context (resource ns name : string).

(** What the electors share, with the accepted writes (newest first), and when each elector
    began its current or last attempt, by its own clock. *)
Record shared := {
  srv : S;
  time : Z;
  requests : list (I * Z * action);
  log : list (I * Z);
  starts : I → Z;
  begun : I → bool;
}.

Definition set_srv (x : S) (s : shared) : shared :=
  {| srv := x; time := time s; requests := requests s; log := log s; starts := starts s; begun := begun s |}.
Definition set_time (t : Z) (s : shared) : shared :=
  {| srv := srv s; time := t; requests := requests s; log := log s; starts := starts s; begun := begun s |}.
Definition set_begun (i : I) (b : bool) (s : shared) : shared :=
  {| srv := srv s; time := time s; requests := requests s; log := log s; starts := starts s;
     begun := <[i := b]> (begun s) |}.

(** The first clock reading of an attempt. *)
Definition note_start (i : I) (t : Z) (s : shared) : shared :=
  if begun s i then s
  else {| srv := srv s; time := time s; requests := requests s; log := log s;
          starts := <[i := t]> (starts s); begun := <[i := true]> (begun s) |}.

Definition is_write (a : action) : bool :=
  match a with ACreate _ _ _ | AUpdate _ _ _ => true | _ => false end.

(** Writes travel as requests. *)
Definition issue (i : I) (a : action) (s : shared) : shared :=
  if is_write a then
    {| srv := srv s; time := time s; requests := (i, starts s i, a) :: requests s; log := log s;
       starts := starts s; begun := begun s |}
  else s.

(** The server accepts a write of [i] whose attempt began at [t]. *)
Definition accepted (i : I) (t : Z) (x : S) (s : shared) : shared :=
  {| srv := x; time := time s; requests := requests s; log := (i, t) :: log s;
     starts := starts s; begun := begun s |}.

(** The server executes a write. *)
Definition execute (a : action) (x : S) : res ApiError Object * S :=
  match a with
  | ACreate r n o => api_create r n o x
  | AUpdate r n o => api_update r n o x
  | _ => (Err NotFound, x)
  end.

(** What can come of an action of elector [i].  An error need not mean that nothing was
    written: the request is still among [requests]. *)
Definition write_step (i : I) (a : action) (s : shared) (r : res ApiError Object) (s' : shared) : Prop :=
  (∃ o x, execute a (srv s) = (Ok o, x) ∧ r = Ok o ∧ s' = accepted i (starts s i) x s) ∨
  (∃ e, r = Err e ∧ s' = s).

Definition action_step (i : I) (a : action) (s : shared) : response a → shared → Prop :=
  match a return response a → shared → Prop with
  | ANow => λ r s', r = clock i (time s) ∧ s' = note_start i r s
  | AGet rs n m => λ r s', s' = s ∧
      (r = match api_get rs n m (srv s) with Some o => Ok o | None => Err NotFound end ∨
       ∃ e, e ≠ NotFound ∧ r = Err e)
  | ACreate rs n o => write_step i (ACreate rs n o) s
  | AUpdate rs n o => write_step i (AUpdate rs n o) s
  | AEvent _ _ | ACall _ => λ _ s', s' = s
  end.

(** An elector between two attempts, or in one; and, while it leads, when the attempt began
    that made it a leader or renewed its lease. *)
Inductive thread_state : Type :=
| Idle (le : Elector)
| Busy (p : prog (bool * Elector)).

Record thread := { t_state : thread_state; t_leading : option Z }.

Definition system : Type := shared * (I → thread).

Inductive step : system → system → Prop :=
| step_time s th t :
    time s ≤ t → step (s, th) (set_time t s, th)
| step_begin s th i le :
    t_state (th i) = Idle le →
    step (s, th) (set_begun i false s,
                  <[i := {| t_state := Busy (tryAcquireOrRenew le); t_leading := t_leading (th i) |}]> th)
| step_action s th i a k r s' :
    t_state (th i) = Busy (Do a k) → action_step i a (issue i a s) r s' →
    step (s, th) (s', <[i := {| t_state := Busy (k r); t_leading := t_leading (th i) |}]> th)
| step_return s th i b le :
    t_state (th i) = Busy (Return (b, le)) →
    step (s, th) (s, <[i := {| t_state := Idle le;
                               t_leading := if (b : bool) then Some (starts s i) else t_leading (th i) |}]> th)
| step_report s th i le :
    t_state (th i) = Idle le →
    step (s, th) (s, <[i := {| t_state := Idle (set_reported (HolderIdentity (observedRecord le)) le);
                               t_leading := t_leading (th i) |}]> th)
| step_stop s th i :
    step (s, th) (s, <[i := {| t_state := t_state (th i); t_leading := None |}]> th)
| step_deliver s th i t a o x :
    (i, t, a) ∈ requests s → execute a (srv s) = (Ok o, x) →
    step (s, th) (accepted i t x s, th).

(** The record in an object: none at all is the zero record. *)
Definition record_of (m : gmap string annotation) : option LeaderElectionRecord :=
  match m !! LeaderElectionRecordAnnotationKey with
  | Some b => json_Unmarshal b
  | None => Some zero_record
  end.

Definition configured (i : I) (le : Elector) : Prop :=
  let l := Lock (config le) in
  l_Resource l = resource ∧ l_Namespace l = ns ∧ l_Name l = name ∧ l_Identity l = identity i ∧
  LeaseDuration (config le) = lease i.

Definition stored (x : S) : option Object := api_get resource ns name x.

(** Electors as [NewLeaderElector] makes them, before any attempt; the lock does not exist or
    is not held by one of them. *)
Definition initial (sys : system) : Prop :=
  requests sys.1 = [] ∧ log sys.1 = [] ∧
  (∀ i, ∃ le, t_state (sys.2 i) = Idle le ∧ t_leading (sys.2 i) = None ∧ configured i le ∧
    observedRecord le = zero_record ∧ begun sys.1 i = false ∧ starts sys.1 i ≤ clock i (time sys.1)) ∧
  (∀ o r, stored (srv sys.1) = Some o → record_of (content o) = Some r →
    ∀ i, HolderIdentity r ≠ identity i).

Inductive reachable (sys0 : system) : system → Prop :=
| reachable_initial : initial sys0 → reachable sys0 sys0
| reachable_step sys sys' : reachable sys0 sys → step sys sys' → reachable sys0 sys'.

(** ** The record as a function of the accepted writes *)
Record register := { reg_holder : I; reg_acquire : Z; reg_renew : Z; reg_transitions : Z }.

Definition write_register (base : Z) (w : I * Z) (r : option register) : register :=
  let '(i, t) := w in
  match r with
  | None => {| reg_holder := i; reg_acquire := t / second; reg_renew := t / second; reg_transitions := base |}
  | Some r =>
    if bool_decide (reg_holder r = i) then
      {| reg_holder := i; reg_acquire := reg_acquire r; reg_renew := t / second;
         reg_transitions := reg_transitions r |}
    else
      {| reg_holder := i; reg_acquire := t / second; reg_renew := t / second;
         reg_transitions := i64 (reg_transitions r + 1) |}
  end.

Fixpoint register_of (base : Z) (l : list (I * Z)) : option register :=
  match l with
  | [] => None
  | w :: l => Some (write_register base w (register_of base l))
  end.

Definition register_record (r : register) : LeaderElectionRecord :=
  {| HolderIdentity := identity (reg_holder r);
     LeaseDurationSeconds := Z.quot (lease (reg_holder r)) second;
     AcquireTime := TParsed (reg_acquire r); RenewTime := TParsed (reg_renew r);
     LeaderTransitions := reg_transitions r |}.

(** The transitions the first write counts from. *)
Definition base_of (x : S) : Z :=
  match stored x with
  | None => 0
  | Some o => match record_of (content o) with None => 0 | Some r => i64 (LeaderTransitions r + 1) end
  end.

(** ** Invariants

    Clocks run forward, from a time after the first second of the year 1, and between any two
    moments the clock of one elector advances at most [num/den] times as far as that of
    another; they need not agree in any other way.  Electors have different identities. *)
Context `{!ApiServer_laws S} (num den : Z).

Definition clocks_ok : Prop :=
  (∀ i t, second ≤ clock i t) ∧ (∀ i t t', t ≤ t' → clock i t ≤ clock i t') ∧
  (∀ i j t t', i ≠ j → t ≤ t' → den * (clock j t' - clock j t) ≤ num * (clock i t' - clock i t)) ∧
  0 < num ∧ 0 < den ∧ Inj (=) (=) identity.

Context (Hclocks : clocks_ok) (x0 : S).
Context (Hx0 : ∀ o r, stored x0 = Some o → record_of (content o) = Some r →
                ∀ i, HolderIdentity r ≠ identity i).

Let base : Z := base_of x0.

(** Version [v] of the lock has the annotations [m], now and ever after. *)
Definition snap (v : string) (m : gmap string annotation) (x : S) : Prop :=
  issued x v ∧ ∀ o, stored x = Some o → o_ResourceVersion o = v → content o = m.

(** [a] is a reading of the clock of [i]. *)
Definition timed (i : I) (a : Z) (s : shared) : Prop := ∃ t, t ≤ time s ∧ a = clock i t.

(** So much time has passed that another elector may have replaced [i]. *)
Definition lost (i : I) (a t : Z) : Prop :=
  ∃ j, j ≠ i ∧ den * lease j < num * (clock i t - a + second).

(** An attempt that began at [a] may replace the record [old]. *)
Definition may_replace (i : I) (a : Z) (old : LeaderElectionRecord) (s : shared) : Prop :=
  (HolderIdentity old = identity i → ∀ rs, RenewTime old = TParsed rs → rs ≤ a / second) ∧
  (∀ h, h ≠ i → HolderIdentity old = identity h →
    ∃ t, t ≤ time s ∧ RenewTime old = TParsed (clock h t / second) ∧ lease i ≤ a - clock i t).

Definition request_ok (i : I) (a : Z) (act : action) (s : shared) : Prop :=
  match act with
  | ACreate r n o => r = resource ∧ n = ns ∧ o_Name o = name ∧
      ∃ le, configured i le ∧
        content o = {[ LeaderElectionRecordAnnotationKey := json_Marshal (fresh_record le (TNow a)) ]}
  | AUpdate r n o => r = resource ∧ n = ns ∧ o_Name o = name ∧
      ∃ le m old, configured i le ∧ snap (o_ResourceVersion o) m (srv s) ∧ record_of m = Some old ∧
        content o = <[LeaderElectionRecordAnnotationKey :=
                        json_Marshal (updated_record le old (fresh_record le (TNow a)))]> m ∧
        may_replace i a old s
  | _ => False
  end.

Definition stored_ok (s : shared) : Prop :=
  match register_of base (log s) with
  | None => srv s = x0
  | Some r => ∃ o, stored (srv s) = Some o ∧ record_of (content o) = Some (register_record r)
  end.

(** An accepted write still stands, as the last one of its elector, or time has passed. *)
Definition stands (i : I) (a : Z) (s : shared) : Prop :=
  (∃ r, register_of base (log s) = Some r ∧ reg_holder r = i ∧ a / second ≤ reg_renew r) ∨
  lost i a (time s).

Record shared_ok (s : shared) : Prop := {
  so_stored : stored_ok s;
  so_log i a : (i, a) ∈ log s → a ≤ starts s i ∧ timed i a s ∧ stands i a s;
  so_starts i : starts s i ≤ clock i (time s);
  so_begun i : begun s i = true → timed i (starts s i) s;
  so_requests i a act : (i, a, act) ∈ requests s →
    request_ok i a act s ∧ a ≤ starts s i ∧ timed i a s;
}.

Lemma clock_ge i t : second ≤ clock i t.
Proof. apply Hclocks. Qed.
Lemma clock_mono i t t' : t ≤ t' → clock i t ≤ clock i t'.
Proof. apply Hclocks. Qed.
Lemma identity_inj i j : identity i = identity j → i = j.
Proof. destruct Hclocks as (_ & _ & _ & _ & _ & Hinj). apply Hinj. Qed.

Lemma timed_mono i a s s' : time s ≤ time s' → timed i a s → timed i a s'.
Proof. intros Hle (t & Ht & ->). exists t. split; [lia|done]. Qed.

Lemma timed_ge i a s : timed i a s → second ≤ a.
Proof. intros (t & _ & ->). apply clock_ge. Qed.

Lemma lost_mono i a t t' : t ≤ t' → lost i a t → lost i a t'.
Proof.
  intros Ht (j & Hj & Hl). exists j. split; [done|]. pose proof (clock_mono i _ _ Ht).
  destruct Hclocks as (_ & _ & _ & Hn & _). nia.
Qed.

Lemma may_replace_mono i a old s s' : time s ≤ time s' → may_replace i a old s → may_replace i a old s'.
Proof.
  intros Hle [Ho Hr]. split; [done|]. intros h Hh Hi. destruct (Hr h Hh Hi) as (t & ? & ?).
  exists t. split; [lia|done].
Qed.

(** Versions keep their annotations through every write. *)
Lemma snap_stored x o : stored x = Some o → snap (o_ResourceVersion o) (content o) x.
Proof. intros Ho. split; [by apply (get_issued resource ns name)|]. intros o' Ho'. congruence. Qed.

Definition snaps_kept (x x' : S) : Prop := ∀ v m, snap v m x → snap v m x'.

Lemma snaps_kept_fresh x x' o :
  (∀ v, issued x v → issued x' v) → stored x' = Some o → ¬ issued x (o_ResourceVersion o) →
  snaps_kept x x'.
Proof.
  intros Hi Ho Hf v m [Hv Hm]. split; [auto|]. intros o' Ho' <-. congruence.
Qed.

Lemma request_ok_mono i a act s s' :
  time s ≤ time s' → snaps_kept (srv s) (srv s') → request_ok i a act s → request_ok i a act s'.
Proof.
  intros Ht Hs. destruct act; try done.
  intros (? & ? & ? & le & m & old & ? & ? & ? & ? & ?). repeat (split; [done|]).
  exists le, m, old. eauto 10 using may_replace_mono.
Qed.

(** ** What an accepted write does *)
Lemma wire_now a : second ≤ a → Time_UnmarshalJSON (Time_MarshalJSON (TNow a)) = TParsed (a / second).
Proof. unfold Time_MarshalJSON, IsZero, second. cbn. intros Ha. destruct (Z.eqb_spec a 0); [lia|done]. Qed.

Lemma wire_parsed sec : 1 ≤ sec → Time_UnmarshalJSON (Time_MarshalJSON (TParsed sec)) = TParsed sec.
Proof.
  intros Hs. unfold Time_MarshalJSON, IsZero, nanos, second.
  destruct (Z.eqb_spec (sec * 1000000000) 0); [lia|]. by rewrite Z.div_mul by lia.
Qed.

Lemma register_head i a l r :
  register_of base ((i, a) :: l) = Some r → reg_holder r = i ∧ reg_renew r = a / second.
Proof.
  intros [= <-]. cbn. destruct (register_of base l) as [r|]; [|done]. by case_bool_decide.
Qed.

Lemma register_pos l r :
  (∀ i a, (i, a) ∈ l → second ≤ a) → register_of base l = Some r → 1 ≤ reg_acquire r ∧ 1 ≤ reg_renew r.
Proof.
  revert r. induction l as [|[i a] l IH]; [done|]. intros r Hl [= <-]. cbn.
  assert (1 ≤ a / second).
  { apply Z.div_le_lower_bound; [done|]. specialize (Hl i a). rewrite Z.mul_1_r. apply Hl. by left. }
  destruct (register_of base l) as [r|]; [|done].
  destruct (IH r) as [? ?]; [intros j b Hj; apply (Hl j); by right|done|]. by case_bool_decide.
Qed.

Lemma log_pos s i a : shared_ok s → (i, a) ∈ log s → second ≤ a.
Proof. intros Hs Hi. destruct (so_log s Hs i a Hi) as (_ & Ht & _). by eapply timed_ge. Qed.

(** The record a new holder creates. *)
Lemma wire_fresh i le a :
  configured i le → second ≤ a →
  json_Unmarshal (json_Marshal (fresh_record le (TNow a))) =
  Some {| HolderIdentity := identity i; LeaseDurationSeconds := Z.quot (lease i) second;
          AcquireTime := TParsed (a / second); RenewTime := TParsed (a / second); LeaderTransitions := 0 |}.
Proof.
  intros (_ & _ & _ & Hi & Hl) Ha. unfold fresh_record, le_Identity, json_Marshal. cbn -[Time_MarshalJSON].
  by rewrite wire_now, Hi, Hl.
Qed.

(** The record that replaces the one of a register. *)
Lemma wire_updated i le a r :
  configured i le → second ≤ a → 1 ≤ reg_acquire r →
  json_Unmarshal (json_Marshal (updated_record le (register_record r) (fresh_record le (TNow a)))) =
  Some (register_record (write_register base (i, a) (Some r))).
Proof.
  intros (_ & _ & _ & Hi & Hl) Ha Hr. unfold updated_record, fresh_record, le_Identity. cbn.
  rewrite Hi, Hl. destruct (decide (reg_holder r = i)) as [<-|Hne].
  - rewrite !bool_decide_eq_true_2 by done. unfold json_Marshal. cbn -[Time_MarshalJSON].
    by rewrite wire_now, wire_parsed.
  - rewrite !bool_decide_eq_false_2 by (try intros ?%identity_inj; done).
    unfold json_Marshal. cbn -[Time_MarshalJSON]. by rewrite wire_now.
Qed.

(** The record that replaces one that was there before. *)
Lemma wire_taken i le a old :
  configured i le → second ≤ a → HolderIdentity old ≠ identity i →
  json_Unmarshal (json_Marshal (updated_record le old (fresh_record le (TNow a)))) =
  Some (register_record (write_register (i64 (LeaderTransitions old + 1)) (i, a) None)).
Proof.
  intros (_ & _ & _ & Hi & Hl) Ha Hne. unfold updated_record, fresh_record, le_Identity. cbn.
  rewrite Hi, Hl, !bool_decide_eq_false_2 by done.
  unfold json_Marshal. cbn -[Time_MarshalJSON]. by rewrite wire_now.
Qed.

Lemma stored_register s r :
  shared_ok s → register_of base (log s) = Some r →
  ∃ o, stored (srv s) = Some o ∧ record_of (content o) = Some (register_record r).
Proof. intros Hs Hr. pose proof (so_stored s Hs) as Ho. unfold stored_ok in Ho. by rewrite Hr in Ho. Qed.

Lemma record_of_insert m r :
  record_of (<[LeaderElectionRecordAnnotationKey := json_Marshal r]> m) = json_Unmarshal (json_Marshal r).
Proof. unfold record_of. by rewrite lookup_insert_eq. Qed.

(** What the server stores after a write is what the register says, and replaces what it may. *)
Definition wrote (i : I) (a : Z) (s : shared) (x : S) : Prop :=
  snaps_kept (srv s) x ∧
  (∃ o, stored x = Some o ∧
    record_of (content o) = Some (register_record (write_register base (i, a) (register_of base (log s))))) ∧
  (∀ r, register_of base (log s) = Some r → may_replace i a (register_record r) s).

Lemma create_wrote i a r n o s o' x :
  shared_ok s → request_ok i a (ACreate r n o) s → timed i a s →
  api_create r n o (srv s) = (Ok o', x) → wrote i a s x.
Proof.
  intros Hs (-> & -> & Hname & le & Hle & Ho) Ht (Hnone & Hsome & Hc & Hi & Hf)%create_Ok.
  rewrite Hname in *. fold (stored (srv s)) in Hnone. fold (stored x) in Hsome.
  assert (register_of base (log s) = None) as Hlog.
  { destruct (register_of base (log s)) as [r|] eqn:Hr; [|done].
    destruct (stored_register s r Hs Hr) as (? & ? & _). congruence. }
  split; [by eapply snaps_kept_fresh|]. split; [|by rewrite Hlog].
  exists o'. split; [done|]. rewrite Hlog, Hc, Ho.
  replace base with 0.
  { rewrite <-(insert_empty (M := gmap string)), record_of_insert.
    apply (wire_fresh i); [done|by eapply timed_ge]. }
  pose proof (so_stored s Hs) as Hx. unfold stored_ok in Hx. rewrite Hlog in Hx.
  unfold base, base_of. rewrite <-Hx. by rewrite Hnone.
Qed.

Lemma update_wrote i a r n o s o' x :
  shared_ok s → request_ok i a (AUpdate r n o) s → timed i a s →
  api_update r n o (srv s) = (Ok o', x) → wrote i a s x.
Proof.
  intros Hs (-> & -> & Hname & le & m & old & Hle & [Hv Hm] & Hold & Ho & Hmay) Ht Hup.
  apply update_Ok in Hup as (cur & Hcur & Hrv & Hsome & Hc & Hi & Hf); [|by eapply issued_nonempty].
  rewrite Hname in *. fold (stored (srv s)) in Hcur. fold (stored x) in Hsome.
  specialize (Hm cur Hcur Hrv). pose proof (timed_ge _ _ _ Ht) as Ha.
  split; [|split].
  - destruct Hf as [[Hrv' Hcc]|Hf]; [|by eapply snaps_kept_fresh].
    intros v m' [Hv' Hm']. split; [auto|]. intros o1 Ho1 Hv1. rewrite Hsome in Ho1. injection Ho1 as <-.
    rewrite Hc, <-Hcc. apply Hm'; [done|congruence].
  - exists o'. split; [done|]. rewrite Hc, Ho, record_of_insert.
    destruct (register_of base (log s)) as [r|] eqn:Hr.
    + destruct (stored_register s r Hs Hr) as (o1 & Ho1 & Hrec). assert (old = register_record r) as -> by congruence.
      apply wire_updated; [done..|]. eapply register_pos; [|done]. eauto using log_pos.
    + pose proof (so_stored s Hs) as Hx. unfold stored_ok in Hx. rewrite Hr in Hx. rewrite Hx in Hcur.
      replace base with (i64 (LeaderTransitions old + 1)).
      { apply wire_taken; [done..|]. eapply Hx0; [done|congruence]. }
      unfold base, base_of. rewrite Hcur, Hm, Hold. done.
  - intros r Hr. destruct (stored_register s r Hs Hr) as (o1 & Ho1 & Hrec).
    assert (old = register_record r) as -> by congruence. done.
Qed.

(** A write of another elector comes a lease after the holder's record was written. *)
Lemma replaced_lost i j a b t s :
  i ≠ j → t ≤ time s → timed i a s → lease i ≤ a - clock i t → b / second ≤ clock j t / second →
  lost j b (time s).
Proof.
  intros Hij Ht (t1 & Ht1 & ->) Hl Hb. exists i. split; [done|].
  destruct Hclocks as (_ & Hmono & Hrate & Hn & Hd & _).
  pose proof (Hmono i _ _ Ht1). pose proof (Hrate j i t (time s) ltac:(congruence) Ht) as Hr.
  assert (b < clock j t + second).
  { unfold second in *. zlia. }
  nia.
Qed.

Lemma wrote_stands i a s x j b :
  shared_ok s → wrote i a s x → timed i a s → (j, b) ∈ log s → stands j b (accepted i a x s).
Proof.
  intros Hs (_ & _ & Hmay) Ht Hjb. destruct (so_log s Hs j b Hjb) as (_ & _ & [(r & Hr & <- & Hb)|Hl]);
    [|by right].
  destruct (Hmay r Hr) as [Hsame Hother]. destruct (decide (reg_holder r = i)) as [<-|Hne].
  - left. eexists. split; [done|]. pose proof (register_head (reg_holder r) a (log s) _ eq_refl) as [-> ->].
    split; [done|]. specialize (Hsame eq_refl _ eq_refl). lia.
  - right. destruct (Hother _ Hne eq_refl) as (t & Hle & [= Heq] & Hlease).
    apply (replaced_lost i (reg_holder r) a b t s); try done. by rewrite <-Heq.
Qed.

Lemma wrote_ok i a s x :
  shared_ok s → wrote i a s x → a ≤ starts s i → timed i a s → shared_ok (accepted i a x s).
Proof.
  intros Hs Hw Ha Ht. pose proof Hw as (Hsnap & Hstored & _). split; cbn.
  - done.
  - intros j b [[= -> ->]|Hjb]%elem_of_cons.
    + split; [done|]. split; [done|]. left. eexists. split; [done|].
      pose proof (register_head i a (log s) _ eq_refl) as [-> ->]. done.
    + destruct (so_log s Hs j b Hjb) as (? & ? & _). eauto using wrote_stands.
  - apply Hs.
  - apply Hs.
  - intros j b act Hin. destruct (so_requests s Hs j b act Hin) as (Hreq & ? & ?).
    split; [|done]. by apply (request_ok_mono j b act s).
Qed.

(** The server executes requests only in ways the invariant allows. *)
Lemma execute_wrote i a act s o x :
  shared_ok s → request_ok i a act s → timed i a s → execute act (srv s) = (Ok o, x) → wrote i a s x.
Proof.
  intros Hs Hreq Ht. destruct act; try done; cbn; eauto using create_wrote, update_wrote.
Qed.

(** ** The other ways in which the shared state changes *)
Lemma set_time_ok s t : shared_ok s → time s ≤ t → shared_ok (set_time t s).
Proof.
  intros Hs Ht. split; cbn.
  - apply Hs.
  - intros i a Hi. destruct (so_log s Hs i a Hi) as (? & ? & Hst). split; [done|]. split.
    + by apply (timed_mono i a s).
    + destruct Hst as [?|?]; [by left|right]. by eapply lost_mono.
  - intros i. pose proof (so_starts s Hs i). pose proof (clock_mono i _ _ Ht). lia.
  - intros i Hi. apply (timed_mono i _ s); [done|]. by apply (so_begun s Hs).
  - intros i a act Hin. destruct (so_requests s Hs i a act Hin) as (? & ? & ?). repeat split; [|done|].
    + apply (request_ok_mono i a act s); [done|by intros ??|done].
    + by apply (timed_mono i a s).
Qed.

Lemma set_begun_ok s i : shared_ok s → shared_ok (set_begun i false s).
Proof.
  intros Hs. split; cbn; try apply Hs. intros j. destruct (decide (i = j)) as [<-|Hne].
  - by rewrite fn_lookup_insert.
  - rewrite fn_lookup_insert_ne by done. apply Hs.
Qed.

Lemma note_start_ok s i : shared_ok s → shared_ok (note_start i (clock i (time s)) s).
Proof.
  intros Hs. unfold note_start. destruct (begun s i) eqn:Hb; [done|].
  assert (∀ j, starts s j ≤ (<[i := clock i (time s)]> (starts s)) j) as Hle.
  { intros j. destruct (decide (i = j)) as [<-|Hne].
    - rewrite fn_lookup_insert. apply Hs.
    - rewrite fn_lookup_insert_ne by done. lia. }
  split; cbn.
  - apply Hs.
  - intros j a Hj. destruct (so_log s Hs j a Hj) as (? & ? & ?). split; [specialize (Hle j); lia|done].
  - intros j. destruct (decide (i = j)) as [<-|Hne].
    + by rewrite fn_lookup_insert.
    + rewrite fn_lookup_insert_ne by done. apply Hs.
  - intros j. destruct (decide (i = j)) as [<-|Hne].
    + rewrite !fn_lookup_insert. intros _. by exists (time s).
    + rewrite !fn_lookup_insert_ne by done. apply Hs.
  - intros j a act Hin. destruct (so_requests s Hs j a act Hin) as (? & ? & ?).
    split; [done|]. split; [specialize (Hle j); lia|done].
Qed.

Lemma issue_ok s i a :
  shared_ok s → (is_write a = true → request_ok i (starts s i) a s ∧ begun s i = true) →
  shared_ok (issue i a s).
Proof.
  intros Hs Hreq. unfold issue. destruct (is_write a) eqn:Hw; [|done].
  destruct (Hreq eq_refl) as [Hr Hb]. split; cbn; try apply Hs.
  intros j b act [[= -> -> ->]|Hin]%elem_of_cons.
  - split; [done|]. split; [done|]. by apply (so_begun s Hs).
  - by apply (so_requests s Hs).
Qed.

(** ** What an elector may assume of later states

    [future i s s']: [s'] may come after [s] while elector [i] takes no step. *)
Record future (i : I) (s s' : shared) : Prop := {
  fu_time : time s ≤ time s';
  fu_starts : starts s' i = starts s i;
  fu_begun : begun s' i = begun s i;
  fu_snaps : snaps_kept (srv s) (srv s');
  fu_log : log s ⊆ log s';
  fu_ok : shared_ok s';
}.

Lemma future_refl i s : shared_ok s → future i s s.
Proof. intros Hs. split; try done. by intros ??. Qed.

Lemma future_trans i s1 s2 s3 : future i s1 s2 → future i s2 s3 → future i s1 s3.
Proof.
  intros [] []. split; [lia|congruence|congruence| |set_solver|done].
  intros v m Hv. auto.
Qed.

(** An action keeps the invariant, and is a step into the future for every elector whose
    attempt it does not begin. *)
Lemma action_future i a s r s' :
  shared_ok s → (is_write a = true → request_ok i (starts s i) a s ∧ begun s i = true) →
  action_step i a (issue i a s) r s' →
  shared_ok s' ∧ log s ⊆ log s' ∧ ∀ j, j ≠ i ∨ begun s i = true → future j s s'.
Proof.
  intros Hs Hreq Hstep. pose proof (issue_ok s i a Hs Hreq) as Hi.
  assert (shared_ok s' ∧ time s' = time s ∧ snaps_kept (srv s) (srv s') ∧ log s ⊆ log s' ∧
          ∀ j, j ≠ i ∨ begun s i = true → starts s' j = starts s j ∧ begun s' j = begun s j) as
    (Hok & Ht & Hsn & Hl & Hj).
  2:{ split; [done|]. split; [done|]. intros j Hne. destruct (Hj j Hne). split; try done. lia. }
  assert (is_write a = true → ∀ r, write_step i a (issue i a s) r s' →
    shared_ok s' ∧ time s' = time s ∧ snaps_kept (srv s) (srv s') ∧ log s ⊆ log s' ∧
    ∀ j, j ≠ i ∨ begun s i = true → starts s' j = starts s j ∧ begun s' j = begun s j) as Hwrite.
  { intros Hw r0 Hws. destruct (Hreq Hw) as [Hr Hb]. unfold issue in *. rewrite Hw in *.
    destruct Hws as [(o & x & He & _ & ->)|(e & _ & ->)].
    - assert (timed i (starts s i) s) as Ht by by apply (so_begun s Hs).
      pose proof (execute_wrote i _ a _ o x Hi Hr Ht He) as Hwr.
      split; [by apply wrote_ok|]. cbn. split; [done|]. split; [apply Hwr|]. split; [set_solver|done].
    - cbn. split; [done|]. split; [done|]. split; [by intros ??|done]. }
  destruct a; cbn in Hstep; try (by eapply Hwrite).
  - destruct Hstep as [-> ->]. split; [by apply note_start_ok|]. unfold note_start. cbn.
    destruct (begun s i) eqn:Hb; cbn; (split; [done|]); (split; [by intros ??|]); (split; [done|]); intros j Hj.
    + done.
    + rewrite !fn_lookup_insert_ne by naive_solver. done.
  - destruct Hstep as [-> _]. cbn. split; [done|]. split; [done|]. split; [by intros ??|done].
  - subst s'. cbn. split; [done|]. split; [done|]. split; [by intros ??|done].
  - subst s'. cbn. split; [done|]. split; [done|]. split; [by intros ??|done].
Qed.

(** The time a record was observed is after the record was written, if it was written by one
    of the electors. *)
Definition observation_ok (i : I) (le : Elector) (s : shared) : Prop :=
  ∀ rs h, RenewTime (observedRecord le) = TParsed rs → HolderIdentity (observedRecord le) = identity h →
    ∃ t, t ≤ time s ∧ rs = clock h t / second ∧ clock i t ≤ nanos (observedTime le).

Definition elector_ok (i : I) (le : Elector) (s : shared) : Prop := configured i le ∧ observation_ok i le s.

Lemma elector_ok_future i le s s' : time s ≤ time s' → elector_ok i le s → elector_ok i le s'.
Proof.
  intros Ht [Hc Ho]. split; [done|]. intros rs h Hr Hh. destruct (Ho rs h Hr Hh) as (t & ? & ?).
  exists t. split; [lia|done].
Qed.

(** ** Programs that keep the invariant

    [wp i p s]: from [s] on, whatever happens in between, program [p] of elector [i] only
    issues requests that are in order, and when it reports success, its write was accepted. *)
Fixpoint wp (i : I) (p : prog (bool * Elector)) (s : shared) : Prop :=
  match p with
  | Return (b, le) => elector_ok i le s ∧ (b = true → (i, starts s i) ∈ log s)
  | Crash => False
  | Do a k => ∀ s', future i s s' →
      (is_write a = true → request_ok i (starts s' i) a s' ∧ begun s' i = true) ∧
      ∀ r s'', action_step i a (issue i a s') r s'' → shared_ok s'' → wp i (k r) s''
  end.

Lemma wp_future i p s s' : future i s s' → wp i p s → wp i p s'.
Proof.
  intros Hf. destruct p as [[b le]|a k|]; cbn; [|by eauto using future_trans|done].
  intros [He Hl]. split; [eapply elector_ok_future; [by apply Hf|done]|].
  intros Hb. rewrite (fu_starts _ _ _ Hf). apply (fu_log _ _ _ Hf), Hl, Hb.
Qed.

(** *** The attempt *)
Lemma configured_set_Object i le o :
  configured i le → configured i (set_Lock (set_Object o (Lock (config le))) le).
Proof. done. Qed.

Lemma elector_ok_set_Object i le o s :
  elector_ok i le s → elector_ok i (set_Lock (set_Object o (Lock (config le))) le) s.
Proof. done. Qed.

(** After an accepted write the elector notes its own record. *)
Lemma wp_success i le ler t0 s :
  configured i le → RenewTime ler = TNow t0 → begun s i = true → (i, starts s i) ∈ log s →
  wp i (Do ANow (λ t, Return (true, set_observed ler (TNow t) le))) s.
Proof.
  intros Hc Hr Hb Hl s' Hf. split; [done|]. intros r s'' [-> ->] _. cbn.
  unfold note_start. rewrite (fu_begun _ _ _ Hf), Hb. split.
  - split; [done|]. intros rs h Hrs. cbn in Hrs. congruence.
  - intros _. rewrite (fu_starts _ _ _ Hf). by apply (fu_log _ _ _ Hf).
Qed.

(** What is done with the result of a write. *)
Lemma wp_written i a le ler t0 s r s' (p : prog (bool * Elector)) :
  write_step i a (issue i a s) r s' → is_write a = true → elector_ok i le s → RenewTime ler = TNow t0 →
  begun s i = true →
  (∀ o, r = Ok o → p = Do ANow (λ t, Return (true, set_observed ler (TNow t)
                         (set_Lock (set_Object o (Lock (config le))) le)))) →
  (∀ e, r = Err e → p = Return (false, set_Lock (set_Object zero_object (Lock (config le))) le)) →
  wp i p s'.
Proof.
  intros Hstep Hw He Hr Hb Hok Herr. unfold issue in Hstep. rewrite Hw in Hstep.
  destruct Hstep as [(o & x & _ & -> & ->)|(e & -> & ->)].
  - rewrite (Hok o) by done. apply (wp_success i _ ler t0); [apply He|done|done|]. by left.
  - rewrite (Herr e) by done. cbn. split; [|done]. by apply elector_ok_set_Object.
Qed.

Lemma wp_create i le a s :
  elector_ok i le s → begun s i = true → a = starts s i →
  wp i (try_create (fresh_record le (TNow a)) le) s.
Proof.
  intros He Hb -> s' Hf. cbn.
  assert (request_ok i (starts s' i) (ACreate (l_Resource (Lock (config le))) (l_Namespace (Lock (config le)))
    {| o_Name := l_Name (Lock (config le)); o_Namespace := l_Namespace (Lock (config le)); o_ResourceVersion := "";
       o_Annotations := Some {[ LeaderElectionRecordAnnotationKey := json_Marshal (fresh_record le (TNow (starts s i))) ]} |}) s').
  { destruct He as [Hc _]. pose proof Hc as (? & ? & ? & ? & ?). cbn. repeat (split; [done|]).
    exists le. split; [done|]. by rewrite (fu_starts _ _ _ Hf). }
  split; [by rewrite (fu_begun _ _ _ Hf)|]. intros r s'' Hstep Hs''.
  apply (wp_written i _ le (fresh_record le (TNow (starts s i))) (starts s i) _ _ _ _ Hstep); try done.
  - eapply elector_ok_future; [apply Hf|done].
  - by rewrite (fu_begun _ _ _ Hf).
  - by intros o ->.
  - by intros e ->.
Qed.

Lemma wp_update i le a o ann old s :
  elector_ok i le s → begun s i = true → a = starts s i →
  l_Object (Lock (config le)) = Some o → o_Name o = name → o_Annotations o = Some ann →
  snap (o_ResourceVersion o) ann (srv s) → record_of ann = Some old → may_replace i a old s →
  wp i (try_update (updated_record le old (fresh_record le (TNow a))) le) s.
Proof.
  intros He Hb -> Ho Hn Ha Hsn Hold Hm. unfold try_update. cbn. unfold lock_Update. rewrite Ho, Ha.
  intros s' Hf. cbn.
  assert (request_ok i (starts s' i) (AUpdate (l_Resource (Lock (config le))) (l_Namespace (Lock (config le)))
    (with_Annotations (<[LeaderElectionRecordAnnotationKey :=
       json_Marshal (updated_record le old (fresh_record le (TNow (starts s i))))]> ann) o)) s').
  { destruct He as [Hc _]. pose proof Hc as (? & ? & ? & ? & ?). cbn. repeat (split; [done|]).
    exists le, ann, old. rewrite (fu_starts _ _ _ Hf). repeat (split; [done|]).
    split; [by apply (fu_snaps _ _ _ Hf)|]. repeat (split; [done|]).
    eapply may_replace_mono; [apply Hf|done]. }
  split; [by rewrite (fu_begun _ _ _ Hf)|]. intros r s'' Hstep Hs''.
  apply (wp_written i _ le (updated_record le old (fresh_record le (TNow (starts s i)))) (starts s i) _ _ _ _ Hstep); try done.
  - eapply elector_ok_future; [apply Hf|done].
  - unfold updated_record. by case_bool_decide.
  - by rewrite (fu_begun _ _ _ Hf).
  - by intros o' ->.
  - by intros e ->.
Qed.

(** A record held by one of the electors was written by it. *)
Lemma stored_origin s o old h :
  shared_ok s → stored (srv s) = Some o → record_of (content o) = Some old →
  HolderIdentity old = identity h →
  ∃ a, (h, a) ∈ log s ∧ RenewTime old = TParsed (a / second).
Proof.
  intros Hs Ho Hr Hh. pose proof (so_stored s Hs) as Hok. unfold stored_ok in Hok.
  destruct (log s) as [|[i a] l] eqn:Hlog.
  { cbn in Hok. rewrite Hok in Ho. by destruct (Hx0 o old Ho Hr h). }
  destruct (register_of base ((i, a) :: l)) as [r|] eqn:Hreg; [|done].
  destruct Hok as (o' & Ho' & Hr'). assert (old = register_record r) as -> by congruence.
  apply register_head in Hreg as [Hi Hrn]. cbn in Hh. apply identity_inj in Hh as <-.
  exists a. rewrite Hi. cbn. rewrite Hrn. split; [by left|done].
Qed.

(** What reading the record [old] tells an attempt that began at [a]. *)
Definition read_ok (i : I) (a : Z) (old : LeaderElectionRecord) : Prop :=
  (∀ h, HolderIdentity old = identity h → ∃ rs, RenewTime old = TParsed rs) ∧
  (HolderIdentity old = identity i → ∀ rs, RenewTime old = TParsed rs → rs ≤ a / second).

Lemma stored_read_ok i s o old :
  shared_ok s → stored (srv s) = Some o → record_of (content o) = Some old →
  read_ok i (starts s i) old.
Proof.
  intros Hs Ho Hr. split.
  - intros h Hh. destruct (stored_origin s o old h) as (a & _ & ?); eauto.
  - intros Hi rs Hrs. destruct (stored_origin s o old i) as (a & Ha & Hr'); try done.
    destruct (so_log s Hs i a Ha) as (Hle & _). assert (rs = a / second) as -> by congruence.
    by apply Z.div_le_mono.
Qed.

(** An expired lease, or the elector's own, may be replaced. *)
Lemma not_held_may_replace i le old a s :
  elector_ok i le s → observedRecord le = old → read_ok i a old →
  held_by_other le old (TNow a) = false → may_replace i a old s.
Proof.
  intros [(_ & _ & _ & Hid & Hl) Hobs] Hold [Hrs Hown] Hheld. split; [done|]. intros h Hne Hh.
  destruct (Hrs h Hh) as [rs Hr]. rewrite <-Hold in Hr, Hh. destruct (Hobs rs h Hr Hh) as (t & Ht & -> & Ho).
  exists t. rewrite <-Hold. split; [done|]. split; [done|]. rewrite Hold in Hh. unfold held_by_other in Hheld.
  apply andb_false_iff in Hheld as [Hh'|Hh'].
  - unfold AddAfter in Hh'. apply Z.ltb_ge in Hh'. cbn in Hh'. lia.
  - apply negb_false_iff, bool_decide_eq_true in Hh'. unfold le_Identity in Hh'. cbn in Hh'.
    rewrite Hid, Hh in Hh'. by apply identity_inj in Hh'.
Qed.

(** The attempt after the record was read: observing it, deciding, replacing it. *)
Lemma wp_found i le a o old s :
  shared_ok s → elector_ok i le s → begun s i = true → a = starts s i →
  stored (srv s) = Some o → record_of (content o) = Some old →
  l_Object (Lock (config le)) = Some (with_Annotations (content o) o) →
  wp i (le' ← observe old le;
        if held_by_other le' old (TNow a) then mret (false, le')
        else try_update (updated_record le' old (fresh_record le (TNow a))) le') s.
Proof.
  intros Hs He Hb -> Ho Hold Hobj.
  assert (∀ le' s', future i s s' → elector_ok i le' s' → observedRecord le' = old →
    config le' = config le →
    wp i (if held_by_other le' old (TNow (starts s i)) then mret (false, le')
          else try_update (updated_record le' old (fresh_record le (TNow (starts s i)))) le') s') as Hdecide.
  { intros le' s' Hf He' Hobs Hconf. destruct (held_by_other _ _ _) eqn:Hheld; [by cbn|].
    replace (fresh_record le (TNow (starts s i))) with (fresh_record le' (TNow (starts s i)))
      by (unfold fresh_record, le_Identity; by rewrite Hconf).
    eapply (wp_update i le' _ (with_Annotations (content o) o) (content o)); try done.
    - by rewrite (fu_begun _ _ _ Hf).
    - by rewrite (fu_starts _ _ _ Hf).
    - by rewrite Hconf.
    - by destruct (get_issued _ _ _ _ _ Ho).
    - apply (fu_snaps _ _ _ Hf). exact (snap_stored _ _ Ho).
    - eapply not_held_may_replace; [done|done| |done]. by eapply stored_read_ok. }
  unfold observe. case_bool_decide as Hobs.
  { cbn. apply Hdecide; [by apply future_refl|done|done|done]. }
  cbn -[held_by_other try_update]. intros s1 Hf. split; [done|]. intros r s2 [-> ->] Hs2. unfold issue, note_start in *. cbn -[held_by_other try_update] in *.
  rewrite (fu_begun _ _ _ Hf), Hb in *. cbn. apply Hdecide; try done. split; [apply He|].
  intros rs h Hrs Hh. cbn in Hrs, Hh. destruct (stored_origin s o old h) as (a & Ha & Hr); try done.
  destruct (so_log s Hs h a Ha) as (_ & (t & Ht & ->) & _). exists t. pose proof (fu_time _ _ _ Hf).
  split; [lia|]. split; [congruence|]. apply clock_mono. lia.
Qed.

(** Every attempt keeps the invariant. *)
Lemma wp_tryAcquireOrRenew i le s :
  elector_ok i le s → begun s i = false → wp i (tryAcquireOrRenew le) s.
Proof.
  intros He Hb s1 Hf1. split; [done|]. intros r s2 [-> ->] Hs2.
  unfold issue, note_start in *. cbn in Hs2 |- *. rewrite (fu_begun _ _ _ Hf1), Hb in Hs2 |- *.
  set (s2 := {| srv := _ |}) in *. intros s3 Hf3. split; [done|].
  assert (elector_ok i le s3) as He3.
  { eapply elector_ok_future; [|done]. pose proof (fu_time _ _ _ Hf1). pose proof (fu_time _ _ _ Hf3). cbn in *. lia. }
  assert (begun s3 i = true) as Hb3 by (rewrite (fu_begun _ _ _ Hf3); apply fn_lookup_insert).
  assert (clock i (time s1) = starts s3 i) as Ha by (rewrite (fu_starts _ _ _ Hf3); symmetry; apply fn_lookup_insert).
  pose proof (fu_ok _ _ _ Hf3) as Hs3. destruct He as [(Hr & Hn & Hm & _) _].
  intros r s4 [-> Hget] _. cbn in Hget. rewrite Hr, Hn, Hm in Hget. fold (stored (srv s3)) in Hget.
  destruct Hget as [->|(e & He & ->)].
  - destruct (stored (srv s3)) as [o|] eqn:Ho; cbn -[observe held_by_other try_update].
    + fold (content o).
      set (le1 := set_Lock (set_Object (with_Annotations (content o) o) (Lock (config le))) le).
      destruct (content o !! LeaderElectionRecordAnnotationKey) as [b|] eqn:Hk; [destruct (json_Unmarshal b) as [old|] eqn:Hj|].
      * apply (wp_found i le1 _ o); try done. unfold record_of. by rewrite Hk.
      * done.
      * apply (wp_found i le1 _ o); try done. unfold record_of. by rewrite Hk.
    + by apply wp_create.
  - cbn. by destruct e.
Qed.

(** ** The whole system *)
Definition thread_ok (i : I) (th : thread) (s : shared) : Prop :=
  match t_state th with
  | Idle le => elector_ok i le s
  | Busy p => wp i p s
  end ∧ ∀ a, t_leading th = Some a → (i, a) ∈ log s.

Definition system_ok (sys : system) : Prop :=
  shared_ok sys.1 ∧ ∀ i, thread_ok i (sys.2 i) sys.1.

Lemma thread_ok_future i th s s' : future i s s' → thread_ok i th s → thread_ok i th s'.
Proof.
  intros Hf [Hst Hl]. split.
  - destruct (t_state th); [eapply elector_ok_future; [apply Hf|done]|by eapply wp_future].
  - intros a Ha. apply (fu_log _ _ _ Hf). auto.
Qed.

Lemma threads_ok_update i t th s s' :
  (∀ j, thread_ok j (th j) s) → (∀ j, j ≠ i → future j s s') → thread_ok i t s' →
  ∀ j, thread_ok j ((<[i := t]> th) j) s'.
Proof.
  intros Hth Hf Ht j. destruct (decide (i = j)) as [<-|Hne].
  - by rewrite fn_lookup_insert.
  - rewrite fn_lookup_insert_ne by done. eapply thread_ok_future; [|done]. by apply Hf.
Qed.

Lemma initial_ok sys : initial sys → srv sys.1 = x0 → system_ok sys.
Proof.
  destruct sys as [s th]. intros (Hreq & Hlog & Hth & _) Hx. cbn in *. split; cbn.
  - split.
    + unfold stored_ok. by rewrite Hlog.
    + rewrite Hlog. set_solver.
    + intros i. by destruct (Hth i) as (_ & _ & _ & _ & _ & _ & ?).
    + intros i. destruct (Hth i) as (_ & _ & _ & _ & _ & -> & _). done.
    + rewrite Hreq. set_solver.
  - intros i. destruct (Hth i) as (le & Hst & Hl & Hc & Ho & _). split; [|congruence].
    rewrite Hst. split; [done|]. intros rs h. by rewrite Ho.
Qed.

Lemma step_ok sys sys' : system_ok sys → step sys sys' → system_ok sys'.
Proof.
  intros [Hs Hth] Hstep. destruct Hstep as
    [s th t Ht|s th i le Hi|s th i a k r s' Hi Ha|s th i b le Hi|s th i le Hi|s th i|s th i t a o x Hin He];
    cbn in *.
  - assert (∀ j, future j s (set_time t s)) as Hf.
    { intros j. split; try done; [by intros ??|by apply set_time_ok]. }
    split; cbn; [by apply set_time_ok|]. intros j. by eapply thread_ok_future.
  - pose proof (set_begun_ok s i Hs) as Hs'. split; [done|]. cbn. destruct (Hth i) as [Hst Hl].
    rewrite Hi in Hst. apply threads_ok_update with s; [done|..].
    + intros j Hne. split; try done; [|by intros ??]. cbn. by rewrite fn_lookup_insert_ne.
    + split; [|done]. apply wp_tryAcquireOrRenew; [done|]. apply fn_lookup_insert.
  - destruct (Hth i) as [Hst Hl]. rewrite Hi in Hst. destruct (Hst s (future_refl i s Hs)) as [Hreq Hk].
    destruct (action_future i a s r s' Hs Hreq Ha) as (Hs' & Hlog & Hf). split; [done|]. cbn.
    apply threads_ok_update with s; [done|by auto|]. split; [by apply Hk|]. cbn. auto.
  - destruct (Hth i) as [Hst Hl]. rewrite Hi in Hst. destruct Hst as [He Hb]. split; [done|]. cbn.
    apply threads_ok_update with s; [done|by intros; apply future_refl|]. split; [done|]. cbn.
    destruct b; [|done]. intros a [= <-]. by apply Hb.
  - destruct (Hth i) as [Hst Hl]. rewrite Hi in Hst. split; [done|]. cbn.
    by apply threads_ok_update with s; [done|by intros; apply future_refl|].
  - destruct (Hth i) as [Hst Hl]. split; [done|]. cbn.
    by apply threads_ok_update with s; [done|by intros; apply future_refl|].
  - destruct (so_requests s Hs i t a Hin) as (Hreq & Hle & Ht).
    pose proof (execute_wrote i t a s o x Hs Hreq Ht He) as Hw.
    pose proof (wrote_ok i t s x Hs Hw Hle Ht) as Hs'. split; [done|]. cbn.
    assert (∀ j, future j s (accepted i t x s)) as Hf.
    { intros j. split; try done; [apply Hw|]. cbn. set_solver. }
    intros j. by eapply thread_ok_future.
Qed.

Lemma reachable_srv sys0 sys : reachable sys0 sys → initial sys0.
Proof. by induction 1. Qed.

Lemma reachable_ok sys0 sys : reachable sys0 sys → srv sys0.1 = x0 → system_ok sys.
Proof. induction 1; eauto using initial_ok, step_ok. Qed.

(** While a lease is fresh its record stands. *)
Lemma not_lost_stands s i a :
  shared_ok s → (i, a) ∈ log s → ¬ lost i a (time s) →
  ∃ o r, stored (srv s) = Some o ∧ record_of (content o) = Some r ∧ HolderIdentity r = identity i.
Proof.
  intros Hs Hi Hn. destruct (so_log s Hs i a Hi) as (_ & _ & [(r & Hr & <- & _)|?]); [|done].
  destruct (stored_register s r Hs Hr) as (o & Ho & Hrec). by exists o, (register_record r).
Qed.
End system.
