(* ===== verification/LeaderRuns.v ===== *)
(** * What competing electors guarantee

    The theorems on the system of [LeaderSafety], and attempts that run undisturbed: the
    executable form of the system, in which scenarios are evaluated. *)

From S2P Require Import Prelude TokenBucket RateLimiters Wait ResourceLock LeaderElection ApiServer LeaderSafety.
From stdpp Require Import functions.
Open Scope Z_scope.

Section runs.
Context {S : Type} `{ApiServer S} {I : Type} `{EqDecision I}.
Context (clock : I → Z → Z) (identity : I → string) (lease : I → Z).
Context (resource ns name : string).

Notation reaches := (reachable clock identity lease resource ns name).

(** So little time has passed, by the clock of [i], since it began the attempt that gave it
    its lease, that no other elector can have replaced it. *)
Definition fresh (num den : Z) (i : I) (a : Z) (s : shared (S := S) (I := I)) : Prop :=
  ∀ j, j ≠ i → num * (clock i (time s) - a + second) ≤ den * lease j.

Lemma fresh_not_lost num den i a s : fresh num den i a s → ¬ lost clock lease num den i a (time s).
Proof. intros Hf (j & Hj & Hl). specialize (Hf j Hj). lia. Qed.

(** ** Undisturbed attempts

    Every action is answered at once, by the server itself. *)
Definition answer (i : I) (a : action) (s : shared) : response a * shared :=
  match a return response a * shared with
  | ANow => (clock i (time s), note_start i (clock i (time s)) s)
  | AGet r n m => (match api_get r n m (srv s) with Some o => Ok o | None => Err NotFound end, s)
  | ACreate r n o =>
    match api_create r n o (srv s) with
    | (Ok o', x) => (Ok o', accepted i (starts s i) x (issue i (ACreate r n o) s))
    | (Err e, _) => (Err e, issue i (ACreate r n o) s)
    end
  | AUpdate r n o =>
    match api_update r n o (srv s) with
    | (Ok o', x) => (Ok o', accepted i (starts s i) x (issue i (AUpdate r n o) s))
    | (Err e, _) => (Err e, issue i (AUpdate r n o) s)
    end
  | AEvent _ _ | ACall _ => ((), s)
  end.

Definition attempt (i : I) (le : Elector) (s : shared) : option (bool * Elector * shared) :=
  run (answer i) (tryAcquireOrRenew le) (set_begun i false s).

Lemma answer_step i a s r s' : answer i a s = (r, s') → action_step clock i a (issue i a s) r s'.
Proof.
  destruct a as [|rs n m|rs n o|rs n o| |]; cbn.
  - intros [= <- <-]. done.
  - intros [= <- <-]. by split; [|left].
  - destruct (api_create rs n o (srv s)) as [[o'|e] x] eqn:Hx; intros [= <- <-].
    + left. exists o', x. by rewrite <-Hx.
    + right. by exists e.
  - destruct (api_update rs n o (srv s)) as [[o'|e] x] eqn:Hx; intros [= <- <-].
    + left. exists o', x. by rewrite <-Hx.
    + right. by exists e.
  - by intros [= <-].
  - by intros [= <-].
Qed.

(** Threads that differ from others in the state of elector [i] only. *)
Definition only (i : I) (t : thread) (th th' : I → thread) : Prop :=
  th' i = t ∧ ∀ j, j ≠ i → th' j = th j.

Lemma only_insert i t th th1 t1 : only i t1 th th1 → only i t th (<[i := t]> th1).
Proof.
  intros [_ Hj]. split; [apply fn_lookup_insert|]. intros j Hne. rewrite fn_lookup_insert_ne by done. auto.
Qed.

Lemma run_reachable sys0 i l p s th th0 b le' s' :
  reaches sys0 (s, th) → only i {| t_state := Busy p; t_leading := l |} th0 th →
  run (answer i) p s = Some ((b, le'), s') →
  ∃ th', reaches sys0 (s', th') ∧
    only i {| t_state := Busy (Return (b, le')); t_leading := l |} th0 th'.
Proof.
  revert s th. induction p as [[b0 le0]|a k IH|]; intros s th Hr Ho Hrun; cbn in Hrun; [|..|done].
  - injection Hrun as <- <- <-. by exists th.
  - destruct (answer i a s) as [r s1] eqn:Ha. eapply IH; [|by eapply only_insert|exact Hrun].
    eapply reachable_step; [done|]. destruct Ho as [Ho _].
    replace l with (t_leading (th i)) by by rewrite Ho.
    eapply step_action; [by rewrite Ho|]. by apply answer_step.
Qed.

(** An undisturbed attempt is a run of the system. *)
Lemma attempt_reachable sys0 s th i le b le' s' :
  reaches sys0 (s, th) → t_state (th i) = Idle le → attempt i le s = Some ((b, le'), s') →
  ∃ th', reaches sys0 (s', th') ∧
    only i {| t_state := Idle le'; t_leading := if (b : bool) then Some (starts s' i) else t_leading (th i) |} th th'.
Proof.
  intros Hr Hi Ha. eapply run_reachable with (th0 := th) (l := t_leading (th i)) in Ha as (th1 & Hr1 & Ho1);
    [|eapply reachable_step; [done|by eapply step_begin]|eapply only_insert; by split].
  eexists. split.
  - eapply reachable_step; [done|]. eapply step_return. by rewrite (proj1 Ho1).
  - rewrite (proj1 Ho1). cbn. by eapply only_insert.
Qed.

(** Undisturbed attempts of electors at given times. *)
Record electors := { e_shared : shared (S := S) (I := I); e_elector : I → Elector; e_leading : I → option Z }.

Fixpoint play (l : list (I * Z)) (e : electors) : option electors :=
  match l with
  | [] => Some e
  | (i, t) :: l =>
    if (t <? time (e_shared e)) then None
    else
      '(b, le, s) ← attempt i (e_elector e i) (set_time t (e_shared e));
      play l {| e_shared := s; e_elector := <[i := le]> (e_elector e);
                e_leading := if (b : bool) then <[i := Some (starts s i)]> (e_leading e) else e_leading e |}
  end.

Definition at_rest (e : electors) (th : I → thread) : Prop :=
  ∀ i, th i = {| t_state := Idle (e_elector e i); t_leading := e_leading e i |}.

Lemma play_reachable sys0 l e e' th :
  reaches sys0 (e_shared e, th) → at_rest e th → play l e = Some e' →
  ∃ th', reaches sys0 (e_shared e', th') ∧ at_rest e' th'.
Proof.
  revert e th. induction l as [|[i t] l IH]; intros e th Hr Hth Hp; [injection Hp as <-; eauto|].
  cbn [play] in Hp. destruct (Z.ltb_spec t (time (e_shared e))) as [|Ht]; [done|].
  destruct (attempt i (e_elector e i) (set_time t (e_shared e))) as [[[b le] s]|] eqn:Ha; cbn in Hp; [|done].
  apply (attempt_reachable sys0 _ th i) in Ha as (th' & Hr' & Hi & Hj).
  - refine (IH _ th' _ _ Hp); [exact Hr'|]. intros j. destruct (decide (i = j)) as [<-|Hne]; cbn.
    + rewrite Hi, fn_lookup_insert. destruct b; [by rewrite fn_lookup_insert|]. by rewrite Hth.
    + rewrite Hj, Hth by done. rewrite fn_lookup_insert_ne by done.
      destruct b; [by rewrite fn_lookup_insert_ne|done].
  - eapply reachable_step; [exact Hr|by apply step_time].
  - by rewrite Hth.
Qed.

(** What holds of every reachable system. *)
Lemma reachable_system_ok `{!ApiServer_laws S} num den sys0 sys :
  clocks_ok clock identity num den → reaches sys0 sys →
  system_ok clock identity lease resource ns name num den (srv sys0.1) sys.
Proof.
  intros Hc Hr. eapply reachable_ok; [done| |done|done].
  by destruct (reachable_srv _ _ _ _ _ _ _ _ Hr) as (_ & _ & _ & ?).
Qed.
End runs.

(** ** Exactly when an undisturbed attempt succeeds *)

(** The server is there and accepts the writes it may accept. *)
Class ApiServer_available (S : Type) `{ApiServer S} := {
  create_accepted r ns o s :
    api_get r ns (o_Name o) s = None → ∃ o' s', api_create r ns o s = (Ok o', s');
  update_accepted r ns o s cur :
    api_get r ns (o_Name o) s = Some cur → o_ResourceVersion cur = o_ResourceVersion o →
    ∃ o' s', api_update r ns o s = (Ok o', s');
}.

#[export] Instance map_server_available : ApiServer_available map_server.
Proof.
  split.
  - intros r ns o s Hg. cbn in *. rewrite Hg. eauto.
  - intros r ns o s cur Hg Hv. cbn in *. rewrite Hg, bool_decide_eq_true_2 by auto. eauto.
Qed.

Section attempts.
Context {S : Type} `{ApiServer_laws S} `{!ApiServer_available S} {I : Type} `{EqDecision I}.
Context (clock : I → Z → Z) (identity : I → string) (lease : I → Z).
Context (resource ns name : string).

Notation lock_of s := (api_get resource ns name (srv s)).
Notation world := (shared (S := S) (I := I)).
Notation of_elector i le := (configured identity lease resource ns name i le).

(** When elector [le], at time [t], has first seen the record [old]. *)
Definition seen_since (le : Elector) (old : LeaderElectionRecord) (t : Z) : Time :=
  if bool_decide (observedRecord le = old) then observedTime le else TNow t.

(** The elector has written [ler], and knows it. *)
Definition written (ler : LeaderElectionRecord) (t : Z) (le' : Elector) (s' : world) : Prop :=
  observedRecord le' = ler ∧ observedTime le' = TNow t ∧ IsLeader le' = true ∧
  ∃ o, lock_of s' = Some o ∧ record_of (content o) = json_Unmarshal (json_Marshal ler).

Lemma run_try_update i le o ann ler (s : world) :
  of_elector i le → HolderIdentity ler = identity i →
  l_Object (Lock (config le)) = Some o → o_Name o = name → o_Annotations o = Some ann →
  issued (srv s) (o_ResourceVersion o) →
  (∃ cur, lock_of s = Some cur ∧ o_ResourceVersion cur = o_ResourceVersion o) → begun s i = true →
  ∃ le' s', run (answer clock i) (try_update ler le) s = Some ((true, le'), s') ∧
    of_elector i le' ∧ time s' = time s ∧ written ler (clock i (time s)) le' s'.
Proof.
  intros (Hr & Hn & Hm & Hid & Hl) Hh Ho Hname Ha Hv (cur & Hcur & Hrv) Hb.
  unfold try_update. cbn. unfold lock_Update. rewrite Ho, Ha. cbn. rewrite Hr, Hn.
  set (o1 := with_Annotations _ o).
  destruct (update_accepted resource ns o1 (srv s) cur) as (o' & x & Hup); [by cbn; rewrite Hname|done|].
  rewrite Hup. pose proof Hup as Hup'.
  apply update_Ok in Hup' as (_ & _ & _ & Hst & Hc & _); [|by eapply issued_nonempty].
  eexists _, _. split; [done|]. cbn. unfold note_start, issue. cbn. rewrite Hb. split; [done|]. split; [done|].
  repeat split; cbn.
  - unfold IsLeader, le_Identity. cbn. by rewrite Hid, Hh, bool_decide_eq_true_2.
  - exists o'. split; [by rewrite <-Hname|]. rewrite Hc. unfold o1, content. cbn. apply record_of_insert.
Qed.

Lemma run_try_create i le (ler : LeaderElectionRecord) (s : world) :
  of_elector i le → HolderIdentity ler = identity i → lock_of s = None → begun s i = true →
  ∃ le' s', run (answer clock i) (try_create ler le) s = Some ((true, le'), s') ∧
    of_elector i le' ∧ time s' = time s ∧ written ler (clock i (time s)) le' s'.
Proof.
  intros (Hr & Hn & Hm & Hid & Hl) Hh Hnone Hb. unfold try_create. cbn. rewrite Hr, Hn.
  set (o1 := {| o_Name := _ |}).
  destruct (create_accepted resource ns o1 (srv s)) as (o' & x & Hcr); [by cbn; rewrite Hm|].
  rewrite Hcr. pose proof Hcr as (_ & Hst & Hc & _)%create_Ok.
  eexists _, _. split; [done|]. cbn. unfold note_start, issue. cbn. rewrite Hb. split; [done|]. split; [done|].
  repeat split; cbn.
  - unfold IsLeader, le_Identity. cbn. by rewrite Hid, Hh, bool_decide_eq_true_2.
  - exists o'. split; [by rewrite <-Hm|]. rewrite Hc.
    change (content o1) with ({[ LeaderElectionRecordAnnotationKey := json_Marshal ler ]} : gmap string annotation).
    rewrite <-(insert_empty (M := gmap string)). apply record_of_insert.
Qed.

(** The attempt once the record [old] has been read. *)
Lemma run_found i le o old t (s : world) :
  of_elector i le → lock_of s = Some o → record_of (content o) = Some old →
  l_Object (Lock (config le)) = Some (with_Annotations (content o) o) → begun s i = true →
  t = clock i (time s) →
  ∃ b le' s', run (answer clock i)
      (le' ← observe old le;
       if held_by_other le' old (TNow t) then mret (false, le')
       else try_update (updated_record le' old (fresh_record le (TNow t))) le') s = Some ((b, le'), s') ∧
    of_elector i le' ∧ time s' = time s ∧
    if bool_decide (HolderIdentity old ≠ identity i ∧ t < nanos (seen_since le old t) + lease i) then
      b = false ∧ srv s' = srv s ∧ observedRecord le' = old ∧ observedTime le' = seen_since le old t
    else b = true ∧ written (updated_record le old (fresh_record le (TNow t))) t le' s'.
Proof.
  intros Hle Ho Hold Hobj Hb ->. set (t := clock i (time s)).
  assert (∀ le1 : Elector, of_elector i le1 → config le1 = config le → observedRecord le1 = old →
    observedTime le1 = seen_since le old t →
    ∃ b le' s', run (answer clock i)
      (if held_by_other le1 old (TNow t) then mret (false, le1)
       else try_update (updated_record le1 old (fresh_record le (TNow t))) le1) s = Some ((b, le'), s') ∧
    of_elector i le' ∧ time s' = time s ∧
    if bool_decide (HolderIdentity old ≠ identity i ∧ t < nanos (seen_since le old t) + lease i) then
      b = false ∧ srv s' = srv s ∧ observedRecord le' = old ∧ observedTime le' = seen_since le old t
    else b = true ∧ written (updated_record le old (fresh_record le (TNow t))) t le' s') as Hdecide.
  { intros le1 Hle1 Hconf Hrec Htime. pose proof Hle1 as (_ & _ & _ & Hid & Hlease).
    assert (held_by_other le1 old (TNow t) =
      bool_decide (HolderIdentity old ≠ identity i ∧ t < nanos (seen_since le old t) + lease i)) as ->.
    { unfold held_by_other, AddAfter, le_Identity. cbn. rewrite Hid, Hlease, Htime.
      rewrite bool_decide_and, andb_comm, bool_decide_not. f_equal. rewrite Z.ltb_antisym.
      case_bool_decide; destruct (Z.leb_spec (nanos (seen_since le old t) + lease i) t); cbn; try done; lia. }
    case_bool_decide as Hheld; [by exists false, le1, s|].
    replace (updated_record le old) with (updated_record le1 old)
      by (unfold updated_record, le_Identity; by rewrite Hconf).
    destruct (run_try_update i le1 (with_Annotations (content o) o) (content o)
      (updated_record le1 old (fresh_record le (TNow t))) s) as (le' & s' & Hrun & ? & ? & ?); try done.
    - destruct Hle as (_ & _ & _ & Hid' & _). unfold updated_record, fresh_record, le_Identity. cbn.
      by case_bool_decide.
    - by rewrite Hconf.
    - by destruct (get_issued _ _ _ _ _ Ho).
    - by destruct (get_issued _ _ _ _ _ Ho).
    - by exists o.
    - by exists true, le', s'. }
  unfold observe. unfold seen_since in Hdecide at 1. case_bool_decide as Hsame.
  - by apply Hdecide.
  - cbn -[held_by_other]. unfold note_start. rewrite Hb.
    apply (Hdecide (set_observed old (TNow t) le)); try done.
Qed.

(** What an undisturbed attempt does, by what it finds. *)
Definition attempt_result (i : I) (le : Elector) (s : world) (b : bool) (le' : Elector) (s' : world) : Prop :=
  let t := clock i (time s) in
  match lock_of s with
  | None => b = true ∧ written (fresh_record le (TNow t)) t le' s'
  | Some o =>
    match record_of (content o) with
    | None => b = false ∧ srv s' = srv s ∧ observedRecord le' = observedRecord le ∧
        observedTime le' = observedTime le
    | Some old =>
      if bool_decide (HolderIdentity old ≠ identity i ∧ t < nanos (seen_since le old t) + lease i) then
        b = false ∧ srv s' = srv s ∧ observedRecord le' = old ∧ observedTime le' = seen_since le old t
      else b = true ∧ written (updated_record le old (fresh_record le (TNow t))) t le' s'
    end
  end.

Lemma attempt_runs i le (s : world) :
  of_elector i le →
  ∃ b le' s', attempt clock i le s = Some ((b, le'), s') ∧ of_elector i le' ∧ time s' = time s ∧
    attempt_result i le s b le' s'.
Proof.
  intros Hle. pose proof Hle as (Hr & Hn & Hm & Hid & Hl). unfold attempt, attempt_result.
  cbn -[observe held_by_other try_update try_create]. rewrite Hr, Hn, Hm. unfold note_start. cbn -[observe held_by_other try_update try_create].
  rewrite fn_lookup_insert. set (s1 := {| srv := _ |}).
  assert (begun s1 i = true) as Hb by apply fn_lookup_insert. change (srv s1) with (srv s).
  destruct (lock_of s) as [o|] eqn:Ho; cbn -[observe held_by_other try_update try_create].
  - fold (content o). unfold record_of.
    set (le1 := set_Lock (set_Object (with_Annotations (content o) o) (Lock (config le))) le).
    destruct (content o !! LeaderElectionRecordAnnotationKey) as [bs|] eqn:Hk; [destruct (json_Unmarshal bs) as [old|] eqn:Hj|].
    + apply (run_found i le1 o old (clock i (time s)) s1); try done. unfold record_of. by rewrite Hk.
    + by eexists false, _, s1.
    + apply (run_found i le1 o zero_record (clock i (time s)) s1); try done. unfold record_of. by rewrite Hk.
  - set (le1 := set_Lock (set_Object zero_object (Lock (config le))) le).
    destruct (run_try_create i le1 (fresh_record le (TNow (clock i (time s)))) s1) as (le' & s' & ? & ? & ? & ?); try done.
    by exists true, le', s'.
Qed.
End attempts.

(** ** The guarantees *)

(** [C5] At most one elector leads with a fresh lease, and while its lease is fresh the lock
    names it: for electors that are interleaved in any way, with requests that are lost,
    answered with errors although they were executed, or executed late or twice, and with
    clocks that disagree by any offset and whose speeds differ by a factor [num/den] at most.
    Fresh means that the leader's own clock shows less than [den/num] of every other
    elector's lease duration, less a second, since it began its last successful attempt. *)
Theorem one_fresh_leader {S I} `{ApiServer_laws S, EqDecision I} (clock : I → Z → Z)
    (identity : I → string) (lease : I → Z) (resource ns name : string) (num den : Z)
    (sys0 : system) (s : shared (S := S)) (th : I → thread) :
  clocks_ok clock identity num den →
  reachable clock identity lease resource ns name sys0 (s, th) →
  (∀ i a, t_leading (th i) = Some a → fresh clock lease num den i a s →
    ∃ o r, api_get resource ns name (srv s) = Some o ∧ record_of (content o) = Some r ∧
      HolderIdentity r = identity i) ∧
  (∀ i j a b, t_leading (th i) = Some a → t_leading (th j) = Some b →
    fresh clock lease num den i a s → fresh clock lease num den j b s → i = j).
Proof.
  intros Hc Hr. destruct (reachable_system_ok clock identity lease resource ns name num den _ _ Hc Hr) as [Hs Hth].
  assert (∀ i a, t_leading (th i) = Some a → fresh clock lease num den i a s →
    ∃ o r, api_get resource ns name (srv s) = Some o ∧ record_of (content o) = Some r ∧
      HolderIdentity r = identity i) as Hlead.
  { intros i a Ha Hf. eapply not_lost_stands; [done|by apply (Hth i)|by apply fresh_not_lost]. }
  split; [done|]. intros i j a b Hi Hj Hfi Hfj.
  destruct (Hlead i a Hi Hfi) as (o1 & r1 & ? & ? & ?), (Hlead j b Hj Hfj) as (o2 & r2 & ? & ? & ?).
  eapply identity_inj; [done|congruence].
Qed.

(** [C6] The lock's record is determined by the writes the server has accepted: it names the
    last writer, it was acquired when the first of the last writer's uninterrupted writes
    began and renewed when its last write began (in whole seconds of the writer's clock), and
    [LeaderTransitions] counts the changes of the holder.  Every leader has had a write
    accepted, and no attempt panics. *)
Theorem record_follows_writes {S I} `{ApiServer_laws S, EqDecision I} (clock : I → Z → Z)
    (identity : I → string) (lease : I → Z) (resource ns name : string) (num den : Z)
    (sys0 : system) (s : shared (S := S)) (th : I → thread) :
  clocks_ok clock identity num den →
  reachable clock identity lease resource ns name sys0 (s, th) →
  match register_of (base_of resource ns name (srv sys0.1)) (log s) with
  | None => srv s = srv sys0.1
  | Some r => ∃ o, api_get resource ns name (srv s) = Some o ∧
      record_of (content o) = Some (register_record identity lease r)
  end ∧
  (∀ i a, t_leading (th i) = Some a → (i, a) ∈ log s) ∧
  (∀ i, t_state (th i) ≠ Busy Crash).
Proof.
  intros Hc Hr. destruct (reachable_system_ok clock identity lease resource ns name num den _ _ Hc Hr) as [Hs Hth].
  split; [apply Hs|]. split; [intros i; apply (Hth i)|]. intros i Hi. destruct (Hth i) as [Hst _].
  cbn in Hst. by rewrite Hi in Hst.
Qed.

(** An undisturbed attempt returns, and succeeds exactly when it should.  Without a lock
    object it creates one; a record that does not decode makes it fail; a record of another
    elector that it has seen, unchanged, for less than its lease duration makes it fail and
    note since when it has seen it; in every other case it writes its own record, keeping the
    time of acquisition and the count of transitions of its own lease or counting one more
    transition, and it knows that it leads. *)
Theorem attempt_exact {S I} `{ApiServer_laws S, !ApiServer_available S, EqDecision I}
    (clock : I → Z → Z) (identity : I → string) (lease : I → Z) (resource ns name : string)
    (i : I) (le : Elector) (s : shared (S := S) (I := I)) :
  configured identity lease resource ns name i le →
  ∃ b le' s', attempt clock i le s = Some ((b, le'), s') ∧
    configured identity lease resource ns name i le' ∧ time s' = time s ∧
    attempt_result clock identity lease resource ns name i le s b le' s'.
Proof. apply attempt_runs. Qed.

(** [C25] A leader that no longer renews is replaced: an elector that first sees the record at
    time [t1] fails to acquire the lock then; while the lock stays as it is, its attempt at any
    later time fails before its clock has advanced by its lease duration, and succeeds from
    then on, after which the lock names it. *)
Theorem failover {S I} `{ApiServer_laws S, !ApiServer_available S, EqDecision I}
    (clock : I → Z → Z) (identity : I → string) (lease : I → Z) (resource ns name : string)
    (i : I) (le : Elector) (s : shared (S := S) (I := I)) (o : Object) (old : LeaderElectionRecord) :
  configured identity lease resource ns name i le → 0 < lease i →
  api_get resource ns name (srv s) = Some o → record_of (content o) = Some old →
  HolderIdentity old ≠ identity i → observedRecord le ≠ old →
  ∃ le1 s1, attempt clock i le s = Some ((false, le1), s1) ∧ srv s1 = srv s ∧
    ∀ t2, ∃ b le2 s2, attempt clock i le1 (set_time t2 s1) = Some ((b, le2), s2) ∧
      (b = true ↔ clock i (time s) + lease i ≤ clock i t2) ∧
      (b = true → ∃ o' r, api_get resource ns name (srv s2) = Some o' ∧
         record_of (content o') = Some r ∧ HolderIdentity r = identity i ∧
         LeaderTransitions r = i64 (LeaderTransitions old + 1)).
Proof.
  intros Hle Hpos Ho Hold Hh Hobs.
  destruct (attempt_runs clock identity lease resource ns name i le s Hle) as (b & le1 & s1 & Hrun & Hle1 & Ht & Hres).
  unfold attempt_result in Hres. rewrite Ho, Hold in Hres. unfold seen_since in Hres.
  rewrite (bool_decide_eq_false_2 (observedRecord le = old)) in Hres by done. cbn in Hres.
  rewrite bool_decide_eq_true_2 in Hres by (split; [done|lia]). destruct Hres as (-> & Hsrv & Hrec & Htime).
  exists le1, s1. split; [done|]. split; [done|]. intros t2.
  destruct (attempt_runs clock identity lease resource ns name i le1 (set_time t2 s1) Hle1) as
    (b & le2 & s2 & Hrun2 & _ & _ & Hres). exists b, le2, s2. split; [done|].
  unfold attempt_result in Hres. cbn in Hres. rewrite Hsrv, Ho, Hold in Hres. unfold seen_since in Hres.
  rewrite (bool_decide_eq_true_2 (observedRecord le1 = old)), Htime in Hres by done. cbn in Hres.
  case_bool_decide as Hheld.
  - destruct Hres as (-> & _). split; [|done]. split; [done|]. lia.
  - destruct Hres as (-> & _ & _ & _ & o' & Ho' & Hr'). split; [split; [|done]; intros _|].
    + apply Z.nlt_ge. intros ?. by apply Hheld.
    + intros _. exists o'. eexists. split; [done|]. split; [exact Hr'|]. cbn.
      destruct Hle1 as (_ & _ & _ & Hid & _). unfold updated_record, le_Identity. cbn.
      by rewrite Hid, bool_decide_eq_false_2.
Qed.

(** ** Two electors

    Their clocks are a quarter of an hour apart. *)
Definition demo_clock (i : bool) (t : Z) : Z := Z.max 0 t + (if i then 1000 else 100) * second.
Definition demo_identity (i : bool) : string := if i then "b" else "a".
Definition demo_lease (_ : bool) : Z := 15 * second.

Definition demo_elector (i : bool) : Elector := {|
  config := {| Lock := {| l_Resource := "configmaps"; l_Namespace := "ns"; l_Name := "lock";
                          l_Identity := demo_identity i; l_Object := None |};
               LeaseDuration := demo_lease i; RenewDeadline := 10 * second; RetryPeriod := 2 * second;
               HasOnNewLeader := true |};
  observedRecord := zero_record; observedTime := TZero; reportedLeader := "" |}.

Example demo_elector_made i :
  (l ← New "configmaps" "ns" "lock" (demo_identity i);
   match NewLeaderElector (λ _, 0) (Some l) (15 * second) (10 * second) (2 * second) true with
   | Ok le => Some le | Err _ => None end) = Some (demo_elector i).
Proof. by destruct i. Qed.

Definition demo_shared : shared (S := map_server) (I := bool) :=
  {| srv := {| ms_objects := ∅; ms_writes := 0 |}; time := 0; requests := []; log := [];
     starts := λ _, 0; begun := λ _, false |}.

Definition demo_threads (i : bool) : thread := {| t_state := Idle (demo_elector i); t_leading := None |}.

Notation demo_reaches := (reachable demo_clock demo_identity demo_lease "configmaps" "ns" "lock"
                           (demo_shared, demo_threads)).

Lemma demo_clocks : clocks_ok demo_clock demo_identity 1 1.
Proof.
  unfold clocks_ok, demo_clock. split; [|split; [|split]].
  - intros i t. unfold second. destruct i; lia.
  - intros i t t'. lia.
  - intros i j t t' _. destruct i, j; lia.
  - split; [done|]. split; [done|]. intros [|] [|]; done.
Qed.

Lemma demo_initial : demo_reaches (demo_shared, demo_threads).
Proof.
  apply reachable_initial. split; [done|]. split; [done|]. split; [|done].
  intros i. exists (demo_elector i). repeat split. unfold demo_clock. cbn. unfold second. destruct i; lia.
Qed.

Definition demo_electors : electors :=
  {| e_shared := demo_shared; e_elector := demo_elector; e_leading := λ _, None |}.

Definition demo_play (l : list (bool * Z)) : option electors := play demo_clock l demo_electors.

Lemma demo_play_reachable l e :
  demo_play l = Some e → ∃ th, demo_reaches (e_shared e, th) ∧ at_rest e th.
Proof. intros Hp. apply (play_reachable demo_clock demo_identity demo_lease _ _ _ _ l demo_electors e demo_threads demo_initial (λ _, eq_refl) Hp). Qed.

(** The record, who leads since when, and the time, after some attempts. *)
Definition demo_view (l : list (bool * Z)) : option (option LeaderElectionRecord * list (option Z) * Z) :=
  e ← demo_play l;
  Some (o ← ms_get "configmaps" "ns" "lock" (srv (e_shared e)); record_of (content o),
        e_leading e <$> [false; true], time (e_shared e)).

(** Elector a becomes the leader, b finds the lock held, a renews, b takes over 15 seconds
    after it saw a's record for the first time. *)
Example demo_takeover :
  demo_view [(false, 0); (true, 2 * second); (false, 3 * second); (true, 5 * second);
             (true, 20 * second - 1); (true, 20 * second)] =
  Some (Some {| HolderIdentity := "b"; LeaseDurationSeconds := 15; AcquireTime := TParsed 1020;
                RenewTime := TParsed 1020; LeaderTransitions := 1 |},
        [Some (103 * second); Some (1020 * second)], 20 * second).
Proof. vm_compute. reflexivity. Qed.

Lemma one_fresh_leader_witness :
  ∃ e th, demo_play [(false, 0); (true, 13 * second)] = Some e ∧ demo_reaches (e_shared e, th) ∧
    t_leading (th false) = Some (100 * second) ∧
    (∃ o r, api_get "configmaps" "ns" "lock" (srv (e_shared e)) = Some o ∧
      record_of (content o) = Some r ∧ HolderIdentity r = "a").
Proof.
  destruct (demo_play [(false, 0); (true, 13 * second)]) as [e|] eqn:He; [|vm_compute in He; discriminate].
  assert (Some (e_leading e false, time (e_shared e)) = Some (Some (100 * second), 13 * second)) as [= Hl Ht].
  { transitivity ((λ e, (e_leading e false, time (e_shared e))) <$> demo_play [(false, 0); (true, 13 * second)]);
      [by rewrite He|vm_compute; reflexivity]. }
  destruct (demo_play_reachable _ _ He) as (th & Hr & Hth). exists e, th.
  assert (t_leading (th false) = Some (100 * second)) as Hlead by (rewrite Hth; exact Hl).
  split; [done|]. split; [done|]. split; [done|].
  apply (proj1 (one_fresh_leader demo_clock demo_identity demo_lease "configmaps" "ns" "lock" 1 1
                 _ _ _ demo_clocks Hr) false _ Hlead).
  intros j _. rewrite Ht. vm_compute. discriminate.
Defined.

Lemma record_follows_writes_witness :
  ∃ e th, demo_play [(false, 0); (true, 13 * second)] = Some e ∧ demo_reaches (e_shared e, th) ∧
    log (e_shared e) = [(false, 100 * second)] ∧
    (∃ o, api_get "configmaps" "ns" "lock" (srv (e_shared e)) = Some o ∧
      record_of (content o) = Some {| HolderIdentity := "a"; LeaseDurationSeconds := 15;
        AcquireTime := TParsed 100; RenewTime := TParsed 100; LeaderTransitions := 0 |}).
Proof.
  destruct (demo_play [(false, 0); (true, 13 * second)]) as [e|] eqn:He; [|vm_compute in He; discriminate].
  assert (Some (log (e_shared e)) = Some [(false, 100 * second)]) as [= Hl].
  { transitivity ((λ e, log (e_shared e)) <$> demo_play [(false, 0); (true, 13 * second)]);
      [by rewrite He|vm_compute; reflexivity]. }
  destruct (demo_play_reachable _ _ He) as (th & Hr & Hth). exists e, th.
  split; [done|]. split; [done|]. split; [done|].
  pose proof (record_follows_writes demo_clock demo_identity demo_lease "configmaps" "ns" "lock" 1 1
                 _ _ _ demo_clocks Hr) as [Hreg _].
  rewrite Hl in Hreg. exact Hreg.
Defined.

Lemma attempt_exact_witness :
  ∃ b le' s', attempt demo_clock true (demo_elector true) demo_shared = Some ((b, le'), s') ∧
    configured demo_identity demo_lease "configmaps" "ns" "lock" true le' ∧ time s' = 0 ∧
    attempt_result demo_clock demo_identity demo_lease "configmaps" "ns" "lock" true
      (demo_elector true) demo_shared b le' s'.
Proof. apply (attempt_exact demo_clock demo_identity demo_lease "configmaps" "ns" "lock" true (demo_elector true) demo_shared). repeat split. Defined.

(** A lock that another elector holds. *)
Definition held_lock : gmap string annotation :=
  {[ LeaderElectionRecordAnnotationKey := Document "a" 15 (Some 100) (Some 103) 7 ]}.

Definition held_shared : shared (S := map_server) (I := bool) :=
  {| srv := {| ms_objects := {[ ("configmaps", "ns", "lock") := held_lock ]}; ms_writes := 1 |};
     time := 5 * second; requests := []; log := []; starts := λ _, 0; begun := λ _, false |}.

Lemma failover_witness :
  ∃ le1 s1, attempt demo_clock true (demo_elector true) held_shared = Some ((false, le1), s1) ∧
    srv s1 = srv held_shared ∧
    ∀ t2, ∃ b le2 s2, attempt demo_clock true le1 (set_time t2 s1) = Some ((b, le2), s2) ∧
      (b = true ↔ 1005 * second + 15 * second ≤ demo_clock true t2) ∧
      (b = true → ∃ o' r, api_get "configmaps" "ns" "lock" (srv s2) = Some o' ∧
         record_of (content o') = Some r ∧ HolderIdentity r = "b" ∧ LeaderTransitions r = i64 (7 + 1)).
Proof.
  apply (failover demo_clock demo_identity demo_lease "configmaps" "ns" "lock" true (demo_elector true) held_shared
    (ms_object "ns" "lock" (srv held_shared) held_lock)
    {| HolderIdentity := "a"; LeaseDurationSeconds := 15; AcquireTime := TParsed 100; RenewTime := TParsed 103;
       LeaderTransitions := 7 |}); [repeat split|done|reflexivity|reflexivity|done|done].
Defined.

(** Renewals within one second leave the record as it was, since its times are stored in
    whole seconds, so that other electors do not notice them: a leader that renewed its lease
    can be replaced sooner than a lease duration later.  Here elector a renews at 0.9 seconds,
    b has seen its record since 0.1 seconds and takes the lock at 15.1 seconds, 14.2 seconds
    after the renewal, of a lease of 15. *)
Theorem renewal_unseen :
  ∃ e th, demo_play [(false, 0); (true, 100000000); (false, 900000000); (true, 15100000000)] = Some e ∧
    demo_reaches (e_shared e, th) ∧
    t_leading (th false) = Some (100 * second + 900000000) ∧
    t_leading (th true) = Some (1015 * second + 100000000) ∧
    demo_clock false (time (e_shared e)) - (100 * second + 900000000) < demo_lease true.
Proof.
  destruct (demo_play _) as [e|] eqn:He; [|vm_compute in He; discriminate].
  assert (Some (e_leading e false, e_leading e true, time (e_shared e)) =
    Some (Some (100 * second + 900000000), Some (1015 * second + 100000000), 15100000000)) as [= Ha Hb Ht].
  { transitivity ((λ e, (e_leading e false, e_leading e true, time (e_shared e))) <$>
      demo_play [(false, 0); (true, 100000000); (false, 900000000); (true, 15100000000)]);
      [by rewrite He|vm_compute; reflexivity]. }
  destruct (demo_play_reachable _ _ He) as (th & Hr & Hth). exists e, th.
  rewrite !Hth, Ht. repeat split; [done|exact Ha|exact Hb].
Qed.
