(* ===== verification/MutationCache.v ===== *)
(** * The mutation cache
    (k8s.io/client-go/tools/cache/mutation_cache.go and
    k8s.io/apimachinery/pkg/util/cache/lruexpirecache.go)

    Results of updates are kept for a while, so that a client reads its own writes before
    they come back through its store: a cache of recently used keys, whose entries expire, in
    front of a store.  It is a client of the interfaces [LRUCache] and [ThreadSafeStore].
    During one call the clock stands still. *)

From Stdlib Require Import Ascii.
From S2P Require Import Prelude StringSets ObjectKeys ThreadSafeStore Store DeltaFifo Informer LruCache.

(** ** LRUExpireCache *)
Record cacheEntry (V : Type) := { value : V; expireTime : Z }.
Arguments value {V} _.
Arguments expireTime {V} _.

Section expire.
Context {L V : Type} `{LRUCache_ops L string (cacheEntry V)}.

Definition lec_Add (key : string) (v : V) (ttl now : Z) (c : L) : L :=
  (lc_Add key {| value := v; expireTime := (now + ttl)%Z |} c).2.

Definition lec_Get (key : string) (now : Z) (c : L) : option V * L :=
  match lc_Get key c with
  | (None, c) => (None, c)
  | (Some e, c) =>
    if (expireTime e <? now)%Z then (None, (lc_Remove key c).2) else (Some (value e), c)
  end.

Definition lec_Remove (key : string) (c : L) : L := (lc_Remove key c).2.

Definition lec_Keys (c : L) : option (list (option string)) := lc_Keys c.
End expire.

(** [None]: a size that is not positive panics. *)
Definition NewLRUExpireCache {L V} `{LRUCache_new L string (cacheEntry V)} (maxSize : Z) : option L :=
  match lc_New maxSize with Ok c => Some c | Err _ => None end.

(** ** Resource versions *)

(** [strconv.ParseUint(s, 10, 64)] *)
Fixpoint parse_digits (s : string) (acc : Z) : option Z :=
  match s with
  | EmptyString => Some acc
  | String.String c s' =>
    let d := (Z.of_nat (nat_of_ascii c) - 48)%Z in
    if bool_decide (0 ≤ d ≤ 9)%Z then parse_digits s' (10 * acc + d)%Z else None
  end.

Definition ParseUint (s : string) : option Z :=
  match s with
  | EmptyString => None
  | _ =>
    n ← parse_digits s 0;
    if (n <? 2 ^ 64)%Z then Some n else None
  end.

Section mutation.
Context {Sto L Obj : Type}.
Abbreviation iface := (option (dyn Obj)).
Context `{ThreadSafeStore_ops Sto (dyn Obj)} `{LRUCache_ops L string (cacheEntry iface)}.
(** The metadata of an object, whether it is a [runtime.Object], and the resource version
    that [meta.Accessor] gives, with its error. *)
Context (meta : Obj → meta_obj) (runtimeObject : Obj → bool) (accessor : Obj → option string).

(** [obj.(runtime.Object)] *)
Definition as_runtime (obj : iface) : option Obj :=
  match obj with
  | Some (Plain o) => if runtimeObject o then Some o else None
  | _ => None
  end.

Definition ObjectResourceVersion (obj : Obj) : option Z :=
  version ← accessor obj;
  if bool_decide (String.length version = 0) then Some 0%Z else ParseUint version.

(** [None]: an error panics. *)
Definition CompareResourceVersion (lhs rhs : Obj) : option Z :=
  lhsVersion ← ObjectResourceVersion lhs;
  rhsVersion ← ObjectResourceVersion rhs;
  if (lhsVersion =? rhsVersion)%Z then Some 0%Z
  else if (lhsVersion <? rhsVersion)%Z then Some (-1)%Z
  else Some 1%Z.

Record mutationCache := {
  mutations : L;
  backingCache : cache Sto (dyn Obj);
  mc_indexer : option (cache Sto (dyn Obj));
  includeAdds : bool;
  ttl : Z;
}.

Definition set_mutations (l : L) (c : mutationCache) : mutationCache :=
  {| mutations := l; backingCache := backingCache c; mc_indexer := mc_indexer c;
     includeAdds := includeAdds c; ttl := ttl c |}.

Definition on_mutations {A} (f : L → A * L) : st mutationCache A := λ c,
  let '(a, l) := f (mutations c) in Ret a (set_mutations l c).

Definition newerObject (now : Z) (key : string) (backing : Obj) : st mutationCache Obj :=
  mutatedObj ← on_mutations (lec_Get key now);
  match mutatedObj with
  | None => mret backing
  | Some mutatedObj =>
    match as_runtime mutatedObj with
    | None => mret backing
    | Some mutatedObjRuntime =>
      match CompareResourceVersion backing mutatedObjRuntime with
      | None => st_panic
      | Some d =>
        if (0 <=? d)%Z then on_mutations (λ l, ((), lec_Remove key l)) ;; mret backing
        else mret mutatedObjRuntime
      end
    end
  end.

(** The object as the store has it, or a newer one. *)
Definition newer (now : Z) (key : string) (obj : iface) : st mutationCache iface :=
  match as_runtime obj with
  | None => mret obj
  | Some o => o ← newerObject now key o; mret (Some (Plain o))
  end.

Definition GetByKey (now : Z) (key : string) : st mutationCache (iface * bool) :=
  c ← st_get;
  let '(obj, exists_) := cache_GetByKey key (backingCache c) in
  if negb exists_ then
    if negb (includeAdds c) then mret (None, false)
    else
      found ← on_mutations (lec_Get key now);
      match found with
      | None => mret (None, false)
      | Some obj => o ← newer now key obj; mret (o, true)
      end
  else o ← newer now key obj; mret (o, true).

(** The loop of [ByIndex] over the keys of the index. *)
Fixpoint index_items (now : Z) (indexer : cache Sto (dyn Obj)) (keys : list string)
    (items : list iface) : st mutationCache (list iface) :=
  match keys with
  | [] => mret items
  | key :: keys =>
    let '(obj, exists_) := cache_GetByKey key indexer in
    if negb exists_ then index_items now indexer keys items
    else o ← newer now key obj; index_items now indexer keys (items ++ [o])
  end.

(** The loop over the keys of the mutations; a nil key has no entry. *)
Fixpoint added_items (now : Z) (fn : option (iface → res string (list string))) (indexKey : string)
    (keySet : gset string) (keys : list (option string)) (items : list iface) :
    st mutationCache (list iface) :=
  match keys with
  | [] => mret items
  | None :: keys => added_items now fn indexKey keySet keys items
  | Some key :: keys =>
    updated ← on_mutations (lec_Get key now);
    match updated with
    | None => added_items now fn indexKey keySet keys items
    | Some updated =>
      if Has keySet key then added_items now fn indexKey keySet keys items
      else
        match (λ fn, fn updated) <$> fn with
        | None => st_panic   (* a nil function *)
        | Some (Err _) => added_items now fn indexKey keySet keys items
        | Some (Ok elements) =>
          added_items now fn indexKey keySet keys
            (if bool_decide (indexKey ∈ elements) then items ++ [updated] else items)
        end
    end
  end.

Definition ByIndex (now : Z) (name indexKey : string) : st mutationCache (res string (list iface)) :=
  c ← st_get;
  match mc_indexer c with
  | None => mret (Err "no indexer has been provided to the mutation cache")
  | Some indexer =>
    match cache_IndexKeys name indexKey indexer with
    | Err err => mret (Err err)
    | Ok keys =>
      let keySet := Insert ∅ keys in
      items ← index_items now indexer keys [];
      if negb (includeAdds c) then mret (Ok items)
      else
        c ← st_get;
        let fn := cache_GetIndexers indexer !! name in
        match lec_Keys (mutations c) with
        | None => st_panic
        | Some mkeys => items ← added_items now fn indexKey keySet mkeys items; mret (Ok items)
        end
    end
  end.

Definition Mutation (now : Z) (obj : iface) : st mutationCache () :=
  match DeletionHandlingMetaNamespaceKeyFunc meta obj with
  | Err _ => mret ()
  | Ok key =>
    let add : st mutationCache () :=
      c ← st_get; on_mutations (λ l, ((), lec_Add key obj (ttl c) now l)) in
    match as_runtime obj with
    | None => add
    | Some objRuntime =>
      mutatedObj ← on_mutations (lec_Get key now);
      match mutatedObj ≫= as_runtime with
      | None => add
      | Some mutatedObjRuntime =>
        match CompareResourceVersion objRuntime mutatedObjRuntime with
        | None => st_panic
        | Some d => if (d <? 0)%Z then mret () else add
        end
      end
    end
  end.
End mutation.

(** ** Using one key does not push out another that was used recently

    [front k T P l]: key [k] has an entry in [P], and only keys of [T] were used since. *)
Section recently_used.
Context {L V : Type} `{LRUCache_laws L string V}.

Definition front (k : string) (T : gset string) (P : V → Prop) (l : L) : Prop :=
  ∃ l1 e l2, lc_list l = l1 ++ (k, e) :: l2 ∧ list_to_set l1.*1 ⊆ T ∧ P e.

(** What calls for [key] do to a cache. *)
Definition acts (key : string) (l l' : L) : Prop :=
  lc_ok l' ∧ lc_size l' = lc_size l ∧
  ∀ k T P, k ≠ key → key ∈ T → size T < lc_size l → front k T P l → front k T P l'.

Lemma acts_refl key l : lc_ok l → acts key l l.
Proof. done. Qed.

Lemma acts_trans key l1 l2 l3 : acts key l1 l2 → acts key l2 l3 → acts key l1 l3.
Proof.
  intros (? & Hs1 & Ha1) (? & Hs2 & Ha2). split; [done|]. split; [congruence|]. intros k T P Hk HT Hlt Hf.
  apply Ha2; [done..|by rewrite Hs1|]. by apply Ha1.
Qed.

Lemma front_lookup k T P l : lc_ok l → front k T P l → ∃ e, lmap l !! k = Some e ∧ P e.
Proof.
  intros Hl (l1 & e & l2 & Heq & _ & HP). exists e. split; [|done]. apply rl_map_elem; [by apply lc_NoDup|].
  rewrite Heq. set_solver.
Qed.

Lemma rl_remove_app key (l1 l2 : list (string * V)) k e :
  k ≠ key → rl_remove key (l1 ++ (k, e) :: l2) = rl_remove key l1 ++ (k, e) :: rl_remove key l2.
Proof. intros Hk. unfold rl_remove. rewrite filter_app, filter_cons. by case_decide. Qed.

Lemma rl_remove_subset key (l : list (string * V)) T :
  list_to_set l.*1 ⊆ T → (list_to_set (rl_remove key l).*1 : gset string) ⊆ T.
Proof.
  intros HT k. rewrite elem_of_list_to_set. intros [_ ?]%rl_remove_keys. apply HT. by apply elem_of_list_to_set.
Qed.

Lemma front_removed key k T P l l' :
  k ≠ key → lc_list l' = rl_remove key (lc_list l) → front k T P l → front k T P l'.
Proof.
  intros Hk Hl (l1 & e & l2 & Heq & HT & HP). exists (rl_remove key l1), e, (rl_remove key l2).
  rewrite Hl, Heq. split; [by apply rl_remove_app|]. split; [by apply rl_remove_subset|done].
Qed.

Lemma front_moved key v k T P l l' :
  k ≠ key → key ∈ T → lc_list l' = (key, v) :: rl_remove key (lc_list l) → front k T P l → front k T P l'.
Proof.
  intros Hk HTk Hl (l1 & e & l2 & Heq & HT & HP). exists ((key, v) :: rl_remove key l1), e, (rl_remove key l2).
  rewrite Hl, Heq, rl_remove_app by done. split; [done|]. split; [|done].
  cbn. pose proof (rl_remove_subset key l1 T HT). set_solver.
Qed.

Lemma lc_Get_acts key l : lc_ok l → acts key l (lc_Get key l).2.
Proof.
  intros Hl. destruct (lc_Get_law key l Hl) as (Hok & Hs & Heq). split; [done|]. split; [done|].
  intros k T P Hk HT _ Hf. unfold rl_get in Heq. destruct (rl_map (lc_list l) !! key); injection Heq as _ Heq.
  - by eapply front_moved.
  - destruct Hf as (l1 & e & l2 & ? & ? & ?). exists l1, e, l2. split; [congruence|done].
Qed.

Lemma lc_Remove_acts key l : lc_ok l → acts key l (lc_Remove key l).2.
Proof.
  intros Hl. destruct (lc_Remove_law key l Hl) as (Hok & Hs & _ & Heq). split; [done|]. split; [done|].
  intros k T P Hk HT _ Hf. by eapply front_removed.
Qed.

Lemma lc_Add_acts key v l : lc_ok l → acts key l (lc_Add key v l).2.
Proof.
  intros Hl. destruct (lc_Add_law key v l Hl) as (Hok & Hs & Heq). split; [done|]. split; [done|].
  intros k T P Hk HT Hlt Hf. unfold rl_add in Heq. pose proof (lc_NoDup l Hl) as Hnd.
  destruct (rl_map (lc_list l) !! key) eqn:E; [injection Heq as _ Heq; by eapply front_moved|].
  apply rl_map_None in E. destruct Hf as (l1 & e & l2 & Hl1 & HT1 & HP).
  assert (length l1 + 1 < lc_size l) as Hlen.
  { rewrite Hl1, fmap_app in Hnd, E. apply NoDup_app in Hnd as (Hnd & _ & _).
    assert (size (list_to_set l1.*1 ∪ {[key]} : gset string) ≤ size T) as Hsz
      by (apply subseteq_size; set_solver).
    rewrite size_union, size_list_to_set, size_singleton, length_fmap in Hsz by (done || set_solver). lia. }
  exists ((key, v) :: l1), e, (if bool_decide (lc_size l ≤ length (lc_list l)) then take (length l2 - 1) l2 else l2).
  assert (lc_list (lc_Add key v l).2 = (key, v) :: l1 ++ (k, e) ::
    (if bool_decide (lc_size l ≤ length (lc_list l)) then take (length l2 - 1) l2 else l2)) as ->.
  { case_bool_decide as Hd; injection Heq as _ ->; rewrite Hl1; [|done].
    rewrite Hl1, length_app in Hd. cbn in Hd. rewrite length_app. cbn [length].
    destruct l2 as [|y l2]; [cbn in Hd; lia|]. cbn [length]. rewrite Nat.add_succ_r. cbn [take]. f_equal.
    rewrite take_app_ge by lia. f_equal. replace (length l1 + S (length l2) - length l1) with (S (length l2)) by lia.
    cbn [take]. f_equal. by replace (S (length l2) - 1) with (length l2) by lia. }
  split; [done|]. split; [|done]. cbn. set_solver.
Qed.
End recently_used.

(** ** What the calls do *)
Section laws.
Context {Sto L Obj : Type} `{ThreadSafeStore_laws Sto (dyn Obj)}.
Abbreviation iface := (option (dyn Obj)).
Context `{!LRUCache_ops L string (cacheEntry iface), !LRUCache_laws L string (cacheEntry iface)}.
Context (meta : Obj → meta_obj) (runtimeObject : Obj → bool) (accessor : Obj → option string).

Notation mcache := (mutationCache (Sto := Sto) (L := L) (Obj := Obj)).
Notation runtime := (as_runtime runtimeObject).
Notation version := (ObjectResourceVersion accessor).
Notation vz o := (default 0%Z (version o)).

(** Objects whose version can be compared. *)
Definition comparable (obj : iface) : Prop := ∀ o, runtime obj = Some o → is_Some (version o).

Definition mutations_ok (l : L) : Prop :=
  lc_ok l ∧ map_Forall (λ _ e, comparable (value e)) (lmap l).

(** The mutation of a key, unless it has expired. *)
Definition live (key : string) (now : Z) (l : L) : option iface :=
  e ← lmap l !! key; if (expireTime e <? now)%Z then None else Some (value e).

Lemma live_comparable key now l obj : mutations_ok l → live key now l = Some obj → comparable obj.
Proof.
  intros [_ Hok]. unfold live. destruct (lmap l !! key) as [e|] eqn:E; [|done]. cbn.
  destruct (_ <? _)%Z; [done|]. intros [= <-]. by eapply Hok.
Qed.

Lemma lec_Get_spec key now (l : L) :
  mutations_ok l →
  ∃ l', lec_Get key now l = (live key now l, l') ∧ mutations_ok l' ∧ acts key l l' ∧ lmap l' ⊆ lmap l ∧
    (is_Some (live key now l) → lmap l' = lmap l).
Proof.
  intros [Hl Hok]. unfold lec_Get, live. destruct (mv_Get key l Hl) as (Hl1 & _ & Hr & Hm).
  pose proof (lc_Get_acts key l Hl) as Ha. destruct (lc_Get key l) as [e l1]. cbn in *. subst e.
  destruct (lmap l !! key) as [e|]; cbn.
  - destruct (expireTime e <? now)%Z.
    + destruct (mv_Remove key l1 Hl1) as (Hl2 & _ & _ & Hm2).
      pose proof (acts_trans _ _ _ _ Ha (lc_Remove_acts key l1 Hl1)).
      exists (lc_Remove key l1).2. rewrite Hm2, Hm. split; [done|].
      assert (delete key (lmap l) ⊆ lmap l) as Hsub by apply delete_subseteq.
      split; [split; [done|]; rewrite Hm2, Hm; by apply map_Forall_delete|]. split; [done|]. split; [done|].
      by intros [? ?].
    + exists l1. unfold mutations_ok. rewrite Hm. done.
  - exists l1. unfold mutations_ok. rewrite Hm. split; [done|]. split; [done|]. split; [done|]. split; [done|]. done.
Qed.

Lemma lec_Remove_spec key (l : L) :
  mutations_ok l → mutations_ok (lec_Remove key l) ∧ acts key l (lec_Remove key l) ∧
    lmap (lec_Remove key l) = delete key (lmap l).
Proof.
  intros [Hl Hok]. unfold lec_Remove. destruct (mv_Remove key l Hl) as (Hl1 & _ & _ & Hm).
  unfold mutations_ok. rewrite Hm. split; [split; [done|by apply map_Forall_delete]|].
  split; [by apply lc_Remove_acts|done].
Qed.

Lemma lec_Add_spec key v ttl now (l : L) :
  mutations_ok l → comparable v → mutations_ok (lec_Add key v ttl now l) ∧ acts key l (lec_Add key v ttl now l) ∧
    front key ∅ (λ e, value e = v ∧ expireTime e = (now + ttl)%Z) (lec_Add key v ttl now l).
Proof.
  intros [Hl Hok] Hv. unfold lec_Add. set (e := {| value := v; expireTime := (now + ttl)%Z |}).
  destruct (mv_Add key e l Hl) as (Hl1 & _ & _ & Hsub & _). split; [split; [done|]|].
  { intros k e' He'. eapply lookup_weaken in He'; [|exact Hsub]. apply lookup_insert_Some in He' as [[_ <-]|[_ He']]; [done|].
    by eapply Hok. }
  split; [by apply lc_Add_acts|]. destruct (lc_Add_law key e l Hl) as (_ & _ & Heq). unfold rl_add in Heq.
  pose proof (lc_pos l Hl). assert (∃ l2, lc_list (lc_Add key e l).2 = (key, e) :: l2) as [l2 Hl2].
  { destruct (rl_map (lc_list l) !! key); [|case_bool_decide]; injection Heq as _ ->; [eauto| |eauto].
    destruct (length (lc_list l)) eqn:E; [lia|]. cbn. eauto. }
  exists [], e, l2. split; [done|]. split; [done|]. done.
Qed.

Lemma CompareResourceVersion_spec a b :
  is_Some (version a) → is_Some (version b) →
  ∃ d, CompareResourceVersion accessor a b = Some d ∧ (0 <=? d)%Z = (vz b <=? vz a)%Z ∧
    (d <? 0)%Z = (vz a <? vz b)%Z.
Proof.
  intros [x Hx] [y Hy]. unfold CompareResourceVersion. rewrite Hx, Hy. cbn.
  destruct (Z.eqb_spec x y); [|destruct (Z.ltb_spec x y)]; eexists; (split; [done|]); split.
  all: destruct (Z.leb_spec y x), (Z.ltb_spec x y); (done || lia).
Qed.

(** The newer of the object of the store and the mutation. *)
Definition newest (obj : iface) (mutated : option iface) : iface :=
  match runtime obj, mutated ≫= runtime with
  | Some b, Some m => if (vz m <=? vz b)%Z then obj else Some (Plain m)
  | _, _ => obj
  end.

Lemma runtime_Plain obj o : runtime obj = Some o → obj = Some (Plain o).
Proof. destruct obj as [[o'| |]|]; cbn; try done. destruct (runtimeObject o'); [by intros [= ->]|done]. Qed.

Lemma newer_spec now key obj (c : mcache) :
  mutations_ok (mutations c) → comparable obj →
  ∃ l', newer runtimeObject accessor now key obj c =
      Ret (newest obj (live key now (mutations c))) (set_mutations l' c) ∧
    mutations_ok l' ∧ acts key (mutations c) l' ∧ lmap l' ⊆ lmap (mutations c) ∧
    (∀ o, runtime obj = Some o → live key now (mutations c) = Some obj → lmap l' !! key = None).
Proof.
  intros Hok Hobj. unfold newer, newest. destruct (runtime obj) as [b|] eqn:Hb.
  2:{ exists (mutations c). split; [by destruct c|]. split; [done|]. split; [by apply acts_refl, Hok|]. by split. }
  destruct (lec_Get_spec key now (mutations c) Hok) as (l1 & Hget & Hok1 & Ha1 & Hsub1 & Hsame).
  unfold newerObject, on_mutations, mbind, st_bind. rewrite Hget.
  destruct (live key now (mutations c)) as [m|] eqn:Hm; cbn.
  2:{ exists l1. rewrite (runtime_Plain _ _ Hb). done. }
  destruct (runtime m) as [mo|] eqn:Hmo; cbn.
  2:{ exists l1. rewrite (runtime_Plain _ _ Hb). split; [done|]. split; [done|]. split; [done|]. split; [done|].
      intros o _ [= Heq]. rewrite Heq, <-(runtime_Plain _ _ Hb), Hb in Hmo. done. }
  destruct (CompareResourceVersion_spec b mo) as (d & Hd & Hge & _);
    [by apply Hobj|by apply (live_comparable _ _ _ _ Hok Hm)|]. rewrite Hd, Hge.
  destruct (Z.leb_spec (vz mo) (vz b)) as [Hle|Hlt]; cbn.
  - destruct (lec_Remove_spec key l1 Hok1) as (Hok2 & Ha2 & Hm2). exists (lec_Remove key l1).
    rewrite (runtime_Plain _ _ Hb). split; [done|]. split; [done|]. split; [by eapply acts_trans|].
    rewrite Hm2. split; [|intros; apply lookup_delete_eq]. etrans; [apply delete_subseteq|done].
  - exists l1. split; [done|]. split; [done|]. split; [done|]. split; [done|].
    intros o _ [= Heq]. rewrite Heq, Hb in Hmo. injection Hmo as ->. lia.
Qed.

(** The objects of a store can be compared. *)
Definition store_ok (b : cache Sto (dyn Obj)) : Prop := ∀ key, comparable (cache_GetByKey key b).1.

(** What [GetByKey] returns. *)
Definition lookup_result (now : Z) (key : string) (c : mcache) : iface * bool :=
  let '(obj, exists_) := cache_GetByKey key (backingCache c) in
  if exists_ then (newest obj (live key now (mutations c)), true)
  else if includeAdds c then
    match live key now (mutations c) with Some m => (m, true) | None => (None, false) end
  else (None, false).

(** A mutation of an object the store does not have is dropped when it is read. *)
Definition dropped (now : Z) (key : string) (c : mcache) : Prop :=
  (cache_GetByKey key (backingCache c)).2 = false ∧ includeAdds c = true ∧
  is_Some (live key now (mutations c) ≫= runtime).

Lemma newest_self m : newest m (Some m) = m.
Proof. unfold newest. cbn. destruct (runtime m); [|done]. by rewrite Z.leb_refl. Qed.

Lemma GetByKey_spec now key (c : mcache) :
  mutations_ok (mutations c) → store_ok (backingCache c) →
  ∃ l', GetByKey runtimeObject accessor now key c = Ret (lookup_result now key c) (set_mutations l' c) ∧
    mutations_ok l' ∧ acts key (mutations c) l' ∧ lmap l' ⊆ lmap (mutations c) ∧
    (dropped now key c → lmap l' !! key = None).
Proof.
  intros Hok Hst. specialize (Hst key). unfold GetByKey, lookup_result, dropped, st_get, mbind, st_bind.
  destruct (cache_GetByKey key (backingCache c)) as [obj [|]] eqn:Hobj; cbn in Hst |- *.
  { destruct (newer_spec now key obj c Hok Hst) as (l' & Hn & Hok' & Ha & Hsub & _). rewrite Hn. exists l'.
    repeat (split; [done|]). by intros (? & _). }
  destruct (includeAdds c) eqn:Hadds; cbn.
  2:{ exists (mutations c). split; [by destruct c|]. split; [done|]. split; [by apply acts_refl, Hok|]. split; [done|]. by intros (_ & ? & _). }
  destruct (lec_Get_spec key now (mutations c) Hok) as (l1 & Hget & Hok1 & Ha1 & Hsub1 & Hsame).
  unfold on_mutations. rewrite Hget. destruct (live key now (mutations c)) as [m|] eqn:Hm; cbn.
  2:{ exists l1. repeat (split; [done|]). by intros (_ & _ & [? ?]). }
  assert (live key now l1 = Some m) as Hm1 by (unfold live; rewrite Hsame by done; exact Hm).
  destruct (newer_spec now key m (set_mutations l1 c) Hok1) as (l' & Hn & Hok' & Ha & Hsub & Hdrop);
    [by apply (live_comparable _ _ _ _ Hok Hm)|]. cbn in Hn, Ha, Hsub, Hdrop. rewrite Hm1, newest_self in Hn. rewrite Hn.
  exists l'. split; [by destruct c|]. split; [done|]. split; [by eapply acts_trans|]. split; [by etrans|].
  intros (_ & _ & [o Ho]). by apply (Hdrop o).
Qed.

Notation key_of := (DeletionHandlingMetaNamespaceKeyFunc meta).

(** A mutation is kept unless a newer one is. *)
Definition not_older (obj : iface) (mutated : option iface) : Prop :=
  ∀ o m, runtime obj = Some o → mutated ≫= runtime = Some m → (vz m ≤ vz o)%Z.

Lemma Mutation_spec now obj (c : mcache) :
  mutations_ok (mutations c) → comparable obj →
  ∃ l', Mutation meta runtimeObject accessor now obj c = Ret () (set_mutations l' c) ∧ mutations_ok l' ∧
    (∀ e, key_of obj = Err e → l' = mutations c) ∧
    (∀ key, key_of obj = Ok key → acts key (mutations c) l' ∧
      (not_older obj (live key now (mutations c)) →
       front key ∅ (λ e, value e = obj ∧ expireTime e = (now + ttl c)%Z) l')).
Proof.
  intros Hok Hobj. unfold Mutation. destruct (key_of obj) as [key|e] eqn:Hkey.
  2:{ exists (mutations c). split; [by destruct c|]. done. }
  assert (∀ l1, mutations_ok l1 → acts key (mutations c) l1 →
    ∃ l', (c0 ← st_get; on_mutations (λ l, ((), lec_Add key obj (ttl c0) now l))) (set_mutations l1 c) =
        Ret () (set_mutations l' c) ∧ mutations_ok l' ∧ acts key (mutations c) l' ∧
      front key ∅ (λ e, value e = obj ∧ expireTime e = (now + ttl c)%Z) l') as Hadd.
  { intros l1 Hok1 Ha1. destruct (lec_Add_spec key obj (ttl c) now l1 Hok1 Hobj) as (Hok2 & Ha2 & Hf).
    exists (lec_Add key obj (ttl c) now l1). split; [done|]. split; [done|]. split; [by eapply acts_trans|done]. }
  destruct (runtime obj) as [o|] eqn:Ho.
  2:{ destruct (Hadd (mutations c)) as (l' & Hr & ? & ? & ?); [done|by apply acts_refl, Hok|].
      exists l'. replace c with (set_mutations (mutations c) c) at 1 by by destruct c. rewrite Hr.
      split; [done|]. split; [done|]. split; [done|]. by intros k [= <-]. }
  destruct (lec_Get_spec key now (mutations c) Hok) as (l1 & Hget & Hok1 & Ha1 & Hsub1 & _).
  assert (on_mutations (lec_Get key now) c = Ret (live key now (mutations c)) (set_mutations l1 c)) as Hg
    by (unfold on_mutations; by rewrite Hget).
  rewrite (st_bind_ret _ _ _ _ _ Hg).
  destruct (live key now (mutations c) ≫= runtime) as [m|] eqn:Hm.
  2:{ destruct (Hadd l1 Hok1 Ha1) as (l' & Hr & ? & ? & ?). exists l'. rewrite Hr.
      split; [done|]. split; [done|]. split; [done|]. by intros k [= <-]. }
  pose proof Hm as Hm'. apply bind_Some in Hm' as (mi & Hmi & Hmo).
  destruct (CompareResourceVersion_spec o m) as (d & Hd & _ & Hlt);
    [by apply Hobj|by apply (live_comparable _ _ _ _ Hok Hmi)|]. rewrite Hd, Hlt.
  destruct (Z.ltb_spec (vz o) (vz m)) as [Hv|Hv].
  - exists l1. split; [done|]. split; [done|]. split; [done|]. intros k [= <-]. split; [done|].
    intros Hn. specialize (Hn o m Ho Hm). lia.
  - destruct (Hadd l1 Hok1 Ha1) as (l' & Hr & ? & ? & ?). exists l'. rewrite Hr.
    split; [done|]. split; [done|]. split; [done|]. by intros k [= <-].
Qed.

(** ** Sequences of calls, with a store that changes in between *)
Inductive mop : Type :=
| MGet (key : string)
| MMutate (obj : iface)
| MStore (b : cache Sto (dyn Obj)).

Definition set_backing (b : cache Sto (dyn Obj)) (c : mcache) : mcache :=
  {| mutations := mutations c; backingCache := b; mc_indexer := mc_indexer c;
     includeAdds := includeAdds c; ttl := ttl c |}.

Definition run_mop (now : Z) (op : mop) : st mcache () :=
  match op with
  | MGet key => GetByKey runtimeObject accessor now key ;; mret ()
  | MMutate obj => Mutation meta runtimeObject accessor now obj
  | MStore b => st_modify (set_backing b)
  end.

Definition run_mops (ops : list (Z * mop)) : st mcache () := st_for ops (λ '(now, op), run_mop now op).

(** Calls for keys of [T] only. *)
Definition mop_ok (T : gset string) (op : mop) : Prop :=
  match op with
  | MGet key => key ∈ T
  | MMutate obj => comparable obj ∧ ∀ key, key_of obj = Ok key → key ∈ T
  | MStore b => store_ok b
  end.

Lemma run_mops_front ops k T P (c : mcache) :
  mutations_ok (mutations c) → store_ok (backingCache c) → Forall (mop_ok T) ops.*2 → k ∉ T →
  size T < lc_size (mutations c) → front k T P (mutations c) →
  ∃ c', run_mops ops c = Ret () c' ∧ mutations_ok (mutations c') ∧ store_ok (backingCache c') ∧
    front k T P (mutations c').
Proof.
  revert c. induction ops as [|[now op] ops IH]; intros c Hok Hst Hops Hk HT Hf; [by exists c|].
  apply Forall_cons in Hops as [Hop Hops]. cbn in Hop.
  assert (∀ key l', key ∈ T → acts key (mutations c) l' → mutations_ok l' →
    ∃ c', run_mops ops (set_mutations l' c) = Ret () c' ∧ mutations_ok (mutations c') ∧
      store_ok (backingCache c') ∧ front k T P (mutations c')) as Hgo.
  { intros key l' Hkey (Hl & Hs & Ha) Hok'. apply IH; cbn; [done..|by rewrite Hs|].
    apply Ha; [by intros ->|done..]. }
  unfold run_mops. cbn [st_for]. destruct op as [key|obj|b]; cbn [run_mop].
  - destruct (GetByKey_spec now key c Hok Hst) as (l' & Hr & Hok' & Ha & _).
    unfold mbind, st_bind. rewrite Hr. cbn. by apply (Hgo key).
  - destruct Hop as [Hobj Hkey]. destruct (Mutation_spec now obj c Hok Hobj) as (l' & Hr & Hok' & He & Ha).
    unfold mbind, st_bind. rewrite Hr. destruct (key_of obj) as [key|e] eqn:E.
    + apply (Hgo key); [by apply Hkey|by apply Ha|done].
    + rewrite (He e eq_refl). replace (set_mutations (mutations c) c) with c by by destruct c. by apply IH.
  - unfold mbind, st_bind, st_modify. by apply IH.
Qed.


(** With [includeAdds], an object that the store does not have is returned from the
    mutations only once: reading it compares it with itself and drops it as not newer. *)
Theorem added_object_read_once now obj o key (c : mcache) :
  mutations_ok (mutations c) → store_ok (backingCache c) → includeAdds c = true →
  key_of obj = Ok key → runtime obj = Some o → is_Some (version o) →
  not_older obj (live key now (mutations c)) → (0 ≤ ttl c)%Z →
  (cache_GetByKey key (backingCache c)).2 = false →
  ∃ c1 c2 c3, Mutation meta runtimeObject accessor now obj c = Ret () c1 ∧
    GetByKey runtimeObject accessor now key c1 = Ret (obj, true) c2 ∧
    GetByKey runtimeObject accessor now key c2 = Ret (None, false) c3.
Proof.
  intros Hok Hst Hadds Hkey Ho Hv Hnew Httl Habs.
  assert (comparable obj) as Hobj by (intros o' Ho'; congruence).
  destruct (Mutation_spec now obj c Hok Hobj) as (l1 & Hr1 & Hok1 & _ & Hacts).
  destruct (Hacts key Hkey) as (_ & Hfront). specialize (Hfront Hnew).
  pose proof (front_lookup _ _ _ _ (proj1 Hok1) Hfront) as (e & He & Hval & Hexp).
  assert (live key now l1 = Some obj) as Hlive.
  { unfold live. rewrite He. cbn. rewrite (proj2 (Z.ltb_ge _ _)) by lia. by rewrite Hval. }
  destruct (GetByKey_spec now key (set_mutations l1 c)) as (l2 & Hr2 & Hok2 & _ & _ & Hdrop); [done..|].
  destruct (GetByKey_spec now key (set_mutations l2 c)) as (l3 & Hr3 & _); [done..|].
  exists (set_mutations l1 c), (set_mutations l2 c), (set_mutations l3 c). split; [done|].
  assert (lmap l2 !! key = None) as Hnone.
  { apply Hdrop. unfold dropped. cbn. rewrite Hlive. cbn. rewrite Ho. eauto. }
  unfold lookup_result in Hr2, Hr3. cbn in Hr2, Hr3.
  destruct (cache_GetByKey key (backingCache c)) as [x [|]]; [done|]. rewrite Hadds in Hr2, Hr3.
  rewrite Hlive in Hr2. unfold live in Hr3. rewrite Hnone in Hr3. done.
Qed.
End laws.

(** The constructor; [None] where it panics. *)
Definition NewIntegerResourceVersionMutationCache {Sto L Obj}
    `{LRUCache_new L string (cacheEntry (option (dyn Obj)))}
    (backing : cache Sto (dyn Obj)) (indexer : option (cache Sto (dyn Obj))) (ttl : Z) (includeAdds : bool) :
    option (mutationCache (Sto := Sto) (L := L) (Obj := Obj)) :=
  (λ l, {| mutations := l; backingCache := backing; mc_indexer := indexer; includeAdds := includeAdds;
           ttl := ttl |}) <$> NewLRUExpireCache 100.

(** ** Witnesses: objects are their name and their version *)
Section witnesses.
Notation obj := (string * string)%type.
Notation lru := (LRU (K := string) (V := cacheEntry (option (dyn obj))) (W := ())).
#[local] Instance mx_ops : ThreadSafeStore_ops (threadSafeMap (dyn obj)) (dyn obj) :=
  threadSafeMap_ops map_to_list map_to_list map_to_list elements.
#[local] Instance mx_laws : ThreadSafeStore_laws (threadSafeMap (dyn obj)) (dyn obj) :=
  threadSafeMap_laws map_to_list map_to_list map_to_list elements.
#[local] Instance mx_lru_ops : LRUCache_ops lru string (cacheEntry (option (dyn obj))) := LRU_ops map_to_list.
#[local] Instance mx_lru_laws : LRUCache_laws lru string (cacheEntry (option (dyn obj))) := LRU_laws map_to_list.
#[local] Instance mx_new : LRUCache_new lru string (cacheEntry (option (dyn obj))) := LRU_new map_to_list ().

Definition mx_meta (o : obj) : meta_obj := ApiObject "" o.1.
Definition mx_accessor (o : obj) : option string := Some o.2.

(** A store with one object. *)
Definition mx_store (o : obj) : cache (threadSafeMap (dyn obj)) (dyn obj) :=
  final (Store.cache_Add (Some (Plain o)) (NewStore (DeletionHandlingMetaNamespaceKeyFunc mx_meta))).

Definition mx_lru : lru :=
  {| lru_size := 100; evictList := []; LruCache.items := ∅; onEvict := None; world := (); next := 0 |}.

Definition mx_cache : mutationCache (L := lru) :=
  {| mutations := mx_lru; backingCache := mx_store ("a", "7"); mc_indexer := None; includeAdds := true; ttl := 60 |}.

Example mx_cache_made : NewIntegerResourceVersionMutationCache (mx_store ("a", "7")) None 60 true = Some mx_cache.
Proof. reflexivity. Qed.

Lemma mx_lru_new : lc_ok mx_lru ∧ lc_size mx_lru = 100 ∧ lc_list mx_lru = [].
Proof. destruct (lc_New_ok 100) as (c & [= <-] & ?); done. Qed.

Lemma mx_lru_ok : mutations_ok (λ _, true) mx_accessor mx_lru.
Proof.
  destruct mx_lru_new as (Hok & _ & Hl). split; [done|]. unfold lmap. rewrite Hl. apply map_Forall_empty.
Qed.

Lemma mx_store_ok o : is_Some (ParseUint o.2) → store_ok (λ _, true) mx_accessor (mx_store o).
Proof.
  intros Ho key. change (cache_GetByKey key (mx_store o)) with
    (mjoin (({[ o.1 := Some (Plain o) ]} : gmap string (option (dyn obj))) !! key),
     bool_decide (is_Some (({[ o.1 := Some (Plain o) ]} : gmap string (option (dyn obj))) !! key))).
  cbn. intros o'. destruct (decide (o.1 = key)) as [<-|Hne].
  - rewrite lookup_singleton_eq. cbn. intros [= <-]. unfold ObjectResourceVersion, mx_accessor. cbn.
    case_bool_decide; [done|exact Ho].
  - by rewrite lookup_singleton_ne.
Qed.

Notation mx_version o := (default 0%Z (ObjectResourceVersion mx_accessor o)).


Lemma added_object_read_once_witness :
  ∃ c1 c2 c3, Mutation mx_meta (λ _, true) mx_accessor 0 (Some (Plain ("b", "9"))) mx_cache = Ret () c1 ∧
    GetByKey (λ _, true) mx_accessor 0 "b" c1 = Ret (Some (Plain ("b", "9")), true) c2 ∧
    GetByKey (λ _, true) mx_accessor 0 "b" c2 = Ret (None, false) c3.
Proof.
  apply (added_object_read_once mx_meta (λ _, true) mx_accessor 0 (Some (Plain ("b", "9"))) ("b", "9") "b" mx_cache).
  - exact mx_lru_ok.
  - apply mx_store_ok. by exists 7%Z.
  - reflexivity.
  - reflexivity.
  - reflexivity.
  - by exists 9%Z.
  - intros o m _. unfold live, lmap. cbn [mutations mx_cache]. rewrite (proj2 (proj2 mx_lru_new)). done.
  - done.
  - reflexivity.
Defined.
End witnesses.
