(* ===== verification/BTree.v ===== *)
(** * B-trees with copy-on-write clones (github.com/google/btree: btree.go)

    Nodes are shared: a clone points to the nodes of the tree it was cloned from, and trees
    that share a free list reuse each other's nodes.  The model keeps them in a memory of
    nodes by address; an operation is a function on that memory that returns or panics.  No
    two nodes share the array behind their slices (a node is copied, never resliced from
    another), so a slice is the list of its elements.  A context is the pointer that says
    which tree may write a node: two are the same when their [id] is.

    What is nil in Go is [None].  The items a node holds are never nil: [ReplaceOrInsert]
    panics on nil.  The recursive functions carry fuel; the trees pass an amount that the
    number of items bounds, which is enough since the trees are balanced. *)

From S2P Require Import Prelude.

Definition DefaultFreeListSize : Z := 32.

Definition addr := nat.

(** A context with the free list it points to, which does not change. *)
Record copyOnWriteContext := Context_ { id : nat; context_freelist : nat }.

#[export] Instance copyOnWriteContext_eq_dec : EqDecision copyOnWriteContext.
Proof. solve_decision. Defined.

Inductive toRemove := removeItem | removeMin | removeMax.
Inductive freeType := ftFreelistFull | ftStored | ftNotOwned.
Inductive direction := descend | ascend.

#[export] Instance freeType_eq_dec : EqDecision freeType.
Proof. solve_decision. Defined.

(** ** Slices: [items] and [children] have the same methods *)
Section slices.
Context {X : Type}.
Implicit Types s : list X.

Definition insertAt (index : nat) (x : X) s : option (list X) :=
  if bool_decide (index ≤ length s) then Some (take index s ++ x :: drop index s) else None.

Definition removeAt (index : nat) s : option (X * list X) :=
  x ← s !! index;
  Some (x, take index s ++ drop (S index) s).

Definition pop s : option (X * list X) :=
  match length s with
  | 0 => None
  | S index => x ← s !! index; Some (x, take index s)
  end.

Definition truncate (index : nat) s : option (list X) :=
  if bool_decide (index ≤ length s) then Some (take index s) else None.

(** [s[index] = x] *)
Definition set_at (index : nat) (x : X) s : option (list X) :=
  if bool_decide (index < length s) then Some (<[index := x]> s) else None.
End slices.

Definition children_insertAt : nat → addr → list addr → option (list addr) := insertAt.
Definition children_removeAt : nat → list addr → option (addr * list addr) := removeAt.
Definition children_pop : list addr → option (addr * list addr) := pop.
Definition children_truncate : nat → list addr → option (list addr) := truncate.

(** [sort.Search] of the standard library: the loop that halves [i, j). *)
Fixpoint Search_loop (fuel : nat) (f : nat → option bool) (i j : nat) : option nat :=
  match fuel with
  | 0 => None
  | S fuel =>
    if bool_decide (i < j) then
      let h := (i + j) / 2 in
      b ← f h;
      if b : bool then Search_loop fuel f i h else Search_loop fuel f (S h) j
    else Some i
  end.
Definition Search (n : nat) (f : nat → option bool) : option nat := Search_loop (S n) f 0 n.

Definition of_option {S X} (o : option X) : st S X :=
  match o with Some x => mret x | None => st_panic end.

(** An index computed as an [int]. *)
Definition of_int {S} (i : Z) : st S nat :=
  if bool_decide (i < 0)%Z then st_panic else mret (Z.to_nat i).

Section btree.
Context {A : Type}.

(** ** Nodes and the memory *)
Record node := Node { items : list A; children : list addr; cow : option copyOnWriteContext }.

Record FreeList := { freelist : list addr; capacity : nat }.

(** The nodes by their addresses, the first address not used yet, the free lists and the
    number of contexts made. *)
Record mem := { heap : gmap addr node; next : addr; freelists : list FreeList; contexts : nat }.

Record BTree := { degree : Z; tlength : Z; root : option addr; tcow : copyOnWriteContext }.

Definition load (l : addr) : st mem node := λ m,
  match heap m !! l with Some n => Ret n m | None => Panic m end.

Definition store (l : addr) (n : node) : st mem () :=
  st_modify (λ m, {| heap := <[l := n]> (heap m); next := next m; freelists := freelists m; contexts := contexts m |}).

(** [new(node)] *)
Definition alloc : st mem addr := λ m,
  Ret (next m) {| heap := <[next m := Node [] [] None]> (heap m); next := S (next m);
                  freelists := freelists m; contexts := contexts m |}.

Definition update_items (l : addr) (f : list A → option (list A)) : st mem () :=
  n ← load l;
  s ← of_option (f (items n));
  store l (Node s (children n) (cow n)).

Definition update_children (l : addr) (f : list addr → option (list addr)) : st mem () :=
  n ← load l;
  s ← of_option (f (children n));
  store l (Node (items n) s (cow n)).

Definition take_item (l : addr) (f : list A → option (A * list A)) : st mem A :=
  n ← load l;
  p ← of_option (f (items n));
  store l (Node p.2 (children n) (cow n));;
  mret p.1.

Definition take_child (l : addr) (f : list addr → option (addr * list addr)) : st mem addr :=
  n ← load l;
  p ← of_option (f (children n));
  store l (Node (items n) p.2 (cow n));;
  mret p.1.

(** ** Free lists *)
Definition set_freelist (f : nat) (fl : FreeList) : st mem () :=
  st_modify (λ m, {| heap := heap m; next := next m; freelists := <[f := fl]> (freelists m); contexts := contexts m |}).

Definition NewFreeList (size : Z) : st mem nat :=
  cap ← of_int size;
  m ← st_get;
  st_modify (λ m, {| heap := heap m; next := next m;
                     freelists := freelists m ++ [{| freelist := []; capacity := cap |}]; contexts := contexts m |});;
  mret (length (freelists m)).

Definition freelist_newNode (f : nat) : st mem addr :=
  m ← st_get;
  fl ← of_option (freelists m !! f);
  match length (freelist fl) with
  | 0 => alloc
  | S index =>
    n ← of_option (freelist fl !! index);
    set_freelist f {| freelist := take index (freelist fl); capacity := capacity fl |};;
    mret n
  end.

Definition freelist_freeNode (f : nat) (n : addr) : st mem bool :=
  m ← st_get;
  fl ← of_option (freelists m !! f);
  if bool_decide (length (freelist fl) < capacity fl) then
    set_freelist f {| freelist := freelist fl ++ [n]; capacity := capacity fl |};;
    mret true
  else mret false.

(** ** Contexts *)
Definition newNode (c : option copyOnWriteContext) : st mem addr :=
  c ← of_option c;
  l ← freelist_newNode (context_freelist c);
  n ← load l;
  store l (Node (items n) (children n) (Some c));;
  mret l.

Definition freeNode (c : option copyOnWriteContext) (l : addr) : st mem freeType :=
  n ← load l;
  if bool_decide (cow n = c) then
    update_items l (truncate 0);;
    update_children l (children_truncate 0);;
    n ← load l;
    store l (Node (items n) (children n) None);;
    c ← of_option c;
    stored ← freelist_freeNode (context_freelist c) l;
    mret (if stored : bool then ftStored else ftFreelistFull)
  else mret ftNotOwned.

Definition new_context (f : nat) : st mem copyOnWriteContext := λ m,
  Ret (Context_ (contexts m) f)
    {| heap := heap m; next := next m; freelists := freelists m; contexts := S (contexts m) |}.

Definition NewWithFreeList (degree : Z) (f : nat) : st mem BTree :=
  if bool_decide (degree ≤ 1)%Z then st_panic else
  c ← new_context f;
  mret {| degree := degree; tlength := 0; root := None; tcow := c |}.

Definition New (degree : Z) : st mem BTree :=
  f ← NewFreeList DefaultFreeListSize;
  NewWithFreeList degree f.

(** The tree and its clone. *)
Definition Clone (t : BTree) : st mem (BTree * BTree) :=
  cow1 ← new_context (context_freelist (tcow t));
  cow2 ← new_context (context_freelist (tcow t));
  mret ({| degree := degree t; tlength := tlength t; root := root t; tcow := cow1 |},
        {| degree := degree t; tlength := tlength t; root := root t; tcow := cow2 |}).

Definition maxItems (t : BTree) : Z := i64 (degree t * 2 - 1).
Definition minItems (t : BTree) : Z := i64 (degree t - 1).

(** The depth the recursion may reach. *)
Definition fuel_of (t : BTree) : nat := 2 * Z.to_nat (tlength t) + 2.

(** ** Writing to nodes *)
Definition mutableFor (l : addr) (c : option copyOnWriteContext) : st mem addr :=
  n ← load l;
  if bool_decide (cow n = c) then mret l else
  out ← newNode c;
  update_items out (λ _, Some (items n));;
  update_children out (λ _, Some (children n));;
  mret out.

Definition mutableChild (l : addr) (i : nat) : st mem addr :=
  n ← load l;
  k ← of_option (children n !! i);
  c ← mutableFor k (cow n);
  update_children l (set_at i c);;
  mret c.

Definition node_split (l : addr) (i : nat) : st mem (A * addr) :=
  n ← load l;
  item ← of_option (items n !! i);
  next ← newNode (cow n);
  update_items next (λ s, Some (s ++ drop (S i) (items n)));;
  update_items l (truncate i);;
  (if bool_decide (0 < length (children n)) then
     update_children next (λ s, if bool_decide (S i ≤ length (children n)) then Some (s ++ drop (S i) (children n)) else None);;
     update_children l (children_truncate (S i))
   else mret ());;
  mret (item, next).

(** [len(n.children[i].items)] *)
Definition child_items (l : addr) (i : nat) : st mem Z :=
  n ← load l;
  k ← of_option (children n !! i);
  c ← load k;
  mret (Z.of_nat (length (items c))).

Definition maybeSplitChild (l : addr) (i : nat) (maxItems : Z) : st mem bool :=
  k ← child_items l i;
  if bool_decide (k < maxItems)%Z then mret false else
  first ← mutableChild l i;
  j ← of_int (Z.quot maxItems 2);
  p ← node_split first j;
  update_items l (insertAt i p.1);;
  update_children l (children_insertAt (S i) p.2);;
  mret true.

(** ** Searching, inserting and deleting *)
Section order.
Context (Less : A → A → bool).

(** [item] is nil where the caller passed nil; its [Less] method cannot be called then. *)
Definition find (s : list A) (item : option A) : option (nat * bool) :=
  i ← Search (length s) (λ i, x ← item; y ← s !! i; Some (Less x y));
  match i with
  | 0 => Some (0, false)
  | S j =>
    y ← s !! j;
    x ← item;
    if Less y x then Some (i, false) else Some (j, true)
  end.

Fixpoint node_insert (fuel : nat) (l : addr) (item : A) (maxItems : Z) : st mem (option A) :=
  match fuel with
  | 0 => st_panic
  | S fuel =>
    n ← load l;
    p ← of_option (find (items n) (Some item));
    let i := p.1 in
    if p.2 : bool then
      out ← of_option (items n !! i);
      update_items l (set_at i item);;
      mret (Some out)
    else if bool_decide (length (children n) = 0) then
      update_items l (insertAt i item);;
      mret None
    else
      split ← maybeSplitChild l i maxItems;
      if split : bool then
        n ← load l;
        inTree ← of_option (items n !! i);
        if Less item inTree then
          c ← mutableChild l i;
          node_insert fuel c item maxItems
        else if Less inTree item then
          c ← mutableChild l (S i);
          node_insert fuel c item maxItems
        else
          update_items l (set_at i item);;
          mret (Some inTree)
      else
        c ← mutableChild l i;
        node_insert fuel c item maxItems
  end.

Fixpoint node_get (fuel : nat) (l : addr) (key : option A) : st mem (option A) :=
  match fuel with
  | 0 => st_panic
  | S fuel =>
    n ← load l;
    p ← of_option (find (items n) key);
    if p.2 : bool then
      x ← of_option (items n !! p.1);
      mret (Some x)
    else if bool_decide (0 < length (children n)) then
      c ← of_option (children n !! p.1);
      node_get fuel c key
    else mret None
  end.

Fixpoint node_min (fuel : nat) (l : addr) : st mem (option A) :=
  match fuel with
  | 0 => st_panic
  | S fuel =>
    n ← load l;
    match children n with
    | c :: _ => node_min fuel c
    | [] => mret (head (items n))
    end
  end.

Fixpoint node_max (fuel : nat) (l : addr) : st mem (option A) :=
  match fuel with
  | 0 => st_panic
  | S fuel =>
    n ← load l;
    match last (children n) with
    | Some c => node_max fuel c
    | None => mret (last (items n))
    end
  end.

(** The three ways in which [growChildAndRemove] grows child [i]. *)
Definition steal_left (l : addr) (i : nat) : st mem () :=
  child ← mutableChild l i;
  stealFrom ← mutableChild l (i - 1);
  stolenItem ← take_item stealFrom pop;
  n ← load l;
  x ← of_option (items n !! (i - 1));
  update_items child (insertAt 0 x);;
  update_items l (set_at (i - 1) stolenItem);;
  from ← load stealFrom;
  if bool_decide (0 < length (children from)) then
    k ← take_child stealFrom children_pop;
    update_children child (children_insertAt 0 k)
  else mret ().

Definition steal_right (l : addr) (i : nat) : st mem () :=
  child ← mutableChild l i;
  stealFrom ← mutableChild l (S i);
  stolenItem ← take_item stealFrom (removeAt 0);
  n ← load l;
  x ← of_option (items n !! i);
  update_items child (λ s, Some (s ++ [x]));;
  update_items l (set_at i stolenItem);;
  from ← load stealFrom;
  if bool_decide (0 < length (children from)) then
    k ← take_child stealFrom (children_removeAt 0);
    update_children child (λ s, Some (s ++ [k]))
  else mret ().

Definition merge (l : addr) (i : nat) : st mem () :=
  n ← load l;
  i ← (if bool_decide (length (items n) ≤ i) then
         match i with 0 => st_panic | S j => mret j end
       else mret i);
  child ← mutableChild l i;
  mergeItem ← take_item l (removeAt i);
  mergeChild ← take_child l (children_removeAt (S i));
  update_items child (λ s, Some (s ++ [mergeItem]));;
  mc ← load mergeChild;
  update_items child (λ s, Some (s ++ items mc));;
  update_children child (λ s, Some (s ++ children mc));;
  freeNode (cow n) mergeChild;;
  mret ().

Definition growChildAndRemove (remove : st mem (option A)) (l : addr) (i : nat) (minItems : Z) : st mem (option A) :=
  n ← load l;
  left ← match i with
         | 0 => mret false
         | S j => k ← child_items l j; mret (bool_decide (minItems < k)%Z)
         end;
  (if left : bool then steal_left l i else
   right ← (if bool_decide (i < length (items n)) then
              k ← child_items l (S i);
              mret (bool_decide (minItems < k)%Z)
            else mret false);
   if right : bool then steal_right l i else merge l i);;
  remove.

(** Deleting from child [i], in which [found] says that [n.items[i]] is the item. *)
Definition remove_from_child (remove : addr → option A → toRemove → st mem (option A)) (again : st mem (option A))
    (l : addr) (i : nat) (found : bool) (item : option A) (minItems : Z) (typ : toRemove) : st mem (option A) :=
  k ← child_items l i;
  if bool_decide (k ≤ minItems)%Z then growChildAndRemove again l i minItems else
  child ← mutableChild l i;
  if found then
    n ← load l;
    out ← of_option (items n !! i);
    o ← remove child None removeMax;
    x ← of_option o;
    update_items l (set_at i x);;
    mret (Some out)
  else remove child item typ.

Fixpoint node_remove (fuel : nat) (l : addr) (item : option A) (minItems : Z) (typ : toRemove) : st mem (option A) :=
  match fuel with
  | 0 => st_panic
  | S fuel =>
    let again := node_remove fuel l item minItems typ in
    let remove c item typ := node_remove fuel c item minItems typ in
    n ← load l;
    let leaf := bool_decide (length (children n) = 0) in
    match typ with
    | removeMax =>
      if leaf then x ← take_item l pop; mret (Some x)
      else remove_from_child remove again l (length (items n)) false item minItems typ
    | removeMin =>
      if leaf then x ← take_item l (removeAt 0); mret (Some x)
      else remove_from_child remove again l 0 false item minItems typ
    | removeItem =>
      p ← of_option (find (items n) item);
      if leaf then
        if p.2 : bool then x ← take_item l (removeAt p.1); mret (Some x) else mret None
      else remove_from_child remove again l p.1 p.2 item minItems typ
    end
  end.

(** ** Iterating

    The callback runs in a state of its own and does not write to the tree. *)
Section iterate.
Context {R : Type} (iter : A → R → bool * R) (start stop : option A) (includeStart : bool).
Implicit Types (hit : bool) (s : R).

(** [start != nil && x.Less(start)] and the other comparisons with a bound that may be nil. *)
Definition less_than (x : A) (b : option A) : bool := match b with Some y => Less x y | None => false end.
Definition not_less_than (x : A) (b : option A) : bool := match b with Some y => negb (Less x y) | None => false end.
Definition not_above (b : option A) (x : A) : bool := match b with Some y => negb (Less y x) | None => false end.
Definition above_start (x : A) : bool := match start with Some y => Less y x | None => false end.

Fixpoint ascend_items (rec : addr → bool → R → st mem (bool * bool * R)) (n : node) (its : list A) (i : nat) hit s :
    st mem (bool * bool * R) :=
  match its with
  | [] => mret (hit, true, s)
  | x :: its =>
    if less_than x start then ascend_items rec n its (S i) hit s else
    r ← (if bool_decide (0 < length (children n)) then
           c ← of_option (children n !! i);
           rec c hit s
         else mret (hit, true, s));
    let '(hit, ok, s) := r in
    if negb ok then mret (hit, false, s) else
    if negb includeStart && negb hit && not_above start x then ascend_items rec n its (S i) true s else
    if not_less_than x stop then mret (true, false, s) else
    let '(go, s) := iter x s in
    if go : bool then ascend_items rec n its (S i) true s else mret (true, false, s)
  end.

(** Over the items from the last to the first; the index of one is the number of those left. *)
Fixpoint descend_items (rec : addr → bool → R → st mem (bool * bool * R)) (n : node) (its : list A) hit s :
    st mem (bool * bool * R) :=
  match its with
  | [] => mret (hit, true, s)
  | x :: its =>
    if not_less_than x start && (negb includeStart || hit || above_start x) then descend_items rec n its hit s else
    r ← (if bool_decide (0 < length (children n)) then
           c ← of_option (children n !! S (length its));
           rec c hit s
         else mret (hit, true, s));
    let '(hit, ok, s) := r in
    if negb ok then mret (hit, false, s) else
    if not_above stop x then mret (hit, false, s) else
    let '(go, s) := iter x s in
    if go : bool then descend_items rec n its true s else mret (true, false, s)
  end.

Fixpoint node_iterate (fuel : nat) (dir : direction) (l : addr) hit s : st mem (bool * bool * R) :=
  match fuel with
  | 0 => st_panic
  | S fuel =>
    n ← load l;
    match dir with
    | ascend =>
      r ← ascend_items (node_iterate fuel dir) n (items n) 0 hit s;
      let '(hit, ok, s) := r in
      if ok && bool_decide (0 < length (children n)) then
        c ← of_option (children n !! (length (children n) - 1));
        node_iterate fuel dir c hit s
      else mret (hit, ok, s)
    | descend =>
      r ← descend_items (node_iterate fuel dir) n (reverse (items n)) hit s;
      let '(hit, ok, s) := r in
      if ok && bool_decide (0 < length (children n)) then
        c ← of_option (children n !! 0);
        node_iterate fuel dir c hit s
      else mret (hit, ok, s)
    end
  end.
End iterate.

(** ** Trees *)
Definition with_root (t : BTree) (l : addr) : BTree :=
  {| degree := degree t; tlength := tlength t; root := Some l; tcow := tcow t |}.
Definition with_length (t : BTree) (n : Z) : BTree :=
  {| degree := degree t; tlength := n; root := root t; tcow := tcow t |}.

(** The root made writable and split when it is full. *)
Definition grow_root (t : BTree) (l : addr) : st mem addr :=
  r ← mutableFor l (Some (tcow t));
  n ← load r;
  if bool_decide (maxItems t ≤ Z.of_nat (length (items n)))%Z then
    j ← of_int (Z.quot (maxItems t) 2);
    p ← node_split r j;
    r' ← newNode (Some (tcow t));
    update_items r' (λ s, Some (s ++ [p.1]));;
    update_children r' (λ s, Some (s ++ [r; p.2]));;
    mret r'
  else mret r.

Definition ReplaceOrInsert (t : BTree) (item : option A) : st mem (option A * BTree) :=
  item ← of_option item;
  match root t with
  | None =>
    l ← newNode (Some (tcow t));
    update_items l (λ s, Some (s ++ [item]));;
    mret (None, with_length (with_root t l) (tlength t + 1))
  | Some l =>
    r ← grow_root t l;
    out ← node_insert (fuel_of t) r item (maxItems t);
    mret (out, match out with
               | None => with_length (with_root t r) (tlength t + 1)
               | Some _ => with_root t r
               end)
  end.

Definition deleteItem (t : BTree) (item : option A) (typ : toRemove) : st mem (option A * BTree) :=
  match root t with
  | None => mret (None, t)
  | Some l =>
    n ← load l;
    if bool_decide (length (items n) = 0) then mret (None, t) else
    r ← mutableFor l (Some (tcow t));
    out ← node_remove (fuel_of t) r item (minItems t) typ;
    n ← load r;
    r' ← (if bool_decide (length (items n) = 0) && bool_decide (0 < length (children n)) then
            c ← of_option (children n !! 0);
            freeNode (Some (tcow t)) r;;
            mret c
          else mret r);
    mret (out, match out with
               | None => with_root t r'
               | Some _ => with_length (with_root t r') (tlength t - 1)
               end)
  end.

Definition Delete (t : BTree) (item : option A) : st mem (option A * BTree) := deleteItem t item removeItem.
Definition DeleteMin (t : BTree) : st mem (option A * BTree) := deleteItem t None removeMin.
Definition DeleteMax (t : BTree) : st mem (option A * BTree) := deleteItem t None removeMax.

Definition Get (t : BTree) (key : option A) : st mem (option A) :=
  match root t with None => mret None | Some l => node_get (fuel_of t) l key end.

Definition Has (t : BTree) (key : option A) : st mem bool :=
  x ← Get t key;
  mret (bool_decide (is_Some x)).

Definition Min (t : BTree) : st mem (option A) :=
  match root t with None => mret None | Some l => node_min (fuel_of t) l end.

Definition Max (t : BTree) : st mem (option A) :=
  match root t with None => mret None | Some l => node_max (fuel_of t) l end.

Definition Len (t : BTree) : Z := tlength t.

(** [reset] returns true if the call on the parent should go on. *)
Fixpoint reset_children (reset : addr → st mem bool) (cs : list addr) : st mem bool :=
  match cs with
  | [] => mret true
  | c :: cs =>
    go ← reset c;
    if go : bool then reset_children reset cs else mret false
  end.

Fixpoint node_reset (fuel : nat) (l : addr) (c : copyOnWriteContext) : st mem bool :=
  match fuel with
  | 0 => st_panic
  | S fuel =>
    n ← load l;
    go ← reset_children (λ k, node_reset fuel k c) (children n);
    if go : bool then
      f ← freeNode (Some c) l;
      mret (bool_decide (f ≠ ftFreelistFull))
    else mret false
  end.

Definition Clear (t : BTree) (addNodesToFreelist : bool) : st mem BTree :=
  match root t with
  | Some l => if addNodesToFreelist then node_reset (fuel_of t) l (tcow t);; mret () else mret ()
  | None => mret ()
  end;;
  mret {| degree := degree t; tlength := 0; root := None; tcow := tcow t |}.

Section iterators.
Context {R : Type} (iterator : A → R → bool * R).

Definition iterate_root (t : BTree) (dir : direction) (start stop : option A) (includeStart : bool) (s : R) : st mem R :=
  match root t with
  | None => mret s
  | Some l =>
    r ← node_iterate iterator start stop includeStart (fuel_of t) dir l false s;
    mret r.2
  end.

Definition AscendRange (t : BTree) (greaterOrEqual lessThan : option A) (s : R) : st mem R :=
  iterate_root t ascend greaterOrEqual lessThan true s.
Definition AscendLessThan (t : BTree) (pivot : option A) (s : R) : st mem R :=
  iterate_root t ascend None pivot false s.
Definition AscendGreaterOrEqual (t : BTree) (pivot : option A) (s : R) : st mem R :=
  iterate_root t ascend pivot None true s.
Definition Ascend (t : BTree) (s : R) : st mem R :=
  iterate_root t ascend None None false s.
Definition DescendRange (t : BTree) (lessOrEqual greaterThan : option A) (s : R) : st mem R :=
  iterate_root t descend lessOrEqual greaterThan true s.
Definition DescendLessOrEqual (t : BTree) (pivot : option A) (s : R) : st mem R :=
  iterate_root t descend pivot None true s.
Definition DescendGreaterThan (t : BTree) (pivot : option A) (s : R) : st mem R :=
  iterate_root t descend None pivot false s.
Definition Descend (t : BTree) (s : R) : st mem R :=
  iterate_root t descend None None false s.
End iterators.
End order.
End btree.

Arguments node : clear implicits.
Arguments mem : clear implicits.

(** [Int] items: the other item is asserted to be one. *)
Definition Int_Less (a b : Z) : bool := bool_decide (a < b)%Z.
