(* ===== verification/BTreeLists.v ===== *)
(** * The lists a B-tree node stands for (github.com/google/btree: btree.go)

    What the slice operations and the binary search of a node compute, and how the items of
    a subtree, in order, are put together from the items of the node and of its children. *)

From S2P Require Import Prelude SortedLists BTree.

(** ** Slices *)
Section slices.
Context {X : Type}.
Implicit Types (x y : X) (s : list X).

Lemma insertAt_app i x s1 s2 : i = length s1 → insertAt i x (s1 ++ s2) = Some (s1 ++ x :: s2).
Proof.
  intros ->. unfold insertAt. rewrite bool_decide_eq_true_2 by (rewrite length_app; lia). by rewrite take_app_length, drop_app_length.
Qed.

Lemma removeAt_app i x s1 s2 : i = length s1 → removeAt i (s1 ++ x :: s2) = Some (x, s1 ++ s2).
Proof.
  intros ->. unfold removeAt. rewrite list_lookup_middle by done. cbn. rewrite take_app_length.
  by rewrite (cons_middle x s1 s2), app_assoc, drop_app_length' by (rewrite length_app; cbn; lia).
Qed.

Lemma pop_snoc x s : pop (s ++ [x]) = Some (x, s).
Proof.
  unfold pop. rewrite length_app. cbn. rewrite Nat.add_1_r. rewrite list_lookup_middle by done. cbn. by rewrite take_app_length.
Qed.

Lemma truncate_app i s1 s2 : i = length s1 → truncate i (s1 ++ s2) = Some s1.
Proof. intros ->. unfold truncate. rewrite bool_decide_eq_true_2 by (rewrite length_app; lia). by rewrite take_app_length. Qed.

Lemma set_at_app i x y s1 s2 : i = length s1 → set_at i y (s1 ++ x :: s2) = Some (s1 ++ y :: s2).
Proof.
  intros ->. unfold set_at. rewrite bool_decide_eq_true_2 by (rewrite length_app; cbn; lia). by rewrite insert_app_r_alt, Nat.sub_diag by done.
Qed.

(** A list cut at an index. *)
Lemma cut i s : i ≤ length s → ∃ s1 s2, s = s1 ++ s2 ∧ length s1 = i.
Proof. intros Hi. exists (take i s), (drop i s). by rewrite take_drop, length_take_le. Qed.

Lemma cut_at i s : i < length s → ∃ s1 x s2, s = s1 ++ x :: s2 ∧ length s1 = i.
Proof.
  intros Hi. destruct (cut i s) as (s1 & [|x s2] & -> & <-); [lia|rewrite length_app in Hi; cbn in Hi; lia|eauto].
Qed.
End slices.

(** ** Binary search *)
Lemma Search_loop_spec (p : nat → bool) f n fuel i j :
  (∀ k, k < n → f k = Some (p k)) → (∀ k k', k ≤ k' → k' < n → p k = true → p k' = true) →
  i ≤ j → j ≤ n → j - i < fuel →
  (∀ k, k < i → p k = false) → (∀ k, j ≤ k → k < n → p k = true) →
  ∃ r, Search_loop fuel f i j = Some r ∧ r ≤ n ∧ (∀ k, k < r → p k = false) ∧ (∀ k, r ≤ k → k < n → p k = true).
Proof.
  intros Hf Hp. revert i j. induction fuel as [|fuel IH]; intros i j Hij Hj Hfuel Hlo Hhi; [lia|]. cbn [Search_loop].
  case_bool_decide as Hlt.
  2: { exists i. split_and!; [done|lia|done|]. intros k Hk. apply Hhi. lia. }
  pose proof (Nat.div_mod_eq (i + j) 2) as Hdiv. pose proof (Nat.mod_upper_bound (i + j) 2 ltac:(done)) as Hmod.
  set (h := (i + j) / 2) in *. rewrite (Hf h) by lia. cbn [mbind option_bind]. destruct (p h) eqn:Eh.
  - apply IH; [lia..|done|]. intros k Hk Hn. by apply (Hp h k).
  - apply IH; [lia..| |done]. intros k Hk. destruct (p k) eqn:Ek; [|done]. rewrite <-Eh. symmetry. apply (Hp k h); [lia|lia|done].
Qed.

Section items.
Context {A : Type} {lt : A → A → bool} `{!strict_weak_order lt}.
Implicit Types (k x y : A) (L its : list A) (Ls Ms : list (list A)).

Local Notation strict := (strict lt).

Lemma strict_lookup L i j x y : strict L → i < j → L !! i = Some x → L !! j = Some y → lt x y = true.
Proof.
  intros Hs Hij Hx Hy. apply list_elem_of_split_length in Hx as (L1 & L2 & -> & ->).
  rewrite lookup_app_r in Hy by lia. destruct (j - length L1) as [|d] eqn:Ed; [lia|]. cbn in Hy.
  apply sorted_around in Hs as (_ & _ & _ & Hx). rewrite Forall_forall in Hx. apply Hx. by apply list_elem_of_lookup_2 in Hy.
Qed.

(** [find] cuts the items of a node where the key belongs. *)
Lemma find_spec its k :
  strict its →
  ∃ i1 i2, its = i1 ++ i2 ∧ Forall (λ y, lt y k = true) i1 ∧
    ((find lt its (Some k) = Some (length i1, false) ∧ Forall (λ y, lt k y = true) i2) ∨
     (∃ x i3, i2 = x :: i3 ∧ find lt its (Some k) = Some (length i1, true) ∧
        lt x k = false ∧ lt k x = false ∧ Forall (λ y, lt k y = true) i3)).
Proof.
  intros Hs.
  destruct (Search_loop_spec (λ i, match its !! i with Some y => lt k y | None => true end)
              (λ i, x ← Some k; y ← its !! i; Some (lt x y)) (length its) (S (length its)) 0 (length its))
    as (r & Hr & Hrn & Hlo & Hhi); [| |lia..|].
  { intros i [y Hy]%lookup_lt_is_Some_2. cbn. by rewrite Hy. }
  { intros i j Hij [y Hy]%lookup_lt_is_Some_2 Hi. rewrite Hy. destruct (decide (i = j)) as [->|Hne]; [by rewrite Hy in Hi|].
    destruct (its !! i) as [x|] eqn:Hx; [|apply lookup_ge_None in Hx; apply lookup_lt_Some in Hy; lia].
    apply (lt_trans k x y Hi). by apply (strict_lookup its i j); [|lia|..]. }
  destruct (cut r its Hrn) as (i1 & i2 & -> & <-).
  assert (Forall (λ y, lt k y = true) i2) as H2.
  { apply Forall_lookup. intros j y Hy. specialize (Hhi (length i1 + j)). rewrite lookup_app_r in Hhi by lia.
    rewrite Nat.add_sub_swap, Nat.sub_diag in Hhi by lia. cbn in Hhi. rewrite Hy in Hhi. apply Hhi; [lia|].
    rewrite length_app. apply lookup_lt_Some in Hy. lia. }
  assert (Forall (λ y, lt k y = false) i1) as H1.
  { apply Forall_lookup. intros j y Hy. specialize (Hlo j (lookup_lt_Some _ _ _ Hy)). by rewrite (lookup_app_l_Some _ _ _ _ Hy) in Hlo. }
  unfold find, Search. rewrite Hr. cbn [mbind option_bind].
  destruct i1 as [|x i1 _] using rev_ind; [exists [], i2; by split_and!; [..|left]|].
  rewrite length_app, Nat.add_1_r. cbn [length].
  assert (((i1 ++ [x]) ++ i2) !! length i1 = Some x) as -> by (rewrite <-app_assoc; by apply list_lookup_middle). cbn [mbind option_bind].
  apply Forall_app in H1 as [_ [H1 _]%Forall_cons]. rewrite <-app_assoc in Hs. apply sorted_around in Hs as (_ & _ & H1x & _).
  destruct (lt x k) eqn:Hx.
  - exists (i1 ++ [x]), i2. rewrite length_app, Nat.add_1_r. split_and!; [done| |by left].
    apply Forall_app. split; [|by constructor]. apply (Forall_impl _ _ _ H1x). intros y Hy. by apply (lt_trans y x k).
  - exists i1, (x :: i2). split_and!; [by rewrite <-app_assoc| |right; by exists x, i2].
    apply (Forall_impl _ _ _ H1x). intros y Hy. by apply (lt_le y x k).
Qed.

(** Where [find] ends up follows from the order alone. *)
Lemma find_at its1 its2 k :
  strict (its1 ++ its2) → Forall (λ y, lt y k = true) its1 → Forall (λ y, lt k y = true) its2 →
  find lt (its1 ++ its2) (Some k) = Some (length its1, false).
Proof.
  intros Hs H1 H2. apply filter_below_all in H1 as (Hb1 & Ha1 & He1 & _). apply filter_above_all in H2 as (Hb2 & Ha2 & He2 & _).
  destruct (parts_app (lt := lt) k its1 its2) as (Hb & _ & He & _). rewrite Hb1, Hb2, app_nil_r in Hb. rewrite He1, He2 in He. cbn in He.
  destruct (find_spec _ k Hs) as (i1 & i2 & E & Hi1 & [[Hf Hi2]|(x & i3 & -> & Hf & Hx1 & Hx2 & Hi3)]); rewrite Hf.
  - apply filter_below_all in Hi1 as (Hbi & _). apply filter_above_all in Hi2 as (Hbi' & _).
    destruct (parts_app (lt := lt) k i1 i2) as (Hbi'' & _). rewrite Hbi, Hbi', <-E, app_nil_r in Hbi''. by rewrite <-Hb, Hbi''.
  - rewrite E in Hs, He. by destruct (around_equal k x i1 i3 Hs Hx2 Hx1) as (_ & _ & ?); congruence.
Qed.

Lemma find_found its1 x its2 k :
  strict (its1 ++ x :: its2) → lt x k = false → lt k x = false → find lt (its1 ++ x :: its2) (Some k) = Some (length its1, true).
Proof.
  intros Hs Hx1 Hx2. destruct (around_equal k x its1 its2 Hs Hx2 Hx1) as (Hb & _ & He).
  destruct (find_spec _ k Hs) as (i1 & i2 & E & Hi1 & [[Hf Hi2]|(x' & i3 & -> & Hf & Hx1' & Hx2' & Hi3)]); rewrite Hf.
  - apply filter_below_all in Hi1 as (_ & _ & Hei & _). apply filter_above_all in Hi2 as (_ & _ & Hei' & _).
    destruct (parts_app (lt := lt) k i1 i2) as (_ & _ & Hei'' & _). rewrite Hei, Hei', <-E, He in Hei''. done.
  - rewrite E in Hs, Hb. destruct (around_equal k x' i1 i3 Hs Hx2' Hx1') as (Hb' & _). congruence.
Qed.

(** ** The items of a subtree *)
Definition before Ls its : list A := concat (zip_with (λ L x, L ++ [x]) Ls its).
Definition after its Ls : list A := concat (zip_with cons its Ls).

Definition join its Ls : list A :=
  match Ls with [] => its | L :: Ls => L ++ after its Ls end.

Lemma before_app Ms1 its1 Ms2 its2 : length Ms1 = length its1 → before (Ms1 ++ Ms2) (its1 ++ its2) = before Ms1 its1 ++ before Ms2 its2.
Proof. intros Hl. unfold before. by rewrite zip_with_app, concat_app. Qed.

Lemma after_app its1 Ms1 its2 Ms2 : length its1 = length Ms1 → after (its1 ++ its2) (Ms1 ++ Ms2) = after its1 Ms1 ++ after its2 Ms2.
Proof. intros Hl. unfold after. by rewrite zip_with_app, concat_app. Qed.

Lemma before_snoc Ms1 its1 L x : length Ms1 = length its1 → before (Ms1 ++ [L]) (its1 ++ [x]) = before Ms1 its1 ++ L ++ [x].
Proof. intros Hl. rewrite before_app by done. unfold before at 2. cbn. by rewrite app_nil_r. Qed.

Lemma after_cons x its2 L Ms2 : after (x :: its2) (L :: Ms2) = x :: L ++ after its2 Ms2.
Proof. done. Qed.

(** The items around child [i]. *)
Lemma join_at its1 its2 Ms1 L Ms2 : length Ms1 = length its1 → join (its1 ++ its2) (Ms1 ++ L :: Ms2) = before Ms1 its1 ++ L ++ after its2 Ms2.
Proof.
  intros Hl. destruct Ms1 as [|L0 Ms1]; [by destruct its1|]. destruct its1 as [|x its1]; [done|]. cbn [app join].
  revert L0 Ms1 x Hl. induction its1 as [|y its1 IH]; intros L0 [|L0' Ms1] x Hl; try done.
  - unfold before. cbn. by rewrite app_nil_r, <-app_assoc.
  - change (after ((x :: y :: its1) ++ its2) ((L0' :: Ms1) ++ L :: Ms2)) with (x :: L0' ++ after ((y :: its1) ++ its2) (Ms1 ++ L :: Ms2)).
    change (before (L0 :: L0' :: Ms1) (x :: y :: its1)) with ((L0 ++ [x]) ++ before (L0' :: Ms1) (y :: its1)).
    rewrite <-!app_assoc. cbn. do 2 f_equal. apply (IH L0' Ms1 y). cbn in *. lia.
Qed.

(** The items around item [i]. *)
Lemma join_around its1 x its2 Ms1 L L' Ms2 :
  length Ms1 = length its1 →
  join (its1 ++ x :: its2) (Ms1 ++ L :: L' :: Ms2) = join its1 (Ms1 ++ [L]) ++ x :: join its2 (L' :: Ms2).
Proof.
  intros Hl. rewrite (join_at its1 (x :: its2)) by done. rewrite <-(app_nil_r its1) at 2. rewrite (join_at its1 []) by done.
  rewrite after_cons. unfold after at 2. cbn. by rewrite app_nil_r, <-!app_assoc.
Qed.

Lemma length_after its2 Ms2 : length its2 = length Ms2 → length (after its2 Ms2) = length its2 + sum_list (length <$> Ms2).
Proof. revert Ms2. induction its2 as [|x its2 IH]; intros [|L Ms2] [=]; [done|]. rewrite after_cons. cbn. rewrite length_app, IH by done. lia. Qed.

Lemma length_join its Ls : length Ls = S (length its) → length (join its Ls) = length its + sum_list (length <$> Ls).
Proof. destruct Ls as [|L Ls]; [done|]. intros [= Hl]. cbn. rewrite length_app, length_after by done. lia. Qed.

Lemma before_below Ls its k :
  strict (before Ls its) → length Ls = length its → Forall (λ y, lt y k = true) its → Forall (λ y, lt y k = true) (before Ls its).
Proof.
  revert Ls. induction its as [|x its IH]; intros [|L Ls] Hs [=] Hk; [constructor|].
  change (before (L :: Ls) (x :: its)) with ((L ++ [x]) ++ before Ls its) in *. apply Forall_cons in Hk as [Hx Hk].
  rewrite <-app_assoc in Hs. apply sorted_around in Hs as (_ & Hs & HL & _).
  apply Forall_app. split; [apply Forall_app; split; [|by constructor]|by apply IH].
  apply (Forall_impl _ _ _ HL). intros y Hy. by apply (lt_trans y x k).
Qed.

Lemma after_above its Ls k :
  strict (after its Ls) → length its = length Ls → Forall (λ y, lt k y = true) its → Forall (λ y, lt k y = true) (after its Ls).
Proof.
  revert Ls. induction its as [|x its IH]; intros [|L Ls] Hs [=] Hk; [constructor|].
  rewrite after_cons in *. apply Forall_cons in Hk as [Hx Hk]. constructor; [done|].
  apply StronglySorted_inv in Hs as [(_ & _ & Hs)%StronglySorted_app HL]. apply Forall_app in HL as [HL _].
  apply Forall_app. split; [|by apply IH]. apply (Forall_impl _ _ _ HL). intros y Hy. by apply (lt_trans k x y).
Qed.

Lemma strict_sublist L L' : L `sublist_of` L' → strict L' → strict L.
Proof.
  intros Hsub Hs. induction Hsub as [|x L L' Hsub IH|x L L' Hsub IH]; [done| |].
  - apply StronglySorted_inv in Hs as [Hs Hx]. constructor; [by apply IH|]. rewrite Forall_forall in *. intros y Hy. apply Hx. by apply (sublist_subseteq _ _ Hsub).
  - apply StronglySorted_inv in Hs as [Hs _]. by apply IH.
Qed.

Lemma after_sublist its Ls : length its = length Ls → its `sublist_of` after its Ls.
Proof.
  revert Ls. induction its as [|x its IH]; intros [|L Ls] [=]; [constructor|]. rewrite after_cons. constructor.
  change its with ([] ++ its). apply sublist_app; [apply sublist_nil_l|by apply IH].
Qed.

Lemma join_sublist its Ls : Ls = [] ∨ length Ls = S (length its) → its `sublist_of` join its Ls.
Proof.
  intros [->|Hl]; [done|]. destruct Ls as [|L Ls]; [done|]. injection Hl as Hl. cbn. change its with ([] ++ its).
  apply sublist_app; [apply sublist_nil_l|by apply after_sublist].
Qed.

Lemma strict_app_inv L1 L2 : strict (L1 ++ L2) → strict L1 ∧ strict L2.
Proof. by intros (_ & ? & ?)%StronglySorted_app. Qed.

(** ** Inserting and deleting within a part of the list *)
Lemma inserted_within k P L Q :
  Forall (λ y, lt y k = true) P → Forall (λ y, lt k y = true) Q →
  inserted lt k (P ++ L ++ Q) = P ++ inserted lt k L ++ Q ∧ equal lt k (P ++ L ++ Q) = equal lt k L.
Proof.
  intros (HbP & HaP & HeP & _)%filter_below_all (HbQ & HaQ & HeQ & _)%filter_above_all. unfold inserted.
  destruct (parts_app (lt := lt) k P (L ++ Q)) as (-> & -> & -> & _). destruct (parts_app (lt := lt) k L Q) as (-> & -> & -> & _).
  rewrite HbP, HaP, HeP, HbQ, HaQ, HeQ. cbn. by rewrite !app_nil_r, <-!app_assoc.
Qed.

Lemma inserted_nil k P Q :
  Forall (λ y, lt y k = true) P → Forall (λ y, lt k y = true) Q →
  inserted lt k (P ++ Q) = P ++ k :: Q ∧ equal lt k (P ++ Q) = [].
Proof. intros HP HQ. by apply (inserted_within k P [] Q). Qed.

Lemma inserted_equal k x P Q :
  strict (P ++ x :: Q) → lt k x = false → lt x k = false →
  inserted lt k (P ++ x :: Q) = P ++ k :: Q ∧ equal lt k (P ++ x :: Q) = [x] ∧ removed lt k (P ++ x :: Q) = P ++ Q.
Proof. intros Hs H1 H2. destruct (around_equal k x P Q Hs H1 H2) as (Hb & Ha & He). unfold inserted, removed. by rewrite Hb, Ha. Qed.

(** What a call of [remove] takes from the list and what it leaves. *)
Definition taken (typ : toRemove) (item : option A) L : option A :=
  match typ with
  | removeMin => head L
  | removeMax => last L
  | removeItem => k ← item; head (equal lt k L)
  end.

Definition left_over (typ : toRemove) (item : option A) L : list A :=
  match typ with
  | removeMin => tail L
  | removeMax => removelast L
  | removeItem => match item with Some k => removed lt k L | None => L end
  end.

(** The middle part is where the call takes its item from. *)
Definition focus (typ : toRemove) (item : option A) P L Q : Prop :=
  match typ with
  | removeMin => P = [] ∧ L ≠ []
  | removeMax => Q = [] ∧ L ≠ []
  | removeItem => ∃ k, item = Some k ∧ Forall (λ y, lt y k = true) P ∧ Forall (λ y, lt k y = true) Q
  end.

Lemma focus_spec typ item P L Q :
  focus typ item P L Q →
  taken typ item (P ++ L ++ Q) = taken typ item L ∧ left_over typ item (P ++ L ++ Q) = P ++ left_over typ item L ++ Q.
Proof.
  destruct typ; cbn.
  - intros (k & -> & HP & HQ). cbn. destruct (inserted_within k P L Q HP HQ) as [_ ->]. split; [done|].
    apply filter_below_all in HP as (HbP & HaP & _). apply filter_above_all in HQ as (HbQ & HaQ & _). unfold removed.
    destruct (parts_app (lt := lt) k P (L ++ Q)) as (-> & -> & _). destruct (parts_app (lt := lt) k L Q) as (-> & -> & _).
    rewrite HbP, HaP, HbQ, HaQ. cbn. by rewrite !app_nil_r, <-!app_assoc.
  - intros [-> HL]. by destruct L.
  - intros [-> HL]. rewrite !app_nil_r. destruct L as [|x L _] using rev_ind; [done|].
    rewrite app_assoc, !last_snoc, !removelast_last. done.
Qed.
End items.
