(* ===== verification/BTreeLogic.v ===== *)
(** * A separation logic for the memory of B-trees (github.com/google/btree: btree.go)

    Ownership of a node is an element of a ghost map of the memory's nodes: exclusive for a
    node whose context is the tree's own, which the tree may write and free, and discarded,
    so that it never changes again and may be shared, for a node of an older context.  [wp]
    says that an operation returns (it neither panics nor runs out of fuel) and what holds
    then.  The free lists own the nodes in them, which are empty and have no context. *)

From iris.proofmode Require Import proofmode.
From iris.base_logic.lib Require Import ghost_map.
From S2P Require Import Prelude BTree.

Section logic.
Context {A : Type} `{!ghost_mapG Σ addr (node A)}.

(** The ghost map, the number of free lists and the number of contexts. *)
Context (γ : gname) (nf nc : nat).
Implicit Types (l k : addr) (its : list A) (kids : list addr) (σ : mem A).

Definition empty_node : node A := Node [] [] None.

Definition interp σ : iProp Σ :=
  ghost_map_auth γ 1 (heap σ) ∗
  ⌜(∀ l, next σ ≤ l → heap σ !! l = None) ∧ length (freelists σ) = nf ∧ contexts σ = nc⌝ ∗
  [∗ list] f ∈ freelists σ, [∗ list] l ∈ freelist f, l ↪[γ] empty_node.

Definition wp {X} (m : st (mem A) X) (Φ : X → iProp Σ) : iProp Σ :=
  ∀ σ, interp σ ==∗ ∃ x σ', ⌜m σ = Ret x σ'⌝ ∗ interp σ' ∗ Φ x.

Lemma wp_ret {X} (x : X) (Φ : X → iProp Σ) : Φ x -∗ wp (mret x) Φ.
Proof. iIntros "H" (σ) "Hσ !>". iExists x, σ. by iFrame. Qed.

Lemma wp_bind {X Y} (m : st (mem A) X) (f : X → st (mem A) Y) Φ : wp m (λ x, wp (f x) Φ) -∗ wp (m ≫= f) Φ.
Proof.
  iIntros "Hm" (σ) "Hσ". iMod ("Hm" with "Hσ") as (x σ1 E1) "[Hσ Hf]". iMod ("Hf" with "Hσ") as (y σ2 E2) "[Hσ HΦ]".
  iModIntro. iExists y, σ2. iFrame. iPureIntro. unfold mbind, st_bind. by rewrite E1.
Qed.

Lemma wp_wand {X} (m : st (mem A) X) Φ Ψ : wp m Φ -∗ (∀ x, Φ x -∗ Ψ x) -∗ wp m Ψ.
Proof.
  iIntros "Hm HΦ" (σ) "Hσ". iMod ("Hm" with "Hσ") as (x σ1 E1) "[Hσ Hx]". iModIntro. iExists x, σ1. iFrame.
  iSplit; [done|by iApply "HΦ"].
Qed.

Lemma wp_bupd {X} (m : st (mem A) X) Φ : (|==> wp m Φ) -∗ wp m Φ.
Proof. iIntros "Hm" (σ) "Hσ". iMod "Hm". by iApply "Hm". Qed.

Lemma wp_option {X} (o : option X) x (Φ : X → iProp Σ) : o = Some x → Φ x -∗ wp (of_option o) Φ.
Proof. iIntros (->) "H". by iApply wp_ret. Qed.

(** ** Reading and writing nodes *)
Lemma wp_load l dq n Φ : l ↪[γ]{dq} n -∗ (l ↪[γ]{dq} n -∗ Φ n) -∗ wp (load l) Φ.
Proof.
  iIntros "Hl HΦ" (σ) "(Hσ & Hf)". iDestruct (ghost_map_lookup with "Hσ Hl") as %E. iModIntro. iExists n, σ.
  iFrame "Hσ Hf". iSplit; [|by iApply "HΦ"]. iPureIntro. unfold load. by rewrite E.
Qed.

Lemma wp_store l n n' Φ : l ↪[γ] n -∗ (l ↪[γ] n' -∗ Φ ()) -∗ wp (store l n') Φ.
Proof.
  iIntros "Hl HΦ" (σ) "(Hσ & %Hσ & Hf)". iDestruct (ghost_map_lookup with "Hσ Hl") as %E.
  iMod (ghost_map_update n' with "Hσ Hl") as "[Hσ Hl]". iModIntro. iExists (), _. iSplit; [done|].
  iSplitL "Hσ Hf"; [|by iApply "HΦ"]. unfold interp. cbn. iFrame. iPureIntro. destruct Hσ as (Hn & ? & ?). split_and!; [|done..].
  intros l' Hl'. rewrite lookup_insert_ne; [by apply Hn|]. intros <-. by rewrite Hn in E.
Qed.

Lemma wp_alloc Φ : (∀ l, l ↪[γ] empty_node -∗ Φ l) -∗ wp alloc Φ.
Proof.
  iIntros "HΦ" (σ) "(Hσ & %Hσ & Hf)". destruct Hσ as (Hn & ? & ?).
  iMod (ghost_map_insert (next σ) empty_node with "Hσ") as "[Hσ Hl]"; [by apply Hn|]. iModIntro. iExists (next σ), _. iSplit; [done|].
  iSplitR "Hl HΦ"; [|by iApply "HΦ"]. unfold interp. cbn. iFrame. iPureIntro. split_and!; [|done..].
  intros l' Hl'. rewrite lookup_insert_ne; [|lia]. apply Hn. lia.
Qed.

Lemma wp_update_items l its kids cw f its' Φ :
  f its = Some its' → l ↪[γ] Node its kids cw -∗ (l ↪[γ] Node its' kids cw -∗ Φ ()) -∗ wp (update_items l f) Φ.
Proof.
  iIntros (Hf) "Hl HΦ". iApply wp_bind. iApply (wp_load with "Hl"). iIntros "Hl". iApply wp_bind. iApply wp_option; [done|].
  by iApply (wp_store with "Hl").
Qed.

Lemma wp_update_children l its kids cw f kids' Φ :
  f kids = Some kids' → l ↪[γ] Node its kids cw -∗ (l ↪[γ] Node its kids' cw -∗ Φ ()) -∗ wp (update_children l f) Φ.
Proof.
  iIntros (Hf) "Hl HΦ". iApply wp_bind. iApply (wp_load with "Hl"). iIntros "Hl". iApply wp_bind. iApply wp_option; [done|].
  by iApply (wp_store with "Hl").
Qed.

Lemma wp_take_item l its kids cw f x its' Φ :
  f its = Some (x, its') → l ↪[γ] Node its kids cw -∗ (l ↪[γ] Node its' kids cw -∗ Φ x) -∗ wp (take_item l f) Φ.
Proof.
  iIntros (Hf) "Hl HΦ". iApply wp_bind. iApply (wp_load with "Hl"). iIntros "Hl". iApply wp_bind. iApply wp_option; [done|].
  iApply wp_bind. iApply (wp_store with "Hl"). iIntros "Hl". iApply wp_ret. by iApply "HΦ".
Qed.

Lemma wp_take_child l its kids cw f k kids' Φ :
  f kids = Some (k, kids') → l ↪[γ] Node its kids cw -∗ (l ↪[γ] Node its kids' cw -∗ Φ k) -∗ wp (take_child l f) Φ.
Proof.
  iIntros (Hf) "Hl HΦ". iApply wp_bind. iApply (wp_load with "Hl"). iIntros "Hl". iApply wp_bind. iApply wp_option; [done|].
  iApply wp_bind. iApply (wp_store with "Hl"). iIntros "Hl". iApply wp_ret. by iApply "HΦ".
Qed.

(** ** Contexts and free lists *)
Section context.
Context (c : copyOnWriteContext) (Hc : context_freelist c < nf).

(** A node the tree may write, and one it may read. *)
Definition owned l its kids : iProp Σ := l ↪[γ] Node its kids (Some c).

Definition readable l its kids : iProp Σ :=
  owned l its kids ∨ ∃ c', ⌜id c' < id c⌝ ∗ l ↪[γ]□ Node its kids (Some c').

Lemma owned_readable l its kids : owned l its kids -∗ readable l its kids.
Proof. iIntros "H". by iLeft. Qed.

Lemma wp_load_readable l its kids Φ :
  readable l its kids -∗ (∀ cw, readable l its kids -∗ Φ (Node its kids cw)) -∗ wp (load l) Φ.
Proof.
  iIntros "[Hl|(%c' & %Hid & #Hl)] HΦ".
  - iApply (wp_load with "Hl"). iIntros "Hl". iApply "HΦ". by iLeft.
  - iApply (wp_load with "Hl"). iIntros "_". iApply "HΦ". iRight. by iFrame "Hl".
Qed.

Lemma wp_freelist_newNode Φ : (∀ l, l ↪[γ] empty_node -∗ Φ l) -∗ wp (freelist_newNode (context_freelist c)) Φ.
Proof.
  iIntros "HΦ" (σ) "Hσ". iDestruct "Hσ" as "(Hσ & %Hσ & Hf)". destruct Hσ as (Hn & Hnf & Hnc).
  destruct (lookup_lt_is_Some_2 (freelists σ) (context_freelist c)) as [fl Hfl]; [by rewrite Hnf|].
  unfold freelist_newNode, st_get, of_option, mbind, st_bind, mret, st_ret. rewrite Hfl.
  destruct (freelist fl) as [|l0 ls _] eqn:Efl using rev_ind.
  { cbn [length]. iApply (wp_alloc with "HΦ"). iFrame. done. }
  rewrite length_app Nat.add_1_r list_lookup_middle //. cbn.
  iDestruct (big_sepL_insert_acc with "Hf") as "[Hls Hf]"; [done|]. rewrite Efl. iDestruct "Hls" as "[Hls [Hl0 _]]".
  iSpecialize ("Hf" $! {| freelist := ls; capacity := capacity fl |} with "Hls").
  iModIntro. iExists l0, _. iSplit; [done|]. iSplitR "HΦ Hl0"; [|by iApply "HΦ"]. unfold interp. cbn.
  rewrite take_app_length. iFrame. by rewrite length_insert.
Qed.

Lemma wp_newNode Φ : (∀ l, owned l [] [] -∗ Φ l) -∗ wp (newNode (Some c)) Φ.
Proof.
  iIntros "HΦ". iApply wp_bind. iApply wp_option; [done|]. iApply wp_bind. iApply wp_freelist_newNode. iIntros (l) "Hl".
  iApply wp_bind. iApply (wp_load with "Hl"). iIntros "Hl". iApply wp_bind. iApply (wp_store with "Hl"). iIntros "Hl".
  iApply wp_ret. by iApply "HΦ".
Qed.

Lemma wp_freelist_freeNode l Φ : l ↪[γ] empty_node -∗ (∀ b, Φ b) -∗ wp (freelist_freeNode (context_freelist c) l) Φ.
Proof.
  iIntros "Hl HΦ" (σ) "(Hσ & %Hσ & Hf)". destruct Hσ as (Hn & Hnf & Hnc).
  destruct (lookup_lt_is_Some_2 (freelists σ) (context_freelist c)) as [fl Hfl]; [by rewrite Hnf|].
  unfold freelist_freeNode, st_get, of_option, mbind, st_bind, mret, st_ret. rewrite Hfl. case_bool_decide; iModIntro.
  - iExists true, _. iSplit; [done|]. iSplitR "HΦ"; [|by iApply "HΦ"]. unfold interp. cbn.
    iDestruct (big_sepL_insert_acc with "Hf") as "[Hls Hf]"; [done|].
    iSpecialize ("Hf" $! {| freelist := freelist fl ++ [l]; capacity := capacity fl |} with "[Hls Hl]"); [by iFrame|].
    iFrame. by rewrite length_insert.
  - iExists false, _. iSplit; [done|]. iFrame. iSplit; [done|by iApply "HΦ"].
Qed.

Lemma wp_freeNode l its kids Φ : readable l its kids -∗ (∀ r, Φ r) -∗ wp (freeNode (Some c) l) Φ.
Proof.
  iIntros "[Hl|(%c' & %Hid & #Hl)] HΦ"; iApply wp_bind; iApply (wp_load with "Hl"); iIntros "Hl'"; cbn [cow].
  - rewrite bool_decide_eq_true_2 //. iApply wp_bind. iApply (wp_update_items with "Hl'"); [done|]. iIntros "Hl".
    iApply wp_bind. iApply (wp_update_children with "Hl"); [done|]. iIntros "Hl". iApply wp_bind. iApply (wp_load with "Hl"). iIntros "Hl".
    iApply wp_bind. iApply (wp_store with "Hl"). iIntros "Hl". iApply wp_bind. iApply wp_option; [done|].
    iApply wp_bind. iApply (wp_freelist_freeNode with "Hl"). iIntros (b). iApply wp_ret. iApply "HΦ".
  - rewrite bool_decide_eq_false_2; [|intros [= ->]; lia]. iApply wp_ret. iApply "HΦ".
Qed.

Lemma wp_mutableFor l its kids Φ :
  readable l its kids -∗ (∀ l', owned l' its kids -∗ Φ l') -∗ wp (mutableFor l (Some c)) Φ.
Proof.
  iIntros "[Hl|(%c' & %Hid & #Hl)] HΦ"; iApply wp_bind; iApply (wp_load with "Hl"); iIntros "Hl'"; cbn [cow].
  - rewrite bool_decide_eq_true_2 //. iApply wp_ret. by iApply "HΦ".
  - rewrite bool_decide_eq_false_2; [|intros [= ->]; lia]. iApply wp_bind. iApply wp_newNode. iIntros (l') "H".
    iApply wp_bind. iApply (wp_update_items with "H"); [done|]. iIntros "H". iApply wp_bind.
    iApply (wp_update_children with "H"); [done|]. iIntros "H". iApply wp_ret. by iApply "HΦ".
Qed.

(** A child made writable in place. *)
Lemma wp_mutableChild l its kids1 k kids2 its' kids' i Φ :
  i = length kids1 →
  owned l its (kids1 ++ k :: kids2) -∗ readable k its' kids' -∗
  (∀ k', owned l its (kids1 ++ k' :: kids2) -∗ owned k' its' kids' -∗ Φ k') -∗ wp (mutableChild l i) Φ.
Proof.
  iIntros (->) "Hl Hk HΦ". iApply wp_bind. iApply (wp_load with "Hl"). iIntros "Hl". cbn. iApply wp_bind.
  iApply wp_option; [by apply list_lookup_middle|]. iApply wp_bind. iApply (wp_mutableFor with "Hk"). iIntros (k') "Hk".
  iApply wp_bind. iApply (wp_update_children with "Hl").
  { unfold set_at. rewrite bool_decide_eq_true_2; [done|]. rewrite length_app /=. lia. }
  iIntros "Hl". iApply wp_ret. rewrite insert_app_r_alt // Nat.sub_diag /=. by iApply ("HΦ" with "Hl").
Qed.

Lemma wp_child_items l its kids1 k kids2 its' kids' i Φ :
  i = length kids1 →
  owned l its (kids1 ++ k :: kids2) -∗ readable k its' kids' -∗
  (owned l its (kids1 ++ k :: kids2) -∗ readable k its' kids' -∗ Φ (Z.of_nat (length its'))) -∗ wp (child_items l i) Φ.
Proof.
  iIntros (->) "Hl Hk HΦ". iApply wp_bind. iApply (wp_load with "Hl"). iIntros "Hl". cbn [children]. iApply wp_bind.
  iApply wp_option; [by apply list_lookup_middle|]. iApply wp_bind. iApply (wp_load_readable with "Hk"). iIntros (cw') "Hk".
  iApply wp_ret. iApply ("HΦ" with "Hl Hk").
Qed.

End context.
End logic.
