(* ===== verification/BTreeNodes.v ===== *)
(** * Subtrees of B-trees and inserting into them (github.com/google/btree: btree.go)

    [content] describes the nodes below one: all leaves at one depth, a child more than
    items, between [degree - 1] and [2 * degree - 1] items in every child, and the list of
    the items in order.  A [hole] is a node with one of its children taken out, to work on
    the child and put it back. *)

From iris.proofmode Require Import proofmode.
From iris.base_logic.lib Require Import ghost_map.
From S2P Require Import Prelude SortedLists BTree BTreeLists BTreeLogic.

Section nodes.
Context {A : Type} `{!ghost_mapG Σ addr (node A)}.
Context (γ : gname) (c : copyOnWriteContext) (d : nat).
Implicit Types (l k : addr) (its : list A) (kids : list addr) (x y : A) (L P Q : list A) (Ls Ms : list (list A)) (h : nat).

Local Notation owned := (owned γ c).
Local Notation readable := (readable γ c).

(** ** Subtrees of height [h] *)
Fixpoint content h its kids L : iProp Σ :=
  match h with
  | 0 => ⌜kids = [] ∧ L = its⌝
  | S h =>
    ∃ Ls, ⌜length Ls = S (length its) ∧ L = join its Ls⌝ ∗
      [∗ list] k;L' ∈ kids;Ls, ∃ its' kids',
        readable k its' kids' ∗ ⌜d - 1 ≤ length its' ∧ length its' ≤ 2 * d - 1⌝ ∗ content h its' kids' L'
  end.

Definition child h k L : iProp Σ :=
  ∃ its kids, readable k its kids ∗ ⌜d - 1 ≤ length its ∧ length its ≤ 2 * d - 1⌝ ∗ content h its kids L.

Definition is_tree h l L : iProp Σ := ∃ its kids, readable l its kids ∗ content h its kids L.

Local Notation siblings h ks Ls := ([∗ list] k;L' ∈ ks;Ls, child h k L')%I.

Lemma content_S h its kids L :
  content (S h) its kids L ⊣⊢ ∃ Ls, ⌜length Ls = S (length its) ∧ L = join its Ls⌝ ∗ siblings h kids Ls.
Proof. done. Qed.

Lemma content_length h its kids L : content h its kids L ⊢ ⌜length its ≤ length L ∧ (its ≠ [] → L ≠ [])⌝.
Proof.
  assert (length its ≤ length L → its ≠ [] → L ≠ []) as Hne.
  { intros Hl. destruct its; [done|]. intros _ ->. cbn in Hl. lia. }
  destruct h as [|h]; [iIntros "[_ ->]"; iPureIntro; done|]. rewrite content_S. iIntros "(%Ls & [%Hl ->] & _)". iPureIntro.
  split; [|apply Hne]; rewrite length_join //; lia.
Qed.

Lemma content_sublist h its kids L : content h its kids L ⊢ ⌜its `sublist_of` L⌝.
Proof.
  destruct h as [|h]; [by iIntros "[_ ->]"|]. rewrite content_S. iIntros "(%Ls & [%Hl ->] & _)". iPureIntro. apply join_sublist. by right.
Qed.

Lemma content_leaf h its kids L : content h its kids L ⊢ ⌜(length kids = 0 ↔ h = 0) ∧ (h = 0 → kids = [] ∧ L = its)⌝.
Proof.
  destruct h as [|h]; [iIntros "[-> ->]"; iPureIntro; done|]. rewrite content_S. iIntros "(%Ls & [%Hl ->] & H)".
  iDestruct (big_sepL2_length with "H") as %E. iPureIntro. split; [|done]. rewrite E Hl. lia.
Qed.

(** A subtree cut at an item, and put together again. *)
Lemma content_split h its1 x its2 kids L :
  content h (its1 ++ x :: its2) kids L ⊢
  ∃ kids1 kids2 L1 L2, ⌜kids = kids1 ++ kids2 ∧ L = L1 ++ x :: L2 ∧ (h ≠ 0 → length kids1 = S (length its1) ∧ length kids2 = S (length its2))⌝ ∗
    content h its1 kids1 L1 ∗ content h its2 kids2 L2.
Proof.
  destruct h as [|h]; [iIntros "[-> ->]"; iExists [], [], its1, its2; done|]. rewrite content_S. iIntros "(%Ls & [%Hl ->] & H)".
  rewrite length_app /= in Hl. destruct (cut_at (length its1) Ls) as (Ms1 & M & Ms2 & -> & Hl1); [lia|].
  rewrite length_app /= in Hl. destruct Ms2 as [|M' Ms2]; [cbn in Hl; lia|].
  rewrite (cons_middle M Ms1 (M' :: Ms2)). rewrite (assoc_L (++)).
  iDestruct (big_sepL2_app_inv_r with "H") as (kids1 kids2 ->) "[H1 H2]".
  iDestruct (big_sepL2_length with "H1") as %E1. iDestruct (big_sepL2_length with "H2") as %E2. rewrite length_app /= in E1.
  iExists kids1, kids2, (join its1 (Ms1 ++ [M])), (join its2 (M' :: Ms2)). iSplit.
  { iPureIntro. rewrite -(assoc_L (++)) /=. split_and!; [done|by apply join_around|]. cbn in *. intros _. split; lia. }
  iSplitL "H1"; iExists _; iFrame; iPureIntro; (split; [|done]); rewrite ?length_app /=; cbn in *; lia.
Qed.

Lemma content_merge h its1 x its2 kids1 kids2 L1 L2 :
  content h its1 kids1 L1 -∗ content h its2 kids2 L2 -∗ content h (its1 ++ x :: its2) (kids1 ++ kids2) (L1 ++ x :: L2).
Proof.
  destruct h as [|h]; [iIntros "[-> ->] [-> ->]"; done|]. rewrite !content_S.
  iIntros "(%Ls & [%Hl ->] & H) (%Ls' & [%Hl' ->] & H')". iExists (Ls ++ Ls'). rewrite !length_app /=.
  iSplit; [|by iApply (big_sepL2_app with "H H'")]. iPureIntro. split; [lia|].
  destruct Ls as [|M Ms1 _] using rev_ind; [done|]. rewrite length_app /= in Hl. destruct Ls' as [|M' Ms2]; [done|].
  rewrite -(assoc_L (++)) /= join_around //. lia.
Qed.

(** One item in place of another. *)
Lemma content_replace h its1 x y its2 kids L :
  content h (its1 ++ x :: its2) kids L ⊢ ∃ P Q, ⌜L = P ++ x :: Q⌝ ∗ content h (its1 ++ y :: its2) kids (P ++ y :: Q).
Proof.
  iIntros "H". iDestruct (content_split with "H") as (kids1 kids2 L1 L2 (-> & -> & _)) "[H1 H2]". iExists L1, L2. iSplit; [done|].
  iApply (content_merge with "H1 H2").
Qed.

(** ** Nodes with children taken out

    [N] is what is known of the node itself: that it is readable or owned. *)
Definition hole (N : list A → list addr → iProp Σ) h its1 its2 k P Q : iProp Σ :=
  ∃ kids1 kids2 Ms1 Ms2,
    ⌜length kids1 = length its1 ∧ length Ms1 = length its1 ∧ length Ms2 = length its2 ∧
     P = before Ms1 its1 ∧ Q = after its2 Ms2⌝ ∗
    N (its1 ++ its2) (kids1 ++ k :: kids2) ∗ siblings h kids1 Ms1 ∗ siblings h kids2 Ms2.

Definition hole2 (N : list A → list addr → iProp Σ) h its1 x its2 k k' P Q : iProp Σ :=
  ∃ kids1 kids2 Ms1 Ms2,
    ⌜length kids1 = length its1 ∧ length Ms1 = length its1 ∧ length Ms2 = length its2 ∧
     P = before Ms1 its1 ∧ Q = after its2 Ms2⌝ ∗
    N (its1 ++ x :: its2) (kids1 ++ k :: k' :: kids2) ∗ siblings h kids1 Ms1 ∗ siblings h kids2 Ms2.

Lemma hole_open N h its1 its2 kids L :
  N (its1 ++ its2) kids -∗ content (S h) (its1 ++ its2) kids L -∗
  ∃ k P M Q, ⌜L = P ++ M ++ Q⌝ ∗ hole N h its1 its2 k P Q ∗ child h k M.
Proof.
  rewrite content_S. iIntros "HN (%Ls & [%Hl ->] & H)". rewrite length_app in Hl.
  destruct (cut_at (length its1) Ls) as (Ms1 & M & Ms2 & -> & Hl1); [lia|]. rewrite length_app /= in Hl.
  iDestruct (big_sepL2_app_inv_r with "H") as (kids1 kids' ->) "[H1 H2]".
  iDestruct (big_sepL2_cons_inv_r with "H2") as (k kids2 ->) "[Hk H2]". iDestruct (big_sepL2_length with "H1") as %E1.
  iExists k, (before Ms1 its1), M, (after its2 Ms2). rewrite join_at; [|lia]. iSplit; [done|]. iFrame "Hk".
  iExists kids1, kids2, Ms1, Ms2. iFrame. iPureIntro. split_and!; [lia..|done|done].
Qed.

Lemma hole_close N h its1 its2 k P M Q :
  hole N h its1 its2 k P Q -∗ child h k M -∗
  ∃ kids, N (its1 ++ its2) kids ∗ content (S h) (its1 ++ its2) kids (P ++ M ++ Q).
Proof.
  iIntros "(%kids1 & %kids2 & %Ms1 & %Ms2 & (%E1 & %E2 & %E3 & -> & ->) & HN & H1 & H2) Hk". iExists (kids1 ++ k :: kids2). iFrame "HN".
  rewrite content_S. iExists (Ms1 ++ M :: Ms2). iSplit; [|iApply (big_sepL2_app with "H1"); by iFrame].
  iPureIntro. rewrite !length_app /=. split; [lia|]. by rewrite join_at.
Qed.

Lemma hole_next N h its1 x its2 k P Q' :
  hole N h its1 (x :: its2) k P Q' ⊢ ∃ k' M' Q, ⌜Q' = x :: M' ++ Q⌝ ∗ hole2 N h its1 x its2 k k' P Q ∗ child h k' M'.
Proof.
  iIntros "(%kids1 & %kids2 & %Ms1 & %Ms2 & (%E1 & %E2 & %E3 & -> & ->) & HN & H1 & H2)". destruct Ms2 as [|M' Ms2]; [done|].
  iDestruct (big_sepL2_cons_inv_r with "H2") as (k' kids2' ->) "[Hk H2]". iExists k', M', (after its2 Ms2).
  iSplit; [done|]. iFrame "Hk". iExists kids1, kids2', Ms1, Ms2. iFrame. iPureIntro. cbn in E3. split_and!; [lia..|done|done].
Qed.

Lemma hole_left N h its1 x its2 k k' P M' Q :
  hole2 N h its1 x its2 k k' P Q -∗ child h k' M' -∗ hole N h its1 (x :: its2) k P (x :: M' ++ Q).
Proof.
  iIntros "(%kids1 & %kids2 & %Ms1 & %Ms2 & (%E1 & %E2 & %E3 & -> & ->) & HN & H1 & H2) Hk".
  iExists kids1, (k' :: kids2), Ms1, (M' :: Ms2). iFrame. iPureIntro. cbn. split_and!; [lia..|done|done].
Qed.

Lemma hole_prev N h its1 x its2 k' P' Q :
  hole N h (its1 ++ [x]) its2 k' P' Q ⊢ ∃ k M P, ⌜P' = P ++ M ++ [x]⌝ ∗ hole2 N h its1 x its2 k k' P Q ∗ child h k M.
Proof.
  iIntros "(%kids1 & %kids2 & %Ms1 & %Ms2 & (%E1 & %E2 & %E3 & -> & ->) & HN & H1 & H2)". rewrite length_app /= in E1 E2.
  destruct Ms1 as [|M Ms1 _] using rev_ind; [cbn in *; lia|]. rewrite length_app /= in E2.
  iDestruct (big_sepL2_app_inv_r with "H1") as (kids1' kids' ->) "[H1 Hk]".
  iDestruct (big_sepL2_cons_inv_r with "Hk") as (k kids0 ->) "[Hk H0]". iDestruct (big_sepL2_nil_inv_r with "H0") as %->.
  rewrite length_app /= in E1. iExists k, M, (before Ms1 its1). rewrite before_snoc; [|lia]. iSplit; [done|]. iFrame "Hk".
  iExists kids1', kids2, Ms1, Ms2. rewrite -!(assoc_L (++)) /=. iFrame. iPureIntro. split_and!; [lia..|done|done].
Qed.

Lemma hole_right N h its1 x its2 k k' P M Q :
  hole2 N h its1 x its2 k k' P Q -∗ child h k M -∗ hole N h (its1 ++ [x]) its2 k' (P ++ M ++ [x]) Q.
Proof.
  iIntros "(%kids1 & %kids2 & %Ms1 & %Ms2 & (%E1 & %E2 & %E3 & -> & ->) & HN & H1 & H2) Hk".
  iExists (kids1 ++ [k]), kids2, (Ms1 ++ [M]), Ms2. rewrite -!(assoc_L (++)) /= before_snoc //. iFrame. iSplit.
  - iPureIntro. rewrite !length_app /=. split_and!; [lia..|done|done].
  - by iApply big_sepL2_nil.
Qed.

(** The node itself, and an item of it beside the child, taken out and put back. *)
Lemma hole_access N h its1 its2 k P Q :
  hole N h its1 its2 k P Q ⊢
  ∃ kids, ⌜length kids = S (length (its1 ++ its2)) ∧ kids !! length its1 = Some k⌝ ∗ N (its1 ++ its2) kids ∗ (N (its1 ++ its2) kids -∗ hole N h its1 its2 k P Q).
Proof.
  iIntros "(%kids1 & %kids2 & %Ms1 & %Ms2 & %E & HN & H1 & H2)".
  iDestruct (big_sepL2_length with "H2") as %E2. iExists _. iFrame "HN". iSplit.
  - iPureIntro. split; [rewrite !length_app /=; lia|]. destruct E as [<- _]. by apply list_lookup_middle.
  - iIntros "HN". iExists kids1, kids2, Ms1, Ms2. by iFrame.
Qed.

Lemma hole_item N h its1 x its2 k P Q' :
  hole N h its1 (x :: its2) k P Q' ⊢
  ∃ kids Q, ⌜Q' = x :: Q⌝ ∗ N (its1 ++ x :: its2) kids ∗ (∀ y, N (its1 ++ y :: its2) kids -∗ hole N h its1 (y :: its2) k P (y :: Q)).
Proof.
  iIntros "(%kids1 & %kids2 & %Ms1 & %Ms2 & (%E1 & %E2 & %E3 & -> & ->) & HN & H1 & H2)". destruct Ms2 as [|M' Ms2]; [done|].
  iExists _, (M' ++ after its2 Ms2). iSplit; [done|]. iFrame "HN". iIntros (y) "HN". iExists kids1, kids2, Ms1, (M' :: Ms2). by iFrame.
Qed.

Lemma hole2_item N h its1 x its2 k k' P Q :
  hole2 N h its1 x its2 k k' P Q ⊢
  ∃ kids, N (its1 ++ x :: its2) kids ∗ (∀ y, N (its1 ++ y :: its2) kids -∗ hole2 N h its1 y its2 k k' P Q).
Proof.
  iIntros "(%kids1 & %kids2 & %Ms1 & %Ms2 & %E & HN & H1 & H2)". iExists _. iFrame "HN". iIntros (y) "HN".
  iExists kids1, kids2, Ms1, Ms2. by iFrame.
Qed.

End nodes.
