(* ===== verification/BTreeInsert.v ===== *)
(** * Inserting into a subtree (github.com/google/btree: btree.go)

    [split], [maybeSplitChild] and [insert]: a node with room for an item takes the item in
    its subtree, and has at most one item more then. *)

From iris.proofmode Require Import proofmode.
From iris.base_logic.lib Require Import ghost_map.
From S2P Require Import Prelude SortedLists BTree BTreeLists BTreeLogic BTreeNodes.

(** The limits as the code computes them. *)
Definition max_items (d : nat) : Z := Z.of_nat (2 * d - 1).
Definition min_items (d : nat) : Z := Z.of_nat (d - 1).

Lemma max_items_half d : 2 ≤ d → Z.quot (max_items d) 2 = Z.of_nat (d - 1).
Proof. intros Hd. unfold max_items. rewrite Z.quot_div_nonneg; [|lia|lia]. symmetry. apply (Z.div_unique _ _ _ 1); lia. Qed.

Section insert.
Context {A : Type} `{!ghost_mapG Σ addr (node A)} {lt : A → A → bool} `{!strict_weak_order lt}.
Context (γ : gname) (nf nc : nat) (c : copyOnWriteContext) (Hc : context_freelist c < nf) (d : nat) (Hd : 2 ≤ d).
Implicit Types (l k : addr) (its : list A) (kids : list addr) (x y key : A) (L P Q : list A) (h : nat).

Local Notation wp := (wp γ nf nc).
Local Notation owned := (owned γ c).
Local Notation readable := (readable γ c).
Local Notation content := (content γ c d).
Local Notation child := (child γ c d).
Local Notation is_tree := (is_tree γ c d).
Local Notation hole := (hole γ c d).
Local Notation hole2 := (hole2 γ c d).
Local Notation strict := (strict lt).
Local Notation max_items := (max_items d).

(** The order of the items of a node carries over to the lists around a child. *)
Lemma hole_order N h its1 its2 k P M Q :
  strict (P ++ M ++ Q) →
  hole N h its1 its2 k P Q ⊢
  ⌜(∀ key, Forall (λ y, lt y key = true) its1 → Forall (λ y, lt y key = true) P) ∧
   (∀ key, Forall (λ y, lt key y = true) its2 → Forall (λ y, lt key y = true) Q) ∧
   (its1 = [] → P = []) ∧ (its2 = [] → Q = [])⌝.
Proof.
  iIntros (Hs) "(%kids1 & %kids2 & %Ms1 & %Ms2 & (%E1 & %E2 & %E3 & -> & ->) & _)". iPureIntro.
  apply strict_app_inv in Hs as [HP [_ HQ]%strict_app_inv]. split_and!.
  - intros key. by apply before_below.
  - intros key. by apply after_above.
  - intros ->. by destruct Ms1.
  - by intros ->.
Qed.

Lemma wp_hole_child l h its1 its2 k P Q its kids Φ :
  hole (owned l) h its1 its2 k P Q -∗ readable k its kids -∗
  (∀ k', hole (owned l) h its1 its2 k' P Q -∗ owned k' its kids -∗ Φ k') -∗ wp (mutableChild l (length its1)) Φ.
Proof.
  iIntros "(%kids1 & %kids2 & %Ms1 & %Ms2 & %E & HN & H1 & H2) Hk HΦ". iApply (wp_mutableChild with "HN Hk"); [done|by destruct E as [-> _]|].
  iIntros (k') "HN Hk". iApply ("HΦ" with "[HN H1 H2] Hk"). iExists kids1, kids2, Ms1, Ms2. by iFrame.
Qed.

Lemma wp_hole_items l h its1 its2 k P Q its kids Φ :
  hole (owned l) h its1 its2 k P Q -∗ readable k its kids -∗
  (hole (owned l) h its1 its2 k P Q -∗ readable k its kids -∗ Φ (Z.of_nat (length its))) -∗ wp (child_items l (length its1)) Φ.
Proof.
  iIntros "(%kids1 & %kids2 & %Ms1 & %Ms2 & %E & HN & H1 & H2) Hk HΦ". iApply (wp_child_items with "HN Hk"); [by destruct E as [-> _]|].
  iIntros "HN Hk". iApply ("HΦ" with "[HN H1 H2] Hk"). iExists kids1, kids2, Ms1, Ms2. by iFrame.
Qed.

Lemma wp_split h l its1 x its2 kids L Φ :
  owned l (its1 ++ x :: its2) kids -∗ content h (its1 ++ x :: its2) kids L -∗
  (∀ l' kids1 kids2 L1 L2, ⌜L = L1 ++ x :: L2⌝ -∗ owned l its1 kids1 -∗ content h its1 kids1 L1 -∗
     owned l' its2 kids2 -∗ content h its2 kids2 L2 -∗ Φ (x, l')) -∗
  wp (node_split l (length its1)) Φ.
Proof.
  iIntros "Hl Hn HΦ". iDestruct (content_split with "Hn") as (kids1 kids2 L1 L2 (-> & -> & Hk)) "[H1 H2]".
  iDestruct (content_leaf with "H1") as %[Hl1 Hl1']. iDestruct (content_leaf with "H2") as %[_ Hl2'].
  iApply wp_bind. iApply (wp_load with "Hl"). iIntros "Hl". cbn [items children cow]. iApply wp_bind.
  iApply wp_option; [by apply list_lookup_middle|]. iApply wp_bind. iApply wp_newNode; [done|]. iIntros (l') "Hl'".
  iApply wp_bind. iApply (wp_update_items with "Hl'"); [done|]. iIntros "Hl'".
  iApply wp_bind. iApply (wp_update_items with "Hl"); [by apply truncate_app|]. iIntros "Hl".
  rewrite (cons_middle x its1 its2) (assoc_L (++)) drop_app_length' /=; [|rewrite length_app /=; lia].
  destruct (decide (h = 0)) as [->|Hh].
  - destruct Hl1' as [-> ->]; [done|]. destruct Hl2' as [-> ->]; [done|]. rewrite bool_decide_eq_false_2 /=; [|lia].
    iApply wp_bind. iApply wp_ret. iApply wp_ret. by iApply ("HΦ" with "[//] Hl H1 Hl' H2").
  - destruct Hk as [Hk1 Hk2]; [done|]. rewrite bool_decide_eq_true_2; [|rewrite length_app; lia].
    iApply wp_bind. iApply wp_bind. iApply (wp_update_children with "Hl'").
    { rewrite bool_decide_eq_true_2; [done|]. rewrite length_app. lia. }
    iIntros "Hl'". iApply (wp_update_children with "Hl"); [by apply truncate_app|]. iIntros "Hl".
    rewrite -Hk1 drop_app_length /=. iApply wp_ret. by iApply ("HΦ" with "[//] Hl H1 Hl' H2").
Qed.

Lemma wp_of_int n (Φ : nat → iProp Σ) : Φ n -∗ wp (of_int (Z.of_nat n)) Φ.
Proof. iIntros "H". unfold of_int. rewrite bool_decide_eq_false_2; [|apply Z.nlt_ge, Nat2Z.is_nonneg]. rewrite Nat2Z.id. by iApply wp_ret. Qed.

(** A child that has no room is split in two that have. *)
Lemma wp_maybeSplitChild l h its1 its2 k P M Q Φ :
  hole (owned l) h its1 its2 k P Q -∗ child h k M -∗
  ((∀ its kids, ⌜d - 1 ≤ length its ∧ length its < 2 * d - 1⌝ -∗
      hole (owned l) h its1 its2 k P Q -∗ readable k its kids -∗ content h its kids M -∗ Φ false) ∧
   (∀ k1 k2 x its its' kids kids' L L', ⌜M = L ++ x :: L' ∧ length its = d - 1 ∧ length its' = d - 1⌝ -∗
      hole2 (owned l) h its1 x its2 k1 k2 P Q -∗
      readable k1 its kids -∗ content h its kids L -∗ readable k2 its' kids' -∗ content h its' kids' L' -∗ Φ true)) -∗
  wp (maybeSplitChild l (length its1) max_items) Φ.
Proof.
  iIntros "Hh (%its & %kids & Hk & %Hb & Hn) HΦ". iApply wp_bind. iApply (wp_hole_items with "Hh Hk"). iIntros "Hh Hk".
  unfold max_items at 1. case_bool_decide.
  { iApply wp_ret. iDestruct "HΦ" as "[HΦ _]". iApply ("HΦ" with "[] Hh Hk Hn"). iPureIntro. lia. }
  iApply wp_bind. iApply (wp_hole_child with "Hh Hk"). iIntros (k1) "Hh Hk". rewrite max_items_half //. iApply wp_bind. iApply wp_of_int.
  destruct (cut_at (d - 1) its) as (a & x & b & -> & Ha); [lia|]. rewrite length_app /= in Hb H. rewrite -Ha. iApply wp_bind.
  iApply (wp_split with "Hk Hn"). iIntros (k2 kidsa kidsb La Lb ->) "Hk1 Hn1 Hk2 Hn2".
  iDestruct "Hh" as "(%kids1 & %kids2 & %Ms1 & %Ms2 & %E & HN & H1 & H2)".
  iApply wp_bind. iApply (wp_update_items with "HN"); [by apply insertAt_app|]. iIntros "HN".
  iApply wp_bind. rewrite (cons_middle k1 kids1 kids2) (assoc_L (++)).
  iApply (wp_update_children with "HN"); [apply insertAt_app; rewrite length_app /=; lia|]. iIntros "HN". iApply wp_ret.
  iDestruct "HΦ" as "[_ HΦ]". iApply ("HΦ" with "[] [HN H1 H2] [Hk1] Hn1 [Hk2] Hn2").
  - iPureIntro. split; [done|]. lia.
  - iExists kids1, kids2, Ms1, Ms2. rewrite -(assoc_L (++)) /=. by iFrame.
  - by iLeft.
  - by iLeft.
Qed.

(** What [insert] does in a subtree of height [h]. *)
Definition insert_spec h : Prop := ∀ fuel l its kids L key Φ,
  h < fuel → strict L → length its < 2 * d - 1 →
  owned l its kids -∗ content h its kids L -∗
  (∀ its' kids', ⌜length its ≤ length its' ∧ length its' ≤ S (length its)⌝ -∗
     owned l its' kids' -∗ content h its' kids' (inserted lt key L) -∗ Φ (head (equal lt key L))) -∗
  wp (node_insert lt fuel l key max_items) Φ.

Lemma wp_insert_child h fuel l its1 its2 k P Q its kids M key Φ :
  insert_spec h → h < fuel → strict (P ++ M ++ Q) → d - 1 ≤ length its → length its < 2 * d - 1 →
  Forall (λ y, lt y key = true) its1 → Forall (λ y, lt key y = true) its2 →
  hole (owned l) h its1 its2 k P Q -∗ readable k its kids -∗ content h its kids M -∗
  (∀ kids', owned l (its1 ++ its2) kids' -∗ content (S h) (its1 ++ its2) kids' (inserted lt key (P ++ M ++ Q)) -∗
     Φ (head (equal lt key (P ++ M ++ Q)))) -∗
  wp (k' ← mutableChild l (length its1); node_insert lt fuel k' key max_items) Φ.
Proof.
  iIntros (IH Hf Hs Hlo Hhi H1 H2) "Hh Hk Hn HΦ". iDestruct (hole_order with "Hh") as %(HP & HQ & _); [done|].
  destruct (inserted_within key P M Q (HP key H1) (HQ key H2)) as [-> ->].
  iApply wp_bind. iApply (wp_hole_child with "Hh Hk"). iIntros (k') "Hh Hk".
  apply strict_app_inv in Hs as [_ [Hs _]%strict_app_inv]. iApply (IH with "Hk Hn"); [done..|]. iIntros (its' kids' Hl) "Hk Hn".
  iDestruct (hole_close with "Hh [Hk Hn]") as (kids'') "[HN Hn]".
  { iExists its', kids'. iFrame "Hn". iSplitL; [by iLeft|]. iPureIntro. lia. }
  iApply ("HΦ" with "HN Hn").
Qed.

(** The item is in the node itself. *)
Lemma wp_replace_item h l its1 x its2 kids L key Φ :
  strict L → lt x key = false → lt key x = false →
  owned l (its1 ++ x :: its2) kids -∗ content h (its1 ++ x :: its2) kids L -∗
  (owned l (its1 ++ key :: its2) kids -∗ content h (its1 ++ key :: its2) kids (inserted lt key L) -∗ Φ (head (equal lt key L))) -∗
  wp (update_items l (set_at (length its1) key);; mret (Some x)) Φ.
Proof.
  iIntros (Hs Hx1 Hx2) "Hl Hn HΦ". iDestruct (content_replace _ _ _ _ _ _ key with "Hn") as (P Q ->) "Hn".
  destruct (inserted_equal key x P Q Hs Hx2 Hx1) as (-> & -> & _).
  iApply wp_bind. iApply (wp_update_items with "Hl"); [by apply set_at_app|]. iIntros "Hl". iApply wp_ret. iApply ("HΦ" with "Hl Hn").
Qed.

Lemma wp_insert_leaf fuel l its kids L key Φ :
  strict L →
  owned l its kids -∗ content 0 its kids L -∗
  (∀ its' kids', ⌜length its ≤ length its' ∧ length its' ≤ S (length its)⌝ -∗
     owned l its' kids' -∗ content 0 its' kids' (inserted lt key L) -∗ Φ (head (equal lt key L))) -∗
  wp (node_insert lt (S fuel) l key max_items) Φ.
Proof.
  iIntros (Hs) "Hl [-> ->] HΦ". cbn [node_insert]. iApply wp_bind. iApply (wp_load with "Hl"). iIntros "Hl". cbn [items children].
  destruct (find_spec its key Hs) as (i1 & i2 & -> & Hi1 & [[Hf Hi2]|(x & i3 & -> & Hf & Hx1 & Hx2 & Hi3)]);
    iApply wp_bind; (iApply wp_option; [done|]); cbn [fst snd].
  - destruct (inserted_nil key i1 i2 Hi1 Hi2) as [-> ->]. rewrite bool_decide_eq_true_2 //.
    iApply wp_bind. iApply (wp_update_items with "Hl"); [by apply insertAt_app|]. iIntros "Hl". iApply wp_ret.
    iApply ("HΦ" with "[] Hl [//]"). iPureIntro. rewrite !length_app /=. lia.
  - iApply wp_bind. iApply wp_option; [by apply list_lookup_middle|]. iApply (wp_replace_item 0 with "Hl"); [done..|].
    iIntros "Hl Hn". iApply ("HΦ" with "[] Hl Hn"). iPureIntro. rewrite !length_app /=. lia.
Qed.

Lemma wp_insert_inner h fuel l its kids L key Φ :
  insert_spec h → h < fuel → strict L → length its < 2 * d - 1 →
  owned l its kids -∗ content (S h) its kids L -∗
  (∀ its' kids', ⌜length its ≤ length its' ∧ length its' ≤ S (length its)⌝ -∗
     owned l its' kids' -∗ content (S h) its' kids' (inserted lt key L) -∗ Φ (head (equal lt key L))) -∗
  wp (node_insert lt (S fuel) l key max_items) Φ.
Proof.
  iIntros (IH Hf Hs Hroom) "Hl Hn HΦ". cbn [node_insert]. iApply wp_bind. iApply (wp_load with "Hl"). iIntros "Hl". cbn [items children].
  iDestruct (content_leaf with "Hn") as %[Hleaf _]. iDestruct (content_sublist with "Hn") as %Hsub.
  destruct (find_spec its key (strict_sublist _ _ Hsub Hs)) as (i1 & i2 & -> & Hi1 & [[Hfi Hi2]|(x & i3 & -> & Hfi & Hx1 & Hx2 & Hi3)]);
    iApply wp_bind; (iApply wp_option; [done|]); cbn [fst snd]; last first.
  { iApply wp_bind. iApply wp_option; [by apply list_lookup_middle|]. iApply (wp_replace_item with "Hl Hn"); [done..|].
    iIntros "Hl Hn". iApply ("HΦ" with "[] Hl Hn"). iPureIntro. rewrite !length_app /=. lia. }
  rewrite bool_decide_eq_false_2; [|naive_solver]. iDestruct (hole_open _ _ _ (owned l) with "Hl Hn") as (k P M Q ->) "[Hh Hk]".
  iApply wp_bind. iApply (wp_maybeSplitChild with "Hh Hk"). iSplit.
  - iIntros (its' kids' [Hlo Hhi]) "Hh Hk Hn". iApply (wp_insert_child with "Hh Hk Hn"); [done..|].
    iIntros (kids'') "Hl Hn". iApply ("HΦ" with "[] Hl Hn"). iPureIntro. lia.
  - iIntros (k1 k2 x a b kidsa kidsb La Lb (-> & Ha & Hb)) "Hh Hk1 Hn1 Hk2 Hn2".
    iDestruct (hole2_item with "Hh") as (kids') "[Hl Hh]".
    iApply wp_bind. iApply (wp_load with "Hl"). iIntros "Hl". iSpecialize ("Hh" with "Hl"). cbn [items]. iApply wp_bind.
    iApply wp_option; [by apply list_lookup_middle|].
    assert (P ++ (La ++ x :: Lb) ++ Q = P ++ La ++ x :: Lb ++ Q) as E1 by by rewrite -!(assoc_L (++)).
    assert (P ++ (La ++ x :: Lb) ++ Q = (P ++ La ++ [x]) ++ Lb ++ Q) as E2 by by rewrite -!(assoc_L (++)).
    destruct (lt key x) eqn:Hx1; [|destruct (lt x key) eqn:Hx2].
    + iDestruct (hole_left with "Hh [Hk2 Hn2]") as "Hh"; [iExists b, kidsb; iFrame; iPureIntro; lia|]. rewrite E1 in Hs *.
      iApply (wp_insert_child with "Hh Hk1 Hn1"); [done|done|done|lia|lia|done|by constructor|].
      iIntros (kids'') "Hl Hn". iApply ("HΦ" with "[] Hl Hn"). iPureIntro. rewrite !length_app /=. lia.
    + iDestruct (hole_right with "Hh [Hk1 Hn1]") as "Hh"; [iExists a, kidsa; iFrame; iPureIntro; lia|]. rewrite E2 in Hs *.
      replace (S (length i1)) with (length (i1 ++ [x])); [|rewrite length_app /=; lia].
      iApply (wp_insert_child with "Hh Hk2 Hn2"); [done|done|done|lia|lia|apply Forall_app; split; [done|by constructor]|done|].
      iIntros (kids'') "Hl Hn". iApply ("HΦ" with "[] Hl Hn"). iPureIntro. rewrite !length_app /=. lia.
    + iDestruct (hole_left with "Hh [Hk2 Hn2]") as "Hh"; [iExists b, kidsb; iFrame; iPureIntro; lia|].
      iDestruct (hole_close with "Hh [Hk1 Hn1]") as (kids'') "[Hl Hn]"; [iExists a, kidsa; iFrame; iPureIntro; lia|]. rewrite E1 in Hs *.
      iApply (wp_replace_item with "Hl Hn"); [done..|]. iIntros "Hl Hn". iApply ("HΦ" with "[] Hl Hn"). iPureIntro. rewrite !length_app /=. lia.
Qed.

Lemma wp_node_insert h : insert_spec h.
Proof.
  induction h as [|h IH]; intros [|fuel] l its kids L key Φ Hf Hs Hroom; try lia.
  - by apply wp_insert_leaf.
  - apply wp_insert_inner; [done|lia|done|done].
Qed.
End insert.
