(* ===== verification/BTreeRemove.v ===== *)
(** * Deleting from a subtree (github.com/google/btree: btree.go)

    [growChildAndRemove] and [remove].  Growing a child (from a sibling, or by merging the
    two) keeps the list of the subtree, and the call that follows finds the child it grew. *)

From iris.proofmode Require Import proofmode.
From iris.base_logic.lib Require Import ghost_map.
From S2P Require Import Prelude SortedLists BTree BTreeLists BTreeLogic BTreeNodes BTreeInsert.

Section remove.
Context {A : Type} `{!ghost_mapG Σ addr (node A)} {lt : A → A → bool} `{!strict_weak_order lt}.
Context (γ : gname) (nf nc : nat) (c : copyOnWriteContext) (Hc : context_freelist c < nf) (d : nat) (Hd : 2 ≤ d).
Implicit Types (l k : addr) (its : list A) (kids : list addr) (x y : A) (item : option A) (L M P Q T : list A) (h : nat) (found : bool).

Local Notation wp := (wp γ nf nc).
Local Notation owned := (owned γ c).
Local Notation readable := (readable γ c).
Local Notation content := (content γ c d).
Local Notation child := (child γ c d).
Local Notation hole := (hole γ c d).
Local Notation hole2 := (hole2 γ c d).
Local Notation strict := (strict lt).
Local Notation min_items := (min_items d).
Local Notation remove_ fuel := (λ k item typ, node_remove lt fuel k item min_items typ).

(** ** Where a call of [remove] goes on *)
Definition position typ item its1 its2 found : Prop :=
  match typ with
  | removeMin => its1 = [] ∧ found = false
  | removeMax => its2 = [] ∧ found = false
  | removeItem =>
    ∃ key : A, item = Some key ∧ Forall (λ y, lt y key = true) its1 ∧
      if found then ∃ x its3, its2 = x :: its3 ∧ lt x key = false ∧ lt key x = false ∧ Forall (λ y, lt key y = true) its3
      else Forall (λ y, lt key y = true) its2
  end.

Lemma position_exists typ item its :
  strict its → (typ = removeItem → is_Some item) → ∃ its1 its2 found, its = its1 ++ its2 ∧ position typ item its1 its2 found.
Proof.
  intros Hs Hi. destruct typ.
  - destruct Hi as [k ->]; [done|]. destruct (find_spec its k Hs) as (i1 & i2 & -> & H1 & [[_ H2]|(x & i3 & -> & _ & H)]).
    + exists i1, i2, false. split; [done|]. by exists k.
    + exists i1, (x :: i3), true. split; [done|]. exists k. split_and!; [done..|]. by exists x, i3.
  - by exists [], its, false.
  - exists its, [], false. by rewrite app_nil_r.
Qed.

(** After an item was stolen from the left or from the right, or two children were merged. *)
Lemma position_left typ item its1 x y its2 found :
  lt y x = true → position typ item (its1 ++ [x]) its2 found → position typ item (its1 ++ [y]) its2 found.
Proof.
  intros Hyx. destruct typ; cbn; [|by intros [? _]; destruct its1|done].
  intros (k & -> & [H1 Hx]%Forall_app & H2). exists k. split_and!; [done| |done]. apply Forall_app. split; [done|].
  constructor; [|done]. apply Forall_cons in Hx as [Hx _]. by apply (lt_trans y x k).
Qed.

Lemma position_merge_left typ item its1 x found :
  position typ item (its1 ++ [x]) [] found → position typ item its1 [] false.
Proof.
  destruct typ; cbn; [|by intros [? _]; destruct its1|naive_solver]. intros (k & -> & [H1 _]%Forall_app & _). by exists k.
Qed.

Lemma position_merge_right typ item its1 x its2 found :
  position typ item its1 (x :: its2) found → position typ item its1 its2 false.
Proof.
  destruct typ; cbn; [|by intros [-> _]|by intros [? _]]. intros (k & -> & H1 & H2). exists k. split_and!; [done..|].
  destruct found; [by destruct H2 as (x' & its3 & [= -> ->] & _ & _ & ?)|by apply Forall_cons in H2 as [_ ?]].
Qed.

Lemma position_right typ item its1 x y its2 found :
  lt x y = true → position typ item its1 (x :: its2) found → position typ item its1 (y :: its2) false.
Proof.
  intros Hxy. destruct typ; cbn; [|by intros [-> _]|by intros [? _]]. intros (k & -> & H1 & H2). exists k. split_and!; [done..|].
  destruct found; [destruct H2 as (x' & its3 & [= -> ->] & Hx1 & Hx2 & H3)|apply Forall_cons in H2 as [Hx H3]]; constructor; try done.
  - by apply (le_lt k x' y).
  - by apply (lt_trans k x y).
Qed.

(** ** Two neighbouring children *)
Lemma wp_hole2_left l h its1 x its2 k k' P Q its kids Φ :
  hole2 (owned l) h its1 x its2 k k' P Q -∗ readable k its kids -∗
  (∀ k0, hole2 (owned l) h its1 x its2 k0 k' P Q -∗ owned k0 its kids -∗ Φ k0) -∗ wp (mutableChild l (length its1)) Φ.
Proof.
  iIntros "(%kids1 & %kids2 & %Ms1 & %Ms2 & %E & HN & H1 & H2) Hk HΦ". iApply (wp_mutableChild with "HN Hk"); [done|by destruct E as [-> _]|].
  iIntros (k0) "HN Hk". iApply ("HΦ" with "[HN H1 H2] Hk"). iExists kids1, kids2, Ms1, Ms2. by iFrame.
Qed.

Lemma wp_hole2_right l h its1 x its2 k k' P Q its kids Φ :
  hole2 (owned l) h its1 x its2 k k' P Q -∗ readable k' its kids -∗
  (∀ k0, hole2 (owned l) h its1 x its2 k k0 P Q -∗ owned k0 its kids -∗ Φ k0) -∗ wp (mutableChild l (S (length its1))) Φ.
Proof.
  iIntros "(%kids1 & %kids2 & %Ms1 & %Ms2 & %E & HN & H1 & H2) Hk HΦ". rewrite (cons_middle k kids1) (assoc_L (++)).
  iApply (wp_mutableChild with "HN Hk"); [done|rewrite length_app /=; lia|].
  iIntros (k0) "HN Hk". iApply ("HΦ" with "[HN H1 H2] Hk"). iExists kids1, kids2, Ms1, Ms2. rewrite -(assoc_L (++)). by iFrame.
Qed.

(** ** Growing a child

    What growing leaves behind: the list [T] is as it was, and the position leads to a
    child with an item to spare. *)
Definition grown l h typ item n T : iProp Σ :=
  ∃ its1 its2 found k P M Q its kids,
    ⌜T = P ++ M ++ Q ∧ position typ item its1 its2 found ∧ d - 1 < length its ∧ length its ≤ 2 * d - 1 ∧
     n - 1 ≤ length (its1 ++ its2) ∧ length (its1 ++ its2) ≤ n⌝ ∗
    hole (owned l) h its1 its2 k P Q ∗ readable k its kids ∗ content h its kids M.

Lemma wp_steal_left l h its1 x its2 k k' P Q its kids M its' kids' M' typ item found :
  strict (P ++ M ++ x :: M' ++ Q) → position typ item (its1 ++ [x]) its2 found →
  d - 1 < length its → length its ≤ 2 * d - 1 → d - 1 = length its' →
  hole2 (owned l) h its1 x its2 k k' P Q -∗
  readable k its kids -∗ content h its kids M -∗ readable k' its' kids' -∗ content h its' kids' M' -∗
  wp (steal_left l (S (length its1))) (λ _, grown l h typ item (length (its1 ++ x :: its2)) (P ++ M ++ x :: M' ++ Q)).
Proof.
  iIntros (Hs Hpos Hlo Hhi Hn) "Hh Hk Hn Hk' Hn'". unfold steal_left. rewrite /= Nat.sub_0_r.
  iApply wp_bind. iApply (wp_hole2_right with "Hh Hk'"). iIntros (k1') "Hh Hk'".
  iApply wp_bind. iApply (wp_hole2_left with "Hh Hk"). iIntros (k1) "Hh Hk".
  destruct its as [|y b _] using rev_ind; [cbn in Hlo; lia|]. rewrite length_app /= in Hlo Hhi.
  iDestruct (content_split with "Hn") as (kb kb' L1 L2 (-> & -> & Hkb)) "[Hn Hn2]".
  iAssert ⌜h = 0 → (kb = [] ∧ L1 = b) ∧ kb' = [] ∧ L2 = []⌝%I as %Hkb'.
  { iDestruct (content_leaf with "Hn") as %[_ H1]. iDestruct (content_leaf with "Hn2") as %[_ H2]. iPureIntro. naive_solver. }
  iApply wp_bind. iApply (wp_take_item with "Hk"); [apply pop_snoc|]. iIntros "Hk".
  iDestruct (hole2_item with "Hh") as (kids0) "[Hl Hh]". iApply wp_bind. iApply (wp_load with "Hl"). iIntros "Hl". cbn [items].
  iApply wp_bind. iApply wp_option; [by apply list_lookup_middle|].
  iApply wp_bind. iApply (wp_update_items with "Hk'"); [by apply (insertAt_app 0 x [] its')|]. iIntros "Hk'".
  iApply wp_bind. iApply (wp_update_items with "Hl"); [by apply set_at_app|]. iIntros "Hl". iSpecialize ("Hh" with "Hl").
  iApply wp_bind. iApply (wp_load with "Hk"). iIntros "Hk". cbn [children].
  assert (lt y x = true) as Hyx.
  { rewrite -!(assoc_L (++)) /= in Hs. apply strict_app_inv in Hs as [_ (_ & _ & _ & Hy)%strict_app_inv%proj2%(sorted_around _ [])].
    rewrite Forall_forall in Hy. apply Hy. set_solver. }
  iAssert (owned k1 b kb -∗ owned k1' (x :: its') (kb' ++ kids') -∗
    grown l h typ item (length (its1 ++ x :: its2)) (P ++ (L1 ++ y :: L2) ++ x :: M' ++ Q))%I with "[Hh Hn Hn2 Hn']" as "HΦ".
  { iIntros "Hk Hk'". iDestruct (hole_right with "Hh [Hk Hn]") as "Hh"; [iExists b, kb; iFrame "Hn"; iSplitL; [by iLeft|iPureIntro; lia]|].
    iExists (its1 ++ [y]), its2, found, k1', (P ++ L1 ++ [y]), (L2 ++ x :: M'), Q, (x :: its'), (kb' ++ kids').
    iFrame "Hh". iDestruct (content_merge _ _ _ _ [] x its' with "Hn2 Hn'") as "$". iSplit; [|by iLeft].
    iPureIntro. rewrite !length_app /=. split_and!; [by rewrite -!(assoc_L (++))|by apply (position_left _ _ _ x)|lia..]. }
  destruct (decide (h = 0)) as [->|Hh].
  - destruct Hkb' as [[-> _] [-> _]]; [done|]. rewrite bool_decide_eq_false_2; [|cbn; lia]. iApply wp_ret. iApply ("HΦ" with "Hk Hk'").
  - destruct Hkb as [_ Hkb]; [done|]. destruct kb' as [|kk [|]]; [done| |done]. rewrite bool_decide_eq_true_2; [|rewrite length_app /=; lia].
    iApply wp_bind. iApply (wp_take_child with "Hk"); [apply pop_snoc|]. iIntros "Hk".
    iApply (wp_update_children with "Hk'"); [by apply (insertAt_app 0 kk [] kids')|]. iIntros "Hk'". iApply ("HΦ" with "Hk Hk'").
Qed.

Lemma wp_steal_right l h its1 x its2 k k' P Q its kids M its' kids' M' typ item found :
  strict (P ++ M ++ x :: M' ++ Q) → position typ item its1 (x :: its2) found →
  d - 1 = length its → d - 1 < length its' → length its' ≤ 2 * d - 1 →
  hole2 (owned l) h its1 x its2 k k' P Q -∗
  readable k its kids -∗ content h its kids M -∗ readable k' its' kids' -∗ content h its' kids' M' -∗
  wp (steal_right l (length its1)) (λ _, grown l h typ item (length (its1 ++ x :: its2)) (P ++ M ++ x :: M' ++ Q)).
Proof.
  iIntros (Hs Hpos Hn Hlo Hhi) "Hh Hk Hn Hk' Hn'". unfold steal_right.
  iApply wp_bind. iApply (wp_hole2_left with "Hh Hk"). iIntros (k1) "Hh Hk".
  iApply wp_bind. iApply (wp_hole2_right with "Hh Hk'"). iIntros (k1') "Hh Hk'".
  destruct its' as [|y b]; [cbn in Hlo; lia|]. cbn [length] in Hlo, Hhi.
  iDestruct (content_split _ _ _ _ [] with "Hn'") as (kb kb' L1 L2 (-> & -> & Hkb)) "[Hn1 Hn']".
  iAssert ⌜h = 0 → (kb = [] ∧ L1 = []) ∧ kb' = [] ∧ L2 = b⌝%I as %Hkb'.
  { iDestruct (content_leaf with "Hn1") as %[_ H1]. iDestruct (content_leaf with "Hn'") as %[_ H2]. iPureIntro. naive_solver. }
  iApply wp_bind. iApply (wp_take_item with "Hk'"); [by apply (removeAt_app 0 y [] b)|]. iIntros "Hk'".
  iDestruct (hole2_item with "Hh") as (kids0) "[Hl Hh]". iApply wp_bind. iApply (wp_load with "Hl"). iIntros "Hl". cbn [items].
  iApply wp_bind. iApply wp_option; [by apply list_lookup_middle|].
  iApply wp_bind. iApply (wp_update_items with "Hk"); [done|]. iIntros "Hk".
  iApply wp_bind. iApply (wp_update_items with "Hl"); [by apply set_at_app|]. iIntros "Hl". iSpecialize ("Hh" with "Hl").
  iApply wp_bind. iApply (wp_load with "Hk'"). iIntros "Hk'". cbn [children].
  assert (lt x y = true) as Hxy.
  { rewrite (assoc_L (++)) in Hs. apply sorted_around in Hs as (_ & _ & _ & Hx). rewrite Forall_forall in Hx. apply Hx. set_solver. }
  iAssert (owned k1 (its ++ [x]) (kids ++ kb) -∗ owned k1' b kb' -∗
    grown l h typ item (length (its1 ++ x :: its2)) (P ++ M ++ x :: (L1 ++ y :: L2) ++ Q))%I with "[Hh Hn Hn1 Hn']" as "HΦ".
  { iIntros "Hk Hk'". iDestruct (hole_left with "Hh [Hk' Hn']") as "Hh"; [iExists b, kb'; iFrame "Hn'"; iSplitL; [by iLeft|iPureIntro; lia]|].
    iExists its1, (y :: its2), false, k1, P, (M ++ x :: L1), (y :: L2 ++ Q), (its ++ [x]), (kids ++ kb).
    iFrame "Hh". iDestruct (content_merge _ _ _ _ its x [] with "Hn Hn1") as "$". iSplit; [|by iLeft].
    iPureIntro. rewrite !length_app /=. split_and!; [by rewrite -!(assoc_L (++))|by apply (position_right _ _ _ x _ _ found)|lia..]. }
  destruct (decide (h = 0)) as [->|Hh].
  - destruct Hkb' as [[-> _] [-> _]]; [done|]. rewrite bool_decide_eq_false_2; [|cbn; lia]. rewrite (app_nil_r kids). iApply wp_ret. iApply ("HΦ" with "Hk Hk'").
  - destruct Hkb as [Hkb _]; [done|]. destruct kb as [|kk [|]]; [done| |done]. rewrite bool_decide_eq_true_2; [|rewrite length_app /=; lia].
    iApply wp_bind. iApply (wp_take_child with "Hk'"); [by apply (removeAt_app 0 kk [] kb')|]. iIntros "Hk'".
    iApply (wp_update_children with "Hk"); [done|]. iIntros "Hk". iApply ("HΦ" with "Hk Hk'").
Qed.

(** Merging the children around [x]; [i] is the index of the left one, or of the right one
    when it is the last. *)
Lemma wp_merge l h i its1 x its2 k k' P Q its kids M its' kids' M' typ item :
  i = length its1 ∨ (i = S (length its1) ∧ its2 = []) → position typ item its1 its2 false →
  d - 1 = length its → d - 1 = length its' →
  hole2 (owned l) h its1 x its2 k k' P Q -∗
  readable k its kids -∗ content h its kids M -∗ readable k' its' kids' -∗ content h its' kids' M' -∗
  wp (merge l i) (λ _, grown l h typ item (length (its1 ++ x :: its2)) (P ++ M ++ x :: M' ++ Q)).
Proof.
  iIntros (Hi Hpos Hn Hn') "Hh Hk Hn Hk' Hn'". unfold merge.
  iDestruct (hole2_item with "Hh") as (kids0) "[Hl Hh]". iApply wp_bind. iApply (wp_load with "Hl"). iIntros "Hl". cbn [items cow].
  iSpecialize ("Hh" with "Hl"). iApply wp_bind.
  iAssert (∀ Ψ : nat → iProp Σ, Ψ (length its1) -∗ wp (if bool_decide (length (its1 ++ x :: its2) ≤ i) then
         match i with 0 => st_panic | S j => mret j end else mret i) Ψ)%I as "Hidx".
  { iIntros (Ψ) "HΨ". rewrite length_app /=. destruct Hi as [->|[-> ->]].
    - rewrite bool_decide_eq_false_2; [|lia]. by iApply wp_ret.
    - rewrite bool_decide_eq_true_2; [|cbn; lia]. by iApply wp_ret. }
  iApply "Hidx". iClear "Hidx". iApply wp_bind. iApply (wp_hole2_left with "Hh Hk"). iIntros (k1) "Hh Hk".
  iDestruct "Hh" as "(%kids1 & %kids2 & %Ms1 & %Ms2 & %E & HN & H1 & H2)".
  iApply wp_bind. iApply (wp_take_item with "HN"); [by apply removeAt_app|]. iIntros "HN".
  rewrite (cons_middle k1 kids1) (assoc_L (++)).
  iApply wp_bind. iApply (wp_take_child with "HN"); [apply removeAt_app; rewrite length_app /=; lia|]. iIntros "HN".
  iApply wp_bind. iApply (wp_update_items with "Hk"); [done|]. iIntros "Hk".
  iApply wp_bind. iApply (wp_load_readable with "Hk'"). iIntros (cw) "Hk'". cbn [items children].
  iApply wp_bind. iApply (wp_update_items with "Hk"); [done|]. iIntros "Hk".
  iApply wp_bind. iApply (wp_update_children with "Hk"); [done|]. iIntros "Hk".
  iApply wp_bind. iApply (wp_freeNode with "Hk'"); [done|]. iIntros (r). iApply wp_ret.
  rewrite -!(assoc_L (++)) /=.
  iExists its1, its2, false, k1, P, (M ++ x :: M'), Q, (its ++ x :: its'), (kids ++ kids').
  iDestruct (content_merge _ _ _ _ its x its' with "Hn Hn'") as "$". iSplit; [|iSplitR "Hk"; [|by iLeft]].
  - iPureIntro. rewrite !length_app /=. split_and!; [by rewrite -!(assoc_L (++))|done|lia..].
  - iExists kids1, kids2, Ms1, Ms2. by iFrame.
Qed.

Lemma wp_hole2_items_left l h its1 x its2 k k' P Q its kids Φ :
  hole2 (owned l) h its1 x its2 k k' P Q -∗ readable k its kids -∗
  (hole2 (owned l) h its1 x its2 k k' P Q -∗ readable k its kids -∗ Φ (Z.of_nat (length its))) -∗ wp (child_items l (length its1)) Φ.
Proof.
  iIntros "(%kids1 & %kids2 & %Ms1 & %Ms2 & %E & HN & H1 & H2) Hk HΦ". iApply (wp_child_items with "HN Hk"); [lia|].
  iIntros "HN Hk". iApply ("HΦ" with "[HN H1 H2] Hk"). iExists kids1, kids2, Ms1, Ms2. by iFrame.
Qed.

Lemma wp_hole2_items_right l h its1 x its2 k k' P Q its kids Φ :
  hole2 (owned l) h its1 x its2 k k' P Q -∗ readable k' its kids -∗
  (hole2 (owned l) h its1 x its2 k k' P Q -∗ readable k' its kids -∗ Φ (Z.of_nat (length its))) -∗ wp (child_items l (S (length its1))) Φ.
Proof.
  iIntros "(%kids1 & %kids2 & %Ms1 & %Ms2 & %E & HN & H1 & H2) Hk HΦ". rewrite (cons_middle k kids1) (assoc_L (++)).
  iApply (wp_child_items with "HN Hk"); [rewrite length_app /=; lia|].
  iIntros "HN Hk". iApply ("HΦ" with "[HN H1 H2] Hk"). iExists kids1, kids2, Ms1, Ms2. rewrite -(assoc_L (++)). by iFrame.
Qed.

(** A child with no item to spare, a right sibling, and no left sibling to steal from. *)
Lemma wp_try_right l h its1 x its2 k P Q its kids M typ item found :
  strict (P ++ M ++ Q) → position typ item its1 (x :: its2) found → d - 1 = length its →
  hole (owned l) h its1 (x :: its2) k P Q -∗ readable k its kids -∗ content h its kids M -∗
  wp (right ← (if bool_decide (length its1 < length (its1 ++ x :: its2)) then
                 k ← child_items l (S (length its1)); mret (bool_decide (min_items < k)%Z)
               else mret false);
      if right : bool then steal_right l (length its1) else merge l (length its1))
    (λ _, grown l h typ item (length (its1 ++ x :: its2)) (P ++ M ++ Q)).
Proof.
  iIntros (Hs Hpos Hn) "Hh Hk Hn". iDestruct (hole_next with "Hh") as (k' M' Q' ->) "[Hh (%its' & %kids' & Hk' & %Hb' & Hn')]".
  rewrite bool_decide_eq_true_2; [|rewrite length_app /=; lia]. iApply wp_bind. iApply wp_bind.
  iApply (wp_hole2_items_right with "Hh Hk'"). iIntros "Hh Hk'". iApply wp_ret. unfold min_items. case_bool_decide.
  - iApply (wp_steal_right with "Hh Hk Hn Hk' Hn'"); [done..|lia|lia].
  - iApply (wp_merge with "Hh Hk Hn Hk' Hn'"); [by left|by apply position_merge_right in Hpos|done|lia].
Qed.

(** The node has an item, so that the child has a sibling. *)
Lemma wp_grow l h its1 its2 k P Q its kids M typ item found (again : st (mem A) (option A)) Φ :
  strict (P ++ M ++ Q) → position typ item its1 its2 found → d - 1 = length its → its1 ++ its2 ≠ [] →
  hole (owned l) h its1 its2 k P Q -∗ readable k its kids -∗ content h its kids M -∗
  (grown l h typ item (length (its1 ++ its2)) (P ++ M ++ Q) -∗ wp again Φ) -∗
  wp (growChildAndRemove again l (length its1) min_items) Φ.
Proof.
  iIntros (Hs Hpos Hn Hne) "Hh Hk Hn HΦ". unfold growChildAndRemove.
  iDestruct (hole_access with "Hh") as (kids0 _) "[Hl Hh]". iApply wp_bind. iApply (wp_load with "Hl"). iIntros "Hl". iSpecialize ("Hh" with "Hl").
  cbn [items]. destruct its1 as [|x its1 _] using rev_ind.
  { destruct its2 as [|x its2]; [done|]. iApply wp_bind. iApply wp_ret. iApply wp_bind.
    iApply (wp_wand with "[Hh Hk Hn]"); [by iApply (wp_try_right with "Hh Hk Hn")|]. iIntros (_). iApply "HΦ". }
  assert (length (its1 ++ [x]) = S (length its1)) as El by (rewrite length_app /=; lia). rewrite El.
  iDestruct (hole_prev with "Hh") as (k0 M0 P0 ->) "[Hh (%its0 & %kids0' & Hk0 & %Hb0 & Hn0)]".
  iApply wp_bind. iApply wp_bind. iApply (wp_hole2_items_left with "Hh Hk0"). iIntros "Hh Hk0". iApply wp_ret. iApply wp_bind.
  assert ((P0 ++ M0 ++ [x]) ++ M ++ Q = P0 ++ M0 ++ x :: M ++ Q) as ET by by rewrite -!(assoc_L (++)).
  assert ((its1 ++ [x]) ++ its2 = its1 ++ x :: its2) as EI by by rewrite -!(assoc_L (++)).
  unfold min_items at 1. case_bool_decide.
  - rewrite ET in Hs *. rewrite EI.
    iApply (wp_wand with "[Hh Hk Hn Hk0 Hn0]"); [iApply (wp_steal_left with "Hh Hk0 Hn0 Hk Hn"); [done|done|lia|lia|done]|]. iIntros (_). iApply "HΦ".
  - destruct its2 as [|x' its2].
    + rewrite bool_decide_eq_false_2; [|rewrite app_nil_r; lia]. iApply wp_bind. iApply wp_ret. rewrite ET EI.
      iApply (wp_wand with "[Hh Hk Hn Hk0 Hn0]"); [iApply (wp_merge with "Hh Hk0 Hn0 Hk Hn"); [by right|by apply position_merge_left in Hpos|lia|done]|].
      iIntros (_). iApply "HΦ".
    + rewrite -El. iDestruct (hole_right with "Hh [Hk0 Hn0]") as "Hh"; [iExists its0, kids0'; by iFrame|].
      iApply (wp_wand with "[Hh Hk Hn]"); [by iApply (wp_try_right with "Hh Hk Hn")|]. iIntros (_). iApply "HΦ".
Qed.

(** ** Deleting *)
Definition remove_spec h : Prop := ∀ fuel l its kids L item typ Φ,
  2 * h < fuel → strict L → its ≠ [] → (typ = removeItem → is_Some item) →
  owned l its kids -∗ content h its kids L -∗
  (∀ its' kids', ⌜length its - 1 ≤ length its' ∧ length its' ≤ length its⌝ -∗
     owned l its' kids' -∗ content h its' kids' (left_over (lt := lt) typ item L) -∗ Φ (taken (lt := lt) typ item L)) -∗
  wp (node_remove lt fuel l item min_items typ) Φ.

Lemma wp_remove_leaf fuel l its kids L item typ Φ :
  strict L → its ≠ [] → (typ = removeItem → is_Some item) →
  owned l its kids -∗ content 0 its kids L -∗
  (∀ its' kids', ⌜length its - 1 ≤ length its' ∧ length its' ≤ length its⌝ -∗
     owned l its' kids' -∗ content 0 its' kids' (left_over (lt := lt) typ item L) -∗ Φ (taken (lt := lt) typ item L)) -∗
  wp (node_remove lt (S fuel) l item min_items typ) Φ.
Proof.
  iIntros (Hs Hne Hit) "Hl [-> ->] HΦ". cbn [node_remove]. iApply wp_bind. iApply (wp_load with "Hl"). iIntros "Hl". cbn [items children].
  rewrite bool_decide_eq_true_2 //. destruct typ.
  - destruct Hit as [key ->]; [done|]. cbn [taken left_over mbind option_bind].
    destruct (find_spec its key Hs) as (i1 & i2 & -> & Hi1 & [[Hf Hi2]|(x & i3 & -> & Hf & Hx1 & Hx2 & Hi3)]);
      iApply wp_bind; (iApply wp_option; [done|]); cbn [fst snd].
    + iApply wp_ret. destruct (inserted_nil key i1 i2 Hi1 Hi2) as [_ ->]. iApply ("HΦ" with "[] Hl []"); iPureIntro; [lia|].
      split; [done|]. apply filter_below_all in Hi1 as (Hb1 & Ha1 & _). apply filter_above_all in Hi2 as (Hb2 & Ha2 & _).
      unfold removed. destruct (parts_app (lt := lt) key i1 i2) as (-> & -> & _). by rewrite Hb1 Ha1 Hb2 Ha2 app_nil_r.
    + destruct (inserted_equal key x i1 i3 Hs Hx2 Hx1) as (_ & -> & ->).
      iApply wp_bind. iApply (wp_take_item with "Hl"); [by apply removeAt_app|]. iIntros "Hl". iApply wp_ret.
      iApply ("HΦ" with "[] Hl [//]"). iPureIntro. rewrite !length_app /=. lia.
  - destruct its as [|x its]; [done|]. iApply wp_bind. iApply (wp_take_item with "Hl"); [by apply (removeAt_app 0 x [] its)|].
    iIntros "Hl". iApply wp_ret. iApply ("HΦ" with "[] Hl [//]"). iPureIntro. cbn. lia.
  - destruct its as [|x its _] using rev_ind; [done|]. iApply wp_bind. iApply (wp_take_item with "Hl"); [apply pop_snoc|].
    iIntros "Hl". iApply wp_ret. cbn [taken left_over]. rewrite last_snoc removelast_last. iApply ("HΦ" with "[] Hl [//]").
    iPureIntro. rewrite length_app /=. lia.
Qed.

(** A call on an inner node goes to the child at the position. *)
Lemma wp_remove_enter fuel l h its1 its2 k P Q item typ found Φ :
  strict (its1 ++ its2) → position typ item its1 its2 found →
  hole (owned l) h its1 its2 k P Q -∗
  (hole (owned l) h its1 its2 k P Q -∗
     wp (remove_from_child (remove_ fuel) (node_remove lt fuel l item min_items typ) l (length its1) found item min_items typ) Φ) -∗
  wp (node_remove lt (S fuel) l item min_items typ) Φ.
Proof.
  iIntros (Hs Hpos) "Hh HΦ". cbn [node_remove]. iDestruct (hole_access with "Hh") as (kids [Hkids _]) "[Hl Hh]".
  iApply wp_bind. iApply (wp_load with "Hl"). iIntros "Hl". iSpecialize ("Hh" with "Hl"). iSpecialize ("HΦ" with "Hh").
  cbn [items children]. rewrite bool_decide_eq_false_2; [|rewrite Hkids; lia]. destruct typ; cbn in Hpos.
  - destruct Hpos as (key & -> & H1 & H2). iApply wp_bind. iApply wp_option.
    { destruct found; [destruct H2 as (x & its3 & -> & Hx1 & Hx2 & _); by apply find_found|by apply find_at]. }
    done.
  - destruct Hpos as [-> ->]. done.
  - destruct Hpos as [-> ->]. by rewrite app_nil_r.
Qed.

(** Deleting from a child with an item to spare. *)
Lemma wp_remove_spare fuel l h its1 its2 k P Q its kids M item typ found (again : st (mem A) (option A)) Φ :
  remove_spec h → 2 * h < fuel → strict (P ++ M ++ Q) → position typ item its1 its2 found →
  d - 1 < length its → length its ≤ 2 * d - 1 →
  hole (owned l) h its1 its2 k P Q -∗ readable k its kids -∗ content h its kids M -∗
  (∀ its' kids', ⌜length its' = length (its1 ++ its2)⌝ -∗ owned l its' kids' -∗
     content (S h) its' kids' (left_over (lt := lt) typ item (P ++ M ++ Q)) -∗ Φ (taken (lt := lt) typ item (P ++ M ++ Q))) -∗
  wp (remove_from_child (remove_ fuel) again l (length its1) found item min_items typ) Φ.
Proof.
  iIntros (IH Hf Hs Hpos Hlo Hhi) "Hh Hk Hn HΦ". unfold remove_from_child.
  iApply wp_bind. iApply (wp_hole_items with "Hh Hk"). iIntros "Hh Hk". unfold min_items at 1. rewrite bool_decide_eq_false_2; [|lia].
  iDestruct (hole_order with "Hh") as %(HP & HQ & HP' & HQ'); [done|]. iDestruct (content_length with "Hn") as %[_ HM].
  assert (its ≠ []) as Hne by (intros ->; cbn in Hlo; lia). specialize (HM Hne).
  pose proof (strict_app_inv _ _ Hs) as [_ [HsM _]%strict_app_inv].
  iApply wp_bind. iApply (wp_hole_child with "Hh Hk"); [done|]. iIntros (k') "Hh Hk".
  assert (∀ its', length its - 1 ≤ length its' ∧ length its' ≤ length its → d - 1 ≤ length its' ∧ length its' ≤ 2 * d - 1) as Hb by lia.
  destruct found.
  - destruct typ; [|by destruct Hpos|by destruct Hpos]. destruct Hpos as (key & -> & H1 & x & its3 & -> & Hx1 & Hx2 & H3).
    iDestruct (hole_item with "Hh") as (kids0 Q0 ->) "[Hl Hh]". iApply wp_bind. iApply (wp_load with "Hl"). iIntros "Hl". cbn [items].
    iApply wp_bind. iApply wp_option; [by apply list_lookup_middle|]. iApply wp_bind.
    iApply (IH with "Hk Hn"); [done..|]. iIntros (its' kids' Hl') "Hk Hn". destruct M as [|y M _] using rev_ind; [done|].
    cbn [taken left_over]. rewrite last_snoc removelast_last. iApply wp_bind. iApply wp_option; [done|].
    iApply wp_bind. iApply (wp_update_items with "Hl"); [by apply set_at_app|]. iIntros "Hl". iSpecialize ("Hh" with "Hl").
    iDestruct (hole_close with "Hh [Hk Hn]") as (kids'') "[Hl Hn]"; [iExists its', kids'; iFrame "Hn"; iSplit; [by iLeft|by eauto]|].
    iApply wp_ret. rewrite (assoc_L (++)) in Hs *. destruct (inserted_equal key x (P ++ M ++ [y]) Q0 Hs Hx2 Hx1) as (_ & E2 & E3).
    cbn [mbind option_bind]. rewrite E2 E3. iApply ("HΦ" with "[] Hl [Hn]"); [iPureIntro; rewrite !length_app /=; lia|].
    by rewrite -!(assoc_L (++)).
  - assert (focus (lt := lt) typ item P M Q) as [-> ->]%focus_spec.
    { destruct typ; cbn in Hpos |- *; [destruct Hpos as (key & -> & H1 & H2); exists key; by auto|destruct Hpos as [-> _]; by auto..]. }
    iApply (IH with "Hk Hn"); [done..|by destruct typ as [| |]; [intros _; destruct Hpos as (key & -> & _); eauto|..]|].
    iIntros (its' kids' Hl') "Hk Hn".
    iDestruct (hole_close with "Hh [Hk Hn]") as (kids'') "[Hl Hn]"; [iExists its', kids'; iFrame "Hn"; iSplit; [by iLeft|by eauto]|].
    iApply ("HΦ" with "[//] Hl Hn").
Qed.

Lemma wp_remove_inner fuel h l its kids L item typ Φ :
  remove_spec h → 2 * h < fuel → strict L → its ≠ [] → (typ = removeItem → is_Some item) →
  owned l its kids -∗ content (S h) its kids L -∗
  (∀ its' kids', ⌜length its - 1 ≤ length its' ∧ length its' ≤ length its⌝ -∗
     owned l its' kids' -∗ content (S h) its' kids' (left_over (lt := lt) typ item L) -∗ Φ (taken (lt := lt) typ item L)) -∗
  wp (node_remove lt (S (S fuel)) l item min_items typ) Φ.
Proof.
  iIntros (IH Hf Hs Hne Hit) "Hl Hn HΦ". iDestruct (content_sublist with "Hn") as %Hsub. pose proof (strict_sublist _ _ Hsub Hs) as Hsi.
  destruct (position_exists typ item its Hsi Hit) as (its1 & its2 & found & -> & Hpos).
  iDestruct (hole_open _ _ _ (owned l) with "Hl Hn") as (k P M Q ->) "[Hh (%its' & %kids' & Hk & %Hb & Hn)]".
  iApply (wp_remove_enter with "Hh"); [done|done|]. iIntros "Hh".
  destruct (decide (length its' ≤ d - 1)) as [Hsmall|Hbig].
  - iApply wp_bind. iApply (wp_hole_items with "Hh Hk"). iIntros "Hh Hk". rewrite bool_decide_eq_true_2; [|unfold min_items; lia].
    iApply (wp_grow with "Hh Hk Hn"); [done|done|lia|done|].
    iIntros "(%its1' & %its2' & %found' & %k1 & %P' & %M' & %Q' & %itsg & %kidsg & (%ET & %Hpos' & %Hlo & %Hhi & %Hn1 & %Hn2) & Hh & Hk & Hn)".
    rewrite ET in Hs Hsub *.
    iAssert ⌜strict (its1' ++ its2')⌝%I as %Hsi'.
    { iDestruct (hole_close with "Hh [Hk Hn]") as (kids0) "[_ Hn]"; [iExists itsg, kidsg; iFrame; iPureIntro; lia|].
      iDestruct (content_sublist with "Hn") as %Hsub'. iPureIntro. by apply (strict_sublist _ _ Hsub'). }
    iApply (wp_remove_enter with "Hh"); [done|done|]. iIntros "Hh".
    iApply (wp_remove_spare with "Hh Hk Hn"); [done..|]. iIntros (its'' kids'' Hl'') "Hl Hn". iApply ("HΦ" with "[] Hl Hn"). iPureIntro. lia.
  - iApply (wp_remove_spare with "Hh Hk Hn"); [done|lia|done|done|lia|lia|]. iIntros (its'' kids'' Hl'') "Hl Hn".
    iApply ("HΦ" with "[] Hl Hn"). iPureIntro. lia.
Qed.

Lemma wp_node_remove h : remove_spec h.
Proof.
  induction h as [|h IH]; intros [|[|fuel]] l its kids L item typ Φ Hf Hs Hne Hit; try lia.
  - by apply wp_remove_leaf.
  - by apply wp_remove_leaf.
  - apply wp_remove_inner; [done|lia|done..].
Qed.
End remove.
