(* ===== verification/BTreeReads.v ===== *)
(** * Reading, sharing and dropping subtrees (github.com/google/btree: btree.go)

    [get], [min], [max] and [iterate] compute on a subtree what they would on the list of
    its items; [reset] gives the nodes back to the free list; after a clone a subtree is
    readable by every later context. *)

From iris.proofmode Require Import proofmode.
From iris.base_logic.lib Require Import ghost_map.
From S2P Require Import Prelude SortedLists BTree BTreeLists BTreeLogic BTreeNodes BTreeInsert BTreeRemove.

(** ** The loops of [iterate] on a list *)
Section flat.
Context {A R : Type} (lt : A → A → bool) (iter : A → R → bool * R) (start stop : option A) (includeStart : bool).
Implicit Types (x : A) (L : list A) (hit : bool) (s : R).

Fixpoint ascend_list L hit s : bool * bool * R :=
  match L with
  | [] => (hit, true, s)
  | x :: L =>
    if less_than lt x start then ascend_list L hit s else
    if negb includeStart && negb hit && not_above lt start x then ascend_list L true s else
    if not_less_than lt x stop then (true, false, s) else
    let '(go, s) := iter x s in
    if go then ascend_list L true s else (true, false, s)
  end.

Fixpoint descend_list L hit s : bool * bool * R :=
  match L with
  | [] => (hit, true, s)
  | x :: L =>
    if not_less_than lt x start && (negb includeStart || hit || above_start lt start x) then descend_list L hit s else
    if not_above lt stop x then (hit, false, s) else
    let '(go, s) := iter x s in
    if go then descend_list L true s else (true, false, s)
  end.

Definition and_then (r : bool * bool * R) (f : bool → R → bool * bool * R) : bool * bool * R :=
  let '(hit, ok, s) := r in if ok : bool then f hit s else r.

Lemma ascend_list_app L1 L2 hit s : ascend_list (L1 ++ L2) hit s = and_then (ascend_list L1 hit s) (ascend_list L2).
Proof.
  revert hit s. induction L1 as [|x L1 IH]; intros hit s; cbn; [done|]. repeat case_match; rewrite ?IH //.
Qed.

Lemma descend_list_app L1 L2 hit s : descend_list (L1 ++ L2) hit s = and_then (descend_list L1 hit s) (descend_list L2).
Proof.
  revert hit s. induction L1 as [|x L1 IH]; intros hit s; cbn; [done|]. repeat case_match; rewrite ?IH //.
Qed.

Lemma ascend_list_skip L hit s : Forall (λ x, less_than lt x start = true) L → ascend_list L hit s = (hit, true, s).
Proof. induction 1 as [|x L Hx _ IH]; cbn; [done|]. by rewrite Hx. Qed.

Lemma descend_list_skip L hit s :
  Forall (λ x, not_less_than lt x start = true ∧ above_start lt start x = true) L → descend_list L hit s = (hit, true, s).
Proof. induction 1 as [|x L [Hx1 Hx2] _ IH]; cbn; [done|]. by rewrite Hx1 Hx2 orb_true_r. Qed.
End flat.

Section reads.
Context {A : Type} `{!ghost_mapG Σ addr (node A)} {lt : A → A → bool} `{!strict_weak_order lt}.
Context (γ : gname) (nf nc : nat) (c : copyOnWriteContext) (Hc : context_freelist c < nf) (d : nat) (Hd : 2 ≤ d).
Implicit Types (l k : addr) (its : list A) (kids : list addr) (x y key : A) (L M P Q : list A) (Ls : list (list A)) (h : nat).

Local Notation wp := (wp γ nf nc).
Local Notation owned := (owned γ c).
Local Notation readable := (readable γ c).
Local Notation content := (content γ c d).
Local Notation child := (child γ c d).
Local Notation hole := (hole γ c d).
Local Notation strict := (strict lt).
Local Notation siblings h ks Ls := ([∗ list] k;L' ∈ ks;Ls, child h k L')%I.

Definition tree_at h l its L : iProp Σ := ∃ kids, readable l its kids ∗ content h its kids L.

Lemma child_tree h k M : child h k M ⊣⊢ ∃ its, ⌜d - 1 ≤ length its ∧ length its ≤ 2 * d - 1⌝ ∗ tree_at h k its M.
Proof.
  iSplit; [iIntros "(%its & %kids & H & % & Hn)"|iIntros "(%its & % & %kids & H & Hn)"].
  - iExists its. iSplit; [done|]. iExists kids. iFrame.
  - iExists its, kids. by iFrame.
Qed.

(** A child taken out to be read. *)
Lemma tree_open h l its1 its2 L :
  tree_at (S h) l (its1 ++ its2) L ⊢
  ∃ k P M Q its, ⌜L = P ++ M ++ Q ∧ its ≠ []⌝ ∗ hole (readable l) h its1 its2 k P Q ∗ tree_at h k its M ∗
    (hole (readable l) h its1 its2 k P Q -∗ tree_at h k its M -∗ tree_at (S h) l (its1 ++ its2) L).
Proof.
  iIntros "(%kids & Hl & Hn)". iDestruct (hole_open _ _ _ (readable l) with "Hl Hn") as (k P M Q ->) "[Hh Hk]".
  iDestruct (child_tree with "Hk") as (its Hb) "Hk". iExists k, P, M, Q, its. iFrame "Hh Hk". iSplit.
  - iPureIntro. split; [done|]. intros ->. cbn in Hb. lia.
  - iIntros "Hh Hk". iDestruct (hole_close with "Hh [Hk]") as (kids') "[Hl Hn]"; [iApply child_tree; iExists its; by iFrame|].
    iExists kids'. iFrame.
Qed.

Lemma tree_sublist h l its L : tree_at h l its L ⊢ ⌜its `sublist_of` L ∧ (its ≠ [] → L ≠ [])⌝.
Proof.
  iIntros "(%kids & Hl & Hn)". iDestruct (content_sublist with "Hn") as %?. by iDestruct (content_length with "Hn") as %[_ ?].
Qed.

(** The node at the top, read. *)
Lemma wp_load_tree h l its L Φ :
  tree_at h l its L -∗
  (∀ kids cw, ⌜length kids = 0 ↔ h = 0⌝ -∗ tree_at h l its L -∗ Φ (Node its kids cw)) -∗ wp (load l) Φ.
Proof.
  iIntros "(%kids & Hl & Hn) HΦ". iDestruct (content_leaf with "Hn") as %[Hleaf _]. iApply (wp_load_readable with "Hl").
  iIntros (cw) "Hl". iApply ("HΦ" with "[//]"). iExists kids. iFrame.
Qed.

Lemma wp_load_hole l h its1 its2 k P Q Φ :
  hole (readable l) h its1 its2 k P Q -∗
  (∀ kids cw, ⌜length kids = S (length (its1 ++ its2)) ∧ kids !! length its1 = Some k⌝ -∗ hole (readable l) h its1 its2 k P Q -∗ Φ (Node (its1 ++ its2) kids cw)) -∗
  wp (load l) Φ.
Proof.
  iIntros "Hh HΦ". iDestruct (hole_access with "Hh") as (kids Hk) "[Hl Hh]". iApply (wp_load_readable with "Hl").
  iIntros (cw) "Hl". iApply ("HΦ" with "[//]"). by iApply "Hh".
Qed.

(** ** Lookups *)
Lemma tree_found h l its1 x its2 L key :
  strict L → lt x key = false → lt key x = false → tree_at h l (its1 ++ x :: its2) L ⊢ ⌜equal lt key L = [x]⌝.
Proof.
  iIntros (Hs Hx1 Hx2) "(%kids & _ & Hn)". iDestruct (content_split with "Hn") as (kids1 kids2 L1 L2 (-> & -> & _)) "_".
  iPureIntro. by destruct (inserted_equal key x L1 L2 Hs Hx2 Hx1) as (_ & -> & _).
Qed.

Definition get_spec h : Prop := ∀ fuel l its L key Φ, h < fuel → strict L →
  tree_at h l its L -∗ (tree_at h l its L -∗ Φ (head (equal lt key L))) -∗ wp (node_get lt fuel l (Some key)) Φ.

Lemma wp_get_found h fuel l its1 x its2 L key Φ :
  strict L → find lt (its1 ++ x :: its2) (Some key) = Some (length its1, true) → lt x key = false → lt key x = false →
  tree_at h l (its1 ++ x :: its2) L -∗ (tree_at h l (its1 ++ x :: its2) L -∗ Φ (head (equal lt key L))) -∗
  wp (node_get lt (S fuel) l (Some key)) Φ.
Proof.
  iIntros (Hs Hf Hx1 Hx2) "Ht HΦ". iDestruct (tree_found with "Ht") as %He; [done..|]. rewrite He. cbn [node_get].
  iApply wp_bind. iApply (wp_load_tree with "Ht"). iIntros (kids cw _) "Ht". iApply wp_bind. iApply wp_option; [done|].
  iApply wp_bind. iApply wp_option; [by apply list_lookup_middle|]. iApply wp_ret. by iApply "HΦ".
Qed.

Lemma wp_node_get h : get_spec h.
Proof.
  induction h as [|h IH]; intros [|fuel] l its L key Φ Hf Hs; try lia; iIntros "Ht HΦ";
    iDestruct (tree_sublist with "Ht") as %[Hsub _];
    (destruct (find_spec its key (strict_sublist _ _ Hsub Hs)) as (i1 & i2 & -> & Hi1 & [[Hfi Hi2]|(x & i3 & -> & Hfi & Hx1 & Hx2 & Hi3)]);
     [|by iApply (wp_get_found with "Ht HΦ")]); cbn [node_get].
  - iDestruct "Ht" as "(%kids & Hl & [-> ->])". iApply wp_bind. iApply (wp_load_readable with "Hl"). iIntros (cw) "Hl".
    iApply wp_bind. iApply wp_option; [done|]. iApply wp_ret. destruct (inserted_nil key i1 i2 Hi1 Hi2) as [_ ->].
    iApply "HΦ". iExists []. by iFrame.
  - iDestruct (tree_open with "Ht") as (k P M Q its [-> Hne]) "(Hh & Hk & Hclose)".
    iDestruct (hole_order with "Hh") as %(HP & HQ & _); [done|].
    destruct (inserted_within key P M Q (HP key Hi1) (HQ key Hi2)) as [_ ->].
    iApply wp_bind. iApply (wp_load_hole with "Hh"). iIntros (kids cw [Hlen Hk]) "Hh". iApply wp_bind. iApply wp_option; [done|].
    cbn [fst snd children]. rewrite bool_decide_eq_true_2; [|lia]. iApply wp_bind. iApply wp_option; [done|].
    apply strict_app_inv in Hs as [_ [Hs _]%strict_app_inv]. iApply (IH with "Hk"); [lia|done|]. iIntros "Hk".
    iApply "HΦ". iApply ("Hclose" with "Hh Hk").
Qed.

Lemma wp_node_min h : ∀ fuel l its L Φ, h < fuel →
  tree_at h l its L -∗ (tree_at h l its L -∗ Φ (head L)) -∗ wp (node_min fuel l) Φ.
Proof.
  induction h as [|h IH]; intros [|fuel] l its L Φ Hf; try lia; iIntros "Ht HΦ"; cbn [node_min].
  - iDestruct "Ht" as "(%kids & Hl & [-> ->])". iApply wp_bind. iApply (wp_load_readable with "Hl"). iIntros (cw) "Hl".
    iApply wp_ret. iApply "HΦ". iExists []. by iFrame.
  - iDestruct (tree_open _ _ [] its with "Ht") as (k P M Q its' [-> Hne]) "(Hh & Hk & Hclose)".
    iAssert ⌜P = []⌝%I as %->.
    { iDestruct "Hh" as "(%kids1 & %kids2 & %Ms1 & %Ms2 & (%E1 & %E2 & %E3 & -> & ->) & _)". by destruct Ms1. }
    iDestruct (tree_sublist with "Hk") as %[_ HM]. specialize (HM Hne).
    iApply wp_bind. iApply (wp_load_hole with "Hh"). iIntros (kids cw [Hlen Hk]) "Hh". destruct kids as [|k' kids]; [done|].
    injection Hk as ->. cbn [children]. iApply (IH with "Hk"); [lia|]. iIntros "Hk".
    replace (head ([] ++ M ++ Q)) with (head M) by by destruct M. iApply "HΦ". iApply ("Hclose" with "Hh Hk").
Qed.

Lemma wp_node_max h : ∀ fuel l its L Φ, h < fuel →
  tree_at h l its L -∗ (tree_at h l its L -∗ Φ (last L)) -∗ wp (node_max fuel l) Φ.
Proof.
  induction h as [|h IH]; intros [|fuel] l its L Φ Hf; try lia; iIntros "Ht HΦ"; cbn [node_max].
  - iDestruct "Ht" as "(%kids & Hl & [-> ->])". iApply wp_bind. iApply (wp_load_readable with "Hl"). iIntros (cw) "Hl".
    iApply wp_ret. iApply "HΦ". iExists []. by iFrame.
  - rewrite -{1 2}(app_nil_r its). iDestruct (tree_open with "Ht") as (k P M Q its' [-> Hne]) "(Hh & Hk & Hclose)".
    iAssert ⌜Q = []⌝%I as %->.
    { by iDestruct "Hh" as "(%kids1 & %kids2 & %Ms1 & %Ms2 & (%E1 & %E2 & %E3 & -> & ->) & _)". }
    iDestruct (tree_sublist with "Hk") as %[_ HM]. specialize (HM Hne).
    iApply wp_bind. iApply (wp_load_hole with "Hh"). iIntros (kids cw [Hlen Hk]) "Hh". cbn [children].
    rewrite app_nil_r in Hlen.
    assert (last kids = Some k) as -> by (rewrite last_lookup; by replace (Init.Nat.pred (length kids)) with (length its) by lia). iApply (IH with "Hk"); [lia|]. iIntros "Hk".
    replace (last (P ++ M ++ [])) with (last M).
    + iApply "HΦ". iApply ("Hclose" with "Hh Hk").
    + rewrite app_nil_r. destruct M as [|y M _] using rev_ind; [done|]. by rewrite (assoc_L (++)) !last_snoc.
Qed.

(** ** Iterating *)
Section iterate.
Context {R : Type} (iter : A → R → bool * R) (start stop : option A) (includeStart : bool).
Implicit Types (s : R) (hit : bool).

Local Notation ascend_list := (ascend_list lt iter start stop includeStart).
Local Notation descend_list := (descend_list lt iter start stop includeStart).

(** What the recursive calls do to the children. *)
Definition visits h (rec : addr → bool → R → st (mem A) (bool * bool * R)) (flat : list A → bool → R → bool * bool * R) : Prop :=
  ∀ k M hit s Φ, strict M → child h k M -∗ (child h k M -∗ Φ (flat M hit s)) -∗ wp (rec k hit s) Φ.

(** A call on child [i], with the other children set aside. *)
Lemma wp_visit h rec flat kids Ls i M hit s (n : node A) Φ :
  visits h rec flat → children n = kids → Ls !! i = Some M → strict M →
  siblings h kids Ls -∗ (siblings h kids Ls -∗ Φ (flat M hit s)) -∗
  wp (if bool_decide (0 < length (children n)) then k ← of_option (children n !! i); rec k hit s else mret (hit, true, s)) Φ.
Proof.
  iIntros (Hrec -> HLi HM) "H HΦ". iDestruct (big_sepL2_length with "H") as %Hlen.
  destruct (lookup_lt_is_Some_2 kids i) as [k Hk]; [rewrite Hlen; by apply lookup_lt_Some in HLi|].
  rewrite bool_decide_eq_true_2; [|apply lookup_lt_Some in Hk; lia]. iApply wp_bind. iApply wp_option; [done|].
  iDestruct (big_sepL2_lookup_acc with "H") as "[Hc H]"; [done..|]. iApply (Hrec with "Hc"); [done|]. iIntros "Hc".
  iApply "HΦ". by iApply "H".
Qed.

Lemma wp_ascend_leaf rec (n : node A) its i hit s Φ :
  children n = [] → Φ (ascend_list its hit s) -∗ wp (ascend_items lt iter start stop includeStart rec n its i hit s) Φ.
Proof.
  iIntros (Hn) "HΦ". iInduction its as [|x its IH] forall (i hit s); cbn; [by iApply wp_ret|]. rewrite Hn.
  case_match; [by iApply "IH"|]. iApply wp_bind. iApply wp_ret. cbn. case_match; [by iApply "IH"|].
  case_match; [by iApply wp_ret|]. destruct (iter x s) as [[] s']; [by iApply "IH"|by iApply wp_ret].
Qed.

Lemma wp_ascend_inner h rec (n : node A) its Ls1 Ls2 Ls3 hit s Φ :
  visits h rec ascend_list → strict (before Ls2 its) → length Ls2 = length its →
  siblings h (children n) (Ls1 ++ Ls2 ++ Ls3) -∗
  (siblings h (children n) (Ls1 ++ Ls2 ++ Ls3) -∗ Φ (ascend_list (before Ls2 its) hit s)) -∗
  wp (ascend_items lt iter start stop includeStart rec n its (length Ls1) hit s) Φ.
Proof.
  intros Hrec. revert Ls1 Ls2 hit s. induction its as [|x its IH]; intros Ls1 [|M Ls2] hit s Hs Hl; try done; iIntros "H HΦ".
  { iApply wp_ret. by iApply "HΦ". }
  injection Hl as Hl. change (before (M :: Ls2) (x :: its)) with ((M ++ [x]) ++ before Ls2 its) in *.
  rewrite -(assoc_L (++)) in Hs. apply sorted_around in Hs as (HsM & Hs' & HMx & _).
  assert (∀ hit s, (siblings h (children n) (Ls1 ++ (M :: Ls2) ++ Ls3)) -∗
    (siblings h (children n) (Ls1 ++ (M :: Ls2) ++ Ls3) -∗ Φ (ascend_list (before Ls2 its) hit s)) -∗
    wp (ascend_items lt iter start stop includeStart rec n its (S (length Ls1)) hit s) Φ) as Hgo.
  { intros hit' s'. replace (Ls1 ++ (M :: Ls2) ++ Ls3) with ((Ls1 ++ [M]) ++ Ls2 ++ Ls3) by by rewrite -(assoc_L (++)).
    replace (S (length Ls1)) with (length (Ls1 ++ [M])) by (rewrite length_app /=; lia). by apply IH. }
  cbn [ascend_items]. destruct (less_than lt x start) eqn:Ex.
  { rewrite ascend_list_app ascend_list_skip; [by iApply (Hgo with "H")|]. apply Forall_app. split; [|by repeat constructor].
    apply (Forall_impl _ _ _ HMx). intros y Hy. destruct start as [a|]; [|done]. by apply (lt_trans y x a). }
  iApply wp_bind. iApply (wp_visit with "H"); [done|done|by apply list_lookup_middle|done|]. iIntros "H".
  rewrite !ascend_list_app. destruct (ascend_list M hit s) as [[hit' []] s'] eqn:EM; cbn; last first.
  { iApply wp_ret. by iApply "HΦ". }
  rewrite Ex. case_match; [by iApply (Hgo with "H")|]. case_match; [iApply wp_ret; by iApply "HΦ"|].
  destruct (iter x s') as [[] s'']; [by iApply (Hgo with "H")|]. iApply wp_ret. by iApply "HΦ".
Qed.

Lemma wp_descend_leaf rec (n : node A) its hit s Φ :
  children n = [] → Φ (descend_list its hit s) -∗ wp (descend_items lt iter start stop includeStart rec n its hit s) Φ.
Proof.
  iIntros (Hn) "HΦ". iInduction its as [|x its IH] forall (hit s); cbn; [by iApply wp_ret|]. rewrite Hn.
  case_match; [by iApply "IH"|]. iApply wp_bind. iApply wp_ret. cbn. case_match; [by iApply wp_ret|].
  destruct (iter x s) as [[] s']; [by iApply "IH"|by iApply wp_ret].
Qed.

Lemma wp_descend_inner h rec (n : node A) its M0 Ls2 Ls3 hit s Φ :
  visits h rec (λ M, descend_list (reverse M)) → strict (after its Ls2) → length Ls2 = length its →
  siblings h (children n) (M0 :: Ls2 ++ Ls3) -∗
  (siblings h (children n) (M0 :: Ls2 ++ Ls3) -∗ Φ (descend_list (reverse (after its Ls2)) hit s)) -∗
  wp (descend_items lt iter start stop includeStart rec n (reverse its) hit s) Φ.
Proof.
  intros Hrec. revert Ls2 Ls3 hit s. induction its as [|x its IH] using rev_ind; intros Ls2 Ls3 hit s Hs Hl; iIntros "H HΦ".
  { destruct Ls2; [|done]. iApply wp_ret. by iApply "HΦ". }
  destruct Ls2 as [|M Ls2 _] using rev_ind; [rewrite length_app /= in Hl; lia|]. rewrite !length_app /= in Hl.
  rewrite after_app in Hs |- *; [|lia]. change (after [x] [M]) with (x :: M ++ []) in *. rewrite (app_nil_r M) in Hs |- *.
  rewrite reverse_snoc reverse_app reverse_cons. apply sorted_around in Hs as (Hs' & HsM & _ & HMx). rewrite -(assoc_L (++)) /=.
  assert (∀ hit s, (siblings h (children n) (M0 :: Ls2 ++ M :: Ls3)) -∗
    (siblings h (children n) (M0 :: Ls2 ++ M :: Ls3) -∗ Φ (descend_list (reverse (after its Ls2)) hit s)) -∗
    wp (descend_items lt iter start stop includeStart rec n (reverse its) hit s) Φ) as Hgo.
  { intros hit' s'. apply IH; [done|lia]. }
  (** The children after an item that is not below the start are skipped with it. *)
  assert (not_less_than lt x start = true → descend_list (reverse M) hit s = (hit, true, s)) as Hskip.
  { intros Hx. apply descend_list_skip, Forall_reverse, (Forall_impl _ _ _ HMx). intros y Hy.
    destruct start as [a|]; [|done]. cbn in Hx |- *. apply negb_true_iff in Hx.
    assert (lt a y = true) as Hay by by apply (le_lt a x y). by rewrite Hay (lt_asym a y). }
  rewrite length_reverse !descend_list_app. destruct (not_less_than lt x start && _) eqn:Ex.
  { pose proof Ex as [Hx _]%andb_true_iff. rewrite Hskip //= Ex. by iApply (Hgo with "H"). }
  iApply wp_bind. iApply (wp_visit with "H"); [done|done| |done|].
  { change (M0 :: Ls2 ++ M :: Ls3) with ((M0 :: Ls2) ++ M :: Ls3). apply list_lookup_middle. cbn. lia. }
  iIntros "H". destruct (descend_list (reverse M) hit s) as [[hit' []] s'] eqn:EM; cbn; last first.
  { iApply wp_ret. by iApply "HΦ". }
  assert (not_less_than lt x start && (negb includeStart || hit' || above_start lt start x) = false) as ->.
  { destruct (not_less_than lt x start) eqn:Hx; [|done]. specialize (Hskip eq_refl). by simplify_eq. }
  case_match; [iApply wp_ret; by iApply "HΦ"|].
  destruct (iter x s') as [[] s'']; [by iApply (Hgo with "H")|]. iApply wp_ret. by iApply "HΦ".
Qed.

Definition flat_list (dir : direction) L hit s : bool * bool * R :=
  match dir with ascend => ascend_list L hit s | descend => descend_list (reverse L) hit s end.

Lemma wp_iterate_leaf fuel dir l its L hit s Φ :
  tree_at 0 l its L -∗ (tree_at 0 l its L -∗ Φ (flat_list dir L hit s)) -∗
  wp (node_iterate lt iter start stop includeStart (S fuel) dir l hit s) Φ.
Proof.
  iIntros "(%kids & Hl & [-> ->]) HΦ". cbn [node_iterate]. iApply wp_bind. iApply (wp_load_readable with "Hl"). iIntros (cw) "Hl".
  iSpecialize ("HΦ" with "[Hl]"); [iExists []; by iFrame|]. destruct dir; cbn [items children]; iApply wp_bind.
  - iApply wp_descend_leaf; [done|]. cbn. destruct (descend_list (reverse its) hit s) as [[hit' ok] s'] eqn:E.
    rewrite andb_false_r. by iApply wp_ret.
  - iApply wp_ascend_leaf; [done|]. cbn. destruct (ascend_list its hit s) as [[hit' ok] s'] eqn:E. rewrite andb_false_r. by iApply wp_ret.
Qed.

Lemma wp_iterate_inner h fuel dir l its L hit s Φ :
  visits h (node_iterate lt iter start stop includeStart fuel dir) (flat_list dir) → strict L →
  tree_at (S h) l its L -∗ (tree_at (S h) l its L -∗ Φ (flat_list dir L hit s)) -∗
  wp (node_iterate lt iter start stop includeStart (S fuel) dir l hit s) Φ.
Proof.
  iIntros (Hrec Hs) "(%kids & Hl & Hn) HΦ". cbn [node_iterate]. iApply wp_bind. iApply (wp_load_readable with "Hl"). iIntros (cw) "Hl".
  rewrite content_S. iDestruct "Hn" as (Ls [Hlen ->]) "H". iDestruct (big_sepL2_length with "H") as %Hkids.
  iAssert (siblings h kids Ls -∗ Φ (flat_list dir (join its Ls) hit s))%I with "[Hl HΦ]" as "HΦ".
  { iIntros "H". iApply "HΦ". iExists kids. iFrame "Hl". iExists Ls. by iFrame. }
  assert (0 < length kids) as Hk0 by lia. destruct dir; cbn [items flat_list] in *; iApply wp_bind.
  - destruct Ls as [|M Ls]; [done|]. injection Hlen as Hlen. apply strict_app_inv in Hs as [HsM Hs].
    iApply (wp_descend_inner h _ (Node its kids cw) its M Ls [] with "[H]"); [done|done|done|by rewrite app_nil_r|].
    iIntros "H". rewrite app_nil_r. cbn [children flat_list join]. rewrite reverse_app descend_list_app.
    destruct (descend_list (reverse (after its Ls)) hit s) as [[hit' []] s'] eqn:E; cbn; [|iApply wp_ret; by iApply "HΦ"].
    iPoseProof (wp_visit h _ _ kids (M :: Ls) 0 M hit' s' (Node its kids cw) with "H HΦ") as "Hwp"; [done..|].
    cbn [children]. by rewrite bool_decide_eq_true_2.
  - destruct Ls as [|M Ls _] using rev_ind; [done|]. rewrite length_app /= in Hlen. assert (length Ls = length its) as Hl by lia.
    assert (join its (Ls ++ [M]) = before Ls its ++ M) as Ej by by rewrite -{1}(app_nil_r its) join_at // app_nil_r.
    rewrite Ej in Hs. apply strict_app_inv in Hs as [Hs HsM].
    iApply (wp_ascend_inner h _ (Node its kids cw) its [] Ls [M] with "[H]"); [done|done|done|done|].
    iIntros "H". cbn [app children flat_list]. rewrite Ej ascend_list_app.
    destruct (ascend_list (before Ls its) hit s) as [[hit' []] s'] eqn:E; cbn; [|iApply wp_ret; by iApply "HΦ"].
    iPoseProof (wp_visit h _ _ kids (Ls ++ [M]) (length kids - 1) M hit' s' (Node its kids cw) with "H HΦ") as "Hwp"; [done|done| |done|].
    { rewrite Hkids length_app /=. apply list_lookup_middle. lia. }
    cbn [children]. by rewrite bool_decide_eq_true_2.
Qed.

Lemma wp_node_iterate h : ∀ fuel dir l its L hit s Φ, h < fuel → strict L →
  tree_at h l its L -∗ (tree_at h l its L -∗ Φ (flat_list dir L hit s)) -∗
  wp (node_iterate lt iter start stop includeStart fuel dir l hit s) Φ.
Proof.
  induction h as [|h IH]; intros [|fuel] dir l its L hit s Φ Hf Hs; try lia; [by apply wp_iterate_leaf|].
  apply wp_iterate_inner; [|done]. intros k M hit' s' Ψ HM. iIntros "Hk HΨ". iDestruct (child_tree with "Hk") as (its' Hb) "Hk".
  iApply (IH with "Hk"); [lia|done|]. iIntros "Hk". iApply "HΨ". iApply child_tree. iExists its'. by iFrame.
Qed.
End iterate.
End reads.
