(* ===== verification/BTreeClones.v ===== *)
(** * Dropping, sharing and measuring subtrees (github.com/google/btree: btree.go)

    [reset] gives the nodes of a subtree back to the free list.  After [Clone] no node of
    the tree is written again, and every later context may read it.  A subtree of height
    [h] has exponentially many items in [h]. *)

From iris.proofmode Require Import proofmode.
From iris.base_logic.lib Require Import ghost_map.
From S2P Require Import Prelude SortedLists BTree BTreeLists BTreeLogic BTreeNodes BTreeInsert BTreeReads.

Section clones.
Context {A : Type} `{!ghost_mapG Σ addr (node A)}.
Context (γ : gname) (d : nat).
Implicit Types (l k : addr) (its : list A) (kids : list addr) (L M : list A) (Ls : list (list A)) (h : nat) (c : copyOnWriteContext).

Local Notation siblings c h ks Ls := ([∗ list] k;L' ∈ ks;Ls, child γ c d h k L')%I.

(** ** Giving nodes back *)
Lemma wp_reset_children nf nc c h (reset : addr → st (mem A) bool) kids Ls Φ :
  (∀ k M Ψ, child γ c d h k M -∗ (∀ b, Ψ b) -∗ wp γ nf nc (reset k) Ψ) →
  siblings c h kids Ls -∗ (∀ b, Φ b) -∗ wp γ nf nc (reset_children reset kids) Φ.
Proof.
  iIntros (Hr) "H HΦ". iInduction kids as [|k kids IH] forall (Ls); [by iApply wp_ret|].
  iDestruct (big_sepL2_cons_inv_l with "H") as (M Ls' ->) "[Hk H]". cbn. iApply wp_bind. iApply (Hr with "Hk").
  iIntros ([]); [by iApply ("IH" with "H")|by iApply wp_ret].
Qed.

Lemma wp_node_reset nf nc c h : context_freelist c < nf → ∀ fuel l its kids L Φ, h < fuel →
  readable γ c l its kids -∗ content γ c d h its kids L -∗ (∀ b, Φ b) -∗ wp γ nf nc (node_reset fuel l c) Φ.
Proof.
  intros Hc. induction h as [|h IH]; intros [|fuel] l its kids L Φ Hf; try lia; iIntros "Hl Hn HΦ"; cbn [node_reset].
  - iDestruct "Hn" as "[-> ->]". iApply wp_bind. iApply (wp_load_readable with "Hl"). iIntros (cw) "Hl". iApply wp_bind. iApply wp_ret.
    iApply wp_bind. iApply (wp_freeNode with "Hl"); [done|]. iIntros (r). by iApply wp_ret.
  - rewrite content_S. iDestruct "Hn" as (Ls _) "H". iApply wp_bind. iApply (wp_load_readable with "Hl"). iIntros (cw) "Hl".
    iApply wp_bind. iApply (wp_reset_children with "H").
    { iIntros (k M Ψ) "(%its' & %kids' & Hk & _ & Hn) HΨ". iApply (IH with "Hk Hn HΨ"). lia. }
    iIntros ([]); [|by iApply wp_ret]. iApply wp_bind. iApply (wp_freeNode with "Hl"); [done|]. iIntros (r). by iApply wp_ret.
Qed.

(** ** Clones *)
Definition later_contexts c (P : copyOnWriteContext → iProp Σ) : iProp Σ := □ ∀ c', ⌜id c < id c'⌝ -∗ P c'.

Lemma readable_share c l its kids : readable γ c l its kids ==∗ later_contexts c (λ c', readable γ c' l its kids).
Proof.
  iIntros "[Hl|(%c0 & %Hid & #Hl)]".
  - iMod (ghost_map_elem_persist with "Hl") as "#Hl". iIntros "!> !>" (c' Hc'). iRight. iExists c. by iFrame "Hl".
  - iIntros "!> !>" (c' Hc'). iRight. iExists c0. iFrame "Hl". iPureIntro. lia.
Qed.

Lemma siblings_share c h kids Ls :
  (∀ k M, child γ c d h k M ==∗ later_contexts c (λ c', child γ c' d h k M)) →
  siblings c h kids Ls ==∗ later_contexts c (λ c', siblings c' h kids Ls).
Proof.
  iIntros (Hk) "H". iInduction kids as [|k kids IH] forall (Ls).
  - iDestruct (big_sepL2_nil_inv_l with "H") as %->. iIntros "!> !>" (c' _). done.
  - iDestruct (big_sepL2_cons_inv_l with "H") as (M Ls' ->) "[Hk H]". iMod (Hk with "Hk") as "#Hk". iMod ("IH" with "H") as "#H".
    iIntros "!> !>" (c' Hc'). cbn. iSplitL; [by iApply "Hk"|by iApply "H"].
Qed.

Lemma content_share c h its kids L : content γ c d h its kids L ==∗ later_contexts c (λ c', content γ c' d h its kids L).
Proof.
  revert its kids L. induction h as [|h IH]; intros its kids L; [iIntros "#H !> !>" (c' _); done|].
  rewrite content_S. iIntros "(%Ls & %E & H)". iMod (siblings_share with "H") as "#H".
  { iIntros (k M) "(%its' & %kids' & Hk & %Hb & Hn)". iMod (readable_share with "Hk") as "#Hk". iMod (IH with "Hn") as "#Hn".
    iIntros "!> !>" (c' Hc'). iExists its', kids'. iSplitL; [by iApply "Hk"|]. iSplit; [done|by iApply "Hn"]. }
  iIntros "!> !>" (c' Hc'). iApply content_S. iExists Ls. iSplit; [done|by iApply "H"].
Qed.

(** ** Height *)
Lemma siblings_Forall c h kids Ls (φ : list A → Prop) :
  (∀ k M, child γ c d h k M ⊢ ⌜φ M⌝) → siblings c h kids Ls ⊢ ⌜Forall φ Ls⌝.
Proof.
  iIntros (Hφ) "H". iInduction kids as [|k kids IH] forall (Ls).
  - by iDestruct (big_sepL2_nil_inv_l with "H") as %->.
  - iDestruct (big_sepL2_cons_inv_l with "H") as (M Ls' ->) "[Hk H]". iDestruct (Hφ with "Hk") as %HM. iDestruct ("IH" with "H") as %HL.
    iPureIntro. by constructor.
Qed.

Lemma sum_list_bound (n : nat) Ls : Forall (λ M, n ≤ length M + 1) Ls → length Ls * n ≤ sum_list (length <$> Ls) + length Ls.
Proof. induction 1 as [|M Ls HM _ IH]; cbn; lia. Qed.

Lemma content_height c h its kids L : 1 ≤ d → content γ c d h its kids L ⊢ ⌜S (length its) * d ^ h ≤ S (length L)⌝.
Proof.
  intros Hd. revert its kids L. induction h as [|h IH]; intros its kids L; [iIntros "[-> ->]"; iPureIntro; cbn; lia|].
  rewrite content_S. iIntros "(%Ls & [%Hl ->] & H)". iDestruct (siblings_Forall _ _ _ _ (λ M, d ^ S h ≤ length M + 1) with "H") as %HL.
  { iIntros (k M) "(%its' & %kids' & _ & %Hb & Hn)". iDestruct (IH with "Hn") as %Hn. iPureIntro. cbn [Nat.pow].
    apply (Nat.le_trans _ (S (length its') * d ^ h)); [apply Nat.mul_le_mono_r; lia|lia]. }
  iPureIntro. pose proof (sum_list_bound _ _ HL) as Hs. rewrite length_join // -Hl. lia.
Qed.

Lemma height_bound h n L : 2 ≤ d → S n * d ^ h ≤ S (length L) → h ≤ length L.
Proof.
  intros Hd HL. assert (S h ≤ d ^ h); [|assert (1 * d ^ h ≤ S n * d ^ h) by (apply Nat.mul_le_mono_r; lia); lia].
  clear -Hd. induction h as [|h IH]; [done|]. cbn [Nat.pow]. assert (2 * S h ≤ d * d ^ h) by by apply Nat.mul_le_mono. lia.
Qed.
End clones.
