(* ===== verification/BTreeOps.v ===== *)
(** * Operations on whole B-trees (github.com/google/btree: btree.go)

    [btree] relates a tree to the list of its items: the operations on the tree return,
    with the answer the list gives. *)

From iris.proofmode Require Import proofmode.
From iris.base_logic.lib Require Import ghost_map.
From S2P Require Import Prelude SortedLists BTree BTreeLists BTreeLogic BTreeNodes BTreeInsert BTreeRemove BTreeReads BTreeClones.

(** ** What an iteration visits *)
Section visit.
Context {A R : Type} (iter : A → R → bool * R).

Fixpoint visit (L : list A) (s : R) : R :=
  match L with
  | [] => s
  | x :: L => let '(go, s) := iter x s in if go : bool then visit L s else s
  end.
End visit.

(** Bounds that may be nil. *)
Section bounds.
Context {A : Type} (lt : A → A → bool).
Implicit Types (b : option A) (x : A) (L : list A).

Definition at_least b x : bool := match b with Some y => negb (lt x y) | None => true end.
Definition under b x : bool := match b with Some y => lt x y | None => true end.
Definition at_most b x : bool := match b with Some y => negb (lt y x) | None => true end.
Definition over b x : bool := match b with Some y => lt y x | None => true end.

(** The items from [start] up to [stop], and from [start] down to [stop]. *)
Definition ascending start stop L : list A := filter (λ x, at_least start x && under stop x = true) L.
Definition descending start stop L : list A := reverse (filter (λ x, at_most start x && over stop x = true) L).
End bounds.

Section iteration.
Context {A R : Type} {lt : A → A → bool} `{!strict_weak_order lt} (iter : A → R → bool * R).
Implicit Types (start stop : option A) (x : A) (L : list A) (hit includeStart : bool) (s : R).

(** The trees pass a start only together with [includeStart]. *)
Lemma ascend_list_visits start stop includeStart L hit s :
  includeStart = true ∨ start = None → strict lt L →
  (ascend_list lt iter start stop includeStart L hit s).2 = visit iter (ascending lt start stop L) s.
Proof.
  intros Hi. revert hit s. induction L as [|x L IH]; intros hit s Hs; [done|]. apply StronglySorted_inv in Hs as [Hs Hx]. cbn [ascend_list].
  assert (negb includeStart && negb hit && not_above lt start x = false) as -> by (destruct Hi as [-> | ->]; [done|by rewrite andb_false_r]).
  unfold ascending. rewrite filter_cons. destruct (less_than lt x start) eqn:E1.
  { rewrite decide_False; [by apply IH|]. unfold less_than, at_least in *. destruct start; [|done]. by rewrite E1. }
  assert (at_least lt start x = true) as -> by (unfold less_than, at_least in *; destruct start; [by rewrite E1|done]).
  destruct (not_less_than lt x stop) eqn:E2; cbn.
  - rewrite decide_False; [|destruct stop; [|done]; cbn in *; apply negb_true_iff in E2; by rewrite E2].
    rewrite filter_none; [done|]. apply (Forall_impl _ _ _ Hx). intros y Hy [_ Hu]%andb_true_iff. destruct stop as [b|]; [|done]. cbn in *.
    apply negb_true_iff in E2. by rewrite (lt_trans x y b Hy Hu) in E2.
  - rewrite decide_True; [|destruct stop; [|done]; cbn in *; by apply negb_false_iff]. cbn. destruct (iter x s) as [[] s']; [by apply IH|done].
Qed.

Lemma descend_list_visits start stop includeStart L hit s :
  includeStart = true ∨ start = None → StronglySorted (λ x y, lt y x = true) L →
  (hit = true → ∀ a, start = Some a → Forall (λ x, lt x a = true) L) →
  (descend_list lt iter start stop includeStart L hit s).2 =
  visit iter (filter (λ x, at_most lt start x && over lt stop x = true) L) s.
Proof.
  intros Hi. revert hit s. induction L as [|x L IH]; intros hit s Hs Hhit; [done|]. apply StronglySorted_inv in Hs as [Hs Hx].
  cbn [descend_list]. rewrite filter_cons.
  assert (not_less_than lt x start && (negb includeStart || hit || above_start lt start x) = negb (at_most lt start x)) as ->.
  { destruct start as [a|]; [|done]. destruct Hi as [->|]; [|done]. cbn. rewrite negb_involutive. destruct (lt a x) eqn:Ea.
    - by rewrite (lt_asym a x Ea) orb_true_r.
    - rewrite orb_false_r. destruct hit; [|by rewrite andb_false_r].
      specialize (Hhit eq_refl a eq_refl). apply Forall_cons in Hhit as [-> _]. done. }
  destruct (at_most lt start x) eqn:E1; cbn [negb].
  2: { case_decide as Hf; [done|]. apply IH; [done|]. intros Ht a Ha. by destruct (Forall_cons_1 _ _ _ (Hhit Ht a Ha)). }
  destruct (not_above lt stop x) eqn:E2.
  - rewrite decide_False; [|destruct stop; [|done]; cbn in *; apply negb_true_iff in E2; by rewrite E2].
    rewrite filter_none; [done|]. apply (Forall_impl _ _ _ Hx). intros y Hy [_ Hu]%andb_true_iff. destruct stop as [b|]; [|done]. cbn in *.
    apply negb_true_iff in E2. by rewrite (lt_trans b y x Hu Hy) in E2.
  - rewrite decide_True; [|destruct stop; [|done]; cbn in *; by apply negb_false_iff]. cbn. destruct (iter x s) as [[] s']; [|done].
    apply IH; [done|]. intros _ a ->. cbn in E1. apply negb_true_iff in E1. apply (Forall_impl _ _ _ Hx). intros y Hy. by apply (lt_le y x a).
Qed.

Lemma strict_reverse L : strict lt L → StronglySorted (λ x y, lt y x = true) (reverse L).
Proof.
  induction 1 as [|x L _ IH Hx]; [constructor|]. rewrite reverse_cons. apply StronglySorted_app. split_and!; [|done|by repeat constructor].
  intros y z Hy [->|Hz]%elem_of_cons; [|set_solver]. rewrite Forall_forall in Hx. apply Hx. by apply elem_of_reverse.
Qed.

Lemma filter_reverse (P : A → Prop) `{∀ x, Decision (P x)} L : filter P (reverse L) = reverse (filter P L).
Proof.
  induction L as [|x L IH]; [done|]. rewrite reverse_cons filter_app IH !filter_cons filter_nil.
  case_decide; [by rewrite reverse_cons|by rewrite app_nil_r].
Qed.

Definition selected (dir : direction) start stop L : list A :=
  match dir with ascend => ascending lt start stop L | descend => descending lt start stop L end.

Lemma flat_list_visits dir start stop includeStart L s :
  includeStart = true ∨ start = None → strict lt L →
  (flat_list (lt := lt) iter start stop includeStart dir L false s).2 = visit iter (selected dir start stop L) s.
Proof.
  intros Hi Hs. destruct dir; cbn; [|by apply ascend_list_visits].
  rewrite descend_list_visits; [|done|by apply strict_reverse|done]. unfold descending. by rewrite filter_reverse.
Qed.
End iteration.

(** ** Trees *)
Section trees.
Context {A : Type} `{!ghost_mapG Σ addr (node A)} {lt : A → A → bool} `{!strict_weak_order lt}.
Context (γ : gname) (nf nc : nat).
Implicit Types (t : BTree) (L : list A) (x key : A).

Local Notation wp := (wp γ nf nc).

Definition deg t : nat := Z.to_nat (degree t).

(** The degrees for which [maxItems] does not overflow. *)
Definition good_degree (n : Z) : Prop := (2 ≤ n ≤ 2 ^ 62)%Z.

#[export] Instance good_degree_dec n : Decision (good_degree n).
Proof. unfold good_degree. apply _. Defined.

(** A root holds at most [maxItems] items, and an item unless it is a leaf. *)
Definition root_at t l L : iProp Σ :=
  ∃ h its, ⌜length its ≤ 2 * deg t - 1 ∧ (h ≠ 0 → its ≠ [])⌝ ∗ tree_at γ (tcow t) (deg t) h l its L.

Definition btree t L : iProp Σ :=
  ⌜strict lt L ∧ tlength t = Z.of_nat (length L) ∧ good_degree (degree t) ∧
   context_freelist (tcow t) < nf ∧ id (tcow t) < nc⌝ ∗
  match root t with None => ⌜L = []⌝ | Some l => root_at t l L end.

Lemma deg_ge t : good_degree (degree t) → 2 ≤ deg t.
Proof. unfold good_degree, deg. lia. Qed.

Lemma maxItems_deg t : good_degree (degree t) → maxItems t = max_items (deg t).
Proof. unfold good_degree, deg, maxItems, max_items. intros Hd. rewrite i64_id; [lia|]. unfold in_i64. lia. Qed.

Lemma minItems_deg t : good_degree (degree t) → minItems t = min_items (deg t).
Proof. unfold good_degree, deg, minItems, min_items. intros Hd. rewrite i64_id; [lia|]. unfold in_i64. lia. Qed.

(** The depth of the recursion is within the fuel. *)
Lemma tree_fuel t c h l its L :
  good_degree (degree t) → tree_at γ c (deg t) h l its L ⊢ ⌜h ≤ length L⌝.
Proof.
  iIntros (Hd%deg_ge) "(%kids & _ & Hn)". iDestruct (content_height with "Hn") as %Hh; [lia|]. iPureIntro. by apply (height_bound (deg t) h (length its)).
Qed.

Lemma fuel_enough t L n : tlength t = Z.of_nat (length L) → n ≤ length L → 2 * n < fuel_of t ∧ n < fuel_of t.
Proof. unfold fuel_of. intros ->. rewrite Nat2Z.id. lia. Qed.

(** ** Reading a tree *)
Section read.
Context (t : BTree) (L : list A).

(** A read of the root that gives the tree back answers what it answers on the list. *)
Lemma wp_read {X} (f : addr → st (mem A) X) (none r : X) Φ :
  (L = [] → none = r) →
  (∀ h l its Ψ, h < fuel_of t → strict lt L → context_freelist (tcow t) < nf → 2 ≤ deg t →
     tree_at γ (tcow t) (deg t) h l its L -∗ (tree_at γ (tcow t) (deg t) h l its L -∗ Ψ r) -∗ wp (f l) Ψ) →
  btree t L -∗ (btree t L -∗ Φ r) -∗ wp (match root t with None => mret none | Some l => f l end) Φ.
Proof.
  iIntros (Hnone Hf) "(%Ht & Hroot) HΦ". pose proof Ht as (Hs & Hl & Hd & Hc & _). unfold btree. destruct (root t) as [l|].
  - iDestruct "Hroot" as (h its Hits) "Ht". iDestruct (tree_fuel with "Ht") as %Hh; [done|].
    destruct (fuel_enough t L h Hl Hh) as [_ Hfuel]. iApply (Hf with "Ht"); [done..|by apply deg_ge|]. iIntros "Ht".
    iApply "HΦ". iSplit; [done|]. iExists h, its. by iFrame.
  - iDestruct "Hroot" as %HL. iApply wp_ret. rewrite Hnone //. iApply "HΦ". iSplit; done.
Qed.

Lemma wp_Get key Φ : btree t L -∗ (btree t L -∗ Φ (head (equal lt key L))) -∗ wp (Get lt t (Some key)) Φ.
Proof. apply wp_read; [by intros ->|]. intros. by apply wp_node_get. Qed.

Lemma wp_Has key Φ : btree t L -∗ (btree t L -∗ Φ (bool_decide (equal lt key L ≠ []))) -∗ wp (Has lt t (Some key)) Φ.
Proof.
  iIntros "Ht HΦ". iApply wp_bind. iApply (wp_Get with "Ht"). iIntros "Ht". iApply wp_ret.
  replace (bool_decide (is_Some (head (equal lt key L)))) with (bool_decide (equal lt key L ≠ [])); [by iApply "HΦ"|].
  apply bool_decide_ext. destruct (equal lt key L); cbn; [|naive_solver]. split; [done|by intros [? ?]].
Qed.

Lemma wp_Min Φ : btree t L -∗ (btree t L -∗ Φ (head L)) -∗ wp (Min t) Φ.
Proof. apply wp_read; [by intros ->|]. intros. by apply (wp_node_min γ nf nc (tcow t) ltac:(done) (deg t) ltac:(done) h). Qed.

Lemma wp_Max Φ : btree t L -∗ (btree t L -∗ Φ (last L)) -∗ wp (Max t) Φ.
Proof. apply wp_read; [by intros ->|]. intros. by apply (wp_node_max γ nf nc (tcow t) ltac:(done) (deg t) ltac:(done) h). Qed.

Lemma wp_iterate_root {R} (iter : A → R → bool * R) dir start stop includeStart s Φ :
  includeStart = true ∨ start = None →
  btree t L -∗ (btree t L -∗ Φ (visit iter (selected (lt := lt) dir start stop L) s)) -∗
  wp (iterate_root lt iter t dir start stop includeStart s) Φ.
Proof.
  intros Hi. apply wp_read; [by intros ->; destruct dir|]. intros h l its Ψ Hh Hs Hc Hd. iIntros "Ht HΨ". iApply wp_bind.
  iApply (wp_node_iterate with "Ht"); [done..|]. iIntros "Ht". iApply wp_ret. rewrite flat_list_visits //. by iApply "HΨ".
Qed.
End read.

(** ** Writing to a tree *)
Lemma equal_head_length key L : strict lt L →
  length (inserted lt key L) = length L + (if head (equal lt key L) then 0 else 1) ∧
  length L = length (removed lt key L) + (if head (equal lt key L) then 1 else 0).
Proof.
  intros Hs. pose proof (parts_length (lt := lt) key L) as Hp. pose proof (equal_length (lt := lt) key L Hs) as He.
  unfold inserted, removed. rewrite !length_app /=. destruct (head (equal lt key L)); cbn in He; lia.
Qed.

Lemma left_over_length typ item L : strict lt L → (typ = removeItem → is_Some item) →
  length L = length (left_over (lt := lt) typ item L) + (if taken (lt := lt) typ item L then 1 else 0).
Proof.
  intros Hs Hi. destruct typ; cbn.
  - destruct Hi as [key ->]; [done|]. cbn. by apply equal_head_length.
  - destruct L; cbn; lia.
  - destruct L as [|x L _] using rev_ind; [done|]. by rewrite last_snoc removelast_last length_app.
Qed.

(** The root before an insertion has room for an item. *)
Lemma wp_grow_root t L l Φ :
  good_degree (degree t) → context_freelist (tcow t) < nf →
  root_at t l L -∗
  (∀ r h its kids, ⌜length its < 2 * deg t - 1 ∧ (h ≠ 0 → its ≠ [])⌝ -∗ owned γ (tcow t) r its kids -∗ content γ (tcow t) (deg t) h its kids L -∗ Φ r) -∗
  wp (grow_root t l) Φ.
Proof.
  iIntros (Hd Hc) "(%h & %its & [%Hits %Hne] & %kids & Hl & Hn) HΦ". pose proof (deg_ge t Hd) as Hd2. unfold grow_root.
  iApply wp_bind. iApply (wp_mutableFor with "Hl"); [done|]. iIntros (r) "Hr". iApply wp_bind. iApply (wp_load with "Hr"). iIntros "Hr".
  cbn [items]. rewrite maxItems_deg //. case_bool_decide as Hfull; unfold max_items in Hfull.
  2: { iApply wp_ret. iApply ("HΦ" with "[] Hr Hn"). iPureIntro. split; [lia|done]. }
  rewrite max_items_half //. iApply wp_bind. iApply wp_of_int. destruct (cut_at (deg t - 1) its) as (a & x & b & -> & Ha); [lia|].
  rewrite length_app /= in Hits Hfull. rewrite -Ha. iApply wp_bind. iApply (wp_split with "Hr Hn"); [done..|].
  iIntros (l2 kids1 kids2 L1 L2 ->) "Hr1 Hn1 Hr2 Hn2". iApply wp_bind. iApply wp_newNode; [done|]. iIntros (r') "Hr'".
  iApply wp_bind. iApply (wp_update_items with "Hr'"); [done|]. iIntros "Hr'".
  iApply wp_bind. iApply (wp_update_children with "Hr'"); [done|]. iIntros "Hr'". iApply wp_ret.
  iApply ("HΦ" $! r' (S h) [x] [r; l2] with "[] Hr'"); [iPureIntro; split; [cbn; lia|done]|].
  iApply content_S. iExists [L1; L2]. iSplit; [iPureIntro; split; [done|by rewrite /= after_cons app_nil_r]|]. cbn. rewrite right_id.
  iSplitL "Hr1 Hn1"; iExists _, _; iFrame; iSplitL; try (by iLeft); iPureIntro; lia.
Qed.

Lemma wp_ReplaceOrInsert t L key Φ :
  btree t L -∗ (∀ t', btree t' (inserted lt key L) -∗ Φ (head (equal lt key L), t')) -∗ wp (ReplaceOrInsert lt t (Some key)) Φ.
Proof.
  iIntros "[%Ht Hroot] HΦ". destruct Ht as (Hs & Hl & Hd & Hc & Hid). pose proof (deg_ge t Hd) as Hd2.
  destruct (equal_head_length key L Hs) as [Hlen _]. pose proof (strict_inserted key L Hs) as Hs'.
  unfold ReplaceOrInsert. iApply wp_bind. iApply wp_option; [done|]. destruct (root t) as [l|].
  - iApply wp_bind. iApply (wp_grow_root with "Hroot"); [done..|]. iIntros (r h its kids [Hroom Hne]) "Hr Hn".
    iDestruct (content_height with "Hn") as %Hh; [lia|]. apply height_bound in Hh; [|done].
    destruct (fuel_enough t L h Hl Hh) as [_ Hfuel]. rewrite maxItems_deg //.
    iApply wp_bind. iApply (wp_node_insert with "Hr Hn"); [done..|]. iIntros (its' kids' Hb) "Hr Hn". iApply wp_ret. iApply "HΦ".
    assert (h ≠ 0 → its' ≠ []) as Hne' by (intros Hh0 ->; destruct its; [by apply Hne|cbn in Hb; lia]).
    destruct (head (equal lt key L)); (iSplit; [iPureIntro; cbn; split_and!; [done|lia|done..]|]); iExists h, its';
      (iSplit; [iPureIntro; split; [unfold deg in *; cbn; lia|done]|]); iExists kids'; iFrame "Hn"; by iLeft.
  - iDestruct "Hroot" as %->. iApply wp_bind. iApply wp_newNode; [done|]. iIntros (l) "Hl".
    iApply wp_bind. iApply (wp_update_items with "Hl"); [done|]. iIntros "Hl". iApply wp_ret. iApply "HΦ".
    iSplit; [iPureIntro; cbn in *; split_and!; [done|lia|done..]|]. iExists 0, [key]. iSplit; [iPureIntro; unfold deg in *; cbn; lia|].
    iExists []. iSplit; [by iLeft|done].
Qed.

(** An inner root without items gives way to its only child. *)
Lemma wp_shrink_root t h r its kids cw L Φ :
  context_freelist (tcow t) < nf → 2 ≤ deg t → length its ≤ 2 * deg t - 1 →
  owned γ (tcow t) r its kids -∗ content γ (tcow t) (deg t) h its kids L -∗ (∀ r', root_at t r' L -∗ Φ r') -∗
  wp (if bool_decide (length (items (Node its kids cw)) = 0) && bool_decide (0 < length (children (Node its kids cw))) then
        c ← of_option (children (Node its kids cw) !! 0);
        freeNode (Some (tcow t)) r;;
        mret c
      else mret r) Φ.
Proof.
  iIntros (Hc Hd Hb) "Hr Hn HΦ". iDestruct (content_leaf with "Hn") as %[Hleaf _]. cbn [items children].
  destruct (_ && _) eqn:E.
  - apply andb_true_iff in E as [E1%bool_decide_eq_true E2%bool_decide_eq_true]. destruct its; [|done]. destruct h as [|h]; [lia|].
    rewrite content_S. iDestruct "Hn" as (Ls [Hl ->]) "H". destruct Ls as [|M [|]]; [done| |done].
    iDestruct (big_sepL2_cons_inv_r with "H") as (k kids' ->) "[Hk _]". iApply wp_bind. iApply wp_option; [done|].
    iApply wp_bind. iApply (wp_freeNode with "[Hr]"); [done|by iLeft|]. iIntros (_). iApply wp_ret. iApply "HΦ".
    iDestruct (child_tree with "Hk") as (its' Hb') "Hk". cbn. rewrite app_nil_r. iExists h, its'. iFrame "Hk". iPureIntro.
    split; [lia|]. intros _ ->. cbn in Hb'. lia.
  - iApply wp_ret. iApply "HΦ". iExists h, its. iSplit; [|iExists kids; iFrame; by iLeft]. iPureIntro. split; [done|]. intros Hh ->.
    apply andb_false_iff in E as [E%bool_decide_eq_false|E%bool_decide_eq_false]; [done|]. apply Hh, Hleaf. lia.
Qed.

Lemma strict_left_over typ item L : strict lt L → strict lt (left_over (lt := lt) typ item L).
Proof.
  intros Hs. destruct typ; cbn; [destruct item; [by apply strict_removed|done]|by apply sorted_tail|by apply sorted_removelast].
Qed.

Lemma wp_deleteItem t L item typ Φ :
  (typ = removeItem → is_Some item) →
  btree t L -∗ (∀ t', btree t' (left_over (lt := lt) typ item L) -∗ Φ (taken (lt := lt) typ item L, t')) -∗ wp (deleteItem lt t item typ) Φ.
Proof.
  iIntros (Hit) "[%Ht Hroot] HΦ". pose proof Ht as (Hs & Hl & Hd & Hc & Hid). pose proof (deg_ge t Hd) as Hd2.
  pose proof (left_over_length typ item L Hs Hit) as Hlen. pose proof (strict_left_over typ item L Hs) as Hs'.
  assert (taken (lt := lt) typ item [] = None ∧ left_over (lt := lt) typ item [] = []) as Hnil.
  { destruct typ; [|done..]. by destruct Hit as [key ->]. }
  unfold deleteItem. destruct (root t) as [l|] eqn:Eroot.
  2: { iDestruct "Hroot" as %->. iApply wp_ret. destruct Hnil as [-> ->]. iApply "HΦ". iSplit; [done|]. by rewrite Eroot. }
  iDestruct "Hroot" as (h its [Hits Hne]) "Ht". iApply wp_bind. iApply (wp_load_tree with "Ht"). iIntros (kids0 cw _) "Ht". cbn [items].
  case_bool_decide as H0.
  { assert (h = 0) as -> by (destruct (decide (h = 0)); [done|]; by destruct its; [destruct Hne|]). destruct its; [|done].
    iDestruct "Ht" as (kids) "[Hl [-> ->]]". iApply wp_ret. destruct Hnil as [-> ->]. iApply "HΦ". iSplit; [done|]. rewrite Eroot.
    iExists 0, []. iSplit; [done|]. iExists []. by iFrame. }
  iDestruct (tree_fuel with "Ht") as %Hh; [done|]. destruct (fuel_enough t L h Hl Hh) as [Hfuel _].
  iDestruct "Ht" as (kids) "[Hl Hn]". iApply wp_bind. iApply (wp_mutableFor with "Hl"); [done|]. iIntros (r) "Hr".
  rewrite minItems_deg //. iApply wp_bind. iApply (wp_node_remove with "Hr Hn"); [done..|by destruct its|done|]. iIntros (its' kids' Hb) "Hr Hn".
  iApply wp_bind. iApply (wp_load with "Hr"). iIntros "Hr". iApply wp_bind. iApply (wp_shrink_root with "Hr Hn"); [done|done|lia|].
  iIntros (r') "Ht". iApply wp_ret. iApply "HΦ". iSplit; [|by destruct (taken typ item L)].
  iPureIntro. destruct (taken typ item L); cbn in *; split_and!; try done; lia.
Qed.

Lemma wp_Clear t L b Φ : btree t L -∗ (∀ t', btree t' [] -∗ Φ t') -∗ wp (Clear t b) Φ.
Proof.
  iIntros "[%Ht Hroot] HΦ". destruct Ht as (Hs & Hl & Hd & Hc & Hid). unfold Clear. iApply wp_bind.
  iAssert (∀ Ψ, Ψ () -∗ wp (match root t with
     Some l => if b then node_reset (fuel_of t) l (tcow t);; mret () else mret () | None => mret () end) Ψ)%I with "[Hroot]" as "Hwp".
  { iIntros (Ψ) "HΨ". destruct (root t) as [l|]; [|by iApply wp_ret]. destruct b; [|by iApply wp_ret].
    iDestruct "Hroot" as (h its _) "Ht". iDestruct (tree_fuel with "Ht") as %Hh; [done|]. destruct (fuel_enough t L h Hl Hh) as [_ Hfuel].
    iDestruct "Ht" as (kids) "[Hl Hn]". iApply wp_bind. iApply (wp_node_reset with "Hl Hn"); [done..|]. iIntros (_). by iApply wp_ret. }
  iApply "Hwp". iApply wp_ret. iApply "HΦ". iSplit; [|done]. iPureIntro. split_and!; [constructor|done..].
Qed.
End trees.

(** ** New contexts *)
Section contexts.
Context {A : Type} `{!ghost_mapG Σ addr (node A)} {lt : A → A → bool} (γ : gname).
Implicit Types (t : BTree) (L : list A).

Lemma btree_mono nf nc nf' nc' t L : nf ≤ nf' → nc ≤ nc' → btree (lt := lt) γ nf nc t L -∗ btree (lt := lt) γ nf' nc' t L.
Proof. iIntros (Hf Hc) "[%Ht Hroot]". iFrame "Hroot". iPureIntro. destruct Ht as (?&?&?&?&?). split_and!; [done..|lia|lia]. Qed.

(** A clone: both trees have the items, with contexts of their own. *)
Lemma btree_clone nf nc t L c1 c2 :
  btree (lt := lt) γ nf nc t L -∗ ⌜context_freelist c1 < nf ∧ context_freelist c2 < nf ∧ id (tcow t) < id c1 ∧ id (tcow t) < id c2⌝ ==∗
  ∀ nc', ⌜id c1 < nc' ∧ id c2 < nc'⌝ -∗
  btree (lt := lt) γ nf nc' {| degree := degree t; tlength := tlength t; root := root t; tcow := c1 |} L ∗
  btree (lt := lt) γ nf nc' {| degree := degree t; tlength := tlength t; root := root t; tcow := c2 |} L.
Proof.
  iIntros "[%Ht Hroot] %Hc". destruct Ht as (Hs & Hl & Hd & Hcf & Hid). destruct Hc as (Hc1 & Hc2 & Hi1 & Hi2).
  iAssert (|==> later_contexts (tcow t) (λ c', match root t with None => ⌜L = []⌝ | Some l =>
     root_at γ {| degree := degree t; tlength := tlength t; root := root t; tcow := c' |} l L end))%I with "[Hroot]" as ">#H".
  { destruct (root t) as [l|]; [|iDestruct "Hroot" as %->; iIntros "!> !>" (c' _); done].
    iDestruct "Hroot" as (h its Hits kids) "[Hl Hn]". iMod (readable_share with "Hl") as "#Hl". iMod (content_share with "Hn") as "#Hn".
    iIntros "!> !>" (c' Hc'). iExists h, its. iSplit; [done|]. iExists kids. iSplitL; [by iApply "Hl"|by iApply "Hn"]. }
  iIntros "!>" (nc' [Hn1 Hn2]). iSplitL; (iSplit; [iPureIntro; by split_and!|by iApply "H"]).
Qed.
End contexts.
