(* ===== verification/BTreeRefinement.v ===== *)
(** * What B-trees promise (github.com/google/btree: btree.go)

    Any sequence of operations on any number of trees, new ones and clones, with free lists
    of their own or shared, against independent sorted lists of items; and the shape of the
    trees. *)

From iris.proofmode Require Import proofmode.
From iris.base_logic.lib Require Import ghost_map.
From S2P Require Import Prelude SortedLists BTree BTreeLists BTreeLogic BTreeNodes BTreeInsert BTreeRemove BTreeReads BTreeClones BTreeOps.

(** ** Sequences of operations

    A tree is named by its position among the trees made so far; [next_ok] says whether an
    iteration goes on, given the items visited before and the one visited now. *)
Inductive iteration (A : Type) : Type :=
| DoAscendRange (greaterOrEqual lessThan : option A)
| DoAscendLessThan (pivot : option A)
| DoAscendGreaterOrEqual (pivot : option A)
| DoAscend
| DoDescendRange (lessOrEqual greaterThan : option A)
| DoDescendLessOrEqual (pivot : option A)
| DoDescendGreaterThan (pivot : option A)
| DoDescend.
Arguments DoAscendRange {A} _ _.
Arguments DoAscendLessThan {A} _.
Arguments DoAscendGreaterOrEqual {A} _.
Arguments DoAscend {A}.
Arguments DoDescendRange {A} _ _.
Arguments DoDescendLessOrEqual {A} _.
Arguments DoDescendGreaterThan {A} _.
Arguments DoDescend {A}.

Inductive btree_op (A : Type) : Type :=
| DoNewFreeList (size : Z)
| DoNew (degree : Z)
| DoNewWithFreeList (degree : Z) (f : nat)
| DoClone (i : nat)
| DoReplaceOrInsert (i : nat) (item : A)
| DoDelete (i : nat) (item : A)
| DoDeleteMin (i : nat)
| DoDeleteMax (i : nat)
| DoGet (i : nat) (key : A)
| DoHas (i : nat) (key : A)
| DoMin (i : nat)
| DoMax (i : nat)
| DoLen (i : nat)
| DoClear (i : nat) (addNodesToFreelist : bool)
| DoIterate (i : nat) (it : iteration A) (next_ok : list A → A → bool).
Arguments DoNewFreeList {A} _.
Arguments DoNew {A} _.
Arguments DoNewWithFreeList {A} _ _.
Arguments DoClone {A} _.
Arguments DoReplaceOrInsert {A} _ _.
Arguments DoDelete {A} _ _.
Arguments DoDeleteMin {A} _.
Arguments DoDeleteMax {A} _.
Arguments DoGet {A} _ _.
Arguments DoHas {A} _ _.
Arguments DoMin {A} _.
Arguments DoMax {A} _.
Arguments DoLen {A} _.
Arguments DoClear {A} _ _.
Arguments DoIterate {A} _ _ _.

Inductive answer (A : Type) : Type :=
| Done
| Item (x : option A)
| Yes (b : bool)
| Count (n : Z)
| Items (L : list A).
Arguments Done {A}.
Arguments Item {A} _.
Arguments Yes {A} _.
Arguments Count {A} _.
Arguments Items {A} _.

Definition mem0 {A} : mem A := {| heap := ∅; next := 0; freelists := []; contexts := 0 |}.

Section refinement.
Context {A : Type} (lt : A → A → bool).
Implicit Types (ts : list BTree) (L : list A) (o : btree_op A).

(** *** The code *)
Definition record_items (next_ok : list A → A → bool) (x : A) (s : list A) : bool * list A := (next_ok s x, s ++ [x]).

Definition do_iterate (it : iteration A) (f : A → list A → bool * list A) (t : BTree) : st (mem A) (list A) :=
  match it with
  | DoAscendRange a b => AscendRange lt f t a b []
  | DoAscendLessThan a => AscendLessThan lt f t a []
  | DoAscendGreaterOrEqual a => AscendGreaterOrEqual lt f t a []
  | DoAscend => Ascend lt f t []
  | DoDescendRange a b => DescendRange lt f t a b []
  | DoDescendLessOrEqual a => DescendLessOrEqual lt f t a []
  | DoDescendGreaterThan a => DescendGreaterThan lt f t a []
  | DoDescend => Descend lt f t []
  end.

Definition on_tree ts (i : nat) (f : BTree → st (mem A) (answer A * BTree)) : st (mem A) (answer A * list BTree) :=
  t ← of_option (ts !! i);
  p ← f t;
  mret (p.1, <[i := p.2]> ts).

Definition do_op o ts : st (mem A) (answer A * list BTree) :=
  match o with
  | DoNewFreeList size => NewFreeList size;; mret (Done, ts)
  | DoNew degree => t ← New degree; mret (Done, ts ++ [t])
  | DoNewWithFreeList degree f => t ← NewWithFreeList degree f; mret (Done, ts ++ [t])
  | DoClone i =>
    t ← of_option (ts !! i);
    p ← Clone t;
    mret (Done, <[i := p.1]> ts ++ [p.2])
  | DoReplaceOrInsert i item => on_tree ts i (λ t, p ← ReplaceOrInsert lt t (Some item); mret (Item p.1, p.2))
  | DoDelete i item => on_tree ts i (λ t, p ← Delete lt t (Some item); mret (Item p.1, p.2))
  | DoDeleteMin i => on_tree ts i (λ t, p ← DeleteMin lt t; mret (Item p.1, p.2))
  | DoDeleteMax i => on_tree ts i (λ t, p ← DeleteMax lt t; mret (Item p.1, p.2))
  | DoGet i key => on_tree ts i (λ t, x ← Get lt t (Some key); mret (Item x, t))
  | DoHas i key => on_tree ts i (λ t, b ← Has lt t (Some key); mret (Yes b, t))
  | DoMin i => on_tree ts i (λ t, x ← Min t; mret (Item x, t))
  | DoMax i => on_tree ts i (λ t, x ← Max t; mret (Item x, t))
  | DoLen i => on_tree ts i (λ t, mret (Count (Len t), t))
  | DoClear i b => on_tree ts i (λ t, t' ← Clear t b; mret (Done, t'))
  | DoIterate i it next_ok => on_tree ts i (λ t, s ← do_iterate it (record_items next_ok) t; mret (Items s, t))
  end.

Fixpoint do_ops (os : list (btree_op A)) ts : st (mem A) (list (answer A) * list BTree) :=
  match os with
  | [] => mret ([], ts)
  | o :: os =>
    p ← do_op o ts;
    q ← do_ops os p.2;
    mret (p.1 :: q.1, q.2)
  end.

(** *** The specification

    The number of free lists, and a sorted list of items per tree.  There is no answer to a
    bad degree or size, or where there is no such tree or free list. *)
Definition list_iterate (it : iteration A) L : list A :=
  match it with
  | DoAscendRange a b => ascending lt a b L
  | DoAscendLessThan b => ascending lt None b L
  | DoAscendGreaterOrEqual a => ascending lt a None L
  | DoAscend => L
  | DoDescendRange a b => descending lt a b L
  | DoDescendLessOrEqual a => descending lt a None L
  | DoDescendGreaterThan b => descending lt None b L
  | DoDescend => reverse L
  end.

Definition on_list (w : nat * list (list A)) (i : nat) (f : list A → answer A * list A) : option (answer A * (nat * list (list A))) :=
  L ← w.2 !! i;
  let '(r, L') := f L in
  Some (r, (w.1, <[i := L']> w.2)).

Definition list_op o (w : nat * list (list A)) : option (answer A * (nat * list (list A))) :=
  match o with
  | DoNewFreeList size => guard (0 ≤ size)%Z;; Some (Done, (S w.1, w.2))
  | DoNew degree => guard (good_degree degree);; Some (Done, (S w.1, w.2 ++ [[]]))
  | DoNewWithFreeList degree f => guard (good_degree degree);; guard (f < w.1);; Some (Done, (w.1, w.2 ++ [[]]))
  | DoClone i => L ← w.2 !! i; Some (Done, (w.1, w.2 ++ [L]))
  | DoReplaceOrInsert i item => on_list w i (λ L, (Item (head (equal lt item L)), inserted lt item L))
  | DoDelete i item => on_list w i (λ L, (Item (head (equal lt item L)), removed lt item L))
  | DoDeleteMin i => on_list w i (λ L, (Item (head L), tail L))
  | DoDeleteMax i => on_list w i (λ L, (Item (last L), removelast L))
  | DoGet i key => on_list w i (λ L, (Item (head (equal lt key L)), L))
  | DoHas i key => on_list w i (λ L, (Yes (bool_decide (equal lt key L ≠ [])), L))
  | DoMin i => on_list w i (λ L, (Item (head L), L))
  | DoMax i => on_list w i (λ L, (Item (last L), L))
  | DoLen i => on_list w i (λ L, (Count (Z.of_nat (length L)), L))
  | DoClear i b => on_list w i (λ L, (Done, []))
  | DoIterate i it next_ok => on_list w i (λ L, (Items (visit (record_items next_ok) (list_iterate it L) []), L))
  end.

Fixpoint list_ops (os : list (btree_op A)) (w : nat * list (list A)) : option (list (answer A) * (nat * list (list A))) :=
  match os with
  | [] => Some ([], w)
  | o :: os =>
    p ← list_op o w;
    q ← list_ops os p.2;
    Some (p.1 :: q.1, q.2)
  end.

(** ** The trees implement it *)
Section simulation.
Context `{!ghost_mapG Σ addr (node A)} `{!strict_weak_order lt} (γ : gname).

(** All the trees, beside the memory. *)
Definition world (w : nat * list (list A)) ts (σ : mem A) : iProp Σ :=
  ∃ nc, interp γ w.1 nc σ ∗ [∗ list] t;L ∈ ts;w.2, btree (lt := lt) γ w.1 nc t L.

Lemma step_on_tree w ts i f g r w' σ :
  on_list w i g = Some (r, w') →
  (∀ nf nc t L Φ, btree (lt := lt) γ nf nc t L -∗
     (∀ t', btree (lt := lt) γ nf nc t' (g L).2 -∗ Φ ((g L).1, t')) -∗ wp γ nf nc (f t) Φ) →
  world w ts σ ==∗ ∃ ts' σ', ⌜on_tree ts i f σ = Ret (r, ts') σ'⌝ ∗ world w' ts' σ'.
Proof.
  unfold on_list. intros Hg Hf. destruct (w.2 !! i) as [L|] eqn:HL; [|done]. cbn in Hg. destruct (g L) as [r' L'] eqn:EL.
  injection Hg as -> <-. iIntros "(%nc & Hσ & H)". iDestruct (big_sepL2_length with "H") as %Hlen.
  destruct (lookup_lt_is_Some_2 ts i) as [t Ht]; [rewrite Hlen; by apply lookup_lt_Some in HL|].
  iDestruct (big_sepL2_insert_acc with "H") as "[Ht H]"; [done..|].
  iMod (Hf w.1 nc t L (λ p, ⌜p.1 = r⌝ ∗ btree (lt := lt) γ w.1 nc p.2 L')%I with "Ht [] Hσ") as ([r' t'] σ' E) "[Hσ [%Er Ht]]".
  { iIntros (t') "Ht". rewrite EL. by iFrame. }
  cbn in Er, E. subst r'. iModIntro. iExists (<[i := t']> ts), σ'. iSplit.
  - iPureIntro. unfold on_tree, mbind, st_bind, of_option, mret, st_ret. rewrite Ht. by rewrite E.
  - iExists nc. iFrame "Hσ". by iApply "H".
Qed.

Lemma step_read {X} w ts i (f : BTree → st (mem A) X) (ans : X → answer A) (g : list A → X) r w' σ :
  on_list w i (λ L, (ans (g L), L)) = Some (r, w') →
  (∀ nf nc t L Φ, btree (lt := lt) γ nf nc t L -∗ (btree (lt := lt) γ nf nc t L -∗ Φ (g L)) -∗ wp γ nf nc (f t) Φ) →
  world w ts σ ==∗ ∃ ts' σ', ⌜on_tree ts i (λ t, x ← f t; mret (ans x, t)) σ = Ret (r, ts') σ'⌝ ∗ world w' ts' σ'.
Proof.
  intros Hg Hf. apply step_on_tree with (1 := Hg). iIntros (nf nc t L Φ) "Ht HΦ". iApply wp_bind. iApply (Hf with "Ht"). iIntros "Ht".
  iApply wp_ret. by iApply "HΦ".
Qed.

Lemma step_write w ts i (f : BTree → st (mem A) (option A * BTree)) (g : list A → option A) (g' : list A → list A) r w' σ :
  on_list w i (λ L, (Item (g L), g' L)) = Some (r, w') →
  (∀ nf nc t L Φ, btree (lt := lt) γ nf nc t L -∗
     (∀ t', btree (lt := lt) γ nf nc t' (g' L) -∗ Φ (g L, t')) -∗ wp γ nf nc (f t) Φ) →
  world w ts σ ==∗ ∃ ts' σ', ⌜on_tree ts i (λ t, p ← f t; mret (Item p.1, p.2)) σ = Ret (r, ts') σ'⌝ ∗ world w' ts' σ'.
Proof.
  intros Hg Hf. apply step_on_tree with (1 := Hg). iIntros (nf nc t L Φ) "Ht HΦ". iApply wp_bind. iApply (Hf with "Ht"). iIntros (t') "Ht".
  iApply wp_ret. by iApply "HΦ".
Qed.

Lemma wp_do_iterate nf nc it f t L Φ :
  btree (lt := lt) γ nf nc t L -∗ (btree (lt := lt) γ nf nc t L -∗ Φ (visit f (list_iterate it L) [])) -∗
  wp γ nf nc (do_iterate it f t) Φ.
Proof.
  assert (ascending lt None None L = L) as Ha by by apply filter_all, Forall_true.
  assert (descending lt None None L = reverse L) as Hb by (unfold descending; f_equal; by apply filter_all, Forall_true).
  pose proof (λ dir a b inc, wp_iterate_root γ nf nc t L f dir a b inc [] Φ) as Hw.
  destruct it as [a b|b|a| |a b|a|b|]; cbn [do_iterate list_iterate].
  - apply (Hw ascend a b true). by left.
  - apply (Hw ascend None b false). by right.
  - apply (Hw ascend a None true). by left.
  - specialize (Hw ascend None None false (or_intror eq_refl)). cbn in Hw. by rewrite Ha in Hw.
  - apply (Hw descend a b true). by left.
  - apply (Hw descend a None true). by left.
  - apply (Hw descend None b false). by right.
  - specialize (Hw descend None None false (or_intror eq_refl)). cbn in Hw. by rewrite Hb in Hw.
Qed.

(** New free lists, trees and clones. *)
Lemma world_freelist w ts σ n :
  world w ts σ -∗
  world (S w.1, w.2) ts {| heap := heap σ; next := next σ; freelists := freelists σ ++ [{| freelist := []; capacity := n |}]; contexts := contexts σ |} ∗
  ⌜length (freelists σ) = w.1⌝.
Proof.
  iIntros "(%nc & (Hσ & %Hσ & Hf) & H)". destruct Hσ as (Hn & Hl & Hc). iSplit; [|done]. iExists nc. iSplitR "H".
  - unfold interp. cbn. iFrame. iSplit; [|cbn; by iSplitL]. iPureIntro. rewrite length_app /=. split_and!; [done|lia|done].
  - iApply (big_sepL2_impl with "H"). iIntros "!>" (k t L _ _) "Ht". iApply (btree_mono with "Ht"); cbn; lia.
Qed.

Lemma world_context w ts σ nf f :
  f < nf → w.1 = nf →
  world w ts σ -∗
  ∃ nc, ⌜new_context f σ = Ret (Context_ nc f) {| heap := heap σ; next := next σ; freelists := freelists σ; contexts := S (contexts σ) |}⌝ ∗
    interp γ nf (S nc) {| heap := heap σ; next := next σ; freelists := freelists σ; contexts := S (contexts σ) |} ∗
    [∗ list] t;L ∈ ts;w.2, btree (lt := lt) γ nf nc t L.
Proof.
  iIntros (Hf <-) "(%nc & (Hσ & %Hσ & Hf) & H)". destruct Hσ as (Hn & Hl & Hc). iExists nc. iFrame "H". iSplit.
  - iPureIntro. unfold new_context. by rewrite Hc.
  - unfold interp. cbn. iFrame. iPureIntro. by rewrite Hc.
Qed.

Lemma step_new_tree w ts degree f σ :
  good_degree degree → f < w.1 → world w ts σ -∗
  ∃ t σ', ⌜NewWithFreeList degree f σ = Ret t σ'⌝ ∗ world (w.1, w.2 ++ [[]]) (ts ++ [t]) σ'.
Proof.
  iIntros (Hd Hf) "Hw". iDestruct (world_context _ _ _ _ f with "Hw") as (nc E) "[Hσ H]"; [done..|].
  iExists {| degree := degree; tlength := 0; root := None; tcow := Context_ nc f |}, _. iSplit.
  - iPureIntro. unfold NewWithFreeList. rewrite bool_decide_eq_false_2; [|unfold good_degree in Hd; lia].
    unfold mbind, st_bind. by rewrite E.
  - iExists (S nc). iFrame "Hσ". iApply (big_sepL2_app with "[H]").
    + iApply (big_sepL2_impl with "H"). iIntros "!>" (k t L _ _) "Ht". iApply (btree_mono with "Ht"); cbn; lia.
    + cbn. rewrite right_id. iSplit; [|done]. iPureIntro. cbn. split_and!; [constructor|done|done|done|lia].
Qed.

Lemma step_clone w ts i L σ :
  w.2 !! i = Some L → world w ts σ ==∗
  ∃ ts' σ', ⌜do_op (DoClone i) ts σ = Ret (Done, ts') σ'⌝ ∗ world (w.1, w.2 ++ [L]) ts' σ'.
Proof.
  iIntros (HL) "(%nc & (Hσ & %Hσ & Hf) & H)". destruct Hσ as (Hn & Hl & Hc). iDestruct (big_sepL2_length with "H") as %Hlen.
  destruct (lookup_lt_is_Some_2 ts i) as [t Ht]; [rewrite Hlen; by apply lookup_lt_Some in HL|].
  iAssert ⌜context_freelist (tcow t) < w.1 ∧ id (tcow t) < nc⌝%I as %[Hcf Hid].
  { iDestruct (big_sepL2_lookup_acc with "H") as "[[%Ht' _] _]"; [done..|]. iPureIntro. naive_solver. }
  iDestruct (big_sepL2_impl _ (λ _ t L, btree (lt := lt) γ w.1 (S (S nc)) t L) with "H []") as "H".
  { iIntros "!>" (k t' L' _ _) "Ht". iApply (btree_mono with "Ht"); lia. }
  iDestruct (big_sepL2_insert_acc with "H") as "[Ht H]"; [done..|].
  iMod (btree_clone _ _ _ _ _ (Context_ nc (context_freelist (tcow t))) (Context_ (S nc) (context_freelist (tcow t))) with "Ht []") as "Ht".
  { iPureIntro. cbn. split_and!; [done|done|lia|lia]. }
  iDestruct ("Ht" $! (S (S nc)) with "[]") as "[Ht1 Ht2]"; [iPureIntro; cbn; lia|].
  iModIntro. iExists _, _. iSplit; [iPureIntro; cbn; unfold mbind, st_bind, of_option, mret, st_ret; by rewrite Ht|].
  iExists (S (S nc)). rewrite Hc. iSplitL "Hσ Hf"; [unfold interp; cbn; by iFrame|]. iApply (big_sepL2_app with "[H Ht1]"); [|by iFrame].
  iSpecialize ("H" with "Ht1"). by rewrite (list_insert_id w.2 i L).
Qed.

Lemma step_op o w r w' ts σ :
  list_op o w = Some (r, w') → world w ts σ ==∗ ∃ ts' σ', ⌜do_op o ts σ = Ret (r, ts') σ'⌝ ∗ world w' ts' σ'.
Proof.
  intros Ho. destruct o as [size|degree|degree f|i|i x|i x|i|i|i x|i x|i|i|i|i b|i it next_ok]; cbn [list_op] in Ho; cbn [do_op].
  - apply bind_Some in Ho as (Hs & _ & [= <- <-]). iIntros "Hw". iDestruct (world_freelist _ _ _ (Z.to_nat size) with "Hw") as "[Hw _]".
    iModIntro. iExists ts, _. iFrame "Hw". iPureIntro. unfold NewFreeList, mbind, st_bind, of_int. by rewrite bool_decide_eq_false_2; [|lia].
  - apply bind_Some in Ho as (Hd & _ & [= <- <-]). iIntros "Hw". iDestruct (world_freelist _ _ _ 32 with "Hw") as "[Hw %Hl]".
    iDestruct (step_new_tree _ _ degree w.1 with "Hw") as (t σ' E) "Hw"; [done|cbn; lia|]. iModIntro. iExists (ts ++ [t]), σ'.
    iFrame "Hw". iPureIntro.
    assert (New degree σ = Ret t σ') as E'; [|unfold mbind, st_bind; by rewrite E']. unfold New, mbind, st_bind. by rewrite -Hl in E.
  - apply bind_Some in Ho as (Hd & _ & (Hf & _ & [= <- <-])%bind_Some). iIntros "Hw".
    iDestruct (step_new_tree _ _ degree f with "Hw") as (t σ' E) "Hw"; [done..|]. iModIntro. iExists (ts ++ [t]), σ'.
    iFrame "Hw". iPureIntro. unfold mbind, st_bind. by rewrite E.
  - apply bind_Some in Ho as (L & HL & [= <- <-]). by apply step_clone.
  - apply (step_write w ts i (λ t, ReplaceOrInsert lt t (Some x)) (λ L, head (equal lt x L)) (inserted lt x) r w' σ Ho).
    intros. apply wp_ReplaceOrInsert.
  - apply (step_write w ts i (λ t, Delete lt t (Some x)) (λ L, head (equal lt x L)) (removed lt x) r w' σ Ho).
    intros. apply (wp_deleteItem γ nf nc t L (Some x) removeItem). by eauto.
  - apply (step_write w ts i (λ t, DeleteMin lt t) head tail r w' σ Ho). intros. by apply (wp_deleteItem γ nf nc t L None removeMin).
  - apply (step_write w ts i (λ t, DeleteMax lt t) last (@removelast A) r w' σ Ho). intros. by apply (wp_deleteItem γ nf nc t L None removeMax).
  - apply (step_read w ts i (λ t, Get lt t (Some x)) Item (λ L, head (equal lt x L)) r w' σ Ho). intros. apply wp_Get.
  - apply (step_read w ts i (λ t, Has lt t (Some x)) Yes (λ L, bool_decide (equal lt x L ≠ [])) r w' σ Ho). intros. apply wp_Has.
  - apply (step_read w ts i Min Item head r w' σ Ho). intros. apply wp_Min.
  - apply (step_read w ts i Max Item last r w' σ Ho). intros. apply wp_Max.
  - apply (step_on_tree w ts i (λ t, mret (Count (Len t), t)) (λ L, (Count (Z.of_nat (length L)), L)) r w' σ Ho).
    iIntros (nf nc t L Φ) "Ht HΦ". iAssert ⌜tlength t = Z.of_nat (length L)⌝%I as %Hl; [by iDestruct "Ht" as "[%Ht _]"; iPureIntro; naive_solver|].
    iApply wp_ret. unfold Len. rewrite Hl. by iApply "HΦ".
  - apply (step_on_tree w ts i (λ t, t' ← Clear t b; mret (Done, t')) (λ L, (Done, [])) r w' σ Ho).
    iIntros (nf nc t L Φ) "Ht HΦ". iApply wp_bind. iApply (wp_Clear with "Ht"). iIntros (t') "Ht". iApply wp_ret. by iApply "HΦ".
  - apply (step_read w ts i (do_iterate it (record_items next_ok)) Items (λ L, visit (record_items next_ok) (list_iterate it L) []) r w' σ Ho).
    intros. by apply wp_do_iterate.
Qed.

Lemma steps os w rs w' ts σ :
  list_ops os w = Some (rs, w') → world w ts σ ==∗ ∃ ts' σ', ⌜do_ops os ts σ = Ret (rs, ts') σ'⌝ ∗ world w' ts' σ'.
Proof.
  revert w rs ts σ. induction os as [|o os IH]; intros w rs ts σ Hos; cbn in Hos.
  - injection Hos as <- <-. iIntros "Hw !>". iExists ts, σ. by iFrame.
  - apply bind_Some in Hos as ([r w1] & Ho & ([rs' w2] & Hos & [= <- <-])%bind_Some). iIntros "Hw".
    iMod (step_op with "Hw") as (ts1 σ1 E1) "Hw"; [done|]. iMod (IH with "Hw") as (ts2 σ2 E2) "Hw"; [done|].
    iModIntro. iExists ts2, σ2. iFrame. iPureIntro. cbn. unfold mbind, st_bind. by rewrite E1 /= E2.
Qed.

(** *** The memory in the end *)
Lemma world_new : ghost_map_auth γ 1 ∅ -∗ world (0, []) [] mem0.
Proof. iIntros "H". iExists 0. unfold interp. cbn. iFrame. iSplit; [|done]. iSplit; done. Qed.

Lemma free_nodes_NoDup (ls : list addr) : ([∗ list] l ∈ ls, l ↪[γ] (empty_node : node A)) ⊢ ⌜NoDup ls⌝.
Proof.
  induction ls as [|l ls IH]; iIntros "H"; [iPureIntro; constructor|]. iDestruct "H" as "[Hl H]". iDestruct (IH with "H") as %Hls.
  iAssert ⌜l ∉ ls⌝%I as %Hl; [|iPureIntro; by constructor]. iIntros (Hin). apply list_elem_of_lookup in Hin as [i Hi].
  iDestruct (big_sepL_lookup with "H") as "H"; [done|]. iDestruct (ghost_map_elem_ne with "Hl H") as %Hne. done.
Qed.

Lemma free_nodes_concat (fs : list FreeList) :
  ([∗ list] f ∈ fs, [∗ list] l ∈ freelist f, l ↪[γ] (empty_node : node A)) ⊢ [∗ list] l ∈ concat (freelist <$> fs), l ↪[γ] (empty_node : node A).
Proof. induction fs as [|f fs IH]; cbn; [done|]. by rewrite IH big_sepL_app. Qed.

Lemma interp_free_nodes nf nc σ :
  interp γ nf nc σ ⊢ ⌜NoDup (concat (freelist <$> freelists σ)) ∧
    Forall (λ l, heap σ !! l = Some empty_node) (concat (freelist <$> freelists σ))⌝.
Proof.
  iIntros "(Hσ & _ & Hf)". iDestruct (free_nodes_concat with "Hf") as "Hf". iDestruct (free_nodes_NoDup with "Hf") as %Hnd. iSplit; [done|].
  iInduction (concat (freelist <$> freelists σ)) as [|l ls IH]; [iPureIntro; constructor|]. iDestruct "Hf" as "[Hl Hf]".
  iDestruct (ghost_map_lookup with "Hσ Hl") as %El. apply NoDup_cons in Hnd as [_ Hnd]. iDestruct ("IH" with "[//] Hσ Hf") as %Hls. iPureIntro. by constructor.
Qed.
End simulation.

(** The shape of a tree of height [h]: the contexts of its nodes, the limits on the number of
    items (the root may have fewer), a child more than items, leaves at one depth. *)
Fixpoint shaped (H : gmap addr (node A)) (d : nat) (c : copyOnWriteContext) (h : nat) (is_root : bool) (l : addr) : bool :=
  match H !! l with
  | None => false
  | Some n =>
    (is_root || bool_decide (d - 1 ≤ length (items n))) && bool_decide (length (items n) ≤ 2 * d - 1) &&
    match cow n with Some c' => bool_decide (c' = c ∨ id c' < id c) | None => false end &&
    match h with
    | 0 => bool_decide (children n = [])
    | S h => bool_decide (length (children n) = S (length (items n))) && forallb (shaped H d c h false) (children n)
    end
  end.

Section shape.
Context `{!ghost_mapG Σ addr (node A)} (γ : gname) (d : nat) (c : copyOnWriteContext).

Lemma readable_lookup (H : gmap addr (node A)) l its kids :
  ghost_map_auth γ 1 H -∗ readable γ c l its kids -∗
  ⌜∃ c', H !! l = Some (Node its kids (Some c')) ∧ (c' = c ∨ id c' < id c)⌝.
Proof.
  iIntros "HH [Hl|(%c' & %Hid & Hl)]"; iDestruct (ghost_map_lookup with "HH Hl") as %E; iPureIntro; [exists c|exists c']; by auto.
Qed.

Lemma content_shaped (H : gmap addr (node A)) h : ∀ l its kids L is_root,
  (is_root = true ∨ d - 1 ≤ length its) → length its ≤ 2 * d - 1 →
  ghost_map_auth γ 1 H -∗ readable γ c l its kids -∗ content γ c d h its kids L -∗ ⌜shaped H d c h is_root l = true⌝.
Proof.
  induction h as [|h IH]; intros l its kids L is_root Hlo Hhi; iIntros "HH Hl Hn"; iDestruct (readable_lookup with "HH Hl") as %(c' & E & Hc');
    cbn [shaped]; rewrite E; cbn [items children cow];
    (assert (is_root || bool_decide (d - 1 ≤ length its) = true) as -> by (destruct Hlo as [-> |Hlo]; [done|]; rewrite bool_decide_eq_true_2 //; apply orb_true_r));
    rewrite (bool_decide_eq_true_2 (length its ≤ 2 * d - 1)) // (bool_decide_eq_true_2 (c' = c ∨ id c' < id c)) //; cbn [andb].
  - by iDestruct "Hn" as "[-> _]".
  - rewrite content_S. iDestruct "Hn" as (Ls [Hl ->]) "H". iDestruct (big_sepL2_length with "H") as %Hk.
    rewrite bool_decide_eq_true_2; [|lia]. cbn [andb]. clear E Hk Hl. iClear "Hl". iInduction kids as [|k kids IHk] forall (Ls); [done|].
    iDestruct (big_sepL2_cons_inv_l with "H") as (M Ls' ->) "[(%its' & %kids' & Hk & %Hb & Hn) H]".
    iDestruct (IH k its' kids' M false with "HH Hk Hn") as %Hkid; [right; lia|lia|]. iDestruct ("IHk" with "HH H") as %Hkids.
    iPureIntro. cbn. by rewrite Hkid Hkids.
Qed.
End shape.
End refinement.

(** ** Adequacy: what holds of the memory in the logic holds of runs of the code *)
Lemma run_sound {A} (lt : A → A → bool) `{!strict_weak_order lt} os rs w (φ : list BTree → mem A → Prop) :
  list_ops lt os (0, []) = Some (rs, w) →
  (∀ `{!ghost_mapG Σ addr (node A)} γ ts σ, world lt γ w ts σ ⊢ ⌜φ ts σ⌝) →
  ∃ ts m, do_ops lt os [] mem0 = Ret (rs, ts) m ∧ φ ts m.
Proof.
  intros Hos Hφ. apply (pure_soundness (PROP := iPropI (ghost_mapΣ addr (node A)))). apply uPred.bupd_soundness; [apply _|].
  iMod ghost_map_alloc_empty as (γ) "H". iMod (steps lt γ with "[H]") as (ts σ E) "Hw"; [done|by iApply world_new|].
  iDestruct (Hφ with "Hw") as %H. iModIntro. iPureIntro. by exists ts, σ.
Qed.

(** ** Keys that are nil *)
Lemma find_nil {A} (lt : A → A → bool) its : its ≠ [] → find lt its None = None.
Proof. intros Hne. destruct its as [|x its]; [done|]. unfold find, Search. cbn [length Search_loop]. by rewrite bool_decide_eq_true_2; [|lia]. Qed.

Section nil.
Context {A : Type} {lt : A → A → bool} `{!ghost_mapG Σ addr (node A)} (γ : gname).
Implicit Types (t : BTree) (L : list A) (σ : mem A).

(** The root is empty when the tree is, and the nil key is compared otherwise. *)
Lemma root_items t l L : root_at γ t l L ⊢
  ∃ h its kids, ⌜its = [] ↔ L = []⌝ ∗ ⌜its = [] → h = 0⌝ ∗ readable γ (tcow t) l its kids ∗ content γ (tcow t) (deg t) h its kids L.
Proof.
  iIntros "(%h & %its & [_ %Hne] & %kids & Hl & Hn)". iExists h, its, kids. iDestruct (content_length with "Hn") as %[Hlen _].
  iDestruct (content_leaf with "Hn") as %[_ Hleaf]. iFrame. iPureIntro. split; [split|].
  - intros ->. destruct (decide (h = 0)) as [Hh|Hh]; [|by apply Hne in Hh]. by destruct Hleaf.
  - intros ->. destruct its; [done|]. cbn in Hlen. lia.
  - intros ->. destruct (decide (h = 0)) as [Hh|Hh]; [done|]. by apply Hne in Hh.
Qed.

Lemma get_nil nf nc t L σ :
  interp γ nf nc σ -∗ btree (lt := lt) γ nf nc t L -∗ ⌜panics (Get lt t None σ) = bool_decide (L ≠ [])⌝.
Proof.
  iIntros "(Hσ & _) [_ Hroot]". unfold Get. destruct (root t) as [l|]; [|by iDestruct "Hroot" as %->].
  iDestruct (root_items with "Hroot") as (h its kids HL Hh) "[Hl Hn]". iDestruct (readable_lookup with "Hσ Hl") as %(c' & E & _).
  iDestruct (content_leaf with "Hn") as %[_ Hleaf]. iPureIntro. unfold fuel_of. rewrite Nat.add_comm. cbn [Nat.add node_get].
  unfold mbind at 1, st_bind, load. rewrite E. cbn [items children]. destruct its as [|x its].
  - destruct Hleaf as [-> ->]; [by apply Hh|]. rewrite (bool_decide_eq_false_2 ([] ≠ [])); [done|by intros []].
  - rewrite find_nil // (bool_decide_eq_true_2 (L ≠ [])); [done|]. naive_solver.
Qed.

Lemma delete_nil nf nc t L σ :
  interp γ nf nc σ -∗ btree (lt := lt) γ nf nc t L -∗ ⌜panics (Delete lt t None σ) = bool_decide (L ≠ [])⌝.
Proof.
  iIntros "Hσ [%Ht Hroot]". destruct Ht as (_ & _ & _ & Hc & _). unfold Delete, deleteItem.
  destruct (root t) as [l|]; [|by iDestruct "Hroot" as %->].
  iDestruct (root_items with "Hroot") as (h its kids HL Hh) "[Hl Hn]".
  iAssert ⌜∃ cw, heap σ !! l = Some (Node its kids cw)⌝%I as %[cw E].
  { iDestruct "Hσ" as "[Hσ _]". iDestruct (readable_lookup with "Hσ Hl") as %(c' & E & _). eauto. }
  destruct its as [|x its].
  { iPureIntro. unfold mbind, st_bind, load. rewrite E (bool_decide_eq_false_2 (L ≠ [])); [done|naive_solver]. }
  iApply bupd_elim. iMod (wp_mutableFor γ nf nc (tcow t) Hc l (x :: its) kids (λ r, owned γ (tcow t) r (x :: its) kids) with "Hl [] Hσ") as (r σ' E') "[Hσ Hr]".
  { by iIntros (r) "Hr". }
  iDestruct "Hσ" as "[Hσ _]". iDestruct (ghost_map_lookup with "Hσ Hr") as %Er. iModIntro. iPureIntro.
  rewrite (bool_decide_eq_true_2 (L ≠ [])); [|naive_solver]. unfold mbind at 1, st_bind, load at 1. rewrite E. cbn [items length]. rewrite bool_decide_eq_false_2 //.
  unfold mbind at 1, st_bind. rewrite E'. unfold fuel_of. rewrite Nat.add_comm. cbn [Nat.add node_remove].
  unfold mbind, st_bind, load at 1. rewrite Er. cbn [items children]. by rewrite find_nil.
Qed.
End nil.

(** [C3] Any sequence of operations on any number of B-trees (new ones, clones, trees that
    share a free list) returns without a panic, and answers as if every tree were a sorted
    list of its own: what is written to a tree shows in no clone of it, nodes that are freed
    and reused are in no other tree, and iterators visit exactly the items of their range,
    in order, until their callback stops them. *)
Theorem btree_refines_lists {A} (lt : A → A → bool) `{!strict_weak_order lt} os rs w :
  list_ops lt os (0, []) = Some (rs, w) →
  ∃ ts m, do_ops lt os [] mem0 = Ret (rs, ts) m ∧ Forall (strict lt) w.2 ∧ Forall2 (λ t L, Len t = Z.of_nat (length L)) ts w.2.
Proof.
  intros Hos. apply (run_sound lt os rs w (λ ts _, _) Hos). iIntros (Σ HΣ γ ts σ) "(%nc & _ & H)".
  iDestruct (big_sepL2_impl _ (λ _ t L, ⌜strict lt L ∧ Len t = Z.of_nat (length L)⌝)%I with "H []") as "H".
  { iIntros "!>" (i t L _ _) "[%Ht _]". iPureIntro. naive_solver. }
  iDestruct (big_sepL2_length with "H") as %Hl. iDestruct (big_sepL2_pure_1 with "H") as %H. iPureIntro. split.
  - apply Forall_lookup. intros i L HL. destruct (lookup_lt_is_Some_2 ts i) as [t Ht]; [rewrite Hl; by apply lookup_lt_Some in HL|].
    by destruct (H i t L Ht HL).
  - apply Forall2_same_length_lookup. split; [done|]. intros i t L Ht HL. by destruct (H i t L Ht HL).
Qed.

(** [C17] After any sequence of operations every tree is balanced: all its leaves are at one
    depth, an inner node has a child more than items, every node has at most [maxItems] items
    and every node but the root at least [minItems], so that the height is logarithmic in
    [Len] to the base of the degree; and no node of a tree belongs to a later context than
    the tree's. *)
Theorem btree_balanced {A} (lt : A → A → bool) `{!strict_weak_order lt} os rs w :
  list_ops lt os (0, []) = Some (rs, w) →
  ∃ ts m, do_ops lt os [] mem0 = Ret (rs, ts) m ∧
    ∀ i t l, ts !! i = Some t → root t = Some l →
    ∃ h, shaped (heap m) (deg t) (tcow t) h true l = true ∧ (h ≠ 0 → (2 * degree t ^ h ≤ Len t + 1)%Z).
Proof.
  intros Hos. apply (run_sound lt os rs w (λ ts m, _) Hos). iIntros (Σ HΣ γ ts σ) "(%nc & (Hσ & _) & H)". iIntros (i t l Ht Hroot).
  iDestruct (big_sepL2_length with "H") as %Hl. destruct (lookup_lt_is_Some_2 w.2 i) as [L HL]; [rewrite -Hl; by apply lookup_lt_Some in Ht|].
  iDestruct (big_sepL2_lookup_acc with "H") as "[[%Hb Hr] _]"; [done..|]. destruct Hb as (_ & Hlen & Hd & _). rewrite Hroot.
  iDestruct "Hr" as (h its [Hits Hne] kids) "[Hl Hn]". iDestruct (content_height with "Hn") as %Hh; [by pose proof (deg_ge t Hd); lia|].
  iDestruct (content_shaped _ _ _ _ _ l its kids L true with "Hσ Hl Hn") as %Hsh; [by left|done|]. iPureIntro. exists h. split; [done|].
  intros Hh0. unfold Len. rewrite Hlen. assert (2 * deg t ^ h ≤ S (length L)) as Hle.
  { apply (Nat.le_trans _ (S (length its) * deg t ^ h)); [|done]. apply Nat.mul_le_mono_r. destruct its; [by apply Hne in Hh0|cbn; lia]. }
  unfold deg in Hle. apply Nat2Z.inj_le in Hle. rewrite Nat2Z.inj_mul Nat2Z.inj_pow Z2Nat.id in Hle; [lia|unfold good_degree in Hd; lia].
Qed.

(** [C18] After any sequence of operations the nodes on the free lists are distinct, empty
    and without context, so that no node is freed twice. *)
Theorem btree_free_nodes {A} (lt : A → A → bool) `{!strict_weak_order lt} os rs w :
  list_ops lt os (0, []) = Some (rs, w) →
  ∃ ts m, do_ops lt os [] mem0 = Ret (rs, ts) m ∧ NoDup (concat (freelist <$> freelists m)) ∧
    Forall (λ l, heap m !! l = Some (Node [] [] None)) (concat (freelist <$> freelists m)).
Proof.
  intros Hos. apply (run_sound lt os rs w (λ ts m, _) Hos). iIntros (Σ HΣ γ ts σ) "(%nc & Hσ & _)". iApply (interp_free_nodes with "Hσ").
Qed.

(** [C39] After any sequence of operations, inserting nil panics, looking up or deleting nil
    panics exactly when the tree has items to compare it with, and so do a degree below two
    and a negative size of a free list. *)
Theorem btree_panics {A} (lt : A → A → bool) `{!strict_weak_order lt} os rs w :
  list_ops lt os (0, []) = Some (rs, w) →
  ∃ ts m, do_ops lt os [] mem0 = Ret (rs, ts) m ∧
    (∀ i t L, ts !! i = Some t → w.2 !! i = Some L →
       panics (ReplaceOrInsert lt t None m) = true ∧
       panics (Get lt t None m) = bool_decide (L ≠ []) ∧ panics (Delete lt t None m) = bool_decide (L ≠ [])) ∧
    (∀ n f, (n ≤ 1)%Z → panics (NewWithFreeList n f m) = true ∧ panics (New n m) = true) ∧
    (∀ n, panics (NewFreeList n m) = bool_decide (n < 0)%Z).
Proof.
  intros Hos. apply (run_sound lt os rs w (λ ts m, _) Hos). iIntros (Σ HΣ γ ts σ) "(%nc & Hσ & H)". iSplit; [|iSplit; iPureIntro].
  - iIntros (i t L Ht HL). iDestruct (big_sepL2_lookup_acc with "H") as "[Ht _]"; [done..|]. iSplit; [done|].
    iSplit; [iApply (get_nil with "Hσ Ht")|iApply (delete_nil with "Hσ Ht")].
  - intros n f Hn. unfold New, NewWithFreeList, mbind, st_bind. cbn. by rewrite !bool_decide_eq_true_2.
  - intros n. unfold NewFreeList, mbind, st_bind, of_int. by case_bool_decide.
Qed.

(** ** Integers as items *)
#[export] Instance Int_Less_order : strict_weak_order Int_Less.
Proof. exact int_lt_order. Qed.

(** Two trees that share a free list of two nodes, and a clone of the first. *)
Definition ex_btree_ops : list (btree_op Z) :=
  [DoNewFreeList 2; DoNewWithFreeList 2 0; DoNewWithFreeList 3 0] ++
  (DoReplaceOrInsert 0 <$> [5; 3; 8; 1; 9; 2; 7; 4; 6]%Z) ++
  [DoClone 0; DoDelete 0 5%Z; DoDelete 0 11%Z; DoDeleteMin 0; DoDeleteMax 0; DoReplaceOrInsert 1 4%Z;
   DoIterate 0 DoAscend (λ _ _, true); DoIterate 2 (DoAscendRange (Some 3%Z) (Some 7%Z)) (λ _ _, true);
   DoIterate 2 (DoDescendLessOrEqual (Some 6%Z)) (λ s _, bool_decide (length s < 2)); DoClear 0 true;
   DoHas 0 3%Z; DoGet 2 5%Z; DoLen 2; DoMin 1].

Definition ex_btree_answers : list (answer Z) :=
  replicate 3 Done ++ replicate 9 (Item None) ++
  [Done; Item (Some 5%Z); Item None; Item (Some 1%Z); Item (Some 9%Z); Item None;
   Items [2; 3; 4; 6; 7; 8]%Z; Items [3; 4; 5; 6]%Z; Items [6; 5; 4]%Z; Done;
   Yes false; Item (Some 5%Z); Count 9; Item (Some 4%Z)].

Definition ex_btree_lists : nat * list (list Z) := (1, [[]; [4%Z]; [1; 2; 3; 4; 5; 6; 7; 8; 9]%Z]).

Lemma ex_btree_run : list_ops Int_Less ex_btree_ops (0, []) = Some (ex_btree_answers, ex_btree_lists).
Proof. vm_compute. reflexivity. Qed.

Lemma btree_refines_lists_witness :
  ∃ ts m, do_ops Int_Less ex_btree_ops [] mem0 = Ret (ex_btree_answers, ts) m ∧
    Forall (strict Int_Less) ex_btree_lists.2 ∧ Forall2 (λ t L, Len t = Z.of_nat (length L)) ts ex_btree_lists.2.
Proof. apply (btree_refines_lists Int_Less ex_btree_ops). exact ex_btree_run. Defined.

Lemma btree_balanced_witness :
  ∃ ts m, do_ops Int_Less ex_btree_ops [] mem0 = Ret (ex_btree_answers, ts) m ∧
    ∀ i t l, ts !! i = Some t → root t = Some l →
    ∃ h, shaped (heap m) (deg t) (tcow t) h true l = true ∧ (h ≠ 0 → (2 * degree t ^ h ≤ Len t + 1)%Z).
Proof. apply (btree_balanced Int_Less ex_btree_ops _ ex_btree_lists). exact ex_btree_run. Defined.

Lemma btree_free_nodes_witness :
  ∃ ts m, do_ops Int_Less ex_btree_ops [] mem0 = Ret (ex_btree_answers, ts) m ∧ NoDup (concat (freelist <$> freelists m)) ∧
    Forall (λ l, heap m !! l = Some (Node [] [] None)) (concat (freelist <$> freelists m)).
Proof. apply (btree_free_nodes Int_Less ex_btree_ops _ ex_btree_lists). exact ex_btree_run. Defined.

Lemma btree_panics_witness :
  ∃ ts m, do_ops Int_Less ex_btree_ops [] mem0 = Ret (ex_btree_answers, ts) m ∧
    (∀ i t L, ts !! i = Some t → ex_btree_lists.2 !! i = Some L →
       panics (ReplaceOrInsert Int_Less t None m) = true ∧
       panics (Get Int_Less t None m) = bool_decide (L ≠ []) ∧ panics (Delete Int_Less t None m) = bool_decide (L ≠ [])) ∧
    (∀ n f, (n ≤ 1)%Z → panics (NewWithFreeList n f m) = true ∧ panics (New n m) = true) ∧
    (∀ n, panics (NewFreeList n m) = bool_decide (n < 0)%Z).
Proof. apply (btree_panics Int_Less ex_btree_ops). exact ex_btree_run. Defined.

(** A degree that [New] takes but for which [maxItems] overflows: the second insertion splits
    the root at a negative index and panics. *)
Theorem huge_degree_panics :
  let insert2 := t ← New (2 ^ 62 + 1); p ← ReplaceOrInsert Int_Less t (Some 1%Z); ReplaceOrInsert Int_Less p.2 (Some 2%Z) in
  panics (New (A := Z) (2 ^ 62 + 1) mem0) = false ∧ panics (insert2 mem0) = true.
Proof. vm_compute. by split. Qed.
