(* ===== verification/FieldSelectors.v ===== *)
(** * Field selectors (k8s.io/apimachinery/pkg/fields: selector.go, fields.go, requirements.go)

    The selectors by which lists and watches are restricted on the server: terms that compare
    a field with a value, their printed form with escaped values, and its parser.  A Go string
    is a sequence of bytes that [range] reads as UTF-8; a byte that is not part of a well-formed
    encoding is read as the replacement character. *)

From Stdlib Require Import Ascii.
From S2P Require Import Prelude Validation Labels LabelParser LabelPrinter.

(** ** Runes of a string *)
Inductive rune : Type :=
| Rune (bytes : list ascii)
| RuneError (b : ascii).

Definition between (lo hi : nat) (c : ascii) : bool :=
  let n := nat_of_ascii c in bool_decide (lo ≤ n ∧ n ≤ hi).

(** [utf8.DecodeRuneInString]: the length of the well-formed encoding a string starts with. *)
Definition rune_len (l : list ascii) : option nat :=
  match l with
  | [] => None
  | b0 :: l =>
    let n := nat_of_ascii b0 in
    if between 0 127 b0 then Some 1 else
    if between 194 223 b0 then
      match l with
      | b1 :: _ => if between 128 191 b1 then Some 2 else None
      | _ => None
      end
    else if between 224 239 b0 then
      match l with
      | b1 :: b2 :: _ =>
        if between (if bool_decide (n = 224) then 160 else 128) (if bool_decide (n = 237) then 159 else 191) b1 &&
           between 128 191 b2 then Some 3 else None
      | _ => None
      end
    else if between 240 244 b0 then
      match l with
      | b1 :: b2 :: b3 :: _ =>
        if between (if bool_decide (n = 240) then 144 else 128) (if bool_decide (n = 244) then 143 else 191) b1 &&
           between 128 191 b2 && between 128 191 b3 then Some 4 else None
      | _ => None
      end
    else None
  end.

Fixpoint runes_of (fuel : nat) (l : list ascii) : list rune :=
  match fuel, l with
  | S fuel, b :: l' =>
    match rune_len l with
    | Some n => Rune (take n l) :: runes_of fuel (drop n l)
    | None => RuneError b :: runes_of fuel l'
    end
  | _, _ => []
  end.
Definition runes (l : list ascii) : list rune := runes_of (length l) l.

(** The bytes a rune was read from, and those that [WriteRune] writes. *)
Definition raw (r : rune) : list ascii := match r with Rune bs => bs | RuneError b => [b] end.
Definition WriteRune (r : rune) : list ascii :=
  match r with Rune bs => bs | RuneError _ => ascii_of_nat <$> [239; 191; 189] end.

Definition is_char (c : ascii) (r : rune) : bool := match r with Rune [b] => bool_decide (b = c) | _ => false end.

Notation backslash := ("092"%char).

(** ** Fields *)
Definition Set_ : Type := gmap string string.
Definition Set_Has (ls : Set_) (field : string) : bool := bool_decide (is_Some (ls !! field)).
Definition Set_Get (ls : Set_) (field : string) : string := default "" (ls !! field).
Definition Set_String (rng : Set_ → list (string * string)) (ls : Set_) : string :=
  join_comma (merge_sort String.le ((λ kv, kv.1 +:+ "=" +:+ kv.2) <$> rng ls)).

Record Requirement := { Operator_ : Operator; Field : string; Value : string }.

(** ** Selectors *)
Inductive Selector : Type :=
| hasTerm (field value : string)
| notHasTerm (field value : string)
| andTerm (l : list Selector).

Definition Everything : Selector := andTerm [].

Fixpoint Matches (t : Selector) (Get : string → string) : bool :=
  match t with
  | hasTerm field value => bool_decide (Get field = value)
  | notHasTerm field value => bool_decide (Get field ≠ value)
  | andTerm l => forallb (λ q, Matches q Get) l
  end.

Fixpoint Empty (t : Selector) : bool :=
  match t with
  | hasTerm _ _ | notHasTerm _ _ => false
  | andTerm l => forallb Empty l
  end.

Fixpoint RequiresExactMatch (t : Selector) (field : string) : option string :=
  match t with
  | hasTerm f value => if bool_decide (f = field) then Some value else None
  | notHasTerm _ _ => None
  | andTerm l =>
    (fix first l := match l with
                    | [] => None
                    | q :: l => match RequiresExactMatch q field with Some value => Some value | None => first l end
                    end) l
  end.

Section transform.
Context {E : Type} (fn : string → string → res E (string * string)).

Definition transform_term (make : string → string → Selector) (field value : string) : res E Selector :=
  match fn field value with
  | Err err => Err err
  | Ok (field, value) =>
    if bool_decide (String.length field = 0) && bool_decide (String.length value = 0) then Ok Everything
    else Ok (make field value)
  end.

Fixpoint Transform (t : Selector) : res E Selector :=
  match t with
  | hasTerm field value => transform_term hasTerm field value
  | notHasTerm field value => transform_term notHasTerm field value
  | andTerm l =>
    (fix transform_all (l : list Selector) (next : list Selector) : res E Selector :=
       match l with
       | [] => Ok (andTerm next)
       | s :: l =>
         match Transform s with
         | Err err => Err err
         | Ok n => transform_all l (if Empty n then next else next ++ [n])
         end
       end) l []
  end.
End transform.

Fixpoint Requirements (t : Selector) : list Requirement :=
  match t with
  | hasTerm field value => [{| Operator_ := Equals; Field := field; Value := value |}]
  | notHasTerm field value => [{| Operator_ := NotEquals; Field := field; Value := value |}]
  | andTerm l => concat (Requirements <$> l)
  end.

(** ** Escaping *)
Definition special (c : ascii) : bool := bool_decide (c = backslash ∨ c = ","%char ∨ c = "="%char).

Definition escape (c : ascii) : list ascii := if special c then [backslash; c] else [c].

Definition EscapeValue (s : string) : string := text (concat (escape <$> chars s)).

Fixpoint String_ (t : Selector) : string :=
  match t with
  | hasTerm field value => field +:+ "=" +:+ EscapeValue value
  | notHasTerm field value => field +:+ "!=" +:+ EscapeValue value
  | andTerm l => join_comma (String_ <$> l)
  end.

Inductive unescape_error : Type :=
| InvalidEscapeSequence (sequence : list ascii)
| UnescapedRune (r : rune).

Definition one_of (cs : list ascii) (r : rune) : bool := existsb (λ c, is_char c r) cs.

Fixpoint unescape_loop (inSlash : bool) (v : list ascii) (s : list rune) : res unescape_error (list ascii) :=
  match s with
  | [] => if inSlash then Err (InvalidEscapeSequence [backslash]) else Ok v
  | c :: s =>
    if inSlash then
      if one_of [backslash; ","%char; "="%char] c then unescape_loop false (v ++ WriteRune c) s
      else Err (InvalidEscapeSequence (backslash :: WriteRune c))
    else if is_char backslash c then unescape_loop true v s
    else if one_of [","%char; "="%char] c then Err (UnescapedRune c)
    else unescape_loop false (v ++ WriteRune c) s
  end.

Definition UnescapeValue (s : string) : res unescape_error string :=
  if negb (existsb special (chars s)) then Ok s else
  match unescape_loop false [] (runes (chars s)) with
  | Ok v => Ok (text v)
  | Err err => Err err
  end.

(** ** Parsing *)
(** [term] holds the bytes since [startIndex]. *)
Fixpoint split_loop (terms : list (list ascii)) (term : list ascii) (inSlash : bool) (s : list rune) : list (list ascii) :=
  match s with
  | [] => terms ++ [term]
  | c :: s =>
    if inSlash then split_loop terms (term ++ raw c) false s
    else if is_char backslash c then split_loop terms (term ++ raw c) true s
    else if is_char ","%char c then split_loop (terms ++ [term]) [] false s
    else split_loop terms (term ++ raw c) false s
  end.

Definition splitTerms (fieldSelector : string) : list string :=
  if bool_decide (String.length fieldSelector = 0) then []
  else text <$> split_loop [] [] false (runes (chars fieldSelector)).

Inductive termOperator := notEqualOperator | doubleEqualOperator | equalOperator.

Definition operator_text (op : termOperator) : list ascii :=
  match op with notEqualOperator => ["!"; "="] | doubleEqualOperator => ["="; "="] | equalOperator => ["="] end%char.

Definition termOperators : list termOperator := [notEqualOperator; doubleEqualOperator; equalOperator].

(** The operator [remaining] starts with, and what follows it. *)
Fixpoint operator_prefix (ops : list termOperator) (remaining : list ascii) : option (termOperator * list ascii) :=
  match ops with
  | [] => None
  | op :: ops =>
    if bool_decide (take (length (operator_text op)) remaining = operator_text op)
    then Some (op, drop (length (operator_text op)) remaining)
    else operator_prefix ops remaining
  end.

(** [lhs] holds the bytes before the index. *)
Fixpoint split_term_loop (lhs : list ascii) (s : list rune) : option (list ascii * termOperator * list ascii) :=
  match s with
  | [] => None
  | c :: s' =>
    match operator_prefix termOperators (concat (raw <$> s)) with
    | Some (op, rhs) => Some (lhs, op, rhs)
    | None => split_term_loop (lhs ++ raw c) s'
    end
  end.

Definition splitTerm (term : string) : option (string * termOperator * string) :=
  match split_term_loop [] (runes (chars term)) with
  | Some (lhs, op, rhs) => Some (text lhs, op, text rhs)
  | None => None
  end.

Inductive parse_error (E : Type) : Type :=
| CantUnderstand (selector part : string)
| Unescape (err : unescape_error)
| TransformFailed (err : E).
Arguments CantUnderstand {E} _ _.
Arguments Unescape {E} _.
Arguments TransformFailed {E} _.

Definition parse_part {E} (selector part : string) : res (parse_error E) Selector :=
  match splitTerm part with
  | None => Err (CantUnderstand selector part)
  | Some (lhs, op, rhs) =>
    match UnescapeValue rhs with
    | Err err => Err (Unescape err)
    | Ok value =>
      match op with
      | notEqualOperator => Ok (notHasTerm lhs value)
      | doubleEqualOperator => Ok (hasTerm lhs value)
      | equalOperator => Ok (hasTerm lhs value)
      end
    end
  end.

Fixpoint parse_parts {E} (selector : string) (parts : list string) (items : list Selector) : res (parse_error E) (list Selector) :=
  match parts with
  | [] => Ok items
  | part :: parts =>
    if bool_decide (part = "") then parse_parts selector parts items else
    match parse_part selector part with
    | Err err => Err err
    | Ok item => parse_parts selector parts (items ++ [item])
    end
  end.

Definition parseSelector {E} (selector : string) (fn : string → string → res E (string * string)) : res (parse_error E) Selector :=
  match parse_parts selector (merge_sort String.le (splitTerms selector)) [] with
  | Err err => Err err
  | Ok items =>
    match (match items with [item] => Transform fn item | _ => Transform fn (andTerm items) end) with
    | Err err => Err (TransformFailed err)
    | Ok s => Ok s
    end
  end.

Definition ParseSelector (selector : string) : res (parse_error False) Selector :=
  parseSelector selector (λ lhs rhs, Ok (lhs, rhs)).
Definition ParseAndTransformSelector {E} (selector : string) (fn : string → string → res E (string * string)) :
  res (parse_error E) Selector := parseSelector selector fn.
Definition ParseSelectorOrDie (s : string) : option Selector :=
  match ParseSelector s with Ok selector => Some selector | Err _ => None end.

Definition SelectorFromSet (rng : Set_ → list (string * string)) (ls : option Set_) : Selector :=
  match ls with
  | None => Everything
  | Some ls =>
    match (λ kv, hasTerm kv.1 kv.2) <$> rng ls with
    | [item] => item
    | items => andTerm items
    end
  end.
Definition AsSelector (rng : Set_ → list (string * string)) (ls : option Set_) : Selector := SelectorFromSet rng ls.
Definition OneTermEqualSelector (k v : string) : Selector := hasTerm k v.
Definition AndSelectors (selectors : list Selector) : Selector := andTerm selectors.

Example parse_example :
  ParseSelector "metadata.name=a\,b,status.phase!=Running,x==\=,,y=" =
  Ok (andTerm [hasTerm "metadata.name" "a,b"; notHasTerm "status.phase" "Running"; hasTerm "x" "="; hasTerm "y" ""]).
Proof. vm_compute. reflexivity. Qed.

(** ** Runes and bytes

    The characters the parser looks for are ASCII, and no byte of a longer encoding is: the
    loops over runes do on the bytes what they do on the runes. *)
Definition high (c : ascii) : Prop := 128 ≤ nat_of_ascii c.

Lemma between_spec lo hi c : between lo hi c = true ↔ lo ≤ nat_of_ascii c ∧ nat_of_ascii c ≤ hi.
Proof. unfold between. by rewrite bool_decide_eq_true. Qed.

Lemma between_high lo hi c : between lo hi c = true → 128 ≤ lo → high c.
Proof. rewrite between_spec. unfold high. lia. Qed.

Lemma low_or_high c : (between 0 127 c = true ∧ ¬ high c) ∨ (between 0 127 c = false ∧ high c).
Proof.
  destruct (between 0 127 c) eqn:E; [left|right]; (split; [done|]); unfold between, high in *.
  - apply bool_decide_eq_true in E. lia.
  - apply bool_decide_eq_false in E. lia.
Qed.

(** What a string starts with does not depend on what follows a well-formed encoding. *)
Lemma rune_len_spec l n :
  rune_len l = Some n →
  (n = 1 ∧ ∃ b l', l = b :: l' ∧ ¬ high b) ∨
  (1 < n ∧ n ≤ length l ∧ Forall high (take n l) ∧ ∀ l', rune_len (take n l ++ l') = Some n).
Proof.
  destruct l as [|b0 l]; [done|]. cbn [rune_len]. destruct (low_or_high b0) as [[-> H0]|[E0 H0]].
  { intros [= <-]. left. by eauto. }
  rewrite E0. intros H. right.
  destruct (between 194 223 b0) eqn:E2; [|destruct (between 224 239 b0) eqn:E3; [|destruct (between 240 244 b0) eqn:E4; [|done]]].
  - destruct l as [|b1 l]; [done|]. destruct (between 128 191 b1) eqn:E; [|done]. injection H as <-. cbn. split_and!; [lia|lia| |].
    + repeat constructor; [done|by eapply between_high].
    + intros l'. by rewrite E0, E2, E.
  - destruct l as [|b1 [|b2 l]]; [done..|]. destruct (_ && _) eqn:E; [|done]. injection H as <-. cbn. split_and!; [lia|lia| |].
    + apply andb_true_iff in E as [Eb1 Eb2]. repeat constructor; [done| |by eapply between_high].
      eapply between_high; [done|]. case_bool_decide; lia.
    + intros l'. by rewrite E0, E2, E3, E.
  - destruct l as [|b1 [|b2 [|b3 l]]]; [done..|]. destruct (_ && _) eqn:E; [|done]. injection H as <-. cbn. split_and!; [lia|lia| |].
    + apply andb_true_iff in E as [[Eb1 Eb2]%andb_true_iff Eb3]. repeat constructor; [done| |by eapply between_high..].
      eapply between_high; [done|]. case_bool_decide; lia.
    + intros l'. by rewrite E0, E2, E3, E4, E.
Qed.

Lemma rune_len_high b l : rune_len (b :: l) = None → high b.
Proof. cbn. destruct (low_or_high b) as [[-> _]|[_ ?]]; done. Qed.

(** A rune as the loops see it: an ASCII character, or bytes that are none. *)
Definition plain_rune (r : rune) : Prop :=
  (∃ b, r = Rune [b] ∧ ¬ high b) ∨ (raw r ≠ [] ∧ Forall high (raw r) ∧ ∀ c, ¬ high c → is_char c r = false).

Lemma is_char_high c bs : ¬ high c → Forall high bs → is_char c (Rune bs) = false.
Proof.
  intros Hc Hbs. destruct bs as [|b [|]]; [done| |done]. cbn. apply bool_decide_eq_false. intros ->. by apply Forall_cons in Hbs as [? _].
Qed.

Lemma runes_spec fuel l :
  length l ≤ fuel → Forall plain_rune (runes_of fuel l) ∧ concat (raw <$> runes_of fuel l) = l.
Proof.
  revert l. induction fuel as [|fuel IH]; intros [|b l] Hl; cbn in Hl; try lia; [by split..|]. cbn [runes_of].
  destruct (rune_len (b :: l)) as [n|] eqn:En.
  - destruct (rune_len_spec _ _ En) as [(-> & b' & l' & [= <- <-] & Hb)|(Hn & Hln & Hh & _)].
    + change (drop 1 (b :: l)) with l. change (take 1 (b :: l)) with [b]. destruct (IH l) as [H1 H2]; [lia|]. split; [|rewrite fmap_cons; cbn [concat raw]; by rewrite H2].
      constructor; [|done]. left. eauto.
    + destruct (IH (drop n (b :: l))) as [H1 H2]; [rewrite length_drop; cbn; lia|]. split.
      * constructor; [|done]. right. cbn [raw]. split_and!; [|done|]; [destruct n; [lia|done]|]. intros c Hc. by apply is_char_high.
      * rewrite fmap_cons. cbn [concat raw]. rewrite H2. apply take_drop.
  - destruct (IH l) as [H1 H2]; [lia|]. split; [|rewrite fmap_cons; cbn [concat raw]; by rewrite H2]. constructor; [|done]. right. cbn. split_and!; [done| |done].
    repeat constructor. by eapply rune_len_high.
Qed.

Definition well_formed (l : list ascii) : Prop := Forall (λ r, raw r = WriteRune r) (runes l).

#[export] Instance well_formed_dec l : Decision (well_formed l) := _.

Lemma runes_of_mono fuel fuel' l : length l ≤ fuel → length l ≤ fuel' → runes_of fuel l = runes_of fuel' l.
Proof.
  revert fuel' l. induction fuel as [|fuel IH]; intros [|fuel'] [|b l] H1 H2; cbn in H1, H2; try lia; [done..|]. cbn [runes_of].
  destruct (rune_len (b :: l)) as [n|] eqn:En; f_equal; [|apply IH; lia].
  assert (length (drop n (b :: l)) ≤ length l); [|apply IH; lia].
  destruct (rune_len_spec _ _ En) as [(-> & _)|(Hn & Hln & _)]; [done|]. rewrite length_drop. cbn in *. lia.
Qed.

Lemma runes_low b l : ¬ high b → runes (b :: l) = Rune [b] :: runes l.
Proof. intros Hb. unfold runes. cbn [length runes_of rune_len]. by destruct (low_or_high b) as [[-> _]|[_ ?]]. Qed.

Lemma runes_encoding l n : rune_len l = Some n → 1 < n → ∀ l', runes (take n l ++ l') = Rune (take n l) :: runes l'.
Proof.
  intros En Hn l'. destruct (rune_len_spec _ _ En) as [(-> & _)|(_ & Hln & _ & Hl')]; [lia|]. specialize (Hl' l'). unfold runes.
  assert (length (take n l) = n) as Hlt by (by apply length_take_le). rewrite length_app, Hlt.
  destruct n as [|n]; [lia|]. destruct l as [|b l]; [cbn in Hln; lia|]. cbn [Nat.add runes_of take app]. cbn [take app] in Hl', Hlt. rewrite Hl'.
  replace (take (S n) (b :: take n l ++ l')) with (b :: take n l).
  2: { symmetry. change (b :: take n l ++ l') with ((b :: take n l) ++ l'). by apply take_app_length'. }
  replace (drop (S n) (b :: take n l ++ l')) with l'.
  2: { symmetry. change (b :: take n l ++ l') with ((b :: take n l) ++ l'). by apply drop_app_length'. }
  f_equal. apply runes_of_mono; lia.
Qed.
