(* ===== verification/FieldPrinter.v ===== *)
(** * Parsing printed field selectors (k8s.io/apimachinery/pkg/fields: selector.go)

    The loops of the parser on bytes; escaping and unescaping undo each other; parsing the
    printed form of a selector gives its terms back. *)

From Stdlib Require Import Ascii.
From S2P Require Import Prelude SortedLists Validation Labels LabelParser LabelPrinter FieldSelectors.

(** ** The loops on bytes *)
Fixpoint split_bytes (terms : list (list ascii)) (term : list ascii) (inSlash : bool) (l : list ascii) : list (list ascii) :=
  match l with
  | [] => terms ++ [term]
  | c :: l =>
    if inSlash then split_bytes terms (term ++ [c]) false l
    else if bool_decide (c = backslash) then split_bytes terms (term ++ [c]) true l
    else if bool_decide (c = ","%char) then split_bytes (terms ++ [term]) [] false l
    else split_bytes terms (term ++ [c]) false l
  end.

Fixpoint split_term_bytes (lhs l : list ascii) : option (list ascii * termOperator * list ascii) :=
  match l with
  | [] => None
  | c :: l' =>
    match operator_prefix termOperators l with
    | Some (op, rhs) => Some (lhs, op, rhs)
    | None => split_term_bytes (lhs ++ [c]) l'
    end
  end.

Fixpoint unescape_bytes (inSlash : bool) (v l : list ascii) : option (list ascii) :=
  match l with
  | [] => if inSlash then None else Some v
  | c :: l =>
    if inSlash then if special c then unescape_bytes false (v ++ [c]) l else None
    else if bool_decide (c = backslash) then unescape_bytes true v l
    else if special c then None
    else unescape_bytes false (v ++ [c]) l
  end.

Lemma low_backslash : ¬ high backslash.
Proof. intros H%Nat.leb_le. by vm_compute in H. Qed.
Lemma low_comma : ¬ high ","%char.
Proof. intros H%Nat.leb_le. by vm_compute in H. Qed.
Lemma low_equals : ¬ high "="%char.
Proof. intros H%Nat.leb_le. by vm_compute in H. Qed.
Lemma low_exclamation : ¬ high "!"%char.
Proof. intros H%Nat.leb_le. by vm_compute in H. Qed.
#[local] Hint Resolve low_backslash low_comma low_equals low_exclamation : core.

Lemma high_ne c d : high c → ¬ high d → c ≠ d.
Proof. by intros ? ? ->. Qed.

Lemma high_special c : high c → special c = false.
Proof. intros Hc. apply bool_decide_eq_false. intros [E|[E|E]]; revert E; by apply high_ne. Qed.

Lemma split_bytes_high terms term inSlash bs l :
  bs ≠ [] → Forall high bs → split_bytes terms term inSlash (bs ++ l) = split_bytes terms (term ++ bs) false l.
Proof.
  intros Hne Hbs. revert term inSlash Hne. induction Hbs as [|b bs Hb Hbs IH]; intros term inSlash Hne; [done|]. cbn.
  assert (split_bytes terms (term ++ [b]) false (bs ++ l) = split_bytes terms (term ++ b :: bs) false l) as Hgo.
  { destruct bs as [|b' bs]; [done|]. rewrite IH by done. by rewrite <-app_assoc. }
  rewrite !bool_decide_eq_false_2 by by apply high_ne. by destruct inSlash.
Qed.

Lemma split_loop_bytes terms term inSlash rs :
  Forall plain_rune rs → split_loop terms term inSlash rs = split_bytes terms term inSlash (concat (raw <$> rs)).
Proof.
  intros Hrs. revert terms term inSlash. induction Hrs as [|r rs [(b & -> & Hb)|(Hne & Hh & Hc)] Hrs IH]; intros terms term inSlash; [done| |].
  - cbn. by rewrite !IH.
  - rewrite fmap_cons. cbn [concat]. rewrite split_bytes_high by done. cbn [split_loop]. rewrite !Hc, !IH by done. by destruct inSlash.
Qed.

Lemma operator_prefix_none c d l :
  c ≠ "="%char → (c ≠ "!"%char ∨ d ≠ "="%char) → operator_prefix termOperators (c :: d :: l) = None.
Proof.
  intros Hc Hd. cbn. rewrite !bool_decide_eq_false_2; [done|..]; intros [=]; naive_solver.
Qed.

Lemma operator_prefix_single c : c ≠ "="%char → operator_prefix termOperators [c] = None.
Proof. intros Hc. cbn. rewrite !bool_decide_eq_false_2; [done|..]; intros [=]; naive_solver. Qed.

Lemma operator_prefix_high b l : high b → operator_prefix termOperators (b :: l) = None.
Proof.
  intros Hb. destruct l as [|d l]; [apply operator_prefix_single|apply operator_prefix_none; [|left]]; by apply high_ne.
Qed.

Lemma split_term_bytes_high lhs bs l : Forall high bs → split_term_bytes lhs (bs ++ l) = split_term_bytes (lhs ++ bs) l.
Proof.
  intros Hbs. revert lhs. induction Hbs as [|b bs Hb _ IH]; intros lhs; [by rewrite app_nil_r|]. cbn [app split_term_bytes].
  rewrite operator_prefix_high by done. by rewrite IH, <-app_assoc.
Qed.

Lemma split_term_loop_bytes lhs rs : Forall plain_rune rs → split_term_loop lhs rs = split_term_bytes lhs (concat (raw <$> rs)).
Proof.
  intros Hrs. revert lhs. induction Hrs as [|r rs Hr Hrs IH]; intros lhs; [done|]. cbn [split_term_loop]. rewrite fmap_cons. cbn [concat].
  destruct Hr as [(b & -> & Hb)|(Hne & Hh & _)].
  - cbn [raw app split_term_bytes]. destruct (operator_prefix _ _) as [[op rhs]|]; [done|]. apply IH.
  - rewrite split_term_bytes_high by done. rewrite <-IH. destruct (raw r) as [|b bs]; [done|]. apply Forall_cons in Hh as [Hb _].
    cbn [app]. by rewrite operator_prefix_high.
Qed.

Lemma unescape_bytes_high v bs l : Forall high bs → unescape_bytes false v (bs ++ l) = unescape_bytes false (v ++ bs) l.
Proof.
  intros Hbs. revert v. induction Hbs as [|b bs Hb _ IH]; intros v; [by rewrite app_nil_r|]. cbn.
  rewrite bool_decide_eq_false_2 by by apply high_ne. rewrite high_special by done. by rewrite IH, <-app_assoc.
Qed.

Lemma unescape_loop_bytes inSlash v rs :
  Forall plain_rune rs → Forall (λ r, raw r = WriteRune r) rs →
  match unescape_loop inSlash v rs with Ok w => Some w | Err _ => None end = unescape_bytes inSlash v (concat (raw <$> rs)).
Proof.
  intros Hrs. revert inSlash v. induction Hrs as [|r rs Hr Hrs IH]; intros inSlash v Hw; [by destruct inSlash|].
  apply Forall_cons in Hw as [Hwr Hw]. rewrite fmap_cons. cbn [concat unescape_loop]. rewrite <-Hwr.
  destruct Hr as [(b & -> & Hb)|(Hne & Hh & Hc)].
  - cbn [raw app unescape_bytes one_of existsb is_char]. unfold special. destruct inSlash.
    + repeat case_bool_decide; cbn; try apply IH; try done; naive_solver.
    + repeat case_bool_decide; cbn; try apply IH; try done; naive_solver.
  - unfold one_of. cbn [existsb]. rewrite !Hc by done. cbn [orb]. destruct inSlash; [|by rewrite unescape_bytes_high, IH].
    destruct (raw r) as [|b bs]; [done|]. apply Forall_cons in Hh as [Hb _]. cbn. by rewrite high_special.
Qed.

(** ** Escaping *)
Definition escaped (l : list ascii) : list ascii := concat (escape <$> l).

Lemma escaped_app l1 l2 : escaped (l1 ++ l2) = escaped l1 ++ escaped l2.
Proof. unfold escaped. by rewrite fmap_app, concat_app. Qed.

Lemma escaped_plain l : Forall (λ c, special c = false) l → escaped l = l.
Proof. induction 1 as [|c l Hc _ IH]; [done|]. unfold escaped in *. cbn. unfold escape at 1. rewrite Hc. cbn. by f_equal. Qed.

Lemma special_low c : special c = true → ¬ high c.
Proof. intros Hc Hh. by rewrite high_special in Hc. Qed.

Lemma well_formed_escaped l : well_formed l → well_formed (escaped l).
Proof.
  remember (length l) as n eqn:En. revert l En. induction (lt_wf n) as [n _ IH]. intros [|b l] -> Hw; [done|].
  destruct (rune_len (b :: l)) as [k|] eqn:Ek.
  - destruct (rune_len_spec _ _ Ek) as [(-> & b' & l' & [= <- <-] & Hb)|(Hk & Hkl & Hh & _)].
    + unfold well_formed in *. rewrite runes_low in Hw by done. apply Forall_cons in Hw as [_ Hw].
      specialize (IH (length l) ltac:(cbn; lia) l eq_refl Hw). change (escaped (b :: l)) with (escape b ++ escaped l). unfold escape.
      destruct (special b) eqn:Es; cbn [app]; rewrite !runes_low by done; by repeat constructor.
    + pose proof (take_drop k (b :: l)) as Hsplit. unfold well_formed in Hw.
      rewrite <-Hsplit in Hw. rewrite (runes_encoding _ _ Ek) in Hw by done. apply Forall_cons in Hw as [_ Hw].
      assert (length (drop k (b :: l)) < length (b :: l)) as Hlt by (rewrite length_drop; cbn in *; lia).
      specialize (IH _ Hlt _ eq_refl Hw). rewrite <-Hsplit, escaped_app, (escaped_plain (take k (b :: l))).
      * unfold well_formed. rewrite (runes_encoding _ _ Ek) by done. by constructor.
      * apply (Forall_impl _ _ _ Hh). apply high_special.
  - unfold well_formed in Hw. exfalso. unfold runes in Hw. cbn [length runes_of] in Hw. rewrite Ek in Hw. by apply Forall_cons in Hw as [? _].
Qed.

Lemma unescape_escaped v l : unescape_bytes false v (escaped l) = Some (v ++ l).
Proof.
  revert v. induction l as [|c l IH]; intros v; [by rewrite app_nil_r|]. change (escaped (c :: l)) with (escape c ++ escaped l).
  unfold escape. destruct (special c) eqn:Es; cbn [app unescape_bytes].
  - rewrite bool_decide_eq_true_2 by done. rewrite Es, IH. by rewrite <-app_assoc.
  - rewrite bool_decide_eq_false_2 by (intros ->; done). rewrite Es, IH. by rewrite <-app_assoc.
Qed.

Lemma unescape_bytes_inv v l w : unescape_bytes false v l = Some w → ∃ u, w = v ++ u ∧ escaped u = l.
Proof.
  remember (length l) as n eqn:En. revert v l En. induction (lt_wf n) as [n _ IH]. intros v [|c l] -> H; cbn in H.
  - injection H as <-. exists []. by rewrite app_nil_r.
  - case_bool_decide as Hc.
    + subst c. destruct l as [|c l]; [done|]. cbn in H. destruct (special c) eqn:Es; [|done].
      destruct (IH (length l) ltac:(cbn; lia) _ _ eq_refl H) as (u & -> & <-). exists (c :: u). rewrite <-app_assoc. split; [done|].
      change (escaped (c :: u)) with (escape c ++ escaped u). unfold escape. by rewrite Es.
    + destruct (special c) eqn:Es; [done|]. destruct (IH (length l) ltac:(cbn; lia) _ _ eq_refl H) as (u & -> & <-).
      exists (c :: u). rewrite <-app_assoc. split; [done|]. change (escaped (c :: u)) with (escape c ++ escaped u). unfold escape. by rewrite Es.
Qed.

Lemma chars_text l : chars (text l) = l.
Proof. apply String.list_ascii_of_string_of_list_ascii. Qed.

Lemma runes_plain l : Forall plain_rune (runes l) ∧ concat (raw <$> runes l) = l.
Proof. by apply runes_spec. Qed.

(** Strings that unescaping reads as they are: well-formed ones, and those it need not read. *)
Definition readable_value (s : string) : Prop := well_formed (chars s) ∨ existsb special (chars s) = false.

Lemma no_special l : existsb special l = false ↔ Forall (λ c, special c = false) l.
Proof. induction l as [|c l IH]; cbn; [done|]. rewrite orb_false_iff, IH, Forall_cons. done. Qed.

Lemma no_special_escaped l : existsb special (escaped l) = existsb special l.
Proof.
  induction l as [|c l IH]; [done|]. change (escaped (c :: l)) with (escape c ++ escaped l). rewrite existsb_app, IH. cbn. f_equal.
  unfold escape. destruct (special c) eqn:Es; cbn; by rewrite Es.
Qed.

Lemma Unescape_Escape v : readable_value v → UnescapeValue (EscapeValue v) = Ok v.
Proof.
  intros Hv. unfold UnescapeValue, EscapeValue. rewrite chars_text. fold (escaped (chars v)). rewrite no_special_escaped.
  destruct (existsb special (chars v)) eqn:Es; cbn [negb].
  - destruct Hv as [Hv|]; [|congruence]. destruct (runes_plain (escaped (chars v))) as [Hp Hr].
    pose proof (unescape_loop_bytes false [] _ Hp (well_formed_escaped _ Hv)) as Hu. rewrite Hr, unescape_escaped in Hu.
    destruct (unescape_loop _ _ _) as [w|]; [|done]. injection Hu as ->. by rewrite text_chars.
  - rewrite escaped_plain by by apply no_special. by rewrite text_chars.
Qed.

Lemma Escape_Unescape s v : readable_value s → UnescapeValue s = Ok v → EscapeValue v = s.
Proof.
  intros Hs. unfold UnescapeValue, EscapeValue. fold (escaped (chars v)). destruct (existsb special (chars s)) eqn:Es; cbn [negb].
  - destruct Hs as [Hs|]; [|congruence]. destruct (runes_plain (chars s)) as [Hp Hr].
    pose proof (unescape_loop_bytes false [] _ Hp Hs) as Hu. rewrite Hr in Hu. destruct (unescape_loop _ _ _) as [w|]; [|done].
    intros [= <-]. symmetry in Hu. apply unescape_bytes_inv in Hu as (u & Ew & Hu). cbn in Ew. subst w. by rewrite chars_text, Hu, text_chars.
  - intros [= <-]. rewrite escaped_plain by by apply no_special. apply text_chars.
Qed.

(** ** Splitting *)
Definition passes (l : list ascii) : Prop :=
  ∀ terms term rest, split_bytes terms term false (l ++ rest) = split_bytes terms (term ++ l) false rest.

Lemma passes_nil : passes [].
Proof. intros terms term rest. by rewrite app_nil_r. Qed.

Lemma passes_app l1 l2 : passes l1 → passes l2 → passes (l1 ++ l2).
Proof. intros H1 H2 terms term rest. by rewrite <-app_assoc, H1, H2, <-app_assoc. Qed.

Lemma passes_char c : c ≠ backslash → c ≠ ","%char → passes [c].
Proof. intros H1 H2 terms term rest. cbn. by rewrite !bool_decide_eq_false_2. Qed.

Lemma passes_chars l : Forall (λ c, special c = false) l → passes l.
Proof.
  induction 1 as [|c l Hc _ IH]; [apply passes_nil|]. apply (passes_app [c]); [|done]. unfold special in Hc. apply bool_decide_eq_false in Hc.
  apply passes_char; naive_solver.
Qed.

Lemma passes_escaped l : passes (escaped l).
Proof.
  induction l as [|c l IH]; [apply passes_nil|]. change (escaped (c :: l)) with (escape c ++ escaped l). apply passes_app; [|done].
  unfold escape. destruct (special c) eqn:Es; [|apply passes_chars; by repeat constructor].
  intros terms term rest. cbn. by rewrite <-app_assoc.
Qed.

Fixpoint join_bytes (ps : list (list ascii)) : list ascii :=
  match ps with
  | [] => []
  | [p] => p
  | p :: ps => p ++ ","%char :: join_bytes ps
  end.

Lemma join_bytes_cons p ps : ps ≠ [] → join_bytes (p :: ps) = p ++ ","%char :: join_bytes ps.
Proof. by destruct ps. Qed.

Lemma join_bytes_app ps qs : ps ≠ [] → qs ≠ [] → join_bytes (ps ++ qs) = join_bytes ps ++ ","%char :: join_bytes qs.
Proof.
  intros Hps Hqs. induction ps as [|p ps IH]; [done|]. cbn [app]. rewrite join_bytes_cons by by destruct ps.
  destruct ps as [|p' ps]; [done|]. rewrite IH by done. rewrite (join_bytes_cons p (p' :: ps)) by done. by rewrite <-app_assoc.
Qed.

Lemma split_join terms ps : ps ≠ [] → Forall passes ps → split_bytes terms [] false (join_bytes ps) = terms ++ ps.
Proof.
  intros Hne Hps. revert terms. induction Hps as [|p ps Hp Hps IH]; intros terms; [done|]. destruct ps as [|p' ps].
  - cbn. rewrite <-(app_nil_r p) at 1. rewrite Hp. done.
  - rewrite join_bytes_cons by done. rewrite Hp. cbn [split_bytes app].
    rewrite bool_decide_eq_false_2, bool_decide_eq_true_2 by done. rewrite IH by done. by rewrite <-app_assoc.
Qed.

Lemma splitTerms_join s ps : ps ≠ [] → Forall passes ps → chars s = join_bytes ps → s ≠ "" → splitTerms s = text <$> ps.
Proof.
  intros Hne Hps Hs Hs0. unfold splitTerms. rewrite bool_decide_eq_false_2 by by destruct s. f_equal.
  destruct (runes_plain (chars s)) as [Hp Hr]. rewrite split_loop_bytes by done. rewrite Hr, Hs. by apply (split_join []).
Qed.

(** ** Terms *)
Definition op_text (op : Operator) : string := match op with NotEquals => "!=" | _ => "=" end.

Definition req_text (r : Requirement) : string := Field r +:+ op_text (Operator_ r) +:+ EscapeValue (Value r).

(** The terms whose printed form can be read: the field has no special character, does not
    end in what would be taken for a part of the operator, and not both parts are empty. *)
Definition printable (r : Requirement) : Prop :=
  (Operator_ r = Equals ∨ Operator_ r = NotEquals) ∧ Forall (λ c, special c = false) (chars (Field r)) ∧
  (Operator_ r = Equals → last (chars (Field r)) ≠ Some "!"%char) ∧
  readable_value (Value r) ∧ (Field r ≠ "" ∨ Value r ≠ "").
#[export] Instance printable_dec r : Decision (printable r).
Proof. unfold printable, readable_value. apply _. Defined.

Definition term (r : Requirement) : Selector :=
  match Operator_ r with NotEquals => notHasTerm (Field r) (Value r) | _ => hasTerm (Field r) (Value r) end.

Lemma field_skipped l c rest lhs :
  Forall (λ c, special c = false) l → (c = "!"%char ∨ last l ≠ Some "!"%char) →
  split_term_bytes lhs (l ++ c :: rest) = split_term_bytes (lhs ++ l) (c :: rest).
Proof.
  intros Hl. revert lhs. induction Hl as [|b l Hb Hl IH]; intros lhs Hc; [by rewrite app_nil_r|]. cbn [app split_term_bytes].
  assert (b ≠ "="%char) as Hbe by (intros ->; done).
  assert (operator_prefix termOperators (b :: l ++ c :: rest) = None) as ->.
  { destruct l as [|b' l]; cbn [app]; apply operator_prefix_none; try done.
    - destruct Hc as [->|Hc]; [by right|]. left. intros ->. done.
    - right. apply Forall_cons in Hl as [Hb' _]. by intros ->. }
  rewrite IH; [by rewrite <-app_assoc|]. destruct Hc as [->|Hc]; [by left|]. right. destruct l as [|b' l]; [done|]. by rewrite last_cons_cons in Hc.
Qed.

Lemma escaped_starts l : match escaped l with c :: _ => c ≠ "="%char | [] => True end.
Proof.
  destruct l as [|c l]; [done|]. change (escaped (c :: l)) with (escape c ++ escaped l). unfold escape.
  destruct (special c) eqn:Es; [done|]. cbn. by intros ->.
Qed.

Lemma op_at_equals l : match l with c :: _ => c ≠ "="%char | [] => True end → operator_prefix termOperators ("="%char :: l) = Some (equalOperator, l).
Proof.
  intros Hl. cbn. rewrite (bool_decide_eq_false_2 (_ = ["!"; "="]%char)) by by destruct l.
  rewrite (bool_decide_eq_false_2 (_ = ["="; "="]%char)); [by rewrite bool_decide_eq_true_2|]. destruct l; [done|]. by intros [= ->].
Qed.

Lemma parse_part_printed {E} selector r : printable r → parse_part (E := E) selector (req_text r) = Ok (term r).
Proof.
  intros (Hop & Hf & Hx & Hv & _). unfold parse_part, splitTerm, req_text.
  destruct (runes_plain (chars (Field r +:+ op_text (Operator_ r) +:+ EscapeValue (Value r)))) as [Hp Hr].
  rewrite split_term_loop_bytes by done. rewrite Hr, !chars_append. unfold EscapeValue. rewrite chars_text. fold (escaped (chars (Value r))).
  pose proof (escaped_starts (chars (Value r))) as Hs. unfold term. destruct Hop as [Ho|Ho]; rewrite Ho in *; cbn [op_text].
  - change (chars "=" ++ escaped (chars (Value r))) with ("="%char :: escaped (chars (Value r))). rewrite field_skipped by auto.
    cbn [split_term_bytes app]. rewrite op_at_equals by done. rewrite text_chars.
    change (text (escaped (chars (Value r)))) with (EscapeValue (Value r)). by rewrite Unescape_Escape.
  - change (chars "!=" ++ escaped (chars (Value r))) with ("!"%char :: "="%char :: escaped (chars (Value r))). rewrite field_skipped by auto.
    cbn [split_term_bytes app]. replace (operator_prefix _ _) with (Some (notEqualOperator, escaped (chars (Value r)))) by done. rewrite text_chars.
    change (text (escaped (chars (Value r)))) with (EscapeValue (Value r)). by rewrite Unescape_Escape.
Qed.

Lemma req_text_passes r : printable r → passes (chars (req_text r)).
Proof.
  intros (Hop & Hf & _). unfold req_text. rewrite !chars_append. apply passes_app; [by apply passes_chars|].
  apply passes_app; [|unfold EscapeValue; rewrite chars_text; apply passes_escaped].
  destruct Hop as [-> | ->]; cbn; [by apply passes_char|]. apply (passes_app ["!"%char] ["="%char]); by apply passes_char.
Qed.

Lemma req_text_nonempty r : req_text r ≠ "".
Proof. unfold req_text. destruct (Field r); [|done]. by destruct (Operator_ r). Qed.

(** ** Selectors *)
Lemma Selector_nested_ind (P : Selector → Prop) :
  (∀ f v, P (hasTerm f v)) → (∀ f v, P (notHasTerm f v)) → (∀ l, Forall P l → P (andTerm l)) → ∀ t, P t.
Proof.
  intros H1 H2 H3. fix IH 1. intros [f v|f v|l]; [apply H1|apply H2|]. apply H3. induction l as [|t l IHl]; [constructor|]. constructor; [apply IH|done].
Qed.

Definition req_matches (Get : string → string) (r : Requirement) : bool :=
  match Operator_ r with NotEquals => bool_decide (Get (Field r) ≠ Value r) | _ => bool_decide (Get (Field r) = Value r) end.

(** What a selector matches is a matter of its requirements. *)
Lemma Matches_Requirements t Get : Matches t Get = forallb (req_matches Get) (Requirements t).
Proof.
  induction t as [f v|f v|l IH] using Selector_nested_ind; cbn; [by rewrite andb_true_r..|].
  induction IH as [|t l Ht _ IHl]; cbn; [done|]. by rewrite forallb_app, Ht, IHl.
Qed.

Lemma forallb_perm {X} (f : X → bool) l1 l2 : l1 ≡ₚ l2 → forallb f l1 = forallb f l2.
Proof. induction 1; cbn; [done|congruence|by rewrite !andb_assoc, (andb_comm (f _) (f _))|congruence]. Qed.

(** The strings between the commas of a printed selector. *)
Fixpoint pieces (t : Selector) : list (list ascii) :=
  match t with
  | andTerm [] => [[]]
  | andTerm l => concat (pieces <$> l)
  | _ => [chars (String_ t)]
  end.

Definition pieces_ok (t : Selector) : Prop :=
  pieces t ≠ [] ∧ Forall passes (pieces t) ∧ chars (String_ t) = join_bytes (pieces t) ∧
  filter (λ p, p ≠ "") (text <$> pieces t) = req_text <$> Requirements t.

Lemma pieces_leaf t r : pieces t = [chars (String_ t)] → Requirements t = [r] → String_ t = req_text r → printable r → pieces_ok t.
Proof.
  intros Hp Hr Ht Hg. unfold pieces_ok. rewrite Hp, Hr, Ht. split_and!; [done|constructor; [by apply req_text_passes|done]|done|].
  cbn [fmap list_fmap]. rewrite text_chars, filter_cons, decide_True by apply req_text_nonempty. done.
Qed.

Lemma pieces_spec t : Forall printable (Requirements t) → pieces_ok t.
Proof.
  induction t as [f v|f v|l IH] using Selector_nested_ind; intros Hg.
  1,2: apply Forall_cons in Hg as [Hg _]; by eapply pieces_leaf.
  induction IH as [|t l Ht _ IHl]; [split_and!; [done|constructor; [apply passes_nil|constructor]|done|done]|]. cbn [Requirements] in Hg. rewrite fmap_cons in Hg.
  cbn [concat] in Hg. apply Forall_app in Hg as [Hgt Hgl]. specialize (Ht Hgt). destruct l as [|t' l].
  - destruct Ht as (H1 & H2 & H3 & H4). unfold pieces_ok. cbn [pieces Requirements String_]. rewrite !fmap_cons, !fmap_nil. cbn [concat].
    by rewrite !app_nil_r.
  - specialize (IHl Hgl). destruct Ht as (H1 & H2 & H3 & H4), IHl as (K1 & K2 & K3 & K4). unfold pieces_ok.
    change (pieces (andTerm (t :: t' :: l))) with (pieces t ++ pieces (andTerm (t' :: l))).
    change (Requirements (andTerm (t :: t' :: l))) with (Requirements t ++ Requirements (andTerm (t' :: l))). split_and!.
    + by destruct (pieces t).
    + by apply Forall_app.
    + rewrite join_bytes_app by done. rewrite <-H3, <-K3. cbn [String_]. rewrite !fmap_cons. apply chars_join.
    + by rewrite !fmap_app, filter_app, H4, K4.
Qed.

Lemma splitTerms_printed t :
  Forall printable (Requirements t) → filter (λ p, p ≠ "") (splitTerms (String_ t)) = req_text <$> Requirements t.
Proof.
  intros Hg. destruct (pieces_spec t Hg) as (H1 & H2 & H3 & H4). destruct (decide (String_ t = "")) as [E|E].
  - rewrite E in H3 |- *. cbn. rewrite <-H4. destruct (pieces t) as [|p [|]]; [done|by cbn in H3; rewrite <-H3|]. by destruct p.
  - by rewrite (splitTerms_join _ (pieces t)).
Qed.

Lemma splitTerms_pieces t p :
  Forall printable (Requirements t) → p ∈ splitTerms (String_ t) → p = "" ∨ ∃ r, printable r ∧ p = req_text r.
Proof.
  intros Hg Hp. destruct (decide (p = "")) as [->|Hne]; [by left|]. right.
  assert (p ∈ filter (λ p, p ≠ "") (splitTerms (String_ t))) as Hf by by apply list_elem_of_filter.
  rewrite splitTerms_printed in Hf by done. apply list_elem_of_fmap in Hf as (r & -> & Hr). exists r. split; [|done].
  rewrite Forall_forall in Hg. by apply Hg.
Qed.

Lemma parse_parts_printed {E} selector parts items :
  (∀ p, p ∈ parts → p = "" ∨ ∃ r, printable r ∧ p = req_text r) →
  ∃ rs, parse_parts (E := E) selector parts items = Ok (items ++ (term <$> rs)) ∧ Forall printable rs ∧
    filter (λ p, p ≠ "") parts = req_text <$> rs.
Proof.
  revert items. induction parts as [|p parts IH]; intros items Hp; [exists []; by rewrite app_nil_r|].
  cbn [parse_parts]. rewrite filter_cons. destruct (Hp p ltac:(by left)) as [->|(r & Hr & ->)].
  - rewrite bool_decide_eq_true_2 by done. rewrite decide_False by naive_solver. apply IH. intros q Hq. apply Hp. by right.
  - rewrite bool_decide_eq_false_2 by apply req_text_nonempty. rewrite decide_True by apply req_text_nonempty.
    rewrite parse_part_printed by done. destruct (IH (items ++ [term r])) as (rs & -> & Hrs & Hf); [intros q Hq; apply Hp; by right|].
    exists (r :: rs). rewrite Hf, <-app_assoc. split_and!; [done|by constructor|done].
Qed.

Lemma Requirements_term r : printable r → Requirements (term r) = [r].
Proof. intros ([Ho|Ho] & _). all: unfold term; rewrite Ho; cbn; f_equal; by destruct r; cbn in *; subst. Qed.

(** Printed requirements determine the requirements. *)
Lemma req_text_perm rs rs' :
  Forall printable rs → Forall printable rs' → req_text <$> rs ≡ₚ req_text <$> rs' → rs ≡ₚ rs'.
Proof.
  intros H H' Hp. set (g p := match parse_part (E := False) "" p with Ok t => Requirements t | Err _ => [] end).
  assert (∀ l, Forall printable l → (req_text <$> l) ≫= g = l) as Hg.
  { induction 1 as [|r l Hr _ IH]; [done|]. rewrite fmap_cons, bind_cons, IH. unfold g. by rewrite parse_part_printed, Requirements_term. }
  rewrite <-(Hg rs H), <-(Hg rs' H'). by rewrite Hp.
Qed.

Lemma Transform_term r : printable r → Transform (E := False) (λ lhs rhs, Ok (lhs, rhs)) (term r) = Ok (term r) ∧ Empty (term r) = false.
Proof.
  intros ([Ho|Ho] & _ & _ & _ & Hne); unfold term; rewrite Ho; cbn; unfold transform_term; (split; [|done]);
    (replace (_ && _) with false; [done|]); symmetry; apply andb_false_iff; rewrite !bool_decide_eq_false;
    (destruct Hne as [Hne|Hne]; [left|right]; by destruct (Field r), (Value r)).
Qed.

Lemma Transform_terms rs : Forall printable rs →
  Transform (E := False) (λ lhs rhs, Ok (lhs, rhs)) (andTerm (term <$> rs)) = Ok (andTerm (term <$> rs)).
Proof.
  intros Hrs. cbn [Transform]. match goal with |- ?all _ _ = _ =>
    assert (∀ next, all (term <$> rs) next = Ok (andTerm (next ++ (term <$> rs)))) as H; [|apply (H [])] end.
  induction Hrs as [|r rs Hr _ IH]; intros next; [by rewrite app_nil_r|]. rewrite fmap_cons.
  destruct (Transform_term r Hr) as [-> ->]. by rewrite IH, <-app_assoc.
Qed.

(** [C10] Parsing the printed form of a field selector gives back its requirements, in the
    order of their printed forms, and so a selector that matches the same objects, provided
    that no field has one of the characters that values escape, none that is compared for
    equality ends in an exclamation mark, no term has both an empty field and an empty value,
    and every value is well-formed UTF-8 or has no character to escape.  Escaping and
    unescaping undo each other on such values.  [fields_not_escaped] and
    [Unescape_replaces_bytes] show that the conditions are needed. *)
Theorem field_selector_print_parse t :
  Forall printable (Requirements t) →
  (∃ t', ParseSelector (String_ t) = Ok t' ∧ Requirements t' ≡ₚ Requirements t ∧
     StronglySorted String.le (req_text <$> Requirements t') ∧ ∀ Get, Matches t' Get = Matches t Get) ∧
  (∀ v s, readable_value v → readable_value s → UnescapeValue (EscapeValue v) = Ok v ∧ (UnescapeValue s = Ok v → EscapeValue v = s)).
Proof.
  intros Hg. split; [|intros v s Hv Hs; split; [by apply Unescape_Escape|by apply Escape_Unescape]].
  unfold ParseSelector, parseSelector. set (parts := merge_sort String.le (splitTerms (String_ t))).
  assert (parts ≡ₚ splitTerms (String_ t)) as Hp by apply merge_sort_Permutation.
  destruct (parse_parts_printed (E := False) (String_ t) parts []) as (rs & -> & Hrs & Hf).
  { intros p. rewrite Hp. by apply splitTerms_pieces. }
  assert (rs ≡ₚ Requirements t) as Hperm.
  { apply req_text_perm; [done..|]. rewrite <-Hf, <-splitTerms_printed by done. by rewrite Hp. }
  assert (StronglySorted String.le (req_text <$> rs)) as Hsort.
  { rewrite <-Hf. apply sorted_filter. apply (StronglySorted_merge_sort _). }
  assert (∃ t', match [] ++ (term <$> rs) with [item] => Transform (E := False) (λ lhs rhs, Ok (lhs, rhs)) item
                | _ => Transform (E := False) (λ lhs rhs, Ok (lhs, rhs)) (andTerm ([] ++ (term <$> rs))) end = Ok t' ∧ Requirements t' = rs) as (t' & -> & Ht').
  { cbn [app]. destruct rs as [|r [|r' rs']].
    - by exists (andTerm []).
    - apply Forall_cons in Hrs as [Hr _]. exists (term r). rewrite fmap_cons, fmap_nil. split; [by apply Transform_term|by apply Requirements_term].
    - exists (andTerm (term <$> (r :: r' :: rs'))). rewrite !fmap_cons. split; [rewrite <-!fmap_cons; by apply Transform_terms|].
      rewrite <-!fmap_cons. cbn [Requirements]. clear -Hrs. induction Hrs as [|r0 l Hr _ IH]; [done|]. rewrite !fmap_cons. cbn [concat].
      rewrite IH, Requirements_term by done. done. }
  exists t'. rewrite Ht'. split_and!; [done..|]. intros Get. rewrite !Matches_Requirements, Ht'. by apply forallb_perm.
Qed.

Definition example_selector : Selector :=
  andTerm [hasTerm "status.phase" "a,b=\"; andTerm []; notHasTerm "metadata.name" ""; andTerm [hasTerm "x" "1"]].

Lemma field_selector_print_parse_witness :
  String_ example_selector = "status.phase=a\,b\=\\,,metadata.name!=,x=1" ∧
  (∃ t', ParseSelector (String_ example_selector) = Ok t' ∧ Requirements t' ≡ₚ Requirements example_selector ∧
     StronglySorted String.le (req_text <$> Requirements t') ∧ ∀ Get, Matches t' Get = Matches example_selector Get) ∧
  UnescapeValue (EscapeValue "a,b") = Ok "a,b".
Proof.
  assert (Forall printable (Requirements example_selector)) as H by (apply (bool_decide_unpack _); vm_compute; exact I).
  destruct (field_selector_print_parse example_selector H) as [H1 H2].
  split_and!; [reflexivity|exact H1|]. apply (H2 "a,b" "x"); [left|right]; apply (bool_decide_unpack _); vm_compute; exact I.
Defined.

(** ** What the other operations promise *)
(** A value that a selector is said to require is the only one the field of a matching object has. *)
Theorem RequiresExactMatch_sound t field v Get :
  RequiresExactMatch t field = Some v → Matches t Get = true → Get field = v.
Proof.
  induction t as [f w|f w|l IH] using Selector_nested_ind; cbn; [|done|].
  - intros Hr Hm%bool_decide_eq_true. case_bool_decide; simplify_eq. done.
  - induction IH as [|q l Hq _ IHl]; [done|]. cbn. destruct (RequiresExactMatch q field) as [w|] eqn:E; intros Hr [Hm Hl]%andb_true_iff.
    + apply Hq; congruence.
    + by apply IHl.
Qed.

(** A selector made from a set matches the fields that agree with the set on all it has; a
    field that is absent counts as empty. *)
Theorem SelectorFromSet_exact rng `{!range_order rng} ls Get :
  Matches (SelectorFromSet rng (Some ls)) Get = true ↔ ∀ f v, ls !! f = Some v → Get f = v.
Proof.
  assert (Requirements (SelectorFromSet rng (Some ls)) = (λ kv, {| Operator_ := Equals; Field := kv.1; Value := kv.2 |}) <$> rng ls) as E.
  { assert (∀ l : list (string * string), concat (Requirements <$> ((λ kv, hasTerm kv.1 kv.2) <$> l)) =
      (λ kv, {| Operator_ := Equals; Field := kv.1; Value := kv.2 |}) <$> l) as Hl by (induction l; cbn; congruence).
    cbn [SelectorFromSet]. rewrite <-Hl. by destruct (rng ls) as [|? [|]]. }
  rewrite Matches_Requirements, E, forallb_forall. setoid_rewrite <-list_elem_of_In.
  setoid_rewrite list_elem_of_fmap. split.
  - intros H f v Hf. specialize (H {| Operator_ := Equals; Field := f; Value := v |}). apply bool_decide_eq_true in H; [done|].
    exists (f, v). by rewrite range_elem.
  - intros H r ([f v] & -> & Hf). apply range_elem in Hf; [|done]. apply bool_decide_eq_true. by apply H.
Qed.

(** [Set.String] joins the fields as they are: a set with a comma in a value prints to what
    the parser refuses, or reads as other fields. *)
Theorem Set_String_not_parsed :
  ParseSelector (Set_String map_to_list {["a" := "x,y"]}) = Err (CantUnderstand "a=x,y" "y") ∧
  ParseSelector (Set_String map_to_list {["a" := "x,b=y"]}) = Ok (andTerm [hasTerm "a" "x"; hasTerm "b" "y"]).
Proof. split; vm_compute; reflexivity. Qed.

(** Fields are printed as they are, unlike values: a field with an equals sign is refused,
    one with a comma is read as two terms, and one that ends in an exclamation mark changes
    the operator. *)
Theorem fields_not_escaped :
  ParseSelector (String_ (hasTerm "a=b" "c")) = Err (Unescape (UnescapedRune (Rune ["="%char]))) ∧
  ParseSelector (String_ (hasTerm "a=1,b" "c")) = Ok (andTerm [hasTerm "a" "1"; hasTerm "b" "c"]) ∧
  ParseSelector (String_ (hasTerm "a!" "c")) = Ok (notHasTerm "a" "c").
Proof. split_and!; vm_compute; reflexivity. Qed.

(** Unescaping a value that has an escaped character replaces the bytes that are not
    well-formed UTF-8; without one they are kept. *)
Theorem Unescape_replaces_bytes :
  UnescapeValue (EscapeValue (text ["255"; ","]%char)) = Ok (text (ascii_of_nat <$> [239; 191; 189; 44])) ∧
  UnescapeValue (EscapeValue (text ["255"; "a"]%char)) = Ok (text ["255"; "a"]%char).
Proof. split; vm_compute; reflexivity. Qed.
