(* ===== verification/Decimals.v ===== *)
(** * Decimal numbers

    Integers of 32 bits, rational numbers written as an integer times a power of ten, and
    integers as strings of digits: what the models of [inf.Dec] and of resource quantities
    share.  [ParseInt] is strconv.ParseInt, [print_int] strconv.AppendInt and big.Int.String,
    [big_SetString] big.Int.SetString, each for base ten. *)

From Stdlib Require Import QArith Qpower Lqa Ascii.
From S2P Require Import Prelude Validation.

(** ** [int32] arithmetic wraps around. *)
Definition in_i32 (z : Z) : Prop := (- 2 ^ 31 ≤ z < 2 ^ 31)%Z.

Definition i32 (z : Z) : Z := ((z + 2 ^ 31) mod 2 ^ 32 - 2 ^ 31)%Z.

Lemma i32_id z : in_i32 z → i32 z = z.
Proof. unfold in_i32, i32. intros Hz. rewrite Z.mod_small; lia. Qed.

Lemma i32_range z : in_i32 (i32 z).
Proof. unfold in_i32, i32. pose proof (Z.mod_pos_bound (z + 2 ^ 31) (2 ^ 32)). lia. Qed.

(** ** Digits *)
Definition digit (d : Z) : ascii := ascii_of_nat (48 + Z.to_nat d).
Definition digit_value (c : ascii) : Z := Z.of_nat (nat_of_ascii c) - 48.

(** The number a string of digits denotes. *)
Definition num (l : list ascii) : Z := foldl (λ n c, (n * 10 + digit_value c)%Z) 0%Z l.

Fixpoint digits_loop (fuel : nat) (n : Z) (acc : list ascii) : list ascii :=
  match fuel with
  | O => acc
  | S fuel =>
    let acc := digit (n mod 10) :: acc in
    if (n <? 10)%Z then acc else digits_loop fuel (n / 10) acc
  end.
Definition digits (n : Z) : list ascii := digits_loop (S (Z.to_nat (Z.log2 n))) n [].

Definition print_int (z : Z) : list ascii := if (z <? 0)%Z then "-"%char :: digits (- z) else digits z.

(** The sign of a number, and what follows it. *)
Definition split_sign (l : list ascii) : bool * list ascii :=
  match l with
  | "-"%char :: l => (true, l)
  | "+"%char :: l => (false, l)
  | _ => (false, l)
  end.

Definition all_digits (l : list ascii) : bool := forallb is_digit l.

Definition big_SetString (l : list ascii) : option Z :=
  let '(neg, l) := split_sign l in
  if bool_decide (l = []) || negb (all_digits l) then None
  else Some (if neg then - num l else num l)%Z.

Definition ParseInt (l : list ascii) : option Z :=
  match big_SetString l with
  | Some n => if bool_decide (- 2 ^ 63 ≤ n ∧ n < 2 ^ 63)%Z then Some n else None
  | None => None
  end.

Example print_example : ParseInt (print_int (-1203)) = Some (-1203)%Z ∧ print_int (-1203) = chars "-1203".
Proof. done. Qed.

Lemma is_digit_spec c : is_digit c = true ↔ (48 ≤ nat_of_ascii c ∧ nat_of_ascii c ≤ 57)%nat.
Proof.
  unfold is_digit, in_range, nat_of_ascii. rewrite andb_true_iff, !bool_decide_eq_true. lia.
Qed.

Lemma digit_spec d : (0 ≤ d < 10)%Z → is_digit (digit d) = true ∧ digit_value (digit d) = d.
Proof.
  intros Hd. unfold digit, digit_value. rewrite is_digit_spec, nat_ascii_embedding by lia. lia.
Qed.

Lemma num_foldl l n : foldl (λ n c, (n * 10 + digit_value c)%Z) n l = (n * 10 ^ Z.of_nat (length l) + num l)%Z.
Proof.
  unfold num. revert n. induction l as [|c l IH]; intros n; [cbn; lia|]. cbn [foldl length]. rewrite IH, (IH (0 * 10 + _)%Z).
  rewrite Nat2Z.inj_succ, Z.pow_succ_r by lia. lia.
Qed.

Lemma num_app l1 l2 : num (l1 ++ l2) = (num l1 * 10 ^ Z.of_nat (length l2) + num l2)%Z.
Proof. unfold num at 1. rewrite foldl_app. apply num_foldl. Qed.

Lemma num_cons c l : num (c :: l) = (digit_value c * 10 ^ Z.of_nat (length l) + num l)%Z.
Proof. apply (num_foldl l (0 * 10 + digit_value c)). Qed.

Lemma num_range l : Forall is_digit l → (0 ≤ num l < 10 ^ Z.of_nat (length l))%Z.
Proof.
  induction 1 as [|c l Hc _ IH]; [cbn; lia|]. rewrite num_cons. cbn [length]. rewrite Nat2Z.inj_succ, Z.pow_succ_r by lia.
  apply Is_true_true, is_digit_spec in Hc. unfold digit_value. nia.
Qed.

Lemma digits_loop_spec fuel n acc :
  (0 ≤ n)%Z → (Z.log2 n < Z.of_nat fuel)%Z →
  ∃ l, digits_loop fuel n acc = l ++ acc ∧ num l = n ∧ Forall is_digit l ∧ l ≠ [] ∧
    (n ≠ 0%Z → (10 ^ Z.of_nat (length l) ≤ 10 * n)%Z) ∧ (n = 0%Z → l = ["0"%char]).
Proof.
  revert n acc. induction fuel as [|fuel IH]; intros n acc Hn Hf; [pose proof (Z.log2_nonneg n); lia|]. cbn [digits_loop].
  assert (0 ≤ n mod 10 < 10)%Z as Hm by (apply Z.mod_pos_bound; lia). destruct (digit_spec _ Hm) as [Hd Hv].
  destruct (Z.ltb_spec n 10) as [Hlt|Hge].
  - exists [digit (n mod 10)]. rewrite Z.mod_small in * by lia. split_and!; [done| |by constructor; [apply Is_true_true|]|done|cbn; lia|by intros ->].
    rewrite num_cons, Hv. cbn. lia.
  - assert (0 < n / 10)%Z by (apply Z.div_str_pos; lia). pose proof (Z.div_mod n 10) as Hdm.
    assert (Z.log2 (n / 10) < Z.of_nat fuel)%Z as Hlog.
    { enough (Z.log2 (n / 10) < Z.log2 n)%Z by lia. rewrite <-(Z.succ_pred (Z.log2 n)). apply Z.lt_succ_r.
      rewrite <-Z.sub_1_r. replace (Z.log2 n - 1)%Z with (Z.log2 (n / 2)). { apply Z.log2_le_mono. apply Z.div_le_compat_l; lia. }
      change (n / 2)%Z with (Z.div n (2 ^ 1)). rewrite <-Z.shiftr_div_pow2, Z.log2_shiftr by lia.
      rewrite Z.max_r; [done|]. assert (1 ≤ Z.log2 n)%Z; [|lia]. apply Z.log2_le_pow2; lia. }
    destruct (IH (n / 10)%Z (digit (n mod 10) :: acc)) as (l & -> & Hl & Hdl & Hne & Hlen & _); [lia|done|].
    exists (l ++ [digit (n mod 10)]). rewrite <-app_assoc, num_app, Hl, num_cons, Hv, length_app. cbn [length].
    split_and!; [done|cbn; lia|apply Forall_app; split; [done|]; by constructor; [apply Is_true_true|]|by destruct l|intros _|lia].
    rewrite Nat2Z.inj_add, Z.pow_add_r by lia. specialize (Hlen ltac:(lia)). lia.
Qed.

(** Printing an integer: the digits denote it, there are no more than needed. *)
Lemma digits_spec n : (0 ≤ n)%Z →
  num (digits n) = n ∧ Forall is_digit (digits n) ∧ digits n ≠ [] ∧
  (n ≠ 0%Z → (10 ^ Z.of_nat (length (digits n)) ≤ 10 * n)%Z) ∧ (n = 0%Z → digits n = ["0"%char]).
Proof.
  intros Hn. destruct (digits_loop_spec (S (Z.to_nat (Z.log2 n))) n []) as (l & E & H); [done|pose proof (Z.log2_nonneg n); lia|].
  unfold digits. rewrite E, app_nil_r. done.
Qed.

Lemma all_digits_spec l : all_digits l = true ↔ Forall is_digit l.
Proof. unfold all_digits. rewrite forallb_forall, Forall_forall. setoid_rewrite list_elem_of_In. by setoid_rewrite Is_true_true. Qed.

Lemma digit_not c d : is_digit c = true → is_digit d = false → c ≠ d.
Proof. intros H1 H2 ->. congruence. Qed.

Lemma split_sign_digits l : Forall is_digit l → split_sign l = (false, l).
Proof.
  intros H. destruct l as [|c l]; [done|]. apply Forall_cons in H as [Hc%Is_true_true _]. unfold split_sign.
  destruct c as [[] [] [] [] [] [] [] []]; by cbn in Hc.
Qed.

Lemma big_SetString_digits l : Forall is_digit l → l ≠ [] → big_SetString l = Some (num l).
Proof.
  intros H Hne. unfold big_SetString. rewrite split_sign_digits by done. rewrite bool_decide_eq_false_2 by done.
  by apply all_digits_spec in H as ->.
Qed.

Lemma big_SetString_minus l : Forall is_digit l → l ≠ [] → big_SetString ("-"%char :: l) = Some (- num l)%Z.
Proof. intros H Hne. cbn. rewrite bool_decide_eq_false_2 by done. by apply all_digits_spec in H as ->. Qed.

Lemma big_SetString_plus l : Forall is_digit l → l ≠ [] → big_SetString ("+"%char :: l) = Some (num l).
Proof. intros H Hne. cbn. rewrite bool_decide_eq_false_2 by done. by apply all_digits_spec in H as ->. Qed.

Lemma ParseInt_print n : in_i64 n → ParseInt (print_int n) = Some n.
Proof.
  intros Hn. unfold ParseInt, print_int. destruct (Z.ltb_spec n 0) as [H|H].
  - destruct (digits_spec (- n)) as (E & Hd & Hne & _); [lia|]. rewrite big_SetString_minus by done. rewrite E, Z.opp_involutive.
    by rewrite bool_decide_eq_true_2.
  - destruct (digits_spec n) as (E & Hd & Hne & _); [lia|]. rewrite big_SetString_digits, E by done. by rewrite bool_decide_eq_true_2.
Qed.

(** ** An integer times a power of ten *)
Open Scope Q_scope.

Definition pow10 (e : Z) : Q := inject_Z 10 ^ e.
Definition dec (v e : Z) : Q := inject_Z v * pow10 e.

Lemma pow10_pos e : 0 < pow10 e.
Proof. apply Qpower_0_lt. reflexivity. Qed.

Lemma pow10_add a b : pow10 (a + b) == pow10 a * pow10 b.
Proof. by apply Qpower_plus. Qed.

Lemma pow10_Z k : (0 ≤ k)%Z → pow10 k == inject_Z (10 ^ k).
Proof. intros Hk. unfold pow10. by rewrite Zpower_Qpower. Qed.

Lemma pow10_opp e : pow10 (- e) == / pow10 e.
Proof. apply Qpower_opp. Qed.

#[export] Instance dec_proper : Proper (eq ==> eq ==> Qeq) dec.
Proof. by intros ?? -> ?? ->. Qed.

Lemma dec_shift v e k : (0 ≤ k)%Z → dec v e == dec (v * 10 ^ k) (e - k).
Proof.
  intros Hk. unfold dec. rewrite inject_Z_mult, <-pow10_Z by done. rewrite <-Qmult_assoc, <-pow10_add.
  by replace (k + (e - k))%Z with e by lia.
Qed.

Lemma dec_at v e f : (f ≤ e)%Z → dec v e == dec (v * 10 ^ (e - f)) f.
Proof. intros H. rewrite (dec_shift v e (e - f)) by lia. by replace (e - (e - f))%Z with f by lia. Qed.

Lemma dec_add v w e : dec v e + dec w e == dec (v + w) e.
Proof. unfold dec. rewrite inject_Z_plus. ring. Qed.

Lemma dec_opp v e : - dec v e == dec (- v) e.
Proof. unfold dec. rewrite inject_Z_opp. ring. Qed.

Lemma dec_mul v w e f : dec v e * dec w f == dec (v * w) (e + f).
Proof. unfold dec. rewrite inject_Z_mult, pow10_add. ring. Qed.

Lemma dec_0 e : dec 0 e == 0.
Proof. unfold dec. ring. Qed.

Lemma dec_Z v : dec v 0 == inject_Z v.
Proof. unfold dec. cbn. ring. Qed.

Lemma dec_compare v w e : (dec v e ?= dec w e) = (v ?= w)%Z.
Proof.
  unfold dec. pose proof (pow10_pos e). destruct (Z.compare_spec v w) as [->|Hlt|Hgt].
  - by apply Qeq_alt.
  - apply Qlt_alt, Qmult_lt_compat_r; [done|]. by rewrite <-Zlt_Qlt.
  - apply Qgt_alt, Qmult_lt_compat_r; [done|]. by rewrite <-Zlt_Qlt.
Qed.

Lemma dec_inj v w e : dec v e == dec w e ↔ v = w.
Proof. by rewrite Qeq_alt, dec_compare, Z.compare_eq_iff. Qed.

Lemma dec_lt v w e : dec v e < dec w e ↔ (v < w)%Z.
Proof. by rewrite Qlt_alt, dec_compare. Qed.

Lemma dec_le v w e : dec v e <= dec w e ↔ (v ≤ w)%Z.
Proof. by rewrite Qle_alt, dec_compare. Qed.

Lemma dec_sign v e : (dec v e ?= 0) = (v ?= 0)%Z.
Proof. by rewrite <-(dec_0 e), dec_compare. Qed.

Lemma dec_eq_0 v e : dec v e == 0 ↔ v = 0%Z.
Proof. by rewrite <-(dec_0 e), dec_inj. Qed.
