(* ===== verification/InfDec.v ===== *)
(** * Arbitrary-precision decimals (gopkg.in/inf.v0: dec.go, rounder.go)

    A decimal is an integer of any size with a scale of 32 bits.  Methods set their receiver to
    a result that they compute from their arguments before they change anything of the receiver
    that the arguments may share: they are functions from the arguments to the new value.  [None]
    is a panic; the nil that a rounder may return is a value. *)

From Stdlib Require Import Ascii.
From S2P Require Import Prelude Validation Decimals.
Open Scope Z_scope.

Record Dec := MkDec { unscaled : Z; scale : Z }.

#[export] Instance Dec_eq_dec : EqDecision Dec.
Proof. solve_decision. Defined.

(** ** Powers of ten *)
Fixpoint exp10cache_from (n : nat) (e10i : Z) : list Z :=
  match n with
  | O => []
  | S n => e10i :: exp10cache_from n (e10i * 10)
  end.
Definition exp10cache : list Z := exp10cache_from 64 1.

Definition exp10 (x : Z) : option Z :=
  if x <? Z.of_nat (length exp10cache)
  then (if x <? 0 then None else exp10cache !! Z.to_nat x)
  else Some (10 ^ x).

(** ** Access *)
Definition NewDec (u s : Z) : Dec := {| unscaled := u; scale := s |}.
Definition NewDecBig (u s : Z) : Dec := {| unscaled := u; scale := s |}.
Definition Unscaled (x : Dec) : Z * bool := let u := i64 (unscaled x) in (u, bool_decide (u = unscaled x)).
Definition SetScale (z : Dec) (s : Z) : Dec := {| unscaled := unscaled z; scale := s |}.
Definition SetUnscaled (z : Dec) (u : Z) : Dec := {| unscaled := u; scale := scale z |}.
Definition SetUnscaledBig (z : Dec) (u : Z) : Dec := {| unscaled := u; scale := scale z |}.
Definition Set_ (z x : Dec) : Dec := SetScale (SetUnscaledBig z (unscaled x)) (scale x).
Definition Sign (x : Dec) : Z := Z.sgn (unscaled x).
Definition Neg (x : Dec) : Dec := {| unscaled := - unscaled x; scale := scale x |}.
Definition Abs (x : Dec) : Dec := {| unscaled := Z.abs (unscaled x); scale := scale x |}.

(** ** Addition and comparison *)
Definition rescale (x : Dec) (newScale : Z) : option Dec :=
  let shift := i32 (newScale - scale x) in
  if shift <? 0 then e ← exp10 (i32 (- shift)); Some (NewDecBig (Z.quot (unscaled x) e) newScale)
  else if 0 <? shift then e ← exp10 shift; Some (NewDecBig (unscaled x * e) newScale)
  else Some x.

Definition upscale (a b : Dec) : option (Dec * Dec) :=
  if scale a =? scale b then Some (a, b)
  else if scale b <? scale a then bb ← rescale b (scale a); Some (a, bb)
  else aa ← rescale a (scale b); Some (aa, b).

Definition cmp_int (c : comparison) : Z := match c with Eq => 0 | Lt => -1 | Gt => 1 end.

Definition Cmp (x y : Dec) : option Z :=
  '(xx, yy) ← upscale x y;
  Some (cmp_int (unscaled xx ?= unscaled yy)).

Definition Add (x y : Dec) : option Dec :=
  '(xx, yy) ← upscale x y;
  Some {| unscaled := unscaled xx + unscaled yy; scale := scale xx |}.

Definition Sub (x y : Dec) : option Dec :=
  '(xx, yy) ← upscale x y;
  Some {| unscaled := unscaled xx - unscaled yy; scale := scale xx |}.

Definition Mul (x y : Dec) : Dec := {| unscaled := unscaled x * unscaled y; scale := i32 (scale x + scale y) |}.

(** ** Division and rounding *)
Inductive Rounder := RoundDown | RoundUp | RoundFloor | RoundCeil | RoundHalfDown | RoundHalfUp | RoundHalfEven | RoundExact.

Definition UseRemainder (r : Rounder) : bool := match r with RoundDown => false | _ => true end.

Definition BitLen (x : Z) : Z := if x =? 0 then 0 else Z.log2 (Z.abs x) + 1.

Definition roundHalf (f : Z → bool → bool) (q : Dec) (rA rB : Z) : Dec :=
  let brA := BitLen rA in
  let brB := BitLen rB in
  if brA <? brB - 1 then q else
  let srA := Z.sgn rA in
  let srB := Z.sgn rB in
  let s := srA * srB in
  let roundUp :=
    if brA =? brB - 1 then
      let rA2 := Z.shiftl rA 1 in
      let rA2 := if s <? 0 then - rA2 else rA2 in
      f (cmp_int (rA2 ?= rB) * srB) (Z.odd (unscaled q))
    else true in
  if roundUp then SetUnscaledBig q (unscaled q + s) else q.

Definition Rounder_Round (r : Rounder) (q : Dec) (rA rB : Z) : option Dec :=
  match r with
  | RoundExact => if negb (Z.sgn rA =? 0) then None else Some q
  | RoundDown => Some q
  | RoundUp => Some (if negb (Z.sgn rA =? 0) then SetUnscaledBig q (unscaled q + Z.sgn rA * Z.sgn rB) else q)
  | RoundFloor => Some (if Z.sgn rA * Z.sgn rB <? 0 then SetUnscaledBig q (unscaled q + -1) else q)
  | RoundCeil => Some (if 0 <? Z.sgn rA * Z.sgn rB then SetUnscaledBig q (unscaled q + 1) else q)
  | RoundHalfDown => Some (roundHalf (λ c odd, 0 <? c) q rA rB)
  | RoundHalfUp => Some (roundHalf (λ c odd, 0 <=? c) q rA rB)
  | RoundHalfEven => Some (roundHalf (λ c odd, (0 <? c) || (c =? 0) && odd) q rA rB)
  end.

(** Quotient, and the numerator and denominator of the remainder; the rounder that does not
    use the remainder is not given it. *)
Definition quoRem (x y : Dec) (s : Z) : option (Dec * Z * Z) :=
  let shift := i32 (s - i32 (scale x - scale y)) in
  '(ix, iy) ← (if 0 <? shift then e ← exp10 shift; Some (unscaled x * e, unscaled y)
               else if shift <? 0 then e ← exp10 (i32 (- shift)); Some (unscaled x, unscaled y * e)
               else Some (unscaled x, unscaled y));
  if iy =? 0 then None else
  Some ({| unscaled := Z.quot ix iy; scale := s |}, Z.rem ix iy, iy).

Definition quo (x y : Dec) (scl : Z) (r : Rounder) : option (option Dec) :=
  '(zz, rA, rB) ← quoRem x y scl;
  Some (if UseRemainder r then Rounder_Round r zz rA rB else Rounder_Round r zz 0 0).

Definition QuoRound (x y : Dec) (s : Z) (r : Rounder) : option (option Dec) := quo x y s r.

Definition Round (x : Dec) (s : Z) (r : Rounder) : option (option Dec) := QuoRound x (NewDec 1 0) s r.

Fixpoint factor_loop (fuel : nat) (d p : Z) : Z :=
  match fuel with
  | O => 0
  | S fuel => if d mod p =? 0 then 1 + factor_loop fuel (d / p) p else 0
  end.
Definition factor (n p : Z) : Z := factor_loop (S (Z.to_nat (Z.log2 n))) n p.

Fixpoint factor2_loop (fuel : nat) (n f : Z) : Z :=
  match fuel with
  | O => f
  | S fuel => if Z.testbit n f then f else factor2_loop fuel n (f + 1)
  end.
Definition factor2 (n : Z) : Z := factor2_loop (S (Z.to_nat (Z.log2 n))) n 0.

(** The denominator of [x/y] in lowest terms; [None] where y is zero. *)
Definition rat_denom (x y : Z) : option Z := if y =? 0 then None else Some (Z.abs y / Z.gcd x y).

Definition scaleQuoExact (x y : Dec) : option Z :=
  rem ← rat_denom (unscaled x) (unscaled y);
  let f2 := factor2 rem in
  let f5 := factor rem 5 in
  let f10 := if f5 <? f2 then i32 f2 else i32 f5 in
  Some (i32 (i32 (scale x - scale y) + f10)).

Definition QuoExact (x y : Dec) : option (option Dec) :=
  scl ← scaleQuoExact x y;
  quo x y scl RoundExact.

Example QuoExact_examples :
  QuoExact (NewDec 1 0) (NewDec 8 1) = Some (Some (NewDec 125 2)) ∧ QuoExact (NewDec 1 0) (NewDec 3 0) = Some None ∧
  Round (NewDec 25 1) 0 RoundHalfEven = Some (Some (NewDec 2 0)) ∧ QuoExact (NewDec 1 0) (NewDec 0 0) = None.
Proof. vm_compute. done. Qed.

(** ** Text *)
Definition zeros : list ascii := replicate 64 "0"%char.
Definition lzeros : Z := i32 (Z.of_nat (length zeros)).

Fixpoint append_zeros_loop (fuel : nat) (s : list ascii) (n i : Z) : option (list ascii) :=
  match fuel with
  | O => None
  | S fuel =>
    if i <? n then
      append_zeros_loop fuel (s ++ (if i32 (i + lzeros) <? n then zeros else take (Z.to_nat (n - i)) zeros)) n (i32 (i + lzeros))
    else Some s
  end.
Definition appendZeros (s : list ascii) (n : Z) : option (list ascii) :=
  append_zeros_loop (S (S (Z.to_nat (n / lzeros)))) s n 0.

(** [make] panics when the capacity is negative. *)
Definition make_bytes (capacity : Z) : option (list ascii) := if capacity <? 0 then None else Some [].

Definition String_ (x : Dec) : option (list ascii) :=
  let s := print_int (unscaled x) in
  if scale x <=? 0 then
    if negb (scale x =? 0) && negb (Z.sgn (unscaled x) =? 0) then appendZeros s (i32 (- scale x)) else Some s
  else
    let negbit := - Z.quot (Sign x - 1) 2 in
    let lens := i32 (Z.of_nat (length s)) in
    if i32 (lens - negbit) <=? scale x then
      ss ← make_bytes (i32 (scale x + 2));
      let ss := if negbit =? 1 then ss ++ ["-"%char] else ss in
      let ss := ss ++ ["0"%char; "."%char] in
      ss ← appendZeros ss (i32 (i32 (scale x - lens) + negbit));
      Some (ss ++ drop (Z.to_nat negbit) s)
    else
      ss ← make_bytes (i32 (lens + 1));
      Some (ss ++ take (Z.to_nat (lens - scale x)) s ++ ["."%char] ++ drop (Z.to_nat (lens - scale x)) s).

(** The characters collected, the positions of the point and of the first digit, and the
    characters left. *)
Fixpoint scan_loop (u : list ascii) (dp dg : Z) (s : list ascii) : list ascii * Z * Z * list ascii :=
  match s with
  | [] => (u, dp, dg, [])
  | ch :: s' =>
    if bool_decide (ch = "+"%char) || bool_decide (ch = "-"%char) then
      if (0 <? Z.of_nat (length u)) || (0 <=? dp) then (u, dp, dg, s) else scan_loop (u ++ [ch]) dp dg s'
    else if bool_decide (ch = "."%char) then
      if 0 <=? dp then (u, dp, dg, s) else scan_loop u (Z.of_nat (length u)) dg s'
    else if is_digit ch then scan_loop (u ++ [ch]) dp (if dg =? -1 then Z.of_nat (length u) else dg) s'
    else (u, dp, dg, s)
  end.

Definition scan (s : list ascii) : option (Dec * list ascii) :=
  let '(u, dp, dg, rest) := scan_loop [] (-1) (-1) s in
  if dg =? -1 then None else
  let sc := if 0 <=? dp then i32 (Z.of_nat (length u) - dp) else 0 in
  match big_SetString u with
  | Some n => Some ({| unscaled := n; scale := sc |}, rest)
  | None => None
  end.

(** Here [None] is the failure that is returned. *)
Definition SetString (s : list ascii) : option Dec :=
  match scan s with
  | Some (z, []) => Some z
  | _ => None
  end.

Definition MarshalText (x : Dec) : option (list ascii) := String_ x.
Definition UnmarshalText (data : list ascii) : option Dec := SetString data.

Example text_examples :
  String_ (NewDec (-125) 2) = Some (chars "-1.25") ∧ String_ (NewDec (-5) 3) = Some (chars "-0.005") ∧
  String_ (NewDec 12 (-3)) = Some (chars "12000") ∧ SetString (chars "+1.50") = Some (NewDec 150 2) ∧
  SetString (chars ".5") = Some (NewDec 5 1) ∧ SetString (chars "1.5.") = None ∧ SetString (chars "1.+5") = None.
Proof. vm_compute. done. Qed.

(** ** Gob encoding *)
Definition decGobVersion : Z := 1.
Definition scaleSize : nat := 4.

(** The loop fills the buffer from its end. *)
Fixpoint scale_bytes_loop (n : nat) (s : Z) (buf : list Z) : list Z :=
  match n with
  | O => buf
  | S n => scale_bytes_loop n (Z.shiftr s 8) (s mod 256 :: buf)
  end.
Definition scaleBytes (s : Z) : list Z := scale_bytes_loop scaleSize s [].

Definition scale_of (b : list Z) : Z := foldl (λ s c, Z.lor (i32 (Z.shiftl s 8)) c) 0 b.

(** big.Int: the bytes of the magnitude, most significant first. *)
Fixpoint magnitude_loop (fuel : nat) (n : Z) (acc : list Z) : list Z :=
  match fuel with
  | O => acc
  | S fuel => if n =? 0 then acc else magnitude_loop fuel (n / 256) (n mod 256 :: acc)
  end.
Definition magnitude (n : Z) : list Z := magnitude_loop (S (Z.to_nat (Z.log2 n))) n [].
Definition of_magnitude (l : list Z) : Z := foldl (λ n b, n * 256 + b) 0 l.

Definition big_GobEncode (x : Z) : list Z := (if x <? 0 then 3 else 2) :: magnitude (Z.abs x).
Definition big_GobDecode (buf : list Z) : option Z :=
  match buf with
  | [] => Some 0
  | b :: buf => if Z.shiftr b 1 =? 1 then Some (if Z.odd b then - of_magnitude buf else of_magnitude buf) else None
  end.

Definition GobEncode (x : Dec) : list Z := big_GobEncode (unscaled x) ++ scaleBytes (scale x) ++ [decGobVersion].

Inductive gob_error := NoData | VersionNotSupported (b : Z) | IntNotSupported.

Definition GobDecode (buf : list Z) : option (res gob_error Dec) :=
  match last buf with
  | None => Some (Err NoData)
  | Some b =>
    if negb (b =? decGobVersion) then Some (Err (VersionNotSupported b)) else
    let l := Z.of_nat (length buf) - Z.of_nat scaleSize - 1 in
    if l <? 0 then None else
    match big_GobDecode (take (Z.to_nat l) buf) with
    | None => Some (Err IntNotSupported)
    | Some u => Some (Ok {| unscaled := u; scale := scale_of (take scaleSize (drop (Z.to_nat l) buf)) |})
    end
  end.

Example gob_examples :
  GobDecode (GobEncode (NewDec (-70000) (-3))) = Some (Ok (NewDec (-70000) (-3))) ∧ GobDecode [1] = None.
Proof. vm_compute. done. Qed.
