(* ===== verification/InfDecExact.v ===== *)
(** * Decimals are exact (gopkg.in/inf.v0)

    Decimals as rational numbers: sums, differences and comparisons are exact, quotients are
    rounded as each rounder documents, and text and gob encodings are read back. *)

From Stdlib Require Import QArith Qabs Lqa Ascii Znumtheory Zpow_facts.
From S2P Require Import Prelude Validation Decimals InfDec.
Open Scope Z_scope.

Definition dval (x : Dec) : Q := dec (unscaled x) (- scale x).

(** The scales of two decimals are close enough for their difference to be one. *)
Definition near (a b : Z) : Prop := Z.abs (a - b) < 2 ^ 31.

Lemma exp10cache_lookup n e i : (i < n)%nat → exp10cache_from n e !! i = Some (e * 10 ^ Z.of_nat i).
Proof.
  revert e i. induction n as [|n IH]; intros e i Hi; [lia|]. destruct i as [|i]; cbn [exp10cache_from lookup list_lookup]; [f_equal; cbn; lia|].
  change (exp10cache_from n (e * 10) !! i = Some (e * 10 ^ Z.of_nat (S i))). rewrite IH by lia. f_equal.
  rewrite Nat2Z.inj_succ, Z.pow_succ_r by lia. lia.
Qed.

Lemma exp10_spec x : 0 ≤ x → exp10 x = Some (10 ^ x).
Proof.
  intros Hx. unfold exp10. change (Z.of_nat (length exp10cache)) with 64. destruct (Z.ltb_spec x 64); [|done].
  destruct (Z.ltb_spec x 0); [lia|]. unfold exp10cache. rewrite exp10cache_lookup by lia. rewrite Z2Nat.id, Z.mul_1_l by lia. done.
Qed.

Lemma rescale_up x s :
  scale x < s → near s (scale x) → rescale x s = Some {| unscaled := unscaled x * 10 ^ (s - scale x); scale := s |}.
Proof.
  unfold near. intros Hs Hn. unfold rescale. rewrite i32_id by (unfold in_i32; lia).
  destruct (Z.ltb_spec (s - scale x) 0); [lia|]. destruct (Z.ltb_spec 0 (s - scale x)); [|lia]. by rewrite exp10_spec by lia.
Qed.

Lemma upscale_spec x y : near (scale x) (scale y) →
  ∃ u v, let s := Z.max (scale x) (scale y) in
    upscale x y = Some ({| unscaled := u; scale := s |}, {| unscaled := v; scale := s |}) ∧
    dval x == dec u (- s) ∧ dval y == dec v (- s).
Proof.
  intros Hn. unfold upscale, dval. destruct (Z.eqb_spec (scale x) (scale y)) as [E|E]; [|destruct (Z.ltb_spec (scale y) (scale x)) as [L|L]].
  - exists (unscaled x), (unscaled y). rewrite E, Z.max_id. destruct x, y; cbn in *; subst. done.
  - rewrite rescale_up by done. cbn. exists (unscaled x), (unscaled y * 10 ^ (scale x - scale y)). rewrite Z.max_l by lia.
    split_and!; [by destruct x|done|]. rewrite (dec_at _ _ (- scale x)) by lia. by replace (- scale y - - scale x) with (scale x - scale y) by lia.
  - rewrite rescale_up by (unfold near in *; lia). cbn. exists (unscaled x * 10 ^ (scale y - scale x)), (unscaled y). rewrite Z.max_r by lia.
    split_and!; [by destruct y| |done]. rewrite (dec_at _ _ (- scale y)) by lia. by replace (- scale x - - scale y) with (scale y - scale x) by lia.
Qed.

Lemma Add_exact x y : near (scale x) (scale y) →
  ∃ z, Add x y = Some z ∧ dval z == dval x + dval y ∧ scale z = Z.max (scale x) (scale y).
Proof.
  intros Hn. destruct (upscale_spec x y Hn) as (u & v & E & Hx & Hy). unfold Add. rewrite E. cbn. eexists. split_and!; [done| |done].
  rewrite Hx, Hy, dec_add. done.
Qed.

Lemma Sub_exact x y : near (scale x) (scale y) →
  ∃ z, Sub x y = Some z ∧ dval z == dval x - dval y ∧ scale z = Z.max (scale x) (scale y).
Proof.
  intros Hn. destruct (upscale_spec x y Hn) as (u & v & E & Hx & Hy). unfold Sub. rewrite E. cbn. eexists. split_and!; [done| |done].
  rewrite Hx, Hy. unfold Qminus. rewrite dec_opp, dec_add. done.
Qed.

Lemma Cmp_exact x y : near (scale x) (scale y) → Cmp x y = Some (cmp_int (dval x ?= dval y)%Q).
Proof.
  intros Hn. destruct (upscale_spec x y Hn) as (u & v & E & Hx & Hy). unfold Cmp. rewrite E. cbn. by rewrite Hx, Hy, dec_compare.
Qed.

Lemma Neg_exact x : dval (Neg x) == - dval x.
Proof. unfold dval. cbn. by rewrite dec_opp. Qed.

Lemma Mul_exact x y : in_i32 (scale x + scale y) → dval (Mul x y) == dval x * dval y.
Proof. intros H. unfold dval. cbn. rewrite i32_id, dec_mul by done. by replace (- (scale x + scale y)) with (- scale x + - scale y) by lia. Qed.

Lemma Sign_exact x : Sign x = cmp_int (dval x ?= 0)%Q.
Proof. unfold Sign, dval. rewrite dec_sign. by destruct (unscaled x). Qed.

(** ** Rounding *)
(** The integers that a rounder may give for a rational number. *)
Definition rounds (r : Rounder) (q : Q) (z : Z) : Prop :=
  let v := inject_Z z in
  let half P := (Qabs (q - v) <= 1 # 2)%Q ∧ ((Qabs (q - v) == 1 # 2)%Q → P : Prop) in
  match r with
  | RoundExact => (v == q)%Q
  | RoundDown => (0 <= q * v ∧ Qabs v <= Qabs q ∧ Qabs q < Qabs v + 1)%Q
  | RoundUp => (0 <= q * v ∧ Qabs q <= Qabs v ∧ Qabs v < Qabs q + 1)%Q
  | RoundFloor => (v <= q ∧ q < v + 1)%Q
  | RoundCeil => (q <= v ∧ v < q + 1)%Q
  | RoundHalfDown => half (Qabs v < Qabs q)%Q
  | RoundHalfUp => half (Qabs q < Qabs v)%Q
  | RoundHalfEven => half (Z.even z = true)
  end.

#[export] Instance rounds_proper r : Proper (Qeq ==> eq ==> iff) (rounds r).
Proof. intros p q Hq z ? <-. unfold rounds. destruct r; by rewrite Hq. Qed.

Lemma BitLen_bounds x : x ≠ 0 → 0 < BitLen x ∧ 2 ^ (BitLen x - 1) ≤ Z.abs x < 2 ^ BitLen x.
Proof.
  intros Hx. unfold BitLen. destruct (Z.eqb_spec x 0); [done|]. pose proof (Z.log2_spec (Z.abs x)). pose proof (Z.log2_nonneg (Z.abs x)).
  replace (Z.log2 (Z.abs x) + 1 - 1) with (Z.log2 (Z.abs x)) by lia. unfold Z.succ in *. lia.
Qed.

Lemma half_compare a b : a ≠ 0 → b ≠ 0 →
  cmp_int ((if Z.sgn a * Z.sgn b <? 0 then - (a * 2) else a * 2) ?= b) * Z.sgn b = cmp_int (2 * Z.abs a ?= Z.abs b).
Proof.
  intros Ha Hb. destruct (Z.lt_ge_cases a 0), (Z.lt_ge_cases b 0).
  - rewrite (Z.sgn_neg a), (Z.sgn_neg b), (Z.abs_neq a), (Z.abs_neq b) by lia. change (-1 * -1 <? 0) with false. cbv iota.
    destruct (Z.compare_spec (a * 2) b), (Z.compare_spec (2 * - a) (- b)); cbn [cmp_int]; lia.
  - rewrite (Z.sgn_neg a), (Z.sgn_pos b), (Z.abs_neq a), (Z.abs_eq b) by lia. change (-1 * 1 <? 0) with true. cbv iota.
    destruct (Z.compare_spec (- (a * 2)) b), (Z.compare_spec (2 * - a) b); cbn [cmp_int]; lia.
  - rewrite (Z.sgn_pos a), (Z.sgn_neg b), (Z.abs_eq a), (Z.abs_neq b) by lia. change (1 * -1 <? 0) with true. cbv iota.
    destruct (Z.compare_spec (- (a * 2)) b), (Z.compare_spec (2 * a) (- b)); cbn [cmp_int]; lia.
  - rewrite (Z.sgn_pos a), (Z.sgn_pos b), (Z.abs_eq a), (Z.abs_eq b) by lia. change (1 * 1 <? 0) with false. cbv iota.
    destruct (Z.compare_spec (a * 2) b), (Z.compare_spec (2 * a) b); cbn [cmp_int]; lia.
Qed.

(** Comparing lengths first does not change what is decided: twice the remainder is compared
    with the denominator. *)
Lemma roundHalf_spec f q rA rB :
  Z.abs rA < Z.abs rB → (∀ odd, f (-1) odd = false) → (∀ odd, f 1 odd = true) →
  roundHalf f q rA rB =
    if f (cmp_int (2 * Z.abs rA ?= Z.abs rB)) (Z.odd (unscaled q)) then SetUnscaledBig q (unscaled q + Z.sgn rA * Z.sgn rB) else q.
Proof.
  intros Hlt Hm Hp. unfold roundHalf. destruct (BitLen_bounds rB) as (HB & HB1 & HB2); [lia|].
  assert (2 ^ BitLen rB = 2 * 2 ^ (BitLen rB - 1)) as E by (rewrite <-Z.pow_succ_r by lia; f_equal; lia).
  destruct (decide (rA = 0)) as [->|HA].
  { change (2 * Z.abs 0) with 0. rewrite (proj2 (Z.compare_lt_iff 0 (Z.abs rB))) by lia. cbn [cmp_int]. rewrite Hm.
    change (BitLen 0) with 0. destruct (Z.ltb_spec 0 (BitLen rB - 1)); [done|]. destruct (Z.eqb_spec 0 (BitLen rB - 1)); [|lia].
    cbn. destruct rB; [lia|by cbn; rewrite Hm|by cbn; rewrite Hm]. }
  destruct (BitLen_bounds rA HA) as (HA0 & HA1 & HA2).
  destruct (Z.ltb_spec (BitLen rA) (BitLen rB - 1)) as [L|L]; [|destruct (Z.eqb_spec (BitLen rA) (BitLen rB - 1)) as [L'|L']].
  - assert (2 * 2 ^ BitLen rA ≤ 2 ^ (BitLen rB - 1)) by (rewrite <-Z.pow_succ_r by lia; apply Z.pow_le_mono_r; lia).
    rewrite (proj2 (Z.compare_lt_iff (2 * Z.abs rA) (Z.abs rB))) by lia. cbn [cmp_int]. by rewrite Hm.
  - rewrite Z.shiftl_mul_pow2 by lia. change (2 ^ 1) with 2. rewrite half_compare by lia. done.
  - assert (2 ^ (BitLen rB - 1) ≤ 2 ^ (BitLen rA - 1)) by (apply Z.pow_le_mono_r; lia).
    rewrite (proj2 (Z.compare_gt_iff (2 * Z.abs rA) (Z.abs rB))) by lia. cbn [cmp_int]. by rewrite Hp.
Qed.

Open Scope Q_scope.

(** A quotient is its integer part and a fraction of the same sign. *)
Lemma quot_rem_parts n d : (d ≠ 0)%Z →
  ∃ p R, Z.abs d = Zpos p ∧ R = (Z.rem n d * Z.sgn d)%Z ∧ (n * Z.sgn d = Zpos p * Z.quot n d + R)%Z ∧
    (Z.abs R = Z.abs (Z.rem n d) ∧ Z.abs R < Zpos p)%Z ∧ ((0 ≤ Z.quot n d ∧ 0 ≤ R) ∨ (Z.quot n d ≤ 0 ∧ R ≤ 0))%Z.
Proof.
  intros Hd. pose proof (Z.quot_rem' n d) as E. pose proof (Z.rem_bound_abs n d Hd) as Hb. pose proof (Z.rem_nonneg n d Hd) as Hs1. pose proof (Z.rem_nonpos n d Hd) as Hs2.
  set (a := Z.quot n d) in *. set (r := Z.rem n d) in *.
  destruct (Z.abs d) as [|p|p] eqn:Ep; [lia| |lia]. exists p, (r * Z.sgn d)%Z.
  assert ((Z.sgn d = 1 ∧ d = Zpos p) ∨ (Z.sgn d = -1 ∧ d = Zneg p))%Z as [[-> Hp]|[-> Hp]] by (clear -Ep Hd; lia).
  - split_and!; [done|done|lia|lia|lia|]. clear Ep. destruct (Z.le_ge_cases 0 n); [specialize (Hs1 ltac:(done)); left|specialize (Hs2 ltac:(done)); right]; split; subst d; nia.
  - split_and!; [done|done|lia|lia|lia|]. clear Ep. destruct (Z.le_ge_cases 0 n); [specialize (Hs1 ltac:(done)); right|specialize (Hs2 ltac:(done)); left]; split; subst d; nia.
Qed.

Lemma quot_fraction n d : (d ≠ 0)%Z →
  ∃ f, let i := inject_Z (Z.quot n d) in
  inject_Z n / inject_Z d == i + f ∧ -1 < f ∧ f < 1 ∧ cmp_int (f ?= 0) = (Z.sgn (Z.rem n d) * Z.sgn d)%Z ∧
  (2 * Qabs f ?= 1) = (2 * Z.abs (Z.rem n d) ?= Z.abs d)%Z ∧ ((0 <= i ∧ 0 <= f) ∨ (i <= 0 ∧ f <= 0)).
Proof.
  intros Hd. destruct (quot_rem_parts n d Hd) as (p & R & Hp & HR & E & (Habs & Hlt) & Hs). exists (R # p). cbn zeta. rewrite <-Habs, Hp. split_and!.
  - transitivity (inject_Z (n * Z.sgn d) / inject_Z (Zpos p)).
    + rewrite <-Hp. assert (d = Z.abs d * Z.sgn d)%Z as Ed by (symmetry; apply Z.abs_sgn). rewrite Ed at 1. rewrite !inject_Z_mult.
      assert (inject_Z (Z.sgn d) * inject_Z (Z.sgn d) == 1) as Hsq by (by destruct d).
      assert (¬ inject_Z (Z.abs d) == 0) by (rewrite Hp; done). assert (¬ inject_Z (Z.sgn d) == 0) by (by destruct d).
      transitivity (inject_Z n * (inject_Z (Z.sgn d) * inject_Z (Z.sgn d)) / (inject_Z (Z.abs d) * inject_Z (Z.sgn d))); [rewrite Hsq|]; by field.
    + rewrite E, inject_Z_plus, inject_Z_mult, Qmake_Qdiv. by field.
  - unfold Qlt. cbn. lia.
  - unfold Qlt. cbn. lia.
  - unfold Qcompare. cbn. rewrite Z.mul_1_r, HR. by destruct (Z.rem n d), d.
  - unfold Qcompare. cbn. f_equal. lia.
  - unfold Qle, inject_Z. cbn. lia.
Qed.

Lemma sign_cases (f : Q) (s : Z) : cmp_int (f ?= 0) = s → (s = 0%Z ∧ f == 0) ∨ (s = 1%Z ∧ 0 < f) ∨ (s = (-1)%Z ∧ f < 0).
Proof. destruct (Qcompare_spec f 0); intros <-; cbn; auto. Qed.

Lemma compare_cases (a b : Q) (c : comparison) : (a ?= b) = c → (c = Eq ∧ a == b) ∨ (c = Lt ∧ a < b) ∨ (c = Gt ∧ b < a).
Proof. destruct (Qcompare_spec a b); intros <-; auto. Qed.

Ltac qabs := repeat first [rewrite Qabs_pos in * by lra | rewrite Qabs_neg in * by lra].

Lemma half_rounds (i : Z) (f : Q) (s : Z) (c : comparison) (up : bool) :
  let z := if up then (i + s)%Z else i in
  -1 < f → f < 1 → cmp_int (f ?= 0) = s → (2 * Qabs f ?= 1) = c → ((0 <= inject_Z i ∧ 0 <= f) ∨ (inject_Z i <= 0 ∧ f <= 0)) →
  (c = Lt → up = false) → (c = Gt → up = true) →
  Qabs (inject_Z i + f - inject_Z z) <= 1 # 2 ∧
  (Qabs (inject_Z i + f - inject_Z z) == 1 # 2 → c = Eq ∧
     if up then Qabs (inject_Z i + f) < Qabs (inject_Z z) else Qabs (inject_Z z) < Qabs (inject_Z i + f)).
Proof.
  intros z H1 H2 Hs Hc Hi HL HG. apply sign_cases in Hs. apply compare_cases in Hc. subst z.
  assert (Qabs f == f ∧ 0 <= f ∨ Qabs f == - f ∧ f <= 0) as Ha.
  { destruct (Qlt_le_dec f 0); [right; rewrite Qabs_neg by lra|left; rewrite Qabs_pos by lra]; lra. }
  destruct up.
  - rewrite inject_Z_plus. destruct Hs as [[-> Hf]|[[-> Hf]|[-> Hf]]].
    + destruct Hc as [[-> Hc]|[[-> Hc]|[-> Hc]]]; [lra|by specialize (HL eq_refl)|lra].
    + change (inject_Z 1) with 1. destruct Hc as [[-> Hc]|[[-> Hc]|[-> Hc]]]; [|by specialize (HL eq_refl)|]; qabs.
      all: split; [lra|intros; split; [done || lra|lra]].
    + change (inject_Z (-1)) with (-(1)). destruct Hc as [[-> Hc]|[[-> Hc]|[-> Hc]]]; [|by specialize (HL eq_refl)|]; qabs.
      all: split; [lra|intros; split; [done || lra|lra]].
  - destruct Hc as [[-> Hc]|[[-> Hc]|[-> Hc]]]; [| |by specialize (HG eq_refl)].
    all: destruct Hi as [[Hi1 Hi2]|[Hi1 Hi2]]; qabs; (split; [lra|intros; split; [done || lra|lra]]).
Qed.

Lemma half_up_cases (g : Z → bool → bool) c odd :
  (∀ o, g (-1)%Z o = false) → (∀ o, g 1%Z o = true) →
  (c = Lt → g (cmp_int c) odd = false) ∧ (c = Gt → g (cmp_int c) odd = true).
Proof. intros H1 H2. split; intros ->; [apply H1|apply H2]. Qed.

Lemma roundHalf_rounds (g : Z → bool → bool) n d s : (d ≠ 0)%Z →
  (∀ o, g (-1)%Z o = false) → (∀ o, g 1%Z o = true) →
  let z := roundHalf g {| unscaled := Z.quot n d; scale := s |} (Z.rem n d) d in
  let up := g 0%Z (Z.odd (Z.quot n d)) in
  let q := inject_Z n / inject_Z d in
  let v := inject_Z (unscaled z) in
  scale z = s ∧ Qabs (q - v) <= 1 # 2 ∧
  (Qabs (q - v) == 1 # 2 → (up = true → Qabs q < Qabs v) ∧ (up = false → Qabs v < Qabs q) ∧ (g 0%Z = id → Z.even (unscaled z) = true)).
Proof.
  intros Hd Hm Hp. cbn zeta. rewrite roundHalf_spec by (done || by apply Z.rem_bound_abs). cbn [unscaled].
  destruct (quot_fraction n d Hd) as (f & Hq & H1 & H2 & Hs & Hc & Hi).
  set (c := (2 * Z.abs (Z.rem n d) ?= Z.abs d)%Z) in *. set (sg := (Z.sgn (Z.rem n d) * Z.sgn d)%Z) in *. set (i := Z.quot n d) in *.
  destruct (half_up_cases g c (Z.odd i) Hm Hp) as [HL HG].
  destruct (half_rounds i f sg c (g (cmp_int c) (Z.odd i)) H1 H2 Hs Hc Hi HL HG) as [R1 R2].
  split; [by destruct (g _ _)|]. rewrite Hq.
  replace (unscaled (if g (cmp_int c) (Z.odd i) then _ else _)) with (if g (cmp_int c) (Z.odd i) then (i + sg)%Z else i) by (by destruct (g _ _)).
  split; [done|]. intros Ht. destruct (R2 Ht) as [Ec R3]. rewrite Ec in *. cbn [cmp_int] in *. split; [by intros E; rewrite E in *|]. split; [by intros E; rewrite E in *|]. intros Hg. rewrite Hg in *. cbn [id] in *.
  unfold id in *. destruct (Z.odd i) eqn:Eo.
  - assert (sg = 1 ∨ sg = -1)%Z as Hsg.
    { apply sign_cases in Hs as [[-> Hf]|[[-> _]|[-> _]]]; [exfalso|by left|by right]. apply Qeq_alt in Hc. rewrite Hf in Hc. by cbn in Hc. }
    rewrite Z.even_add, <-Z.negb_odd, Eo. destruct Hsg as [-> | ->]; done.
  - by rewrite <-Z.negb_odd, Eo.
Qed.

(** Each rounder gives an integer that its documentation allows; only [RoundExact] may give
    none, when there is none. *)
Lemma Rounder_rounds r n d s : (d ≠ 0)%Z →
  let q := inject_Z n / inject_Z d in
  let zz := {| unscaled := Z.quot n d; scale := s |} in
  match (if UseRemainder r then Rounder_Round r zz (Z.rem n d) d else Rounder_Round r zz 0%Z 0%Z) with
  | Some z => scale z = s ∧ rounds r q (unscaled z)
  | None => r = RoundExact ∧ ∀ z, ¬ inject_Z z == q
  end.
Proof.
  intros Hd. cbn zeta. destruct (quot_fraction n d Hd) as (f & Hq & H1 & H2 & Hs & _ & Hi). set (i := Z.quot n d) in *.
  destruct r; cbn [UseRemainder Rounder_Round].
  5: destruct (roundHalf_rounds (λ c _, (0 <? c)%Z) n d s Hd) as (E & R1 & R2); [done..|]; split; [done|]; split; [done|]; intros Ht;
    by apply R2.
  5: destruct (roundHalf_rounds (λ c _, (0 <=? c)%Z) n d s Hd) as (E & R1 & R2); [done..|]; split; [done|]; split; [done|]; intros Ht;
    by apply R2.
  5: destruct (roundHalf_rounds (λ c odd, (0 <? c)%Z || (c =? 0)%Z && odd) n d s Hd) as (E & R1 & R2); [done..|]; split; [done|];
    split; [done|]; intros Ht; by apply R2.
  all: apply sign_cases in Hs.
  - split; [done|]. rewrite Hq. cbn [rounds unscaled]. destruct Hi as [[Hi1 Hi2]|[Hi1 Hi2]]; qabs; (split; [nra|lra]).
  - split; [by destruct (negb _)|]. rewrite Hq. assert (Z.sgn (Z.rem n d) = 0%Z ↔ Z.sgn (Z.rem n d) * Z.sgn d = 0)%Z as Hz by (destruct (Z.rem n d), d; cbn; lia).
    destruct Hs as [[Es Hf]|[[Es Hf]|[Es Hf]]]; rewrite Es in *;
      (destruct (Z.eqb_spec (Z.sgn (Z.rem n d)) 0) as [E0|E0]; [try (by destruct Hz as [Hz _]; specialize (Hz E0))|try (by destruct Hz as [_ Hz]; specialize (Hz eq_refl))]);
      cbn [negb SetUnscaledBig unscaled rounds]; rewrite ?inject_Z_plus; change (inject_Z 1) with 1; change (inject_Z (-1)) with (-(1));
      destruct Hi as [[Hi1 Hi2]|[Hi1 Hi2]]; qabs; (split; [nra|lra]).
  - split; [by destruct (_ <? _)%Z|]. rewrite Hq. destruct Hs as [[-> Hf]|[[-> Hf]|[-> Hf]]]; cbn [Z.ltb Z.compare SetUnscaledBig unscaled rounds];
      rewrite ?inject_Z_plus; change (inject_Z (-1)) with (-(1)); lra.
  - split; [by destruct (_ <? _)%Z|]. rewrite Hq. destruct Hs as [[-> Hf]|[[-> Hf]|[-> Hf]]]; cbn [Z.ltb Z.compare SetUnscaledBig unscaled rounds];
      rewrite ?inject_Z_plus; change (inject_Z 1) with 1; lra.
  - assert (Z.sgn (Z.rem n d) = 0%Z ↔ Z.sgn (Z.rem n d) * Z.sgn d = 0)%Z as Hz by (destruct (Z.rem n d), d; cbn; lia).
    destruct (Z.eqb_spec (Z.sgn (Z.rem n d)) 0) as [E0|E0]; cbn [negb].
    + split; [done|]. cbn [rounds unscaled]. rewrite Hq. destruct Hs as [[Es Hf]|[[Es Hf]|[Es Hf]]]; [lra|exfalso; lia..].
    + split; [done|]. intros z Hz'. rewrite Hq in Hz'. assert (f == inject_Z (z - i)) as Hf.
      { unfold Z.sub. rewrite inject_Z_plus, inject_Z_opp. lra. }
      rewrite Hf in H1, H2. change (-1) with (inject_Z (-1)) in H1. change 1 with (inject_Z 1) in H2. rewrite <-Zlt_Qlt in H1, H2.
      assert (z - i = 0)%Z as Hzi by lia. rewrite Hzi in Hf. destruct Hs as [[Es Hf']|[[Es Hf']|[Es Hf']]]; [lia|rewrite Hf in Hf'; by cbn in Hf'..].
Qed.

Lemma pow10_ne e : ¬ pow10 e == 0.
Proof. pose proof (pow10_pos e). lra. Qed.

Lemma quotient_scaled x y s : (unscaled y ≠ 0)%Z →
  dval x / dval y * pow10 s == inject_Z (unscaled x) / inject_Z (unscaled y) * pow10 (s - (scale x - scale y)).
Proof.
  intros Hy. unfold dval, dec. replace (s - (scale x - scale y))%Z with (- scale x + (scale y + s))%Z by lia.
  rewrite !pow10_add, (pow10_opp (scale y)). pose proof (pow10_ne (scale y)). pose proof (pow10_ne (- scale x)).
  assert (¬ inject_Z (unscaled y) == 0) by (change 0 with (inject_Z 0); rewrite inject_Z_injective; done). field. done.
Qed.

Lemma quoRem_spec x y s :
  in_i32 (scale x - scale y) → near s (scale x - scale y) → (unscaled y ≠ 0)%Z →
  ∃ n d, (d ≠ 0)%Z ∧ quoRem x y s = Some ({| unscaled := Z.quot n d; scale := s |}, Z.rem n d, d) ∧
    inject_Z n / inject_Z d == dval x / dval y * pow10 s.
Proof.
  intros Hi Hn Hy. unfold quoRem. rewrite (i32_id (scale x - scale y)), i32_id by (done || unfold near, in_i32 in *; lia).
  set (k := (s - (scale x - scale y))%Z) in *. assert (¬ inject_Z (unscaled y) == 0) by (change 0 with (inject_Z 0); rewrite inject_Z_injective; done).
  destruct (Z.ltb_spec 0 k) as [Hk|Hk]; [|destruct (Z.ltb_spec k 0) as [Hk'|Hk']].
  - rewrite exp10_spec by lia. cbn. destruct (Z.eqb_spec (unscaled y) 0); [done|]. eexists _, _. split_and!; [|done|]; [done|].
    rewrite quotient_scaled by done. fold k. rewrite pow10_Z, inject_Z_mult by lia. by field.
  - rewrite i32_id by (unfold near, in_i32 in *; lia). rewrite exp10_spec by lia. cbn.
    assert (0 < 10 ^ (- k))%Z by (apply Z.pow_pos_nonneg; lia). assert (unscaled y * 10 ^ (- k) ≠ 0)%Z by lia.
    destruct (Z.eqb_spec (unscaled y * 10 ^ (- k)) 0); [done|]. eexists _, _. split_and!; [|done|]; [done|].
    rewrite quotient_scaled by done. fold k. rewrite inject_Z_mult, <-pow10_Z by lia. rewrite pow10_opp. pose proof (pow10_ne k). by field.
  - cbn. destruct (Z.eqb_spec (unscaled y) 0); [done|]. eexists _, _. split_and!; [|done|]; [done|].
    rewrite quotient_scaled by done. fold k. replace k with 0%Z by lia. unfold pow10. cbn. by field.
Qed.

Lemma quo_rounds x y s r :
  in_i32 (scale x - scale y) → near s (scale x - scale y) → (unscaled y ≠ 0)%Z →
  ∃ o, quo x y s r = Some o ∧
    match o with
    | Some z => scale z = s ∧ rounds r (dval x / dval y * pow10 s) (unscaled z)
    | None => r = RoundExact ∧ ∀ z, ¬ inject_Z z == dval x / dval y * pow10 s
    end.
Proof.
  intros Hi Hn Hy. destruct (quoRem_spec x y s Hi Hn Hy) as (n & d & Hd & E & Hq). unfold quo. rewrite E. cbn [mbind option_bind].
  pose proof (Rounder_rounds r n d s Hd) as HR. cbn zeta in HR. eexists. split; [done|]. destruct (if UseRemainder r then _ else _) as [z|].
  - by rewrite <-Hq.
  - by setoid_rewrite <-Hq.
Qed.

Lemma dval_one : dval (NewDec 1 0) == 1.
Proof. done. Qed.

Lemma Round_rounds x s r :
  in_i32 (scale x) → near s (scale x) →
  ∃ o, Round x s r = Some o ∧
    match o with
    | Some z => scale z = s ∧ rounds r (dval x * pow10 s) (unscaled z)
    | None => r = RoundExact ∧ ∀ z, ¬ inject_Z z == dval x * pow10 s
    end.
Proof.
  intros Hi Hn. destruct (quo_rounds x (NewDec 1 0) s r) as (o & E & H); [by cbn; rewrite Z.sub_0_r..|done|].
  assert (dval x / dval (NewDec 1 0) * pow10 s == dval x * pow10 s) as Ed by (rewrite dval_one; by field).
  exists o. split; [done|]. destruct o; by setoid_rewrite <-Ed.
Qed.

(** ** Exact quotients *)
Open Scope Z_scope.

Lemma div_log2_lt d p : 2 ≤ p → 0 < d → d mod p = 0 → 0 < d / p ∧ Z.log2 (d / p) < Z.log2 d.
Proof.
  intros Hp Hd Hm. assert (d = p * (d / p)) as E by (apply Z.div_exact; lia). assert (0 < d / p) as Hpos by nia. split; [done|].
  assert (2 * (d / p) ≤ d) by nia. assert (Z.log2 (2 * (d / p)) ≤ Z.log2 d) as Hl by (by apply Z.log2_le_mono). rewrite Z.log2_double in Hl by done. lia.
Qed.

Lemma factor_loop_spec fuel d p : 2 ≤ p → 0 < d → Z.log2 d < Z.of_nat fuel →
  ∃ c, d = p ^ factor_loop fuel d p * c ∧ c mod p ≠ 0 ∧ 0 ≤ factor_loop fuel d p ≤ Z.log2 d.
Proof.
  intros Hp. revert d. induction fuel as [|fuel IH]; intros d Hd Hf; [pose proof (Z.log2_nonneg d); lia|]. cbn [factor_loop].
  destruct (Z.eqb_spec (d mod p) 0) as [E|E].
  - destruct (div_log2_lt d p Hp Hd E) as [H1 H2]. destruct (IH (d / p)) as (c & Hc & Hm & Hr); [done|lia|]. exists c. split_and!; [|done|lia|lia].
    rewrite Z.pow_add_r, Z.pow_1_r by lia. rewrite <-Z.mul_assoc, <-Hc. apply Z.div_exact; [lia|done].
  - exists d. pose proof (Z.log2_nonneg d). split_and!; [cbn; lia|done|lia|lia].
Qed.

Lemma factor_spec n p : 2 ≤ p → 0 < n → ∃ c, n = p ^ factor n p * c ∧ c mod p ≠ 0 ∧ 0 ≤ factor n p ≤ Z.log2 n.
Proof. intros Hp Hn. apply factor_loop_spec; [done..|]. pose proof (Z.log2_nonneg n). lia. Qed.

Lemma factor2_loop_spec fuel n f c : 0 < n → 0 ≤ f → n = 2 ^ f * c → Z.log2 n - f < Z.of_nat fuel →
  ∃ c, n = 2 ^ factor2_loop fuel n f * c ∧ c mod 2 ≠ 0 ∧ 0 ≤ factor2_loop fuel n f ≤ Z.log2 n.
Proof.
  intros Hn. revert f c. induction fuel as [|fuel IH]; intros f c Hf Hc Hl; assert (0 < 2 ^ f) by (apply Z.pow_pos_nonneg; lia).
  - exfalso. assert (0 < c) by nia. assert (2 ^ f ≤ n) by nia. assert (f ≤ Z.log2 n) by (by apply Z.log2_le_pow2). lia.
  - cbn [factor2_loop]. assert (Z.testbit n f = Z.odd c) as ->.
    { rewrite Hc, Z.mul_comm, Z.mul_pow2_bits, Z.sub_diag by lia. apply Z.bit0_odd. }
    destruct (Z.odd c) eqn:Eo.
    + exists c. split_and!; [done|by rewrite Zmod_odd, Eo|done|]. assert (0 < c) by nia. apply Z.log2_le_pow2; [done|nia].
    + apply (IH (f + 1) (c / 2)); [lia| |lia]. rewrite Z.pow_add_r, <-Z.mul_assoc by lia. change (2 ^ 1) with 2.
      rewrite Hc at 1. f_equal. apply Z.div_exact; [lia|]. by rewrite Zmod_odd, Eo.
Qed.

Lemma factor2_spec n : 0 < n → ∃ c, n = 2 ^ factor2 n * c ∧ c mod 2 ≠ 0 ∧ 0 ≤ factor2 n ≤ Z.log2 n.
Proof. intros Hn. apply (factor2_loop_spec _ n 0 n); [done..|cbn; lia|]. pose proof (Z.log2_nonneg n). lia. Qed.

Lemma coprime_5 c : c mod 5 ≠ 0 → Z.gcd c 5 = 1.
Proof.
  intros H. rewrite Z.gcd_comm, <-Z.gcd_mod by lia. pose proof (Z.mod_pos_bound c 5).
  assert (c mod 5 = 1 ∨ c mod 5 = 2 ∨ c mod 5 = 3 ∨ c mod 5 = 4) as [-> | [-> | [-> | ->]]] by lia; done.
Qed.

Lemma coprime_2 c : c mod 2 ≠ 0 → Z.gcd c 2 = 1.
Proof.
  intros H. rewrite Z.gcd_comm, <-Z.gcd_mod by lia. pose proof (Z.mod_pos_bound c 2). assert (c mod 2 = 1) as -> by lia. done.
Qed.

Lemma coprime_pow c p k : 0 ≤ k → Z.gcd c p = 1 → Z.gcd c (p ^ k) = 1.
Proof. intros Hk H. apply Zgcd_1_rel_prime. apply Zpow_facts.rel_prime_Zpower_r; [done|]. by apply Zgcd_1_rel_prime. Qed.

(** A divisor of a power of ten divides the one that its factors 2 and 5 ask for. *)
Lemma ten_power_divisor n k : 0 < n → 0 ≤ k → (n | 10 ^ k) → (n | 10 ^ Z.max (factor2 n) (factor n 5)).
Proof.
  intros Hn Hk Hd. destruct (factor2_spec n Hn) as (u & Eu & Hu & Ha & _), (factor_spec n 5) as (w & Ew & Hw & Hb & _); [lia|done|].
  set (a := factor2 n) in *. set (b := factor n 5) in *.
  assert (5 ^ b | u) as [c Hc].
  { apply (Z.gauss _ (2 ^ a)); [rewrite <-Eu; by exists w; lia|]. apply coprime_pow; [done|]. rewrite Z.gcd_comm. by apply coprime_pow. }
  assert (w = 2 ^ a * c) as Ec.
  { assert (0 < 5 ^ b) by (apply Z.pow_pos_nonneg; lia). nia. }
  assert (c mod 2 ≠ 0) as Hc2 by (intros E; apply Hu; rewrite Hc, Z.mul_mod, E by lia; done).
  assert (c mod 5 ≠ 0) as Hc5 by (intros E; apply Hw; rewrite Ec, Z.mul_mod, E, Z.mul_0_r by lia; done).
  assert (c | 1) as Hc1.
  { apply (Z.gauss _ (10 ^ k)); [|].
    - rewrite Z.mul_1_r. etransitivity; [|done]. exists (2 ^ a * 5 ^ b). rewrite Eu, Hc. lia.
    - apply coprime_pow; [done|]. change 10 with (2 * 5). apply Zgcd_1_rel_prime, rel_prime_mult; apply Zgcd_1_rel_prime; [by apply coprime_2|by apply coprime_5]. }
  assert (0 < 2 ^ a) by (apply Z.pow_pos_nonneg; lia). assert (0 < 5 ^ b) by (apply Z.pow_pos_nonneg; lia).
  assert (c = 1) as -> by (apply Z.divide_1_r in Hc1; nia).
  exists (2 ^ (Z.max a b - a) * 5 ^ (Z.max a b - b)). change 10 with (2 * 5). rewrite Z.pow_mul_l, Eu, Hc.
  rewrite <-(Z.sub_add a (Z.max a b)) at 1. rewrite <-(Z.sub_add b (Z.max a b)) at 2. rewrite !Z.pow_add_r by lia. ring.
Qed.

(** With the denominator in lowest terms: when [x * 10^k] is a multiple of [y]. *)
Lemma lowest_terms x y : y ≠ 0 →
  ∃ den, rat_denom x y = Some den ∧ 0 < den ≤ Z.abs y ∧ ∀ k, 0 ≤ k → (y | x * 10 ^ k) ↔ (den | 10 ^ k).
Proof.
  intros Hy. unfold rat_denom. destruct (Z.eqb_spec y 0); [done|]. eexists. split; [done|].
  set (g := Z.gcd x y). assert (0 < g) as Hg by (pose proof (Z.gcd_nonneg x y); pose proof (Z.gcd_eq_0_r x y); lia).
  destruct (Z.gcd_divide_l x y) as [a Ha], (Z.gcd_divide_r x y) as [b Hb]. fold g in Ha, Hb.
  assert (Z.gcd a b = 1) as Hab. { rewrite <-(Z.gcd_div_gcd x y g) by (done || lia). by rewrite Ha, Hb, !Z.div_mul by lia. }
  assert (Z.abs y / g = Z.abs b) as ->. { rewrite Hb, Z.abs_mul, (Z.abs_eq g), Z.div_mul by lia. done. }
  assert (b ≠ 0) by (intros ->; lia). split; [split; [lia|rewrite Hb, Z.abs_mul; nia]|]. intros k Hk. rewrite Z.divide_abs_l. split.
  - intros [m Hm]. apply (Z.gauss _ a); [|by rewrite Z.gcd_comm]. exists m. rewrite Ha, Hb in Hm. nia.
  - intros [m Hm]. exists (a * m). rewrite Ha, Hb at 1. rewrite Hm. ring.
Qed.

Lemma integer_quotient x y s : unscaled y ≠ 0 → 0 ≤ s - (scale x - scale y) →
  (∃ z, inject_Z z == dval x / dval y * pow10 s)%Q ↔ (unscaled y | unscaled x * 10 ^ (s - (scale x - scale y))).
Proof.
  intros Hy Hs. assert (¬ inject_Z (unscaled y) == 0)%Q by (change 0%Q with (inject_Z 0); rewrite inject_Z_injective; done).
  assert (∀ z, (inject_Z z == dval x / dval y * pow10 s)%Q ↔ z * unscaled y = unscaled x * 10 ^ (s - (scale x - scale y))) as Hz.
  { intros z. rewrite quotient_scaled, pow10_Z by done. rewrite <-inject_Z_injective, !inject_Z_mult. split; intros E.
    - rewrite E. by field.
    - assert (inject_Z z == inject_Z z * inject_Z (unscaled y) / inject_Z (unscaled y))%Q as -> by (by field). rewrite E. by field. }
  split; [intros [z E%Hz]; by exists z|intros [z E]; exists z; by apply Hz].
Qed.

(** The bound on scales within which an exact quotient is computed. *)
Definition quotient_fits (x y : Dec) : Prop :=
  in_i32 (scale x - scale y) ∧ in_i32 (scale x - scale y + Z.log2 (Z.abs (unscaled y))) ∧ Z.log2 (Z.abs (unscaled y)) < 2 ^ 31.

(** A quotient that is a decimal is found, whatever its scale; there is nothing to find for the others. *)
Lemma QuoExact_exact x y : quotient_fits x y → unscaled y ≠ 0 →
  ∃ o, QuoExact x y = Some o ∧
    match o with
    | Some z => (dval z == dval x / dval y)%Q
    | None => ∀ z, ¬ (dval z == dval x / dval y)%Q
    end.
Proof.
  intros (H1 & H2 & H3) Hy. destruct (lowest_terms (unscaled x) (unscaled y) Hy) as (den & Ed & [Hden Hle] & Hk).
  assert (Z.log2 den ≤ Z.log2 (Z.abs (unscaled y))) as Hlog by (by apply Z.log2_le_mono).
  destruct (factor2_spec den Hden) as (_ & _ & _ & Hf2), (factor_spec den 5) as (_ & _ & _ & Hf5); [lia|done|].
  unfold QuoExact, scaleQuoExact. rewrite Ed. cbn [mbind option_bind].
  set (f := Z.max (factor2 den) (factor den 5)). replace (if factor den 5 <? factor2 den then _ else _) with f.
  2: { unfold in_i32 in *. rewrite !i32_id by (unfold in_i32; lia). subst f. destruct (Z.ltb_spec (factor den 5) (factor2 den)); lia. }
  assert (0 ≤ f ≤ Z.log2 (Z.abs (unscaled y))) as Hf by lia.
  rewrite (i32_id (scale x - scale y)), i32_id by (done || unfold in_i32 in *; lia).
  destruct (quo_rounds x y (scale x - scale y + f) RoundExact H1) as (o & -> & Ho); [unfold near; lia|done|]. exists o. split; [done|].
  destruct o as [z|].
  - destruct Ho as [Es Hz]. cbn [rounds] in Hz. unfold dval at 1, dec. rewrite Es, Hz, pow10_opp. pose proof (pow10_ne (scale x - scale y + f)).
    assert (¬ dval y == 0)%Q by (unfold dval; by rewrite dec_eq_0). by field.
  - intros z Hz. destruct Ho as [_ Ho]. enough (∃ z, inject_Z z == dval x / dval y * pow10 (scale x - scale y + f))%Q as [w Hw] by by eapply Ho.
    apply integer_quotient; [done|lia|]. replace (scale x - scale y + f - (scale x - scale y)) with f by lia. apply Hk; [lia|].
    set (k := Z.max 0 (scale z - (scale x - scale y))). apply (ten_power_divisor _ k); [done|lia|]. apply Hk; [lia|].
    set (s := scale x - scale y + k). replace k with (s - (scale x - scale y)) by lia. apply integer_quotient; [done|lia|].
    exists (unscaled z * 10 ^ (s - scale z)). rewrite <-Hz. unfold dval, dec. rewrite inject_Z_mult, <-pow10_Z by lia.
    rewrite <-Qmult_assoc, <-pow10_add. by replace (- scale z + s) with (s - scale z) by lia.
Qed.

(** ** Text *)
Definition sign_of (neg : bool) : list ascii := if neg then ["-"%char] else [].
Definition signed (neg : bool) (n : Z) : Z := if neg then - n else n.

Lemma print_int_sign z : print_int z = sign_of (z <? 0) ++ digits (Z.abs z).
Proof. unfold print_int. destruct (Z.ltb_spec z 0); [rewrite Z.abs_neq by lia|rewrite Z.abs_eq by lia]; done. Qed.

Lemma signed_abs z : signed (z <? 0) (Z.abs z) = z.
Proof. unfold signed. destruct (Z.ltb_spec z 0); lia. Qed.

Lemma is_digit_not_special c : is_digit c = true →
  bool_decide (c = "+"%char) || bool_decide (c = "-"%char) = false ∧ bool_decide (c = "."%char) = false.
Proof. intros H. rewrite orb_false_iff, !bool_decide_eq_false. split_and!; by apply digit_not. Qed.

Lemma scan_loop_digits u dp dg ds rest : Forall is_digit ds →
  ∃ dg', scan_loop u dp dg (ds ++ rest) = scan_loop (u ++ ds) dp dg' rest ∧ (dg' = -1 ↔ dg = -1 ∧ ds = []).
Proof.
  intros Hds. revert u dg. induction Hds as [|c ds Hc _ IH]; intros u dg; [exists dg; rewrite app_nil_r; naive_solver|].
  apply Is_true_true in Hc. cbn [app scan_loop]. destruct (is_digit_not_special c Hc) as [-> ->]. rewrite Hc.
  destruct (IH (u ++ [c]) (if dg =? -1 then Z.of_nat (length u) else dg)) as (dg' & -> & H). exists dg'. rewrite <-app_assoc. split; [done|].
  rewrite H. destruct (Z.eqb_spec dg (-1)); split; intros [? ?]; try done; lia.
Qed.

Lemma scan_loop_sign sgn rest : sgn = [] ∨ sgn = ["+"%char] ∨ sgn = ["-"%char] →
  scan_loop [] (-1) (-1) (sgn ++ rest) = scan_loop sgn (-1) (-1) rest.
Proof. intros [-> | [-> | ->]]; done. Qed.

Definition signed_digits (sgn : list ascii) (l : list ascii) : Z := if bool_decide (sgn = ["-"%char]) then - num l else num l.

Lemma big_SetString_signed sgn l : sgn = [] ∨ sgn = ["+"%char] ∨ sgn = ["-"%char] → Forall is_digit l → l ≠ [] →
  big_SetString (sgn ++ l) = Some (signed_digits sgn l).
Proof.
  intros [-> | [-> | ->]] Hl Hne; [by apply big_SetString_digits|by apply big_SetString_plus|by apply big_SetString_minus].
Qed.

Lemma SetString_integer sgn ds : sgn = [] ∨ sgn = ["+"%char] ∨ sgn = ["-"%char] → Forall is_digit ds → ds ≠ [] →
  SetString (sgn ++ ds) = Some {| unscaled := signed_digits sgn ds; scale := 0 |}.
Proof.
  intros Hs Hds Hne. unfold SetString, scan. rewrite scan_loop_sign by done. rewrite <-(app_nil_r ds) at 1.
  destruct (scan_loop_digits sgn (-1) (-1) ds [] Hds) as (dg & -> & Hdg). cbn [scan_loop].
  destruct (Z.eqb_spec dg (-1)) as [E|_]; [by apply Hdg in E as [_ ?]|]. cbn [Z.leb Z.compare]. by rewrite big_SetString_signed.
Qed.

Lemma SetString_point sgn ds fs : sgn = [] ∨ sgn = ["+"%char] ∨ sgn = ["-"%char] →
  Forall is_digit ds → Forall is_digit fs → ds ++ fs ≠ [] → Z.of_nat (length fs) < 2 ^ 31 →
  SetString (sgn ++ ds ++ "."%char :: fs) = Some {| unscaled := signed_digits sgn (ds ++ fs); scale := Z.of_nat (length fs) |}.
Proof.
  intros Hs Hds Hfs Hne Hlen. unfold SetString, scan. rewrite scan_loop_sign by done.
  destruct (scan_loop_digits sgn (-1) (-1) ds ("."%char :: fs) Hds) as (dg & -> & Hdg). cbn [scan_loop].
  rewrite !(bool_decide_eq_false_2 ("."%char = _)) by done. rewrite (bool_decide_eq_true_2 ("."%char = "."%char)) by done. cbn [orb Z.leb Z.compare].
  destruct (scan_loop_digits (sgn ++ ds) (Z.of_nat (length (sgn ++ ds))) dg fs [] Hfs) as (dg' & E & Hdg').
  rewrite app_nil_r in E. rewrite E. cbn [scan_loop]. destruct (Z.eqb_spec dg' (-1)) as [Ed|_].
  { apply Hdg' in Ed as [Ed ->]. apply Hdg in Ed as [_ ->]. done. }
  destruct (Z.leb_spec 0 (Z.of_nat (length (sgn ++ ds)))); [|lia]. rewrite <-app_assoc, big_SetString_signed; [|done|by apply Forall_app|done].
  f_equal. f_equal. rewrite i32_id; rewrite !length_app; unfold in_i32; lia.
Qed.

Lemma append_zeros_loop_spec fuel s n i : n + 64 < 2 ^ 31 → 0 ≤ i → n - i ≤ 64 * (Z.of_nat fuel - 1) → (0 < fuel)%nat →
  append_zeros_loop fuel s n i = Some (s ++ replicate (Z.to_nat (n - i)) "0"%char).
Proof.
  intros Hn. revert s i. induction fuel as [|fuel IH]; intros s i Hi Hf H0; [lia|]. cbn [append_zeros_loop].
  destruct (Z.ltb_spec i n) as [L|L]; [|rewrite Z2Nat.nonpos by lia; by rewrite app_nil_r].
  change lzeros with 64. rewrite i32_id by (unfold in_i32; lia). rewrite IH by lia. f_equal. rewrite <-app_assoc. f_equal.
  destruct (Z.ltb_spec (i + 64) n).
  - change zeros with (replicate 64 "0"%char). rewrite <-replicate_add. f_equal. lia.
  - unfold zeros. rewrite take_replicate, <-replicate_add. f_equal. lia.
Qed.

Lemma appendZeros_spec s n : n + 64 < 2 ^ 31 → appendZeros s n = Some (s ++ replicate (Z.to_nat n) "0"%char).
Proof.
  intros Hn. unfold appendZeros. rewrite append_zeros_loop_spec; [by rewrite Z.sub_0_r|done|done| |lia].
  change lzeros with 64. pose proof (Z.div_mod n 64). pose proof (Z.mod_pos_bound n 64). lia.
Qed.

Lemma num_replicate k : num (replicate k "0"%char) = 0.
Proof. induction k as [|k IH]; [done|]. cbn [replicate]. rewrite num_cons, IH. done. Qed.

Lemma digits_replicate k : Forall is_digit (replicate k "0"%char).
Proof. by apply Forall_replicate. Qed.

Lemma signed_digits_sign z l : signed_digits (sign_of (z <? 0)) l = signed (z <? 0) (num l).
Proof. by destruct (z <? 0). Qed.

Lemma sign_of_cases b : sign_of b = [] ∨ sign_of b = ["+"%char] ∨ sign_of b = ["-"%char].
Proof. destruct b; auto. Qed.

(** The decimals whose text is not too long to be made. *)
Definition text_fits (x : Dec) : Prop := Z.abs (scale x) < 2 ^ 30 ∧ Z.of_nat (length (digits (Z.abs (unscaled x)))) < 2 ^ 30.

(** The text of a decimal with scale at most 0: zeros are appended, unless it is 0. *)
Lemma String_whole x : text_fits x → scale x ≤ 0 →
  ∃ k, 0 ≤ k ∧ (k = - scale x ∨ unscaled x = 0 ∧ k = 0) ∧
    String_ x = Some (sign_of (unscaled x <? 0) ++ digits (Z.abs (unscaled x)) ++ replicate (Z.to_nat k) "0"%char).
Proof.
  intros [Hs Hl] Hneg. unfold String_. rewrite print_int_sign. destruct (Z.leb_spec (scale x) 0); [|lia].
  destruct (Z.eqb_spec (scale x) 0) as [E|E]; [exists 0; rewrite app_nil_r; split_and!; [done|left; lia|done]|].
  destruct (Z.eqb_spec (Z.sgn (unscaled x)) 0) as [E'|E'].
  - exists 0. rewrite app_nil_r. split_and!; [done|right; split; [by apply Z.sgn_null_iff|done]|done].
  - exists (- scale x). rewrite i32_id by (unfold in_i32; lia). cbn [negb andb]. rewrite appendZeros_spec, <-app_assoc by lia. split_and!; [lia|by left|done].
Qed.

(** The text of a decimal with a positive scale has that many digits after the point. *)
Lemma String_point x : text_fits x → 0 < scale x →
  ∃ n ds fs, ds ++ fs = replicate n "0"%char ++ digits (Z.abs (unscaled x)) ∧ Z.of_nat (length fs) = scale x ∧
    String_ x = Some (sign_of (unscaled x <? 0) ++ ds ++ "."%char :: fs).
Proof.
  intros [Hs Hl] Hpos. unfold String_. rewrite print_int_sign. destruct (Z.leb_spec (scale x) 0); [lia|].
  set (sg := sign_of (unscaled x <? 0)). set (ds := digits (Z.abs (unscaled x))) in *.
  assert (- Z.quot (Sign x - 1) 2 = Z.of_nat (length sg)) as -> by (unfold Sign, sg; by destruct (unscaled x)).
  assert (sg = [] ∨ sg = ["-"%char]) as Hsg by (unfold sg; destruct (_ <? _); auto).
  assert (length sg ≤ 1)%nat as Hsg1 by (destruct Hsg as [-> | ->]; cbn; lia).
  rewrite length_app, (i32_id (Z.of_nat _)) by (unfold in_i32; lia).
  replace (Z.of_nat (length sg + length ds) - Z.of_nat (length sg)) with (Z.of_nat (length ds)) by lia.
  rewrite (i32_id (Z.of_nat (length ds))) by (unfold in_i32; lia). destruct (Z.leb_spec (Z.of_nat (length ds)) (scale x)) as [Hle|Hgt].
  - rewrite (i32_id (scale x + 2)) by (unfold in_i32; lia). unfold make_bytes. destruct (Z.ltb_spec (scale x + 2) 0); [lia|]. cbn [mbind option_bind].
    rewrite (i32_id (scale x - _)), i32_id by (unfold in_i32; lia). rewrite appendZeros_spec by lia. cbn [mbind option_bind].
    set (m := Z.to_nat _). exists (S m), ["0"%char], (replicate m "0"%char ++ ds). split_and!; [done|rewrite length_app, length_replicate; subst m; lia|].
    rewrite Nat2Z.id, drop_app_length. by destruct Hsg as [-> | ->].
  - rewrite i32_id by (unfold in_i32; lia). unfold make_bytes. destruct (Z.ltb_spec (Z.of_nat (length sg + length ds) + 1) 0); [lia|]. cbn [mbind option_bind app].
    set (m := Z.to_nat (Z.of_nat (length ds) - scale x)).
    replace (Z.to_nat (Z.of_nat (length sg + length ds) - scale x)) with (length sg + m)%nat by lia.
    rewrite take_app_add, drop_app_add. exists 0%nat, (take m ds), (drop m ds). split_and!; [by rewrite take_drop|rewrite length_drop; lia|by rewrite <-app_assoc].
Qed.

(** Printing a decimal and reading the text gives it back; a decimal with a negative scale
    is read with scale 0. *)
Lemma SetString_String x : text_fits x →
  ∃ t z, String_ x = Some t ∧ SetString t = Some z ∧ (dval z == dval x)%Q ∧ (0 ≤ scale x → z = x).
Proof.
  intros Hf. destruct (digits_spec (Z.abs (unscaled x))) as (Hnum & Hdig & Hne & _); [lia|]. set (ds := digits (Z.abs (unscaled x))) in *.
  destruct (Z.le_gt_cases (scale x) 0) as [Hneg|Hpos].
  - destruct (String_whole x Hf Hneg) as (k & Hk & Hk' & ->). fold ds. eexists _, _. split; [done|].
    split; [apply SetString_integer; [apply sign_of_cases|apply Forall_app; split; [done|apply digits_replicate]|by destruct ds]|].
    rewrite signed_digits_sign, num_app, num_replicate, length_replicate, Z2Nat.id, Hnum, Z.add_0_r by done.
    replace (signed _ _) with (unscaled x * 10 ^ k) by (unfold signed; destruct (Z.ltb_spec (unscaled x) 0); lia).
    unfold dval; cbn [unscaled scale]. change (- 0) with 0. destruct Hk' as [-> |[E ->]].
    + split; [rewrite (dec_at (unscaled x) (- scale x) 0) by lia; by rewrite Z.sub_0_r|]. intros H0. assert (scale x = 0) as E0 by lia.
      rewrite E0. cbn. rewrite Z.mul_1_r. destruct x; cbn in *; by subst.
    + rewrite E. split; [by rewrite !dec_0|]. intros H0. destruct x; cbn in *. f_equal; lia.
  - destruct (String_point x Hf Hpos) as (n & ds' & fs & Eds & Efs & ->). fold ds in Eds. destruct Hf as [Hs _].
    assert (Forall is_digit (ds' ++ fs)) as Hd by (rewrite Eds; apply Forall_app; split; [apply digits_replicate|done]). apply Forall_app in Hd as [Hd1 Hd2].
    eexists _, _. split; [done|]. split; [apply SetString_point; [apply sign_of_cases|done|done|rewrite Eds; by destruct n, ds|lia]|].
    rewrite Eds, Efs, signed_digits_sign, num_app, num_replicate, Hnum, Z.mul_0_l, Z.add_0_l, signed_abs. split; [done|]. by destruct x.
Qed.

(** ** Gob *)
Lemma of_magnitude_foldl l n : foldl (λ n b, n * 256 + b) n l = n * 256 ^ Z.of_nat (length l) + of_magnitude l.
Proof.
  unfold of_magnitude. revert n. induction l as [|b l IH]; intros n; [cbn; lia|]. cbn [foldl length]. rewrite IH, (IH (0 * 256 + b)).
  rewrite Nat2Z.inj_succ, Z.pow_succ_r by lia. lia.
Qed.

Lemma magnitude_loop_spec fuel n acc : 0 ≤ n → n < 2 ^ Z.of_nat fuel →
  of_magnitude (magnitude_loop fuel n acc) = n * 256 ^ Z.of_nat (length acc) + of_magnitude acc.
Proof.
  revert n acc. induction fuel as [|fuel IH]; intros n acc Hn Hf; [assert (n = 0) as -> by (cbn in Hf; lia); cbn [magnitude_loop]; lia|]. cbn [magnitude_loop].
  destruct (Z.eqb_spec n 0) as [->|H0]; [lia|]. pose proof (Z.div_mod n 256). pose proof (Z.mod_pos_bound n 256). rewrite Nat2Z.inj_succ, Z.pow_succ_r in Hf by lia.
  rewrite IH by lia. cbn [length]. unfold of_magnitude at 1. cbn [foldl]. rewrite of_magnitude_foldl, Nat2Z.inj_succ, Z.pow_succ_r by lia.
  set (w := 256 ^ Z.of_nat (length acc)). nia.
Qed.

Lemma of_magnitude_magnitude n : 0 ≤ n → of_magnitude (magnitude n) = n.
Proof.
  intros Hn. unfold magnitude. rewrite magnitude_loop_spec; [cbn; lia|done|]. pose proof (Z.log2_nonneg n).
  rewrite Nat2Z.inj_succ, Z2Nat.id by lia. destruct (decide (n = 0)) as [->|]; [done|]. apply Z.log2_spec. lia.
Qed.

Lemma i32_byte s c : 0 ≤ c < 256 → Z.lor (i32 (Z.shiftl s 8)) c = i32 (s * 256 + c).
Proof.
  intros Hc. rewrite Z.shiftl_mul_pow2 by lia. change (2 ^ 8) with 256.
  assert (∃ k, i32 (s * 256) = k * 256 ∧ - 2 ^ 23 ≤ k < 2 ^ 23) as (k & Ek & Hk).
  { pose proof (i32_range (s * 256)) as Hr. unfold in_i32 in Hr. unfold i32 in *. pose proof (Z.div_mod (s * 256 + 2 ^ 31) (2 ^ 32)).
    exists (s - 2 ^ 24 * ((s * 256 + 2 ^ 31) / 2 ^ 32)). lia. }
  assert (i32 (s * 256 + c) = k * 256 + c) as ->.
  { unfold i32 in *. pose proof (Z.div_mod (s * 256 + 2 ^ 31) (2 ^ 32)). set (q := (s * 256 + 2 ^ 31) / 2 ^ 32) in *.
    replace (s * 256 + c + 2 ^ 31) with (k * 256 + c + 2 ^ 31 + q * 2 ^ 32) by lia. rewrite Z.mod_add, Z.mod_small by lia. lia. }
  rewrite Ek. symmetry. rewrite <-Z.lxor_lor; [apply Z.add_nocarry_lxor|].
  all: apply Z.bits_inj_iff'; intros i Hi; rewrite Z.land_spec, Z.bits_0; change 256 with (2 ^ 8); rewrite Z.mul_pow2_bits by lia.
  all: destruct (Z.lt_ge_cases i 8); [by rewrite Z.testbit_neg_r by lia|].
  all: rewrite <-(Z.mod_small c (2 ^ 8)) by done; by rewrite Z.mod_pow2_bits_high, andb_false_r by lia.
Qed.

Lemma i32_i32 a c : i32 (i32 a * 256 + c) = i32 (a * 256 + c).
Proof.
  unfold i32 at 2. pose proof (Z.div_mod (a + 2 ^ 31) (2 ^ 32)) as E. unfold i32.
  replace (((a + 2 ^ 31) mod 2 ^ 32 - 2 ^ 31) * 256 + c + 2 ^ 31) with (a * 256 + c + 2 ^ 31 + (- 256 * ((a + 2 ^ 31) / 2 ^ 32)) * 2 ^ 32) by lia.
  by rewrite Z.mod_add by lia.
Qed.

Lemma scale_of_bytes l a : Forall (λ c, 0 ≤ c < 256) l →
  foldl (λ s c, Z.lor (i32 (Z.shiftl s 8)) c) (i32 a) l = i32 (foldl (λ n b, n * 256 + b) a l).
Proof.
  intros Hl. revert a. induction Hl as [|c l Hc _ IH]; intros a; [done|]. cbn [foldl]. by rewrite i32_byte, i32_i32, IH.
Qed.

Lemma scale_of_scaleBytes s : in_i32 s → scale_of (scaleBytes s) = s.
Proof.
  intros Hs. unfold scale_of. change 0 with (i32 0) at 1. rewrite scale_of_bytes by (repeat constructor; apply Z.mod_pos_bound; lia).
  unfold scaleBytes, scaleSize. cbn [scale_bytes_loop foldl]. rewrite !Z.shiftr_div_pow2, !Z.div_div by lia. change (2 ^ 8) with 256.
  pose proof (Z.div_mod s 256). pose proof (Z.div_mod (s / 256) 256) as E2. pose proof (Z.div_mod (s / (256 * 256)) 256) as E3.
  rewrite Z.div_div in E2, E3 by lia. change (256 * (256 * 256)) with (256 * 256 * 256).
  pose proof (Z.div_mod (s / (256 * 256 * 256)) 256). set (w := s / (256 * 256 * 256)) in *. unfold i32. unfold in_i32 in Hs.
  replace (_ + 2 ^ 31) with (s + 2 ^ 31 + (- (w / 256)) * 2 ^ 32) by lia. rewrite Z.mod_add, Z.mod_small by lia. lia.
Qed.

Lemma big_Gob_roundtrip x : big_GobDecode (big_GobEncode x) = Some x.
Proof.
  unfold big_GobEncode, big_GobDecode. rewrite of_magnitude_magnitude by lia.
  destruct (Z.ltb_spec x 0); cbn [Z.shiftr Z.shiftl Z.opp Z.odd Z.eqb]; cbn; f_equal; lia.
Qed.

Lemma GobDecode_GobEncode x : in_i32 (scale x) → GobDecode (GobEncode x) = Some (Ok x).
Proof.
  intros Hs. unfold GobDecode, GobEncode. set (u := big_GobEncode (unscaled x)). rewrite app_assoc, last_snoc. cbn [negb Z.eqb].
  assert (length (scaleBytes (scale x)) = 4)%nat as Hl by done. rewrite !length_app, Hl. cbn [length].
  replace (Z.of_nat (length u + 4 + 1) - Z.of_nat scaleSize - 1) with (Z.of_nat (length u)) by (unfold scaleSize; lia).
  destruct (Z.ltb_spec (Z.of_nat (length u)) 0); [lia|]. rewrite Nat2Z.id, <-!app_assoc, take_app_length, drop_app_length.
  unfold u. rewrite big_Gob_roundtrip, take_app_length' by done. rewrite scale_of_scaleBytes by done. by destruct x.
Qed.

(** ** Theorems *)
(** [C14] Decimals compute exactly: sums, differences, products and comparisons are those of
    rational numbers; a quotient rounded to a scale is an integer number of units that the
    rounder's documentation allows, and an exact quotient is found whenever the quotient has
    finitely many digits, and only then.  The conditions are that the scales involved, and
    their differences, are 32-bit integers, and that the divisor is not zero. *)
Theorem decimal_arithmetic_exact x y s r :
  (near (scale x) (scale y) →
     (∃ z, Add x y = Some z ∧ dval z == dval x + dval y)%Q ∧ (∃ z, Sub x y = Some z ∧ dval z == dval x - dval y)%Q ∧
     Cmp x y = Some (cmp_int (dval x ?= dval y)%Q)) ∧
  (in_i32 (scale x + scale y) → (dval (Mul x y) == dval x * dval y)%Q) ∧
  (in_i32 (scale x - scale y) → near s (scale x - scale y) → unscaled y ≠ 0 →
     ∃ o, QuoRound x y s r = Some o ∧
       match o with
       | Some z => scale z = s ∧ rounds r (dval x / dval y * pow10 s) (unscaled z)
       | None => r = RoundExact ∧ ∀ z, ¬ (inject_Z z == dval x / dval y * pow10 s)%Q
       end) ∧
  (quotient_fits x y → unscaled y ≠ 0 →
     ∃ o, QuoExact x y = Some o ∧
       match o with
       | Some z => (dval z == dval x / dval y)%Q
       | None => ∀ z, ¬ (dval z == dval x / dval y)%Q
       end).
Proof.
  split_and!.
  - intros Hn. destruct (Add_exact x y Hn) as (z & ? & ? & _), (Sub_exact x y Hn) as (z' & ? & ? & _). split_and!; [by exists z|by exists z'|by apply Cmp_exact].
  - apply Mul_exact.
  - apply quo_rounds.
  - apply QuoExact_exact.
Qed.

Lemma decimal_arithmetic_exact_witness :
  (∃ z, Add (NewDec 15 1) (NewDec (-275) 2) = Some z ∧ dval z == dval (NewDec 15 1) + dval (NewDec (-275) 2))%Q ∧
  (∃ o, QuoRound (NewDec 1 0) (NewDec (-3) 0) 2 RoundHalfUp = Some o ∧
       match o with
       | Some z => scale z = 2 ∧ rounds RoundHalfUp (dval (NewDec 1 0) / dval (NewDec (-3) 0) * pow10 2) (unscaled z)
       | None => RoundHalfUp = RoundExact ∧ ∀ z, ¬ (inject_Z z == dval (NewDec 1 0) / dval (NewDec (-3) 0) * pow10 2)%Q
       end) ∧
  (∃ o, QuoExact (NewDec 1 0) (NewDec 3 0) = Some o ∧
     match o with
     | Some z => (dval z == dval (NewDec 1 0) / dval (NewDec 3 0))%Q
     | None => ∀ z, ¬ (dval z == dval (NewDec 1 0) / dval (NewDec 3 0))%Q
     end).
Proof.
  split_and!.
  - apply (decimal_arithmetic_exact (NewDec 15 1) (NewDec (-275) 2) 0 RoundUp). by vm_compute.
  - apply (decimal_arithmetic_exact (NewDec 1 0) (NewDec (-3) 0) 2 RoundHalfUp); [split; by vm_compute|by vm_compute|done].
  - apply (decimal_arithmetic_exact (NewDec 1 0) (NewDec 3 0) 0 RoundUp); [repeat split; by vm_compute|done].
Defined.

(** Decimals survive their encodings: reading the printed text gives a decimal of the
    same value, and the same decimal when its scale is not negative; decoding a gob gives the
    same decimal.  The conditions bound the length of the text. *)
Theorem decimal_round_trips x :
  (text_fits x → ∃ t z, MarshalText x = Some t ∧ UnmarshalText t = Some z ∧ (dval z == dval x)%Q ∧ (0 ≤ scale x → z = x)) ∧
  (in_i32 (scale x) → GobDecode (GobEncode x) = Some (Ok x)).
Proof. split; [apply SetString_String|apply GobDecode_GobEncode]. Qed.

Lemma decimal_round_trips_witness :
  (∃ t z, MarshalText (NewDec (-5) 3) = Some t ∧ UnmarshalText t = Some z ∧ (dval z == dval (NewDec (-5) 3))%Q ∧ (0 ≤ 3 → z = NewDec (-5) 3)) ∧
  GobDecode (GobEncode (NewDec (-70000) (-3))) = Some (Ok (NewDec (-70000) (-3))).
Proof.
  split.
  - apply (decimal_round_trips (NewDec (-5) 3)). split; by vm_compute.
  - apply (decimal_round_trips (NewDec (-70000) (-3))). split; by vm_compute.
Defined.

(** A buffer that ends in the version byte but is shorter than a scale makes [GobDecode] slice
    at a negative index, which panics. *)
Theorem GobDecode_short_panics : GobDecode [1] = None.
Proof. done. Qed.
