(* ===== verification/Amounts.v ===== *)
(** * Amounts of a resource (k8s.io/apimachinery/pkg/api/resource: math.go, amount.go, scale_int.go)

    A number is a 64-bit integer times a power of ten as long as it fits, and an [inf.Dec]
    beyond.  Arithmetic on the integers reports overflow; [None] is a panic. *)

From Stdlib Require Import Ascii.
From S2P Require Import Prelude Validation Decimals InfDec.
Open Scope Z_scope.

(** ** 64-bit arithmetic with overflow reported (math.go) *)
Definition maxInt64Factors : Z := 18.
Definition mostPositive : Z := 2 ^ 63 - 1.
Definition mostNegative : Z := - (mostPositive + 1).

Definition int64Add (a b : Z) : Z * bool :=
  let c := i64 (a + b) in
  if (0 <? a) && (0 <? b) then
    if c <? 0 then (0, false) else (c, true)
  else if (a <? 0) && (b <? 0) then
    if 0 <? c then (0, false)
    else if (a =? mostNegative) && (b =? mostNegative) then (0, false)
    else (c, true)
  else (c, true).

Definition int64Multiply (a b : Z) : Z * bool :=
  if (a =? 0) || (b =? 0) || (a =? 1) || (b =? 1) then (i64 (a * b), true)
  else if (a =? mostNegative) || (b =? mostNegative) then (0, false)
  else let c := i64 (a * b) in (c, i64 (Z.quot c b) =? a).

Definition int64MultiplyScale (a b : Z) : Z * bool :=
  if (a =? 0) || (a =? 1) then (i64 (a * b), true)
  else if (a =? mostNegative) && negb (b =? 1) then (0, false)
  else let c := i64 (a * b) in (c, i64 (Z.quot c b) =? a).

Definition int64MultiplyScale10 (a : Z) : Z * bool :=
  if (a =? 0) || (a =? 1) then (i64 (a * 10), true)
  else if a =? mostNegative then (0, false)
  else let c := i64 (a * 10) in (c, i64 (Z.quot c 10) =? a).

Definition int64MultiplyScale100 (a : Z) : Z * bool :=
  if (a =? 0) || (a =? 1) then (i64 (a * 100), true)
  else if a =? mostNegative then (0, false)
  else let c := i64 (a * 100) in (c, i64 (Z.quot c 100) =? a).

Definition int64MultiplyScale1000 (a : Z) : Z * bool :=
  if (a =? 0) || (a =? 1) then (i64 (a * 1000), true)
  else if a =? mostNegative then (0, false)
  else let c := i64 (a * 1000) in (c, i64 (Z.quot c 1000) =? a).

Fixpoint positive_scale_loop (rounds : nat) (v : Z) : Z * bool :=
  match rounds with
  | O => (v, true)
  | S rounds =>
    let '(v, ok) := int64MultiplyScale v 10 in
    if ok then positive_scale_loop rounds v else (0, false)
  end.

Definition positiveScaleInt64 (base s : Z) : Z * bool :=
  if s =? 0 then (base, true)
  else if s =? 1 then int64MultiplyScale10 base
  else if s =? 2 then int64MultiplyScale100 base
  else if s =? 3 then int64MultiplyScale1000 base
  else if s =? 6 then int64MultiplyScale base 1000000
  else if s =? 9 then int64MultiplyScale base 1000000000
  else positive_scale_loop (Z.to_nat s) base.

Fixpoint negative_scale_loop (rounds : nat) (base v : Z) (fraction : bool) : Z * bool :=
  match rounds with
  | O => (if fraction then (if 0 <? base then v + 1 else v + -1) else v, negb fraction)
  | S rounds =>
    let fraction := fraction || negb (Z.rem v 10 =? 0) in
    let v := Z.quot v 10 in
    if v =? 0 then
      if fraction then (if 0 <? base then (1, false) else (-1, false)) else (0, true)
    else negative_scale_loop rounds base v fraction
  end.

Definition negativeScaleInt64 (base s : Z) : Z * bool :=
  if s =? 0 then (base, true) else negative_scale_loop (Z.to_nat s) base base false.

Definition pow10Int64 (b : Z) : Z :=
  match b with
  | 0 => 1 | 1 => 10 | 2 => 100 | 3 => 1000 | 4 => 10000 | 5 => 100000 | 6 => 1000000 | 7 => 10000000
  | 8 => 100000000 | 9 => 1000000000 | 10 => 10000000000 | 11 => 100000000000 | 12 => 1000000000000
  | 13 => 10000000000000 | 14 => 100000000000000 | 15 => 1000000000000000 | 16 => 10000000000000000
  | 17 => 100000000000000000 | 18 => 1000000000000000000
  | _ => 0
  end.

Definition divideByScaleInt64 (base s : Z) : option (Z * Z * bool) :=
  if s =? 0 then Some (base, 0, true)
  else if 18 <=? s then Some (0, base, false)
  else let divisor := pow10Int64 s in
    if divisor =? 0 then None else Some (Z.quot base divisor, Z.rem base divisor, true).

(** The three loops of the switch differ in the constant only. *)
Fixpoint remove_factors_loop (fuel : nat) (result times base : Z) : Z * Z :=
  match fuel with
  | O => (result, times)
  | S fuel =>
    if (base <=? result) && (Z.rem result base =? 0)
    then remove_factors_loop fuel (Z.quot result base) (i32 (times + 1)) base
    else (result, times)
  end.

Definition removeInt64Factors (v base : Z) : Z * Z :=
  let negative := v <? 0 in
  let result := if negative then i64 (- v) else v in
  let '(result, times) := remove_factors_loop 64 result 0 base in
  (if negative then i64 (- result) else result, times).

Fixpoint remove_big_factors_loop (fuel : nat) (d times factor : Z) : Z * Z :=
  match fuel with
  | O => (d, times)
  | S fuel =>
    if d =? 0 then (d, times)
    else if negb (d mod factor =? 0) then (d, times)
    else remove_big_factors_loop fuel (d / factor) (i32 (times + 1)) factor
  end.

Definition removeBigIntFactors (d factor : Z) : Z * Z :=
  remove_big_factors_loop (S (Z.to_nat (Z.log2 (Z.abs d)))) d 0 factor.

(** ** Decimals as amounts (amount.go) *)
Definition Nano : Z := -9.
Definition Micro : Z := -6.
Definition Milli : Z := -3.

Definition infScale (s : Z) : Z := i32 (- s).

Definition dec_AsScale (a : Dec) (s : Z) : option (Dec * bool) :=
  r ← Round a (infScale s) RoundUp;
  tmp ← r;
  c ← Cmp tmp a;
  Some (tmp, c =? 0).

Fixpoint canonical_loop (fuel : nat) (amount exponent : Z) : option (Z * Z) :=
  match fuel with
  | O => None
  | S fuel =>
    if Z.rem exponent 3 =? 0 then Some (amount, exponent)
    else canonical_loop fuel (amount * 10) (i32 (exponent - 1))
  end.

Definition dec_AsCanonicalBytes (a : Dec) (out : list ascii) : option (list ascii * Z) :=
  let exponent := i32 (- scale a) in
  let '(amount, times) := removeBigIntFactors (unscaled a) 10 in
  '(amount, exponent) ← canonical_loop 4 amount (i32 (exponent + times));
  Some (out ++ print_int amount, exponent).

Definition dec_AsCanonicalBase1024Bytes (a : Dec) (out : list ascii) : option (list ascii * Z) :=
  r ← Round a 0 RoundUp;
  tmp ← r;
  let '(amount, exponent) := removeBigIntFactors (unscaled tmp) 1024 in
  Some (out ++ print_int amount, exponent).

(** ** Integers as amounts *)
Record int64Amount := MkAmount { value : Z; exp : Z }.

Definition Zero : int64Amount := {| value := 0; exp := 0 |}.

Definition amt_Sign (a : int64Amount) : Z := if value a =? 0 then 0 else if 0 <? value a then 1 else -1.

Definition amt_AsInt64 (a : int64Amount) : Z * bool :=
  if exp a =? 0 then (value a, true)
  else if exp a <? 0 then (0, false)
  else positiveScaleInt64 (value a) (exp a).

Definition AsScaledInt64 (a : int64Amount) (s : Z) : Z * bool :=
  if exp a <? s then
    let '(result, _) := negativeScaleInt64 (value a) (i32 (s - exp a)) in (result, true)
  else positiveScaleInt64 (value a) (i32 (exp a - s)).

Definition amt_AsDec (a : int64Amount) : Dec := {| unscaled := value a; scale := i32 (- exp a) |}.

(** The comparison of the unscaled values, where the one with the smaller exponent is divided. *)
Definition compare_values (a b : Z) : Z := if a =? b then 0 else if a <? b then -1 else 1.

Definition amt_Cmp (a b : int64Amount) : option Z :=
  if exp a =? exp b then Some (compare_values (value a) (value b))
  else if exp b <? exp a then
    '(result, remainder, exact) ← divideByScaleInt64 (value b) (i32 (exp a - exp b));
    if negb exact then Cmp (amt_AsDec a) (amt_AsDec b)
    else if result =? value a then Some (if remainder =? 0 then 0 else if 0 <? remainder then -1 else 1)
    else Some (compare_values (value a) result)
  else
    '(result, remainder, exact) ← divideByScaleInt64 (value a) (i32 (exp b - exp a));
    if negb exact then Cmp (amt_AsDec a) (amt_AsDec b)
    else if result =? value b then Some (if remainder =? 0 then 0 else if 0 <? remainder then 1 else -1)
    else Some (compare_values result (value b)).

(** The amount afterwards, and whether it was added. *)
Definition amt_Add (a b : int64Amount) : int64Amount * bool :=
  if value b =? 0 then (a, true)
  else if value a =? 0 then (b, true)
  else if exp a =? exp b then
    let '(c, ok) := int64Add (value a) (value b) in
    if negb ok then (a, false) else ({| value := c; exp := exp a |}, true)
  else if exp b <? exp a then
    let '(c, ok) := positiveScaleInt64 (value a) (i32 (exp a - exp b)) in
    if negb ok then (a, false) else
    let '(c, ok) := int64Add c (value b) in
    if negb ok then (a, false) else ({| value := c; exp := exp b |}, true)
  else
    let '(c, ok) := positiveScaleInt64 (value b) (i32 (exp b - exp a)) in
    if negb ok then (a, false) else
    let '(c, ok) := int64Add (value a) c in
    if negb ok then (a, false) else ({| value := c; exp := exp a |}, true).

Definition amt_Sub (a b : int64Amount) : int64Amount * bool := amt_Add a {| value := i64 (- value b); exp := exp b |}.

Definition amt_AsScale (a : int64Amount) (s : Z) : int64Amount * bool :=
  if s <=? exp a then (a, true)
  else let '(result, exact) := negativeScaleInt64 (value a) (i32 (s - exp a)) in
    ({| value := result; exp := s |}, exact).

Definition amt_AsCanonicalBytes (a : int64Amount) (out : list ascii) : option (list ascii * Z) :=
  let '(amount, times) := removeInt64Factors (value a) 10 in
  let exponent := i32 (exp a + times) in
  let r := Z.rem exponent 3 in
  if (r =? 1) || (r =? -2) then
    let '(amount, ok) := int64MultiplyScale10 amount in
    if negb ok then dec_AsCanonicalBytes (amt_AsDec a) out
    else Some (out ++ print_int amount, i32 (exponent - 1))
  else if (r =? 2) || (r =? -1) then
    let '(amount, ok) := int64MultiplyScale100 amount in
    if negb ok then dec_AsCanonicalBytes (amt_AsDec a) out
    else Some (out ++ print_int amount, i32 (exponent - 2))
  else Some (out ++ print_int amount, exponent).

Definition amt_AsCanonicalBase1024Bytes (a : int64Amount) (out : list ascii) : option (list ascii * Z) :=
  let '(v, ok) := AsScaledInt64 a 0 in
  if negb ok then dec_AsCanonicalBase1024Bytes (amt_AsDec a) out
  else let '(amount, exponent) := removeInt64Factors v 1024 in Some (out ++ print_int amount, exponent).

(** ** Scaling decimals to integers (scale_int.go)

    [wide_pow10 n] is what converting the float 10^n to an int64 gives where it does not fit,
    which depends on the machine. *)
Definition pow10_float (wide_pow10 : Z → Z) (n : Z) : Z := if n <? 19 then 10 ^ n else wide_pow10 n.

Definition scaledValue (wide_pow10 : Z → Z) (u s newScale : Z) : Z :=
  let dif := s - newScale in
  if dif =? 0 then i64 u
  else if dif <? 0 then i64 (i64 u * pow10_float wide_pow10 (- dif))
  else if (u <? 2 ^ 63 - 1) && (dif <? 19) then
    let divide := pow10_float wide_pow10 dif in
    let result := Z.quot (i64 u) divide in
    let mod_ := Z.rem (i64 u) divide in
    if negb (mod_ =? 0) then i64 (result + 1) else result
  else
    let divisor := 10 ^ dif in
    let result := u / divisor in
    let remainder := u mod divisor in
    if negb (Z.sgn remainder =? 0) then i64 (i64 result + 1) else i64 result.

Example amount_examples :
  amt_Cmp (MkAmount 15 (-1)) (MkAmount 2 0) = Some (-1) ∧ amt_Add (MkAmount 15 (-1)) (MkAmount 2 0) = (MkAmount 35 (-1), true) ∧
  amt_AsCanonicalBytes (MkAmount 15 5) [] = Some (chars "1500", 3) ∧ scaledValue id (-1500) 3 0 = 0.
Proof. vm_compute. done. Qed.
