(* ===== verification/AmountsExact.v ===== *)
(** * Amounts are exact (k8s.io/apimachinery/pkg/api/resource: math.go, amount.go)

    Overflow of 64-bit integers is detected exactly, so that an amount is what rational
    arithmetic says or the operation says that it does not fit. *)

From Stdlib Require Import QArith Qabs Lqa Ascii.
From S2P Require Import Prelude Validation Decimals InfDec InfDecExact Amounts.
Open Scope Z_scope.

(** ** Checked integer arithmetic *)
(** [r] reports whether [x] fits, and is [x] where it does. *)
Definition checked (r : Z * bool) (x : Z) : Prop := (r.2 = true ↔ in_i64 x) ∧ (r.2 = true → r.1 = x).

Lemma checked_ok x y : x = y → in_i64 y → checked (x, true) y.
Proof. intros -> Hy. by split. Qed.

Lemma checked_fail x y : ¬ in_i64 y → checked (x, false) y.
Proof. intros Hy. split; [|done]. cbn. split; [done|]. by intros ?%Hy. Qed.

Lemma i64_wrap z : ∃ k, i64 z = z - k * 2 ^ 64.
Proof. exists ((z + 2 ^ 63) / 2 ^ 64). unfold i64. pose proof (Z.div_mod (z + 2 ^ 63) (2 ^ 64)). lia. Qed.

Lemma int64Add_checked a b : in_i64 a → in_i64 b → checked (int64Add a b) (a + b).
Proof.
  unfold int64Add, mostNegative, mostPositive. intros Ha Hb. pose proof (i64_range (a + b)) as Hr. destruct (i64_wrap (a + b)) as [k Hk].
  unfold in_i64 in *. assert (k = 0 ∨ k = 1 ∨ k = -1) as Hk' by lia.
  destruct (Z.ltb_spec 0 a), (Z.ltb_spec 0 b), (Z.ltb_spec a 0), (Z.ltb_spec b 0), (Z.ltb_spec (i64 (a + b)) 0), (Z.ltb_spec 0 (i64 (a + b))),
    (Z.eqb_spec a (- (2 ^ 63 - 1 + 1))), (Z.eqb_spec b (- (2 ^ 63 - 1 + 1))); cbn [andb]; try lia;
    first [apply checked_ok; unfold in_i64; lia | apply checked_fail; unfold in_i64; lia].
Qed.

(** Dividing the product by a factor detects the overflow. *)
Lemma multiply_checked a b : in_i64 a → in_i64 b → b ≠ 0 → a ≠ mostNegative → checked (i64 (a * b), i64 (Z.quot (i64 (a * b)) b) =? a) (a * b).
Proof.
  unfold mostNegative, mostPositive. intros Ha Hb Hb0 Ha0. destruct (i64_wrap (a * b)) as [k Hk]. pose proof (i64_range (a * b)) as Hr.
  destruct (decide (in_i64 (a * b))) as [Hi|Hi].
  - rewrite (i64_id (a * b)), Z.quot_mul, i64_id, Z.eqb_refl by done. by apply checked_ok.
  - replace (_ =? a) with false; [by apply checked_fail|]. symmetry. apply Z.eqb_neq. intros E. apply Hi.
    assert (i64 (Z.quot (i64 (a * b)) b) = Z.quot (i64 (a * b)) b) as Eq.
    { apply i64_id. unfold in_i64 in *. pose proof (Z.quot_abs (i64 (a * b)) b Hb0) as Habs.
      destruct (decide (b = -1)) as [->|]; [lia|]. destruct (decide (b = 1)) as [->|]; [rewrite Z.quot_1_r; lia|].
      assert (Z.quot (Z.abs (i64 (a * b))) (Z.abs b) < 2 ^ 63) by (apply Z.quot_lt_upper_bound; lia). lia. }
    rewrite Eq in E. pose proof (Z.quot_rem (i64 (a * b)) b Hb0) as Hq. pose proof (Z.rem_bound_abs (i64 (a * b)) b Hb0). rewrite E in Hq.
    unfold in_i64 in *. assert (k = 0) as -> by nia. lia.
Qed.

Lemma mul_out_of_range a b : in_i64 a → a = mostNegative → 2 ≤ Z.abs b → ¬ in_i64 (a * b).
Proof. unfold in_i64, mostNegative, mostPositive. nia. Qed.

Lemma int64Multiply_checked a b : in_i64 a → in_i64 b → checked (int64Multiply a b) (a * b).
Proof.
  intros Ha Hb. unfold int64Multiply.
  destruct (Z.eqb_spec a 0) as [->|]; [by apply checked_ok|]. destruct (Z.eqb_spec b 0) as [->|]; [rewrite Z.mul_0_r; by apply checked_ok|].
  destruct (Z.eqb_spec a 1) as [->|]; [rewrite Z.mul_1_l; cbn; apply checked_ok; [by apply i64_id|done]|].
  destruct (Z.eqb_spec b 1) as [->|]; [rewrite Z.mul_1_r; cbn; apply checked_ok; [by apply i64_id|done]|]. cbn [orb].
  destruct (Z.eqb_spec a mostNegative) as [E|E]; [cbn; apply checked_fail; subst a; unfold in_i64, mostNegative, mostPositive in *; nia|].
  destruct (Z.eqb_spec b mostNegative) as [E'|E']; [cbn; apply checked_fail; subst b; unfold in_i64, mostNegative, mostPositive in *; nia|]. by apply multiply_checked.
Qed.

Lemma int64MultiplyScale_checked a b : in_i64 a → in_i64 b → 1 < b → checked (int64MultiplyScale a b) (a * b).
Proof.
  intros Ha Hb Hb1. unfold int64MultiplyScale.
  destruct (Z.eqb_spec a 0) as [->|]; [by apply checked_ok|]. destruct (Z.eqb_spec a 1) as [->|]; [rewrite Z.mul_1_l; cbn; apply checked_ok; [by apply i64_id|done]|].
  cbn [orb]. destruct (Z.eqb_spec b 1); [lia|]. rewrite andb_true_r.
  destruct (Z.eqb_spec a mostNegative) as [E|E]; [apply checked_fail, mul_out_of_range; [done|done|lia]|]. apply multiply_checked; [done..|lia|done].
Qed.

Lemma scale_constant_checked a b : in_i64 a → in_i64 b → 1 < b →
  checked (if (a =? 0) || (a =? 1) then (i64 (a * b), true) else if a =? mostNegative then (0, false)
           else (i64 (a * b), i64 (Z.quot (i64 (a * b)) b) =? a)) (a * b).
Proof.
  intros Ha Hb Hb1. pose proof (int64MultiplyScale_checked a b Ha Hb Hb1) as H. unfold int64MultiplyScale in H.
  destruct (Z.eqb_spec b 1); [lia|]. by rewrite andb_true_r in H.
Qed.

Lemma int64MultiplyScale10_checked a : in_i64 a → checked (int64MultiplyScale10 a) (a * 10).
Proof. intros Ha. by apply scale_constant_checked. Qed.
Lemma int64MultiplyScale100_checked a : in_i64 a → checked (int64MultiplyScale100 a) (a * 100).
Proof. intros Ha. by apply scale_constant_checked. Qed.
Lemma int64MultiplyScale1000_checked a : in_i64 a → checked (int64MultiplyScale1000 a) (a * 1000).
Proof. intros Ha. by apply scale_constant_checked. Qed.

Lemma pow10_pos_Z n : 0 ≤ n → 0 < 10 ^ n.
Proof. intros. apply Z.pow_pos_nonneg; lia. Qed.

Lemma positive_scale_loop_checked n v : in_i64 v → checked (positive_scale_loop n v) (v * 10 ^ Z.of_nat n).
Proof.
  revert v. induction n as [|n IH]; intros v Hv; [rewrite Z.mul_1_r; by apply checked_ok|]. cbn [positive_scale_loop].
  destruct (int64MultiplyScale_checked v 10 Hv) as [Hok Hval]; [done|lia|].
  replace (v * 10 ^ Z.of_nat (S n)) with (v * 10 * 10 ^ Z.of_nat n) by (rewrite Nat2Z.inj_succ, Z.pow_succ_r by lia; lia).
  destruct (int64MultiplyScale v 10) as [w ok]. cbn in Hok, Hval. destruct ok.
  - rewrite <-(Hval eq_refl). apply IH. rewrite Hval by done. by apply Hok.
  - apply checked_fail. intros Hi. assert (¬ in_i64 (v * 10)) as Hn by (by intros ?%Hok). apply Hn. pose proof (pow10_pos_Z (Z.of_nat n)).
    unfold in_i64 in *. nia.
Qed.

Lemma positiveScaleInt64_checked base s : in_i64 base → 0 ≤ s → checked (positiveScaleInt64 base s) (base * 10 ^ s).
Proof.
  intros Hb Hs. unfold positiveScaleInt64.
  destruct (Z.eqb_spec s 0) as [->|]; [rewrite Z.mul_1_r; by apply checked_ok|].
  destruct (Z.eqb_spec s 1) as [->|]; [by apply int64MultiplyScale10_checked|].
  destruct (Z.eqb_spec s 2) as [->|]; [by apply int64MultiplyScale100_checked|].
  destruct (Z.eqb_spec s 3) as [->|]; [by apply int64MultiplyScale1000_checked|].
  destruct (Z.eqb_spec s 6) as [->|]; [by apply (int64MultiplyScale_checked base (10 ^ 6))|].
  destruct (Z.eqb_spec s 9) as [->|]; [by apply (int64MultiplyScale_checked base (10 ^ 9))|].
  rewrite <-(Z2Nat.id s) at 2 by done. by apply positive_scale_loop_checked.
Qed.

(** ** Scaling down *)
(** [n] divided by [D], rounded away from zero. *)
Definition away (n D : Z) : Z := Z.quot n D + (if Z.rem n D =? 0 then 0 else if 0 <? n then 1 else -1).

Lemma quot_rem_pow10 n k : 0 ≤ k →
  Z.quot n (10 ^ (k + 1)) = Z.quot (Z.quot n (10 ^ k)) 10 ∧
  (Z.rem n (10 ^ (k + 1)) =? 0) = (Z.rem n (10 ^ k) =? 0) && (Z.rem (Z.quot n (10 ^ k)) 10 =? 0).
Proof.
  intros Hk. pose proof (pow10_pos_Z k Hk). rewrite Z.pow_add_r, Z.pow_1_r by lia. split; [by rewrite Z.quot_quot by lia|].
  apply eq_true_iff_eq. rewrite andb_true_iff, !Z.eqb_eq, !Z.rem_divide by lia. split.
  - intros [m ->]. split; [exists (m * 10); lia|]. rewrite Z.mul_assoc, (Z.mul_comm m), <-Z.mul_assoc, Z.mul_comm, Z.quot_mul by lia. by exists m.
  - intros [[m ->] H2]. rewrite Z.quot_mul in H2 by lia. destruct H2 as [m' ->]. exists m'. lia.
Qed.

Lemma rem_zero_quot n D : 0 < D → Z.quot n D = 0 → (Z.rem n D =? 0) = (n =? 0).
Proof. intros HD E. pose proof (Z.quot_rem' n D). rewrite E in *. apply eq_true_iff_eq. rewrite !Z.eqb_eq. lia. Qed.

Lemma quot_zero_mono n D E : 0 < D → 0 < E → Z.quot n D = 0 → Z.quot n (D * E) = 0.
Proof. intros HD HE H. by rewrite <-Z.quot_quot, H, Z.quot_0_l by lia. Qed.

Lemma negative_scale_loop_spec n base k :
  0 ≤ k → Z.quot base (10 ^ k) ≠ 0 →
  negative_scale_loop n base (Z.quot base (10 ^ k)) (negb (Z.rem base (10 ^ k) =? 0)) =
    (away base (10 ^ (k + Z.of_nat n)), Z.rem base (10 ^ (k + Z.of_nat n)) =? 0).
Proof.
  revert k. induction n as [|n IH]; intros k Hk Hq; cbn [negative_scale_loop].
  - rewrite Z.add_0_r, negb_involutive. f_equal. unfold away. destruct (Z.rem base (10 ^ k) =? 0); cbn; [lia|]. by destruct (0 <? base).
  - destruct (quot_rem_pow10 base k Hk) as [E1 E2]. rewrite <-negb_andb, <-E2, <-E1. rewrite Nat2Z.inj_succ.
    destruct (Z.eqb_spec (Z.quot base (10 ^ (k + 1))) 0) as [E0|E0].
    + pose proof (pow10_pos_Z (k + 1)). pose proof (pow10_pos_Z (Z.of_nat n)). rewrite rem_zero_quot by (done || lia).
      replace (k + Z.succ (Z.of_nat n)) with (k + 1 + Z.of_nat n) by lia. rewrite (Z.pow_add_r _ (k + 1)) by lia.
      assert (Z.quot base (10 ^ (k + 1) * 10 ^ Z.of_nat n) = 0) as E3 by (apply quot_zero_mono; [lia|lia|done]).
      unfold away. rewrite E3, rem_zero_quot by (done || nia). destruct (Z.eqb_spec base 0) as [->|]; [done|]. cbn. by destruct (0 <? base).
    + rewrite IH by (done || lia). by replace (k + Z.succ (Z.of_nat n)) with (k + 1 + Z.of_nat n) by lia.
Qed.

Lemma negativeScaleInt64_spec base s : 0 ≤ s → negativeScaleInt64 base s = (away base (10 ^ s), Z.rem base (10 ^ s) =? 0).
Proof.
  intros Hs. unfold negativeScaleInt64. destruct (Z.eqb_spec s 0) as [->|Hs0].
  - unfold away. rewrite Z.quot_1_r, Z.rem_1_r. cbn. by rewrite Z.add_0_r.
  - destruct (decide (base = 0)) as [->|Hb].
    + destruct (Z.to_nat s) eqn:E; [lia|]. cbn. unfold away. pose proof (pow10_pos_Z s Hs). by rewrite Z.quot_0_l, Z.rem_0_l by lia.
    + pose proof (negative_scale_loop_spec (Z.to_nat s) base 0) as H. rewrite Z.pow_0_r, Z.quot_1_r, Z.rem_1_r, Z.add_0_l, Z2Nat.id in H by done.
      by apply H.
Qed.

(** ** Amounts as rational numbers *)
Definition aval (a : int64Amount) : Q := dec (value a) (exp a).

(** Amounts whose exponents are far from the bounds of 32 bits. *)
Definition amt_wf (a : int64Amount) : Prop := in_i64 (value a) ∧ Z.abs (exp a) < 2 ^ 30.

Lemma amt_AsDec_exact a : amt_wf a → (dval (amt_AsDec a) == aval a)%Q ∧ scale (amt_AsDec a) = - exp a.
Proof. intros [_ He]. unfold dval, amt_AsDec, aval. cbn [unscaled scale]. rewrite i32_id, Z.opp_involutive by (unfold in_i32; lia). done. Qed.

Lemma amt_Sign_exact a : amt_Sign a = cmp_int (aval a ?= 0)%Q.
Proof.
  unfold amt_Sign, aval. rewrite dec_sign. destruct (Z.eqb_spec (value a) 0) as [->|]; [done|]. destruct (Z.ltb_spec 0 (value a)).
  - by rewrite (proj2 (Z.compare_gt_iff _ _)).
  - by rewrite (proj2 (Z.compare_lt_iff _ _)) by lia.
Qed.

Lemma pow10Int64_spec s : 0 ≤ s < 19 → pow10Int64 s = 10 ^ s.
Proof.
  intros Hs. rewrite <-(Z2Nat.id s) by lia. assert (Z.to_nat s < 19)%nat as Hn by lia. generalize dependent (Z.to_nat s). clear. intros n Hn.
  do 19 (destruct n as [|n]; [done|]). lia.
Qed.

Lemma divideByScaleInt64_spec base s : 0 < s →
  divideByScaleInt64 base s = if s <? 18 then Some (Z.quot base (10 ^ s), Z.rem base (10 ^ s), true) else Some (0, base, false).
Proof.
  intros Hs. unfold divideByScaleInt64. destruct (Z.eqb_spec s 0); [lia|]. destruct (Z.leb_spec 18 s), (Z.ltb_spec s 18); try lia; [done|].
  rewrite pow10Int64_spec by lia. pose proof (pow10_pos_Z s). by destruct (Z.eqb_spec (10 ^ s) 0); [lia|].
Qed.

(** Comparing with a multiple is comparing with the quotient, and the remainder decides a tie. *)
Lemma compare_multiple a b D : 0 < D →
  cmp_int (a * D ?= b) =
    if Z.quot b D =? a then (if Z.rem b D =? 0 then 0 else if 0 <? Z.rem b D then -1 else 1) else compare_values a (Z.quot b D).
Proof.
  intros HD. pose proof (Z.quot_rem' b D) as E. pose proof (Z.rem_bound_abs b D) as Hb. unfold compare_values.
  destruct (Z.eqb_spec (Z.quot b D) a) as [Ea|Ea].
  - subst a. destruct (Z.eqb_spec (Z.rem b D) 0) as [E0|E0], (Z.ltb_spec 0 (Z.rem b D)), (Z.compare_spec (Z.quot b D * D) b); cbn [cmp_int]; nia.
  - destruct (Z.eqb_spec a (Z.quot b D)); [lia|]. destruct (Z.ltb_spec a (Z.quot b D)), (Z.compare_spec (a * D) b); cbn [cmp_int]; nia.
Qed.

Lemma cmp_int_opp c : cmp_int (CompOpp c) = - cmp_int c.
Proof. by destruct c. Qed.

Lemma amt_Cmp_exact a b : amt_wf a → amt_wf b → amt_Cmp a b = Some (cmp_int (aval a ?= aval b)%Q).
Proof.
  intros Ha Hb. pose proof Ha as [_ Hea]. pose proof Hb as [_ Heb].
  assert (Cmp (amt_AsDec a) (amt_AsDec b) = Some (cmp_int (aval a ?= aval b)%Q)) as Hdec.
  { destruct (amt_AsDec_exact a Ha) as [<- E1], (amt_AsDec_exact b Hb) as [<- E2]. apply Cmp_exact. unfold near. rewrite E1, E2. lia. }
  unfold amt_Cmp. destruct (Z.eqb_spec (exp a) (exp b)) as [E|E].
  { unfold aval. rewrite E, dec_compare. unfold compare_values. destruct (Z.eqb_spec (value a) (value b)) as [->|]; [by rewrite Z.compare_refl|].
    destruct (Z.ltb_spec (value a) (value b)), (Z.compare_spec (value a) (value b)); (done || lia). }
  destruct (Z.ltb_spec (exp b) (exp a)) as [L|L].
  - rewrite i32_id by (unfold in_i32; lia). rewrite divideByScaleInt64_spec by lia. destruct (Z.ltb_spec (exp a - exp b) 18); cbn [mbind option_bind negb]; [|done].
    unfold aval. rewrite (dec_at _ (exp a) (exp b)), dec_compare, (compare_multiple _ _ (10 ^ (exp a - exp b))) by (lia || by apply pow10_pos_Z; lia).
    by destruct (_ =? _).
  - rewrite i32_id by (unfold in_i32; lia). rewrite divideByScaleInt64_spec by lia. destruct (Z.ltb_spec (exp b - exp a) 18); cbn [mbind option_bind negb]; [|done].
    unfold aval. rewrite (dec_at _ (exp b) (exp a)), dec_compare, Z.compare_antisym, cmp_int_opp, (compare_multiple _ _ (10 ^ (exp b - exp a))) by (lia || by apply pow10_pos_Z; lia).
    unfold compare_values. rewrite (Z.eqb_sym (value b)). destruct (Z.eqb_spec (Z.quot (value a) (10 ^ (exp b - exp a))) (value b)) as [E'|E'].
    + destruct (Z.eqb_spec (Z.rem (value a) (10 ^ (exp b - exp a))) 0), (Z.ltb_spec 0 (Z.rem (value a) (10 ^ (exp b - exp a)))); done.
    + destruct (Z.ltb_spec (Z.quot (value a) (10 ^ (exp b - exp a))) (value b)), (Z.ltb_spec (value b) (Z.quot (value a) (10 ^ (exp b - exp a)))); (done || lia).
Qed.

(** An addition that succeeds is exact; one that does not leaves the amount as it was. *)
Lemma amt_Add_exact a b : amt_wf a → amt_wf b →
  match amt_Add a b with
  | (c, true) => amt_wf c ∧ (aval c == aval a + aval b)%Q
  | (c, false) => c = a
  end.
Proof.
  intros [Ha Hea] [Hb Heb]. unfold amt_Add.
  destruct (Z.eqb_spec (value b) 0) as [Eb|Eb]; [split; [done|]; unfold aval; rewrite Eb, dec_0; lra|].
  destruct (Z.eqb_spec (value a) 0) as [Ea|Ea]; [split; [done|]; unfold aval; rewrite Ea, dec_0; lra|].
  destruct (Z.eqb_spec (exp a) (exp b)) as [E|E]; [|destruct (Z.ltb_spec (exp b) (exp a)) as [L|L]].
  - destruct (int64Add_checked (value a) (value b) Ha Hb) as [H1 H2]. destruct (int64Add _ _) as [c []]; cbn in *; [|done].
    rewrite H2 by done. split; [split; [by apply H1|done]|]. unfold aval. cbn. by rewrite <-E, dec_add.
  - rewrite i32_id by (unfold in_i32; lia). destruct (positiveScaleInt64_checked (value a) (exp a - exp b) Ha) as [H1 H2]; [lia|].
    destruct (positiveScaleInt64 _ _) as [c []]; cbn in *; [|done]. rewrite H2 by done. apply proj1 in H1. specialize (H1 eq_refl).
    destruct (int64Add_checked _ _ H1 Hb) as [H3 H4]. destruct (int64Add _ _) as [c' []]; cbn in *; [|done]. rewrite H4 by done.
    split; [split; [by apply H3|done]|]. unfold aval. cbn. rewrite (dec_at _ (exp a) (exp b)), dec_add by lia. done.
  - rewrite i32_id by (unfold in_i32; lia). destruct (positiveScaleInt64_checked (value b) (exp b - exp a) Hb) as [H1 H2]; [lia|].
    destruct (positiveScaleInt64 _ _) as [c []]; cbn in *; [|done]. rewrite H2 by done. apply proj1 in H1. specialize (H1 eq_refl).
    destruct (int64Add_checked _ _ Ha H1) as [H3 H4]. destruct (int64Add _ _) as [c' []]; cbn in *; [|done]. rewrite H4 by done.
    split; [split; [by apply H3|done]|]. unfold aval. cbn. rewrite (dec_at _ (exp b) (exp a)), dec_add by lia. done.
Qed.

Lemma amt_Sub_exact a b : amt_wf a → amt_wf b → value b ≠ mostNegative →
  match amt_Sub a b with
  | (c, true) => amt_wf c ∧ (aval c == aval a - aval b)%Q
  | (c, false) => c = a
  end.
Proof.
  intros Ha [Hb Heb] Hm. unfold amt_Sub, mostNegative, mostPositive in *. assert (in_i64 (- value b)) as Hn by (unfold in_i64 in *; lia).
  pose proof (amt_Add_exact a {| value := i64 (- value b); exp := exp b |} Ha) as H. rewrite i64_id in * by done. specialize (H ltac:(done)).
  destruct (amt_Add _ _) as [c []]; [|done]. destruct H as [Hc E]. split; [done|]. rewrite E. unfold aval at 2. cbn. by rewrite <-dec_opp.
Qed.

(** Rounding away from zero is what [RoundUp] does. *)
Lemma away_rounds n D : 0 < D → rounds RoundUp (inject_Z n / inject_Z D) (away n D).
Proof.
  intros HD. pose proof (Rounder_rounds RoundUp n D 0) as H. cbn zeta in H. specialize (H ltac:(lia)). cbn [UseRemainder Rounder_Round] in H.
  destruct H as [_ H]. unfold away. rewrite (Z.sgn_pos D) in H by done. pose proof (Z.rem_nonneg n D). pose proof (Z.rem_nonpos n D).
  destruct (Z.eqb_spec (Z.sgn (Z.rem n D)) 0) as [E|E], (Z.eqb_spec (Z.rem n D) 0) as [E'|E']; try (rewrite ?Z.sgn_null_iff in *; lia).
  - cbn in H. by rewrite Z.add_0_r.
  - cbn [negb SetUnscaledBig unscaled] in H. replace (if 0 <? n then 1 else -1) with (Z.sgn (Z.rem n D) * 1); [done|].
    destruct (Z.ltb_spec 0 n); [rewrite Z.sgn_pos by lia|rewrite Z.sgn_neg by lia]; done.
Qed.

Lemma aval_scaled a s : exp a ≤ s → (aval a * pow10 (- s) == inject_Z (value a) / inject_Z (10 ^ (s - exp a)))%Q.
Proof.
  intros Hs. unfold aval, dec. rewrite <-pow10_Z by lia. replace (s - exp a) with (- (exp a + - s)) by lia. rewrite (pow10_opp (exp a + - s)), pow10_add.
  pose proof (pow10_ne (exp a)). pose proof (pow10_ne (- s)). by field.
Qed.

Lemma in_i64_away n D : in_i64 n → 1 ≤ D → in_i64 (away n D).
Proof.
  intros Hn HD. unfold away, in_i64 in *. destruct (decide (D = 1)) as [->|]; [rewrite Z.quot_1_r, Z.rem_1_r; cbn; lia|].
  pose proof (Z.quot_rem' n D). pose proof (Z.rem_bound_abs n D). pose proof (Z.rem_nonneg n D). pose proof (Z.rem_nonpos n D).
  destruct (Z.eqb_spec (Z.rem n D) 0), (Z.ltb_spec 0 n); nia.
Qed.

(** Scaling up an amount rounds it away from zero, and says whether it had to. *)
Lemma amt_AsScale_exact a s : amt_wf a → Z.abs s < 2 ^ 30 →
  match amt_AsScale a s with
  | (b, exact) => amt_wf b ∧ (exact = true ↔ (aval b == aval a)%Q) ∧
      ((s ≤ exp a ∧ b = a) ∨ (exp a < s ∧ exp b = s ∧ rounds RoundUp (aval a * pow10 (- s)) (value b)))
  end.
Proof.
  intros Ha Hs. pose proof Ha as [Hv He]. unfold amt_AsScale. destruct (Z.leb_spec s (exp a)) as [L|L].
  - split; [done|]. split; [done|]. by left.
  - rewrite i32_id by (unfold in_i32; lia). rewrite negativeScaleInt64_spec by lia. pose proof (pow10_pos_Z (s - exp a)) as HD. split_and!.
    + split; [apply in_i64_away; [done|lia]|done].
    + unfold aval. cbn [value exp]. rewrite Z.eqb_eq, (dec_at _ s (exp a)), dec_inj by lia. set (D := 10 ^ (s - exp a)) in *.
      unfold away. pose proof (Z.quot_rem' (value a) D). pose proof (Z.rem_bound_abs (value a) D).
      destruct (Z.eqb_spec (Z.rem (value a) D) 0) as [E|E]; [lia|]. split; [done|]. destruct (0 <? value a); nia.
    + right. split_and!; [done|done|]. rewrite aval_scaled by lia. apply away_rounds. lia.
Qed.

(** ** Removing factors *)
Lemma remove_factors_loop_spec fuel r times base : 2 ≤ base → 0 ≤ r → r < 2 ^ Z.of_nat fuel → 0 ≤ times → times + Z.of_nat fuel < 2 ^ 31 →
  ∃ r' t, remove_factors_loop fuel r times base = (r', times + t) ∧ 0 ≤ t ≤ Z.of_nat fuel ∧ 0 ≤ r' ≤ r ∧ r = r' * base ^ t ∧
    (r ≠ 0 → ¬ (base | r')).
Proof.
  intros Hb. revert r times. induction fuel as [|fuel IH]; intros r times Hr Hf Ht Hti.
  - exists r, 0. cbn in *. rewrite Z.add_0_r. split_and!; (done || lia).
  - cbn [remove_factors_loop]. destruct (Z.leb_spec base r) as [L|L]; cbn [andb].
    2: { exists r, 0. rewrite Z.add_0_r. split_and!; try (done || lia). intros H0 Hd. apply Z.divide_pos_le in Hd; lia. }
    rewrite Z.rem_mod_nonneg, Z.quot_div_nonneg by lia. destruct (Z.eqb_spec (r mod base) 0) as [E|E].
    2: { exists r, 0. rewrite Z.add_0_r. split_and!; try (done || lia). intros H0 Hd. apply E. by apply Z.mod_divide; [lia|]. }
    assert (r = base * (r / base)) as Er by (apply Z.div_exact; lia). rewrite Nat2Z.inj_succ, Z.pow_succ_r in Hf by lia.
    assert (0 ≤ r / base < 2 ^ Z.of_nat fuel) as Hq by (split; [apply Z.div_pos; lia|nia]).
    rewrite i32_id by (unfold in_i32; lia).
    destruct (IH (r / base) (times + 1)) as (r' & t & -> & H1 & H2 & H3 & H4); [lia..|]. exists r', (1 + t). split_and!; try lia.
    + f_equal. lia.
    + nia.
    + rewrite Z.pow_add_r, Z.pow_1_r by lia. rewrite Er. nia.
    + intros H0. apply H4. nia.
Qed.

Lemma ten_mostNegative : ¬ (10 | mostNegative).
Proof. intros H%Z.mod_divide; [|done]. by vm_compute in H. Qed.

Lemma removeInt64Factors_spec v base : 2 ≤ base → in_i64 v → v ≠ 0 →
  ∃ r t, removeInt64Factors v base = (r, t) ∧ v = r * base ^ t ∧ 0 ≤ t ≤ 64 ∧ in_i64 r ∧ (v ≠ mostNegative → ¬ (base | r)) ∧ (v = mostNegative → r = v).
Proof.
  intros Hb Hv H0. unfold removeInt64Factors. destruct (decide (v = mostNegative)) as [->|Hm].
  - exists mostNegative, 0. change (mostNegative <? 0) with true. change (i64 (- mostNegative)) with mostNegative. cbv iota.
    assert (remove_factors_loop 64 mostNegative 0 base = (mostNegative, 0)) as ->.
    { cbn [remove_factors_loop]. destruct (Z.leb_spec base mostNegative); [unfold mostNegative, mostPositive in *; lia|done]. }
    split_and!; (done || lia).
  - assert (in_i64 (Z.abs v)) as Ha by (unfold in_i64, mostNegative, mostPositive in *; lia).
    assert ((if v <? 0 then i64 (- v) else v) = Z.abs v) as ->.
    { destruct (Z.ltb_spec v 0); [rewrite i64_id; [lia|unfold in_i64 in *; lia]|lia]. }
    destruct (remove_factors_loop_spec 64 (Z.abs v) 0 base) as (r & t & -> & Ht & Hr & E & Hd); [done|lia| |lia|lia|].
    { change (2 ^ Z.of_nat 64) with (2 ^ 64). unfold in_i64 in *. lia. }
    exists (if v <? 0 then i64 (- r) else r), t. rewrite Z.add_0_l. unfold in_i64 in Hv.
    destruct (Z.ltb_spec v 0); [rewrite i64_id by (unfold in_i64; lia)|]; split_and!; try first [done|lia|unfold in_i64; lia].
    + intros _. rewrite Z.divide_opp_r. apply Hd. lia.
    + intros _. apply Hd. lia.
Qed.

Lemma remove_big_factors_loop_spec fuel x times base : 2 ≤ base → x ≠ 0 → Z.log2 (Z.abs x) < Z.of_nat fuel → 0 ≤ times → times + Z.of_nat fuel < 2 ^ 31 →
  ∃ r t, remove_big_factors_loop fuel x times base = (r, times + t) ∧ 0 ≤ t ≤ Z.log2 (Z.abs x) ∧ x = r * base ^ t ∧ ¬ (base | r) ∧ Z.log2 (Z.abs r) ≤ Z.log2 (Z.abs x).
Proof.
  intros Hb. revert x times. induction fuel as [|fuel IH]; intros x times Hx Hf Ht Hti; [pose proof (Z.log2_nonneg (Z.abs x)); lia|].
  cbn [remove_big_factors_loop]. destruct (Z.eqb_spec x 0); [done|]. pose proof (Z.log2_nonneg (Z.abs x)). destruct (Z.eqb_spec (x mod base) 0) as [E|E]; cbn [negb].
  2: { exists x, 0. rewrite Z.add_0_r, Z.pow_0_r, Z.mul_1_r. split_and!; try (done || lia). intros Hd. apply E. by apply Z.mod_divide; [lia|]. }
  assert (x = base * (x / base)) as Ex by (apply Z.div_exact; lia). assert (x / base ≠ 0) as Hq by lia.
  assert (Z.log2 (Z.abs (x / base)) < Z.log2 (Z.abs x)) as Hl.
  { assert (2 * Z.abs (x / base) ≤ Z.abs x) as H2 by nia. apply Z.log2_le_mono in H2. rewrite Z.log2_double in H2 by lia. lia. }
  rewrite i32_id by (unfold in_i32; lia). destruct (IH (x / base) (times + 1)) as (r & t & -> & H1 & H2 & H3 & H4); [done|lia|lia|lia|].
  exists r, (1 + t). split_and!; try (done || lia); [f_equal; lia|]. rewrite Z.pow_add_r, Z.pow_1_r by lia. rewrite Ex. rewrite H2 at 1. ring.
Qed.

Lemma removeBigIntFactors_spec x base : 2 ≤ base → x ≠ 0 → Z.log2 (Z.abs x) < 2 ^ 30 →
  ∃ r t, removeBigIntFactors x base = (r, t) ∧ 0 ≤ t ≤ Z.log2 (Z.abs x) ∧ x = r * base ^ t ∧ ¬ (base | r) ∧ Z.log2 (Z.abs r) ≤ Z.log2 (Z.abs x).
Proof.
  intros Hb Hx Hl. unfold removeBigIntFactors. pose proof (Z.log2_nonneg (Z.abs x)).
  destruct (remove_big_factors_loop_spec (S (Z.to_nat (Z.log2 (Z.abs x)))) x 0 base) as (r & t & -> & H'); [done|done|lia|lia|lia|]. exists r, t. by rewrite Z.add_0_l.
Qed.

(** ** The canonical form *)
(** A number as an integer times a power of a thousand, the greatest one. *)
Definition canonical (m e : Z) (v : Q) : Prop := (v == dec m e)%Q ∧ Z.rem e 3 = 0 ∧ ¬ (1000 | m).

Lemma rem3_mod e : (Z.rem e 3 =? 0) = (e mod 3 =? 0).
Proof. apply eq_true_iff_eq. by rewrite !Z.eqb_eq, Z.rem_divide, Z.mod_divide. Qed.

Lemma not_thousand r j : 0 ≤ j < 3 → ¬ (10 | r) → ¬ (1000 | r * 10 ^ j).
Proof.
  intros Hj Hr [k Hk]. apply Hr. assert (j = 0 ∨ j = 1 ∨ j = 2) as [-> | [-> | ->]] by lia.
  - exists (k * 100). lia.
  - exists (k * 10). lia.
  - exists k. lia.
Qed.

Lemma canonical_shift v r e : (v == dec r e)%Q → ¬ (10 | r) → canonical (r * 10 ^ (e mod 3)) (e - e mod 3) v.
Proof.
  intros Hv Hr. pose proof (Z.mod_pos_bound e 3). split_and!.
  - by rewrite <-(dec_shift r e (e mod 3)) by lia.
  - apply Z.eqb_eq. rewrite rem3_mod, Z.eqb_eq, Zminus_mod_idemp_r, Z.sub_diag. done.
  - by apply not_thousand; [lia|].
Qed.

Lemma canonical_loop_spec a e : Z.abs e < 2 ^ 30 → canonical_loop 4 a e = Some (a * 10 ^ (e mod 3), e - e mod 3).
Proof.
  intros He. cbn [canonical_loop]. rewrite !rem3_mod. pose proof (Z.mod_pos_bound e 3). pose proof (Z.div_mod e 3).
  destruct (Z.eqb_spec (e mod 3) 0) as [E|E]; [rewrite E; f_equal; f_equal; lia|]. rewrite !(i32_id (e - 1)) by (unfold in_i32; lia).
  assert ((e - 1) mod 3 = e mod 3 - 1) as ->. { symmetry. apply (Z.mod_unique_pos _ _ (e / 3)); lia. }
  destruct (Z.eqb_spec (e mod 3 - 1) 0) as [E1|E1]; [replace (e mod 3) with 1 by lia; f_equal; f_equal; lia|].
  rewrite !(i32_id (e - 1 - 1)) by (unfold in_i32; lia). assert ((e - 1 - 1) mod 3 = e mod 3 - 2) as ->. { symmetry. apply (Z.mod_unique_pos _ _ (e / 3)); lia. }
  destruct (Z.eqb_spec (e mod 3 - 2) 0) as [E2|E2]; [|lia]. replace (e mod 3) with 2 by lia. f_equal. f_equal; lia.
Qed.

Lemma log2_scaled r j : 0 ≤ j < 3 → Z.log2 (Z.abs (r * 10 ^ j)) ≤ Z.log2 (Z.abs r) + 8.
Proof.
  intros Hj. rewrite Z.abs_mul, (Z.abs_eq (10 ^ j)) by (pose proof (pow10_pos_Z j); lia).
  etransitivity; [apply Z.log2_mul_above; pose proof (pow10_pos_Z j); lia|].
  assert (Z.log2 (10 ^ j) ≤ Z.log2 100); [|change (Z.log2 100) with 6 in *; lia]. apply Z.log2_le_mono. change 100 with (10 ^ 2). apply Z.pow_le_mono_r; lia.
Qed.

(** Decimals that are small enough for their canonical exponent to be an exponent. *)
Definition dec_small (x : Dec) : Prop := Z.abs (scale x) < 2 ^ 28 ∧ Z.log2 (Z.abs (unscaled x)) < 2 ^ 27.

Definition small_form (m e : Z) : Prop := Z.log2 (Z.abs m) < 2 ^ 27 + 10 ∧ Z.abs e < 2 ^ 29 + 10.

Lemma dec_AsCanonicalBytes_spec x out : dec_small x → unscaled x ≠ 0 →
  ∃ m e, dec_AsCanonicalBytes x out = Some (out ++ print_int m, e) ∧ canonical m e (dval x) ∧ small_form m e.
Proof.
  intros [Hs Hl] H0. unfold dec_AsCanonicalBytes. destruct (removeBigIntFactors_spec (unscaled x) 10) as (r & t & -> & Ht & Er & Hr & Hlr); [lia|done|lia|].
  rewrite (i32_id (- scale x)), i32_id by (unfold in_i32; lia). rewrite canonical_loop_spec by lia. cbn [mbind option_bind]. eexists _, _. split; [done|].
  pose proof (Z.mod_pos_bound (- scale x + t) 3). split.
  - apply canonical_shift; [|done]. unfold dval. rewrite Er, (dec_shift r (- scale x + t) t) by lia. by replace (- scale x + t - t) with (- scale x) by lia.
  - split; [|lia]. pose proof (log2_scaled r ((- scale x + t) mod 3)). lia.
Qed.

Lemma in_i64_log2 v : in_i64 v → Z.log2 (Z.abs v) < 64.
Proof. intros Hv. assert (Z.log2 (Z.abs v) ≤ Z.log2 (2 ^ 63)) as H by (apply Z.log2_le_mono; unfold in_i64 in *; lia). by change (Z.log2 (2 ^ 63)) with 63 in H; lia. Qed.

Lemma amt_AsCanonicalBytes_spec a out : amt_wf a → Z.abs (exp a) < 2 ^ 28 → value a ≠ 0 →
  ∃ m e, amt_AsCanonicalBytes a out = Some (out ++ print_int m, e) ∧ canonical m e (aval a) ∧ small_form m e.
Proof.
  intros Ha He H0. pose proof Ha as [Hi _]. pose proof (in_i64_log2 _ Hi) as Hl. unfold amt_AsCanonicalBytes.
  destruct (removeInt64Factors_spec (value a) 10) as (r & t & -> & Er & Ht & Hri & Hd1 & Hd2); [lia|done|done|].
  assert (¬ (10 | r)) as Hr. { destruct (decide (value a = mostNegative)) as [E|E]; [rewrite (Hd2 E), E; apply ten_mostNegative|by apply Hd1]. }
  assert (∃ m e, dec_AsCanonicalBytes (amt_AsDec a) out = Some (out ++ print_int m, e) ∧ canonical m e (aval a) ∧ small_form m e) as Hdec.
  { destruct (amt_AsDec_exact a Ha) as [Ed Es]. destruct (dec_AsCanonicalBytes_spec (amt_AsDec a) out) as (m & e & E1 & E2 & E3).
    - split; [rewrite Es|cbn]; lia.
    - done.
    - exists m, e. unfold canonical in *. by rewrite <-Ed. }
  rewrite !(i32_id (exp a + t)) by (unfold in_i32; lia). set (e := exp a + t). assert (aval a == dec r e)%Q as Hv.
  { unfold aval. rewrite Er, (dec_shift r e t) by lia. subst e. by replace (exp a + t - t) with (exp a) by lia. }
  pose proof (canonical_shift _ _ _ Hv Hr) as Hc. pose proof (Z.mod_pos_bound e 3) as Hm. pose proof (Z.rem_mod e 3) as Hrm.
  assert (small_form (r * 10 ^ (e mod 3)) (e - e mod 3)) as Hsm.
  { split; [|lia]. pose proof (log2_scaled r (e mod 3)). pose proof (in_i64_log2 _ Hri). lia. }
  assert ((Z.rem e 3 =? 1) || (Z.rem e 3 =? -2) = (e mod 3 =? 1) ∧ (Z.rem e 3 =? 2) || (Z.rem e 3 =? -1) = (e mod 3 =? 2)) as [-> ->].
  { pose proof (Z.quot_rem' e 3). pose proof (Z.div_mod e 3). pose proof (Z.rem_bound_abs e 3).
    destruct (Z.eqb_spec (Z.rem e 3) 1), (Z.eqb_spec (Z.rem e 3) (-2)), (Z.eqb_spec (Z.rem e 3) 2), (Z.eqb_spec (Z.rem e 3) (-1)),
      (Z.eqb_spec (e mod 3) 1), (Z.eqb_spec (e mod 3) 2); cbn [orb]; (split; [reflexivity|reflexivity]) || lia. }
  destruct (Z.eqb_spec (e mod 3) 1) as [E1|E1]; [|destruct (Z.eqb_spec (e mod 3) 2) as [E2|E2]].
  - destruct (int64MultiplyScale10_checked r Hri) as [_ H2]. destruct (int64MultiplyScale10 r) as [w []]; cbn [negb fst snd] in *; [|done].
    rewrite H2, i32_id by (done || unfold in_i32; lia). rewrite E1 in *. eexists _, _. split; [done|]. done.
  - destruct (int64MultiplyScale100_checked r Hri) as [_ H2]. destruct (int64MultiplyScale100 r) as [w []]; cbn [negb fst snd] in *; [|done].
    rewrite H2, i32_id by (done || unfold in_i32; lia). rewrite E2 in *. eexists _, _. split; [done|]. done.
  - assert (e mod 3 = 0) as E0 by lia. rewrite E0, Z.pow_0_r, Z.mul_1_r, Z.sub_0_r in *. by eexists _, _.
Qed.

Lemma roundup_integer z n : rounds RoundUp (inject_Z z) n → n = z.
Proof.
  intros (H1 & H2 & H3). rewrite <-inject_Z_mult in H1. change 0%Q with (inject_Z 0) in H1. rewrite <-Zle_Qle in H1.
  assert (Z.abs z ≤ Z.abs n < Z.abs z + 1) as Hz; [|nia].
  rewrite Zle_Qle, Zlt_Qlt, inject_Z_plus. split; [exact H2|exact H3].
Qed.

Lemma dec_AsCanonicalBase1024Bytes_spec x out V : Z.abs (scale x) < 2 ^ 30 → Z.log2 (Z.abs V) < 2 ^ 30 → V ≠ 0 → (dval x == inject_Z V)%Q →
  ∃ m k, dec_AsCanonicalBase1024Bytes x out = Some (out ++ print_int m, k) ∧ V = m * 1024 ^ k ∧ 0 ≤ k.
Proof.
  intros Hs Hl H0 HV. unfold dec_AsCanonicalBase1024Bytes. destruct (Round_rounds x 0 RoundUp) as ([z|] & -> & Hz); [unfold in_i32; lia|unfold near; lia| |by destruct Hz].
  destruct Hz as [_ Hz]. change (pow10 0) with 1%Q in Hz. rewrite Qmult_1_r, HV in Hz. apply roundup_integer in Hz. cbn [mbind option_bind]. rewrite Hz.
  destruct (removeBigIntFactors_spec V 1024) as (m & k & -> & Hk & Em & _); [lia|done|done|]. exists m, k. split_and!; (done || lia).
Qed.

Lemma amt_AsCanonicalBase1024Bytes_spec a out V : amt_wf a → Z.abs (exp a) < 2 ^ 28 → Z.log2 (Z.abs V) < 2 ^ 30 → V ≠ 0 → (aval a == inject_Z V)%Q →
  ∃ m k, amt_AsCanonicalBase1024Bytes a out = Some (out ++ print_int m, k) ∧ V = m * 1024 ^ k ∧ 0 ≤ k.
Proof.
  intros Ha He Hl H0 HV. pose proof Ha as [Hi _]. pose proof (in_i64_log2 _ Hi). unfold amt_AsCanonicalBase1024Bytes.
  assert (∀ v, v = V → in_i64 v → ∃ m k, (let '(amount, exponent) := removeInt64Factors v 1024 in Some (out ++ print_int amount, exponent)) = Some (out ++ print_int m, k) ∧
    V = m * 1024 ^ k ∧ 0 ≤ k) as Hgo.
  { intros v -> Hv. destruct (removeInt64Factors_spec V 1024) as (m & k & -> & Em & Hk & _); [lia|done|done|]. exists m, k. split_and!; (done || lia). }
  unfold AsScaledInt64. destruct (Z.ltb_spec (exp a) 0) as [L|L].
  - rewrite i32_id by (unfold in_i32; lia). rewrite negativeScaleInt64_spec by lia. cbn [negb]. pose proof (pow10_pos_Z (0 - exp a)) as HD.
    apply Hgo; [|apply in_i64_away; [done|lia]]. apply roundup_integer. rewrite <-HV. pose proof (aval_scaled a 0) as E. change (pow10 (- 0)) with 1%Q in E.
    rewrite <-(Qmult_1_r (aval a)), E by lia. apply away_rounds. lia.
  - rewrite Z.sub_0_r, i32_id by (unfold in_i32; lia). destruct (positiveScaleInt64_checked (value a) (exp a) Hi) as [H1 H2]; [lia|].
    assert (value a * 10 ^ exp a = V) as EV. { unfold aval in HV. rewrite (dec_at _ _ 0), dec_Z, Z.sub_0_r in HV by lia. by apply inject_Z_injective. }
    destruct (positiveScaleInt64 _ _) as [w []]; cbn [negb fst snd] in *.
    + apply Hgo; [rewrite H2; done|]. rewrite H2 by done. by apply H1.
    + destruct (amt_AsDec_exact a Ha) as [Ed Es]. apply dec_AsCanonicalBase1024Bytes_spec; [rewrite Es; lia|done|done|by rewrite Ed].
Qed.
