(* ===== verification/Quantity.v ===== *)
(** * Resource quantities (k8s.io/apimachinery/pkg/api/resource: quantity.go, suffix.go)

    The numbers in which resources are requested and limited: a parser of numbers with
    suffixes, a canonical form that is printed and cached, and arithmetic.  Strings are lists of
    bytes.  A quantity that is copied shares its decimal with the copy; methods that change it
    are modelled on the value.  [None] is a panic. *)

From Stdlib Require Import Ascii.
From S2P Require Import Prelude Validation Decimals InfDec Amounts.
Open Scope Z_scope.

(** The string that is the type of formats in the code. *)
Inductive Format := DecimalExponent | BinarySI | DecimalSI | OtherFormat (name : string).

#[export] Instance Format_eq_dec : EqDecision Format.
Proof. solve_decision. Defined.

(** ** Suffixes *)
Record listSuffixer := { suffixToBE : gmap string (Z * Z); beToSuffix : gmap (Z * Z) string }.

Definition no_suffixes : listSuffixer := {| suffixToBE := ∅; beToSuffix := ∅ |}.

Definition addSuffix (s : string) (pair : Z * Z) (ls : listSuffixer) : listSuffixer :=
  {| suffixToBE := <[s := pair]> (suffixToBE ls); beToSuffix := <[pair := s]> (beToSuffix ls) |}.

Definition lookup_suffix (ls : listSuffixer) (s : string) : option (Z * Z) := suffixToBE ls !! s.
Definition list_construct (ls : listSuffixer) (base exponent : Z) : option string := beToSuffix ls !! (base, exponent).
Definition list_constructBytes (ls : listSuffixer) (base exponent : Z) : option (list ascii) :=
  chars <$> beToSuffix ls !! (base, exponent).

Definition binSuffixes : listSuffixer :=
  addSuffix "Ei" (2, 60) (addSuffix "Pi" (2, 50) (addSuffix "Ti" (2, 40) (addSuffix "Gi" (2, 30)
    (addSuffix "Mi" (2, 20) (addSuffix "Ki" (2, 10) no_suffixes))))).

Definition decSuffixes : listSuffixer :=
  addSuffix "E" (10, 18) (addSuffix "P" (10, 15) (addSuffix "T" (10, 12) (addSuffix "G" (10, 9) (addSuffix "M" (10, 6)
    (addSuffix "k" (10, 3) (addSuffix "" (10, 0) (addSuffix "m" (10, -3) (addSuffix "u" (10, -6) (addSuffix "n" (10, -9)
      (addSuffix "" (2, 0) no_suffixes)))))))))).

Definition construct (base exponent : Z) (fmt : Format) : option (list ascii) :=
  match fmt with
  | DecimalSI => chars <$> list_construct decSuffixes base exponent
  | BinarySI => chars <$> list_construct binSuffixes base exponent
  | DecimalExponent =>
    if negb (base =? 10) then None
    else if exponent =? 0 then Some []
    else Some ("e"%char :: print_int exponent)
  | OtherFormat _ => None
  end.

(** The buffer of eight bytes holds the number or is replaced: the bytes are the same. *)
Definition constructBytes (base exponent : Z) (fmt : Format) : option (list ascii) :=
  match fmt with
  | DecimalSI => list_constructBytes decSuffixes base exponent
  | BinarySI => list_constructBytes binSuffixes base exponent
  | DecimalExponent =>
    if negb (base =? 10) then None
    else if exponent =? 0 then Some []
    else Some ("e"%char :: print_int exponent)
  | OtherFormat _ => None
  end.

Definition text (l : list ascii) : string := String.string_of_list_ascii l.

Definition handler_interpret (suffix : list ascii) : option (Z * Z * Format) :=
  match lookup_suffix decSuffixes (text suffix) with
  | Some (b, e) => Some (b, e, DecimalSI)
  | None =>
    match lookup_suffix binSuffixes (text suffix) with
    | Some (b, e) => Some (b, e, BinarySI)
    | None =>
      match suffix with
      | c :: _ :: _ =>
        if bool_decide (c = "E"%char) || bool_decide (c = "e"%char) then
          match ParseInt (drop 1 suffix) with
          | Some parsed => Some (10, i32 parsed, DecimalExponent)
          | None => None
          end
        else None
      | _ => None
      end
    end
  end.

Definition interpret (s : list ascii) : option (Z * Z * Format) :=
  if bool_decide (s = chars "") then Some (10, 0, DecimalSI)
  else if bool_decide (s = chars "n") then Some (10, -9, DecimalSI)
  else if bool_decide (s = chars "u") then Some (10, -6, DecimalSI)
  else if bool_decide (s = chars "m") then Some (10, -3, DecimalSI)
  else if bool_decide (s = chars "k") then Some (10, 3, DecimalSI)
  else if bool_decide (s = chars "M") then Some (10, 6, DecimalSI)
  else if bool_decide (s = chars "G") then Some (10, 9, DecimalSI)
  else handler_interpret s.

(** ** The scanner *)
Inductive parse_error := ErrFormatWrong | ErrNumeric | ErrSuffix.

(** The longest prefix of characters that pass, and the rest. *)
Fixpoint span (p : ascii → bool) (l : list ascii) : list ascii * list ascii :=
  match l with
  | [] => ([], [])
  | c :: l' => if p c then let '(a, b) := span p l' in (c :: a, b) else ([], l)
  end.

Definition suffix_letter (c : ascii) : bool := existsb (λ x, bool_decide (c = x)) (chars "eEinumkKMGTP").

Record scanned := { positive : bool; number : list ascii; num_ : list ascii; denom : list ascii; suffix : list ascii }.

Definition scan_suffix (rest : list ascii) : option (list ascii) :=
  let '(letters, rest') := span suffix_letter rest in
  match rest' with
  | [] => Some rest
  | c :: rest'' =>
    let after := if bool_decide (c = "-"%char) || bool_decide (c = "+"%char) then rest'' else rest' in
    if all_digits after then Some rest else None
  end.

(** Whether the number is positive, its sign, and what follows it. *)
Definition scan_sign (str : list ascii) : bool * list ascii * list ascii :=
  match str with
  | "-"%char :: l => (false, ["-"%char], l)
  | "+"%char :: l => (true, ["+"%char], l)
  | l => (true, [], l)
  end.

(** From the numerator on. *)
Definition scan_numerator (str : list ascii) (pos : bool) (sign zeroes rest : list ascii) : res parse_error scanned :=
  let '(num, rest) := span is_digit rest in
  match rest with
  | [] => Ok {| positive := pos; number := str; num_ := num; denom := []; suffix := [] |}
  | c :: rest' =>
    let num' := match num with [] => ["0"%char] | _ => num end in
    if bool_decide (c = "."%char) then
      let '(den, rest) := span is_digit rest' in
      match rest with
      | [] => Ok {| positive := pos; number := str; num_ := num'; denom := den; suffix := [] |}
      | _ =>
        match scan_suffix rest with
        | Some suf => Ok {| positive := pos; number := sign ++ zeroes ++ num ++ "."%char :: den; num_ := num'; denom := den; suffix := suf |}
        | None => Err ErrFormatWrong
        end
      end
    else
      match scan_suffix rest with
      | Some suf => Ok {| positive := pos; number := sign ++ zeroes ++ num; num_ := num'; denom := []; suffix := suf |}
      | None => Err ErrFormatWrong
      end
  end.

Definition parseQuantityString (str : list ascii) : res parse_error scanned :=
  let '(pos, sign, rest) := scan_sign str in
  let '(zeroes, rest) := span (λ c, bool_decide (c = "0"%char)) rest in
  match rest with
  | [] => Ok {| positive := pos; number := ["0"%char]; num_ := ["0"%char]; denom := []; suffix := [] |}
  | _ => scan_numerator str pos sign zeroes rest
  end.

(** ** Quantities *)
Record Quantity := { i : int64Amount; d : option Dec; s : list ascii; format : Format }.

Definition maxAllowed : Dec := NewDec (2 ^ 63 - 1) 0.
Definition decOne : Dec := NewDec 1 0.
Definition decZero : Dec := NewDec 0 0.

(** [strings.HasSuffix(l, "000")] *)
Definition HasSuffix000 (l : list ascii) : bool :=
  match reverse l with a :: b :: c :: _ => bool_decide ([a; b; c] = chars "000") | _ => false end.

(** The number of decimal digits that the fast path may take.  For the exponents of binary
    suffixes, multiples of ten up to sixty, the float quotient in the code is exact. *)
Definition fast_path (p : scanned) (exponent : Z) (fmt : Format) : Z * Z * Z :=
  match fmt with
  | BinarySI =>
    if (0 <=? exponent) && bool_decide (length (denom p) = 0)%nat
    then (0, i64 (Z.shiftl 1 exponent), i32 (i32 (i32 (15 - i32 (Z.of_nat (length (num_ p)))) - Z.quot (exponent * 3) 10) - 1))
    else (0, 1, -1)
  | DecimalExponent | DecimalSI => (exponent, 1, i32 (maxInt64Factors - i32 (Z.of_nat (length (num_ p) + length (denom p)))))
  | OtherFormat _ => (0, 1, 0)
  end.

(** Whether the string that was parsed is kept as the canonical one. *)
Definition keeps_string (fmt : Format) (exponent sc v : Z) (shifted : list ascii) : bool :=
  match fmt with
  | BinarySI => (Z.rem exponent 10 =? 0) && negb (Z.land v 7 =? 0)
  | _ => (Z.rem sc 3 =? 0) && negb (HasSuffix000 shifted) && negb (bool_decide (head shifted = Some "0"%char))
  end.

(** Removing the suffix. *)
Definition apply_suffix (amount : Dec) (base exponent : Z) : Dec :=
  if base =? 10 then SetScale amount (i32 (scale amount + infScale exponent))
  else if base =? 2 then SetUnscaledBig amount (unscaled amount * Z.shiftl 1 exponent)
  else amount.

(** Rounding up to the least unit that can be represented, except zero. *)
Definition round_nano (amount : Dec) : option Dec :=
  let '(v, ok) := Unscaled amount in
  if negb (v =? 0) || negb ok then r ← Round amount (infScale Nano) RoundUp; r else Some amount.

(** The cap and the format of a magnitude. *)
Definition cap_amount (amount : Dec) (fmt : Format) : option (Dec * Format) :=
  if bool_decide (fmt = BinarySI) then
    c ← Cmp amount maxAllowed;
    let amount := if 0 <? c then Set_ amount maxAllowed else amount in
    c1 ← Cmp amount decOne;
    if c1 <? 0 then
      c0 ← Cmp amount decZero;
      Some (amount, if 0 <? c0 then DecimalSI else fmt)
    else Some (amount, fmt)
  else Some (amount, fmt).

(** The slow path: the number as a decimal, rounded and capped. *)
Definition parse_decimal (p : scanned) (base exponent : Z) (fmt : Format) : option (res parse_error Quantity) :=
  match SetString (number p) with
  | None => Some (Err ErrNumeric)
  | Some amount =>
    let amount := apply_suffix amount base exponent in
    let sign := Sign amount in
    let amount := if sign =? -1 then Neg amount else amount in
    amount ← round_nano amount;
    '(amount, fmt) ← cap_amount amount fmt;
    let amount := if sign =? -1 then Neg amount else amount in
    Some (Ok {| i := Zero; d := Some amount; s := []; format := fmt |})
  end.

Definition ParseQuantity (str : list ascii) : option (res parse_error Quantity) :=
  if bool_decide (length str = 0)%nat then Some (Err ErrFormatWrong)
  else if bool_decide (str = ["0"%char]) then Some (Ok {| i := Zero; d := None; s := str; format := DecimalSI |})
  else
  match parseQuantityString str with
  | Err err => Some (Err err)
  | Ok p =>
    match interpret (suffix p) with
    | None => Some (Err ErrSuffix)
    | Some (base, exponent, fmt) =>
      let '(sc, mantissa, precision) := fast_path p exponent fmt in
      let sc := i32 (sc - i32 (Z.of_nat (length (denom p)))) in
      if (0 <=? precision) && (Nano <=? sc) then
        let shifted := num_ p ++ denom p in
        match ParseInt shifted with
        | None => Some (Err ErrNumeric)
        | Some v =>
          let '(result, ok) := int64Multiply v mantissa in
          if ok then
            let result := if positive p then result else i64 (- result) in
            let kept := if keeps_string fmt exponent sc v shifted then str else [] in
            Some (Ok {| i := {| value := result; exp := sc |}; d := None; s := kept; format := fmt |})
          else parse_decimal p base exponent fmt
        end
      else parse_decimal p base exponent fmt
    end
  end.

Definition MustParse (str : list ascii) : option Quantity :=
  match ParseQuantity str with Some (Ok q) => Some q | _ => None end.

Example parse_examples :
  ParseQuantity (chars "1.5Gi") = Some (Ok {| i := Zero; d := Some (NewDec 1610612736000000000 9); s := []; format := BinarySI |}) ∧
  ParseQuantity (chars "-100m") = Some (Ok {| i := MkAmount (-100) (-3); d := None; s := chars "-100m"; format := DecimalSI |}) ∧
  ParseQuantity (chars "12e6") = Some (Ok {| i := MkAmount 12 6; d := None; s := chars "12e6"; format := DecimalExponent |}) ∧
  ParseQuantity (chars "1x") = Some (Err ErrFormatWrong) ∧ ParseQuantity (chars "1ee") = Some (Err ErrSuffix) ∧
  ParseQuantity (chars "0.1n") = Some (Ok {| i := Zero; d := Some (NewDec 1 9); s := []; format := DecimalSI |}).
Proof. vm_compute. done. Qed.

(** ** Reading a quantity *)
Definition q_IsZero (q : Quantity) : bool :=
  match d q with Some x => Sign x =? 0 | None => value (i q) =? 0 end.

Definition q_Sign (q : Quantity) : Z :=
  match d q with Some x => Sign x | None => amt_Sign (i q) end.

Definition q_AsInt64 (q : Quantity) : Z * bool :=
  match d q with Some _ => (0, false) | None => amt_AsInt64 (i q) end.

Definition ToDec (q : Quantity) : Quantity :=
  match d q with
  | Some _ => q
  | None => {| i := Zero; d := Some (amt_AsDec (i q)); s := s q; format := format q |}
  end.

(** The decimal, and the quantity that now holds it. *)
Definition q_AsDec (q : Quantity) : Dec * Quantity :=
  match d q with
  | Some x => (x, q)
  | None => (amt_AsDec (i q), {| i := Zero; d := Some (amt_AsDec (i q)); s := s q; format := format q |})
  end.

Inductive CanonicalValue := CanonicalInt (a : int64Amount) | CanonicalDec (x : Dec).

Definition AsCanonicalBase1024Bytes (v : CanonicalValue) (out : list ascii) : option (list ascii * Z) :=
  match v with CanonicalInt a => amt_AsCanonicalBase1024Bytes a out | CanonicalDec x => dec_AsCanonicalBase1024Bytes x out end.

Definition q_AsCanonicalBytes (q : Quantity) (out : list ascii) : option (list ascii * Z) :=
  match d q with Some x => dec_AsCanonicalBytes x out | None => amt_AsCanonicalBytes (i q) out end.

Definition q_AsScale (q : Quantity) (sc : Z) : option (CanonicalValue * bool) :=
  match d q with
  | Some x => '(x, exact) ← dec_AsScale x sc; Some (CanonicalDec x, exact)
  | None => let '(a, exact) := amt_AsScale (i q) sc in Some (CanonicalInt a, exact)
  end.

Definition CmpInt64 (q : Quantity) (y : Z) : option Z :=
  match d q with
  | Some x => Cmp x (NewDec y 0)
  | None => amt_Cmp (i q) {| value := y; exp := 0 |}
  end.

(** The result, and the receiver, which is promoted to a decimal where needed. *)
Definition q_Cmp (q y : Quantity) : option (Z * Quantity) :=
  match d q, d y with
  | None, None => c ← amt_Cmp (i q) (i y); Some (c, q)
  | _, _ =>
    let '(x, q) := q_AsDec q in
    c ← Cmp x (q_AsDec y).1;
    Some (c, q)
  end.

Definition ScaledValue (wide_pow10 : Z → Z) (q : Quantity) (sc : Z) : Z :=
  match d q with
  | None => (AsScaledInt64 (i q) sc).1
  | Some x => scaledValue wide_pow10 (unscaled x) (scale x) (infScale sc)
  end.
Definition Value (wide_pow10 : Z → Z) (q : Quantity) : Z := ScaledValue wide_pow10 q 0.
Definition MilliValue (wide_pow10 : Z → Z) (q : Quantity) : Z := ScaledValue wide_pow10 q Milli.

(** ** The canonical form *)
(** The format that is used, with the rounded value for a binary one. *)
Definition canonical_format (q : Quantity) : option (Format * option CanonicalValue) :=
  match format q with
  | DecimalExponent => Some (DecimalExponent, None)
  | DecimalSI => Some (DecimalSI, None)
  | BinarySI =>
    lo ← CmpInt64 q (-1024);
    small ← (if 0 <? lo then hi ← CmpInt64 q 1024; Some (hi <? 0) else Some false);
    if (small : bool) then Some (DecimalSI, None) else
    '(rounded, exact) ← q_AsScale q 0;
    Some (if negb exact then DecimalSI else BinarySI, Some rounded)
  | OtherFormat _ => Some (DecimalExponent, None)
  end.

Definition CanonicalizeBytes (q : Quantity) (out : list ascii) : option (list ascii * list ascii) :=
  if q_IsZero q then Some (["0"%char], []) else
  '(fmt, rounded) ← canonical_format q;
  match fmt, rounded with
  | BinarySI, Some v =>
    '(number, exponent) ← AsCanonicalBase1024Bytes v out;
    Some (number, default [] (constructBytes 2 (i32 (exponent * 10)) fmt))
  | _, _ =>
    '(number, exponent) ← q_AsCanonicalBytes q out;
    Some (number, default [] (constructBytes 10 exponent fmt))
  end.

Definition set_s (str : list ascii) (q : Quantity) : Quantity := {| i := i q; d := d q; s := str; format := format q |}.

Definition q_String (q : Quantity) : option (list ascii * Quantity) :=
  match s q with
  | [] =>
    '(number, suffix) ← CanonicalizeBytes q [];
    Some (number ++ suffix, set_s (number ++ suffix) q)
  | str => Some (str, q)
  end.

(** ** Changing a quantity *)
Definition q_RoundUp (q : Quantity) (sc : Z) : option (bool * Quantity) :=
  match d q with
  | Some x => '(x, exact) ← dec_AsScale x sc; Some (exact, {| i := i q; d := Some x; s := []; format := format q |})
  | None =>
    if sc <=? exp (i q) then Some (true, q) else
    let '(a, exact) := amt_AsScale (i q) sc in Some (exact, {| i := a; d := None; s := []; format := format q |})
  end.

Definition q_Add (q y : Quantity) : option Quantity :=
  let fmt := if q_IsZero q then format y else format q in
  let q := {| i := i q; d := d q; s := []; format := fmt |} in
  let add_dec (q : Quantity) :=
    let q := ToDec q in
    x ← d q;
    z ← Add x (q_AsDec y).1;
    Some {| i := i q; d := Some z; s := s q; format := format q |} in
  match d q, d y with
  | None, None =>
    let '(a, ok) := amt_Add (i q) (i y) in
    if ok then Some {| i := a; d := None; s := s q; format := format q |} else add_dec q
  | _, _ => add_dec q
  end.

Definition q_Sub (q y : Quantity) : option Quantity :=
  let fmt := if q_IsZero q then format y else format q in
  let q := {| i := i q; d := d q; s := []; format := fmt |} in
  let sub_dec (q : Quantity) :=
    let q := ToDec q in
    x ← d q;
    z ← Sub x (q_AsDec y).1;
    Some {| i := i q; d := Some z; s := s q; format := format q |} in
  match d q, d y with
  | None, None =>
    let '(a, ok) := amt_Sub (i q) (i y) in
    if ok then Some {| i := a; d := None; s := s q; format := format q |} else sub_dec q
  | _, _ => sub_dec q
  end.

Definition q_Neg (q : Quantity) : Quantity :=
  match d q with
  | None => {| i := {| value := i64 (- value (i q)); exp := exp (i q) |}; d := None; s := []; format := format q |}
  | Some x => {| i := i q; d := Some (Neg x); s := []; format := format q |}
  end.

Definition SetScaled (v sc : Z) (q : Quantity) : Quantity :=
  {| i := {| value := v; exp := sc |}; d := None; s := []; format := format q |}.
Definition q_Set (v : Z) (q : Quantity) : Quantity := SetScaled v 0 q.
Definition SetMilli (v : Z) (q : Quantity) : Quantity := SetScaled v Milli q.

Definition NewQuantity (v : Z) (fmt : Format) : Quantity := {| i := {| value := v; exp := 0 |}; d := None; s := []; format := fmt |}.
Definition NewMilliQuantity (v : Z) (fmt : Format) : Quantity := {| i := {| value := v; exp := -3 |}; d := None; s := []; format := fmt |}.
Definition NewScaledQuantity (v sc : Z) : Quantity := {| i := {| value := v; exp := sc |}; d := None; s := []; format := DecimalSI |}.

Definition Copy (q : Quantity) : Quantity :=
  match d q with
  | None => {| i := i q; d := None; s := s q; format := format q |}
  | Some x => {| i := Zero; d := Some x; s := s q; format := format q |}
  end.
Definition DeepCopy (q : Quantity) : Quantity := {| i := i q; d := d q; s := s q; format := format q |}.

(** ** JSON *)
Notation quote := ("034"%char).

(** Whether the buffer of eighteen bytes is used or another: the bytes are the same. *)
Definition MarshalJSON (q : Quantity) : option (list ascii) :=
  match s q with
  | [] => '(number, suffix) ← CanonicalizeBytes q []; Some (quote :: number ++ suffix ++ [quote])
  | str => Some (quote :: str ++ [quote])
  end.

(** The UTF-8 encodings of white space. *)
Definition spaces : list (list ascii) :=
  List.map (List.map ascii_of_nat)
  [[9]; [10]; [11]; [12]; [13]; [32]; [194; 133]; [194; 160]; [225; 154; 128]; [226; 128; 128]; [226; 128; 129]; [226; 128; 130];
   [226; 128; 131]; [226; 128; 132]; [226; 128; 133]; [226; 128; 134]; [226; 128; 135]; [226; 128; 136]; [226; 128; 137];
   [226; 128; 138]; [226; 128; 168]; [226; 128; 169]; [226; 128; 175]; [226; 129; 159]; [227; 128; 128]]%nat.

(** Dropping the given prefixes as long as there is one. *)
Fixpoint trim_left (fuel : nat) (prefixes : list (list ascii)) (l : list ascii) : list ascii :=
  match fuel with
  | O => l
  | S fuel =>
    match List.find (λ p, bool_decide (take (length p) l = p)) prefixes with
    | Some p => trim_left fuel prefixes (drop (length p) l)
    | None => l
    end
  end.

(** [strings.TrimSpace] *)
Definition TrimSpace (l : list ascii) : list ascii :=
  let l := trim_left (length l) spaces l in
  reverse (trim_left (length l) (reverse <$> spaces) (reverse l)).

Definition unquote (l : list ascii) : list ascii :=
  match l with
  | c :: l' =>
    match reverse l' with
    | c' :: m => if bool_decide (c = quote) && bool_decide (c' = quote) then reverse m else l
    | [] => l
    end
  | [] => l
  end.

Definition UnmarshalJSON (v : list ascii) (q : Quantity) : option (option parse_error * Quantity) :=
  if bool_decide (v = chars "null") then Some (None, {| i := Zero; d := None; s := s q; format := format q |})
  else
    parsed ← ParseQuantity (TrimSpace (unquote v));
    match parsed with
    | Err err => Some (Some err, q)
    | Ok p => Some (None, p)
    end.

(** ** Flags *)
Definition qFlag_Set (val : list ascii) (q : Quantity) : option (option parse_error * Quantity) :=
  parsed ← ParseQuantity val;
  match parsed with
  | Err err => Some (Some err, q)
  | Ok p => Some (None, p)
  end.
Definition qFlag_String (q : Quantity) : option (list ascii * Quantity) := q_String q.

Definition parsed_String (str : string) : option string :=
  q ← MustParse (chars str); '(t, _) ← q_String q; Some (text t).

Example string_examples :
  parsed_String "1.5Gi" = Some "1536Mi" ∧ parsed_String "1.5" = Some "1500m" ∧ parsed_String "0.1n" = Some "1n" ∧
  parsed_String "2048" = Some "2048" ∧ parsed_String "2048e3" = Some "2048e3" ∧ parsed_String "-0.5Ki" = Some "-512".
Proof. vm_compute. done. Qed.
