(* ===== verification/QuantityExact.v ===== *)
(** * Arithmetic of quantities is exact (k8s.io/apimachinery/pkg/api/resource: quantity.go)

    A quantity represents a rational number, whichever of its two forms it has; its operations
    are those of the rational numbers.  The theorems on what overflows show where not. *)

From Stdlib Require Import QArith Qabs Lqa Ascii.
From S2P Require Import Prelude Validation Decimals InfDec InfDecExact Amounts AmountsExact Quantity.
Open Scope Z_scope.

Lemma rounds_integer z : rounds RoundUp (inject_Z z) z.
Proof. cbn. split_and!; [nra|lra|lra]. Qed.

Lemma dec_AsScale_exact x s : Z.abs (scale x) < 2 ^ 30 → Z.abs s < 2 ^ 30 →
  ∃ z exact, dec_AsScale x s = Some (z, exact) ∧ scale z = - s ∧ rounds RoundUp (dval x * pow10 (- s)) (unscaled z) ∧
    (exact = true ↔ (dval z == dval x)%Q).
Proof.
  intros Hx Hs. unfold dec_AsScale, infScale. rewrite i32_id by (unfold in_i32; lia).
  destruct (Round_rounds x (- s) RoundUp) as ([z|] & -> & Hz); [unfold in_i32; lia|unfold near; lia| |by destruct Hz]. destruct Hz as [Ez Hr].
  cbn [mbind option_bind]. rewrite Cmp_exact by (unfold near; lia). cbn [mbind option_bind]. eexists _, _. split_and!; [done..|].
  rewrite Qeq_alt. by destruct (dval z ?= dval x)%Q.
Qed.

(** ** What a quantity represents *)
Definition qval (q : Quantity) : Q := match d q with Some x => dval x | None => aval (i q) end.

Definition q_wf (q : Quantity) : Prop := match d q with Some x => Z.abs (scale x) < 2 ^ 30 | None => amt_wf (i q) end.

(** The number of a quantity whose exponent is not near the bounds of 32 bits. *)
Definition represents (q : Quantity) (v : Q) : Prop := q_wf q ∧ (qval q == v)%Q.

#[export] Instance represents_proper q : Proper (Qeq ==> iff) (represents q).
Proof. intros v w E. unfold represents. by rewrite E. Qed.

Lemma q_AsDec_spec q v : represents q v →
  (dval (q_AsDec q).1 == v)%Q ∧ Z.abs (scale (q_AsDec q).1) < 2 ^ 30 ∧ d (q_AsDec q).2 = Some (q_AsDec q).1 ∧ represents (q_AsDec q).2 v.
Proof.
  intros [Hw Hv]. unfold q_AsDec, represents, q_wf, qval in *. destruct (d q) as [x|] eqn:E; cbn [fst snd d]; [by rewrite E|].
  destruct (amt_AsDec_exact (i q) Hw) as [E1 E2]. rewrite E1, E2. destruct Hw. split_and!; (done || lia).
Qed.

Lemma ToDec_AsDec q : ToDec q = (q_AsDec q).2.
Proof. unfold ToDec, q_AsDec. by destruct (d q). Qed.

Lemma represents_i q v : represents q v → d q = None → amt_wf (i q) ∧ (aval (i q) == v)%Q.
Proof. unfold represents, q_wf, qval. intros H E. by rewrite E in H. Qed.

Lemma set_format_represents q v str fmt : represents q v → represents {| i := i q; d := d q; s := str; format := fmt |} v.
Proof. done. Qed.

Lemma near_small a b : Z.abs a < 2 ^ 30 → Z.abs b < 2 ^ 30 → near a b.
Proof. unfold near. lia. Qed.

(** The part of [Add] and [Sub] that works on decimals. *)
Lemma add_dec_exact q y v w : represents q v → represents y w →
  ∃ z, Add (q_AsDec q).1 (q_AsDec y).1 = Some z ∧ Z.abs (scale z) < 2 ^ 30 ∧ (dval z == v + w)%Q.
Proof.
  intros Hq Hy. destruct (q_AsDec_spec q v Hq) as (E1 & S1 & _), (q_AsDec_spec y w Hy) as (E2 & S2 & _).
  destruct (Add_exact _ _ (near_small _ _ S1 S2)) as (z & -> & Ez & Sz). exists z. rewrite Ez, E1, E2. split_and!; (done || lia).
Qed.

Lemma sub_dec_exact q y v w : represents q v → represents y w →
  ∃ z, Sub (q_AsDec q).1 (q_AsDec y).1 = Some z ∧ Z.abs (scale z) < 2 ^ 30 ∧ (dval z == v - w)%Q.
Proof.
  intros Hq Hy. destruct (q_AsDec_spec q v Hq) as (E1 & S1 & _), (q_AsDec_spec y w Hy) as (E2 & S2 & _).
  destruct (Sub_exact _ _ (near_small _ _ S1 S2)) as (z & -> & Ez & Sz). exists z. rewrite Ez, E1, E2. split_and!; (done || lia).
Qed.

Lemma q_Add_exact q y v w : represents q v → represents y w → ∃ q', q_Add q y = Some q' ∧ represents q' (v + w).
Proof.
  intros Hq Hy. unfold q_Add. cbn [d i s format]. set (fmt := if q_IsZero q then _ else _).
  set (q0 := {| i := i q; d := d q; s := []; format := fmt |}). assert (represents q0 v) as Hq0 by done.
  destruct (add_dec_exact q0 y v w Hq0 Hy) as (z & Ez & Sz & Vz). destruct (q_AsDec_spec q0 v Hq0) as (_ & _ & Ed & _).
  rewrite ToDec_AsDec, Ed. cbn [mbind option_bind]. rewrite Ez. cbn [mbind option_bind].
  destruct (d q) as [x0|] eqn:Eq, (d y) as [y0|] eqn:Ey; try (eexists; split; [done|done]).
  destruct (represents_i q v Hq Eq) as [Wq Vq], (represents_i y w Hy Ey) as [Wy Vy]. pose proof (amt_Add_exact (i q) (i y) Wq Wy) as H.
  destruct (amt_Add (i q) (i y)) as [c []]; [|eexists; split; [done|done]]. eexists. split; [done|]. destruct H as [Hc Ec]. split; [done|].
  unfold qval. cbn. by rewrite Ec, Vq, Vy.
Qed.

(** The operand of a subtraction or of a change of sign is not the least 64-bit integer. *)
Definition negatable (q : Quantity) : Prop := d q = None → value (i q) ≠ mostNegative.

Lemma q_Sub_exact q y v w : represents q v → represents y w → negatable y → ∃ q', q_Sub q y = Some q' ∧ represents q' (v - w).
Proof.
  intros Hq Hy Hn. unfold q_Sub. cbn [d i s format]. set (fmt := if q_IsZero q then _ else _).
  set (q0 := {| i := i q; d := d q; s := []; format := fmt |}). assert (represents q0 v) as Hq0 by done.
  destruct (sub_dec_exact q0 y v w Hq0 Hy) as (z & Ez & Sz & Vz). destruct (q_AsDec_spec q0 v Hq0) as (_ & _ & Ed & _).
  rewrite ToDec_AsDec, Ed. cbn [mbind option_bind]. rewrite Ez. cbn [mbind option_bind].
  destruct (d q) as [x0|] eqn:Eq, (d y) as [y0|] eqn:Ey; try (eexists; split; [done|done]).
  destruct (represents_i q v Hq Eq) as [Wq Vq], (represents_i y w Hy Ey) as [Wy Vy]. pose proof (amt_Sub_exact (i q) (i y) Wq Wy (Hn Ey)) as H.
  destruct (amt_Sub (i q) (i y)) as [c []]; [|eexists; split; [done|done]]. eexists. split; [done|]. destruct H as [Hc Ec]. split; [done|].
  unfold qval. cbn. by rewrite Ec, Vq, Vy.
Qed.

Lemma q_Neg_exact q v : represents q v → negatable q → represents (q_Neg q) (- v).
Proof.
  intros [Hw Hv] Hn. unfold q_Neg, negatable, represents, q_wf, qval in *. destruct (d q) as [x|]; cbn [d i].
  - split; [done|]. by rewrite Neg_exact, Hv.
  - destruct Hw as [Hi He]. specialize (Hn eq_refl). unfold mostNegative, mostPositive in Hn. rewrite i64_id by (unfold in_i64 in *; lia). split.
    + split; [|done]. cbn. unfold in_i64 in *. lia.
    + unfold aval. cbn. rewrite <-dec_opp. by rewrite <-Hv.
Qed.

Lemma q_Cmp_exact q y v w : represents q v → represents y w → ∃ q', q_Cmp q y = Some (cmp_int (v ?= w)%Q, q') ∧ represents q' v.
Proof.
  intros Hq Hy. destruct (q_AsDec_spec q v Hq) as (E1 & S1 & _ & R1), (q_AsDec_spec y w Hy) as (E2 & S2 & _).
  unfold q_Cmp. assert (∃ q', (let '(x, q0) := q_AsDec q in c ← Cmp x (q_AsDec y).1; Some (c, q0)) = Some (cmp_int (v ?= w)%Q, q') ∧ represents q' v) as Hdec.
  { destruct (q_AsDec q) as [x q'] eqn:E. cbn [fst snd] in *. rewrite Cmp_exact by (by apply near_small). cbn [mbind option_bind]. exists q'. by rewrite E1, E2. }
  destruct (d q) as [x0|] eqn:Eq, (d y) as [y0|] eqn:Ey; try done. destruct (represents_i q v Hq Eq) as [Wq Vq], (represents_i y w Hy Ey) as [Wy Vy].
  rewrite amt_Cmp_exact by done. exists q. by rewrite Vq, Vy.
Qed.

Lemma CmpInt64_exact q v y : represents q v → in_i64 y → CmpInt64 q y = Some (cmp_int (v ?= inject_Z y)%Q).
Proof.
  intros [Hw Hv] Hy. unfold CmpInt64, q_wf, qval in *. destruct (d q) as [x|].
  - rewrite Cmp_exact by (by apply near_small). rewrite Hv. unfold dval. cbn. by rewrite dec_Z.
  - rewrite amt_Cmp_exact; [|done|by split]. rewrite Hv. unfold aval. cbn. by rewrite dec_Z.
Qed.

Lemma q_Sign_exact q v : represents q v → q_Sign q = cmp_int (v ?= 0)%Q.
Proof. intros [_ Hv]. unfold q_Sign, qval in *. destruct (d q); [rewrite Sign_exact|rewrite amt_Sign_exact]; by rewrite Hv. Qed.

Lemma q_IsZero_exact q v : represents q v → q_IsZero q = true ↔ (v == 0)%Q.
Proof.
  intros [_ Hv]. rewrite <-Hv. unfold q_IsZero, qval. destruct (d q); rewrite Z.eqb_eq.
  - unfold dval, Sign. by rewrite dec_eq_0, Z.sgn_null_iff.
  - unfold aval. by rewrite dec_eq_0.
Qed.

Lemma q_RoundUp_exact q v sc : represents q v → Z.abs sc < 2 ^ 30 →
  ∃ exact q' n, q_RoundUp q sc = Some (exact, q') ∧ rounds RoundUp (v * pow10 (- sc)) n ∧ represents q' (dec n sc) ∧ (exact = true ↔ (dec n sc == v)%Q).
Proof.
  intros [Hw Hv] Hs. unfold q_RoundUp, q_wf, qval in *. destruct (d q) as [x|] eqn:Ed.
  - destruct (dec_AsScale_exact x sc Hw Hs) as (z & exact & -> & Sz & Hr & He). cbn [mbind option_bind]. eexists _, _, (unscaled z). rewrite <-Hv.
    assert (dval z == dec (unscaled z) sc)%Q as Ez by (unfold dval; by rewrite Sz, Z.opp_involutive).
    split_and!; [done|done| |by rewrite <-Ez]. split; [cbn; rewrite Sz; lia|done].
  - destruct (Z.leb_spec sc (exp (i q))) as [L|L].
    + exists true, q, (value (i q) * 10 ^ (exp (i q) - sc)). assert (dec (value (i q) * 10 ^ (exp (i q) - sc)) sc == aval (i q))%Q as E.
      { unfold aval. by rewrite (dec_at (value (i q)) (exp (i q)) sc) by lia. }
      rewrite E, <-Hv. split_and!; [done| |split; [unfold q_wf; by rewrite Ed|unfold qval; by rewrite Ed]|done]. assert (aval (i q) * pow10 (- sc) == inject_Z (value (i q) * 10 ^ (exp (i q) - sc)))%Q as ->; [|apply rounds_integer].
      rewrite <-E. unfold dec. rewrite pow10_opp. pose proof (pow10_ne sc). by field.
    + pose proof (amt_AsScale_exact (i q) sc Hw Hs) as H. destruct (amt_AsScale (i q) sc) as [b exact]. destruct H as (Wb & He & [[? _]|(_ & Eb & Hr)]); [lia|].
      eexists _, _, (value b). assert (aval b == dec (value b) sc)%Q as Ea by (unfold aval; by rewrite Eb). rewrite <-Hv, <-Ea. split_and!; (done || by cbn).
Qed.

(** ** Values as integers *)
Lemma ceil_div u D n : 0 < D → rounds RoundCeil (inject_Z u / inject_Z D) n → n = u / D + (if u mod D =? 0 then 0 else 1).
Proof.
  intros HD [H1 H2]. assert (0 < inject_Z D)%Q as HQ by (change 0%Q with (inject_Z 0); by rewrite <-Zlt_Qlt).
  assert (u ≤ n * D ∧ n * D < u + D) as [L1 L2].
  { rewrite Zle_Qle, Zlt_Qlt, inject_Z_plus, inject_Z_mult. assert (inject_Z u == inject_Z u / inject_Z D * inject_Z D)%Q as E by (field; lra).
    rewrite E. split; [by apply Qmult_le_compat_r; [|lra]|]. 
    assert (inject_Z u / inject_Z D * inject_Z D + inject_Z D == (inject_Z u / inject_Z D + 1) * inject_Z D)%Q as -> by ring. by apply Qmult_lt_compat_r. }
  pose proof (Z.div_mod u D). pose proof (Z.mod_pos_bound u D HD). destruct (Z.eqb_spec (u mod D) 0); nia.
Qed.

Lemma ceil_integer z n : rounds RoundCeil (inject_Z z) n → n = z.
Proof. intros [H1 H2]. rewrite <-Zle_Qle in H1. change 1%Q with (inject_Z 1) in H2. rewrite <-inject_Z_plus, <-Zlt_Qlt in H2. lia. Qed.

Lemma dec_scaled_up u e k : (dec u e * pow10 (k - e) == dec u k)%Q.
Proof. unfold dec. rewrite <-Qmult_assoc, <-pow10_add. by replace (e + (k - e)) with k by lia. Qed.

Lemma dec_neg u D : 0 ≤ D → (dec u (- D) == inject_Z u / inject_Z (10 ^ D))%Q.
Proof. intros HD. unfold dec. rewrite pow10_opp, pow10_Z by done. done. Qed.

Lemma dec_nonneg u e : (0 <= dec u e)%Q ↔ 0 ≤ u.
Proof. by rewrite <-(dec_0 e), dec_le. Qed.

Lemma small_power u k : 0 < u → 0 ≤ k → in_i64 (u * 10 ^ k) → k < 19.
Proof.
  intros Hu Hk Hi. destruct (Z.lt_ge_cases k 19) as [|H19]; [done|]. assert (10 ^ 19 ≤ 10 ^ k) by (apply Z.pow_le_mono_r; lia).
  change (10 ^ 19) with 10000000000000000000 in *. unfold in_i64 in Hi. nia.
Qed.

Lemma scaledValue_exact wide u s sc n : 0 ≤ u → rounds RoundCeil (dec u (- (s + sc))) n → in_i64 n → scaledValue wide u s (- sc) = n.
Proof.
  intros Hu Hr Hn. unfold scaledValue. replace (s - - sc) with (s + sc) by lia. set (dif := s + sc) in *.
  destruct (Z.eqb_spec dif 0) as [E|E].
  { rewrite E, dec_Z in Hr. apply ceil_integer in Hr as ->. by apply i64_id. }
  destruct (Z.ltb_spec dif 0) as [L|L].
  - rewrite (dec_at _ _ 0), dec_Z in Hr by lia. apply ceil_integer in Hr as ->. rewrite Z.sub_0_r in *. unfold pow10_float.
    destruct (decide (u = 0)) as [->|Hu0]; [done|]. pose proof (small_power u (- dif) ltac:(lia) ltac:(lia) Hn). destruct (Z.ltb_spec (- dif) 19); [|lia].
    rewrite (i64_id u), i64_id; [done|done|]. pose proof (pow10_pos_Z (- dif)). unfold in_i64 in *. nia.
  - rewrite dec_neg in Hr by lia. pose proof (pow10_pos_Z dif) as HD. apply ceil_div in Hr; [|lia]. unfold pow10_float.
    destruct (Z.ltb_spec u (2 ^ 63 - 1)), (Z.ltb_spec dif 19); cbn [andb].
    1: rewrite (i64_id u) by (unfold in_i64; lia); rewrite Z.quot_div_nonneg, Z.rem_mod_nonneg by lia;
       destruct (u mod 10 ^ dif =? 0); cbn [negb]; [lia|]; rewrite i64_id; [done|by rewrite <-Hr].
    all: destruct (Z.eqb_spec (Z.sgn (u mod 10 ^ dif)) 0) as [Es|Es], (Z.eqb_spec (u mod 10 ^ dif) 0) as [Em|Em]; cbn [negb];
      try (by rewrite Em in Es); try (by apply Z.sgn_null_iff in Es).
    all: assert (0 ≤ u / 10 ^ dif) by (apply Z.div_pos; lia); unfold in_i64 in Hn; rewrite (i64_id (u / _)) by (unfold in_i64; lia); try lia; rewrite i64_id by (unfold in_i64; lia); lia.
Qed.

(** A number that is not negative is rounded up to the unit asked for, if that fits. *)
Lemma ScaledValue_exact wide q v sc n : represents q v → (0 <= v)%Q → Z.abs sc < 2 ^ 30 →
  rounds RoundCeil (v * pow10 (- sc)) n → in_i64 n → ScaledValue wide q sc = n.
Proof.
  intros [Hw Hv] Hpos Hs Hr Hn. rewrite <-Hv in Hr, Hpos. unfold ScaledValue, q_wf, qval in *. destruct (d q) as [x|].
  - unfold infScale. rewrite i32_id by (unfold in_i32; lia). unfold dval in *. apply dec_nonneg in Hpos. apply scaledValue_exact; [done| |done].
    rewrite <-(dec_scaled_up (unscaled x) (- scale x)). by replace (- (scale x + sc) - - scale x) with (- sc) by lia.
  - destruct Hw as [Hi He]. unfold AsScaledInt64. unfold aval in Hpos. apply dec_nonneg in Hpos. destruct (Z.ltb_spec (exp (i q)) sc) as [L|L].
    + rewrite i32_id by (unfold in_i32; lia). rewrite negativeScaleInt64_spec by lia. cbn [fst]. rewrite aval_scaled in Hr by lia.
      pose proof (pow10_pos_Z (sc - exp (i q))) as HD. apply ceil_div in Hr; [|lia]. unfold away. rewrite Z.quot_div_nonneg, Z.rem_mod_nonneg by lia.
      rewrite Hr. destruct (Z.eqb_spec (value (i q) mod 10 ^ (sc - exp (i q))) 0) as [|Em]; [done|]. destruct (Z.ltb_spec 0 (value (i q))) as [|Hz]; [done|].
      assert (value (i q) = 0) as Ez by lia. rewrite Ez in Em. by rewrite Z.mod_0_l in Em by lia.
    + rewrite i32_id by (unfold in_i32; lia). destruct (positiveScaleInt64_checked (value (i q)) (exp (i q) - sc) Hi) as [H1 H2]; [lia|].
      unfold aval in Hr. rewrite (dec_at _ _ sc) in Hr by lia. unfold dec in Hr. rewrite <-Qmult_assoc, <-pow10_add in Hr. replace (sc + - sc) with 0 in Hr by lia.
      change (pow10 0) with 1%Q in Hr. rewrite Qmult_1_r in Hr. apply ceil_integer in Hr as ->. apply H2. by apply H1.
Qed.

(** ** Theorems *)
(** [C13] A quantity whose exponent is not near the bounds of 32 bits is a rational number:
    adding, comparing, the sign and rounding up to a scale are exact whichever form the
    operands have, also where 64 bits do not suffice, and return without a panic; so are
    subtracting and changing the sign where the operand whose sign is changed is not the
    least 64-bit integer; the value in units of a scale is the ceiling, for numbers that are
    not negative and results that fit 64 bits.  Outside of these conditions
    [least_integer_wraps], [negative_values_differ] and [far_exponents_panic] show other
    results. *)
Theorem quantity_arithmetic_exact wide q y v w sc c n :
  represents q v → represents y w → Z.abs sc < 2 ^ 30 → in_i64 c →
  (∃ q', q_Add q y = Some q' ∧ represents q' (v + w)) ∧
  (negatable y → ∃ q', q_Sub q y = Some q' ∧ represents q' (v - w)) ∧
  (negatable q → represents (q_Neg q) (- v)) ∧
  (∃ q', q_Cmp q y = Some (cmp_int (v ?= w)%Q, q') ∧ represents q' v) ∧
  CmpInt64 q c = Some (cmp_int (v ?= inject_Z c)%Q) ∧
  q_Sign q = cmp_int (v ?= 0)%Q ∧ (q_IsZero q = true ↔ (v == 0)%Q) ∧
  (∃ exact q' m, q_RoundUp q sc = Some (exact, q') ∧ rounds RoundUp (v * pow10 (- sc)) m ∧ represents q' (dec m sc) ∧
     (exact = true ↔ (dec m sc == v)%Q)) ∧
  ((0 <= v)%Q → rounds RoundCeil (v * pow10 (- sc)) n → in_i64 n → ScaledValue wide q sc = n).
Proof.
  intros Hq Hy Hs Hc. split_and!; [by apply q_Add_exact|by apply q_Sub_exact|by apply q_Neg_exact|by apply q_Cmp_exact|by apply CmpInt64_exact|
    by apply q_Sign_exact|by apply q_IsZero_exact|by apply q_RoundUp_exact|by intros; eapply ScaledValue_exact].
Qed.

Definition max_quantity : Quantity := NewQuantity (2 ^ 63 - 1) DecimalSI.

Lemma quantity_arithmetic_exact_witness :
  represents max_quantity (inject_Z (2 ^ 63 - 1)) ∧
  (∃ q', q_Add max_quantity max_quantity = Some q' ∧ represents q' (inject_Z (2 ^ 63 - 1) + inject_Z (2 ^ 63 - 1))) ∧
  (∃ q', q_Sub max_quantity max_quantity = Some q' ∧ represents q' (inject_Z (2 ^ 63 - 1) - inject_Z (2 ^ 63 - 1))).
Proof.
  assert (represents max_quantity (inject_Z (2 ^ 63 - 1))) as H by (split; [split; [split; by vm_compute|by vm_compute]|by vm_compute]).
  destruct (quantity_arithmetic_exact id max_quantity max_quantity _ _ 0 0 0 H H) as (H1 & H2 & _); [by vm_compute|split; by vm_compute|].
  split; [exact H|]. split; [exact H1|]. apply H2. intros _. by vm_compute.
Defined.

(** The sign of the least integer cannot be changed: subtracting it adds it, and negating it
    leaves it as it is. *)
Theorem least_integer_wraps :
  let least := NewQuantity mostNegative DecimalSI in
  q_Sub (NewQuantity 1 DecimalSI) least = Some (NewQuantity (mostNegative + 1) DecimalSI) ∧ q_Neg least = least.
Proof. split; reflexivity. Qed.

(** The two forms of a negative number have different values: one is rounded away from zero,
    the other up and then one further; the documented ceiling of -1.5 is -1. *)
Theorem negative_values_differ wide :
  let q := NewMilliQuantity (-1500) DecimalSI in
  represents q (-3 # 2) ∧ represents (ToDec q) (-3 # 2) ∧ Value wide q = -2 ∧ Value wide (ToDec q) = 0.
Proof. split_and!; try reflexivity; (split; [by vm_compute|by vm_compute]) || done. Qed.

(** Exponents that differ by more than 32 bits can hold make a comparison divide by zero. *)
Theorem far_exponents_panic : q_Cmp (NewScaledQuantity 1 (2 ^ 31 - 1)) (NewScaledQuantity 1 (-9)) = None.
Proof. reflexivity. Qed.

(** A quantity that keeps its string keeps it when null makes it zero, and when its format is
    changed, which the code documents as allowed at will. *)
Theorem cached_string_is_kept :
  let q := {| i := MkAmount 1024 0; d := None; s := chars "1024"; format := DecimalSI |} in
  let q' := {| i := i q; d := d q; s := s q; format := BinarySI |} in
  (ParseQuantity (chars "1024") = Some (Ok q)) ∧
  (∃ z, UnmarshalJSON (chars "null") q = Some (None, z) ∧ q_IsZero z = true ∧ q_String z = Some (chars "1024", z)) ∧
  q_String q' = Some (chars "1024", q') ∧ CanonicalizeBytes q' [] = Some (chars "1", chars "Ki").
Proof. split_and!; try reflexivity. eexists. split_and!; reflexivity. Qed.
