(* ===== verification/QuantityText.v ===== *)
(** * Parsing and printing quantities (k8s.io/apimachinery/pkg/api/resource: quantity.go, suffix.go)

    The strings of the grammar that the parser reads are parsed to the number they denote, rounded up to
    a nano unit; what is printed is such a string and denotes the number of the quantity.  The
    theorems at the end show where the code departs from its documentation. *)

From Stdlib Require Import QArith Qpower Qabs Lqa Ascii.
From S2P Require Import Prelude Validation Decimals InfDec InfDecExact Amounts AmountsExact Quantity QuantityExact.
Open Scope Z_scope.

(** ** The grammar *)
Definition sign_text (sgn : list ascii) : Prop := sgn = [] ∨ sgn = ["+"%char] ∨ sgn = ["-"%char].

(** A number: a sign, digits, and digits after a point. *)
Definition fraction (frac : option (list ascii)) : list ascii := default [] frac.
Definition point (frac : option (list ascii)) : list ascii := match frac with Some fs => "."%char :: fs | None => [] end.

Definition number_ok (sgn ds : list ascii) (frac : option (list ascii)) : Prop :=
  sign_text sgn ∧ Forall is_digit ds ∧ Forall is_digit (fraction frac) ∧ ds ++ fraction frac ≠ [].

Definition number_text (sgn ds : list ascii) (frac : option (list ascii)) : list ascii := sgn ++ ds ++ point frac.

Definition number_value (sgn ds : list ascii) (frac : option (list ascii)) : Q :=
  dec (signed_digits sgn (ds ++ fraction frac)) (- Z.of_nat (length (fraction frac))).

Definition decimal_suffixes : list (string * Z) :=
  [("n", -9); ("u", -6); ("m", -3); ("", 0); ("k", 3); ("M", 6); ("G", 9); ("T", 12); ("P", 15); ("E", 18)].
Definition binary_suffixes : list (string * Z) := [("Ki", 10); ("Mi", 20); ("Gi", 30); ("Ti", 40); ("Pi", 50); ("Ei", 60)].

(** A suffix, and the power of the base that it stands for.  These are the suffixes that the
    parser reads, with exponents away from the bounds of 32 bits: the documented grammar also
    has exponents with a point, which are refused (see [fractional_exponents_refused]), and
    does not have the suffixes n and u. *)
Inductive suffix_means : list ascii → Z → Z → Format → Prop :=
| means_decimal su e : (su, e) ∈ decimal_suffixes → suffix_means (chars su) 10 e DecimalSI
| means_binary su e : (su, e) ∈ binary_suffixes → suffix_means (chars su) 2 e BinarySI
| means_exponent c sgn es :
    c = "e"%char ∨ c = "E"%char → sign_text sgn → Forall is_digit es → es ≠ [] → Z.abs (signed_digits sgn es) < 2 ^ 29 + 10 →
    suffix_means (c :: sgn ++ es) 10 (signed_digits sgn es) DecimalExponent.

Lemma signed_digits_i64 sgn es : sign_text sgn → Forall is_digit es → es ≠ [] → Z.abs (signed_digits sgn es) < 2 ^ 29 + 10 →
  ParseInt (sgn ++ es) = Some (signed_digits sgn es).
Proof. intros Hs Hd Hne Hb. unfold ParseInt. rewrite big_SetString_signed by done. rewrite bool_decide_eq_true_2; [done|lia]. Qed.

Lemma digit_or_sign sgn es : sign_text sgn → Forall is_digit es → es ≠ [] →
  ∃ c l, sgn ++ es = c :: l ∧ (is_digit c = true ∨ c = "+"%char ∨ c = "-"%char).
Proof.
  intros [-> | [-> | ->]] Hd Hne; cbn [app]; [|by eexists _, _; eauto..]. destruct es as [|c l]; [done|]. apply Forall_cons in Hd as [Hc%Is_true_true _]. by eexists _, _; eauto.
Qed.

(** No suffix of the tables has a digit or a sign as its second character. *)
Lemma exponent_not_listed c x l : (is_digit x = true ∨ x = "+"%char ∨ x = "-"%char) →
  suffixToBE decSuffixes !! text (c :: x :: l) = None ∧ suffixToBE binSuffixes !! text (c :: x :: l) = None.
Proof.
  intros Hx. assert (x ≠ "i"%char) as Hi by (intros ->; destruct Hx as [H|[H|H]]; by vm_compute in H). unfold decSuffixes, binSuffixes, addSuffix, no_suffixes, text.
  cbn [suffixToBE String.string_of_list_ascii]. split; rewrite !lookup_insert_ne; (done || congruence).
Qed.

Lemma means_interpret su b e f : suffix_means su b e f → interpret su = Some (b, e, f).
Proof.
  intros [su' e' H|su' e' H|c sgn es Hc Hs Hd Hne Hb].
  - unfold decimal_suffixes in H. rewrite !elem_of_cons in H. by destruct H as [E|[E|[E|[E|[E|[E|[E|[E|[E|[E|[]%not_elem_of_nil]]]]]]]]]]; injection E as -> ->.
  - unfold binary_suffixes in H. rewrite !elem_of_cons in H. by destruct H as [E|[E|[E|[E|[E|[E|[]%not_elem_of_nil]]]]]]; injection E as -> ->.
  - pose proof (signed_digits_i64 sgn es Hs Hd Hne Hb) as HP. destruct (digit_or_sign sgn es Hs Hd Hne) as (x & l & E & Hx). rewrite E in *. unfold interpret.
    rewrite !bool_decide_eq_false_2 by done. unfold handler_interpret, lookup_suffix. destruct (exponent_not_listed c x l Hx) as [-> ->].
    assert (bool_decide (c = "E"%char) || bool_decide (c = "e"%char) = true) as -> by (destruct Hc as [-> | ->]; done). cbn [drop]. rewrite HP.
    by rewrite i32_id by (unfold in_i32; lia).
Qed.

(** ** The scanner on the grammar *)
Definition stops (p : ascii → bool) (l : list ascii) : Prop := match l with c :: _ => p c = false | [] => True end.

Lemma span_spec (p : ascii → bool) l : let '(a, b) := span p l in l = a ++ b ∧ Forall p a ∧ stops p b.
Proof.
  induction l as [|c l IH]; [done|]. cbn [span]. destruct (p c) eqn:E; [|done]. destruct (span p l) as [a b]. destruct IH as (-> & H1 & H2).
  split_and!; [done|by constructor; [apply Is_true_true|]|done].
Qed.

Lemma span_all (p : ascii → bool) a b : Forall p a → stops p b → span p (a ++ b) = (a, b).
Proof.
  induction 1 as [|c a Hc _ IH]; intros Hb; cbn [app span].
  - destruct b as [|c b]; [done|]. cbn [span]. by rewrite Hb.
  - apply Is_true_true in Hc. by rewrite Hc, IH.
Qed.

Lemma suffix_letter_not_digit c : is_digit c = true → suffix_letter c = false.
Proof.
  intros H. unfold suffix_letter. apply not_true_is_false. rewrite existsb_exists. intros (x & Hx & E%bool_decide_eq_true). subst x. revert H. cbn in Hx.
  repeat (destruct Hx as [<- | Hx]; [done|]). done.
Qed.

(** A suffix that is not empty starts with a letter, and the scanner takes it whole. *)
Lemma means_scan su b e f : suffix_means su b e f → su ≠ [] →
  scan_suffix su = Some su ∧ stops is_digit su ∧ stops (λ c, bool_decide (c = "."%char)) su.
Proof.
  intros [su' e' H|su' e' H|c sgn es Hc Hs Hd Hne Hb] Hnil.
  - unfold decimal_suffixes in H. rewrite !elem_of_cons in H. by destruct H as [E|[E|[E|[E|[E|[E|[E|[E|[E|[E|[]%not_elem_of_nil]]]]]]]]]]; injection E as -> ->.
  - unfold binary_suffixes in H. rewrite !elem_of_cons in H. by destruct H as [E|[E|[E|[E|[E|[E|[]%not_elem_of_nil]]]]]]; injection E as -> ->.
  - assert (suffix_letter c = true ∧ is_digit c = false ∧ bool_decide (c = "."%char) = false) as (Hl & H1 & H2) by (destruct Hc as [-> | ->]; done).
    split; [|done]. unfold scan_suffix. rewrite (span_all _ [c] (sgn ++ es)).
    2: { by constructor; [apply Is_true_true|]. }
    2: { destruct (digit_or_sign sgn es Hs Hd Hne) as (x & l & -> & [Hx|[-> | ->]]); [by apply suffix_letter_not_digit|done|done]. }
    apply all_digits_spec in Hd as Had. destruct Hs as [-> | [-> | ->]]; cbn [app]; [|rewrite ?(bool_decide_eq_false_2 ("+"%char = "-"%char)), bool_decide_eq_true_2, ?orb_true_r by done; cbn [orb]; by rewrite Had..].
    destruct es as [|x l]; [done|]. apply Forall_cons in Hd as [Hx%Is_true_true _]. destruct (is_digit_not_special x Hx) as [E _]. rewrite orb_comm in E. by rewrite E, Had.
Qed.

Lemma number_SetString sgn ds frac : number_ok sgn ds frac → Z.of_nat (length (fraction frac)) < 2 ^ 31 →
  SetString (number_text sgn ds frac) = Some {| unscaled := signed_digits sgn (ds ++ fraction frac); scale := Z.of_nat (length (fraction frac)) |}.
Proof.
  intros (Hs & Hd & Hf & Hne) Hl. unfold number_text. destruct frac as [fs|]; cbn [point fraction default from_option] in *.
  - by apply SetString_point.
  - rewrite !app_nil_r in *. by rewrite SetString_integer.
Qed.

Lemma scan_sign_spec sgn c l : sign_text sgn → c ≠ "-"%char → c ≠ "+"%char →
  scan_sign (sgn ++ c :: l) = (negb (bool_decide (sgn = ["-"%char])), sgn, c :: l).
Proof.
  intros [-> | [-> | ->]] H1 H2; [|done..]. cbn [app]. unfold scan_sign.
  destruct c as [[] [] [] [] [] [] [] []]; try done; exfalso; (by apply H1) || (by apply H2).
Qed.

Lemma num_zeros zs : Forall (λ c, bool_decide (c = "0"%char)) zs → num zs = 0.
Proof. induction 1 as [|c zs Hc _ IH]; [done|]. apply bool_decide_unpack in Hc as ->. by rewrite num_cons, IH. Qed.

Lemma signed_digits_num sgn l1 l2 : num l1 = num l2 → signed_digits sgn l1 = signed_digits sgn l2.
Proof. unfold signed_digits. by intros ->. Qed.

(** An empty numerator is read as zero. *)
Lemma numerator_spec ds : Forall is_digit ds →
  let n := match ds with [] => ["0"%char] | _ => ds end in
  Forall is_digit n ∧ n ≠ [] ∧ (∀ l, num (n ++ l) = num (ds ++ l)) ∧ (length n ≤ length ds + 1)%nat.
Proof. intros H. destruct ds; cbn zeta; split_and!; try done; [by repeat constructor|cbn; lia]. Qed.

(** What the scanner makes of a number with a suffix: the digits without leading zeros, and
    a string that [inf.Dec] reads as the same number. *)
Definition scans (p : scanned) (sgn ds : list ascii) (frac : option (list ascii)) (su : list ascii) : Prop :=
  positive p = negb (bool_decide (sgn = ["-"%char])) ∧ suffix p = su ∧ denom p = fraction frac ∧
  Forall is_digit (num_ p) ∧ num_ p ≠ [] ∧ num (num_ p ++ denom p) = num (ds ++ fraction frac) ∧ (length (num_ p) ≤ length ds + 1)%nat ∧
  SetString (number p) = Some {| unscaled := signed_digits sgn (ds ++ fraction frac); scale := Z.of_nat (length (fraction frac)) |}.

Lemma scan_numerator_spec sgn zs ds frac su b e f :
  number_ok sgn (zs ++ ds) frac → suffix_means su b e f → Z.of_nat (length (fraction frac)) < 2 ^ 31 →
  Forall (λ c, bool_decide (c = "0"%char)) zs → ds ++ point frac ++ su ≠ [] →
  ∃ p, scan_numerator (sgn ++ (zs ++ ds) ++ point frac ++ su) (negb (bool_decide (sgn = ["-"%char]))) sgn zs (ds ++ point frac ++ su) = Ok p ∧
    scans p sgn (zs ++ ds) frac su.
Proof.
  intros Hok Hm Hl Hz Hne. pose proof (number_SetString _ _ _ Hok Hl) as HS. destruct Hok as (Hs & Hd & Hf & _). apply Forall_app in Hd as [_ Hd].
  assert (stops is_digit (point frac ++ su)) as HR. { destruct frac as [fs|]; [done|]. destruct su; [done|]. by apply (means_scan _ _ _ _ Hm). }
  assert (∀ l, num ((zs ++ ds) ++ l) = num (ds ++ l)) as Hnz by (intros l0; rewrite <-app_assoc, num_app, num_zeros by done; lia).
  destruct (numerator_spec ds Hd) as (N1 & N2 & N3 & N4). assert (length ds ≤ length (zs ++ ds))%nat by (rewrite length_app; lia).
  unfold scan_numerator. rewrite span_all by done. unfold number_text in HS. destruct frac as [fs|]; cbn [point fraction default from_option app] in *.
  - rewrite bool_decide_eq_true_2 by done. destruct su as [|c su'].
    + rewrite span_all by done. eexists. split; [done|]. unfold scans; cbn [positive suffix denom num_ number fraction default from_option].
      rewrite N3, Hnz, app_nil_r. split_and!; (done || lia).
    + destruct (means_scan _ _ _ _ Hm ltac:(done)) as (Es & H1 & H2). rewrite span_all, Es by done. eexists. split; [done|].
      unfold scans; cbn [positive suffix denom num_ number fraction default from_option]. rewrite N3, Hnz. rewrite <-app_assoc in HS. split_and!; (done || lia).
  - destruct su as [|c su'].
    + eexists. split; [done|]. unfold scans; cbn [positive suffix denom num_ number fraction default from_option length] in *.
      pose proof (Hnz []) as Hn0. rewrite !app_nil_r in *. split_and!; (done || lia).
    + destruct (means_scan _ _ _ _ Hm ltac:(done)) as (Es & H1 & H2). cbn in H2. rewrite H2, Es. eexists. split; [done|].
      unfold scans; cbn [positive suffix denom num_ number fraction default from_option length] in *. 
      pose proof (Hnz []) as Hn0. pose proof (N3 []) as Hn1. rewrite !app_nil_r in *. split_and!; (done || congruence || lia).
Qed.

Lemma parseQuantityString_spec sgn ds frac su b e f :
  number_ok sgn ds frac → suffix_means su b e f → Z.of_nat (length (fraction frac)) < 2 ^ 31 →
  ∃ p, parseQuantityString (number_text sgn ds frac ++ su) = Ok p ∧ scans p sgn ds frac su.
Proof.
  intros Hok Hm Hl. pose proof Hok as (Hs & Hd & Hf & Hne). unfold parseQuantityString.
  assert (∃ c l, ds ++ point frac ++ su = c :: l ∧ c ≠ "-"%char ∧ c ≠ "+"%char) as (c & l & Ecl & Hc1 & Hc2).
  { destruct ds as [|c l]; [|apply Forall_cons in Hd as [Hc%Is_true_true _]; eexists _, _; split_and!; [done|by apply digit_not..]].
    destruct frac as [fs|]; [|done]. by eexists _, _. }
  unfold number_text. rewrite <-!app_assoc, Ecl, scan_sign_spec by done. rewrite <-Ecl.
  pose proof (span_spec (λ c, bool_decide (c = "0"%char)) ds) as Hsp. destruct (span _ ds) as [zs ds'] eqn:Esp. destruct Hsp as (Eds & Hz & Hst).
  subst ds. rewrite <-(app_assoc zs), span_all; [|done|].
  2: { destruct ds' as [|c' ?]; [|done]. destruct frac as [fs|]; [done|]. destruct su as [|c' su']; [done|].
       destruct (means_scan _ _ _ _ Hm ltac:(done)) as (_ & H1 & _). cbn in H1 |- *. apply bool_decide_eq_false. intros ->. done. }
  destruct (decide (ds' ++ point frac ++ su = [])) as [E0|E0].
  - apply app_eq_nil in E0 as [-> [E1 ->]%app_eq_nil]. destruct frac; [done|]. cbn [app point fraction default from_option length] in *.
    eexists. split; [done|]. unfold scans. cbn [positive suffix denom num_ number fraction default from_option length]. rewrite !app_nil_r, (num_zeros zs) by done.
    split_and!; try done; [by repeat constructor|cbn; lia|]. unfold signed_digits. rewrite num_zeros by done. by case_bool_decide.
  - destruct (scan_numerator_spec sgn zs ds' frac su b e f) as (p & E & Hp); [done..|]. exists p. rewrite <-!app_assoc in E. by destruct (ds' ++ point frac ++ su).
Qed.

(** ** The number a string denotes *)
Definition phrase_value (sgn ds : list ascii) (frac : option (list ascii)) (b e : Z) : Q := (number_value sgn ds frac * inject_Z b ^ e)%Q.

(** The greatest magnitude of a binary quantity, in nano units. *)
Definition max_nanos : Z := (2 ^ 63 - 1) * 10 ^ 9.

Definition capped (f : Format) (n : Z) : Z := match f with BinarySI => Z.sgn n * Z.min (Z.abs n) max_nanos | _ => n end.

(** What parsing a number gives: the number in nano units, rounded away from zero, and capped if
    its suffix is binary. *)
Definition parses_to (r : option (res parse_error Quantity)) (f : Format) (v : Q) : Prop :=
  ∃ q n, r = Some (Ok q) ∧ rounds RoundUp (v * pow10 9) n ∧ represents q (dec (capped f n) (-9)).

Lemma means_bounds su b e f : suffix_means su b e f →
  (b = 10 ∧ Z.abs e < 2 ^ 29 + 10 ∧ f ≠ BinarySI ∧ (f = DecimalSI ∨ f = DecimalExponent)) ∨ (b = 2 ∧ f = BinarySI ∧ e ∈ [10; 20; 30; 40; 50; 60]).
Proof.
  intros [su' e' H|su' e' H|c sgn es _ _ _ _ Hb]; [left|right|left; split_and!; auto].
  - unfold decimal_suffixes in H. rewrite !elem_of_cons in H. destruct H as [E|[E|[E|[E|[E|[E|[E|[E|[E|[E|[]%not_elem_of_nil]]]]]]]]]]; injection E as -> ->; split_and!; auto; lia.
  - unfold binary_suffixes in H. rewrite !elem_of_cons in H. destruct H as [E|[E|[E|[E|[E|[E|[]%not_elem_of_nil]]]]]]; injection E as -> ->; split_and!; try done; set_solver.
Qed.

Lemma roundup_opp q n : rounds RoundUp q n → rounds RoundUp (- q) (- n).
Proof. intros (H1 & H2 & H3). cbn [rounds]. rewrite inject_Z_opp, !Qabs_opp. split_and!; [lra|done|done]. Qed.

Lemma roundup_nonneg q n : (0 <= q)%Q → rounds RoundUp q n → 0 ≤ n.
Proof.
  intros Hq (H1 & H2 & H3). destruct (Z.le_gt_cases 0 n) as [|Hn]; [done|]. exfalso. assert (inject_Z n <= -1)%Q as Hn' by (change (-1)%Q with (inject_Z (-1)); rewrite <-Zle_Qle; lia).
  rewrite (Qabs_pos q) in * by done. rewrite (Qabs_neg (inject_Z n)) in * by lra. assert (q == 0 ∨ 0 < q)%Q as [E|E] by (destruct (Qlt_le_dec 0 q); [right|left]; lra).
  - lra.
  - nra.
Qed.

Lemma capped_opp f n : capped f (- n) = - capped f n.
Proof. destruct f; cbn [capped]; lia. Qed.

Lemma apply_suffix_spec sgn ds frac su b e f : suffix_means su b e f → Z.of_nat (length (fraction frac)) < 2 ^ 28 →
  let a := apply_suffix {| unscaled := signed_digits sgn (ds ++ fraction frac); scale := Z.of_nat (length (fraction frac)) |} b e in
  (dval a == phrase_value sgn ds frac b e)%Q ∧ Z.abs (scale a) < 2 ^ 30.
Proof.
  intros Hm Hl. unfold apply_suffix, phrase_value, number_value. set (L := Z.of_nat _) in *. set (U := signed_digits _ _).
  destruct (means_bounds _ _ _ _ Hm) as [(-> & He & _)|(-> & _ & He)].
  - cbn [Z.eqb Pos.eqb]. unfold infScale. cbn [scale]. rewrite (i32_id (- e)), i32_id by (unfold in_i32; lia). unfold dval, SetScale. cbn [unscaled scale]. split; [|lia].
    change (inject_Z 10 ^ e)%Q with (pow10 e). unfold dec. rewrite <-Qmult_assoc, <-pow10_add. by replace (- (L + - e)) with (- L + e) by lia.
  - cbn [Z.eqb Pos.eqb]. unfold dval, SetUnscaledBig. cbn [unscaled scale]. split; [|lia]. assert (0 ≤ e) as He0 by (rewrite !elem_of_cons in He; lia || (destruct He as [->|[->|[->|[->|[->|[->|[]%not_elem_of_nil]]]]]]; lia)).
    rewrite Z.shiftl_mul_pow2, Z.mul_1_l, <-Zpower_Qpower by done. unfold dec. rewrite inject_Z_mult. ring.
Qed.

Lemma round_nano_spec x : Z.abs (scale x) < 2 ^ 30 → 0 ≤ unscaled x →
  ∃ z n, round_nano x = Some z ∧ Z.abs (scale z) < 2 ^ 30 ∧ 0 ≤ n ∧ rounds RoundUp (dval x * pow10 9) n ∧ (dval z == dec n (-9))%Q.
Proof.
  intros Hs Hu. unfold round_nano, Unscaled. destruct (decide (unscaled x = 0)) as [E|E].
  - rewrite E. change (negb _ || negb _) with false. cbv iota. exists x, 0. assert (dval x == 0)%Q as E0 by (unfold dval; by rewrite E, dec_0). do 3 (split; [done|]). split; [|by rewrite E0, dec_0].
    rewrite E0, Qmult_0_l. apply (rounds_integer 0).
  - assert (negb (i64 (unscaled x) =? 0) || negb (bool_decide (i64 (unscaled x) = unscaled x)) = true) as ->.
    { destruct (Z.eqb_spec (i64 (unscaled x)) 0) as [E'|E']; [|done]. rewrite bool_decide_eq_false_2; [done|congruence]. }
    change (infScale Nano) with 9. destruct (Round_rounds x 9 RoundUp) as ([z|] & -> & Hz); [unfold in_i32; lia|unfold near; lia| |by destruct Hz].
    destruct Hz as [Ez Hr]. cbn [mbind option_bind]. exists z, (unscaled z). split; [done|]. split; [lia|]. split; [|split; [done|]].
    + eapply roundup_nonneg; [|done]. pose proof (pow10_pos 9). assert (0 <= dval x)%Q by by apply dec_nonneg. nra.
    + unfold dval. by rewrite Ez.
Qed.

Lemma cap_amount_spec x n f : Z.abs (scale x) < 2 ^ 30 → 0 ≤ n → (dval x == dec n (-9))%Q →
  ∃ z f', cap_amount x f = Some (z, f') ∧ Z.abs (scale z) < 2 ^ 30 ∧ (dval z == dec (capped f n) (-9))%Q.
Proof.
  intros Hs Hn Hx. unfold cap_amount. case_bool_decide as Ef.
  2: { exists x, f. split_and!; [done|done|]. rewrite Hx. by destruct f. }
  subst f. rewrite Cmp_exact by (apply near_small; [done|cbn; lia]). cbn [mbind option_bind].
  assert (dval maxAllowed == dec max_nanos (-9))%Q as Em by done.
  assert ((dval x ?= dval maxAllowed)%Q = (n ?= max_nanos)) as -> by (by rewrite Em, Hx, dec_compare).
  set (y := if 0 <? cmp_int (n ?= max_nanos) then Set_ x maxAllowed else x).
  assert (Z.abs (scale y) < 2 ^ 30 ∧ (dval y == dec (capped BinarySI n) (-9))%Q) as [Sy Vy].
  { subst y. cbn [capped]. destruct (Z.compare_spec n max_nanos); cbn [cmp_int Z.ltb Z.compare].
    - split; [done|]. rewrite Hx. apply dec_inj. lia.
    - split; [done|]. rewrite Hx. apply dec_inj. lia.
    - split; [done|]. unfold Set_. transitivity (dval maxAllowed); [done|]. rewrite Em. apply dec_inj. unfold max_nanos in *. lia. }
  rewrite (Cmp_exact y decOne) by (by apply near_small). cbn [mbind option_bind]. destruct (cmp_int (dval y ?= dval decOne)%Q <? 0); [|exists y, BinarySI; split_and!; done].
  rewrite (Cmp_exact y decZero) by (by apply near_small). cbn [mbind option_bind]. eexists y, _. split_and!; done.
Qed.

Lemma parse_decimal_exact p sgn ds frac su b e f : scans p sgn ds frac su → suffix_means su b e f → Z.of_nat (length (fraction frac)) < 2 ^ 28 →
  parses_to (parse_decimal p b e f) f (phrase_value sgn ds frac b e).
Proof.
  intros (_ & _ & _ & _ & _ & _ & _ & HS) Hm Hl. unfold parse_decimal. rewrite HS.
  destruct (apply_suffix_spec sgn ds frac su b e f Hm Hl) as [Va Sa]. set (a := apply_suffix _ b e) in *. set (v := phrase_value _ _ _ _ _) in *.
  set (a' := if Sign a =? -1 then Neg a else a). set (neg := Sign a =? -1) in *.
  assert (Z.abs (scale a') < 2 ^ 30 ∧ 0 ≤ unscaled a' ∧ (dval a' == if neg then - v else v)%Q) as (Sa' & Ua' & Va').
  { subst a' neg. unfold Sign. destruct (Z.eqb_spec (Z.sgn (unscaled a)) (-1)) as [E|E]; cbn [Neg scale unscaled].
    - split_and!; [done|lia|]. by rewrite Neg_exact, Va.
    - split_and!; [done| |done]. lia. }
  destruct (round_nano_spec a' Sa' Ua') as (z & n & -> & Sz & Hn & Hr & Vz). cbn [mbind option_bind].
  destruct (cap_amount_spec z n f Sz Hn Vz) as (y & f' & -> & Sy & Vy). cbn [mbind option_bind].
  eexists _, (if neg then - n else n). split; [done|]. rewrite Va' in Hr. destruct neg.
  - split.
    + apply roundup_opp in Hr. assert (v * pow10 9 == - (- v * pow10 9))%Q as -> by ring. done.
    + split; [done|]. unfold qval. cbn [d]. by rewrite Neg_exact, Vy, capped_opp, dec_opp.
  - by split.
Qed.

Lemma capped_small f n : Z.abs n ≤ max_nanos ∨ f ≠ BinarySI → capped f n = n.
Proof. intros H. destruct f; cbn [capped]; try done. destruct H; [lia|done]. Qed.

(** The fast path is taken only for numbers that it represents exactly. *)
Definition fast_fits (p : scanned) (b e sc mantissa : Z) (sgn ds : list ascii) (frac : option (list ascii)) : Prop :=
  num (num_ p ++ denom p) < 10 ^ 18 ∧ 0 < mantissa ∧ in_i64 mantissa ∧ Z.abs sc < 2 ^ 30 ∧
  (phrase_value sgn ds frac b e == dec (signed_digits sgn (ds ++ fraction frac) * mantissa) sc)%Q.

Lemma num_short l : Forall is_digit l → Z.of_nat (length l) ≤ 18 → num l < 10 ^ 18.
Proof. intros Hd Hl. pose proof (num_range l Hd). assert (10 ^ Z.of_nat (length l) ≤ 10 ^ 18) by (apply Z.pow_le_mono_r; lia). lia. Qed.

Lemma fast_path_spec p sgn ds frac su b e f sc mantissa precision :
  scans p sgn ds frac su → suffix_means su b e f → Forall is_digit (fraction frac) → Z.of_nat (length ds + length (fraction frac)) < 2 ^ 28 →
  fast_path p e f = (sc, mantissa, precision) → 0 ≤ precision →
  fast_fits p b e (i32 (sc - i32 (Z.of_nat (length (denom p))))) mantissa sgn ds frac.
Proof.
  intros (_ & _ & Ed & Hn & Hne & En & Hln & _) Hm Hfd Hl Hfp Hp. unfold fast_fits, phrase_value, number_value. rewrite Ed in *.
  set (L := length (fraction frac)) in *. set (U := signed_digits sgn _). assert (Forall is_digit (num_ p ++ fraction frac)) as Hd by (by apply Forall_app).
  rewrite (i32_id (Z.of_nat L)) by (unfold in_i32; lia).
  destruct (means_bounds _ _ _ _ Hm) as [(-> & He & Hf1 & Hf2)|(-> & -> & He)].
  - assert (sc = e ∧ mantissa = 1 ∧ precision = 18 - Z.of_nat (length (num_ p) + L)) as (-> & -> & ->).
    { unfold fast_path, maxInt64Factors in Hfp. rewrite Ed in Hfp. fold L in Hfp. rewrite (i32_id (Z.of_nat _)), i32_id in Hfp by (unfold in_i32; lia).
      destruct Hf2 as [-> | ->]; by injection Hfp as <- <- <-. }
    rewrite i32_id by (unfold in_i32; lia). split_and!; [apply num_short; [done|rewrite length_app; lia]|lia|done|lia|].
    change (inject_Z 10 ^ e)%Q with (pow10 e). unfold dec. rewrite Z.mul_1_r, <-Qmult_assoc, <-pow10_add. by replace (- Z.of_nat L + e) with (e - Z.of_nat L) by lia.
  - unfold fast_path in Hfp. rewrite Ed in Hfp. fold L in Hfp. case_bool_decide as HL; [|rewrite andb_false_r in Hfp; injection Hfp as <- <- <-; lia].
    assert (10 ≤ e ≤ 60) as He' by (rewrite !elem_of_cons in He; destruct He as [->|[->|[->|[->|[->|[->|[]%not_elem_of_nil]]]]]]; lia).
    assert (0 ≤ Z.quot (e * 3) 10 ≤ 18) as Hq by (rewrite Z.quot_div_nonneg by lia; split; [apply Z.div_pos; lia|apply Z.div_le_upper_bound; lia]).
    destruct (Z.leb_spec 0 e); [|lia]. cbn [andb] in Hfp. injection Hfp as <- <- <-. rewrite HL. rewrite Z.shiftl_mul_pow2, Z.mul_1_l by lia.
    assert (in_i64 (2 ^ e)) as Hi by (unfold in_i64; assert (2 ^ e ≤ 2 ^ 60) by (apply Z.pow_le_mono_r; lia); assert (0 < 2 ^ e) by (apply Z.pow_pos_nonneg; lia); lia).
    rewrite (i64_id (2 ^ e)) by done. rewrite (i32_id (Z.of_nat _)) in Hp by (unfold in_i32; lia). rewrite (i32_id (15 - _)) in Hp by (unfold in_i32; lia).
    rewrite (i32_id (15 - _ - _)) in Hp by (unfold in_i32; lia). rewrite i32_id in Hp by (unfold in_i32; lia).
    split_and!; [apply num_short; [done|rewrite length_app; fold L; lia]|apply Z.pow_pos_nonneg; lia|done|done|].
    rewrite <-Zpower_Qpower by lia. change (- Z.of_nat 0) with 0. rewrite (i32_id (0 - Z.of_nat 0)) by done. unfold dec. rewrite inject_Z_mult. change (0 - Z.of_nat 0) with 0. ring.
Qed.

Lemma signed_digits_abs sgn l : Forall is_digit l → Z.abs (signed_digits sgn l) = num l ∧ (signed_digits sgn l = if bool_decide (sgn = ["-"%char]) then - num l else num l).
Proof. intros H. pose proof (num_range l H). unfold signed_digits. case_bool_decide; split; (done || lia). Qed.

(** What the fast path makes of a number that fits. *)
Lemma fast_exact p sgn ds frac su b e f sc mantissa str fmt :
  scans p sgn ds frac su → number_ok sgn ds frac → fast_fits p b e sc mantissa sgn ds frac → Nano ≤ sc → (f = BinarySI → sc = 0) →
  in_i64 (num (num_ p ++ denom p) * mantissa) →
  let r := num (num_ p ++ denom p) * mantissa in
  let r := if positive p then r else i64 (- r) in
  parses_to (Some (Ok {| i := {| value := r; exp := sc |}; d := None; s := str; format := fmt |})) f (phrase_value sgn ds frac b e).
Proof.
  intros (Hpos & _ & Ed & _ & _ & En & _) (_ & Hd1 & Hd2 & _) (Hlt & Hm & Hmi & Hs & Hv) Hsc Hbin Hi. cbn zeta. unfold Nano in Hsc.
  assert (Forall is_digit (ds ++ fraction frac)) as Hd by (by apply Forall_app). destruct (signed_digits_abs sgn _ Hd) as [Habs Hsd].
  rewrite En in *. set (N := num (ds ++ fraction frac)) in *. pose proof (num_range _ Hd) as HN. fold N in HN.
  assert ((if positive p then N * mantissa else i64 (- (N * mantissa))) = signed_digits sgn (ds ++ fraction frac) * mantissa) as ->.
  { rewrite Hsd, Hpos. case_bool_decide; cbn [negb]; [|done]. rewrite i64_id; [lia|]. unfold in_i64 in *. nia. }
  set (W := signed_digits sgn (ds ++ fraction frac) * mantissa) in *. assert (Z.abs W = N * mantissa) as HW by (subst W; rewrite Z.abs_mul, Habs, (Z.abs_eq mantissa); lia).
  assert (dec (W * 10 ^ (sc + 9)) (-9) == phrase_value sgn ds frac b e)%Q as Hn. { rewrite Hv, (dec_at W sc (-9)) by lia. by replace (sc - -9) with (sc + 9) by lia. }
  eexists _, (W * 10 ^ (sc + 9)). split; [done|]. split.
  - rewrite <-Hn. unfold dec. rewrite <-Qmult_assoc, <-pow10_add. change (pow10 (-9 + 9)) with 1%Q. rewrite Qmult_1_r. apply rounds_integer.
  - rewrite capped_small.
    + split; [split; [|done]|]; [cbn; unfold in_i64 in *; lia|]. unfold qval. cbn. rewrite Hn, Hv. done.
    + destruct (decide (f = BinarySI)) as [Ef|Ef]; [left|by right]. rewrite (Hbin Ef). rewrite Z.abs_mul. change (Z.abs (10 ^ (0 + 9))) with (10 ^ 9).
      unfold max_nanos, in_i64 in *. nia.
Qed.

(** The string "0" is read without the scanner. *)
Lemma zero_phrase sgn ds frac su b e f : number_ok sgn ds frac → suffix_means su b e f → number_text sgn ds frac ++ su = ["0"%char] →
  (phrase_value sgn ds frac b e == 0)%Q.
Proof.
  intros (Hs & Hd & Hf & Hne) Hm E. unfold number_text in E. rewrite <-!app_assoc in E.
  assert (ds = ["0"%char] ∧ frac = None) as [-> ->].
  { destruct Hs as [-> | [-> | ->]]; cbn [app] in E; [|done..]. destruct ds as [|c ds].
    - destruct frac; cbn in *; [by injection E|done].
    - injection E as -> E. apply app_eq_nil in E as [-> [E _]%app_eq_nil]. by destruct frac. }
  unfold phrase_value, number_value. cbn [fraction default from_option app]. replace (signed_digits sgn ["0"%char]) with 0 by (unfold signed_digits; by case_bool_decide).
  rewrite dec_0. ring.
Qed.

Lemma ParseQuantity_exact sgn ds frac su b e f :
  number_ok sgn ds frac → suffix_means su b e f → Z.of_nat (length ds + length (fraction frac)) < 2 ^ 28 →
  parses_to (ParseQuantity (number_text sgn ds frac ++ su)) f (phrase_value sgn ds frac b e).
Proof.
  intros Hok Hm Hl. set (str := number_text sgn ds frac ++ su). unfold ParseQuantity.
  assert (str ≠ []) as Hnil.
  { destruct Hok as (_ & _ & _ & Hne). subst str. unfold number_text. intros [[_ [-> Hp]%app_eq_nil]%app_eq_nil _]%app_eq_nil. by destruct frac. }
  rewrite bool_decide_eq_false_2 by (by destruct str). case_bool_decide as E0.
  { exists {| i := Zero; d := None; s := str; format := DecimalSI |}, 0. rewrite (zero_phrase sgn ds frac su b e f Hok Hm E0), Qmult_0_l. split; [done|].
    split; [apply (rounds_integer 0)|]. replace (capped f 0) with 0 by (by destruct f). split; [done|]. unfold qval, aval. cbn [d i value exp]. by rewrite !dec_0. }
  destruct (parseQuantityString_spec sgn ds frac su b e f Hok Hm) as (p & Hp & Hsc); [lia|]. fold str in Hp. rewrite Hp.
  pose proof Hsc as (Hpos & -> & Hden & Hdig & Hne & Hnum & Hlen & _). rewrite (means_interpret _ _ _ _ Hm).
  destruct (fast_path p e f) as [[sc mantissa] precision] eqn:Efp. pose proof (parse_decimal_exact p sgn ds frac su b e f Hsc Hm ltac:(lia)) as Hdec.
  destruct (Z.leb_spec 0 precision) as [Hpr|Hpr]; cbn [andb]; [|done]. destruct (Z.leb_spec Nano (i32 (sc - i32 (Z.of_nat (length (denom p)))))) as [Hn|Hn]; [|done].
  assert (Forall is_digit (denom p)) as Hdd by (rewrite Hden; by destruct Hok as (_ & _ & ? & _)).
  pose proof (fast_path_spec p sgn ds frac su b e f sc mantissa precision Hsc Hm ltac:(by rewrite <-Hden) Hl Efp Hpr) as Hfit.
  assert (Forall is_digit (num_ p ++ denom p)) as Hd by (by apply Forall_app). pose proof (num_range _ Hd) as HN. pose proof Hfit as (Hlt & Hm0 & Hmi & _).
  assert (in_i64 (num (num_ p ++ denom p))) as HNi by (unfold in_i64; change (10 ^ 18) with 1000000000000000000 in Hlt; lia).
  unfold ParseInt. rewrite big_SetString_digits by (done || by destruct (num_ p)). rewrite bool_decide_eq_true_2 by done.
  destruct (int64Multiply_checked _ _ HNi Hmi) as [H1 H2]. destruct (int64Multiply _ _) as [r []]; cbn [fst snd] in *; [|done]. rewrite H2 by done.
  eapply fast_exact; [done..| |by apply H1]. intros ->. unfold fast_path in Efp. destruct (means_bounds _ _ _ _ Hm) as [(_ & _ & ? & _)|(_ & _ & _)]; [done|].
  case_bool_decide as EL; [|rewrite andb_false_r in Efp; injection Efp as <- <- <-; lia]. rewrite EL. destruct (_ && _); by injection Efp as <- <- <-.
Qed.

(** ** Printing *)
Lemma length_digits n : 0 ≤ n → Z.of_nat (length (digits n)) ≤ Z.log2 n + 1.
Proof.
  intros Hn. destruct (digits_spec n Hn) as (_ & _ & Hne & Hb & Hz). destruct (decide (n = 0)) as [->|H0]; [by rewrite Hz|]. specialize (Hb H0).
  assert (0 < Z.of_nat (length (digits n))) as Hl by (destruct (digits n); [done|cbn; lia]). set (k := Z.of_nat _) in *.
  replace k with (k - 1 + 1) in Hb by lia. rewrite Z.pow_add_r in Hb by lia. enough (k - 1 ≤ Z.log2 n) by lia. apply Z.log2_le_pow2; [lia|].
  assert (2 ^ (k - 1) ≤ 10 ^ (k - 1)) by (apply Z.pow_le_mono_l; lia). lia.
Qed.

Lemma print_int_number m : number_ok (sign_of (m <? 0)) (digits (Z.abs m)) None ∧ print_int m = number_text (sign_of (m <? 0)) (digits (Z.abs m)) None ∧
  (number_value (sign_of (m <? 0)) (digits (Z.abs m)) None == dec m 0)%Q.
Proof.
  destruct (digits_spec (Z.abs m)) as (Hn & Hd & Hne & _); [lia|]. split_and!.
  - split_and!; [apply sign_of_cases|done|constructor|cbn; by rewrite app_nil_r].
  - rewrite print_int_sign. unfold number_text. cbn. by rewrite app_nil_r.
  - unfold number_value. cbn [fraction default from_option length]. by rewrite app_nil_r, signed_digits_sign, Hn, signed_abs.
Qed.

(** Parsing a printed integer with a suffix, where the result needs no rounding. *)
Lemma parse_printed m su b e f v n : suffix_means su b e f → Z.log2 (Z.abs m) < 2 ^ 28 - 1 → (dec m 0 * inject_Z b ^ e == v)%Q → (v == dec n (-9))%Q →
  Z.abs n ≤ max_nanos ∨ f ≠ BinarySI → ∃ q, ParseQuantity (print_int m ++ su) = Some (Ok q) ∧ represents q v.
Proof.
  intros Hm Hl Hv Hn Hc. destruct (print_int_number m) as (Hok & -> & Hval). pose proof (length_digits (Z.abs m)).
  destruct (ParseQuantity_exact _ _ _ su b e f Hok Hm) as (q & n' & -> & Hr & Hq); [change (length (fraction None)) with 0%nat; lia|]. exists q. split; [done|].
  unfold phrase_value in Hr. rewrite Hval, Hv, Hn in Hr. unfold dec in Hr. rewrite <-Qmult_assoc, <-pow10_add in Hr. change (pow10 (-9 + 9)) with 1%Q in Hr.
  rewrite Qmult_1_r in Hr. apply roundup_integer in Hr as ->. rewrite capped_small in Hq by done. by rewrite Hn.
Qed.

Lemma decimal_suffix_of e : Z.rem e 3 = 0 → -9 ≤ e ≤ 18 → ∃ su, constructBytes 10 e DecimalSI = Some (chars su) ∧ (su, e) ∈ decimal_suffixes.
Proof.
  intros H3 He. apply Z.rem_divide in H3 as [k ->]; [|done]. assert (k = -3 ∨ k = -2 ∨ k = -1 ∨ k = 0 ∨ k = 1 ∨ k = 2 ∨ k = 3 ∨ k = 4 ∨ k = 5 ∨ k = 6) as Hk by lia.
  unfold decimal_suffixes. destruct Hk as [->|[->|[->|[->|[->|[->|[->|[->|[->| ->]]]]]]]]]; eexists; (split; [reflexivity|rewrite !elem_of_cons; tauto]).
Qed.

Lemma binary_suffix_of k : 1 ≤ k ≤ 6 → ∃ su, constructBytes 2 (i32 (k * 10)) BinarySI = Some (chars su) ∧ (su, k * 10) ∈ binary_suffixes.
Proof.
  intros Hk. assert (k = 1 ∨ k = 2 ∨ k = 3 ∨ k = 4 ∨ k = 5 ∨ k = 6) as [->|[->|[->|[->|[->| ->]]]]] by lia; eexists; (split; [reflexivity|unfold binary_suffixes; rewrite !elem_of_cons; tauto]).
Qed.

Lemma exponent_suffix_of e : e ≠ 0 → Z.abs e < 2 ^ 29 + 10 → suffix_means ("e"%char :: print_int e) 10 e DecimalExponent.
Proof.
  intros H0 He. destruct (digits_spec (Z.abs e)) as (Hn & Hd & Hne & _); [lia|]. rewrite print_int_sign.
  pose proof (means_exponent "e"%char (sign_of (e <? 0)) (digits (Z.abs e))) as H. rewrite signed_digits_sign, Hn, signed_abs in H. apply H; auto. apply sign_of_cases.
Qed.

(** The exponents that the decimal suffixes have. *)
Lemma canonical_exponent_low m e v n : canonical m e v → (v == dec n (-9))%Q → -9 ≤ e.
Proof.
  intros (Hv & H3 & Hm) Hn. destruct (Z.le_gt_cases (-9) e) as [|Hlt]; [done|]. exfalso. apply Hm. apply Z.rem_divide in H3 as [k ->]; [|done].
  rewrite Hv, (dec_at n (-9) (k * 3)), dec_inj in Hn by lia. rewrite Hn. replace (-9 - k * 3) with ((-4 - k) * 3 + 3) by lia.
  rewrite Z.pow_add_r by lia. change (10 ^ 3) with 1000. exists (n * 10 ^ ((-4 - k) * 3)). ring.
Qed.

Lemma canonical_exponent_high m e v : canonical m e v → (∀ k, ¬ (v == dec k 21)%Q) → e ≤ 18.
Proof.
  intros (Hv & H3 & Hm) Hk. destruct (Z.le_gt_cases e 18) as [|Hgt]; [done|]. exfalso. apply Z.rem_divide in H3 as [k ->]; [|done].
  apply (Hk (m * 10 ^ (k * 3 - 21))). by rewrite Hv, (dec_at m (k * 3) 21) by lia.
Qed.

Definition q_small (q : Quantity) : Prop := match d q with Some x => dec_small x | None => amt_wf (i q) ∧ Z.abs (exp (i q)) < 2 ^ 28 end.

Lemma q_AsCanonicalBytes_spec q v : q_small q → (qval q == v)%Q → ¬ (v == 0)%Q →
  ∃ m e, q_AsCanonicalBytes q [] = Some (print_int m, e) ∧ canonical m e v ∧ small_form m e.
Proof.
  intros Hs Hv H0. unfold q_small, qval, q_AsCanonicalBytes in *. destruct (d q) as [x|].
  - destruct (dec_AsCanonicalBytes_spec x []) as (m & e & E & Hc & Hf); [done|intros E; apply H0; rewrite <-Hv; unfold dval; by rewrite E, dec_0|].
    exists m, e. unfold canonical in *. by rewrite <-Hv.
  - destruct Hs as [Ha He]. destruct (amt_AsCanonicalBytes_spec (i q) []) as (m & e & E & Hc & Hf); [done|done|intros E; apply H0; rewrite <-Hv; unfold aval; by rewrite E, dec_0|].
    exists m, e. unfold canonical in *. by rewrite <-Hv.
Qed.

(** The numbers whose decimal form has a suffix, and is not rounded when parsed. *)
Definition decimal_ok (f : Format) (v : Q) : Prop := (∃ n, v == dec n (-9))%Q ∧ (f = DecimalSI → ∀ k, ¬ (v == dec k 21)%Q).

Lemma decimal_form_parses m e f v : f = DecimalSI ∨ f = DecimalExponent → canonical m e v → small_form m e → decimal_ok f v →
  ∃ q, ParseQuantity (print_int m ++ default [] (constructBytes 10 e f)) = Some (Ok q) ∧ represents q v.
Proof.
  intros Hf Hc [Hl He] [[n Hn] Hk]. pose proof (canonical_exponent_low _ _ _ _ Hc Hn) as Hlow. pose proof Hc as (Hv & H3 & _).
  assert (dec m 0 * inject_Z 10 ^ e == v)%Q as Hval by (rewrite Hv; unfold dec; change (inject_Z 10 ^ e)%Q with (pow10 e); change (pow10 0) with 1%Q; ring).
  destruct Hf as [-> | ->].
  - destruct (decimal_suffix_of e H3) as (su & -> & Hin); [split; [done|by eapply canonical_exponent_high; [|apply Hk]]|]. cbn [default from_option].
    eapply parse_printed; [by apply means_decimal|lia|done|done|by right].
  - cbn [constructBytes negb Z.eqb Pos.eqb]. destruct (Z.eqb_spec e 0) as [->|E0]; cbn [default from_option].
    + eapply (parse_printed m [] 10 0 DecimalSI); [apply (means_decimal "" 0); unfold decimal_suffixes; rewrite !elem_of_cons; tauto|lia|done|done|by right].
    + eapply parse_printed; [by apply exponent_suffix_of|lia|done|done|by right].
Qed.

Lemma binary_form_parses m k V : V = m * 1024 ^ k → 0 ≤ k → V ≠ 0 → Z.abs V < 2 ^ 63 →
  ∃ q, ParseQuantity (print_int m ++ default [] (constructBytes 2 (i32 (k * 10)) BinarySI)) = Some (Ok q) ∧ represents q (inject_Z V).
Proof.
  intros EV Hk H0 HV. assert (0 < 1024 ^ k) by (apply Z.pow_pos_nonneg; lia). assert (m ≠ 0) by (intros ->; lia).
  assert (Z.abs m * 1024 ^ k < 2 ^ 63) as Hb by (rewrite EV, Z.abs_mul, (Z.abs_eq (1024 ^ k)) in HV; lia).
  assert (k ≤ 6) as Hk6. { destruct (Z.le_gt_cases k 6) as [|Hgt]; [done|]. assert (1024 ^ 7 ≤ 1024 ^ k) by (apply Z.pow_le_mono_r; lia). change (1024 ^ 7) with (2 ^ 70) in *. nia. }
  assert (Z.log2 (Z.abs m) ≤ Z.log2 (2 ^ 63)) as Hl by (apply Z.log2_le_mono; nia). change (Z.log2 (2 ^ 63)) with 63 in Hl.
  assert (inject_Z V == dec (V * 10 ^ 9) (-9))%Q as Hn. { rewrite <-dec_Z. by rewrite (dec_at V 0 (-9)) by lia. }
  destruct (decide (k = 0)) as [->|Hk0].
  - change (default [] (constructBytes 2 (i32 (0 * 10)) BinarySI)) with (@nil ascii).
    eapply (parse_printed m [] 10 0 DecimalSI); [apply (means_decimal "" 0); unfold decimal_suffixes; rewrite !elem_of_cons; tauto|lia| |done|by right].
    rewrite EV, Z.pow_0_r, Z.mul_1_r, dec_Z. cbn. ring.
  - destruct (binary_suffix_of k) as (su & -> & Hin); [lia|]. cbn [default from_option]. eapply parse_printed; [by apply means_binary|lia| |done|left; unfold max_nanos; lia].
    rewrite EV, dec_Z, <-Zpower_Qpower, <-inject_Z_mult by lia. change 1024 with (2 ^ 10). rewrite <-Z.pow_mul_r by lia. by replace (10 * k) with (k * 10) by lia.
Qed.

(** The numbers that can be printed in a format. *)
Definition printable (f : Format) (v : Q) : Prop :=
  (∃ n, v == dec n (-9))%Q ∧ (f = DecimalSI → (v == 0)%Q ∨ ∀ k, ¬ (v == dec k 21)%Q) ∧ (f = BinarySI → (Qabs v <= inject_Z (2 ^ 63 - 1))%Q).

Lemma below_multiples v k : ¬ (v == 0)%Q → (Qabs v <= inject_Z (2 ^ 63 - 1))%Q → ¬ (v == dec k 21)%Q.
Proof.
  intros H0 Hv E. assert (k ≠ 0) as Hk by (intros ->; apply H0; by rewrite E, dec_0). rewrite E in Hv. revert Hv. apply Qlt_not_le.
  rewrite (dec_at k 21 0), dec_Z by lia. assert (Qabs (inject_Z (k * 10 ^ (21 - 0))) == inject_Z (Z.abs (k * 10 ^ 21)))%Q as -> by done.
  rewrite <-Zlt_Qlt, Z.abs_mul. change (Z.abs (10 ^ 21)) with 1000000000000000000000. lia.
Qed.

Lemma q_AsScale_exact q v : represents q v → q_small q →
  ∃ w exact, q_AsScale q 0 = Some (w, exact) ∧
    (exact = true → ∀ V, (v == inject_Z V)%Q → V ≠ 0 → Z.log2 (Z.abs V) < 2 ^ 30 →
      ∃ m k, AsCanonicalBase1024Bytes w [] = Some (print_int m, k) ∧ V = m * 1024 ^ k ∧ 0 ≤ k) ∧
    (exact = true → ∃ V, (v == inject_Z V)%Q).
Proof.
  intros [Hw Hv] Hs. unfold q_AsScale, q_wf, qval, q_small in *. destruct (d q) as [x|].
  - destruct (dec_AsScale_exact x 0 Hw) as (z & exact & -> & Sz & Hr & He); [lia|]. cbn [mbind option_bind]. eexists _, exact. split; [done|].
    assert (dval z == inject_Z (unscaled z))%Q as Ez by (unfold dval; rewrite Sz; apply dec_Z).
    split; intros ->; pose proof (proj1 He eq_refl) as E; rewrite Hv in E; [|exists (unscaled z); by rewrite <-Ez, E].
    intros V HV H0 Hl. cbn [AsCanonicalBase1024Bytes]. apply (dec_AsCanonicalBase1024Bytes_spec z [] V); [lia|done|done|by rewrite E].
  - destruct Hs as [Ha He0]. pose proof (amt_AsScale_exact (i q) 0 Ha) as H. destruct (amt_AsScale (i q) 0) as [b exact]. destruct H as (Wb & He & Hb); [lia|].
    eexists _, exact. split; [done|].
    assert (Z.abs (exp b) < 2 ^ 28) as Heb by (destruct Hb as [[_ ->]|(_ & -> & _)]; lia).
    assert (0 ≤ exp b) as Hpos by (destruct Hb as [[? ->]|(_ & -> & _)]; lia).
    split; intros ->; pose proof (proj1 He eq_refl) as E; rewrite Hv in E.
    + intros V HV H0 Hl. cbn [AsCanonicalBase1024Bytes]. apply (amt_AsCanonicalBase1024Bytes_spec b [] V); [done..|]. by rewrite E.
    + exists (value b * 10 ^ exp b). rewrite <-E. unfold aval. rewrite (dec_at _ _ 0), dec_Z, Z.sub_0_r by done. done.
Qed.

Lemma abs_le_Z v V : (v == inject_Z V)%Q → (Qabs v <= inject_Z (2 ^ 63 - 1))%Q → Z.abs V < 2 ^ 63.
Proof. intros -> H. assert (inject_Z (Z.abs V) <= inject_Z (2 ^ 63 - 1))%Q as H' by exact H. rewrite <-Zle_Qle in H'. lia. Qed.

(** The canonical form is a string of the grammar that denotes the number. *)
Lemma CanonicalizeBytes_parses q v : represents q v → q_small q → printable (format q) v →
  ∃ number suffix q', CanonicalizeBytes q [] = Some (number, suffix) ∧ ParseQuantity (number ++ suffix) = Some (Ok q') ∧ represents q' v.
Proof.
  intros Hq Hs ([n Hn] & Hdec & Hbin). unfold CanonicalizeBytes. destruct (q_IsZero q) eqn:Ez.
  { apply (q_IsZero_exact q v Hq) in Ez. eexists _, _, _. split; [done|]. split; [done|]. split; [done|]. rewrite Ez. done. }
  assert (¬ (v == 0)%Q) as H0 by (intros E; apply (q_IsZero_exact q v Hq) in E; congruence).
  destruct (q_AsCanonicalBytes_spec q v Hs (proj2 Hq) H0) as (m & e & Eb & Hc & Hf).
  assert (∀ f, f = DecimalSI ∨ f = DecimalExponent → (f = DecimalSI → ∀ k, ¬ (v == dec k 21)%Q) →
    ∃ number suffix q', ('(number, exponent) ← q_AsCanonicalBytes q []; Some (number, default [] (constructBytes 10 exponent f))) = Some (number, suffix) ∧
      ParseQuantity (number ++ suffix) = Some (Ok q') ∧ represents q' v) as Hdecimal.
  { intros f Hff Hk. rewrite Eb. cbn [mbind option_bind]. destruct (decimal_form_parses m e f v Hff Hc Hf) as (q' & E & Hq'); [by split; [exists n|]|].
    by eexists _, _, q'. }
  unfold canonical_format. destruct (format q) eqn:Efmt; cbn [mbind option_bind].
  - apply Hdecimal; auto. done.
  - specialize (Hbin eq_refl). pose proof (λ k, below_multiples v k H0 Hbin) as Hk.
    rewrite (CmpInt64_exact q v), (CmpInt64_exact q v) by done. cbn [mbind option_bind].
    destruct (0 <? cmp_int (v ?= inject_Z (-1024))%Q); cbn [mbind option_bind].
    1: destruct (cmp_int (v ?= inject_Z 1024)%Q <? 0); cbn [mbind option_bind]; [apply Hdecimal; auto|].
    all: destruct (q_AsScale_exact q v Hq Hs) as (w & exact & -> & Hw & HV); cbn [mbind option_bind];
      destruct exact; cbn [negb]; [|apply Hdecimal; auto].
    all: destruct (HV eq_refl) as [V EV]; pose proof (abs_le_Z v V EV Hbin) as Hb.
    all: assert (V ≠ 0) as HV0 by (intros ->; apply H0; by rewrite EV).
    all: assert (Z.log2 (Z.abs V) < 2 ^ 30) as HlV by (assert (Z.log2 (Z.abs V) ≤ Z.log2 (2 ^ 63)) as Hl by (apply Z.log2_le_mono; lia); change (Z.log2 (2 ^ 63)) with 63 in Hl; lia).
    all: destruct (Hw eq_refl V EV HV0 HlV) as (m' & k & -> & Em & Hk0); cbn [mbind option_bind];
      destruct (binary_form_parses m' k V Em Hk0 HV0 Hb) as (q' & E & Hq'); eexists _, _, q'; split; [done|]; split; [done|]; by rewrite EV.
  - apply Hdecimal; auto. intros _. destruct (Hdec eq_refl); [done|done].
  - apply Hdecimal; auto. done.
Qed.

(** ** JSON *)
(** The characters of strings that are accepted. *)
Definition plain (c : ascii) : bool :=
  is_digit c || suffix_letter c || bool_decide (c = "+"%char) || bool_decide (c = "-"%char) || bool_decide (c = "."%char).

Lemma plain_digits l : Forall is_digit l → Forall plain l.
Proof. intros H. eapply Forall_impl; [done|]. intros c Hc%Is_true_true. apply Is_true_true. unfold plain. by rewrite Hc. Qed.

Lemma plain_letters l : Forall suffix_letter l → Forall plain l.
Proof. intros H. eapply Forall_impl; [done|]. intros c Hc%Is_true_true. apply Is_true_true. unfold plain. by rewrite Hc, orb_true_r. Qed.

Lemma scan_suffix_plain rest suf : scan_suffix rest = Some suf → Forall plain rest.
Proof.
  unfold scan_suffix. pose proof (span_spec suffix_letter rest) as H. destruct (span suffix_letter rest) as [ls r]. destruct H as (-> & Hl & _). intros E.
  apply Forall_app. split; [by apply plain_letters|]. destruct r as [|c r]; [constructor|]. destruct (bool_decide (c = "-"%char) || bool_decide (c = "+"%char)) eqn:Ec.
  - destruct (all_digits r) eqn:Ed; [|done]. constructor; [|by apply plain_digits, all_digits_spec].
    apply orb_true_iff in Ec as [Ec%bool_decide_eq_true|Ec%bool_decide_eq_true]; by subst c.
  - destruct (all_digits (c :: r)) eqn:Ed; [|done]. by apply plain_digits, all_digits_spec.
Qed.

Lemma scan_numerator_plain str pos sgn zs rest p : scan_numerator str pos sgn zs rest = Ok p → Forall plain rest.
Proof.
  unfold scan_numerator. pose proof (span_spec is_digit rest) as H. destruct (span is_digit rest) as [ds r]. destruct H as (-> & Hd & _). intros E.
  apply Forall_app. split; [by apply plain_digits|]. destruct r as [|c r]; [constructor|]. case_bool_decide as Ec.
  - pose proof (span_spec is_digit r) as H. destruct (span is_digit r) as [fs r']. destruct H as (-> & Hf & _). subst c. constructor; [done|]. apply Forall_app.
    split; [by apply plain_digits|]. destruct r' as [|c r']; [constructor|]. destruct (scan_suffix (c :: r')) eqn:Es; [|done]. by eapply scan_suffix_plain.
  - destruct (scan_suffix (c :: r)) eqn:Es; [|done]. by eapply scan_suffix_plain.
Qed.

Lemma parsed_plain str p : parseQuantityString str = Ok p → Forall plain str.
Proof.
  unfold parseQuantityString. assert (∃ pos sgn rest, scan_sign str = (pos, sgn, rest) ∧ str = sgn ++ rest ∧ Forall plain sgn) as (pos & sgn & rest & -> & -> & Hs).
  { unfold scan_sign. destruct str as [|c l]; [by eexists _, _, _|]. destruct (decide (c = "-"%char)) as [->|H1]; [by eexists _, _, _; split; [done|]; split; [done|repeat constructor]|].
    destruct (decide (c = "+"%char)) as [->|H2]; [by eexists _, _, _; split; [done|]; split; [done|repeat constructor]|]. exists true, [], (c :: l). split; [|done].
    destruct c as [[] [] [] [] [] [] [] []]; try done; exfalso; (by apply H1) || (by apply H2). }
  pose proof (span_spec (λ c, bool_decide (c = "0"%char)) rest) as H. destruct (span _ rest) as [zs r]. destruct H as (-> & Hz & _). intros E. apply Forall_app. split; [done|].
  apply Forall_app. split; [eapply Forall_impl; [done|]; intros c Hc; apply bool_decide_unpack in Hc as ->; done|]. destruct r as [|c r]; [constructor|].
  by eapply scan_numerator_plain.
Qed.

Lemma accepted_plain str q : ParseQuantity str = Some (Ok q) → str ≠ [] ∧ Forall plain str.
Proof.
  unfold ParseQuantity. case_bool_decide as E0; [done|]. case_bool_decide as E1; [intros _; subst str; split; [done|by repeat constructor]|].
  destruct (parseQuantityString str) as [p|] eqn:E; [|done]. intros _. split; [by intros ->|by eapply parsed_plain].
Qed.

Definition foreign (p : list ascii) : bool := match p with c :: _ => negb (plain c) | [] => false end.

Lemma trim_left_plain fuel prefixes l : Forall plain l →
  Forall foreign prefixes → trim_left fuel prefixes l = l.
Proof.
  intros Hl Hp. destruct fuel as [|fuel]; [done|]. cbn [trim_left]. destruct (List.find _ _) as [p|] eqn:E; [|done]. exfalso.
  apply List.find_some in E as [Hin E%bool_decide_eq_true]. apply list_elem_of_In in Hin. rewrite Forall_forall in Hp. specialize (Hp p Hin).
  destruct p as [|c p]; [done|]. destruct l as [|c' l]; [done|]. cbn in E. injection E as -> _. apply Forall_cons in Hl as [Hc _]. cbn in Hp. destruct (plain c); done.
Qed.

Lemma TrimSpace_plain l : Forall plain l → TrimSpace l = l.
Proof.
  intros Hl. unfold TrimSpace. rewrite (trim_left_plain (length l) spaces l); [|done|apply (bool_decide_unpack _); vm_compute; exact I].
  rewrite trim_left_plain; [apply reverse_involutive|by apply Forall_reverse|apply (bool_decide_unpack _); vm_compute; exact I].
Qed.

(** A string that is accepted is accepted in quotes. *)
Lemma UnmarshalJSON_quoted t q q0 : ParseQuantity t = Some (Ok q) → UnmarshalJSON (quote :: t ++ [quote]) q0 = Some (None, q).
Proof.
  intros Hq. unfold UnmarshalJSON. rewrite bool_decide_eq_false_2 by done. destruct (accepted_plain t q Hq) as [Hne Hp].
  assert (unquote (quote :: t ++ [quote]) = t) as ->. { unfold unquote. rewrite reverse_snoc. cbn. apply reverse_involutive. }
  rewrite TrimSpace_plain, Hq by done. done.
Qed.

(** ** Theorems *)
(** [C12] Every string of fewer than 2^28 digits, with a point anywhere, an optional sign,
    and a decimal or binary suffix or an exponent that is an integer of magnitude up to 2^29,
    is accepted and denotes its number: the product, rounded away from zero to a nano unit,
    and capped at 2^63-1 for the binary suffixes, whether the parser takes its fast path or
    not.  Exponents with a point, which the documented grammar allows, are not covered: the
    parser refuses them. *)
Theorem parsed_quantity_exact sgn ds frac su b e f :
  number_ok sgn ds frac → suffix_means su b e f → Z.of_nat (length ds + length (fraction frac)) < 2 ^ 28 →
  ∃ q n, ParseQuantity (number_text sgn ds frac ++ su) = Some (Ok q) ∧
    rounds RoundUp (phrase_value sgn ds frac b e * pow10 9) n ∧ represents q (dec (capped f n) (-9)).
Proof. apply ParseQuantity_exact. Qed.

Lemma parsed_quantity_exact_witness :
  number_text ["-"%char] (chars "12") (Some (chars "5")) ++ chars "Ki" = chars "-12.5Ki" ∧
  ∃ q n, ParseQuantity (number_text ["-"%char] (chars "12") (Some (chars "5")) ++ chars "Ki") = Some (Ok q) ∧
    rounds RoundUp (phrase_value ["-"%char] (chars "12") (Some (chars "5")) 2 10 * pow10 9) n ∧ represents q (dec (capped BinarySI n) (-9)).
Proof.
  split; [reflexivity|]. apply parsed_quantity_exact; [|apply (means_binary "Ki"); by left|by vm_compute].
  split_and!; [by right; right|by repeat constructor|by repeat constructor|done].
Defined.

(** [C11] What is printed is read back: the canonical form of a quantity, where no string is
    cached, is parsed to a quantity of the same number, as a string and as JSON.  The
    conditions are that the number is a multiple of a nano unit, and that the suffixes reach
    it: for a decimal suffix it is no multiple of 10^21, for a binary one at most 2^63-1. *)
Theorem quantity_print_parse q v :
  represents q v → q_small q → printable (format q) v → s q = [] →
  ∃ t q', q_String q = Some (t, set_s t q) ∧ ParseQuantity t = Some (Ok q') ∧ represents q' v ∧
    ∃ j, MarshalJSON q = Some j ∧ ∀ q0, UnmarshalJSON j q0 = Some (None, q').
Proof.
  intros Hq Hs Hp Es. destruct (CanonicalizeBytes_parses q v Hq Hs Hp) as (number & suffix & q' & Ec & Eq & Hq'). exists (number ++ suffix), q'.
  unfold q_String, MarshalJSON. rewrite Es, Ec. cbn [mbind option_bind]. do 3 (split; [done|]). eexists. split; [done|]. intros q0.
  rewrite app_assoc. by apply UnmarshalJSON_quoted.
Qed.

Lemma quantity_print_parse_witness :
  let q := NewQuantity 1572864 BinarySI in
  ∃ t q', q_String q = Some (t, set_s t q) ∧ ParseQuantity t = Some (Ok q') ∧ represents q' (inject_Z 1572864) ∧
    ∃ j, MarshalJSON q = Some j ∧ ∀ q0, UnmarshalJSON j q0 = Some (None, q').
Proof.
  apply (quantity_print_parse (NewQuantity 1572864 BinarySI)).
  - split; [split; [split; by vm_compute|by vm_compute]|by vm_compute].
  - split; [split; [split; by vm_compute|by vm_compute]|by vm_compute].
  - split; [exists (1572864 * 10 ^ 9); by vm_compute|]. split; [done|]. intros _. by vm_compute.
  - reflexivity.
Defined.

(** A number beyond the suffixes is printed without one: a thousand E is printed as 1. *)
Theorem large_quantity_misprinted : parsed_String "1000E" = Some "1" ∧ (∃ q, MustParse (chars "1000E") = Some q ∧ (qval q == dec 1 21)%Q).
Proof. split; [by vm_compute|]. eexists. split; [by vm_compute|by vm_compute]. Qed.

(** Strings that are not in canonical form are kept as if they were. *)
Theorem noncanonical_kept :
  parsed_String "1.500" = Some "1.500" ∧ parsed_String "+05" = Some "+05" ∧ parsed_String "5e0" = Some "5e0" ∧ parsed_String "1E3" = Some "1E3".
Proof. by vm_compute. Qed.

(** Strings without a digit are accepted as zero, although the regular expression that errors
    name asks for one. *)
Theorem no_digits_accepted : Forall (λ str, parsed_String str = Some "0") ["+"; "-"; "Ki"; "e5"; "."].
Proof. by repeat constructor. Qed.

(** The documented grammar takes any signed number for an exponent; the parser refuses those
    with a point. *)
Theorem fractional_exponents_refused :
  Forall (λ str, ParseQuantity (chars str) = Some (Err ErrFormatWrong)) ["1e1.5"; "1e.5"; "1E2."].
Proof. by repeat constructor. Qed.

(** Exponents of more than 32 bits are truncated, and one near the bound wraps around. *)
Theorem exponents_truncated :
  (∃ q, MustParse (chars "1e4294967296") = Some q ∧ (qval q == 1)%Q) ∧
  (∃ q, MustParse (chars "1.1e-2147483648") = Some q ∧ i q = MkAmount 11 (2 ^ 31 - 1)).
Proof. split; eexists; (split; [by vm_compute|by vm_compute]). Qed.

(** Nineteen digits and an exponent near the bound make the parser panic: the scale wraps
    around and becomes a negative index. *)
Theorem parser_panics : ParseQuantity (chars "1234567890123456789e2147483639") = None.
Proof. by vm_compute. Qed.
